(* ===== verification/_CoqProject ===== *)
-Q . S2P
Prelude.v
Checksum.v
Net.v
Packet.v
TunRewrite.v
TunSession.v
RustStr.v
Tuning.v
DestPolicy.v
Stats.v
Sessions.v
RateLimit.v
AccountBudget.v
Auth.v
Frames.v
HttpApi.v
StatsRates.v
Handler.v
V2State.v
V2Rx.v
V2Shard.v
V2Tun.v
V2Inv.v
V2Safe.v
V2Thms.v
V2Auth.v
V2Flows.v
V2Data.v
V2Trace.v
V2Frames.v
V2Deliver.v
ShardLoop.v
V2Drain.v
V2Idle.v
V1.v
V1Keys.v
V1Safe.v
V1Sim.v
V1Thms.v
V1Live.v
V1Auth.v
V1Trace.v
Startup.v
Os.v
Documents.v
Serve.v
Locks.v
TestKit.v
TestsPolicy.v
TestsPacket.v
TestsAuth.v
TestsTables.v
TestsHttp.v
TestsTun.v
TestsV2.v
