(* ===== verification/Prelude.v ===== *)
(** * SwiftTunnel relay: verification library

    The relay (src/src/*.rs) is a UDP server.  A client sends datagrams that
    start with an eight-byte session id; the rest is a control frame or an
    IPv4 packet.  The relay authenticates the session with a signed ticket,
    filters and meters the packet, sends its UDP payload to the game server
    from a socket of its own (or the whole packet through a TUN device), and
    sends what comes back to the client as an IPv4 packet.  This library
    models that program and proves what makes it safe to run: no input makes
    it panic, nothing is forwarded for a session that is not authorised or to
    a destination that is not permitted, data only goes to who presented a
    ticket, and its tables and counters stay consistent.

    ** Parts of the program and where they are modelled

    Foundations.
    - Prelude.v (this file): panics ([outcome]), results, record updates
      ([x <| field := v |>]), fixed-width integers, slices that panic out of
      range, the tactics and hints of the library.
    - RustStr.v: the text operations of the standard library the code calls
      (trim, split, decimal and UTF-8 conversion, also the lossy one).
    - Handler.v: loop bodies with early [continue] as [handler]s over a state,
      with total ([hoare], [keeps]) and partial ([ends], [stays], [leaves])
      rules and their automation.

    Packets.
    - Checksum.v: [calculate_ip_checksum] (main.rs), the incremental update of
      tcp_tun.rs, against the one's complement sum.
    - Net.v: addresses, [is_forbidden_dst], [is_forbidden_dst_port], and the
      class [DestGate], what the parser expects of a destination policy.
    - Packet.v: [parse_ip_packet_full], [build_response_ip_packet_with_tos]
      (main.rs), [write_response_ip_packet_into_with_tos] (datapath_v2.rs).
    - TunRewrite.v, TunSession.v: tcp_tun.rs, address rewriting and the two
      maps between sessions and TUN addresses, with the writer and the
      cleanup interleaved ([tun_step]).

    Policies and tables.
    - DestPolicy.v: dest_policy.rs, prefix sets, the allowlist file, modes,
      decisions and counters; the instance of [DestGate].
    - AccountBudget.v: account_budget.rs, windows per account, [event] split
      where it does not hold the map, [maintain], the percentile.
    - RateLimit.v, Sessions.v, Stats.v: the per-source windows, the session
      table with its counts and leases, the counters of main.rs.
    - Auth.v: [RelayAuthConfig], [verify_relay_ticket], the replay cache, the
      hello frame.  Frames.v: ping, RTT, resolve frames, address printing.
    - Tuning.v, Startup.v: the environment variables, the start of [main] and
      the configuration it hands to a datapath.
    - HttpApi.v, StatsRates.v, Documents.v, Serve.v: the statistics and health
      endpoints, the connections document, the sampled rates in [f64], the
      other documents as trees, and the thread that keeps the cached
      connections document, beside the datapath.
    - Locks.v: locks whose holder panicked, and the two ways the code takes
      them.
    - Os.v: sockets as a table of descriptors, the TUN device and the commands
      that configure it, control messages, thread supervision, the accept
      loops; every system call can fail.

    The sharded datapath (datapath_v2.rs), one RX thread, shards that own the
    flows, one TX thread, a cleanup task, the TUN threads.
    - V2State.v: the state [V2] and the buffer pool; V2Rx.v: [rx_step], one
      datagram; V2Shard.v: [shard_event], [shard_inbox], [shard_cleanup],
      [tx_step], [close_begin], [close_finish], [cleanup_step]; V2Tun.v: the
      TUN threads and the response thread of main.rs.
    - V2Inv.v, V2Safe.v: the invariant and that each thread keeps it;
      V2Thms.v, V2Flows.v, V2Auth.v: the theorems on runs.
    - V2Data.v: claims on the contents of pool buffers, kept while the buffers
      travel between threads; V2Trace.v, V2Frames.v: what is sent is traced to
      what was received, and has the right format.
    - V2Deliver.v: the converse, what the relay admits is delivered;
      V2Drain.v: the queues empty and the pool is whole again.
    - ShardLoop.v: the loop of [run_shard], put together from the handlers and
      related to the turns of a run; V2Idle.v: the life of an idle flow.

    The tokio datapath (the loop of [main] in main.rs, [run_flow_handler],
    the response sender, the cleanup task).
    - V1.v: state and turns; V1Keys.v, V1Safe.v, V1Thms.v, V1Live.v, V1Auth.v:
      theorems; V1Sim.v: the two receive loops compared; V1Trace.v: what is
      sent is traced to what was received.

    The unit tests at the end of the source files.
    - TestKit.v, TestsPolicy.v, TestsPacket.v, TestsAuth.v, TestsTables.v,
      TestsHttp.v, TestsTun.v, TestsV2.v: the tests translated one by one and
      run on the model, each suite closed by a theorem that all of it passes.

    ** How state and time are modelled

    Both datapaths are transition systems: a [turn] names a thread and its
    inputs, [v2_run] and [v1_run] execute any list of turns, so a theorem on
    runs holds for every interleaving of turns.  In the sharded datapath a
    turn is one iteration of a thread's loop (a datagram, a message, a burst
    of one flow, a packet to send) with its clock readings as inputs.  In the
    tokio datapath the receive loop yields between the lookup of a flow and
    its publication, and the cleanup between its phases; those are separate
    turns, as is each event of a flow task.  Where one thread gives up a lock
    in the middle of an update that others can see, both datapaths have a
    turn for each half: the cleanup closes a session in two turns, before and
    after it gives up the guard of the source's counter ([close_begin],
    [close_finish]; V2Shard.v), the TUN writer updates its two maps in two
    turns ([tun_assign_turn], [tun_commit_turn]; V2Tun.v), and the TUN maps
    are cleaned entry by entry ([expire_tun]).  A whole pass of the cleanup,
    not interrupted, is a turn as well.  Channels are lists with the capacity the code gives them,
    concurrent maps are finite maps, [Instant]s are nanoseconds and wall
    clocks seconds in [Z]; counters and tokens wrap at 64 bits.

    ** What the theorems show

    - No panic: from the state the relay starts in, with any environment,
      every run of either datapath returns, and between turns every pool
      buffer, which the code accesses with [unsafe], is in exactly one place.
    - Authorisation: with authentication on, a datagram is only forwarded for
      an authenticated session with a current lease from its own address,
      ownership of a session never passes to another account, and data (from
      flows or the TUN, in both datapaths) only goes to an address that
      presented a verified ticket for that session, current when it is sent.
      Tickets are bound to key, server and session; a ticket id is accepted
      again only once its ticket is over.  The relay starts closed.
    - Provenance, in both datapaths: each datagram sent to a game server is the payload of a
      client packet received for that session and destination, each packet
      written to the TUN comes from a client packet, and each frame sent to a
      client answers a datagram, or carries a game server's datagram of that
      session, whole; all of it well-formed.
    - Delivery, in the sharded datapath: in any state a run reaches, a client
      packet that meets the conditions the code checks leaves on its flow with
      its payload unchanged, a game server's datagram leaves for the session's
      present address, and once nothing new arrives a bounded number of turns
      empties every queue and frees every buffer.
    - Filtering: what the parser hands on is permitted by the blocklists and
      the policy; prefix lookup by binary search is the linear scan; the
      policy refines its specification; enforcement needs a usable file.
    - Packets: response packets parse back, both builders agree, rewriting
      keeps all checksums valid, also on first fragments; in any interleaving
      of the writer and the cleanup no two sessions share a TUN address, and
      the TUN path translates a response back.
    - Tables: gauges and drop reasons agree with the tables, and the
      per-source session counters never exceed the sessions of the source;
      they are exact unless a datagram is handled between the halves of a
      closing, which can lose a counter ([closing_race_loses_counter]); the
      three flow tables of a shard agree, a session that ends leaves no
      flow behind, flows of the tokio datapath have exactly one live task, and
      a task without an entry ends; the search for a token terminates.
    - Limits: rate windows and account budgets bound what is admitted per
      second; the pruned limiter refines one that never forgets.
    - Both receive loops take the same decisions from the same tables.
    - Endpoints: statistics need the token, requests may arrive in any pieces,
      the connections document served lists exactly the sessions of a table
      the relay had, and the statistics document agrees with the tables.
    - Loops and resources: an iteration of a shard is a run of its handlers, a
      flow is closed exactly when it was idle for the timeout and the grace
      period, sockets are opened with all their required options or not at
      all.

    ** Fuel

    Loops that are not structural take fuel: carry folding (two rounds, more
    change nothing, Checksum.v), binary search (the size of the list,
    DestPolicy.v), address assignment (the pairs of bytes the loop has),
    token search (one more than the tokens in use, [flow_token_found] in
    V2Flows.v), decimal printing (20 digits hold any 64-bit number).

    ** Parameters

    Third-party code is a parameter: base64, Ed25519 and JSON decoding are the
    class [TicketCrypto] (every theorem holds for all instances; witnesses use
    a small concrete one), the hash of the pending limiter, DNS lookups, the
    text [serde_json] makes of a document.  System calls are inputs: datagrams, results
    of creating, registering, sending on and reading from sockets, the TUN
    device and the clocks.

    ** Not modelled

    Logging and the texts of log lines, the text [serde_json] produces, the
    code for systems other than Linux (it only reports that there is no TUN),
    and the operator scripts: their effects are outside the program's own
    state or only text.  Of the unit tests: the microbenchmarks,
    the tests of the base64 crate, and one that searches the source text. *)

From Stdlib Require Export ZArith Lia.
From stdpp Require Export base tactics gmap list sorting numbers countable.

#[global] Open Scope Z_scope.

(* ------------------------------------------------------------------ *)
(** ** Panics

    Rust code that indexes a slice out of range, or slices with bad bounds,
    panics.  [outcome] makes that visible: an operation returns [Ret] or
    [Panic], and "never panics" is a theorem and not a modelling choice. *)

Inductive outcome (A : Type) : Type :=
| Ret (a : A)
| Panic.
Arguments Ret {A} a.
Arguments Panic {A}.

Definition obind {A B} (m : outcome A) (k : A -> outcome B) : outcome B :=
  match m with
  | Ret a => k a
  | Panic => Panic
  end.

Declare Scope relay_scope.
Delimit Scope relay_scope with relay.
Notation "'let*' x ':=' m 'in' k" := (obind m (fun x => k))
  (at level 10, x pattern, m at level 100, k at level 200,
   format "'[v' 'let*'  x  ':='  m  'in' '/' k ']'") : relay_scope.
#[global] Open Scope relay_scope.

(** The test [m] returns normally with a value satisfying [Q]. *)
Definition returns {A} (m : outcome A) (Q : A -> Prop) : Prop :=
  match m with
  | Ret a => Q a
  | Panic => False
  end.

(** [Result<A, E>], with the [?] operator as [let? x := m in k]. *)
Inductive result (A E : Type) : Type :=
| Ok (a : A)
| Err (e : E).
Arguments Ok {A E} a.
Arguments Err {A E} e.

Definition rbind {A B E} (m : result A E) (k : A -> result B E) : result B E :=
  match m with
  | Ok a => k a
  | Err e => Err e
  end.

(** [Option::ok_or]. *)
Definition ok_or {A E} (o : option A) (e : E) : result A E :=
  match o with
  | Some a => Ok a
  | None => Err e
  end.

Notation "'let?' x ':=' m 'in' k" := (rbind m (fun x => k))
  (at level 10, x pattern, m at level 100, k at level 200,
   format "'[v' 'let?'  x  ':='  m  'in' '/' k ']'") : relay_scope.

(* ------------------------------------------------------------------ *)
(** ** Record update: [r <| f := v |>] and [r <| f ::= g |>]

    Each record declares an [Eta] instance; the setter of a projection is
    computed from it. *)

Class Eta (R : Type) := eta_expand : R -> R.

Class Setter {R E : Type} (proj : R -> E) := upd : (E -> E) -> R -> R.
Arguments upd {R E} proj {Setter} f r /.

Ltac derive_setter :=
  lazymatch goal with
  | |- @Setter ?R ?E ?proj =>
    let inst := constr:(_ : Eta R) in
    let body := eval hnf in inst in
    exact (fun (f : E -> E) (r : R) =>
      ltac:(let b := eval cbv beta in (body r) in
            let p := eval pattern (proj r) in b in
            lazymatch p with
            | ?F _ => let q := eval cbv beta in (F (f (proj r))) in exact q
            end))
  end.
#[global] Hint Extern 0 (@Setter _ _ _) => derive_setter : typeclass_instances.

Notation "r <| f := v |>" := (upd f (fun _ => v) r)
  (at level 1, left associativity, f at level 9) : relay_scope.
Notation "r <| f ::= g |>" := (upd f g r)
  (at level 1, left associativity, f at level 9) : relay_scope.

(* ------------------------------------------------------------------ *)
(** ** Machine integers

    A [w]-bit integer is a [Z]; every operation that can leave the range
    says how it comes back. *)

Definition wrap (w : Z) (x : Z) : Z := x mod 2 ^ w.
Abbreviation u8 := (wrap 8).
Abbreviation u16 := (wrap 16).
Abbreviation u32 := (wrap 32).
Abbreviation u64 := (wrap 64).

Definition u64_max : Z := 2 ^ 64 - 1.

(** [a.saturating_add(b)] and [a.saturating_sub(b)] on [u64]. *)
Definition sat_add (a b : Z) : Z := Z.min u64_max (a + b).
Definition sat_sub (a b : Z) : Z := Z.max 0 (a - b).

(** [!x] on a [w]-bit integer. *)
Definition bnot (w : Z) (x : Z) : Z := 2 ^ w - 1 - x.

Definition in_width (w : Z) (x : Z) : Prop := 0 <= x < 2 ^ w.
Abbreviation is_byte := (in_width 8).
Abbreviation is_u16 := (in_width 16).
Abbreviation is_u32 := (in_width 32).
Abbreviation is_u64 := (in_width 64).

(** Instants are nanoseconds on the monotonic clock; durations likewise.
    [Instant::duration_since] saturates at zero. *)
Definition secs (n : Z) : Z := n * 1000000000.
Definition millis (n : Z) : Z := n * 1000000.
Definition duration_since (later earlier : Z) : Z := Z.max 0 (later - earlier).

(* ------------------------------------------------------------------ *)
(** ** Slices of bytes *)

Definition bytes_ok (l : list Z) : Prop := Forall (in_width 8) l.

(** [l[i]]. *)
Definition rd {A} (l : list A) (i : nat) : outcome A :=
  match l !! i with
  | Some b => Ret b
  | None => Panic
  end.

(** [l[i] = v]. *)
Definition wr {A} (l : list A) (i : nat) (v : A) : outcome (list A) :=
  if (i <? length l)%nat then Ret (<[i := v]> l) else Panic.

(** [&l[a..b]]. *)
Definition slice {A} (l : list A) (a b : nat) : outcome (list A) :=
  if (a <=? b)%nat && (b <=? length l)%nat then Ret (take (b - a) (drop a l)) else Panic.

(** [l[a..b].copy_from_slice(src)]. *)
Definition copy_from_slice {A} (l : list A) (a b : nat) (src : list A)
  : outcome (list A) :=
  if (a <=? b)%nat && (b <=? length l)%nat && (length src =? b - a)%nat
  then Ret (take a l ++ src ++ drop b l)
  else Panic.

(** [u16::from_be_bytes([hi, lo])] and, generally, [uN::from_be_bytes]. *)
Definition be16 (hi lo : Z) : Z := hi * 256 + lo.
Definition from_be_bytes (l : list Z) : Z := fold_left (fun acc b => acc * 256 + b) l 0.

(** [x.to_be_bytes()] for an [n]-byte integer. *)
Fixpoint to_be_bytes (n : nat) (x : Z) : list Z :=
  match n with
  | O => []
  | S n' => (x / 256 ^ Z.of_nat n') mod 256 :: to_be_bytes n' x
  end.

(** [u16::from_be_bytes([l[i], l[i + 1]])]. *)
Definition rd16 (l : list Z) (i : nat) : outcome Z :=
  let* hi := rd l i in
  let* lo := rd l (i + 1) in
  Ret (be16 hi lo).

(* ------------------------------------------------------------------ *)
(** ** Lemmas: outcomes *)

Create HintDb relay.

Lemma returns_bind {A B} (m : outcome A) (k : A -> outcome B) Q :
  returns (obind m k) Q <-> returns m (fun a => returns (k a) Q).
Proof. destruct m; reflexivity. Qed.

Lemma obind_inv {A B} (m : outcome A) (k : A -> outcome B) b :
  obind m k = Ret b -> exists a, m = Ret a /\ k a = Ret b.
Proof. destruct m; [cbn; eauto | discriminate]. Qed.

Lemma returns_Ret {A} (a : A) (Q : A -> Prop) : Q a -> returns (Ret a) Q.
Proof. exact id. Qed.

Lemma returns_mono {A} (m : outcome A) (P Q : A -> Prop) :
  returns m P -> (forall a, P a -> Q a) -> returns m Q.
Proof. destruct m; cbn; auto. Qed.

Lemma returns_inv {A} (m : outcome A) Q : returns m Q -> exists a, m = Ret a /\ Q a.
Proof. destruct m; cbn; [eauto | contradiction]. Qed.

Lemma returns_rd {A} (l : list A) i (Q : A -> Prop) :
  (i < length l)%nat -> (forall b, l !! i = Some b -> Q b) -> returns (rd l i) Q.
Proof.
  intros Hi HQ. unfold rd.
  destruct (lookup_lt_is_Some_2 l i Hi) as [b Hb]. rewrite Hb. cbn. auto.
Qed.

Lemma returns_slice {A} (l : list A) a b (Q : list A -> Prop) :
  (a <= b <= length l)%nat -> Q (take (b - a) (drop a l)) -> returns (slice l a b) Q.
Proof.
  intros Hab HQ. unfold slice.
  rewrite (proj2 (Nat.leb_le a b)), (proj2 (Nat.leb_le b (length l))) by lia. exact HQ.
Qed.

Lemma returns_rd16 (l : list Z) i (Q : Z -> Prop) :
  (i + 1 < length l)%nat ->
  (forall hi lo, l !! i = Some hi -> l !! (i + 1)%nat = Some lo -> Q (be16 hi lo)) ->
  returns (rd16 l i) Q.
Proof.
  intros Hi HQ. unfold rd16. rewrite returns_bind. apply returns_rd; [lia|]. intros hi Hhi.
  rewrite returns_bind. apply returns_rd; [lia|]. intros lo Hlo. cbn. auto.
Qed.

(** Boolean tests as propositions, in every hypothesis. *)
Ltac bool_hyps :=
  repeat match goal with
  | H : negb _ = true |- _ => apply negb_true_iff in H
  | H : negb _ = false |- _ => apply negb_false_iff in H
  | H : _ || _ = false |- _ => apply orb_false_iff in H; destruct H
  | H : _ && _ = true |- _ => apply andb_true_iff in H; destruct H
  | H : (_ <? _)%nat = true |- _ => apply Nat.ltb_lt in H
  | H : (_ <? _)%nat = false |- _ => apply Nat.ltb_ge in H
  | H : (_ <=? _)%nat = true |- _ => apply Nat.leb_le in H
  | H : (_ <=? _)%nat = false |- _ => apply Nat.leb_gt in H
  | H : (_ =? _)%nat = true |- _ => apply Nat.eqb_eq in H
  | H : (_ =? _)%nat = false |- _ => apply Nat.eqb_neq in H
  | H : (_ <? _) = true |- _ => apply Z.ltb_lt in H
  | H : (_ <? _) = false |- _ => apply Z.ltb_ge in H
  | H : (_ <=? _) = true |- _ => apply Z.leb_le in H
  | H : (_ <=? _) = false |- _ => apply Z.leb_gt in H
  | H : (_ =? _) = true |- _ => apply Z.eqb_eq in H
  | H : (_ =? _) = false |- _ => apply Z.eqb_neq in H
  end.

(** One step of symbolic execution of a [returns] goal.  [rd] and [slice]
    leave their bounds to [lia]. *)
Ltac ostep :=
  lazymatch goal with
  | |- returns (obind _ _) _ => apply returns_bind
  | |- returns (Ret _) _ => apply returns_Ret
  | |- returns (rd _ _) _ =>
      apply returns_rd; [bool_hyps; lia | let H := fresh "Hrd" in intros ? H]
  | |- returns (rd16 _ _) _ =>
      apply returns_rd16; [bool_hyps; lia | let H := fresh "Hrd" in intros ? ? H ?]
  | |- returns (slice _ _ _) _ => apply returns_slice; [bool_hyps; lia |]
  | |- returns (if ?b then _ else _) _ => let H := fresh "Hif" in destruct b eqn:H
  | |- returns (match ?x with _ => _ end) _ => let H := fresh "Hm" in destruct x eqn:H
  end.

Lemma rd_lookup {A} (l : list A) i b : l !! i = Some b -> rd l i = Ret b.
Proof. intros H. unfold rd. by rewrite H. Qed.

Lemma rd_Ret_inv {A} (l : list A) i b : rd l i = Ret b -> l !! i = Some b.
Proof. unfold rd. destruct (l !! i); congruence. Qed.

Lemma wr_lt {A} (l : list A) i v : (i < length l)%nat -> wr l i v = Ret (<[i:=v]> l).
Proof. intros H. unfold wr. by rewrite (proj2 (Nat.ltb_lt _ _) H). Qed.

Lemma bytes_ok_lookup l i b : bytes_ok l -> l !! i = Some b -> is_byte b.
Proof. intros Hl Hi. eapply Forall_lookup_1; eauto. Qed.

Lemma bytes_ok_insert l i b : bytes_ok l -> is_byte b -> bytes_ok (<[i:=b]> l).
Proof. intros. by apply Forall_insert. Qed.

Lemma bytes_ok_take l n : bytes_ok l -> bytes_ok (take n l).
Proof. apply Forall_take. Qed.

Lemma bytes_ok_drop l n : bytes_ok l -> bytes_ok (drop n l).
Proof. apply Forall_drop. Qed.

Lemma bytes_ok_app l k : bytes_ok l -> bytes_ok k -> bytes_ok (l ++ k).
Proof. intros. by apply Forall_app. Qed.

#[global] Hint Resolve bytes_ok_take bytes_ok_drop bytes_ok_insert bytes_ok_app : relay.

(* ------------------------------------------------------------------ *)
(** ** Lemmas: integers *)

Lemma wrap_bound w x : 0 <= w -> in_width w (wrap w x).
Proof. intros. apply Z.mod_pos_bound. lia. Qed.

Lemma wrap_small w x : in_width w x -> wrap w x = x.
Proof. intros. by apply Z.mod_small. Qed.

Lemma bnot_bound w x : in_width w x -> in_width w (bnot w x).
Proof. unfold in_width, bnot. lia. Qed.

Lemma be16_bound hi lo : is_byte hi -> is_byte lo -> is_u16 (be16 hi lo).
Proof. unfold in_width, be16. lia. Qed.

(** [(hi << 8) | lo] is [hi * 256 + lo] on bytes. *)
Lemma lor_shiftl8 hi lo : is_byte lo -> Z.lor (Z.shiftl hi 8) lo = be16 hi lo.
Proof.
  intros [Hlo1 Hlo2]. unfold be16.
  rewrite Z.shiftl_mul_pow2 by lia.
  rewrite <- Z.add_nocarry_lor; [reflexivity|].
  apply Z.bits_inj'. intros n Hn. rewrite Z.land_spec, Z.bits_0.
  destruct (Z.lt_ge_cases n 8).
  - rewrite Z.mul_pow2_bits_low by lia. reflexivity.
  - destruct (Z.eq_dec lo 0) as [->|]; [rewrite Z.bits_0; apply andb_false_r|].
    rewrite (Z.bits_above_log2 lo n); [apply andb_false_r | lia |].
    apply Z.log2_lt_pow2; [lia|].
    apply Z.lt_le_trans with (2 ^ 8); [lia|]. apply Z.pow_le_mono_r; lia.
Qed.

Lemma land_ones_mod x n : 0 <= n -> Z.land x (2 ^ n - 1) = x mod 2 ^ n.
Proof. intros. rewrite <- Z.land_ones by lia. f_equal. rewrite Z.ones_equiv. lia. Qed.

Lemma land255 x : Z.land x 255 = x mod 256.
Proof. apply (land_ones_mod x 8). lia. Qed.

Lemma land65535 x : Z.land x 65535 = x mod 65536.
Proof. apply (land_ones_mod x 16). lia. Qed.

Lemma land15 x : Z.land x 15 = x mod 16.
Proof. apply (land_ones_mod x 4). lia. Qed.

Lemma shiftr_div x n : 0 <= n -> Z.shiftr x n = x / 2 ^ n.
Proof. apply Z.shiftr_div_pow2. Qed.

Lemma to_be_bytes_length n x : length (to_be_bytes n x) = n.
Proof. induction n; cbn; congruence. Qed.

Lemma to_be_bytes_ok n x : bytes_ok (to_be_bytes n x).
Proof.
  induction n; cbn; constructor; auto. apply Z.mod_pos_bound. lia.
Qed.
#[global] Hint Resolve to_be_bytes_ok : relay.

Lemma from_be_bytes_acc l acc :
  fold_left (fun a b => a * 256 + b) l acc
  = acc * 256 ^ Z.of_nat (length l) + from_be_bytes l.
Proof.
  unfold from_be_bytes. revert acc. induction l as [|b l IH]; intros acc; cbn [fold_left length].
  - change (Z.of_nat 0) with 0. lia.
  - rewrite IH, (IH (0 * 256 + b)), Nat2Z.inj_succ, Z.pow_succ_r by lia. lia.
Qed.

Lemma from_be_bytes_cons b l :
  from_be_bytes (b :: l) = b * 256 ^ Z.of_nat (length l) + from_be_bytes l.
Proof. unfold from_be_bytes at 1. cbn [fold_left]. apply from_be_bytes_acc. Qed.

Lemma from_be_bytes_bound l :
  bytes_ok l -> 0 <= from_be_bytes l < 256 ^ Z.of_nat (length l).
Proof.
  induction 1 as [|b l Hb Hl IH]; [cbn; lia|].
  rewrite from_be_bytes_cons. cbn [length]. rewrite Nat2Z.inj_succ, Z.pow_succ_r by lia.
  unfold in_width in Hb. nia.
Qed.

Lemma byte_mod x : is_byte (x mod 256).
Proof. apply (Z.mod_pos_bound x 256). lia. Qed.
#[global] Hint Resolve byte_mod : relay.

(** Byte-ness of a literal list, element by element. *)
Ltac bytes_list :=
  unfold bytes_ok;
  repeat first [apply List.Forall_nil | apply List.Forall_cons];
  first [assumption | apply byte_mod | unfold in_width; lia | auto with relay].

(** Encoding then decoding an integer keeps it modulo its width. *)
Lemma from_to_be_bytes n x : from_be_bytes (to_be_bytes n x) = x mod 256 ^ Z.of_nat n.
Proof.
  induction n as [|n IH]; [cbn; by rewrite Z.mod_1_r|].
  cbn [to_be_bytes]. rewrite from_be_bytes_cons, to_be_bytes_length, IH.
  rewrite Nat2Z.inj_succ, Z.pow_succ_r by lia.
  assert (0 < 256 ^ Z.of_nat n) by lia.
  rewrite (Z.mul_comm 256), Z.rem_mul_r by lia. lia.
Qed.

(** Quotient and remainder are unique. *)
Lemma euclid_unique b r1 r2 q1 q2 :
  0 <= r1 < b -> 0 <= r2 < b -> r1 + b * q1 = r2 + b * q2 -> r1 = r2 /\ q1 = q2.
Proof.
  intros H1 H2 E. assert (q1 = q2) as ->; [|lia].
  destruct (Z.lt_trichotomy q1 q2) as [|[|]]; [exfalso; nia | done | exfalso; nia].
Qed.

Lemma to_be_bytes_mod n x y :
  x mod 256 ^ Z.of_nat n = y mod 256 ^ Z.of_nat n -> to_be_bytes n x = to_be_bytes n y.
Proof.
  revert x y. induction n as [|n IH]; intros x y E; [reflexivity|].
  rewrite Nat2Z.inj_succ, Z.pow_succ_r in E by lia.
  assert (0 < 256 ^ Z.of_nat n) as Hp by lia.
  rewrite (Z.mul_comm 256), !Z.rem_mul_r in E by lia.
  destruct (euclid_unique (256 ^ Z.of_nat n) _ _ _ _
    (Z.mod_pos_bound x _ Hp) (Z.mod_pos_bound y _ Hp) E) as [E1 E2].
  cbn. f_equal; [exact E2 | apply IH; exact E1].
Qed.

(** Decoding then encoding bytes gives the same bytes. *)
Lemma to_from_be_bytes l : bytes_ok l -> to_be_bytes (length l) (from_be_bytes l) = l.
Proof.
  induction 1 as [|b l Hb Hl IH]; [reflexivity|].
  pose proof (from_be_bytes_bound l Hl). unfold in_width in Hb.
  cbn [length to_be_bytes]. rewrite from_be_bytes_cons. f_equal.
  - rewrite Z.div_add_l, Z.div_small by lia. rewrite Z.add_0_r. apply Z.mod_small. lia.
  - etransitivity; [|exact IH]. apply to_be_bytes_mod.
    rewrite Z.add_comm, Z.mod_add by lia. reflexivity.
Qed.

(** Expose the first [n] elements of a list known to be long enough. *)
Tactic Notation "uncons_list" hyp(l) integer(n) :=
  do n (destruct l as [|? l]; [cbn [length] in *; exfalso; lia|]).
