(* ===== verification/Checksum.v ===== *)
(** * The Internet checksum (RFC 1071) as the relay computes it

    [calculate_ip_checksum] (src/main.rs) sums 16-bit big-endian words into a
    [u32] with wrap-around, folds the carries in a [while] loop and
    complements.  The TUN rewriter (src/tcp_tun.rs) contains the same folding
    loop and an incremental update of a transport checksum after an address
    change.  This file models the three and relates them to the mathematical
    one's complement sum [onec (word_sum l)]. *)

From S2P Require Import Prelude.

(* ------------------------------------------------------------------ *)
(** ** The code *)

(** The summing loop: [for i in (0..header.len()).step_by(2)] with
    [sum = sum.wrapping_add(word)]. *)
Fixpoint ip_words_sum (sum : Z) (header : list Z) : Z :=
  match header with
  | a :: b :: rest => ip_words_sum (u32 (sum + Z.lor (Z.shiftl a 8) b)) rest
  | [a] => u32 (sum + Z.shiftl a 8)
  | [] => sum
  end.

(** [while sum >> 16 != 0 { sum = (sum & 0xFFFF) + (sum >> 16); }].  A [u32]
    needs at most two rounds: [fold_carries_fuel] shows that more fuel
    changes nothing and that the loop condition is false at the end. *)
Fixpoint fold_carries_loop (fuel : nat) (sum : Z) : Z :=
  match fuel with
  | O => sum
  | S fuel' =>
      if Z.shiftr sum 16 =? 0 then sum
      else fold_carries_loop fuel' (Z.land sum 0xFFFF + Z.shiftr sum 16)
  end.

Definition fold_carries (sum : Z) : Z := fold_carries_loop 3 sum.

(** [!sum as u16]. *)
Definition complement16 (sum : Z) : Z := u16 (bnot 32 sum).

Definition calculate_ip_checksum (header : list Z) : Z :=
  complement16 (fold_carries (ip_words_sum 0 header)).

(** The arithmetic of [adjust_checksum_for_ipv4_addr_change] on the 16-bit
    halves of the two addresses; [!x as u32] of a [u16] zero-extends. *)
Definition adjust_checksum_halves
  (checksum old_hi old_lo new_hi new_lo : Z) : Z :=
  bnot 16 (u16 (fold_carries
    (u32 (bnot 16 checksum + Z.land (bnot 16 old_hi) 0xFFFF + new_hi
          + Z.land (bnot 16 old_lo) 0xFFFF + new_lo)))).

(* ------------------------------------------------------------------ *)
(** ** The mathematical sum *)

Fixpoint word_sum (l : list Z) : Z :=
  match l with
  | a :: b :: rest => be16 a b + word_sum rest
  | [a] => a * 256
  | [] => 0
  end.

(** One's complement normal form: 0 only for 0, otherwise in [1, 65535]. *)
Definition onec (s : Z) : Z := if s =? 0 then 0 else 1 + (s - 1) mod 65535.

(** The weight of byte [i] in [word_sum]. *)
Definition weight (i : nat) : Z := if Nat.even i then 256 else 1.

Lemma list_pair_ind {A} (P : list A -> Prop) :
  P [] -> (forall a, P [a]) -> (forall a b l, P l -> P (a :: b :: l)) -> forall l, P l.
Proof.
  intros H0 H1 H2 l.
  enough (P l /\ forall a, P (a :: l)) as [? _] by assumption.
  induction l as [|b l [IH1 IH2]]; split; auto.
Qed.

Lemma word_sum_nonneg l : bytes_ok l -> 0 <= word_sum l.
Proof.
  induction l as [|a|a b l IH] using list_pair_ind; intros H; cbn [word_sum]; [lia| |].
  - inversion H; subst. unfold in_width in *. lia.
  - inversion H as [|? ? Ha H']; subst. inversion H' as [|? ? Hb Hl]; subst.
    specialize (IH Hl). unfold in_width, be16 in *. lia.
Qed.

Lemma word_sum_bound l :
  bytes_ok l -> 2 * word_sum l <= 65535 * (Z.of_nat (length l) + 1).
Proof.
  induction l as [|a|a b l IH] using list_pair_ind; intros H; cbn [word_sum length]; [lia| |].
  - inversion H; subst. unfold in_width in *. lia.
  - inversion H as [|? ? Ha H']; subst. inversion H' as [|? ? Hb Hl]; subst.
    specialize (IH Hl). unfold in_width, be16 in *. lia.
Qed.

Lemma word_sum_insert l i v b :
  l !! i = Some b -> word_sum (<[i := v]> l) = word_sum l + weight i * (v - b).
Proof.
  revert i. induction l as [|a|a c l IH] using list_pair_ind; intros i Hi.
  - discriminate.
  - destruct i as [|i]; [|discriminate]. injection Hi as ->. cbn. lia.
  - destruct i as [|[|i]].
    + injection Hi as ->. cbn. unfold be16. lia.
    + injection Hi as ->. cbn. unfold be16. lia.
    + change (be16 a c + word_sum (<[i:=v]> l)
              = be16 a c + word_sum l + weight (S (S i)) * (v - b)).
      rewrite (IH i Hi). unfold weight. cbn [Nat.even]. lia.
Qed.

Lemma word_sum_app l k :
  Nat.even (length l) = true -> word_sum (l ++ k) = word_sum l + word_sum k.
Proof.
  induction l as [|a|a b l IH] using list_pair_ind; intros H; [reflexivity|discriminate|].
  cbn [app word_sum]. rewrite IH by exact H. lia.
Qed.

Lemma ip_words_sum_exact l s :
  bytes_ok l -> 0 <= s -> s + word_sum l < 2 ^ 32 -> ip_words_sum s l = s + word_sum l.
Proof.
  revert s. induction l as [|a|a b l IH] using list_pair_ind; intros s H Hs Hlt;
    cbn [ip_words_sum word_sum] in *.
  - lia.
  - rewrite Z.shiftl_mul_pow2 by lia. inversion H; subst.
    apply wrap_small. unfold in_width in *. lia.
  - inversion H as [|? ? Ha H']; subst. inversion H' as [|? ? Hb Hl]; subst.
    rewrite lor_shiftl8 by assumption.
    pose proof (be16_bound a b Ha Hb) as Hab. pose proof (word_sum_nonneg l Hl).
    unfold in_width in Hab.
    rewrite wrap_small by (unfold in_width; lia). rewrite IH; [lia|assumption|lia|lia].
Qed.

(* ------------------------------------------------------------------ *)
(** ** The folding loop *)

Lemma onec_small s : 0 <= s < 65536 -> onec s = s.
Proof.
  intros H. unfold onec. destruct (Z.eqb_spec s 0) as [->|]; [reflexivity|].
  rewrite Z.mod_small; lia.
Qed.

Lemma onec_bound s : 0 <= s -> 0 <= onec s < 65536.
Proof.
  intros H. unfold onec. destruct (Z.eqb_spec s 0); [lia|].
  pose proof (Z.mod_pos_bound (s - 1) 65535 ltac:(lia)). lia.
Qed.

Lemma onec_congr s : (onec s) mod 65535 = s mod 65535.
Proof.
  unfold onec. destruct (Z.eqb_spec s 0) as [->|]; [reflexivity|].
  rewrite Zplus_mod_idemp_r. f_equal. lia.
Qed.

Lemma onec_zero s : 0 <= s -> onec s = 0 -> s = 0.
Proof.
  intros H. unfold onec. destruct (Z.eqb_spec s 0); [auto|].
  pose proof (Z.mod_pos_bound (s - 1) 65535 ltac:(lia)). lia.
Qed.

(** [onec] depends on its argument only modulo 65535, zero apart. *)
Lemma onec_ext s t : 0 < s -> 0 < t -> s mod 65535 = t mod 65535 -> onec s = onec t.
Proof.
  intros Hs Ht E. unfold onec.
  rewrite (proj2 (Z.eqb_neq s 0)), (proj2 (Z.eqb_neq t 0)) by lia. f_equal.
  rewrite (Zminus_mod s), (Zminus_mod t), E. reflexivity.
Qed.

Lemma onec_full s : 0 < s -> (onec s = 65535 <-> s mod 65535 = 0).
Proof.
  intros Hs. split; intros H.
  - rewrite <- onec_congr, H. reflexivity.
  - rewrite (onec_ext s 65535) by (try lia; exact H). reflexivity.
Qed.

Lemma fold_step s :
  0 <= s -> Z.land s 0xFFFF + Z.shiftr s 16 = s mod 65536 + s / 65536.
Proof. intros. rewrite land65535, shiftr_div by lia. reflexivity. Qed.

Lemma fold_step_congr s : (s mod 65536 + s / 65536) mod 65535 = s mod 65535.
Proof.
  rewrite (Z.div_mod s 65536) at 3 by lia.
  replace (65536 * (s / 65536) + s mod 65536)
    with (s mod 65536 + s / 65536 + s / 65536 * 65535) by lia.
  by rewrite Z.mod_add by lia.
Qed.

Lemma fold_step_onec s : 65536 <= s -> onec (s mod 65536 + s / 65536) = onec s.
Proof.
  intros H. apply onec_ext; [|lia|apply fold_step_congr].
  assert (1 <= s / 65536) by (apply Z.div_le_lower_bound; lia).
  pose proof (Z.mod_pos_bound s 65536 ltac:(lia)). lia.
Qed.

Lemma fold_loop_done fuel s : 0 <= s < 65536 -> fold_carries_loop fuel s = s.
Proof.
  intros H. destruct fuel; [reflexivity|]. cbn [fold_carries_loop].
  rewrite shiftr_div by lia. by rewrite Z.div_small by lia.
Qed.

Lemma fold_loop_step fuel s :
  65536 <= s ->
  fold_carries_loop (S fuel) s = fold_carries_loop fuel (s mod 65536 + s / 65536).
Proof.
  intros H. cbn [fold_carries_loop]. rewrite fold_step by lia.
  rewrite shiftr_div by lia. change (2 ^ 16) with 65536.
  assert (1 <= s / 65536) by (apply Z.div_le_lower_bound; lia).
  destruct (Z.eqb_spec (s / 65536) 0); [lia|reflexivity].
Qed.

Lemma fold_loop_onec fuel s :
  (2 <= fuel)%nat -> 0 <= s < 2 ^ 32 -> fold_carries_loop fuel s = onec s.
Proof.
  intros Hf Hs.
  destruct (Z.lt_ge_cases s 65536) as [|Hge].
  { rewrite fold_loop_done, onec_small by lia. reflexivity. }
  destruct fuel as [|[|fuel]]; [lia|lia|].
  rewrite fold_loop_step, <- fold_step_onec by lia.
  set (t := s mod 65536 + s / 65536).
  assert (0 <= t < 131071) as Ht.
  { pose proof (Z.mod_pos_bound s 65536 ltac:(lia)).
    assert (0 <= s / 65536) by (apply Z.div_pos; lia).
    assert (s / 65536 < 65536) by (apply Z.div_lt_upper_bound; lia). lia. }
  clearbody t.
  destruct (Z.lt_ge_cases t 65536) as [|Hge'].
  { rewrite fold_loop_done, onec_small by lia. reflexivity. }
  rewrite fold_loop_step, <- fold_step_onec by lia.
  assert (t / 65536 = 1) as -> by (symmetry; apply (Z.div_unique _ _ _ (t - 65536)); lia).
  assert (t mod 65536 = t - 65536) as ->
    by (symmetry; apply (Z.mod_unique _ _ 1); lia).
  rewrite fold_loop_done, onec_small by lia. reflexivity.
Qed.

Lemma fold_carries_onec s : 0 <= s < 2 ^ 32 -> fold_carries s = onec s.
Proof. intros. apply fold_loop_onec; [lia|assumption]. Qed.

Lemma complement16_small s : 0 <= s < 65536 -> complement16 s = 65535 - s.
Proof.
  intros H. unfold complement16, bnot, wrap.
  replace (2 ^ 32 - 1 - s) with (65535 - s + 65535 * 2 ^ 16) by lia.
  rewrite Z.mod_add by lia. apply Z.mod_small. lia.
Qed.

(** Every message the relay checksums is shorter than this bound. *)
Lemma checksum_value l :
  bytes_ok l -> Z.of_nat (length l) <= 131000 ->
  calculate_ip_checksum l = 65535 - onec (word_sum l).
Proof.
  intros Hl Hlen. unfold calculate_ip_checksum.
  pose proof (word_sum_nonneg l Hl). pose proof (word_sum_bound l Hl).
  rewrite ip_words_sum_exact by (try assumption; lia).
  rewrite fold_carries_onec by lia.
  apply complement16_small, onec_bound. lia.
Qed.

Lemma checksum_is_u16 l : is_u16 (calculate_ip_checksum l).
Proof. apply wrap_bound. lia. Qed.

(** A checksum of 0 is exactly a sum that is a positive multiple of 65535. *)
Lemma checksum_zero_iff l :
  bytes_ok l -> Z.of_nat (length l) <= 131000 ->
  calculate_ip_checksum l = 0 <-> 0 < word_sum l /\ word_sum l mod 65535 = 0.
Proof.
  intros Hl Hlen. rewrite checksum_value by assumption.
  pose proof (word_sum_nonneg l Hl).
  destruct (Z.eq_dec (word_sum l) 0) as [E|].
  - rewrite E. cbn. lia.
  - rewrite <- onec_full by lia. lia.
Qed.

(** Completing a sum with its complement makes it valid. *)
Lemma complement_completes s :
  0 <= s -> 0 < s + (65535 - onec s) /\ (s + (65535 - onec s)) mod 65535 = 0.
Proof.
  intros Hs. pose proof (onec_bound s Hs). split.
  - destruct (Z.eq_dec s 0) as [->|]; [cbn; lia|lia].
  - replace (s + (65535 - onec s)) with (s - onec s + 1 * 65535) by lia.
    rewrite Z.mod_add, Zminus_mod, onec_congr, Z.sub_diag by lia. reflexivity.
Qed.

(** Two bytes written at an even offset add a 16-bit word to the sum. *)
Lemma word_sum_write16 l o b0 b1 v :
  Nat.even o = true -> l !! o = Some b0 -> l !! S o = Some b1 ->
  word_sum (<[S o := v mod 256]> (<[o := v / 256]> l))
  = word_sum l - be16 b0 b1 + v.
Proof.
  intros He H0 H1.
  rewrite (word_sum_insert _ _ _ b1) by (rewrite list_lookup_insert_ne by lia; exact H1).
  rewrite (word_sum_insert _ _ _ b0) by exact H0.
  unfold weight, be16. rewrite Nat.even_succ, <- Nat.negb_even, He. cbn.
  pose proof (Z.div_mod v 256 ltac:(lia)). lia.
Qed.

Lemma low16_bnot16 x : is_u16 x -> Z.land (bnot 16 x) 0xFFFF = 65535 - x.
Proof.
  intros H. rewrite land65535. unfold bnot, in_width in *.
  rewrite Z.mod_small; lia.
Qed.

Lemma congr_sub_mult a b k : (a = b + k * 65535) -> a mod 65535 = b mod 65535.
Proof. intros ->. by rewrite Z.mod_add by lia. Qed.

(* ------------------------------------------------------------------ *)
(** ** Theorems *)

(** The carry-folding [while] loop terminates: for every [u32] sum and
    every number of rounds from 2 on the result is the same, and in that
    result the loop condition [sum >> 16 != 0] is false. *)
Theorem fold_carries_fuel (fuel : nat) (s : Z) :
  (2 <= fuel)%nat -> 0 <= s < 2 ^ 32 ->
  fold_carries_loop fuel s = fold_carries s
  /\ Z.shiftr (fold_carries_loop fuel s) 16 = 0.
Proof.
  intros Hf Hs. rewrite fold_carries_onec, fold_loop_onec by assumption.
  split; [reflexivity|]. rewrite shiftr_div by lia.
  apply Z.div_small. apply onec_bound. lia.
Qed.

Lemma fold_carries_fuel_witness :
  fold_carries_loop 7 0xFFFFFFFF = fold_carries 0xFFFFFFFF
  /\ Z.shiftr (fold_carries_loop 7 0xFFFFFFFF) 16 = 0.
Proof. apply (fold_carries_fuel 7 0xFFFFFFFF); lia. Defined.

(** The incremental update is a recomputation: if a transport checksum
    was computed over a sum [s] (pseudo-header protocol and length, segment)
    plus the two halves of the old address, adjusting it gives the checksum
    of [s] plus the halves of the new address.  [s] is positive because the
    pseudo-header contains the protocol number. *)
Theorem adjust_checksum_recomputes (s old_hi old_lo new_hi new_lo : Z) :
  0 < s -> s + 131070 < 2 ^ 32 ->
  is_u16 old_hi -> is_u16 old_lo -> is_u16 new_hi -> is_u16 new_lo ->
  adjust_checksum_halves
    (complement16 (fold_carries (s + old_hi + old_lo))) old_hi old_lo new_hi new_lo
  = complement16 (fold_carries (s + new_hi + new_lo)).
Proof.
  intros Hs Hb H1 H2 H3 H4. unfold adjust_checksum_halves.
  rewrite !low16_bnot16 by assumption. unfold in_width in *.
  pose proof (onec_bound (s + old_hi + old_lo) ltac:(lia)).
  pose proof (onec_bound (s + new_hi + new_lo) ltac:(lia)).
  assert (onec (s + old_hi + old_lo) <> 0)
    by (intros E; apply onec_zero in E; lia).
  rewrite (fold_carries_onec (s + old_hi + old_lo)) by lia.
  rewrite (fold_carries_onec (s + new_hi + new_lo)) by lia.
  rewrite (complement16_small (onec (s + old_hi + old_lo))) by lia.
  rewrite (complement16_small (onec (s + new_hi + new_lo))) by lia.
  unfold bnot. rewrite (wrap_small 32) by (unfold in_width; lia).
  rewrite fold_carries_onec by lia.
  erewrite (onec_ext _ (s + new_hi + new_lo)); [|lia|lia|].
  - rewrite wrap_small by (unfold in_width; lia). reflexivity.
  - rewrite <- (Z.mod_add (s + new_hi + new_lo) 2 65535) by lia.
    replace (2 ^ 16 - 1 - (65535 - onec (s + old_hi + old_lo)) + (65535 - old_hi)
             + new_hi + (65535 - old_lo) + new_lo)
      with (onec (s + old_hi + old_lo)
            + (new_hi + new_lo - old_hi - old_lo + 2 * 65535)) by lia.
    rewrite <- Zplus_mod_idemp_l, onec_congr, Zplus_mod_idemp_l. f_equal. lia.
Qed.

Lemma adjust_checksum_recomputes_witness :
  adjust_checksum_halves
    (complement16 (fold_carries (17 + 0xC0A8 + 0x0164))) 0xC0A8 0x0164 0x0AC8 0x2A07
  = complement16 (fold_carries (17 + 0x0AC8 + 0x2A07)).
Proof.
  apply (adjust_checksum_recomputes 17 0xC0A8 0x0164 0x0AC8 0x2A07);
    unfold in_width; lia.
Defined.
