(* ===== verification/Net.v ===== *)
(** * Addresses and the destination filters of src/main.rs

    [Ipv4Addr], [IpAddr] and [SocketAddr] of the standard library, the
    address and port blocklists ([is_forbidden_dst],
    [is_forbidden_dst_port]), and the class [DestGate]: what the packet
    parser expects of the destination policy (src/dest_policy.rs). *)

From S2P Require Import Prelude.

(** An [Ipv4Addr] is its big-endian [u32]. *)
Abbreviation Ipv4Addr := Z (only parsing).

Definition ipv4_new (a b c d : Z) : Ipv4Addr := from_be_bytes [a; b; c; d].
Definition octets (ip : Ipv4Addr) : list Z := to_be_bytes 4 ip.

(** [ip.octets()[i]] for the two octets the filters look at. *)
Definition octet0 (ip : Ipv4Addr) : Z := (ip / 2 ^ 24) mod 256.
Definition octet1 (ip : Ipv4Addr) : Z := (ip / 2 ^ 16) mod 256.

Inductive IpAddr : Type :=
| V4 (a : Ipv4Addr)
| V6 (a : Z).

#[export] Instance IpAddr_eq_dec : EqDecision IpAddr.
Proof. solve_decision. Defined.

#[export] Instance IpAddr_countable : Countable IpAddr.
Proof.
  apply (inj_countable' (fun i => match i with V4 a => inl a | V6 a => inr a end)
                        (fun s => match s with inl a => V4 a | inr a => V6 a end)).
  by intros [].
Defined.

(** [SocketAddr]; the IPv6 form also carries its flow information and scope. *)
Inductive SocketAddr : Type :=
| SockV4 (a : Ipv4Addr) (port : Z)
| SockV6 (a : Z) (port flowinfo scope : Z).

#[export] Instance SocketAddr_eq_dec : EqDecision SocketAddr.
Proof. solve_decision. Defined.

#[export] Instance SocketAddr_countable : Countable SocketAddr.
Proof.
  apply (inj_countable'
    (fun s => match s with SockV4 a p => inl (a, p) | SockV6 a p f z => inr (a, p, f, z) end)
    (fun s => match s with inl (a, p) => SockV4 a p | inr (a, p, f, z) => SockV6 a p f z end)).
  by intros [].
Defined.

Definition sock_ip (s : SocketAddr) : IpAddr :=
  match s with
  | SockV4 a _ => V4 a
  | SockV6 a _ _ _ => V6 a
  end.

Definition sock_port (s : SocketAddr) : Z :=
  match s with
  | SockV4 _ p => p
  | SockV6 _ p _ _ => p
  end.

(* ------------------------------------------------------------------ *)
(** ** [Ipv4Addr] predicates of the standard library *)

Definition is_private (ip : Ipv4Addr) : bool :=
  (octet0 ip =? 10)
  || ((octet0 ip =? 172) && ((16 <=? octet1 ip) && (octet1 ip <=? 31)))
  || ((octet0 ip =? 192) && (octet1 ip =? 168)).
Definition is_loopback (ip : Ipv4Addr) : bool := octet0 ip =? 127.
Definition is_link_local (ip : Ipv4Addr) : bool := (octet0 ip =? 169) && (octet1 ip =? 254).
Definition is_multicast (ip : Ipv4Addr) : bool := (224 <=? octet0 ip) && (octet0 ip <=? 239).
Definition is_broadcast (ip : Ipv4Addr) : bool := ip =? ipv4_new 255 255 255 255.
Definition is_unspecified (ip : Ipv4Addr) : bool := ip =? 0.

(* ------------------------------------------------------------------ *)
(** ** The relay's filters *)

Definition is_cgnat_ipv4 (ip : Ipv4Addr) : bool :=
  (octet0 ip =? 100) && ((64 <=? octet1 ip) && (octet1 ip <=? 127)).
Definition is_reserved_ipv4 (ip : Ipv4Addr) : bool := 240 <=? octet0 ip.
Definition is_this_network_ipv4 (ip : Ipv4Addr) : bool := octet0 ip =? 0.

Definition is_forbidden_dst (ip : Ipv4Addr) : bool :=
  is_private ip || is_loopback ip || is_link_local ip || is_multicast ip
  || is_broadcast ip || is_unspecified ip || is_this_network_ipv4 ip
  || is_reserved_ipv4 ip || is_cgnat_ipv4 ip.

Definition FORBIDDEN_DST_PORTS : list Z :=
  [7; 17; 19; 53; 69; 111; 123; 137; 161; 162; 389; 520; 623; 1434; 1900;
   3702; 5093; 5351; 5353; 10001; 11211; 32414].

Definition is_forbidden_dst_port (port : Z) : bool :=
  (port =? 0) || existsb (Z.eqb port) FORBIDDEN_DST_PORTS.

(* ------------------------------------------------------------------ *)
(** ** The interface of the destination policy

    [dest_policy::permits(protocol, dst, dst_port)] reads and updates the
    process-wide policy object; the parser threads it. *)

Class DestGate (P : Type) :=
  permits : P -> Z -> Ipv4Addr -> option Z -> P * bool.

(* ------------------------------------------------------------------ *)
(** ** Reference: the blocks as CIDR prefixes *)

(** [ip] lies in the prefix of length [len] that starts at [base]. *)
Definition in_block (ip : Ipv4Addr) (b : Ipv4Addr * Z) : bool :=
  let '(base, len) := b in ip / 2 ^ (32 - len) =? base / 2 ^ (32 - len).

Definition forbidden_blocks : list (Ipv4Addr * Z) :=
  [ (ipv4_new 0 0 0 0, 8); (ipv4_new 10 0 0 0, 8); (ipv4_new 100 64 0 0, 10);
    (ipv4_new 127 0 0 0, 8); (ipv4_new 169 254 0 0, 16); (ipv4_new 172 16 0 0, 12);
    (ipv4_new 192 168 0 0, 16); (ipv4_new 224 0 0 0, 4); (ipv4_new 240 0 0 0, 4) ].

(** The octets in terms of the quotient by [2 ^ 16]. *)
Lemma octets_of_hi ip :
  is_u32 ip ->
  octet0 ip = ip / 2 ^ 16 / 256 /\ octet1 ip = (ip / 2 ^ 16) mod 256
  /\ 0 <= ip / 2 ^ 16 < 65536.
Proof.
  intros [H1 H2]. unfold octet0, octet1.
  assert (ip / 2 ^ 24 = ip / 2 ^ 16 / 256) as ->
    by (rewrite Z.div_div by lia; reflexivity).
  assert (0 <= ip / 2 ^ 16 < 65536)
    by (split; [apply Z.div_pos; lia | apply Z.div_lt_upper_bound; lia]).
  repeat split; try lia. apply Z.mod_small.
  split; [apply Z.div_pos; lia | apply Z.div_lt_upper_bound; lia].
Qed.

Lemma in_block_hi ip base len :
  0 <= len <= 16 ->
  in_block ip (base, len) = (ip / 2 ^ 16 / 2 ^ (16 - len) =? base / 2 ^ (32 - len)).
Proof.
  intros H. unfold in_block. rewrite Z.div_div by lia.
  rewrite <- Z.pow_add_r by lia. do 3 f_equal. lia.
Qed.

Lemma div_eq_iff h k c : 0 < k -> h / k = c <-> k * c <= h < k * c + k.
Proof.
  intros Hk. split; intros H.
  - subst c. pose proof (Z.div_mod h k ltac:(lia)).
    pose proof (Z.mod_pos_bound h k Hk). lia.
  - symmetry. apply (Z.div_unique h k c (h - k * c)); lia.
Qed.

(** The address filter is exactly the nine reserved prefixes: this
    network, private, CGNAT, loopback, link-local, multicast and the reserved
    upper range (with the broadcast address). *)
Theorem is_forbidden_dst_blocks (ip : Ipv4Addr) :
  is_u32 ip -> is_forbidden_dst ip = existsb (in_block ip) forbidden_blocks.
Proof.
  intros Hip. destruct (octets_of_hi ip Hip) as (H0 & H1 & Hb).
  unfold is_forbidden_dst, is_broadcast, is_unspecified, is_private, is_loopback,
    is_link_local, is_multicast, is_this_network_ipv4, is_reserved_ipv4, is_cgnat_ipv4,
    forbidden_blocks.
  cbn [existsb]. rewrite !in_block_hi by lia. rewrite H0, H1.
  repeat match goal with
  | |- context [?a / 2 ^ (32 - ?l)] =>
      let v := eval vm_compute in (a / 2 ^ (32 - l)) in
      change (a / 2 ^ (32 - l)) with v
  end.
  change (ipv4_new 255 255 255 255) with 4294967295.
  assert (ip = 4294967295 -> 240 <= ip / 2 ^ 16 / 256) by (intros ->; vm_compute; congruence).
  assert (ip = 0 -> ip / 2 ^ 16 / 256 = 0) by (intros ->; reflexivity).
  generalize dependent (ip / 2 ^ 16). intros h. intros.
  change (2 ^ (16 - 8)) with 256. change (2 ^ (16 - 10)) with 64.
  change (2 ^ (16 - 16)) with 1. change (2 ^ (16 - 12)) with 16.
  change (2 ^ (16 - 4)) with 4096. rewrite Z.div_1_r.
  apply Bool.eq_iff_eq_true.
  rewrite !orb_true_iff, !andb_true_iff, !Z.eqb_eq, !Z.leb_le.
  rewrite !(div_eq_iff h 64), !(div_eq_iff h 16), !(div_eq_iff h 4096) by lia.
  Z.div_mod_to_equations. lia.
Qed.

Lemma is_forbidden_dst_blocks_witness :
  is_forbidden_dst (ipv4_new 100 127 255 255)
  = existsb (in_block (ipv4_new 100 127 255 255)) forbidden_blocks.
Proof.
  apply (is_forbidden_dst_blocks (ipv4_new 100 127 255 255)). vm_compute. intuition congruence.
Defined.
