(* ===== verification/Packet.v ===== *)
(** * Parsing client packets and building responses

    [parse_ip_packet_full], [build_response_ip_packet_with_tos]
    (src/main.rs) and [write_response_ip_packet_into_with_tos]
    (src/datapath_v2.rs).  Slices are indexed with [rd]/[wr]/[slice], which
    panic out of range as Rust does; [usize] quantities are [nat]. *)

From S2P Require Import Prelude Checksum Net.

Definition IP_HEADER_MIN : nat := 20.
Definition UDP_HEADER_SIZE : nat := 8.

Record OriginalPacketInfo : Type := MkInfo {
  tos : Z;
  src_ip : Ipv4Addr;
  src_port : Z;
  dst_ip : Ipv4Addr;
  dst_port : Z;
}.

Inductive ParsedPacket : Type :=
| Udp (game_addr : SocketAddr) (payload : list Z) (original_info : OriginalPacketInfo)
      (raw_ip_packet : list Z)
| Tcp (original_info : OriginalPacketInfo) (raw_ip_packet : list Z)
| Fragment (protocol : Z) (frag_src_ip : Ipv4Addr) (raw_ip_packet : list Z)
| ForbiddenDst.

(** [Ipv4Addr::new(p[i], p[i + 1], p[i + 2], p[i + 3])]. *)
Definition rd_ipv4 (p : list Z) (i : nat) : outcome Ipv4Addr :=
  let* a := rd p i in
  let* b := rd p (i + 1) in
  let* c := rd p (i + 2) in
  let* d := rd p (i + 3) in
  Ret (ipv4_new a b c d).

(** [(p[0] & 0x0F) as usize * 4]. *)
Definition ihl_of (b0 : Z) : nat := (Z.to_nat (Z.land b0 0x0F) * 4)%nat.

(* ------------------------------------------------------------------ *)
(** ** The parser *)

Section Parse.
Context {P : Type} `{DestGate P}.

(** The fragment branch of [parse_ip_packet_full]. *)
Definition parse_fragment (g : P) (packet : list Z) (ihl : nat) (protocol : Z)
  (src dst : Ipv4Addr) (fragment_offset : Z) : outcome (P * option ParsedPacket) :=
  let judge g (port : option Z) :=
    if is_forbidden_dst dst
       || ((protocol =? 17)
           && match port with Some p => is_forbidden_dst_port p | None => false end)
    then Ret (g, Some ForbiddenDst)
    else
      let '(g', ok) := permits g protocol dst port in
      if negb ok then Ret (g', Some ForbiddenDst)
      else Ret (g', Some (Fragment protocol src packet)) in
  if (fragment_offset =? 0) && ((protocol =? 6) || (protocol =? 17)) then
    if (length packet <? ihl + 4)%nat then Ret (g, None)
    else
      let* port := rd16 packet (ihl + 2) in
      judge g (Some port)
  else judge g None.

(** The UDP arm. *)
Definition parse_udp (g : P) (packet : list Z) (ihl : nat) (protocol : Z)
  (src dst : Ipv4Addr) : outcome (P * option ParsedPacket) :=
  let udp_start := ihl in
  if (length packet <? udp_start + UDP_HEADER_SIZE)%nat then Ret (g, None) else
  let* src_port := rd16 packet udp_start in
  let* dst_port := rd16 packet (udp_start + 2) in
  let* udp_len16 := rd16 packet (udp_start + 4) in
  let udp_len := Z.to_nat udp_len16 in
  if (udp_len <? UDP_HEADER_SIZE)%nat || (length packet <? udp_start + udp_len)%nat
  then Ret (g, None) else
  let payload_start := (udp_start + UDP_HEADER_SIZE)%nat in
  let payload_end := (udp_start + udp_len)%nat in
  let* payload :=
    if (payload_start <? payload_end)%nat then slice packet payload_start payload_end
    else Ret [] in
  let* tos := rd packet 1 in
  let info := MkInfo tos src src_port dst dst_port in
  if is_forbidden_dst dst || is_forbidden_dst_port dst_port then Ret (g, Some ForbiddenDst)
  else
    let '(g', ok) := permits g protocol dst (Some dst_port) in
    if negb ok then Ret (g', Some ForbiddenDst)
    else Ret (g', Some (Udp (SockV4 dst dst_port) payload info packet)).

Definition TCP_HEADER_MIN : nat := 20.

(** The TCP arm. *)
Definition parse_tcp (g : P) (packet : list Z) (ihl : nat) (protocol : Z)
  (src dst : Ipv4Addr) : outcome (P * option ParsedPacket) :=
  let tcp_start := ihl in
  if (length packet <? tcp_start + TCP_HEADER_MIN)%nat then Ret (g, None) else
  let* src_port := rd16 packet tcp_start in
  let* dst_port := rd16 packet (tcp_start + 2) in
  let* off := rd packet (tcp_start + 12) in
  let tcp_header_len := (Z.to_nat (Z.shiftr off 4) * 4)%nat in
  if (tcp_header_len <? TCP_HEADER_MIN)%nat
     || (length packet <? tcp_start + tcp_header_len)%nat
  then Ret (g, None) else
  let* tos := rd packet 1 in
  let info := MkInfo tos src src_port dst dst_port in
  if is_forbidden_dst dst then Ret (g, Some ForbiddenDst)
  else
    let '(g', ok) := permits g protocol dst (Some dst_port) in
    if negb ok then Ret (g', Some ForbiddenDst)
    else Ret (g', Some (Tcp info packet)).

Definition parse_ip_packet_full (g : P) (packet : list Z)
  : outcome (P * option ParsedPacket) :=
  if (length packet <? IP_HEADER_MIN)%nat then Ret (g, None) else
  let* b0 := rd packet 0 in
  let version := Z.land (Z.shiftr b0 4) 0x0F in
  if negb (version =? 4) then Ret (g, None) else
  let ihl := ihl_of b0 in
  if (ihl <? IP_HEADER_MIN)%nat || (length packet <? ihl)%nat then Ret (g, None) else
  let* total16 := rd16 packet 2 in
  let total_len := Z.to_nat total16 in
  if (total_len <? ihl)%nat || (length packet <? total_len)%nat then Ret (g, None) else
  let* packet := slice packet 0 total_len in
  let* protocol := rd packet 9 in
  let* src := rd_ipv4 packet 12 in
  let* dst := rd_ipv4 packet 16 in
  let* fragment_bits := rd16 packet 6 in
  let more_fragments := negb (Z.land fragment_bits 0x2000 =? 0) in
  let fragment_offset := Z.land fragment_bits 0x1FFF in
  if more_fragments || negb (fragment_offset =? 0)
  then parse_fragment g packet ihl protocol src dst fragment_offset
  else if protocol =? 17 then parse_udp g packet ihl protocol src dst
  else if protocol =? 6 then parse_tcp g packet ihl protocol src dst
  else Ret (g, None).

End Parse.

(* ------------------------------------------------------------------ *)
(** ** Building responses *)

(** [((n >> 8) & 0xFF) as u8] and [(n & 0xFF) as u8] of a [usize]. *)
Definition hi8 (n : Z) : Z := Z.land (Z.shiftr n 8) 0xFF.
Definition lo8 (n : Z) : Z := Z.land n 0xFF.

(** The sequence of header writes both builders perform on a packet buffer
    of length [total_len]. *)
Definition write_ip_header (packet : list Z) (total_len : Z) (tos_byte : Z)
  (original : OriginalPacketInfo) : outcome (list Z) :=
  let* packet := wr packet 0 0x45 in
  let* packet := wr packet 1 tos_byte in
  let* packet := wr packet 2 (hi8 total_len) in
  let* packet := wr packet 3 (lo8 total_len) in
  let* packet := wr packet 4 0 in
  let* packet := wr packet 5 0 in
  let* packet := wr packet 6 0x40 in
  let* packet := wr packet 7 0 in
  let* packet := wr packet 8 64 in
  let* packet := wr packet 9 17 in
  let* packet := wr packet 10 0 in
  let* packet := wr packet 11 0 in
  let* packet := copy_from_slice packet 12 16 (octets (dst_ip original)) in
  let* packet := copy_from_slice packet 16 20 (octets (src_ip original)) in
  let* header := slice packet 0 IP_HEADER_MIN in
  let ip_checksum := calculate_ip_checksum header in
  let* packet := wr packet 10 (u8 (Z.shiftr ip_checksum 8)) in
  wr packet 11 (lo8 ip_checksum).

Definition write_udp_header (packet : list Z) (udp_len : Z)
  (original : OriginalPacketInfo) : outcome (list Z) :=
  let udp_start := IP_HEADER_MIN in
  let* packet := wr packet udp_start (u8 (Z.shiftr (dst_port original) 8)) in
  let* packet := wr packet (udp_start + 1) (lo8 (dst_port original)) in
  let* packet := wr packet (udp_start + 2) (u8 (Z.shiftr (src_port original) 8)) in
  let* packet := wr packet (udp_start + 3) (lo8 (src_port original)) in
  let* packet := wr packet (udp_start + 4) (hi8 udp_len) in
  let* packet := wr packet (udp_start + 5) (lo8 udp_len) in
  let* packet := wr packet (udp_start + 6) 0 in
  wr packet (udp_start + 7) 0.

Definition build_response_ip_packet_with_tos (udp_payload : list Z)
  (original : OriginalPacketInfo) (tos_byte : Z) : outcome (list Z) :=
  let udp_len := (UDP_HEADER_SIZE + length udp_payload)%nat in
  let total_len := (IP_HEADER_MIN + udp_len)%nat in
  let packet := replicate total_len 0 in
  let* packet := write_ip_header packet (Z.of_nat total_len) tos_byte original in
  let* packet := write_udp_header packet (Z.of_nat udp_len) original in
  let payload_start := (IP_HEADER_MIN + UDP_HEADER_SIZE)%nat in
  copy_from_slice packet payload_start (length packet) udp_payload.

Definition build_response_ip_packet (udp_payload : list Z) (original : OriginalPacketInfo)
  : outcome (list Z) :=
  build_response_ip_packet_with_tos udp_payload original (tos original).

(** [datapath_v2]: writes into a caller-supplied buffer with arbitrary
    previous contents; returns the buffer and the packet length. *)
Definition write_response_ip_packet_into_with_tos (dst : list Z) (udp_payload : list Z)
  (original : OriginalPacketInfo) (tos_byte : Z) : outcome (list Z * option nat) :=
  let udp_len := (UDP_HEADER_SIZE + length udp_payload)%nat in
  let total_len := (IP_HEADER_MIN + udp_len)%nat in
  if (length dst <? total_len)%nat then Ret (dst, None) else
  let* packet := slice dst 0 total_len in
  let* packet := write_ip_header packet (Z.of_nat total_len) tos_byte original in
  let* packet := write_udp_header packet (Z.of_nat udp_len) original in
  let payload_start := (IP_HEADER_MIN + UDP_HEADER_SIZE)%nat in
  let* packet := copy_from_slice packet payload_start (length packet) udp_payload in
  Ret (packet ++ drop total_len dst, Some total_len).

Definition write_response_ip_packet_into (dst : list Z) (udp_payload : list Z)
  (original : OriginalPacketInfo) : outcome (list Z * option nat) :=
  write_response_ip_packet_into_with_tos dst udp_payload original (tos original).

(* ------------------------------------------------------------------ *)
(** ** The response packet, written out *)

Definition ip_header_with (total_len tos_byte csum_hi csum_lo : Z)
  (original : OriginalPacketInfo) : list Z :=
  [0x45; tos_byte; hi8 total_len; lo8 total_len; 0; 0; 0x40; 0; 64; 17; csum_hi; csum_lo]
  ++ octets (dst_ip original) ++ octets (src_ip original).

Definition ip_header (total_len tos_byte : Z) (original : OriginalPacketInfo) : list Z :=
  let c := calculate_ip_checksum (ip_header_with total_len tos_byte 0 0 original) in
  ip_header_with total_len tos_byte (u8 (Z.shiftr c 8)) (lo8 c) original.

Definition udp_header (udp_len : Z) (original : OriginalPacketInfo) : list Z :=
  [u8 (Z.shiftr (dst_port original) 8); lo8 (dst_port original);
   u8 (Z.shiftr (src_port original) 8); lo8 (src_port original);
   hi8 udp_len; lo8 udp_len; 0; 0].

Definition response_packet (payload : list Z) (original : OriginalPacketInfo) (tos_byte : Z)
  : list Z :=
  let udp_len := 8 + Z.of_nat (length payload) in
  ip_header (20 + udp_len) tos_byte original ++ udp_header udp_len original ++ payload.

Lemma write_ip_header_spec packet total tos_byte o :
  (20 <= length packet)%nat ->
  write_ip_header packet total tos_byte o = Ret (ip_header total tos_byte o ++ drop 20 packet).
Proof. intros H. uncons_list packet 20. reflexivity. Qed.

Lemma write_udp_header_spec h rest udp_len o :
  length h = 20%nat -> (8 <= length rest)%nat ->
  write_udp_header (h ++ rest) udp_len o = Ret (h ++ udp_header udp_len o ++ drop 8 rest).
Proof.
  intros Hh Hr. uncons_list h 20. destruct h; [|cbn in Hh; lia].
  uncons_list rest 8. reflexivity.
Qed.

Lemma copy_tail (h payload rest : list Z) :
  length rest = length payload ->
  copy_from_slice (h ++ rest) (length h) (length (h ++ rest)) payload = Ret (h ++ payload).
Proof.
  intros E. unfold copy_from_slice. rewrite length_app.
  rewrite (proj2 (Nat.leb_le _ _)), Nat.leb_refl, (proj2 (Nat.eqb_eq _ _)) by lia. cbn.
  rewrite take_app_length, drop_ge by (rewrite length_app; lia).
  by rewrite app_nil_r.
Qed.

Lemma ip_header_length total tos_byte o : length (ip_header total tos_byte o) = 20%nat.
Proof. reflexivity. Qed.

(** Both builders run the same writes: on any buffer of the right length the
    result is [response_packet], whatever the buffer held. *)
Lemma write_response_spec packet payload o tos_byte :
  length packet = (28 + length payload)%nat ->
  obind (write_ip_header packet (Z.of_nat (20 + (8 + length payload))) tos_byte o)
    (fun packet => obind (write_udp_header packet (Z.of_nat (8 + length payload)) o)
      (fun packet => copy_from_slice packet 28 (length packet) payload))
  = Ret (response_packet payload o tos_byte).
Proof.
  intros Hl. rewrite write_ip_header_spec by lia. cbn [obind].
  rewrite write_udp_header_spec by (rewrite ?length_drop, ?ip_header_length; lia).
  cbn [obind]. rewrite app_assoc, drop_drop.
  rewrite !Nat2Z.inj_add.
  set (h := ip_header _ _ _ ++ udp_header _ _).
  change 28%nat with (length h).
  rewrite copy_tail by (rewrite length_drop; lia).
  unfold response_packet, h. by rewrite <- app_assoc.
Qed.

Lemma build_response_spec payload o tos_byte :
  build_response_ip_packet_with_tos payload o tos_byte
  = Ret (response_packet payload o tos_byte).
Proof.
  apply (write_response_spec (replicate (28 + length payload) 0) payload o tos_byte).
  by rewrite length_replicate.
Qed.

Lemma response_packet_length payload o tos_byte :
  length (response_packet payload o tos_byte) = (28 + length payload)%nat.
Proof. unfold response_packet. rewrite !length_app, ip_header_length. reflexivity. Qed.

Lemma hi8_eq n : hi8 n = (n / 256) mod 256.
Proof. unfold hi8. by rewrite land255, shiftr_div by lia. Qed.

Lemma lo8_eq n : lo8 n = n mod 256.
Proof. apply land255. Qed.

Lemma u8_shiftr8 n : u8 (Z.shiftr n 8) = (n / 256) mod 256.
Proof. by rewrite shiftr_div by lia. Qed.

(** A [u16] is recovered from its two halves. *)
Lemma be16_halves n : is_u16 n -> be16 ((n / 256) mod 256) (n mod 256) = n.
Proof.
  intros [H1 H2]. unfold be16.
  rewrite (Z.mod_small (n / 256)).
  - pose proof (Z.div_mod n 256 ltac:(lia)). lia.
  - split; [apply Z.div_pos; lia | apply Z.div_lt_upper_bound; lia].
Qed.

Lemma ip_header_with_ok total tos_byte hi lo o :
  is_byte tos_byte -> is_byte hi -> is_byte lo ->
  bytes_ok (ip_header_with total tos_byte hi lo o).
Proof.
  intros. unfold ip_header_with. rewrite hi8_eq, lo8_eq.
  apply bytes_ok_app; [|apply bytes_ok_app; apply to_be_bytes_ok].
  bytes_list.
Qed.

Lemma rd_ipv4_u32 p i ip : bytes_ok p -> rd_ipv4 p i = Ret ip -> is_u32 ip.
Proof.
  intros Hb. unfold rd_ipv4.
  destruct (rd p i) as [a|] eqn:Ea; [|discriminate].
  destruct (rd p (i + 1)) as [b|] eqn:Eb; [|discriminate].
  destruct (rd p (i + 2)) as [c|] eqn:Ec; [|discriminate].
  destruct (rd p (i + 3)) as [d|] eqn:Ed; [|discriminate].
  cbn [obind]. intros [= <-]. apply (from_be_bytes_bound [a; b; c; d]).
  repeat constructor; eapply bytes_ok_lookup; eauto using rd_Ret_inv.
Qed.

Lemma returns_rd_ipv4 (p : list Z) i (Q : Z -> Prop) :
  (i + 3 < length p)%nat ->
  (forall ip, rd_ipv4 p i = Ret ip -> Q ip) -> returns (rd_ipv4 p i) Q.
Proof.
  intros Hi HQ. destruct (rd_ipv4 p i) as [ip|] eqn:E; [apply HQ; reflexivity|].
  enough (returns (rd_ipv4 p i) (fun _ => True)) by (rewrite E in *; contradiction).
  unfold rd_ipv4. do 4 (ostep; ostep). ostep. exact I.
Qed.

Definition raw_of (p : ParsedPacket) : list Z :=
  match p with
  | Udp _ _ _ raw => raw
  | Tcp _ raw => raw
  | Fragment _ _ raw => raw
  | ForbiddenDst => []
  end.

(** The destination port an IPv4 packet carries: TCP and UDP have one, unless
    the packet is a fragment that is not the first. *)
Definition carried_port (raw : list Z) : outcome (option Z) :=
  let* b0 := rd raw 0 in
  let* protocol := rd raw 9 in
  let* bits := rd16 raw 6 in
  if (Z.land bits 0x1FFF =? 0) && ((protocol =? 6) || (protocol =? 17))
  then let* port := rd16 raw (ihl_of b0 + 2) in Ret (Some port)
  else Ret None.

(** The destination port the parser must judge: the one the packet carries,
    which is also the one it reports. *)
Definition judged_port (p : ParsedPacket) (port : option Z) : Prop :=
  carried_port (raw_of p) = Ret port
  /\ match p with
     | Udp addr _ info _ => addr = SockV4 (dst_ip info) (dst_port info) /\ port = Some (dst_port info)
     | Tcp info _ => port = Some (dst_port info)
     | _ => True
     end.

Section ParseFacts.
Context {P : Type} `{DestGate P}.
Implicit Types g : P.

(** What holds of a packet that may be forwarded: [raw] is an IPv4 packet
    whose destination passed the address filter, the UDP port filter and the
    policy. *)
Definition admitted (g g' : P) (p : ParsedPacket) : Prop :=
  exists protocol dst port,
    (20 <= length (raw_of p))%nat
    /\ rd (raw_of p) 9 = Ret protocol /\ rd_ipv4 (raw_of p) 16 = Ret dst
    /\ is_forbidden_dst dst = false
    /\ (protocol = 17 -> forall q, port = Some q -> is_forbidden_dst_port q = false)
    /\ permits g protocol dst port = (g', true)
    /\ judged_port p port.

(** A UDP payload is no longer than its packet. *)
Definition payload_fits (p : ParsedPacket) : Prop :=
  match p with
  | Udp _ payload _ raw => (length payload <= length raw)%nat
  | _ => True
  end.

(** [result_ok g raw (g', r)]: a forwardable [r] carries [raw] and is
    admitted. *)
Definition result_ok (g : P) (raw : list Z) (res : P * option ParsedPacket) : Prop :=
  match res with
  | (_, None) => True
  | (_, Some ForbiddenDst) => True
  | (g', Some p) => raw_of p = raw /\ payload_fits p /\ admitted g g' p
  end.

Context (packet : list Z) (b0 protocol bits : Z) (dst : Ipv4Addr).
Let ihl := ihl_of b0.
Hypothesis Hlen : (20 <= ihl <= length packet)%nat.
Hypothesis Hb0 : rd packet 0 = Ret b0.
Hypothesis Hbits : rd16 packet 6 = Ret bits.
Hypothesis Hproto : rd packet 9 = Ret protocol.
Hypothesis Hdst : rd_ipv4 packet 16 = Ret dst.

Lemma carried_port_eq :
  carried_port packet
  = if (Z.land bits 0x1FFF =? 0) && ((protocol =? 6) || (protocol =? 17))
    then let* port := rd16 packet (ihl + 2) in Ret (Some port) else Ret None.
Proof. unfold carried_port. by rewrite Hb0, Hproto, Hbits. Qed.

Lemma rd16_lookups (l : list Z) k hi lo :
  l !! k = Some hi -> l !! (k + 1)%nat = Some lo -> rd16 l k = Ret (be16 hi lo).
Proof. intros H1 H2. unfold rd16. by rewrite (rd_lookup _ _ _ H1), (rd_lookup _ _ _ H2). Qed.

(** The port of a packet that carries one, from the two bytes the parser
    read. *)
Lemma carried_at hi lo :
  Z.land bits 0x1FFF = 0 -> protocol = 6 \/ protocol = 17 ->
  packet !! (ihl + 2)%nat = Some hi -> packet !! (ihl + 2 + 1)%nat = Some lo ->
  carried_port packet = Ret (Some (be16 hi lo)).
Proof.
  intros Hoff Hp H1 H2. rewrite carried_port_eq, Hoff, (rd16_lookups _ _ _ _ H1 H2).
  by destruct Hp as [-> | ->].
Qed.

Lemma parse_udp_ok g src :
  Z.land bits 0x1FFF = 0 -> protocol = 17 ->
  returns (parse_udp g packet ihl protocol src dst) (result_ok g packet).
Proof.
  intros Hoff Hp. unfold parse_udp, UDP_HEADER_SIZE.
  repeat ostep; try exact I; bool_hyps; try match goal with E : ?b = true |- _ => is_var b; subst b end; cbn; (split; [reflexivity|]); (split; [rewrite ?length_take, ?length_drop; cbn; first [exact I | lia]|]);
    eexists protocol, dst, (Some _); (split; [cbn; lia|]);
    repeat split; try eassumption; try reflexivity; try (intros _ q Eq; injection Eq as <-; assumption);
    apply carried_at; auto.
Qed.

Lemma parse_tcp_ok g src :
  Z.land bits 0x1FFF = 0 -> protocol = 6 ->
  returns (parse_tcp g packet ihl protocol src dst) (result_ok g packet).
Proof.
  intros Hoff Hp. unfold parse_tcp, TCP_HEADER_MIN.
  repeat ostep; try exact I; bool_hyps; try match goal with E : ?b = true |- _ => is_var b; subst b end; cbn; (split; [reflexivity|]); (split; [rewrite ?length_take, ?length_drop; cbn; first [exact I | lia]|]);
    eexists protocol, dst, (Some _); (split; [cbn; lia|]);
    repeat split; try eassumption; try reflexivity; try lia; apply carried_at; auto.
Qed.

Lemma parse_fragment_ok g src :
  returns (parse_fragment g packet ihl protocol src dst (Z.land bits 0x1FFF)) (result_ok g packet).
Proof.
  pose proof carried_port_eq as Hc. unfold parse_fragment.
  destruct ((Z.land bits 0x1FFF =? 0) && ((protocol =? 6) || (protocol =? 17))) eqn:Efirst.
  - assert (Z.land bits 0x1FFF = 0 /\ (protocol = 6 \/ protocol = 17)) as [Hoff Hp]
      by (apply andb_true_iff in Efirst as [E1 E2]; apply orb_true_iff in E2 as [E2|E2]; lia).
    repeat ostep; try exact I; bool_hyps; try match goal with E : ?b = true |- _ => is_var b; subst b end; cbn; (split; [reflexivity|]); (split; [exact I|]);
      eexists protocol, dst, _; (split; [cbn; lia|]);
      repeat split; try eassumption; try (by apply carried_at; auto).
    intros -> q Eq. injection Eq as <-. by match goal with E : (17 =? 17) && _ = false |- _ => cbn in E end.
  - repeat ostep; try exact I; bool_hyps; try match goal with E : ?b = true |- _ => is_var b; subst b end; cbn; (split; [reflexivity|]); (split; [exact I|]);
      eexists protocol, dst, None; (split; [cbn; lia|]); repeat split; try eassumption; discriminate.
Qed.

End ParseFacts.

(* ------------------------------------------------------------------ *)
(** ** Theorems: parsing *)

Lemma parse_ip_packet_full_returns {P : Type} `{DestGate P} (g : P) (packet : list Z) :
  returns (parse_ip_packet_full g packet)
    (fun r => exists n, result_ok g (take n packet) r).
Proof.
  unfold parse_ip_packet_full, IP_HEADER_MIN.
  ostep; [exists 0%nat; exact I|].
  ostep. ostep. ostep; [exists 0%nat; exact I|].
  ostep; [exists 0%nat; exact I|].
  ostep. ostep. ostep; [exists 0%nat; exact I|].
  ostep. ostep. bool_hyps. rewrite drop_0, Nat.sub_0_r.
  match goal with |- context [take ?k packet] => set (raw := take k packet); set (n := k) in * end.
  assert (length raw = n) as Hraw by (subst raw; rewrite length_take; lia).
  ostep. ostep. apply rd_lookup in Hrd1.
  do 2 (ostep; apply returns_rd_ipv4; [lia|intros ? ?]).
  ostep. ostep.
  apply returns_mono with (result_ok g raw); [|intros r Hr; exists n; exact Hr].
  assert (rd raw 0 = Ret b) as Hb0.
  { subst raw. apply rd_lookup. rewrite lookup_take_lt by lia. assumption. }
  match goal with |- context [be16 ?x ?y] => pose proof (rd16_lookups raw 6 x y Hrd2 ltac:(assumption)) as Hbits end.
  ostep; [apply (parse_fragment_ok raw b); try assumption; lia|].
  match goal with E : _ || negb (_ =? 0) = false |- _ => apply orb_false_iff in E as [_ Hoff%negb_false_iff%Z.eqb_eq] end.
  ostep; [eapply (parse_udp_ok raw b); try eassumption; [lia | by bool_hyps]|].
  ostep; [eapply (parse_tcp_ok raw b); try eassumption; [lia | by bool_hyps] | exact I].
Qed.

(** The parser only touches the policy through its decisions. *)
Lemma parse_policy_trail {P : Type} `{DestGate P} (I : P -> Prop) :
  (forall g protocol dst port, I g -> I (permits g protocol dst port).1) ->
  forall g packet g' r, I g -> parse_ip_packet_full g packet = Ret (g', r) -> I g'.
Proof.
  intros HI g packet g' r Hg.
  assert (forall protocol dst port, I (permits g protocol dst port).1) as Hp by auto.
  unfold parse_ip_packet_full, parse_fragment, parse_udp, parse_tcp. intros E.
  repeat first
    [ match type of E with Ret _ = Ret _ => injection E as <- _; eauto end
    | discriminate E
    | match type of E with
      | obind _ _ = _ => apply obind_inv in E as (? & _ & E)
      | context [permits g ?a ?b ?c] => destruct (permits g a b c) eqn:?
      | context [if ?b then _ else _] => destruct b
      | context [match ?x with _ => _ end] => destruct x
      end ];
  match goal with Eq : permits g ?a ?b ?c = (?x, _) |- I ?x =>
    specialize (Hp a b c); rewrite Eq in Hp; exact Hp end.
Qed.

(** What the parser says about a UDP packet it hands on. *)
Lemma parse_udp_result {P : Type} `{DestGate P} (g g' : P) packet addr payload info raw :
  parse_ip_packet_full g packet = Ret (g', Some (Udp addr payload info raw)) ->
  addr = SockV4 (dst_ip info) (dst_port info)
  /\ is_forbidden_dst (dst_ip info) = false /\ is_forbidden_dst_port (dst_port info) = false
  /\ permits g 17 (dst_ip info) (Some (dst_port info)) = (g', true)
  /\ rd_ipv4 raw 16 = Ret (dst_ip info) /\ (exists n, raw = take n packet).
Proof.
  unfold parse_ip_packet_full. intros E.
  repeat first
    [ discriminate E
    | match type of E with
      | obind _ _ = _ => apply obind_inv in E as (? & ? & E)
      | context [if ?b then _ else _] => destruct b eqn:?
      end
    | match type of E with
      | context [parse_fragment] => unfold parse_fragment in E; cbn zeta in E
      | context [parse_tcp] => unfold parse_tcp in E; cbn zeta in E
      | context [permits g ?a ?b ?c] => destruct (permits g a b c) eqn:?
      end ].
  unfold parse_udp in E. cbn zeta in E.
  repeat first
    [ match type of E with Ret _ = Ret _ => injection E as <- <- <- <- <- end
    | discriminate E
    | match type of E with
      | obind _ _ = _ => apply obind_inv in E as (? & ? & E)
      | context [permits g ?a ?b ?c] => destruct (permits g a b c) as [g1 ok] eqn:?
      | (if ?b then _ else _) = _ => destruct b eqn:?
      end ].
  cbn [dst_ip dst_port]. bool_hyps. subst.
  repeat split; try assumption.
  match goal with E1 : slice packet 0 ?n = Ret _ |- _ => exists n; unfold slice in E1;
    destruct (_ && _); [injection E1 as <-; by rewrite drop_0, Nat.sub_0_r | discriminate] end.
Qed.

(** No datagram can make the packet parser index out of bounds: for every
    byte sequence it returns, with a packet, a refusal or nothing. *)
Theorem parse_never_panics {P : Type} `{DestGate P} (g : P) (packet : list Z) :
  exists res, parse_ip_packet_full g packet = Ret res.
Proof.
  destruct (returns_inv _ _ (parse_ip_packet_full_returns g packet)) as (res & E & _). eauto.
Qed.

(** Whatever the parser hands on for forwarding (UDP, TCP or a fragment)
    is a prefix of the client's packet whose destination address is outside
    the reserved blocks, whose UDP destination port is not a forbidden
    service, and which the destination policy permitted. *)
Theorem parse_forwards_only_admitted {P : Type} `{DestGate P} (g g' : P)
  (packet : list Z) (p : ParsedPacket) :
  parse_ip_packet_full g packet = Ret (g', Some p) -> p <> ForbiddenDst ->
  admitted g g' p /\ raw_of p `prefix_of` packet.
Proof.
  intros E Hp. pose proof (parse_ip_packet_full_returns g packet) as Hr.
  rewrite E in Hr. destruct Hr as [n Hr]. cbn in Hr.
  destruct p; try congruence; destruct Hr as (-> & _ & Hadm);
    (split; [exact Hadm | apply prefix_take]).
Qed.

(** A 28-byte UDP packet 1.1.1.1:5000 -> 128.116.1.1:55000. *)
Definition sample_udp : list Z :=
  [0x45; 0; 0; 28; 0; 0; 0x40; 0; 64; 17; 0; 0; 1; 1; 1; 1; 128; 116; 1; 1;
   0x13; 0x88; 0xD6; 0xD8; 0; 8; 0; 0].

Lemma parse_forwards_only_admitted_witness :
  let gate : DestGate unit := fun g _ _ _ => (g, true) in
  let p := Udp (SockV4 (ipv4_new 128 116 1 1) 55000) []
             (MkInfo 0 (ipv4_new 1 1 1 1) 5000 (ipv4_new 128 116 1 1) 55000) sample_udp in
  admitted tt tt p /\ raw_of p `prefix_of` (sample_udp ++ [9; 9; 9]).
Proof.
  intros gate p. apply (parse_forwards_only_admitted tt tt (sample_udp ++ [9; 9; 9]) p).
  - vm_compute. reflexivity.
  - discriminate.
Defined.

(* ------------------------------------------------------------------ *)
(** ** Theorems: responses *)

Lemma ip_header_checksum total tos_byte o :
  is_byte tos_byte -> calculate_ip_checksum (ip_header total tos_byte o) = 0.
Proof.
  intros Ht. set (z := ip_header_with total tos_byte 0 0 o).
  assert (bytes_ok z) as Hz by (apply ip_header_with_ok; unfold in_width in *; lia).
  pose proof (checksum_is_u16 z) as Hc. pose proof (word_sum_nonneg z Hz) as Hn.
  assert (calculate_ip_checksum z = 65535 - onec (word_sum z)) as Ev
    by (apply checksum_value; [exact Hz|vm_compute; congruence]).
  assert (ip_header total tos_byte o
          = <[11%nat := calculate_ip_checksum z mod 256]>
              (<[10%nat := calculate_ip_checksum z / 256]> z)) as E.
  { unfold ip_header. fold z. rewrite u8_shiftr8, lo8_eq, Z.mod_small; [reflexivity|].
    unfold in_width in Hc.
    split; [apply Z.div_pos; lia | apply Z.div_lt_upper_bound; lia]. }
  apply checksum_zero_iff.
  - unfold ip_header. apply ip_header_with_ok; [assumption| |].
    + apply wrap_bound. lia.
    + rewrite lo8_eq. apply byte_mod.
  - rewrite ip_header_length. vm_compute. congruence.
  - rewrite E, (word_sum_write16 z 10 0 0) by reflexivity.
    change (be16 0 0) with 0. rewrite Z.sub_0_r, Ev. apply complement_completes, Hn.
Qed.

(** Every response packet the relay reconstructs carries a valid IPv4
    header checksum (the header sums to zero in one's complement), for any
    payload, addresses, ports and TOS byte. *)
Theorem response_checksum_valid (payload : list Z) (o : OriginalPacketInfo) (tos_byte : Z) :
  is_byte tos_byte ->
  exists packet, build_response_ip_packet_with_tos payload o tos_byte = Ret packet
    /\ calculate_ip_checksum (take 20 packet) = 0
    /\ drop 28 packet = payload.
Proof.
  intros Ht. exists (response_packet payload o tos_byte).
  split; [apply build_response_spec|]. unfold response_packet. split.
  - rewrite take_app_length' by reflexivity. by apply ip_header_checksum.
  - rewrite app_assoc. by rewrite drop_app_length' by reflexivity.
Qed.

Lemma response_checksum_valid_witness :
  exists packet,
    build_response_ip_packet_with_tos [1; 2; 3]
      (MkInfo 0 (ipv4_new 10 0 0 2) 5000 (ipv4_new 128 116 1 1) 55000) 0x2E = Ret packet
    /\ calculate_ip_checksum (take 20 packet) = 0
    /\ drop 28 packet = [1; 2; 3].
Proof. apply response_checksum_valid. unfold in_width. lia. Defined.

Lemma write_response_into_spec dst payload o tos_byte :
  write_response_ip_packet_into_with_tos dst payload o tos_byte
  = if (length dst <? 28 + length payload)%nat then Ret (dst, None)
    else Ret (response_packet payload o tos_byte ++ drop (28 + length payload) dst,
              Some (28 + length payload)%nat).
Proof.
  unfold write_response_ip_packet_into_with_tos, IP_HEADER_MIN, UDP_HEADER_SIZE.
  change (20 + (8 + length payload))%nat with (28 + length payload)%nat.
  destruct (Nat.ltb_spec (length dst) (28 + length payload)); [reflexivity|].
  unfold slice. rewrite (proj2 (Nat.leb_le (28 + _) _)) by lia.
  rewrite drop_0, Nat.sub_0_r. cbn [Nat.leb andb obind].
  set (buf := take (28 + length payload) dst).
  pose proof (write_response_spec buf payload o tos_byte) as E.
  specialize (E ltac:(subst buf; rewrite length_take; lia)).
  change (20 + (8 + length payload))%nat with (28 + length payload)%nat in E.
  destruct (write_ip_header buf _ tos_byte o) as [b1|]; [|discriminate]. cbn [obind] in *.
  destruct (write_udp_header b1 _ o) as [b2|]; [|discriminate]. cbn [obind] in *.
  change (20 + 8)%nat with 28%nat. rewrite E. reflexivity.
Qed.

(** The v2 writer is the v1 builder: into any pool buffer with room it
    writes exactly the bytes the v1 builder returns, reports their number and
    leaves the rest of the buffer alone, so nothing of the buffer's previous
    contents reaches the packet; without room it reports failure and changes
    nothing. *)
Theorem write_response_into_refines_build (dst payload : list Z)
  (o : OriginalPacketInfo) (tos_byte : Z) :
  write_response_ip_packet_into_with_tos dst payload o tos_byte
  = if (length dst <? 28 + length payload)%nat then Ret (dst, None)
    else obind (build_response_ip_packet_with_tos payload o tos_byte)
           (fun packet => Ret (packet ++ drop (length packet) dst, Some (length packet))).
Proof.
  rewrite write_response_into_spec, build_response_spec. cbn [obind].
  by rewrite response_packet_length.
Qed.

(* ------------------------------------------------------------------ *)
(** ** Theorem: building and parsing are inverse *)

Lemma ipv4_octets ip : is_u32 ip -> from_be_bytes (octets ip) = ip.
Proof. intros H. unfold octets. rewrite from_to_be_bytes. apply Z.mod_small, H. Qed.

(** The header fields of a response, read back. *)
Lemma response_fields payload o t :
  let p := response_packet payload o t in
  Z.of_nat (length p) < 65536 -> is_u32 (src_ip o) -> is_u32 (dst_ip o) ->
  is_u16 (src_port o) -> is_u16 (dst_port o) ->
  rd16 p 2 = Ret (Z.of_nat (length p))
  /\ rd_ipv4 p 12 = Ret (dst_ip o) /\ rd_ipv4 p 16 = Ret (src_ip o)
  /\ rd16 p 20 = Ret (dst_port o) /\ rd16 p 22 = Ret (src_port o)
  /\ rd16 p 24 = Ret (8 + Z.of_nat (length payload)).
Proof.
  intros p Hl H1 H2 H3 H4. subst p. rewrite response_packet_length in Hl |- *.
  repeat split.
  - change (rd16 _ 2) with (Ret (be16 (hi8 (20 + (8 + Z.of_nat (length payload))))
                                      (lo8 (20 + (8 + Z.of_nat (length payload)))))).
    rewrite hi8_eq, lo8_eq, be16_halves by (unfold in_width; lia). f_equal. lia.
  - change (rd_ipv4 _ 12) with (Ret (from_be_bytes (octets (dst_ip o)))).
    by rewrite ipv4_octets.
  - change (rd_ipv4 _ 16) with (Ret (from_be_bytes (octets (src_ip o)))).
    by rewrite ipv4_octets.
  - change (rd16 _ 20) with (Ret (be16 (u8 (Z.shiftr (dst_port o) 8)) (lo8 (dst_port o)))).
    by rewrite u8_shiftr8, lo8_eq, be16_halves.
  - change (rd16 _ 22) with (Ret (be16 (u8 (Z.shiftr (src_port o) 8)) (lo8 (src_port o)))).
    by rewrite u8_shiftr8, lo8_eq, be16_halves.
  - change (rd16 _ 24) with (Ret (be16 (hi8 (8 + Z.of_nat (length payload)))
                                       (lo8 (8 + Z.of_nat (length payload))))).
    rewrite hi8_eq, lo8_eq, be16_halves by (unfold in_width; lia). reflexivity.
Qed.

Definition swap_endpoints (o : OriginalPacketInfo) (t : Z) : OriginalPacketInfo :=
  MkInfo t (dst_ip o) (dst_port o) (src_ip o) (src_port o).

(** C28: round trip: a packet built for a pair of endpoints and a payload of
    at most 65507 bytes (the most a UDP datagram holds) parses back to exactly
    that payload, the swapped endpoints and the TOS byte when its destination,
    the client's own address and port, passes the filters and the policy;
    otherwise the parser answers [ForbiddenDst], and the policy is asked only
    if the filters let the destination through. *)
Theorem response_roundtrip {P : Type} `{DestGate P} (g : P) (payload : list Z)
  (o : OriginalPacketInfo) (t : Z) :
  Z.of_nat (length payload) <= 65507 -> is_u32 (src_ip o) -> is_u32 (dst_ip o) ->
  is_u16 (src_port o) -> is_u16 (dst_port o) ->
  obind (build_response_ip_packet_with_tos payload o t) (parse_ip_packet_full g)
  = Ret (if is_forbidden_dst (src_ip o) || is_forbidden_dst_port (src_port o)
         then (g, Some ForbiddenDst)
         else let '(g', ok) := permits g 17 (src_ip o) (Some (src_port o)) in
              (g', Some (if ok then Udp (SockV4 (src_ip o) (src_port o)) payload (swap_endpoints o t)
                                        (response_packet payload o t)
                         else ForbiddenDst))).
Proof.
  intros Hn H1 H2 H3 H4. rewrite build_response_spec. cbn [obind].
  pose proof (response_packet_length payload o t) as Hl.
  destruct (response_fields payload o t) as (E2 & E12 & E16 & E20 & E22 & E24);
    try assumption; [lia|].
  assert (rd (response_packet payload o t) 0 = Ret 0x45
          /\ rd (response_packet payload o t) 1 = Ret t
          /\ rd (response_packet payload o t) 9 = Ret 17
          /\ rd16 (response_packet payload o t) 6 = Ret (be16 0x40 0)) as (E0 & E1 & E9 & E6)
    by repeat split.
  assert (drop 28 (response_packet payload o t) = payload) as Hd by reflexivity.
  set (p := response_packet payload o t) in *. clearbody p.
  unfold parse_ip_packet_full, parse_udp, IP_HEADER_MIN, UDP_HEADER_SIZE.
  rewrite (proj2 (Nat.ltb_ge (length p) 20)) by lia. rewrite E0. cbn [obind].
  change (ihl_of 0x45) with 20%nat.
  rewrite (proj2 (Nat.ltb_ge (length p) 20)) by lia. cbn -[Nat.ltb Nat.add length slice rd rd16 rd_ipv4].
  rewrite E2. cbn [obind]. rewrite Nat2Z.id.
  rewrite (proj2 (Nat.ltb_ge (length p) 20)), (proj2 (Nat.ltb_ge (length p) (length p))) by lia.
  cbn [orb]. unfold slice at 1. rewrite drop_0, Nat.sub_0_r, take_ge, Nat.leb_refl by lia.
  cbn [Nat.leb andb obind]. rewrite E9, E12, E16, E6. cbn -[Nat.ltb Nat.add length slice rd rd16].
  change (20 + 2)%nat with 22%nat. change (20 + 4)%nat with 24%nat.
  change (20 + 8)%nat with 28%nat.
  rewrite (proj2 (Nat.ltb_ge (length p) 28)) by lia. rewrite E20, E22, E24, E1.
  cbn [obind]. rewrite Z2Nat.inj_add, Nat2Z.id by lia. change (Z.to_nat 8) with 8%nat.
  rewrite (proj2 (Nat.ltb_ge (8 + length payload) 8)),
    (proj2 (Nat.ltb_ge (length p) (20 + (8 + length payload)))) by lia. cbn [orb].
  assert ((if (28 <? 20 + (8 + length payload))%nat
           then slice p 28 (20 + (8 + length payload)) else Ret []) = Ret payload) as ->.
  { destruct (Nat.ltb_spec 28 (20 + (8 + length payload))).
    - unfold slice. rewrite !(proj2 (Nat.leb_le _ _)) by lia. cbn [andb]. f_equal.
      rewrite Hd, take_ge by lia. reflexivity.
    - destruct payload; [reflexivity|cbn in *; lia]. }
  cbn [obind]. destruct (is_forbidden_dst (src_ip o) || is_forbidden_dst_port (src_port o)); [done|].
  by destruct (permits g 17 (src_ip o) (Some (src_port o))) as [g' []].
Qed.

Lemma response_roundtrip_witness :
  let o := MkInfo 0 (ipv4_new 128 116 1 1) 55000 (ipv4_new 1 1 1 1) 5000 in
  let private := MkInfo 0 (ipv4_new 192 168 1 2) 55000 (ipv4_new 1 1 1 1) 5000 in
  let gate : DestGate unit := fun g _ _ _ => (g, true) in
  obind (build_response_ip_packet_with_tos [7; 8; 9] o 0x2E) (parse_ip_packet_full tt)
  = Ret (tt, Some (Udp (SockV4 (ipv4_new 128 116 1 1) 55000) [7; 8; 9]
                       (swap_endpoints o 0x2E) (response_packet [7; 8; 9] o 0x2E)))
  /\ obind (build_response_ip_packet_with_tos [7; 8; 9] private 0x2E) (parse_ip_packet_full tt)
     = Ret (tt, Some ForbiddenDst).
Proof.
  intros o private gate. split.
  - rewrite (response_roundtrip tt [7; 8; 9] o 0x2E); first [reflexivity | vm_compute; intuition congruence].
  - rewrite (response_roundtrip tt [7; 8; 9] private 0x2E); first [reflexivity | vm_compute; intuition congruence].
Defined.
