(* ===== verification/TunRewrite.v ===== *)
(** * Address rewriting for the TUN path (src/tcp_tun.rs)

    [rewrite_ip_field] replaces one IPv4 address of a packet and repairs the
    checksums: the header checksum always, the TCP/UDP checksum by
    recomputation on whole packets and incrementally on the first fragment.
    Functions that mutate [packet: &mut [u8]] return the new packet. *)

From S2P Require Import Prelude Checksum Net Packet.

Definition MIN_IPV4_HEADER_LEN : nat := IP_HEADER_MIN.
Definition IPPROTO_TCP : Z := 6.
Definition IPPROTO_UDP : Z := 17.
Definition IP_SRC_OFFSET : nat := 12.
Definition IP_DST_OFFSET : nat := 16.

(** [u16::from_be_bytes([o[0], o[1]])] and [u16::from_be_bytes([o[2], o[3]])]
    of the octets of an address. *)
Definition ip_hi (ip : Ipv4Addr) : Z := from_be_bytes (take 2 (octets ip)).
Definition ip_lo (ip : Ipv4Addr) : Z := from_be_bytes (drop 2 (octets ip)).

Definition adjust_checksum_for_ipv4_addr_change (checksum : Z) (old_ip new_ip : Ipv4Addr)
  : Z :=
  adjust_checksum_halves checksum (ip_hi old_ip) (ip_lo old_ip) (ip_hi new_ip) (ip_lo new_ip).

Definition ipv4_fragment_offset (packet : list Z) : outcome (option Z) :=
  if (length packet <? MIN_IPV4_HEADER_LEN)%nat then Ret None else
  let* b0 := rd packet 0 in
  let ihl := ihl_of b0 in
  if (ihl <? MIN_IPV4_HEADER_LEN)%nat || (length packet <? ihl)%nat then Ret None else
  let* fragment_bits := rd16 packet 6 in
  Ret (Some (Z.land fragment_bits 0x1FFF)).

Definition ipv4_is_fragment (packet : list Z) : outcome bool :=
  let* off := ipv4_fragment_offset packet in
  match off with
  | None => Ret false
  | Some offset =>
      let* fragment_bits := rd16 packet 6 in
      Ret (negb (Z.land fragment_bits 0x2000 =? 0) || negb (offset =? 0))
  end.

Definition recalculate_ip_checksum (packet : list Z) : outcome (list Z) :=
  if (length packet <? MIN_IPV4_HEADER_LEN)%nat then Ret packet else
  let* b0 := rd packet 0 in
  let ihl := ihl_of b0 in
  if (ihl <? MIN_IPV4_HEADER_LEN)%nat || (length packet <? ihl)%nat then Ret packet else
  let* packet := wr packet 10 0 in
  let* packet := wr packet 11 0 in
  let* header := slice packet 0 ihl in
  let checksum := calculate_ip_checksum header in
  let* packet := wr packet 10 (u8 (Z.shiftr checksum 8)) in
  wr packet 11 (lo8 checksum).

(** The summing loop over the segment: [while i + 1 < len { sum += word; }]
    and the padded last byte. *)
Fixpoint segment_words_sum (sum : Z) (segment : list Z) : Z :=
  match segment with
  | a :: b :: rest => segment_words_sum (u32 (sum + be16 a b)) rest
  | [a] => u32 (sum + Z.shiftl a 8)
  | [] => sum
  end.

(** The twelve-byte pseudo-header: addresses, zero, protocol, length. *)
Definition pseudo_header (packet : list Z) (protocol : Z) (len : nat) : outcome (list Z) :=
  let* src := slice packet 12 16 in
  let* dst := slice packet 16 20 in
  Ret (src ++ dst ++ [0; protocol; u8 (Z.shiftr (Z.of_nat len) 8); lo8 (Z.of_nat len)]).

Definition recalculate_tcp_checksum (packet : list Z) : outcome (list Z) :=
  if (length packet <? MIN_IPV4_HEADER_LEN)%nat then Ret packet else
  let* b0 := rd packet 0 in
  let ihl := ihl_of b0 in
  if (length packet <? ihl)%nat then Ret packet else
  let* total16 := rd16 packet 2 in
  let total_len := Z.to_nat total16 in
  if (total_len <? ihl)%nat || (length packet <? total_len)%nat then Ret packet else
  let tcp_offset := ihl in
  let tcp_len := (total_len - ihl)%nat in
  if (tcp_len <? 20)%nat then Ret packet else
  let* packet := wr packet (tcp_offset + 16) 0 in
  let* packet := wr packet (tcp_offset + 17) 0 in
  let* pseudo := pseudo_header packet IPPROTO_TCP tcp_len in
  let sum := segment_words_sum 0 pseudo in
  let* tcp_segment := slice packet tcp_offset (tcp_offset + tcp_len) in
  let sum := segment_words_sum sum tcp_segment in
  let checksum := complement16 (fold_carries sum) in
  let* packet := wr packet (tcp_offset + 16) (u8 (Z.shiftr checksum 8)) in
  wr packet (tcp_offset + 17) (lo8 checksum).

Definition recalculate_udp_checksum (packet : list Z) : outcome (list Z) :=
  if (length packet <? MIN_IPV4_HEADER_LEN)%nat then Ret packet else
  let* b0 := rd packet 0 in
  let ihl := ihl_of b0 in
  if (length packet <? ihl)%nat then Ret packet else
  let* total16 := rd16 packet 2 in
  let total_len := Z.to_nat total16 in
  if (total_len <? ihl + 8)%nat || (length packet <? total_len)%nat then Ret packet else
  let udp_offset := ihl in
  let udp_len := (total_len - ihl)%nat in
  if (udp_len <? 8)%nat then Ret packet else
  let* existing := rd16 packet (udp_offset + 6) in
  if existing =? 0 then Ret packet else
  let* packet := wr packet (udp_offset + 6) 0 in
  let* packet := wr packet (udp_offset + 7) 0 in
  let* pseudo := pseudo_header packet IPPROTO_UDP udp_len in
  let sum := segment_words_sum 0 pseudo in
  let* udp_datagram := slice packet udp_offset (udp_offset + udp_len) in
  let sum := segment_words_sum sum udp_datagram in
  let checksum := complement16 (fold_carries sum) in
  let checksum := if checksum =? 0 then 0xFFFF else checksum in
  let* packet := wr packet (udp_offset + 6) (u8 (Z.shiftr checksum 8)) in
  wr packet (udp_offset + 7) (lo8 checksum).

Definition update_fragment_tcp_checksum (packet : list Z) (old_ip new_ip : Ipv4Addr)
  : outcome (list Z) :=
  let* b0 := rd packet 0 in
  let ihl := ihl_of b0 in
  if (ihl <? MIN_IPV4_HEADER_LEN)%nat || (length packet <? ihl + 18)%nat then Ret packet else
  let checksum_offset := (ihl + 16)%nat in
  let* checksum := rd16 packet checksum_offset in
  let adjusted := adjust_checksum_for_ipv4_addr_change checksum old_ip new_ip in
  copy_from_slice packet checksum_offset (checksum_offset + 2) (to_be_bytes 2 adjusted).

Definition update_fragment_udp_checksum (packet : list Z) (old_ip new_ip : Ipv4Addr)
  : outcome (list Z) :=
  let* b0 := rd packet 0 in
  let ihl := ihl_of b0 in
  if (ihl <? MIN_IPV4_HEADER_LEN)%nat || (length packet <? ihl + 8)%nat then Ret packet else
  let checksum_offset := (ihl + 6)%nat in
  let* checksum := rd16 packet checksum_offset in
  if checksum =? 0 then Ret packet else
  let adjusted := adjust_checksum_for_ipv4_addr_change checksum old_ip new_ip in
  let adjusted := if adjusted =? 0 then 0xFFFF else adjusted in
  copy_from_slice packet checksum_offset (checksum_offset + 2) (to_be_bytes 2 adjusted).

(** The part of [rewrite_ip_field] after the header checksum: fragments get an
    incremental update, and only the first one; whole packets a
    recomputation. *)
Definition rewrite_transport (packet : list Z) (old_ip new_ip : Ipv4Addr)
  : outcome (list Z) :=
  let* is_frag := ipv4_is_fragment packet in
  if is_frag then
    let* off := ipv4_fragment_offset packet in
    match off with
    | Some 0 =>
        let* protocol := rd packet 9 in
        if protocol =? IPPROTO_TCP then update_fragment_tcp_checksum packet old_ip new_ip
        else if protocol =? IPPROTO_UDP then update_fragment_udp_checksum packet old_ip new_ip
        else Ret packet
    | _ => Ret packet
    end
  else
    let* protocol := rd packet 9 in
    if protocol =? IPPROTO_TCP then recalculate_tcp_checksum packet
    else if protocol =? IPPROTO_UDP then recalculate_udp_checksum packet
    else Ret packet.

Definition rewrite_ip_field (packet : list Z) (offset : nat) (new_ip : Ipv4Addr)
  : outcome (list Z) :=
  if (length packet <? MIN_IPV4_HEADER_LEN)%nat || (length packet <? offset + 4)%nat
  then Ret packet else
  let* old_ip := rd_ipv4 packet offset in
  let* packet := copy_from_slice packet offset (offset + 4) (octets new_ip) in
  let* packet := recalculate_ip_checksum packet in
  rewrite_transport packet old_ip new_ip.

Definition rewrite_src_ip (packet : list Z) (new_src : Ipv4Addr) : outcome (list Z) :=
  rewrite_ip_field packet IP_SRC_OFFSET new_src.

Definition rewrite_dst_ip (packet : list Z) (new_dst : Ipv4Addr) : outcome (list Z) :=
  rewrite_ip_field packet IP_DST_OFFSET new_dst.

(* ------------------------------------------------------------------ *)
(** ** Writing a 16-bit field *)

Definition write16 (p : list Z) (o : nat) (v : Z) : list Z :=
  <[S o := v mod 256]> (<[o := v / 256]> p).

Lemma length_write16 p o v : length (write16 p o v) = length p.
Proof. unfold write16. by rewrite !length_insert. Qed.

Lemma write16_ne p o v i : i <> o -> i <> S o -> write16 p o v !! i = p !! i.
Proof. intros. unfold write16. by rewrite !list_lookup_insert_ne by lia. Qed.

Lemma write16_same p o v :
  (S o < length p)%nat ->
  write16 p o v !! o = Some (v / 256) /\ write16 p o v !! S o = Some (v mod 256).
Proof.
  intros H. unfold write16. split.
  - rewrite list_lookup_insert_ne by lia. by rewrite list_lookup_insert_eq by lia.
  - rewrite list_lookup_insert_eq; [done|rewrite length_insert; lia].
Qed.

Lemma write16_write16 p o v w : write16 (write16 p o v) o w = write16 p o w.
Proof.
  unfold write16.
  rewrite (list_insert_insert_ne _ o (S o)) by lia.
  by rewrite !list_insert_insert_eq.
Qed.

Lemma rd16_write16 p o v :
  (S o < length p)%nat -> is_u16 v -> rd16 (write16 p o v) o = Ret v.
Proof.
  intros Hl Hv. destruct (write16_same p o v Hl) as [H1 H2].
  unfold rd16. rewrite Nat.add_1_r, (rd_lookup _ _ _ H1), (rd_lookup _ _ _ H2). cbn.
  f_equal. unfold be16. pose proof (Z.div_mod v 256). lia.
Qed.

Lemma u16_hi_byte v : is_u16 v -> is_byte (v / 256).
Proof.
  intros [? ?]. split; [apply Z.div_pos; lia | apply Z.div_lt_upper_bound; lia].
Qed.

Lemma write16_ok p o v : bytes_ok p -> is_u16 v -> bytes_ok (write16 p o v).
Proof. intros. unfold write16. auto using bytes_ok_insert, byte_mod, u16_hi_byte. Qed.

Lemma take_write16 p o v n : (S o < n)%nat -> take n (write16 p o v) = write16 (take n p) o v.
Proof. intros. unfold write16. by rewrite !take_insert_lt by lia. Qed.

Lemma drop_write16 p o v n :
  (n <= o)%nat -> drop n (write16 p o v) = write16 (drop n p) (o - n) v.
Proof.
  intros. unfold write16. rewrite !drop_insert_ge by lia.
  by rewrite Nat.sub_succ_l by lia.
Qed.

Lemma drop_write16_gt p o v n : (S o < n)%nat -> drop n (write16 p o v) = drop n p.
Proof. intros. unfold write16. by rewrite !drop_insert_lt by lia. Qed.

Lemma take_write16_le p o v n : (n <= o)%nat -> take n (write16 p o v) = take n p.
Proof. intros. unfold write16. by rewrite !take_insert_ge by lia. Qed.

(** The two byte stores of the code are one [write16]. *)
Lemma wr_pair p o v :
  (S o < length p)%nat -> is_u16 v ->
  obind (wr p o (u8 (Z.shiftr v 8))) (fun p => wr p (S o) (lo8 v)) = Ret (write16 p o v).
Proof.
  intros H Hv. rewrite wr_lt by lia. cbn [obind].
  rewrite wr_lt by (rewrite length_insert; lia).
  rewrite u8_shiftr8, lo8_eq, (Z.mod_small (v / 256)) by (by apply u16_hi_byte). reflexivity.
Qed.

Lemma wr_zero_pair p o :
  (S o < length p)%nat ->
  obind (wr p o 0) (fun p => wr p (S o) 0) = Ret (write16 p o 0).
Proof.
  intros H. rewrite wr_lt by lia. cbn [obind].
  by rewrite wr_lt by (rewrite length_insert; lia).
Qed.

Lemma word_sum_zeroed p o v :
  Nat.even o = true -> (S o < length p)%nat ->
  word_sum (write16 p o v) = word_sum (write16 p o 0) + v.
Proof.
  intros He Hl.
  destruct (lookup_lt_is_Some_2 p o ltac:(lia)) as [b0 H0].
  destruct (lookup_lt_is_Some_2 p (S o) Hl) as [b1 H1].
  unfold write16. rewrite !(word_sum_write16 p o b0 b1) by assumption. lia.
Qed.

(* ------------------------------------------------------------------ *)
(** ** The sums the code computes *)

Lemma segment_words_sum_exact l s :
  bytes_ok l -> 0 <= s -> s + word_sum l < 2 ^ 32 ->
  segment_words_sum s l = s + word_sum l.
Proof.
  revert s. induction l as [|a|a b l IH] using list_pair_ind; intros s H Hs Hlt;
    cbn [segment_words_sum word_sum] in *.
  - lia.
  - rewrite Z.shiftl_mul_pow2 by lia. inversion H; subst.
    apply wrap_small. unfold in_width in *. lia.
  - inversion H as [|? ? Ha H']; subst. inversion H' as [|? ? Hb Hl]; subst.
    pose proof (be16_bound a b Ha Hb) as Hab. pose proof (word_sum_nonneg l Hl).
    unfold in_width in Hab. rewrite wrap_small by (unfold in_width; lia).
    rewrite IH; [lia|assumption|lia|lia].
Qed.

(** The one's complement sum a receiver checks: pseudo-header and segment. *)
Definition transport_sum (p : list Z) (protocol : Z) (ihl len : nat) : Z :=
  word_sum (take 8 (drop 12 p)) + protocol + Z.of_nat len + word_sum (take len (drop ihl p)).

(** A sum is accepted by a receiver when it is a positive multiple of
    65535, that is minus zero in one's complement. *)
Definition sum_valid (s : Z) : Prop := 0 < s /\ s mod 65535 = 0.

Lemma pseudo_header_spec p protocol len :
  bytes_ok p -> (20 <= length p)%nat -> Z.of_nat len < 65536 -> is_byte protocol ->
  exists l, pseudo_header p protocol len = Ret l /\ bytes_ok l /\ length l = 12%nat
    /\ word_sum l = word_sum (take 8 (drop 12 p)) + protocol + Z.of_nat len.
Proof.
  intros Hp Hl Hlen Hproto. unfold pseudo_header.
  rewrite u8_shiftr8, lo8_eq.
  uncons_list p 20. cbn -[Z.modulo Z.div]. eexists. split; [reflexivity|].
  unfold bytes_ok in Hp. rewrite !Forall_cons_iff in Hp. destruct_and!.
  split; [bytes_list|]. split; [reflexivity|].
  rewrite (Z.mod_small (Z.of_nat len / 256)) by (apply u16_hi_byte; unfold in_width; lia).
  rewrite take_0. cbn [app word_sum].
  unfold be16. pose proof (Z.div_mod (Z.of_nat len) 256 ltac:(lia)). lia.
Qed.

(** A zeroed field filled with the complement of the whole sum makes the sum
    valid. *)
Lemma completed_sum_valid base s :
  0 <= base -> base + s < 2 ^ 32 -> 0 <= s ->
  sum_valid (base + s + complement16 (fold_carries (base + s))).
Proof.
  intros Hb Hlt Hs. rewrite fold_carries_onec by lia.
  rewrite complement16_small by (apply onec_bound; lia).
  apply complement_completes. lia.
Qed.

Lemma complement16_u16 s : is_u16 (complement16 s).
Proof. apply wrap_bound. lia. Qed.

Lemma recalculate_ip_checksum_spec p b0 :
  bytes_ok p -> p !! 0%nat = Some b0 -> (20 <= ihl_of b0 <= length p)%nat ->
  exists c, is_u16 c /\ recalculate_ip_checksum p = Ret (write16 p 10 c)
    /\ calculate_ip_checksum (take (ihl_of b0) (write16 p 10 c)) = 0.
Proof.
  intros Hp H0 Hihl. set (ihl := ihl_of b0) in *.
  assert (Z.of_nat ihl <= 131000) as Hsmall.
  { subst ihl. unfold ihl_of. rewrite land15.
    pose proof (Z.mod_pos_bound b0 16 ltac:(lia)). lia. }
  set (z := write16 (take ihl p) 10 0).
  assert (bytes_ok z) as Hz
    by (apply write16_ok; [by apply bytes_ok_take | unfold in_width; lia]).
  assert (length z = ihl) as Hlz by (subst z; rewrite length_write16, length_take; lia).
  exists (calculate_ip_checksum z). split; [apply checksum_is_u16|]. split.
  - unfold recalculate_ip_checksum, MIN_IPV4_HEADER_LEN, IP_HEADER_MIN.
    rewrite (proj2 (Nat.ltb_ge (length p) 20)) by lia.
    rewrite (rd_lookup _ _ _ H0). cbn [obind]. fold ihl.
    rewrite (proj2 (Nat.ltb_ge ihl 20)), (proj2 (Nat.ltb_ge (length p) ihl)) by lia. cbn [orb].
    pose proof (wr_zero_pair p 10 ltac:(lia)) as E.
    destruct (wr p 10 0) as [p1|]; [|discriminate]. cbn [obind] in E |- *. rewrite E.
    cbn [obind]. unfold slice. rewrite length_write16, (proj2 (Nat.leb_le ihl _)) by lia.
    rewrite drop_0, Nat.sub_0_r, take_write16 by lia. cbn [Nat.leb andb obind]. fold z.
    pose proof (wr_pair (write16 p 10 0) 10 _ ltac:(rewrite length_write16; lia)
                  (checksum_is_u16 z)) as E2.
    rewrite write16_write16 in E2. exact E2.
  - rewrite take_write16 by lia. apply checksum_zero_iff.
    + apply write16_ok; [by apply bytes_ok_take | apply checksum_is_u16].
    + rewrite length_write16, length_take. lia.
    + rewrite word_sum_zeroed by (first [reflexivity | rewrite length_take; lia]). fold z.
      rewrite checksum_value by (try assumption; lia).
      apply complement_completes, word_sum_nonneg, Hz.
Qed.

(* ------------------------------------------------------------------ *)
(** ** Recomputing a transport checksum *)

(** Common part of the TCP and UDP recomputations: zero the field at
    [ihl + o], sum, complement, store [f] of the complement. *)
Definition store_transport_checksum (f : Z -> Z) (p : list Z) (protocol : Z) (ihl o len : nat)
  : outcome (list Z) :=
  let* p := wr p (ihl + o) 0 in
  let* p := wr p (ihl + S o) 0 in
  let* pseudo := pseudo_header p protocol len in
  let sum := segment_words_sum 0 pseudo in
  let* seg := slice p ihl (ihl + len) in
  let sum := segment_words_sum sum seg in
  let checksum := f (complement16 (fold_carries sum)) in
  let* p := wr p (ihl + o) (u8 (Z.shiftr checksum 8)) in
  wr p (ihl + S o) (lo8 checksum).

Lemma transport_sum_write16 p protocol ihl o len v :
  (20 <= ihl)%nat -> Nat.even o = true -> (S o < len)%nat -> (ihl + len <= length p)%nat ->
  transport_sum (write16 p (ihl + o) v) protocol ihl len
  = transport_sum (write16 p (ihl + o) 0) protocol ihl len + v.
Proof.
  intros Hihl He Ho Hl. unfold transport_sum.
  rewrite !(drop_write16 p (ihl + o) _ 12) by lia.
  rewrite !take_write16_le by lia.
  rewrite !(drop_write16 p (ihl + o) _ ihl) by lia.
  replace (ihl + o - ihl)%nat with o by lia.
  rewrite !take_write16 by lia.
  rewrite word_sum_zeroed by (first [assumption | rewrite length_take, length_drop; lia]).
  lia.
Qed.

Lemma store_transport_checksum_spec f p protocol ihl o len :
  bytes_ok p -> (20 <= ihl)%nat -> Nat.even o = true -> (S o < len)%nat ->
  (ihl + len <= length p)%nat -> Z.of_nat len < 65536 -> is_byte protocol ->
  (forall c, is_u16 c -> is_u16 (f c)) ->
  exists c, c = f (complement16 (fold_carries (transport_sum (write16 p (ihl + o) 0) protocol ihl len)))
    /\ 0 <= transport_sum (write16 p (ihl + o) 0) protocol ihl len < 2 ^ 32
    /\ store_transport_checksum f p protocol ihl o len = Ret (write16 p (ihl + o) c).
Proof.
  intros Hp Hihl He Ho Hl Hlen Hproto Hf. eexists. split; [reflexivity|].
  set (z := write16 p (ihl + o) 0).
  assert (bytes_ok z) as Hz by (apply write16_ok; [assumption | unfold in_width; lia]).
  assert (length z = length p) as Hlz by apply length_write16.
  destruct (pseudo_header_spec z protocol len) as (l & El & Hlok & Hll & Hls);
    try assumption; [lia|].
  set (seg := take len (drop ihl z)).
  assert (bytes_ok seg) as Hseg by (subst seg; auto using bytes_ok_take, bytes_ok_drop).
  pose proof (word_sum_nonneg seg Hseg). pose proof (word_sum_nonneg l Hlok).
  pose proof (word_sum_bound seg Hseg). pose proof (word_sum_bound l Hlok).
  assert (length seg = len) by (subst seg; rewrite length_take, length_drop; lia).
  assert (transport_sum z protocol ihl len = word_sum l + word_sum seg) as Ets
    by (unfold transport_sum; fold seg; lia).
  split; [lia|].
  unfold store_transport_checksum.
  pose proof (wr_zero_pair p (ihl + o) ltac:(lia)) as E.
  rewrite Nat.add_succ_r.
  destruct (wr p (ihl + o) 0) as [p1|]; [|discriminate]. cbn [obind] in E |- *. rewrite E.
  fold z. cbn [obind]. rewrite El. cbn [obind].
  unfold slice. rewrite !(proj2 (Nat.leb_le _ _)) by lia. cbn [andb obind].
  replace (ihl + len - ihl)%nat with len by lia. fold seg.
  rewrite (segment_words_sum_exact l) by (try assumption; lia).
  rewrite segment_words_sum_exact by (try assumption; lia).
  rewrite Z.add_0_l, <- Ets.
  rewrite wr_pair by (first [rewrite Hlz; lia | apply Hf, complement16_u16]).
  unfold z. by rewrite write16_write16.
Qed.

(* ------------------------------------------------------------------ *)
(** ** Well-formed packets *)

(** An IPv4 packet as the parser admits it: header length [ihl], total length
    [total], protocol, flags-and-fragment word. *)
Record ipv4_packet (p : list Z) (protocol : Z) (frag : Z) (ihl total : nat) : Prop := {
  pk_bytes : bytes_ok p;
  pk_ihl : exists b0, p !! 0%nat = Some b0 /\ ihl_of b0 = ihl;
  pk_total : rd16 p 2 = Ret (Z.of_nat total);
  pk_frag : rd16 p 6 = Ret frag;
  pk_proto : p !! 9%nat = Some protocol;
  pk_len : (20 <= ihl <= total)%nat /\ (total <= length p)%nat;
}.

Definition unfragmented (frag : Z) : Prop := Z.land frag 0x2000 = 0 /\ Z.land frag 0x1FFF = 0.

(** The header checksum verifies. *)
Definition ip_checksum_ok (p : list Z) (ihl : nat) : Prop :=
  calculate_ip_checksum (take ihl p) = 0.

(** The transport checksum verifies. *)
Definition transport_ok (p : list Z) (protocol : Z) (ihl total : nat) : Prop :=
  sum_valid (transport_sum p protocol ihl (total - ihl)).

Lemma rd16_lookup p i v :
  rd16 p i = Ret v -> exists a b, p !! i = Some a /\ p !! S i = Some b /\ v = be16 a b.
Proof.
  unfold rd16, rd. rewrite Nat.add_1_r.
  destruct (p !! i) as [a|]; [|discriminate]. cbn.
  destruct (p !! S i) as [b|]; [|discriminate]. cbn. intros [= <-]. eauto.
Qed.

Lemma rd16_agree p q i :
  q !! i = p !! i -> q !! S i = p !! S i -> rd16 q i = rd16 p i.
Proof. intros H1 H2. unfold rd16, rd. rewrite Nat.add_1_r, H1, H2. reflexivity. Qed.

(** Everything [ipv4_packet] says is in the first ten bytes and the length. *)
Lemma ipv4_packet_agree p q protocol frag ihl total :
  ipv4_packet p protocol frag ihl total -> bytes_ok q -> length q = length p ->
  (forall i, (i < 10)%nat -> q !! i = p !! i) ->
  ipv4_packet q protocol frag ihl total.
Proof.
  intros [? Hi Ht Hf Hp Hl] Hq Elen Hag. constructor; try assumption.
  - rewrite Hag by lia. exact Hi.
  - rewrite (rd16_agree p) by (apply Hag; lia). exact Ht.
  - rewrite (rd16_agree p) by (apply Hag; lia). exact Hf.
  - rewrite Hag by lia. exact Hp.
  - rewrite Elen. exact Hl.
Qed.

Lemma total_small p protocol frag ihl total :
  ipv4_packet p protocol frag ihl total -> Z.of_nat total < 65536.
Proof.
  intros [Hb _ Ht _ _ _]. destruct (rd16_lookup _ _ _ Ht) as (a & b & Ha & Hb' & E).
  pose proof (bytes_ok_lookup _ _ _ Hb Ha). pose proof (bytes_ok_lookup _ _ _ Hb Hb').
  unfold in_width, be16 in *. lia.
Qed.

Lemma fragment_offset_spec p protocol frag ihl total :
  ipv4_packet p protocol frag ihl total ->
  ipv4_fragment_offset p = Ret (Some (Z.land frag 0x1FFF))
  /\ ipv4_is_fragment p
     = Ret (negb (Z.land frag 0x2000 =? 0) || negb (Z.land frag 0x1FFF =? 0)).
Proof.
  intros [_ (b0 & H0 & Ei) _ Hf _ Hl].
  assert (ipv4_fragment_offset p = Ret (Some (Z.land frag 0x1FFF))) as E.
  { unfold ipv4_fragment_offset, MIN_IPV4_HEADER_LEN, IP_HEADER_MIN.
    rewrite (proj2 (Nat.ltb_ge _ _)) by lia. rewrite (rd_lookup _ _ _ H0). cbn [obind].
    rewrite Ei, !(proj2 (Nat.ltb_ge _ _)) by lia. cbn [orb]. rewrite Hf. reflexivity. }
  split; [exact E|]. unfold ipv4_is_fragment. rewrite E. cbn [obind]. rewrite Hf. reflexivity.
Qed.

Lemma recalculate_tcp_is_store p frag ihl total :
  ipv4_packet p 6 frag ihl total -> (ihl + 20 <= total)%nat ->
  recalculate_tcp_checksum p = store_transport_checksum id p 6 ihl 16 (total - ihl).
Proof.
  intros [_ (b0 & H0 & Ei) Ht _ _ Hl] H20.
  unfold recalculate_tcp_checksum, MIN_IPV4_HEADER_LEN, IP_HEADER_MIN.
  rewrite (proj2 (Nat.ltb_ge (length p) 20)) by lia. rewrite (rd_lookup _ _ _ H0). cbn [obind].
  rewrite Ei, (proj2 (Nat.ltb_ge (length p) ihl)) by lia. rewrite Ht. cbn [obind].
  rewrite Nat2Z.id, !(proj2 (Nat.ltb_ge _ _)) by lia. reflexivity.
Qed.

Definition udp_nonzero (c : Z) : Z := if c =? 0 then 0xFFFF else c.

Lemma recalculate_udp_is_store p frag ihl total c :
  ipv4_packet p 17 frag ihl total -> (ihl + 8 <= total)%nat ->
  rd16 p (ihl + 6) = Ret c ->
  recalculate_udp_checksum p
  = if c =? 0 then Ret p else store_transport_checksum udp_nonzero p 17 ihl 6 (total - ihl).
Proof.
  intros [_ (b0 & H0 & Ei) Ht _ _ Hl] H8 Hc.
  unfold recalculate_udp_checksum, MIN_IPV4_HEADER_LEN, IP_HEADER_MIN.
  rewrite (proj2 (Nat.ltb_ge (length p) 20)) by lia. rewrite (rd_lookup _ _ _ H0). cbn [obind].
  rewrite Ei, (proj2 (Nat.ltb_ge (length p) ihl)) by lia. rewrite Ht. cbn [obind].
  rewrite Nat2Z.id, !(proj2 (Nat.ltb_ge _ _)) by lia. cbn [orb]. rewrite Hc. reflexivity.
Qed.

Lemma udp_nonzero_valid s :
  0 <= s < 2 ^ 32 -> sum_valid (s + udp_nonzero (complement16 (fold_carries s))).
Proof.
  intros Hs. pose proof (completed_sum_valid 0 s ltac:(lia) ltac:(lia) ltac:(lia)) as Hv.
  rewrite !Z.add_0_l in Hv. unfold udp_nonzero.
  destruct (Z.eqb_spec (complement16 (fold_carries s)) 0) as [E|]; [|exact Hv].
  rewrite E, Z.add_0_r in Hv. destruct Hv as [H1 H2]. split; [lia|].
  replace (s + 0xFFFF) with (s + 1 * 65535) by lia. by rewrite Z.mod_add by lia.
Qed.

(* ------------------------------------------------------------------ *)
(** ** Replacing the address *)

Definition set_addr (p : list Z) (o : nat) (ip : Ipv4Addr) : list Z :=
  take o p ++ octets ip ++ drop (o + 4) p.

Lemma octets_length ip : length (octets ip) = 4%nat.
Proof. apply to_be_bytes_length. Qed.

Lemma length_set_addr p o ip : (o + 4 <= length p)%nat -> length (set_addr p o ip) = length p.
Proof.
  intros. unfold set_addr. rewrite !length_app, octets_length, length_take, length_drop. lia.
Qed.

Lemma set_addr_ne p o ip i :
  (o + 4 <= length p)%nat -> (i < o \/ o + 4 <= i)%nat -> set_addr p o ip !! i = p !! i.
Proof.
  intros Hl [Hi|Hi]; unfold set_addr.
  - rewrite lookup_app_l by (rewrite length_take; lia). by rewrite lookup_take_lt by lia.
  - rewrite app_assoc, lookup_app_r by (rewrite length_app, octets_length, length_take; lia).
    rewrite lookup_drop, length_app, octets_length, length_take. f_equal. lia.
Qed.

Lemma set_addr_ok p o ip : bytes_ok p -> bytes_ok (set_addr p o ip).
Proof. intros. unfold set_addr, octets. auto with relay. Qed.

Lemma rd_ipv4_drop p o l rest :
  drop o p = l ++ rest -> length l = 4%nat -> rd_ipv4 p o = Ret (from_be_bytes l).
Proof.
  intros E Hl.
  assert (forall k, (k < 4)%nat -> p !! (o + k)%nat = l !! k) as Hk.
  { intros k Hk. rewrite <- lookup_drop, E. by rewrite lookup_app_l by lia. }
  destruct l as [|a [|b [|c [|d [|]]]]]; try discriminate Hl.
  unfold rd_ipv4, rd. pose proof (Hk 0%nat ltac:(lia)) as H0. rewrite Nat.add_0_r in H0.
  rewrite H0, (Hk 1%nat), (Hk 2%nat), (Hk 3%nat) by lia. reflexivity.
Qed.

Lemma rd_ipv4_set_addr p o ip :
  (o + 4 <= length p)%nat -> is_u32 ip -> rd_ipv4 (set_addr p o ip) o = Ret ip.
Proof.
  intros Hl Hip. rewrite (rd_ipv4_drop _ o (octets ip) (drop (o + 4) p)).
  - by rewrite ipv4_octets.
  - unfold set_addr. rewrite drop_app_length' by (rewrite length_take; lia). reflexivity.
  - apply octets_length.
Qed.

Lemma rd_ipv4_agree p q o :
  (forall i, (o <= i < o + 4)%nat -> q !! i = p !! i) -> rd_ipv4 q o = rd_ipv4 p o.
Proof. intros H. unfold rd_ipv4, rd. by rewrite !H by lia. Qed.

(** The address offsets the relay uses. *)
Definition addr_offset (o : nat) : Prop := o = IP_SRC_OFFSET \/ o = IP_DST_OFFSET.

Lemma rewrite_front p o ip protocol frag ihl total :
  ipv4_packet p protocol frag ihl total -> addr_offset o ->
  exists old c, rd_ipv4 p o = Ret old /\ is_u16 c
    /\ ipv4_packet (write16 (set_addr p o ip) 10 c) protocol frag ihl total
    /\ ip_checksum_ok (write16 (set_addr p o ip) 10 c) ihl
    /\ rewrite_ip_field p o ip
       = rewrite_transport (write16 (set_addr p o ip) 10 c) old ip.
Proof.
  intros Hp Ho. pose proof Hp as [Hb (b0 & H0 & Ei) _ _ _ Hl].
  assert (12 <= o <= 16)%nat as Hor
    by (destruct Ho as [->| ->]; unfold IP_SRC_OFFSET, IP_DST_OFFSET; lia).
  assert (exists old, rd_ipv4 p o = Ret old) as [old Hold].
  { destruct (returns_inv (rd_ipv4 p o) (fun _ => True)) as (old & E & _); [|by exists old].
    apply returns_rd_ipv4; [lia | auto]. }
  destruct (recalculate_ip_checksum_spec (set_addr p o ip) b0) as (c & Hc & Er & Hv).
  - by apply set_addr_ok.
  - by rewrite set_addr_ne by lia.
  - rewrite length_set_addr by lia. lia.
  - exists old, c. split; [assumption|]. split; [assumption|]. split; [|split].
    + apply (ipv4_packet_agree p); [assumption| | |].
      * apply write16_ok; [by apply set_addr_ok|assumption].
      * rewrite length_write16. apply length_set_addr. lia.
      * intros i Hi. rewrite write16_ne, set_addr_ne by lia. reflexivity.
    + unfold ip_checksum_ok. rewrite Ei in Hv. exact Hv.
    + unfold rewrite_ip_field, MIN_IPV4_HEADER_LEN, IP_HEADER_MIN.
      rewrite !(proj2 (Nat.ltb_ge _ _)) by lia. cbn [orb]. rewrite Hold. cbn [obind].
      unfold copy_from_slice. rewrite octets_length, !(proj2 (Nat.leb_le _ _)) by lia.
      replace (o + 4 - o)%nat with 4%nat by lia. cbn [andb Nat.eqb obind].
      fold (set_addr p o ip). rewrite Er. reflexivity.
Qed.

Lemma rewrite_transport_whole q protocol frag ihl total old ip :
  ipv4_packet q protocol frag ihl total -> unfragmented frag ->
  rewrite_transport q old ip
  = if protocol =? IPPROTO_TCP then recalculate_tcp_checksum q
    else if protocol =? IPPROTO_UDP then recalculate_udp_checksum q
    else Ret q.
Proof.
  intros Hq [H1 H2]. unfold rewrite_transport.
  destruct (fragment_offset_spec _ _ _ _ _ Hq) as [_ ->]. rewrite H1, H2. cbn.
  destruct Hq as [_ _ _ _ Hpr _]. rewrite (rd_lookup _ _ _ Hpr). reflexivity.
Qed.

(** What every rewrite keeps: the length, the new address, a valid header
    checksum, and every byte outside the address, the header checksum and a
    transport field at [ihl + k]. *)
Record rewritten (p q : list Z) (o ihl k : nat) (ip : Ipv4Addr) : Prop := {
  rw_length : length q = length p;
  rw_bytes : bytes_ok q;
  rw_addr : rd_ipv4 q o = Ret ip;
  rw_header : ip_checksum_ok q ihl;
  rw_frame : forall i, (i < o \/ o + 4 <= i)%nat -> i <> 10%nat -> i <> 11%nat ->
    i <> (ihl + k)%nat -> i <> S (ihl + k) -> q !! i = p !! i;
}.

Lemma addr_offset_range o : addr_offset o -> (12 <= o <= 16)%nat.
Proof. intros [-> | ->]; unfold IP_SRC_OFFSET, IP_DST_OFFSET; lia. Qed.

Lemma rewritten_plain p o ip protocol frag ihl total k c :
  ipv4_packet p protocol frag ihl total -> addr_offset o -> is_u32 ip -> is_u16 c ->
  ip_checksum_ok (write16 (set_addr p o ip) 10 c) ihl ->
  rewritten p (write16 (set_addr p o ip) 10 c) o ihl k ip.
Proof.
  intros [Hb _ _ _ _ Hl] Ho%addr_offset_range Hip Hc Hck.
  constructor; try assumption.
  - rewrite length_write16. apply length_set_addr. lia.
  - apply write16_ok; [by apply set_addr_ok | assumption].
  - rewrite (rd_ipv4_agree (set_addr p o ip)) by (intros; apply write16_ne; lia).
    apply rd_ipv4_set_addr; [lia | assumption].
  - intros i Hi ? ? _ _. rewrite write16_ne by assumption. apply set_addr_ne; lia.
Qed.

Lemma rewritten_field p q o ip ihl k c' :
  rewritten p q o ihl k ip -> addr_offset o -> (20 <= ihl)%nat -> is_u16 c' ->
  rewritten p (write16 q (ihl + k) c') o ihl k ip.
Proof.
  intros [Hl Hb Ha Hh Hf] Ho%addr_offset_range Hihl Hc. constructor.
  - by rewrite length_write16.
  - by apply write16_ok.
  - rewrite (rd_ipv4_agree q) by (intros; apply write16_ne; lia). exact Ha.
  - unfold ip_checksum_ok. rewrite take_write16_le by lia. exact Hh.
  - intros i Hi ? ? ? ?. rewrite write16_ne by assumption. auto.
Qed.

Lemma store_completes f p q frag protocol ihl total o ip k c0 :
  ipv4_packet q protocol frag ihl total -> addr_offset o -> Nat.even k = true ->
  (ihl + S k < total)%nat -> rewritten p q o ihl k ip -> c0 = (total - ihl)%nat ->
  (forall c, is_u16 c -> is_u16 (f c)) ->
  (forall s, 0 <= s < 2 ^ 32 -> sum_valid (s + f (complement16 (fold_carries s)))) ->
  exists c, is_u16 c
    /\ store_transport_checksum f q protocol ihl k c0 = Ret (write16 q (ihl + k) (f c))
    /\ rewritten p (write16 q (ihl + k) (f c)) o ihl k ip
    /\ transport_ok (write16 q (ihl + k) (f c)) protocol ihl total.
Proof.
  intros Hq Ho Hk Hlen Hrw -> Hf Hv. pose proof (total_small _ _ _ _ _ Hq) as Hts.
  destruct Hq as [Hb _ _ _ Hp Hl].
  pose proof (bytes_ok_lookup _ _ _ Hb Hp) as Hpb.
  destruct (store_transport_checksum_spec f q protocol ihl k (total - ihl))
    as (c & Ec & Hr & Es); try assumption; try lia.
  eexists. split; [apply complement16_u16|]. rewrite Ec in Es. split; [exact Es|]. split.
  - apply rewritten_field; try assumption; [lia | apply Hf, complement16_u16].
  - unfold transport_ok. rewrite transport_sum_write16 by (try assumption; lia). by apply Hv.
Qed.

(** C29: whole TCP packets. Replacing the source or destination address of an
    unfragmented TCP packet returns a packet of the same length whose address
    is the new one, whose IPv4 header checksum and TCP checksum (pseudo-header
    included) both verify, and which differs from the original only in the
    address and the two checksum fields. *)
Theorem rewrite_tcp_valid p o ip frag ihl total :
  ipv4_packet p IPPROTO_TCP frag ihl total -> unfragmented frag ->
  (ihl + 20 <= total)%nat -> addr_offset o -> is_u32 ip ->
  exists q, rewrite_ip_field p o ip = Ret q /\ rewritten p q o ihl 16 ip
    /\ transport_ok q IPPROTO_TCP ihl total.
Proof.
  intros Hp Hu H20 Ho Hip.
  destruct (rewrite_front p o ip _ _ _ _ Hp Ho) as (old & c & _ & Hc & Hq & Hck & ->).
  rewrite (rewrite_transport_whole _ _ _ _ _ _ _ Hq Hu). cbn [Z.eqb IPPROTO_TCP Pos.eqb].
  rewrite (recalculate_tcp_is_store _ _ _ _ Hq H20).
  destruct (store_completes id p _ _ 6 ihl total o ip 16 (total - ihl) Hq Ho) as (c' & ? & E & ? & ?);
    try lia; auto.
  - eapply rewritten_plain; eauto.
  - intros s Hs. apply (completed_sum_valid 0 s); lia.
  - eauto.
Qed.

Lemma udp_nonzero_u16 c : is_u16 c -> is_u16 (udp_nonzero c).
Proof. unfold udp_nonzero, in_width. destruct (c =? 0); lia. Qed.

(** Whole UDP packets. Replacing an address of an unfragmented UDP
    packet keeps a zero (absent) checksum zero, touching nothing but the
    address and the header checksum; any other checksum is replaced by a
    valid one that is not zero. *)
Theorem rewrite_udp_valid p o ip frag ihl total c0 :
  ipv4_packet p IPPROTO_UDP frag ihl total -> unfragmented frag ->
  (ihl + 8 <= total)%nat -> addr_offset o -> is_u32 ip -> rd16 p (ihl + 6) = Ret c0 ->
  exists q c, rewrite_ip_field p o ip = Ret q /\ rewritten p q o ihl 6 ip
    /\ rd16 q (ihl + 6) = Ret c
    /\ (c0 = 0 -> c = 0)
    /\ (c0 <> 0 -> c <> 0 /\ transport_ok q IPPROTO_UDP ihl total).
Proof.
  intros Hp Hu H8 Ho Hip Hc0. pose proof Hp as [_ _ _ _ _ Hl].
  destruct (rewrite_front p o ip _ _ _ _ Hp Ho) as (old & c & _ & Hc & Hq & Hck & ->).
  rewrite (rewrite_transport_whole _ _ _ _ _ _ _ Hq Hu).
  cbn [Z.eqb IPPROTO_TCP IPPROTO_UDP Pos.eqb].
  assert (rewritten p (write16 (set_addr p o ip) 10 c) o ihl 6 ip) as Hrw
    by (eapply rewritten_plain; eauto).
  assert (rd16 (write16 (set_addr p o ip) 10 c) (ihl + 6) = Ret c0) as Hc0'.
  { pose proof (addr_offset_range o Ho). rewrite <- Hc0.
    apply rd16_agree; rewrite write16_ne by lia; apply set_addr_ne; lia. }
  rewrite (recalculate_udp_is_store _ _ _ _ _ Hq H8 Hc0').
  destruct (Z.eqb_spec c0 0) as [->|Hnz].
  - eexists _, 0. split; [reflexivity|]. split; [exact Hrw|]. split; [exact Hc0'|]. split; lia.
  - destruct (store_completes udp_nonzero p _ _ 17 ihl total o ip 6 (total - ihl) Hq Ho)
      as (c' & Hc' & E & Hrw' & Hok); try lia; auto using udp_nonzero_u16, udp_nonzero_valid.
    eexists _, (udp_nonzero c'). split; [exact E|]. split; [exact Hrw'|].
    split; [|split; [lia|]].
    + apply rd16_write16; [|by apply udp_nonzero_u16].
      rewrite (rw_length _ _ _ _ _ _ Hrw). lia.
    + intros _. split; [|exact Hok]. unfold udp_nonzero. destruct (Z.eqb_spec c' 0); lia.
Qed.

(* ------------------------------------------------------------------ *)
(** ** Fragments *)

Definition halves (ip : Ipv4Addr) : Z := ip_hi ip + ip_lo ip.

Lemma halves_octets ip : halves ip = word_sum (octets ip).
Proof. unfold halves, ip_hi, ip_lo, octets. cbn -[Z.modulo Z.div Z.pow]. unfold be16. lia. Qed.

Lemma ip_halves_u16 ip : is_u16 (ip_hi ip) /\ is_u16 (ip_lo ip).
Proof.
  pose proof (to_be_bytes_ok 4 ip) as H. unfold ip_hi, ip_lo, octets.
  pose proof (from_be_bytes_bound (take 2 (to_be_bytes 4 ip)) ltac:(auto with relay)).
  pose proof (from_be_bytes_bound (drop 2 (to_be_bytes 4 ip)) ltac:(auto with relay)).
  unfold in_width. split; assumption.
Qed.

(** The adjusted checksum moves by exactly the difference of the address
    sums, modulo 65535. *)
Lemma adjust_congr c old ip :
  is_u16 c ->
  is_u16 (adjust_checksum_for_ipv4_addr_change c old ip)
  /\ exists k, adjust_checksum_for_ipv4_addr_change c old ip
               = c + halves old - halves ip + k * 65535.
Proof.
  intros Hc. unfold halves, adjust_checksum_for_ipv4_addr_change, adjust_checksum_halves.
  pose proof (ip_halves_u16 old) as [H1 H2]. pose proof (ip_halves_u16 ip) as [H3 H4].
  rewrite !low16_bnot16 by assumption. unfold in_width in *. unfold bnot.
  rewrite (wrap_small 32) by (unfold in_width; lia).
  rewrite fold_carries_onec by lia.
  match goal with |- context [onec ?s] => set (S := s) end.
  assert (0 <= S < 2 ^ 32) by lia.
  pose proof (onec_bound S ltac:(lia)). pose proof (onec_congr S) as Hcg.
  rewrite wrap_small by (unfold in_width; lia).
  assert (exists j, onec S = S + j * 65535) as [j Ej].
  { exists (onec S / 65535 - S / 65535).
    pose proof (Z.div_mod (onec S) 65535 ltac:(lia)).
    pose proof (Z.div_mod S 65535 ltac:(lia)). lia. }
  split; [unfold in_width; lia|]. exists (- j - 2). rewrite Ej. subst S. lia.
Qed.

Lemma octets_ipv4_new a b c d :
  is_byte a -> is_byte b -> is_byte c -> is_byte d -> octets (ipv4_new a b c d) = [a; b; c; d].
Proof. intros. apply (to_from_be_bytes [a; b; c; d]). bytes_list. Qed.

(** Replacing the address moves the pseudo-header sum by the difference of
    the address sums, whatever happens to the header checksum field. *)
Lemma transport_sum_set_addr p o ip old c protocol ihl len :
  bytes_ok p -> (20 <= ihl)%nat -> (20 <= length p)%nat -> addr_offset o ->
  rd_ipv4 p o = Ret old ->
  transport_sum (write16 (set_addr p o ip) 10 c) protocol ihl len
  = transport_sum p protocol ihl len - halves old + halves ip.
Proof.
  intros Hb Hihl Hl Ho Hold. unfold transport_sum.
  rewrite !drop_write16_gt by lia.
  assert (drop ihl (set_addr p o ip) = drop ihl p) as ->.
  { pose proof (addr_offset_range o Ho). apply list_eq. intros i.
    rewrite !lookup_drop. apply set_addr_ne; lia. }
  enough (word_sum (take 8 (drop 12 (set_addr p o ip)))
          = word_sum (take 8 (drop 12 p)) - halves old + halves ip) by lia.
  rewrite !halves_octets. uncons_list p 20.
  unfold bytes_ok in Hb. rewrite !Forall_cons_iff in Hb. destruct_and!.
  destruct Ho as [-> | ->]; cbn -[ipv4_new] in Hold; injection Hold as <-.
  all: rewrite octets_ipv4_new by assumption.
  all: unfold set_addr, octets; cbn -[Z.modulo Z.div Z.pow be16]; rewrite ?take_0; cbn [word_sum]; ring.
Qed.

Lemma transport_sum_ge p protocol ihl len :
  bytes_ok p -> protocol <= transport_sum p protocol ihl len.
Proof.
  intros Hp. unfold transport_sum.
  pose proof (word_sum_nonneg (take 8 (drop 12 p)) ltac:(auto with relay)).
  pose proof (word_sum_nonneg (take len (drop ihl p)) ltac:(auto with relay)). lia.
Qed.

(** A transport field of the segment replaced by a value congruent to the
    adjusted one keeps the whole sum valid. *)
Lemma adjusted_sum_valid p o ip old c1 protocol ihl len k c v j rest :
  bytes_ok p -> (20 <= ihl)%nat -> (ihl + len <= length p)%nat -> addr_offset o ->
  rd_ipv4 p o = Ret old -> Nat.even k = true -> (S k < len)%nat -> 0 < protocol -> 0 <= rest ->
  rd16 p (ihl + k) = Ret c -> is_u16 v -> is_u16 c1 -> v = c + halves old - halves ip + j * 65535 ->
  sum_valid (transport_sum p protocol ihl len + rest) ->
  sum_valid (transport_sum (write16 (write16 (set_addr p o ip) 10 c1) (ihl + k) v)
               protocol ihl len + rest).
Proof.
  intros Hb Hihl Hl Ho Hold He Hk Hpr Hrest Hc Hv Hc1 Ev [_ Hval].
  set (q := write16 (set_addr p o ip) 10 c1).
  pose proof (addr_offset_range o Ho) as Hor.
  assert (length q = length p) as Elq
    by (subst q; rewrite length_write16; apply length_set_addr; lia).
  pose proof (transport_sum_set_addr p o ip old c1 protocol ihl len Hb Hihl ltac:(lia) Ho Hold)
    as Hsum. fold q in Hsum.
  assert (transport_sum (write16 q (ihl + k) v) protocol ihl len
          = transport_sum q protocol ihl len - c + v) as E.
  { destruct (rd16_lookup _ _ _ Hc) as (a & b & Ha & Hbb & ->).
    unfold transport_sum.
    rewrite (drop_write16 q (ihl + k) _ 12), take_write16_le by lia.
    rewrite (drop_write16 q (ihl + k) _ ihl), take_write16 by lia.
    replace (ihl + k - ihl)%nat with k by lia. unfold write16.
    rewrite (word_sum_write16 _ k a b); [lia | assumption | |].
    all: rewrite lookup_take_lt, lookup_drop by lia; subst q.
    all: rewrite write16_ne, set_addr_ne by lia; rewrite <- ?Nat.add_succ_r in *; assumption. }
  split.
  - pose proof (transport_sum_ge (write16 q (ihl + k) v) protocol ihl len) as Hge.
    enough (protocol <= transport_sum (write16 q (ihl + k) v) protocol ihl len) by lia.
    apply Hge, write16_ok; [|assumption]. apply write16_ok; [by apply set_addr_ok|assumption].
  - rewrite E, Hsum, Ev.
    replace (_ + rest) with (transport_sum p protocol ihl len + rest + j * 65535) by lia.
    by rewrite Z.mod_add by lia.
Qed.

Lemma rewrite_transport_first_fragment q protocol frag ihl total old ip :
  ipv4_packet q protocol frag ihl total -> Z.land frag 0x2000 <> 0 -> Z.land frag 0x1FFF = 0 ->
  rewrite_transport q old ip
  = if protocol =? IPPROTO_TCP then update_fragment_tcp_checksum q old ip
    else if protocol =? IPPROTO_UDP then update_fragment_udp_checksum q old ip
    else Ret q.
Proof.
  intros Hq H1 H2. unfold rewrite_transport.
  destruct (fragment_offset_spec _ _ _ _ _ Hq) as [-> ->]. rewrite H2.
  rewrite (proj2 (Z.eqb_neq _ _) H1). cbn [negb orb obind].
  destruct Hq as [_ _ _ _ Hpr _]. rewrite (rd_lookup _ _ _ Hpr). reflexivity.
Qed.

Lemma copy_two p o v :
  (S o < length p)%nat -> is_u16 v ->
  copy_from_slice p o (o + 2) (to_be_bytes 2 v) = Ret (write16 p o v).
Proof.
  intros Hl Hv. unfold copy_from_slice.
  rewrite to_be_bytes_length, !(proj2 (Nat.leb_le _ _)) by lia.
  replace (o + 2 - o)%nat with 2%nat by lia. cbn [andb Nat.eqb]. f_equal.
  destruct (write16_same p o v Hl) as [H1 H2].
  apply list_eq. intros i.
  destruct (decide (i < o)%nat).
  { rewrite lookup_app_l by (rewrite length_take; lia).
    rewrite lookup_take_lt, write16_ne by lia. reflexivity. }
  rewrite lookup_app_r by (rewrite length_take; lia). rewrite length_take, Nat.min_l by lia.
  cbn [to_be_bytes]. change (256 ^ Z.of_nat 1) with 256. change (256 ^ Z.of_nat 0) with 1.
  rewrite Z.div_1_r.
  destruct (decide (i = o)) as [->|].
  { rewrite Nat.sub_diag, H1. cbn. f_equal. apply Z.mod_small. by apply u16_hi_byte. }
  destruct (decide (i = S o)) as [->|].
  { rewrite H2. replace (S o - o)%nat with 1%nat by lia. reflexivity. }
  rewrite write16_ne by lia. replace (i - o)%nat with (S (S (i - o - 2))) by lia.
  rewrite (lookup_app_r [_; _] _ (S (S _))) by (cbn; lia). rewrite lookup_drop. f_equal. cbn. lia.
Qed.

Lemma update_tcp_is_write q frag ihl total c old ip :
  ipv4_packet q 6 frag ihl total -> (ihl + 18 <= total)%nat -> rd16 q (ihl + 16) = Ret c ->
  is_u16 c ->
  update_fragment_tcp_checksum q old ip
  = Ret (write16 q (ihl + 16) (adjust_checksum_for_ipv4_addr_change c old ip)).
Proof.
  intros [_ (b0 & H0 & Ei) _ _ _ Hl] Hlen Hc Hcu.
  unfold update_fragment_tcp_checksum, MIN_IPV4_HEADER_LEN, IP_HEADER_MIN.
  rewrite (rd_lookup _ _ _ H0). cbn [obind].
  rewrite Ei, !(proj2 (Nat.ltb_ge _ _)) by lia. cbn [orb].
  rewrite Hc. cbn [obind]. apply copy_two; [lia | by apply adjust_congr].
Qed.

Lemma update_udp_is_write q frag ihl total c old ip :
  ipv4_packet q 17 frag ihl total -> (ihl + 8 <= total)%nat -> rd16 q (ihl + 6) = Ret c ->
  is_u16 c ->
  update_fragment_udp_checksum q old ip
  = Ret (if c =? 0 then q
         else write16 q (ihl + 6) (udp_nonzero (adjust_checksum_for_ipv4_addr_change c old ip))).
Proof.
  intros [_ (b0 & H0 & Ei) _ _ _ Hl] Hlen Hc Hcu.
  unfold update_fragment_udp_checksum, MIN_IPV4_HEADER_LEN, IP_HEADER_MIN.
  rewrite (rd_lookup _ _ _ H0). cbn [obind].
  rewrite Ei, !(proj2 (Nat.ltb_ge _ _)) by lia. cbn [orb].
  rewrite Hc. cbn [obind]. destruct (c =? 0); [reflexivity|].
  apply copy_two; [lia | by apply udp_nonzero_u16, adjust_congr].
Qed.

Lemma rd16_u16 p o c : bytes_ok p -> rd16 p o = Ret c -> is_u16 c.
Proof.
  intros Hb H. destruct (rd16_lookup _ _ _ H) as (a & b & Ha & Hbb & ->).
  apply be16_bound; eapply bytes_ok_lookup; eassumption.
Qed.

Lemma rd16_front p o ip c i :
  (o + 4 <= length p)%nat -> addr_offset o -> (20 <= i)%nat ->
  rd16 (write16 (set_addr p o ip) 10 c) i = rd16 p i.
Proof.
  intros Hl Ho%addr_offset_range Hi.
  apply rd16_agree; rewrite write16_ne by lia; apply set_addr_ne; lia.
Qed.

(** C30: first fragments. The relay sees only the first fragment of a datagram
    but must keep the checksum of the whole datagram right. For any
    contribution [rest] of the later fragments (their data and their share of
    the pseudo-header length), if the datagram's TCP checksum verified before
    the rewrite it verifies after it; the header checksum of the fragment is
    valid, and only the address and the two checksum fields change. *)
Theorem rewrite_first_fragment_tcp p o ip frag ihl total rest :
  ipv4_packet p IPPROTO_TCP frag ihl total ->
  Z.land frag 0x2000 <> 0 -> Z.land frag 0x1FFF = 0 -> (ihl + 18 <= total)%nat ->
  addr_offset o -> is_u32 ip -> 0 <= rest ->
  sum_valid (transport_sum p IPPROTO_TCP ihl (total - ihl) + rest) ->
  exists q, rewrite_ip_field p o ip = Ret q /\ rewritten p q o ihl 16 ip
    /\ sum_valid (transport_sum q IPPROTO_TCP ihl (total - ihl) + rest).
Proof.
  intros Hp Hmf Hoff Hlen Ho Hip Hrest Hval. pose proof Hp as [Hb _ _ _ _ Hl].
  pose proof (addr_offset_range o Ho).
  destruct (rewrite_front p o ip _ _ _ _ Hp Ho) as (old & c1 & Hold & Hc1 & Hq & Hck & ->).
  rewrite (rewrite_transport_first_fragment _ _ _ _ _ _ _ Hq Hmf Hoff).
  cbn [Z.eqb IPPROTO_TCP Pos.eqb].
  destruct (returns_inv (rd16 p (ihl + 16)) (fun _ => True)) as (c & Ec & _).
  { apply returns_rd16; [lia|auto]. }
  pose proof (rd16_u16 _ _ _ Hb Ec) as Hcu. destruct (adjust_congr c old ip Hcu) as [Hau [j Ej]].
  rewrite (update_tcp_is_write _ _ _ _ c _ _ Hq Hlen) by (rewrite ?rd16_front; auto; lia).
  eexists. split; [reflexivity|]. split.
  - apply rewritten_field; try assumption; [eapply rewritten_plain; eauto | lia].
  - eapply adjusted_sum_valid with (c := c) (old := old); eauto; unfold IPPROTO_TCP; try lia.
Qed.

(** First fragments of UDP datagrams. A zero checksum stays zero;
    otherwise the datagram's checksum keeps verifying, for any contribution
    [rest] of the later fragments, and never becomes zero. *)
Theorem rewrite_first_fragment_udp p o ip frag ihl total rest c :
  ipv4_packet p IPPROTO_UDP frag ihl total ->
  Z.land frag 0x2000 <> 0 -> Z.land frag 0x1FFF = 0 -> (ihl + 8 <= total)%nat ->
  addr_offset o -> is_u32 ip -> 0 <= rest -> rd16 p (ihl + 6) = Ret c ->
  (c <> 0 -> sum_valid (transport_sum p IPPROTO_UDP ihl (total - ihl) + rest)) ->
  exists q c', rewrite_ip_field p o ip = Ret q /\ rewritten p q o ihl 6 ip
    /\ rd16 q (ihl + 6) = Ret c' /\ (c' = 0 <-> c = 0)
    /\ (c <> 0 -> sum_valid (transport_sum q IPPROTO_UDP ihl (total - ihl) + rest)).
Proof.
  intros Hp Hmf Hoff Hlen Ho Hip Hrest Ec Hval. pose proof Hp as [Hb _ _ _ _ Hl].
  pose proof (addr_offset_range o Ho).
  destruct (rewrite_front p o ip _ _ _ _ Hp Ho) as (old & c1 & Hold & Hc1 & Hq & Hck & ->).
  rewrite (rewrite_transport_first_fragment _ _ _ _ _ _ _ Hq Hmf Hoff).
  cbn [Z.eqb IPPROTO_TCP IPPROTO_UDP Pos.eqb].
  pose proof (rd16_u16 _ _ _ Hb Ec) as Hcu. destruct (adjust_congr c old ip Hcu) as [Hau [j Ej]].
  rewrite (update_udp_is_write _ _ _ _ c _ _ Hq Hlen) by (rewrite ?rd16_front; auto; lia).
  assert (rewritten p (write16 (set_addr p o ip) 10 c1) o ihl 6 ip) as Hrw
    by (eapply rewritten_plain; eauto).
  destruct (Z.eqb_spec c 0) as [->|Hnz]; eexists _, _; (split; [reflexivity|]).
  - split; [exact Hrw|]. split; [rewrite rd16_front; eauto; lia|]. split; [done|lia].
  - pose proof (udp_nonzero_u16 _ Hau) as Hnu. split; [by apply rewritten_field; [..|lia|]|].
    split; [apply rd16_write16; [rewrite (rw_length _ _ _ _ _ _ Hrw); lia | assumption]|].
    split; [unfold udp_nonzero; destruct (Z.eqb_spec (adjust_checksum_for_ipv4_addr_change c old ip) 0); lia|].
    intros _. unfold udp_nonzero in Hnu |- *.
    destruct (Z.eqb_spec (adjust_checksum_for_ipv4_addr_change c old ip) 0) as [E0|].
    + eapply adjusted_sum_valid with (c := c) (old := old) (j := j + 1); eauto; unfold IPPROTO_UDP; try lia.
    + eapply adjusted_sum_valid with (c := c) (old := old) (j := j); eauto; unfold IPPROTO_UDP; try lia.
Qed.

(** Later fragments carry no transport header, and the rewrite leaves
    everything after the IPv4 header alone: only the address and the header
    checksum change, whatever the protocol. *)
Theorem rewrite_later_fragment p o ip protocol frag ihl total :
  ipv4_packet p protocol frag ihl total -> Z.land frag 0x1FFF <> 0 ->
  addr_offset o -> is_u32 ip ->
  exists q, rewrite_ip_field p o ip = Ret q /\ (forall k, rewritten p q o ihl k ip)
    /\ drop ihl q = drop ihl p.
Proof.
  intros Hp Hoff Ho Hip. pose proof Hp as [Hb _ _ _ _ Hl]. pose proof (addr_offset_range o Ho).
  destruct (rewrite_front p o ip _ _ _ _ Hp Ho) as (old & c1 & Hold & Hc1 & Hq & Hck & ->).
  unfold rewrite_transport. destruct (fragment_offset_spec _ _ _ _ _ Hq) as [-> ->].
  rewrite (proj2 (Z.eqb_neq (Z.land frag 0x1FFF) 0)) by assumption. rewrite orb_true_r. cbn [obind].
  eexists. split; [destruct (Z.land frag 0x1FFF); [contradiction|reflexivity..]|].
  split; [intros k; eapply rewritten_plain; eauto|].
  rewrite drop_write16_gt by lia. apply list_eq. intros i. rewrite !lookup_drop.
  apply set_addr_ne; lia.
Qed.

(* ------------------------------------------------------------------ *)
(** ** Safety on arbitrary bytes *)

Lemma returns_wr {A} (l : list A) i v (Q : list A -> Prop) :
  (i < length l)%nat -> Q (<[i:=v]> l) -> returns (wr l i v) Q.
Proof. intros Hi HQ. rewrite wr_lt by assumption. exact HQ. Qed.

Lemma returns_copy {A} (l src : list A) a b (Q : list A -> Prop) :
  (a <= b <= length l)%nat -> length src = (b - a)%nat ->
  (forall r, length r = length l -> Q r) -> returns (copy_from_slice l a b src) Q.
Proof.
  intros Hab Hs HQ. unfold copy_from_slice.
  rewrite !(proj2 (Nat.leb_le _ _)), (proj2 (Nat.eqb_eq _ _) Hs) by lia. cbn. apply HQ.
  rewrite !length_app, length_take, length_drop. lia.
Qed.

(** The packet keeps its length under [m]. *)
Definition keeps_length (p : list Z) (m : outcome (list Z)) : Prop :=
  returns m (fun q => length q = length p).

Lemma returns_pseudo_header p protocol len (Q : list Z -> Prop) :
  (20 <= length p)%nat -> (forall l, Q l) -> returns (pseudo_header p protocol len) Q.
Proof. intros Hl HQ. unfold pseudo_header. do 4 ostep. ostep. apply HQ. Qed.

(** Symbolic execution of the checksum stores; bounds go to [lia] after the
    lengths of updated packets are normalised. *)
Ltac len_lia := repeat rewrite length_insert in *; bool_hyps; lia.
Ltac wsteps :=
  repeat lazymatch goal with
  | |- returns (wr _ _ _) _ => apply returns_wr; [len_lia|]
  | |- returns (Ret _) _ => cbn [returns]; by rewrite ?length_insert
  | |- returns (slice _ _ _) _ => apply returns_slice; [len_lia|]
  | |- returns (pseudo_header _ _ _) _ => apply returns_pseudo_header; [len_lia | intros ?]
  | |- returns (copy_from_slice _ _ _ _) _ =>
      apply returns_copy; [len_lia | rewrite to_be_bytes_length; lia | intros; assumption]
  | |- returns _ _ => ostep; cbv zeta beta
  end.

Lemma recalculate_ip_checksum_keeps p : keeps_length p (recalculate_ip_checksum p).
Proof.
  unfold keeps_length, recalculate_ip_checksum, MIN_IPV4_HEADER_LEN, IP_HEADER_MIN. wsteps.
  all: by rewrite ?length_insert.
Qed.

Lemma recalculate_tcp_checksum_keeps p : keeps_length p (recalculate_tcp_checksum p).
Proof.
  unfold keeps_length, recalculate_tcp_checksum, MIN_IPV4_HEADER_LEN, IP_HEADER_MIN. wsteps.
  all: by rewrite ?length_insert.
Qed.

Lemma recalculate_udp_checksum_keeps p : keeps_length p (recalculate_udp_checksum p).
Proof.
  unfold keeps_length, recalculate_udp_checksum, MIN_IPV4_HEADER_LEN, IP_HEADER_MIN. wsteps.
  all: by rewrite ?length_insert.
Qed.

Lemma update_fragment_tcp_keeps p old ip :
  (20 <= length p)%nat -> keeps_length p (update_fragment_tcp_checksum p old ip).
Proof. intros Hl. unfold keeps_length, update_fragment_tcp_checksum. wsteps. Qed.

Lemma update_fragment_udp_keeps p old ip :
  (20 <= length p)%nat -> keeps_length p (update_fragment_udp_checksum p old ip).
Proof. intros Hl. unfold keeps_length, update_fragment_udp_checksum. wsteps. Qed.

Lemma returns_fragment_tests p (Q : option Z -> Prop) :
  (forall o, Q o) -> returns (ipv4_fragment_offset p) Q.
Proof.
  intros HQ. unfold ipv4_fragment_offset, MIN_IPV4_HEADER_LEN, IP_HEADER_MIN.
  ostep; [apply HQ|]. do 2 ostep. ostep; [apply HQ|]. do 2 ostep. apply HQ.
Qed.

Lemma returns_is_fragment p (Q : bool -> Prop) :
  (20 <= length p)%nat -> (forall b, Q b) -> returns (ipv4_is_fragment p) Q.
Proof.
  intros Hl HQ. unfold ipv4_is_fragment. ostep. apply returns_fragment_tests. intros [o|].
  - do 2 ostep. apply HQ.
  - apply HQ.
Qed.

Lemma rewrite_transport_keeps p old ip :
  (20 <= length p)%nat -> keeps_length p (rewrite_transport p old ip).
Proof.
  intros Hl. unfold keeps_length, rewrite_transport. ostep.
  apply returns_is_fragment; [assumption|]. intros []; ostep.
  - apply returns_fragment_tests. intros [[| |]|]; try reflexivity. do 2 ostep.
    ostep; [by apply update_fragment_tcp_keeps|].
    ostep; [by apply update_fragment_udp_keeps | reflexivity].
  - ostep. ostep; [apply recalculate_tcp_checksum_keeps|].
    ostep; [apply recalculate_udp_checksum_keeps | reflexivity].
Qed.

Lemma rewrite_ip_field_returns p o ip :
  exists q, rewrite_ip_field p o ip = Ret q /\ length q = length p.
Proof.
  apply returns_inv. unfold rewrite_ip_field, MIN_IPV4_HEADER_LEN, IP_HEADER_MIN.
  ostep; [reflexivity|]. bool_hyps.
  ostep. apply returns_rd_ipv4; [lia|]. intros old _.
  ostep. apply returns_copy; [lia | rewrite octets_length; lia|]. intros q Eq.
  ostep. eapply returns_mono; [apply recalculate_ip_checksum_keeps|]. cbn. intros r Er.
  eapply returns_mono; [apply rewrite_transport_keeps; lia|]. intros s Es. cbn in *. congruence.
Qed.

(** Rewriting is safe on any bytes: for a packet of any length and
    content, replacing the source or the destination address never indexes
    out of range and keeps the packet's length. *)
Theorem rewrite_never_panics (p : list Z) (ip : Ipv4Addr) :
  returns (rewrite_src_ip p ip) (fun q => length q = length p)
  /\ returns (rewrite_dst_ip p ip) (fun q => length q = length p).
Proof.
  assert (forall o, returns (rewrite_ip_field p o ip) (fun q => length q = length p)) as H
    by (intros o; destruct (rewrite_ip_field_returns p o ip) as (q & -> & E); exact E).
  split; apply H.
Qed.

(* ------------------------------------------------------------------ *)
(** ** Concrete packets *)

(** A 40-byte IPv4 packet 192.168.1.100 -> 8.8.8.8 with flags word [frag] and
    protocol [proto]; the transport checksum fields hold 0xABCD. *)
Definition sample_packet (proto frag_hi : Z) : list Z :=
  [0x45; 0; 0; 40; 0; 7; frag_hi; 0; 64; proto; 0; 0; 192; 168; 1; 100; 8; 8; 8; 8]
  ++ [0xC0; 0; 1; 0xBB; 0; 20; 0xAB; 0xCD; 1; 2; 3; 4; 0x50; 0x18; 0xFF; 0xFF; 0xAB; 0xCD; 0; 0].

Lemma sample_packet_ok proto frag_hi :
  is_byte proto -> is_byte frag_hi ->
  ipv4_packet (sample_packet proto frag_hi) proto (be16 frag_hi 0) 20 40.
Proof.
  intros H1 H2. constructor; try reflexivity.
  - unfold sample_packet. cbn [app]. bytes_list.
  - exists 0x45. split; reflexivity.
  - cbn. lia.
Qed.

Lemma rewrite_tcp_valid_witness :
  exists q, rewrite_ip_field (sample_packet 6 0) IP_SRC_OFFSET 0x0AC80007 = Ret q
    /\ rewritten (sample_packet 6 0) q IP_SRC_OFFSET 20 16 0x0AC80007
    /\ transport_ok q IPPROTO_TCP 20 40.
Proof.
  apply (rewrite_tcp_valid (sample_packet 6 0) IP_SRC_OFFSET 0x0AC80007 (be16 0 0) 20 40).
  - apply sample_packet_ok; unfold in_width, IPPROTO_TCP, IPPROTO_UDP; lia.
  - split; reflexivity.
  - lia.
  - left. reflexivity.
  - unfold in_width; lia.
Defined.

Lemma rewrite_udp_valid_witness :
  exists q c, rewrite_ip_field (sample_packet 17 0) IP_DST_OFFSET 0x0AC80007 = Ret q
    /\ rewritten (sample_packet 17 0) q IP_DST_OFFSET 20 6 0x0AC80007
    /\ rd16 q (20 + 6) = Ret c /\ (0xABCD = 0 -> c = 0)
    /\ (0xABCD <> 0 -> c <> 0 /\ transport_ok q IPPROTO_UDP 20 40).
Proof.
  apply (rewrite_udp_valid (sample_packet 17 0) IP_DST_OFFSET 0x0AC80007 (be16 0 0) 20 40).
  - apply sample_packet_ok; unfold in_width, IPPROTO_TCP, IPPROTO_UDP; lia.
  - split; reflexivity.
  - lia.
  - right. reflexivity.
  - unfold in_width; lia.
  - reflexivity.
Defined.

(** The contribution of later fragments that makes the datagram's sum valid. *)
Definition sample_rest (proto : Z) : Z :=
  (- transport_sum (sample_packet proto 0x20) proto 20 20) mod 65535.

Lemma rewrite_first_fragment_tcp_witness :
  exists q, rewrite_ip_field (sample_packet 6 0x20) IP_SRC_OFFSET 0x0AC80007 = Ret q
    /\ rewritten (sample_packet 6 0x20) q IP_SRC_OFFSET 20 16 0x0AC80007
    /\ sum_valid (transport_sum q IPPROTO_TCP 20 20 + sample_rest 6).
Proof.
  apply (rewrite_first_fragment_tcp (sample_packet 6 0x20) IP_SRC_OFFSET 0x0AC80007
           (be16 0x20 0) 20 40 (sample_rest 6)).
  - apply sample_packet_ok; unfold in_width, IPPROTO_TCP, IPPROTO_UDP; lia.
  - vm_compute. discriminate.
  - reflexivity.
  - lia.
  - left. reflexivity.
  - unfold in_width; lia.
  - vm_compute. discriminate.
  - split; vm_compute; reflexivity.
Defined.

Lemma rewrite_first_fragment_udp_witness :
  exists q c', rewrite_ip_field (sample_packet 17 0x20) IP_SRC_OFFSET 0x0AC80007 = Ret q
    /\ rewritten (sample_packet 17 0x20) q IP_SRC_OFFSET 20 6 0x0AC80007
    /\ rd16 q (20 + 6) = Ret c' /\ (c' = 0 <-> 0xABCD = 0)
    /\ (0xABCD <> 0 -> sum_valid (transport_sum q IPPROTO_UDP 20 20 + sample_rest 17)).
Proof.
  apply (rewrite_first_fragment_udp (sample_packet 17 0x20) IP_SRC_OFFSET 0x0AC80007
           (be16 0x20 0) 20 40 (sample_rest 17) 0xABCD).
  - apply sample_packet_ok; unfold in_width, IPPROTO_TCP, IPPROTO_UDP; lia.
  - vm_compute. discriminate.
  - reflexivity.
  - lia.
  - left. reflexivity.
  - unfold in_width; lia.
  - vm_compute. discriminate.
  - reflexivity.
  - intros _. split; vm_compute; reflexivity.
Defined.

Lemma rewrite_later_fragment_witness :
  exists q, rewrite_ip_field (sample_packet 17 1) IP_DST_OFFSET 0x0AC80007 = Ret q
    /\ (forall k, rewritten (sample_packet 17 1) q IP_DST_OFFSET 20 k 0x0AC80007)
    /\ drop 20 q = drop 20 (sample_packet 17 1).
Proof.
  apply (rewrite_later_fragment (sample_packet 17 1) IP_DST_OFFSET 0x0AC80007 17
           (be16 1 0) 20 40).
  - apply sample_packet_ok; unfold in_width, IPPROTO_TCP, IPPROTO_UDP; lia.
  - vm_compute. discriminate.
  - right. reflexivity.
  - unfold in_width; lia.
Defined.
