(* ===== verification/TunSession.v ===== *)
(** * TUN sessions (src/tcp_tun.rs: [assign_session_ip], [tun_writer_loop],
    [tun_reader_loop], [TunSessionCleanup::remove_expired])

    Every session that sends TCP (or UDP over the TUN) owns one address of
    10.200.0.0/16.  [session_to_ip] and [ip_to_session] are the two
    directions of that assignment.  The writer updates them in two steps with
    no common lock, [writer_assign] and [writer_commit], and the cleanup, on
    another task, expires one entry at a time: [tun_step] interleaves them
    freely.  [writer_step] is the two halves with nothing in between. *)

From S2P Require Import Prelude Checksum Net Packet TunRewrite.

Record SessionMapping : Type := MkMapping {
  m_session_id : list Z;
  m_client_addr : SocketAddr;
  m_original_src_ip : Ipv4Addr;
}.

Record InboundTunPacket : Type := MkInbound {
  in_session_id : list Z;
  in_client_addr : SocketAddr;
  raw_ip_packet : list Z;
}.

Record TunTxPacket : Type := MkTunTx {
  tx_session_id : list Z;
  tx_client_addr : SocketAddr;
  tx_ip_packet : list Z;
}.

Record Tun : Type := MkTun {
  ip_to_session : gmap Z SessionMapping;
  session_to_ip : gmap (list Z) Z;
}.

Definition TUN_INTERFACE_ADDR : Ipv4Addr := ipv4_new 10 200 0 1.

(** The candidates of [assign_session_ip] for the byte pairs of the id. *)
Definition candidate (a b : Z) : option Ipv4Addr :=
  if ((a =? 0) && (b =? 0)) || ((a =? 255) && (b =? 255)) then None
  else Some (ipv4_new 10 200 a b).

Definition collides (m : gmap Z SessionMapping) (session_id : list Z) (ip : Ipv4Addr) : bool :=
  match m !! ip with
  | Some mapping => negb (bool_decide (m_session_id mapping = session_id))
  | None => false
  end.

Fixpoint assign_from (m : gmap Z SessionMapping) (session_id pairs : list Z) (fuel : nat)
  : outcome (option Ipv4Addr) :=
  match fuel with
  | O => Ret None
  | S fuel' =>
      let* a := rd pairs 0 in
      let* b := rd pairs 1 in
      match candidate a b with
      | Some ip => if collides m session_id ip then assign_from m session_id (drop 2 pairs) fuel'
                   else Ret (Some ip)
      | None => assign_from m session_id (drop 2 pairs) fuel'
      end
  end.

(** [for pair_idx in 0..4]. *)
Definition assign_session_ip (session_id : list Z) (m : gmap Z SessionMapping)
  : outcome (option Ipv4Addr) :=
  assign_from m session_id session_id 4.

(** The writer up to the assignment: the checks on the packet, the original
    source, and the TUN address (which it records for a new session).  The
    lookups of [assign_session_ip] are taken together: a cleanup among them
    can only free addresses. *)
Definition writer_assign (t : Tun) (pkt : InboundTunPacket)
  : outcome (Tun * option (Ipv4Addr * Ipv4Addr)) :=
  let ip_packet := raw_ip_packet pkt in
  if (length ip_packet <? MIN_IPV4_HEADER_LEN)%nat then Ret (t, None) else
  let* b0 := rd ip_packet 0 in
  if negb (Z.shiftr b0 4 =? 4) then Ret (t, None) else
  let* proto := rd ip_packet 9 in
  if negb ((proto =? IPPROTO_TCP) || (proto =? IPPROTO_UDP)) then Ret (t, None) else
  let* original_src_ip := rd_ipv4 ip_packet 12 in
  match session_to_ip t !! in_session_id pkt with
  | Some ip => Ret (t, Some (ip, original_src_ip))
  | None =>
      let* assigned := assign_session_ip (in_session_id pkt) (ip_to_session t) in
      match assigned with
      | None => Ret (t, None)
      | Some ip =>
          Ret (MkTun (ip_to_session t) (<[in_session_id pkt := ip]> (session_to_ip t)),
               Some (ip, original_src_ip))
      end
  end.

(** The rest of the writer: the reverse mapping and the rewritten packet
    written to the TUN device ([None] on a reverse-mapping collision). *)
Definition writer_commit (t : Tun) (pkt : InboundTunPacket) (tun_ip original_src_ip : Ipv4Addr)
  : outcome (Tun * option (list Z)) :=
  let fresh := MkMapping (in_session_id pkt) (in_client_addr pkt) original_src_ip in
  match ip_to_session t !! tun_ip with
  | Some m =>
      if bool_decide (m_session_id m = in_session_id pkt) then
        let* out := rewrite_src_ip (raw_ip_packet pkt) tun_ip in
        Ret (MkTun (<[tun_ip := fresh]> (ip_to_session t)) (session_to_ip t), Some out)
      else Ret (t, None)
  | None =>
      let* out := rewrite_src_ip (raw_ip_packet pkt) tun_ip in
      Ret (MkTun (<[tun_ip := fresh]> (ip_to_session t)) (session_to_ip t), Some out)
  end.

(** One packet through [tun_writer_loop], not interrupted by a cleanup. *)
Definition writer_step (t : Tun) (pkt : InboundTunPacket) : outcome (Tun * option (list Z)) :=
  let* (t, assigned) := writer_assign t pkt in
  match assigned with
  | None => Ret (t, None)
  | Some (tun_ip, original_src_ip) => writer_commit t pkt tun_ip original_src_ip
  end.

(** One packet through [tun_reader_loop]. *)
Definition reader_step (t : Tun) (packet : list Z) : outcome (option TunTxPacket) :=
  if (length packet <? MIN_IPV4_HEADER_LEN)%nat then Ret None else
  let* dst_ip := rd_ipv4 packet 16 in
  match ip_to_session t !! dst_ip with
  | None => Ret None
  | Some m =>
      let* out := rewrite_dst_ip packet (m_original_src_ip m) in
      Ret (Some (MkTunTx (m_session_id m) (m_client_addr m) out))
  end.

(** One entry in the [retain] of [remove_expired]; [alive] is membership in
    the relay's session table.  The closure runs under the lock of the entry,
    so that the entry is gone, for everybody else, when the reverse mapping
    is. *)
Definition expire_entry (alive : list Z -> bool) (t : Tun) (session_id : list Z) : Tun :=
  match session_to_ip t !! session_id with
  | Some ip =>
      if alive session_id then t
      else MkTun (delete ip (ip_to_session t)) (delete session_id (session_to_ip t))
  | None => t
  end.

(** [remove_expired]: the [retain] over all the entries. *)
Definition remove_expired (t : Tun) (alive : list Z -> bool) : Tun :=
  fold_left (expire_entry alive) (map_to_list (session_to_ip t)).*1 t.

(** The packet the writer has assigned an address to, with that address and
    the packet's own source, between the two halves. *)
Abbreviation Writing := (option (InboundTunPacket * Ipv4Addr * Ipv4Addr)) (only parsing).
Definition assigned_writing (pkt : InboundTunPacket) (assigned : option (Ipv4Addr * Ipv4Addr)) : Writing :=
  match assigned with Some (ip, src) => Some (pkt, ip, src) | None => None end.

(* ------------------------------------------------------------------ *)
(** ** The two maps are inverse to each other *)

Definition tun_ok (t : Tun) : Prop :=
  (forall sid ip, session_to_ip t !! sid = Some ip ->
     exists m, ip_to_session t !! ip = Some m /\ m_session_id m = sid)
  /\ (forall ip m, ip_to_session t !! ip = Some m -> session_to_ip t !! m_session_id m = Some ip).

Lemma tun_ok_injective t sid1 sid2 ip :
  tun_ok t -> session_to_ip t !! sid1 = Some ip -> session_to_ip t !! sid2 = Some ip -> sid1 = sid2.
Proof.
  intros [H1 _] E1 E2. destruct (H1 _ _ E1) as (m & Hm & <-), (H1 _ _ E2) as (m' & Hm' & <-).
  congruence.
Qed.

Lemma tun_ok_empty : tun_ok (MkTun ∅ ∅).
Proof. split; cbn; intros ? ? Hx; by rewrite lookup_empty in Hx. Qed.

Lemma assign_from_spec m sid pairs fuel :
  (2 * fuel <= length pairs)%nat ->
  returns (assign_from m sid pairs fuel)
    (fun r => match r with
              | None => True
              | Some ip => collides m sid ip = false
                  /\ exists a b, a ∈ pairs /\ b ∈ pairs /\ ip = ipv4_new 10 200 a b
                      /\ (a, b) <> (0, 0) /\ (a, b) <> (255, 255)
              end).
Proof.
  revert pairs. induction fuel as [|fuel IH]; intros pairs Hl; [exact I|]. cbn [assign_from].
  ostep. ostep. ostep. ostep.
  assert (returns (assign_from m sid (drop 2 pairs) fuel)
    (fun r => match r with
              | None => True
              | Some ip => collides m sid ip = false
                  /\ exists a b, a ∈ pairs /\ b ∈ pairs /\ ip = ipv4_new 10 200 a b
                      /\ (a, b) <> (0, 0) /\ (a, b) <> (255, 255)
              end)) as Hrec.
  { eapply returns_mono; [apply IH; rewrite length_drop; lia|].
    intros [ip|]; [|done]. intros (Hc & a & c & Ha & Hb & Hr). split; [assumption|].
    exists a, c. split; [by eapply subseteq_drop|]. split; [by eapply subseteq_drop|]. assumption. }
  destruct (candidate b b0) as [ip|] eqn:Ec; [|exact Hrec].
  destruct (collides m sid ip) eqn:Ecol; [exact Hrec|]. cbn. split; [assumption|].
  unfold candidate in Ec. destruct (_ || _) eqn:E; [discriminate|]. injection Ec as <-.
  exists b, b0. split; [by eapply list_elem_of_lookup_2|]. split; [by eapply list_elem_of_lookup_2|].
  split; [reflexivity|]. apply orb_false_iff in E as [E1 E2].
  split; intros [= -> ->]; discriminate.
Qed.

Lemma expire_entry_ok alive t sid : tun_ok t -> tun_ok (expire_entry alive t sid).
Proof.
  intros Hok. pose proof Hok as [H1 H2]. unfold expire_entry.
  destruct (session_to_ip t !! sid) as [ip|] eqn:E; [|exact Hok].
  destruct (alive sid); [exact Hok|]. split; cbn [session_to_ip ip_to_session].
  - intros s i [Hne Hs]%lookup_delete_Some. destruct (H1 _ _ Hs) as (m & Hm & Em). exists m.
    split; [|exact Em]. rewrite lookup_delete_ne; [exact Hm|].
    intros ->. apply Hne. by eapply tun_ok_injective.
  - intros i m [Hne Hm]%lookup_delete_Some. apply H2 in Hm. rewrite lookup_delete_ne; [exact Hm|]. congruence.
Qed.

Lemma remove_expired_ok t alive : tun_ok t -> tun_ok (remove_expired t alive).
Proof.
  unfold remove_expired. generalize (map_to_list (session_to_ip t)).*1. intros l. revert t.
  induction l as [|sid l IH]; intros t Hok; [exact Hok|]. cbn. by apply IH, expire_entry_ok.
Qed.

(** The second half of the writer, from a state where the forward mapping of
    this session may be ahead of its reverse mapping. *)
Lemma writer_commit_spec t pkt ip src :
  session_to_ip t !! in_session_id pkt = Some ip ->
  (forall sid ip', sid <> in_session_id pkt -> session_to_ip t !! sid = Some ip' ->
     exists m, ip_to_session t !! ip' = Some m /\ m_session_id m = sid) ->
  (forall ip' m, ip_to_session t !! ip' = Some m -> session_to_ip t !! m_session_id m = Some ip') ->
  (forall m, ip_to_session t !! ip = Some m -> m_session_id m = in_session_id pkt) ->
  exists q, rewrite_src_ip (raw_ip_packet pkt) ip = Ret q
    /\ let t' := MkTun (<[ip := MkMapping (in_session_id pkt) (in_client_addr pkt) src]>
                          (ip_to_session t)) (session_to_ip t) in
       writer_commit t pkt ip src = Ret (t', Some q) /\ tun_ok t'.
Proof.
  intros Hf Ho Hr Hc.
  destruct (rewrite_ip_field_returns (raw_ip_packet pkt) IP_SRC_OFFSET ip) as (q & Eq & _).
  exists q. split; [exact Eq|]. cbv zeta. split.
  - unfold writer_commit, rewrite_src_ip. rewrite Eq.
    destruct (ip_to_session t !! ip) as [m|] eqn:Em; [|reflexivity].
    by rewrite bool_decide_true by (by apply Hc).
  - split; cbn [session_to_ip ip_to_session].
    + intros sid ip' Hs. destruct (decide (sid = in_session_id pkt)) as [->|Hne].
      * assert (ip' = ip) as -> by congruence. rewrite lookup_insert_eq. eauto.
      * destruct (Ho _ _ Hne Hs) as (m & Hm & Em). exists m. split; [|assumption].
        rewrite lookup_insert_ne; [assumption|]. intros <-. rewrite (Hc _ Hm) in Em. congruence.
    + intros ip' m [[<- <-]|[Hne Hm]]%lookup_insert_Some; [exact Hf | by apply Hr].
Qed.

(** What one writer step does. *)
Definition writer_post (t t' : Tun) (pkt : InboundTunPacket) (out : option (list Z)) : Prop :=
  tun_ok t'
  /\ match out with
     | None => True
     | Some q => exists ip src, session_to_ip t' !! in_session_id pkt = Some ip
         /\ rd_ipv4 (raw_ip_packet pkt) 12 = Ret src
         /\ ip_to_session t' !! ip = Some (MkMapping (in_session_id pkt) (in_client_addr pkt) src)
         /\ rewrite_src_ip (raw_ip_packet pkt) ip = Ret q
     end
  /\ (forall sid ip, session_to_ip t !! sid = Some ip -> session_to_ip t' !! sid = Some ip).

Lemma writer_step_spec t pkt :
  tun_ok t -> length (in_session_id pkt) = 8%nat ->
  returns (writer_step t pkt) (fun '(t', out) => writer_post t t' pkt out).
Proof.
  intros Hok Hlen. unfold writer_step, writer_assign, MIN_IPV4_HEADER_LEN, IP_HEADER_MIN.
  assert (writer_post t t pkt None) as Hno by (split; [assumption | split; auto]).
  ostep. ostep; [exact Hno|]. ostep. ostep. ostep; [exact Hno|].
  ostep. ostep. ostep; [exact Hno|]. ostep.
  apply returns_rd_ipv4; [bool_hyps; lia|]. intros src Hsrc.
  pose proof Hok as [H1 H2].
  destruct (session_to_ip t !! in_session_id pkt) as [ip|] eqn:Es.
  - cbn [obind returns].
    destruct (writer_commit_spec t pkt ip src Es) as (q & Eq & -> & Hok'); eauto.
    { intros m Hm. apply H2 in Hm. by eapply tun_ok_injective. }
    cbn [returns]. split; [assumption|]. split; [|auto].
    exists ip, src. cbn [session_to_ip ip_to_session]. by rewrite lookup_insert_eq.
  - ostep. eapply returns_mono; [apply assign_from_spec; lia|]. intros [ip|]; [|intros _; exact Hno].
    intros (Hcol & _). cbn [obind returns].
    assert (forall m, ip_to_session t !! ip = Some m -> False) as Hfree.
    { intros m Hm. unfold collides in Hcol. rewrite Hm in Hcol. apply negb_false_iff in Hcol.
      apply bool_decide_eq_true in Hcol. apply H2 in Hm. congruence. }
    set (t1 := MkTun (ip_to_session t) (<[in_session_id pkt := ip]> (session_to_ip t))).
    destruct (writer_commit_spec t1 pkt ip src) as (q & Eq & -> & Hok').
    + apply lookup_insert_eq.
    + intros sid ip' Hne. cbn. rewrite lookup_insert_ne by congruence. apply H1.
    + intros ip' m Hm. cbn in Hm |- *. apply H2 in Hm.
      rewrite lookup_insert_ne; [assumption|]. congruence.
    + intros m Hm. exfalso. exact (Hfree m Hm).
    + cbn [returns]. split; [assumption|]. split.
      * exists ip, src. cbn. rewrite !lookup_insert_eq. auto.
      * intros sid ip' Hs. cbn. rewrite lookup_insert_ne; [assumption | congruence].
Qed.

Lemma reader_step_returns t packet : returns (reader_step t packet) (fun _ => True).
Proof.
  unfold reader_step, MIN_IPV4_HEADER_LEN, IP_HEADER_MIN. ostep; [exact I|]. bool_hyps.
  ostep. apply returns_rd_ipv4; [lia|]. intros ip _.
  destruct (ip_to_session t !! ip) as [m|]; [|exact I].
  destruct (rewrite_ip_field_returns packet IP_DST_OFFSET (m_original_src_ip m)) as (q & E & _).
  unfold rewrite_dst_ip. rewrite E. exact I.
Qed.

(* ------------------------------------------------------------------ *)
(** ** Theorems *)

(** The steps of the two tasks on the maps: the writer takes a packet, the
    writer goes on with the packet it has, the cleanup judges one session. *)
Inductive TunStep : Type :=
| Assign (pkt : InboundTunPacket)
| Commit
| Expire (session_id : list Z) (alive : bool).

Definition tun_step_ok (op : TunStep) : Prop :=
  match op with
  | Assign pkt => length (in_session_id pkt) = 8%nat
  | _ => True
  end.

(** The maps, what the writer is at, and what it has written to the device. *)
Definition TunState : Type := Tun * Writing * list (list Z).

Definition tun_step (st : TunState) (op : TunStep) : outcome TunState :=
  let '(t, writing, device) := st in
  match op, writing with
  | Assign pkt, None =>
      let* (t, assigned) := writer_assign t pkt in
      Ret (t, assigned_writing pkt assigned, device)
  | Commit, Some (pkt, ip, src) =>
      let* (t, out) := writer_commit t pkt ip src in
      Ret (t, None, match out with Some packet => device ++ [packet] | None => device end)
  | Expire sid alive, _ => Ret (expire_entry (fun _ => alive) t sid, writing, device)
  | _, _ => Ret st
  end.

Fixpoint tun_run (st : TunState) (ops : list TunStep) : outcome TunState :=
  match ops with
  | [] => Ret st
  | op :: ops => let* st := tun_step st op in tun_run st ops
  end.

(** Packets and judgements of the cleanup, none of which interrupts the
    writer. *)
Inductive TunOp : Type :=
| Write (pkt : InboundTunPacket)
| Cleanup (session_id : list Z) (alive : bool).

Definition tun_steps (op : TunOp) : list TunStep :=
  match op with
  | Write pkt => [Assign pkt; Commit]
  | Cleanup sid alive => [Expire sid alive]
  end.

(** What holds in any interleaving: a session's address leads back to the
    session, except for the address the writer has not committed yet, and
    that one is nobody else's. *)
Definition forward_ok (t : Tun) (writing : Writing) : Prop :=
  (forall sid ip, session_to_ip t !! sid = Some ip ->
     (exists m, ip_to_session t !! ip = Some m /\ m_session_id m = sid)
     \/ exists pkt src, writing = Some (pkt, ip, src) /\ in_session_id pkt = sid
          /\ ip_to_session t !! ip = None)
  /\ (forall pkt ip src, writing = Some (pkt, ip, src) ->
        (forall m, ip_to_session t !! ip = Some m -> m_session_id m = in_session_id pkt)
        /\ forall ip', session_to_ip t !! in_session_id pkt = Some ip' -> ip' = ip).

Lemma forward_ok_injective t writing sid1 sid2 ip :
  forward_ok t writing -> session_to_ip t !! sid1 = Some ip -> session_to_ip t !! sid2 = Some ip -> sid1 = sid2.
Proof.
  intros [H1 _] E1 E2.
  destruct (H1 _ _ E1) as [(m1 & M1 & <-)|(p1 & s1 & W1 & <- & N1)],
    (H1 _ _ E2) as [(m2 & M2 & <-)|(p2 & s2 & W2 & <- & N2)]; congruence.
Qed.

Lemma forward_ok_expire alive t writing sid :
  forward_ok t writing -> forward_ok (expire_entry alive t sid) writing.
Proof.
  intros Hok. pose proof Hok as [H1 H2]. unfold expire_entry.
  destruct (session_to_ip t !! sid) as [ip|] eqn:E; [|exact Hok].
  destruct (alive sid); [exact Hok|]. split; cbn [session_to_ip ip_to_session].
  - intros s i [Hne Hs]%lookup_delete_Some.
    assert (i <> ip) as Hi by (intros ->; apply Hne; by eapply forward_ok_injective).
    destruct (H1 _ _ Hs) as [(m & Hm & Em)|(pkt & src & W & Es & Hn)].
    + left. exists m. by rewrite lookup_delete_ne.
    + right. exists pkt, src. by rewrite lookup_delete_ne.
  - intros pkt i src W. destruct (H2 _ _ _ W) as [W1 W2]. split.
    + intros m [_ Hm]%lookup_delete_Some. by apply W1.
    + intros i' [_ Hs]%lookup_delete_Some. by apply W2.
Qed.

Lemma forward_ok_expired t alive writing :
  forward_ok t writing -> forward_ok (remove_expired t alive) writing.
Proof.
  unfold remove_expired. generalize (map_to_list (session_to_ip t)).*1. intros l. revert t.
  induction l as [|sid l IH]; intros t Hok; [exact Hok|]. cbn. by apply IH, forward_ok_expire.
Qed.

Lemma writer_assign_forward t pkt :
  forward_ok t None -> length (in_session_id pkt) = 8%nat ->
  returns (writer_assign t pkt) (fun '(t', assigned) => forward_ok t' (assigned_writing pkt assigned)).
Proof.
  intros Hok Hlen. unfold writer_assign, MIN_IPV4_HEADER_LEN, IP_HEADER_MIN.
  ostep; [exact Hok|]. ostep. ostep. ostep; [exact Hok|]. ostep. ostep. ostep; [exact Hok|]. ostep.
  apply returns_rd_ipv4; [bool_hyps; lia|]. intros src Hsrc. pose proof Hok as [H1 _].
  destruct (session_to_ip t !! in_session_id pkt) as [ip|] eqn:Es.
  - cbn. split.
    + intros sid i Hs. left. by destruct (H1 _ _ Hs) as [?|(? & ? & ? & _)].
    + intros p i s' [= <- <- <-]. split; [|congruence]. intros m Hm.
      destruct (H1 _ _ Es) as [(m' & Hm' & <-)|(? & ? & ? & _)]; congruence.
  - ostep. eapply returns_mono; [apply assign_from_spec; lia|]. intros [ip|]; [|intros _; exact Hok].
    intros (Hcol & _). cbn.
    assert (forall m, ip_to_session t !! ip = Some m -> m_session_id m = in_session_id pkt) as Hown.
    { intros m Hm. unfold collides in Hcol. rewrite Hm in Hcol. apply negb_false_iff in Hcol.
      by apply bool_decide_eq_true in Hcol. }
    split; cbn [session_to_ip ip_to_session].
    + intros sid i [[<- <-]|[_ Hs]]%lookup_insert_Some.
      * destruct (ip_to_session t !! ip) as [m|] eqn:Em; [left; exists m; auto | right; eauto].
      * left. by destruct (H1 _ _ Hs) as [?|(? & ? & ? & _)].
    + intros p i s' [= <- <- <-]. split; [exact Hown|]. intros i'. rewrite lookup_insert_eq. congruence.
Qed.

Lemma writer_commit_forward t pkt ip src :
  forward_ok t (Some (pkt, ip, src)) ->
  exists q, rewrite_src_ip (raw_ip_packet pkt) ip = Ret q
    /\ let t' := MkTun (<[ip := MkMapping (in_session_id pkt) (in_client_addr pkt) src]>
                          (ip_to_session t)) (session_to_ip t) in
       writer_commit t pkt ip src = Ret (t', Some q) /\ forward_ok t' None.
Proof.
  intros [H1 H2]. destruct (H2 _ _ _ eq_refl) as [Hown Hfwd].
  destruct (rewrite_ip_field_returns (raw_ip_packet pkt) IP_SRC_OFFSET ip) as (q & Eq & _).
  exists q. split; [exact Eq|]. cbv zeta. split.
  - unfold writer_commit, rewrite_src_ip. rewrite Eq.
    destruct (ip_to_session t !! ip) as [m|] eqn:Em; [|reflexivity].
    by rewrite bool_decide_true by (by apply Hown).
  - split; cbn [session_to_ip ip_to_session]; [|intros ? ? ? [=]].
    intros sid i Hs. left. destruct (H1 _ _ Hs) as [(m & Hm & <-)|(p & s & [= <- <- <-] & <- & _)].
    + destruct (decide (ip = i)) as [<-|Hne]; [|exists m; by rewrite lookup_insert_ne].
      rewrite lookup_insert_eq. eexists. split; [done|]. cbn. symmetry. by apply Hown.
    + rewrite lookup_insert_eq. by eexists.
Qed.

Lemma tun_step_forward st op :
  tun_step_ok op -> forward_ok st.1.1 st.1.2 ->
  returns (tun_step st op) (fun st' => forward_ok st'.1.1 st'.1.2).
Proof.
  destruct st as [[t writing] device]. cbn [fst snd]. intros Hop Hok. destruct op as [pkt| |sid alive]; cbn [tun_step].
  - destruct writing as [x|]; [exact Hok|].
    apply returns_bind. eapply returns_mono; [by apply writer_assign_forward|].
    intros [t' assigned] Ht. exact Ht.
  - destruct writing as [[[pkt ip] src]|]; [|exact Hok].
    destruct (writer_commit_forward _ _ _ _ Hok) as (q & _ & -> & Hok'). exact Hok'.
  - by apply forward_ok_expire.
Qed.

Lemma tun_run_forward ops : forall st, Forall tun_step_ok ops -> forward_ok st.1.1 st.1.2 ->
  returns (tun_run st ops) (fun st' => forward_ok st'.1.1 st'.1.2).
Proof.
  induction ops as [|op ops IH]; intros st Hops Hok; [exact Hok|]. apply Forall_cons_1 in Hops as [Hop Hops].
  cbn [tun_run]. apply returns_bind. eapply returns_mono; [by apply tun_step_forward|].
  intros st' Hok'. by apply IH.
Qed.

Lemma forward_ok_empty : forward_ok (MkTun ∅ ∅) None.
Proof. split; cbn; [intros ? ? Hx; by rewrite lookup_empty in Hx | intros ? ? ? [=]]. Qed.

(** Without interruptions the two halves are [writer_step]. *)
Lemma tun_step_write t device pkt :
  tun_run (t, None, device) (tun_steps (Write pkt))
  = let* (t', out) := writer_step t pkt in
    Ret (t', None, match out with Some packet => device ++ [packet] | None => device end).
Proof.
  cbn [tun_steps tun_run tun_step]. unfold writer_step.
  destruct (writer_assign t pkt) as [[t1 [[ip src]|]]|]; cbn [obind assigned_writing tun_step]; [|done|done].
  by destruct (writer_commit t1 pkt ip src) as [[t2 out]|].
Qed.

Lemma tun_run_app l1 l2 st : tun_run st (l1 ++ l2) = (let* st := tun_run st l1 in tun_run st l2).
Proof.
  revert st. induction l1 as [|op l1 IH]; intros st; [done|]. cbn [app tun_run].
  destruct (tun_step st op); [apply IH | done].
Qed.

Lemma tun_ops_ok ops : forall t device, tun_ok t ->
  Forall (fun op => Forall tun_step_ok (tun_steps op)) ops ->
  returns (tun_run (t, None, device) (concat (List.map tun_steps ops)))
    (fun st => tun_ok st.1.1 /\ st.1.2 = None).
Proof.
  induction ops as [|op ops IH]; intros t device Hok Hops; [by split|]. apply Forall_cons_1 in Hops as [Hop Hops].
  cbn [List.map concat]. rewrite tun_run_app. destruct op as [pkt|sid alive].
  - rewrite tun_step_write. apply Forall_cons_1 in Hop as [Hp _].
    destruct (returns_inv _ _ (writer_step_spec t pkt Hok Hp)) as ([t1 out] & -> & Hpost & _). by apply IH.
  - cbn [tun_steps tun_run tun_step obind]. apply IH; [by apply expire_entry_ok | exact Hops].
Qed.

(** C31: no two sessions ever share a TUN address.  From the empty maps,
    through any interleaving of the two halves of the writer (which takes no
    common lock for them) with the cleanup, no step panics; no address is
    assigned to two sessions; every address assigned to a session leads back
    to that session, except the one the writer has in hand and has not
    committed; and when the writer commits, the address is never another
    session's, so the packet it has in hand is always written.  When no
    cleanup falls between the halves of the writer, the two maps are exactly
    inverse to each other; otherwise a reverse mapping can outlive its
    session ([writer_race_leaves_orphan]). *)
Theorem tun_assignment_injective (steps : list TunStep) (ops : list TunOp) :
  Forall tun_step_ok steps -> Forall (fun op => Forall tun_step_ok (tun_steps op)) ops ->
  (exists t writing device, tun_run (MkTun ∅ ∅, None, []) steps = Ret (t, writing, device)
     /\ (forall sid1 sid2 ip, session_to_ip t !! sid1 = Some ip ->
           session_to_ip t !! sid2 = Some ip -> sid1 = sid2)
     /\ (forall sid ip, session_to_ip t !! sid = Some ip ->
           (forall pkt src, writing = Some (pkt, ip, src) -> in_session_id pkt <> sid) ->
           exists m, ip_to_session t !! ip = Some m /\ m_session_id m = sid)
     /\ (forall pkt ip src, writing = Some (pkt, ip, src) ->
           exists t' packet, writer_commit t pkt ip src = Ret (t', Some packet)))
  /\ exists t device, tun_run (MkTun ∅ ∅, None, []) (concat (List.map tun_steps ops)) = Ret (t, None, device)
       /\ tun_ok t.
Proof.
  intros Hsteps Hops. split.
  - destruct (returns_inv _ _ (tun_run_forward steps (MkTun ∅ ∅, None, []) Hsteps forward_ok_empty))
      as ([[t writing] device] & E & Hok). cbn [fst snd] in Hok.
    exists t, writing, device. split; [exact E|]. split; [|split].
    + intros sid1 sid2 ip. by apply (forward_ok_injective t writing).
    + intros sid ip Hs Hno. destruct (proj1 Hok _ _ Hs) as [Hm|(pkt & src & W & Ep & _)]; [exact Hm|].
      by destruct (Hno _ _ W).
    + intros pkt ip src ->. destruct (writer_commit_forward _ _ _ _ Hok) as (q & _ & -> & _). eauto.
  - destruct (returns_inv _ _ (tun_ops_ok ops (MkTun ∅ ∅) [] tun_ok_empty Hops))
      as ([[t writing] device] & E & Hok & Hw). cbn [fst snd] in Hok, Hw. subst writing. eauto.
Qed.

(** C32: the TUN path translates addresses both ways for the right session: a
    client packet goes out with the session's TUN address as source, and a
    response to that address comes back to the same session and client
    address with the client's own source as destination; everything else of
    both packets is what the rewriting theorems say. *)
Theorem tun_nat_roundtrip (t t' : Tun) (pkt : InboundTunPacket) (out resp : list Z)
  (ip : Ipv4Addr) :
  tun_ok t -> length (in_session_id pkt) = 8%nat ->
  writer_step t pkt = Ret (t', Some out) ->
  session_to_ip t' !! in_session_id pkt = Some ip ->
  (20 <= length resp)%nat -> rd_ipv4 resp 16 = Ret ip ->
  exists src back, rd_ipv4 (raw_ip_packet pkt) 12 = Ret src
    /\ rewrite_src_ip (raw_ip_packet pkt) ip = Ret out
    /\ rewrite_dst_ip resp src = Ret back
    /\ reader_step t' resp
       = Ret (Some (MkTunTx (in_session_id pkt) (in_client_addr pkt) back)).
Proof.
  intros Hok Hlen Ew Hip Hl Hd. pose proof (writer_step_spec t pkt Hok Hlen) as Hs.
  rewrite Ew in Hs. destruct Hs as (_ & (ip' & src & Hip' & Hsrc & Hm & Hrw) & _).
  assert (ip' = ip) as -> by congruence.
  destruct (rewrite_ip_field_returns resp IP_DST_OFFSET src) as (back & Eb & _).
  exists src, back. split; [assumption|]. split; [assumption|]. split; [exact Eb|].
  unfold reader_step, MIN_IPV4_HEADER_LEN, IP_HEADER_MIN.
  rewrite (proj2 (Nat.ltb_ge _ _)) by lia. rewrite Hd. cbn [obind]. rewrite Hm.
  unfold rewrite_dst_ip. cbn [m_original_src_ip]. by rewrite Eb.
Qed.

(** A TCP packet of session 5,6,7,... from 192.168.1.100. *)
Definition sample_inbound : InboundTunPacket :=
  MkInbound [5; 6; 7; 8; 9; 10; 11; 12] (SockV4 1 2) (sample_packet 6 0).

(** The cleanup comes between the two halves of the writer, and again after
    a second packet has been assigned its address. *)
Definition sample_steps : list TunStep :=
  [Assign sample_inbound; Expire [5; 6; 7; 8; 9; 10; 11; 12] false; Commit; Assign sample_inbound].

Lemma tun_assignment_injective_witness :
  (exists t writing device, tun_run (MkTun ∅ ∅, None, []) sample_steps = Ret (t, writing, device)
     /\ (forall sid1 sid2 ip, session_to_ip t !! sid1 = Some ip ->
           session_to_ip t !! sid2 = Some ip -> sid1 = sid2)
     /\ (forall sid ip, session_to_ip t !! sid = Some ip ->
           (forall pkt src, writing = Some (pkt, ip, src) -> in_session_id pkt <> sid) ->
           exists m, ip_to_session t !! ip = Some m /\ m_session_id m = sid)
     /\ (forall pkt ip src, writing = Some (pkt, ip, src) ->
           exists t' packet, writer_commit t pkt ip src = Ret (t', Some packet)))
  /\ exists t device, tun_run (MkTun ∅ ∅, None, [])
         (concat (List.map tun_steps [Write sample_inbound; Cleanup [1; 2; 3; 4; 5; 6; 7; 8] false]))
         = Ret (t, None, device) /\ tun_ok t.
Proof. apply tun_assignment_injective; repeat constructor. Defined.

Definition sample_tun : Tun :=
  MkTun {[ipv4_new 10 200 5 6 := MkMapping [5; 6; 7; 8; 9; 10; 11; 12] (SockV4 1 2)
                                   (ipv4_new 192 168 1 100)]}
        {[[5; 6; 7; 8; 9; 10; 11; 12] := ipv4_new 10 200 5 6]}.
Definition sample_out : list Z :=
  Eval vm_compute in
    match rewrite_src_ip (sample_packet 6 0) (ipv4_new 10 200 5 6) with Ret q => q | Panic => [] end.
(** A packet addressed to 10.200.5.6. *)
Definition sample_resp : list Z :=
  Eval vm_compute in
    match rewrite_dst_ip (sample_packet 6 0) (ipv4_new 10 200 5 6) with Ret q => q | Panic => [] end.

Lemma tun_nat_roundtrip_witness :
  exists src back, rd_ipv4 (raw_ip_packet sample_inbound) 12 = Ret src
    /\ rewrite_src_ip (raw_ip_packet sample_inbound) (ipv4_new 10 200 5 6) = Ret sample_out
    /\ rewrite_dst_ip sample_resp src = Ret back
    /\ reader_step sample_tun sample_resp
       = Ret (Some (MkTunTx (in_session_id sample_inbound) (in_client_addr sample_inbound) back)).
Proof.
  apply (tun_nat_roundtrip (MkTun ∅ ∅) sample_tun sample_inbound sample_out sample_resp
           (ipv4_new 10 200 5 6)).
  - apply tun_ok_empty.
  - reflexivity.
  - vm_compute. reflexivity.
  - vm_compute. reflexivity.
  - vm_compute. lia.
  - vm_compute. reflexivity.
Defined.

(** The interface's own address is not excluded from the pool: a session id
    that starts with 00 01 is given 10.200.0.1, the address of the TUN
    device itself, so its responses are delivered to the host. *)
Lemma assign_can_return_interface_address (rest : list Z) :
  assign_session_ip (0 :: 1 :: rest) ∅ = Ret (Some TUN_INTERFACE_ADDR).
Proof. reflexivity. Qed.

(** A cleanup between the two halves of the writer leaves a reverse mapping
    whose session has no forward mapping: [remove_expired] looks only at
    forward mappings and will not remove it, and while it stays no other
    session can be given the address. *)
Lemma writer_race_leaves_orphan :
  exists t device ip,
    tun_run (sample_tun, None, [])
      [Assign sample_inbound; Expire (in_session_id sample_inbound) false; Commit] = Ret (t, None, device)
    /\ session_to_ip t = ∅ /\ is_Some (ip_to_session t !! ip)
    /\ (forall alive, ip_to_session (remove_expired t alive) !! ip = ip_to_session t !! ip)
    /\ forall sid, sid <> in_session_id sample_inbound -> collides (ip_to_session t) sid ip = true.
Proof.
  exists (MkTun (ip_to_session sample_tun) ∅), [sample_out], (ipv4_new 10 200 5 6).
  split; [vm_compute; reflexivity|]. split; [reflexivity|]. split; [by eexists|]. split.
  - intros alive. unfold remove_expired. cbn [session_to_ip]. by rewrite map_to_list_empty.
  - intros sid Hs. unfold collides, sample_tun. cbn [ip_to_session]. rewrite lookup_singleton_eq. cbn.
    by rewrite bool_decide_false.
Qed.
