(* ===== verification/RustStr.v ===== *)
(** * Text: the [str] operations the relay's configuration code uses

    A Rust [str] is modelled as the list of its characters (Unicode scalar
    values).  Only the standard-library operations the sources call are
    here: trimming, splitting, case folding, decimal numbers and dotted-quad
    addresses. *)

From Stdlib Require Import Ascii String.
From S2P Require Import Prelude Net.

Abbreviation str := (list Z) (only parsing).

(** A string literal of the source (ASCII). *)
Definition lit (s : string) : str :=
  List.map (fun a => Z.of_N (N_of_ascii a)) (list_ascii_of_string s).

Definition str_eqb (a b : str) : bool := bool_decide (a = b).

(** [char::is_whitespace]: the characters with the White_Space property. *)
Definition is_whitespace (c : Z) : bool :=
  ((9 <=? c) && (c <=? 13)) || (c =? 32) || (c =? 0x85) || (c =? 0xA0) || (c =? 0x1680)
  || ((0x2000 <=? c) && (c <=? 0x200A)) || (c =? 0x2028) || (c =? 0x2029)
  || (c =? 0x202F) || (c =? 0x205F) || (c =? 0x3000).

(** [trim_start], [trim_end] and [trim]. *)
Fixpoint trim_start (s : str) : str :=
  match s with
  | c :: rest => if is_whitespace c then trim_start rest else s
  | [] => []
  end.
Definition trim_end (s : str) : str := rev (trim_start (rev s)).
Definition trim (s : str) : str := trim_end (trim_start s).

(** [to_ascii_lowercase]. *)
Definition lower_char (c : Z) : Z := if (65 <=? c) && (c <=? 90) then c + 32 else c.
Definition to_ascii_lowercase (s : str) : str := List.map lower_char s.

(** [split] by a predicate on characters: always at least one piece. *)
Fixpoint split_by (p : Z -> bool) (s : str) : list str :=
  match s with
  | [] => [[]]
  | c :: rest =>
      if p c then [] :: split_by p rest
      else match split_by p rest with
           | w :: ws => (c :: w) :: ws
           | [] => [[c]]
           end
  end.
Definition split (sep : Z) (s : str) : list str := split_by (Z.eqb sep) s.
Definition split_whitespace (s : str) : list str :=
  List.filter (fun w => negb (Nat.eqb (length w) 0)) (split_by is_whitespace s).

(** [split_once(sep)]. *)
Fixpoint split_once (sep : Z) (s : str) : option (str * str) :=
  match s with
  | [] => None
  | c :: rest =>
      if c =? sep then Some ([], rest)
      else match split_once sep rest with
           | Some (a, b) => Some (c :: a, b)
           | None => None
           end
  end.

(** [strip_suffix] with one character, keeping the string when it is absent. *)
Definition strip_last (c : Z) (s : str) : str :=
  match rev s with
  | d :: r => if d =? c then rev r else s
  | [] => s
  end.

(** [lines()]: split after each newline; a line that ended in a newline also
    loses one carriage return before it, and a final empty piece is no line. *)
Definition lines (s : str) : list str :=
  let pieces := split 10 s in
  let terminated := List.map (strip_last 13) (removelast pieces) in
  match List.last pieces [] with
  | [] => terminated
  | l => terminated ++ [l]
  end.

Definition digit (c : Z) : option Z := if (48 <=? c) && (c <=? 57) then Some (c - 48) else None.

Fixpoint digits_value (acc : Z) (s : str) : option Z :=
  match s with
  | [] => Some acc
  | c :: rest =>
      match digit c with
      | Some d => digits_value (acc * 10 + d) rest
      | None => None
      end
  end.

(** [s.parse::<uW>()]: an optional [+], at least one digit, no overflow. *)
Definition parse_uint (w : Z) (s : str) : option Z :=
  let body := match s with
              | 43 :: ((_ :: _) as rest) => rest
              | _ => s
              end in
  match body with
  | [] => None
  | _ =>
      match digits_value 0 body with
      | Some v => if v <? 2 ^ w then Some v else None
      | None => None
      end
  end.

(** One group of [Ipv4Addr::from_str]: one to three digits, no leading zero. *)
Definition parse_octet (s : str) : option Z :=
  match s with
  | [] => None
  | c :: rest =>
      if (3 <? length s)%nat then None
      else if (c =? 48) && negb (Nat.eqb (length rest) 0) then None
      else match digits_value 0 s with
           | Some v => if v <=? 255 then Some v else None
           | None => None
           end
  end.

(** [s.parse::<Ipv4Addr>()]. *)
Definition parse_ipv4 (s : str) : option Ipv4Addr :=
  match List.map parse_octet (split 46 s) with
  | [Some a; Some b; Some c; Some d] => Some (ipv4_new a b c d)
  | _ => None
  end.

(** Decimal [Display] of a non-negative integer below [10 ^ 20]. *)
Fixpoint show_digits (fuel : nat) (n : Z) (acc : str) : str :=
  match fuel with
  | O => acc
  | S fuel' =>
      let acc := (48 + n mod 10) :: acc in
      if n / 10 =? 0 then acc else show_digits fuel' (n / 10) acc
  end.
Definition show_dec (n : Z) : str := show_digits 20 n [].

(** *** UTF-8 *)

Definition cont (b : Z) : bool := (0x80 <=? b) && (b <=? 0xBF).

(** [std::str::from_utf8]: well-formed sequences only (no overlong forms, no
    surrogates, nothing above U+10FFFF). *)
Fixpoint from_utf8 (l : list Z) : option str :=
  match l with
  | [] => Some []
  | a :: r =>
      if a <? 0x80 then option_map (cons a) (from_utf8 r)
      else match r with
      | [] => None
      | b :: r1 =>
          if (0xC2 <=? a) && (a <=? 0xDF) then
            if cont b then option_map (cons ((a - 0xC0) * 64 + (b - 0x80))) (from_utf8 r1)
            else None
          else match r1 with
          | [] => None
          | c :: r2 =>
              if (0xE0 <=? a) && (a <=? 0xEF) then
                if cont b && cont c && ((0xE0 <? a) || (0xA0 <=? b)) && (negb (a =? 0xED) || (b <=? 0x9F))
                then option_map (cons ((a - 0xE0) * 4096 + (b - 0x80) * 64 + (c - 0x80)))
                       (from_utf8 r2)
                else None
              else match r2 with
              | [] => None
              | d :: r3 =>
                  if (0xF0 <=? a) && (a <=? 0xF4) && cont b && cont c && cont d
                     && ((0xF0 <? a) || (0x90 <=? b)) && ((a <? 0xF4) || (b <=? 0x8F))
                  then option_map (cons ((a - 0xF0) * 262144 + (b - 0x80) * 4096
                                         + (c - 0x80) * 64 + (d - 0x80))) (from_utf8 r3)
                  else None
              end
          end
      end
  end.

(** [String::from_utf8_lossy]: every ill-formed sequence, up to the first byte
    that cannot belong to it, becomes one U+FFFD. *)
Fixpoint from_utf8_lossy (l : list Z) : str :=
  match l with
  | [] => []
  | a :: r =>
      if a <? 0x80 then a :: from_utf8_lossy r
      else if (0xC2 <=? a) && (a <=? 0xDF) then
        match r with
        | [] => [0xFFFD]
        | b :: r1 =>
            if cont b then ((a - 0xC0) * 64 + (b - 0x80)) :: from_utf8_lossy r1
            else 0xFFFD :: from_utf8_lossy r
        end
      else if (0xE0 <=? a) && (a <=? 0xEF) then
        match r with
        | [] => [0xFFFD]
        | b :: r1 =>
            if cont b && ((0xE0 <? a) || (0xA0 <=? b)) && (negb (a =? 0xED) || (b <=? 0x9F)) then
              match r1 with
              | [] => [0xFFFD]
              | c :: r2 =>
                  if cont c then ((a - 0xE0) * 4096 + (b - 0x80) * 64 + (c - 0x80)) :: from_utf8_lossy r2
                  else 0xFFFD :: from_utf8_lossy r1
              end
            else 0xFFFD :: from_utf8_lossy r
        end
      else if (0xF0 <=? a) && (a <=? 0xF4) then
        match r with
        | [] => [0xFFFD]
        | b :: r1 =>
            if cont b && ((0xF0 <? a) || (0x90 <=? b)) && ((a <? 0xF4) || (b <=? 0x8F)) then
              match r1 with
              | [] => [0xFFFD]
              | c :: r2 =>
                  if cont c then
                    match r2 with
                    | [] => [0xFFFD]
                    | d :: r3 =>
                        if cont d then
                          ((a - 0xF0) * 262144 + (b - 0x80) * 4096 + (c - 0x80) * 64 + (d - 0x80))
                          :: from_utf8_lossy r3
                        else 0xFFFD :: from_utf8_lossy r2
                    end
                  else 0xFFFD :: from_utf8_lossy r1
              end
            else 0xFFFD :: from_utf8_lossy r
        end
      else 0xFFFD :: from_utf8_lossy r
  end.

(** [char::encode_utf8] and [str::as_bytes]. *)
Definition char_bytes (c : Z) : list Z :=
  if c <? 0x80 then [c]
  else if c <? 0x800 then [0xC0 + c / 64; 0x80 + c mod 64]
  else if c <? 0x10000 then [0xE0 + c / 4096; 0x80 + (c / 64) mod 64; 0x80 + c mod 64]
  else [0xF0 + c / 262144; 0x80 + (c / 4096) mod 64; 0x80 + (c / 64) mod 64; 0x80 + c mod 64].
Definition as_bytes (s : str) : list Z := concat (List.map char_bytes s).
(** [s.len()]: the number of bytes. *)
Definition str_len (s : str) : nat := length (as_bytes s).

(** [ends_with] and [trim_end_matches]. *)
Definition ends_with (s suffix : str) : bool :=
  (length suffix <=? length s)%nat && str_eqb (drop (length s - length suffix) s) suffix.
Fixpoint strip_leading (c : Z) (s : str) : str :=
  match s with
  | d :: r => if d =? c then strip_leading c r else s
  | [] => []
  end.
Definition trim_end_matches (c : Z) (s : str) : str := rev (strip_leading c (rev s)).

(** [u8::is_ascii_alphanumeric] and [format!(":016x")] of a [u64]. *)
Definition is_ascii_alphanumeric (c : Z) : bool :=
  ((48 <=? c) && (c <=? 57)) || ((65 <=? c) && (c <=? 90)) || ((97 <=? c) && (c <=? 122)).
Definition hex_digit (d : Z) : Z := if d <? 10 then 48 + d else 87 + d.
Fixpoint hex_digits (n : nat) (x : Z) : str :=
  match n with
  | O => []
  | S n' => hex_digit ((x / 16 ^ Z.of_nat n') mod 16) :: hex_digits n' x
  end.
Definition show_hex16 (x : Z) : str := hex_digits 16 x.

(* ------------------------------------------------------------------ *)
(** ** Lemmas *)

Lemma digits_value_nonneg acc s v : 0 <= acc -> digits_value acc s = Some v -> 0 <= v.
Proof.
  revert acc. induction s as [|c s IH]; intros acc Ha; cbn; [intros [= <-]; assumption|].
  unfold digit. destruct ((48 <=? c) && (c <=? 57)) eqn:E; [|discriminate]. bool_hyps.
  apply IH. lia.
Qed.

Lemma parse_uint_nonneg w s v : parse_uint w s = Some v -> 0 <= v < 2 ^ w.
Proof.
  unfold parse_uint. set (body := match s with 43 :: _ => _ | _ => s end).
  destruct body as [|c l] eqn:Eb; [discriminate|].
  destruct (digits_value 0 (c :: l)) as [z|] eqn:E; [|discriminate].
  destruct (Z.ltb_spec z (2 ^ w)); [|discriminate]. intros [= <-].
  apply digits_value_nonneg in E; lia.
Qed.

Lemma digits_value_app acc a b :
  digits_value acc (a ++ b)
  = match digits_value acc a with Some v => digits_value v b | None => None end.
Proof.
  revert acc. induction a as [|c a IH]; intros acc; cbn; [reflexivity|].
  destruct (digit c); auto.
Qed.

Lemma show_digits_value fuel n acc :
  0 <= n < 10 ^ Z.of_nat fuel ->
  forall k, digits_value k (show_digits fuel n acc)
  = digits_value (k * 10 ^ Z.of_nat (length (show_digits fuel n [])) + n) acc
  /\ show_digits fuel n acc = show_digits fuel n [] ++ acc.
Proof.
  revert n acc. induction fuel as [|fuel IH]; intros n acc Hn k.
  - cbn in *. assert (n = 0) as -> by lia. split; [f_equal; lia|reflexivity].
  - cbn [show_digits]. pose proof (Z.mod_pos_bound n 10 ltac:(lia)) as Hm.
    pose proof (Z.div_mod n 10 ltac:(lia)) as Hd.
    assert (digit (48 + n mod 10) = Some (n mod 10)) as Edig.
    { unfold digit. rewrite !(proj2 (Z.leb_le _ _)) by lia. cbn. f_equal. lia. }
    destruct (Z.eqb_spec (n / 10) 0) as [E0|].
    + cbn [digits_value length app]. rewrite Edig. split; [|reflexivity].
      f_equal. change (Z.of_nat 1) with 1. lia.
    + assert (0 <= n / 10 < 10 ^ Z.of_nat fuel) as Hb.
      { rewrite Nat2Z.inj_succ, Z.pow_succ_r in Hn by lia.
        split; [apply Z.div_pos; lia | apply Z.div_lt_upper_bound; lia]. }
      destruct (IH (n / 10) ((48 + n mod 10) :: acc) Hb k) as [E1 E2].
      destruct (IH (n / 10) [48 + n mod 10] Hb k) as [_ E3].
      rewrite E1, E2, E3. cbn [digits_value]. rewrite Edig. split.
      * f_equal. rewrite length_app. cbn [length]. rewrite Nat2Z.inj_add.
        change (Z.of_nat 1) with 1. rewrite Z.pow_add_r by lia. lia.
      * by rewrite <- app_assoc.
Qed.

(** Printing a number and reading it back gives the number. *)
Lemma digits_value_show n : 0 <= n < 10 ^ 20 -> digits_value 0 (show_dec n) = Some n.
Proof.
  intros Hn. unfold show_dec.
  destruct (show_digits_value 20 n [] Hn 0) as [-> _]. reflexivity.
Qed.

(** Decoding inverts encoding for ASCII text. *)
Lemma from_utf8_ascii s :
  Forall (fun c => 0 <= c < 0x80) s -> from_utf8 s = Some s /\ as_bytes s = s.
Proof.
  unfold as_bytes.
  induction 1 as [|c s Hc _ [IH1 IH2]]; [split; reflexivity|]. cbn [from_utf8 List.map concat].
  assert (char_bytes c = [c]) as ->
    by (unfold char_bytes; by rewrite (proj2 (Z.ltb_lt c 0x80)) by lia).
  rewrite (proj2 (Z.ltb_lt c 0x80)) by lia. rewrite IH1, IH2. split; reflexivity.
Qed.

Lemma hex_digit_inj a b : 0 <= a < 16 -> 0 <= b < 16 -> hex_digit a = hex_digit b -> a = b.
Proof. unfold hex_digit. intros. destruct (Z.ltb_spec a 10), (Z.ltb_spec b 10); lia. Qed.

(** Equal hexadecimal texts come from equal numbers (modulo the width). *)
Lemma hex_digits_inj n x y :
  hex_digits n x = hex_digits n y -> x mod 16 ^ Z.of_nat n = y mod 16 ^ Z.of_nat n.
Proof.
  revert x y. induction n as [|n IH]; intros x y E; [by rewrite !Z.mod_1_r|].
  cbn [hex_digits] in E. injection E as E1 E2. apply IH in E2.
  apply hex_digit_inj in E1; try (apply Z.mod_pos_bound; lia).
  rewrite Nat2Z.inj_succ, Z.pow_succ_r by lia. assert (0 < 16 ^ Z.of_nat n) by lia.
  rewrite (Z.mul_comm 16), !Z.rem_mul_r by lia. lia.
Qed.

Lemma show_hex16_inj x y : is_u64 x -> is_u64 y -> show_hex16 x = show_hex16 y -> x = y.
Proof.
  intros Hx Hy E. apply hex_digits_inj in E. change (16 ^ Z.of_nat 16) with (2 ^ 64) in E.
  unfold in_width in *. rewrite !Z.mod_small in E by lia. exact E.
Qed.

(** Lossy decoding emits one character at a time; an ASCII character stands
    for its own byte. *)
Definition emits (l : list Z) (out : str) : Prop :=
  exists pre rest c, l = pre ++ rest /\ pre <> [] /\ out = c :: from_utf8_lossy rest
    /\ (c < 0x80 -> pre = [c]).

Lemma emits_bad a pre rest : emits (a :: pre ++ rest) (0xFFFD :: from_utf8_lossy rest).
Proof. exists (a :: pre), rest, 0xFFFD. repeat split; [discriminate | lia]. Qed.
Lemma emits_wide a pre rest c : 0x80 <= c -> emits (a :: pre ++ rest) (c :: from_utf8_lossy rest).
Proof. intros Hc. exists (a :: pre), rest, c. repeat split; [discriminate | lia]. Qed.

Lemma cont_range b : cont b = true -> 0x80 <= b <= 0xBF.
Proof. unfold cont. intros E. bool_hyps. lia. Qed.

Lemma lossy_step a l : emits (a :: l) (from_utf8_lossy (a :: l)).
Proof.
  cbn [from_utf8_lossy]. destruct (Z.ltb_spec a 0x80); [by exists [a], l, a|].
  destruct (_ && _) eqn:E2 at 1.
  { bool_hyps. destruct l as [|b r]; [exact (emits_bad a [] [])|].
    destruct (cont b) eqn:Eb; [apply cont_range in Eb | exact (emits_bad a [] (b :: r))].
    apply (emits_wide a [b] r). lia. }
  destruct (_ && _) eqn:E3 at 1.
  { bool_hyps. destruct l as [|b r]; [exact (emits_bad a [] [])|].
    destruct (_ && _ && _) eqn:Eb; [|exact (emits_bad a [] (b :: r))].
    apply andb_true_iff in Eb as [Eb _]. apply andb_true_iff in Eb as [Eb%cont_range Eo%orb_true_iff].
    destruct r as [|c r]; [exact (emits_bad a [b] [])|].
    destruct (cont c) eqn:Ec; [apply cont_range in Ec | exact (emits_bad a [b] (c :: r))].
    apply (emits_wide a [b; c] r). destruct Eo as [Eo%Z.ltb_lt|Eo%Z.leb_le]; lia. }
  destruct (_ && _) eqn:E4 at 1; [|exact (emits_bad a [] l)].
  bool_hyps. destruct l as [|b r]; [exact (emits_bad a [] [])|].
  destruct (_ && _ && _) eqn:Eb; [|exact (emits_bad a [] (b :: r))].
  apply andb_true_iff in Eb as [Eb _]. apply andb_true_iff in Eb as [Eb%cont_range Eo%orb_true_iff].
  destruct r as [|c r]; [exact (emits_bad a [b] [])|].
  destruct (cont c) eqn:Ec; [apply cont_range in Ec | exact (emits_bad a [b] (c :: r))].
  destruct r as [|d r]; [exact (emits_bad a [b; c] [])|].
  destruct (cont d) eqn:Ed; [apply cont_range in Ed | exact (emits_bad a [b; c] (d :: r))].
  apply (emits_wide a [b; c; d] r). destruct Eo as [Eo%Z.ltb_lt|Eo%Z.leb_le]; lia.
Qed.

(** What follows some decoded text is decoded from what follows its bytes. *)
Lemma lossy_suffix x y l :
  from_utf8_lossy l = x ++ y -> exists l1 l2, l = l1 ++ l2 /\ from_utf8_lossy l2 = y.
Proof.
  revert l. induction x as [|c x IH]; intros l E; [by exists [], l|].
  destruct l as [|a l]; [discriminate|]. destruct (lossy_step a l) as (pre & rest & c' & El & _ & Ed & _).
  rewrite Ed in E. injection E as -> E. destruct (IH rest E) as (l1 & l2 & -> & Ey).
  exists (pre ++ l1), l2. by rewrite El, app_assoc.
Qed.

(** ASCII text at the front is there byte for byte. *)
Lemma lossy_prefix_ascii x y l :
  Forall (fun c => c < 0x80) x -> from_utf8_lossy l = x ++ y -> exists l2, l = x ++ l2.
Proof.
  intros Hx. revert l. induction Hx as [|c x Hc Hx IH]; intros l E; [by exists l|].
  destruct l as [|a l]; [discriminate|]. destruct (lossy_step a l) as (pre & rest & c' & El & _ & Ed & Hp).
  rewrite Ed in E. injection E as -> E. destruct (IH rest E) as (l2 & ->).
  exists l2. by rewrite El, (Hp Hc).
Qed.

Lemma lossy_infix_ascii x y z l :
  Forall (fun c => c < 0x80) y -> from_utf8_lossy l = x ++ y ++ z -> exists l1 l2, l = l1 ++ y ++ l2.
Proof.
  intros Hy E. destruct (lossy_suffix _ _ _ E) as (l1 & l2 & -> & E2).
  destruct (lossy_prefix_ascii _ _ _ Hy E2) as (l3 & ->). eauto.
Qed.
