(* ===== verification/Tuning.v ===== *)
(** * Tuning (src/datapath_v2.rs: [RelayV2Tuning] and its readers;
    src/main.rs: the v1 flow channel capacity)

    Sizes come from the environment and are clamped, so that the datapath
    never starts without a shard or without a buffer.  The environment is a
    function from names to values; the number of cores is a parameter. *)

From Stdlib Require Import String.
From S2P Require Import Prelude Net RustStr.

Inductive RelayDatapath : Type := DatapathV1 | DatapathV2.

(** [parse_relay_datapath]: unset or unrecognised means v2. *)
Definition parse_relay_datapath (raw : option str) : RelayDatapath :=
  match option_map (fun v => to_ascii_lowercase (trim v)) raw with
  | Some v =>
      if str_eqb v (lit "v1") || str_eqb v (lit "tokio") then DatapathV1
      else if str_eqb v (lit "v2") || str_eqb v (lit "sharded") then DatapathV2
      else DatapathV2
  | None => DatapathV2
  end.

(** [usize::clamp] with [min <= max]. *)
Definition clamp_usize (value lo hi : Z) : Z :=
  if value <? lo then lo else if hi <? value then hi else value.

Section Env.
Context (env : str -> option str) (physical_cores : Z).

Definition parse_usize_env (name : str) : option Z :=
  env name ≫= fun raw => parse_uint 64 (trim raw).

Definition get_shard_count : Z :=
  clamp_usize (default (Z.max physical_cores 1) (parse_usize_env (lit "RELAY_SHARDS"))) 1 256.
Definition get_pool_slots : Z :=
  clamp_usize (default 8192 (parse_usize_env (lit "RELAY_V2_POOL_SLOTS"))) 512 262144.
Definition get_shard_queue_cap : Z :=
  clamp_usize (default 4096 (parse_usize_env (lit "RELAY_V2_SHARD_QUEUE"))) 256 262144.
Definition get_tx_queue_cap : Z :=
  clamp_usize (default 8192 (parse_usize_env (lit "RELAY_V2_TX_QUEUE"))) 256 262144.
Definition get_socket_rcvbuf_bytes : Z :=
  clamp_usize (default (4 * 1024 * 1024) (parse_usize_env (lit "RELAY_SOCKET_RCVBUF_BYTES")))
    (256 * 1024) (64 * 1024 * 1024).
Definition get_socket_sndbuf_bytes : Z :=
  clamp_usize (default (4 * 1024 * 1024) (parse_usize_env (lit "RELAY_SOCKET_SNDBUF_BYTES")))
    (256 * 1024) (64 * 1024 * 1024).
Definition get_flow_socket_rcvbuf_bytes : Z :=
  clamp_usize (default (2 * 1024 * 1024) (parse_usize_env (lit "RELAY_FLOW_RCVBUF_BYTES")))
    (256 * 1024) (64 * 1024 * 1024).
Definition get_flow_socket_sndbuf_bytes : Z :=
  clamp_usize (default (2 * 1024 * 1024) (parse_usize_env (lit "RELAY_FLOW_SNDBUF_BYTES")))
    (256 * 1024) (64 * 1024 * 1024).

Record RelayV2Tuning : Type := MkTuning {
  shard_count : Z;
  pool_slots : Z;
  shard_queue_cap : Z;
  tx_queue_cap : Z;
  socket_rcvbuf_bytes : Z;
  socket_sndbuf_bytes : Z;
  flow_rcvbuf_bytes : Z;
  flow_sndbuf_bytes : Z;
}.

Definition relay_v2_tuning : RelayV2Tuning :=
  MkTuning get_shard_count get_pool_slots get_shard_queue_cap get_tx_queue_cap
    get_socket_rcvbuf_bytes get_socket_sndbuf_bytes
    get_flow_socket_rcvbuf_bytes get_flow_socket_sndbuf_bytes.

End Env.

(** [parse_flow_channel_capacity]. *)
Definition parse_flow_channel_capacity (raw : option str) : Z :=
  clamp_usize (default 256 (raw ≫= fun value => parse_uint 64 (trim value))) 8 4096.

(* ------------------------------------------------------------------ *)
(** ** Lemmas *)

Lemma clamp_bounds v lo hi : lo <= hi -> lo <= clamp_usize v lo hi <= hi.
Proof. intros H. unfold clamp_usize. destruct (Z.ltb_spec v lo), (Z.ltb_spec hi v); lia. Qed.

Lemma shard_count_bounds env cores : 1 <= shard_count (relay_v2_tuning env cores) <= 256.
Proof. by apply clamp_bounds. Qed.

Lemma pool_slots_bounds env cores : 512 <= pool_slots (relay_v2_tuning env cores) <= 262144.
Proof. by apply clamp_bounds. Qed.

Lemma flow_channel_capacity_bounds raw : 8 <= parse_flow_channel_capacity raw <= 4096.
Proof. by apply clamp_bounds. Qed.
