(* ===== verification/DestPolicy.v ===== *)
(** * Destination policy (src/dest_policy.rs)

    Prefixes ([Net]), sorted disjoint prefix sets ([NetSet]), the allowlist
    file, the policy object with its counters and its sampled tally, and the
    decision [DestPolicy::permits].  The policy object is the relay's
    instance of [DestGate], the interface the packet parser is written
    against. *)

From Stdlib Require Import String.
From S2P Require Import Prelude Checksum Net Packet RustStr.

Inductive Mode : Type := Off | Observe | Enforce.

#[export] Instance Mode_eq_dec : EqDecision Mode.
Proof. solve_decision. Defined.

Module Modes.
Definition parse (raw : option str) : Mode :=
  match option_map (fun value => to_ascii_lowercase (trim value)) raw with
  | Some value =>
      if str_eqb value (lit "off") then Off
      else if str_eqb value (lit "enforce") then Enforce
      else Observe
  | None => Observe
  end.
End Modes.

Definition MIN_PREFIX_LEN : Z := 8.
Definition SAMPLE_EVERY : Z := 16.
Definition SAMPLE_CAP : nat := 256.
Definition SNAPSHOT_TOP : nat := 32.
Definition u32_MAX : Z := 2 ^ 32 - 1.

(* ------------------------------------------------------------------ *)
(** ** Prefixes *)

Record Net : Type := MkNet { base : Z; mask : Z }.

#[export] Instance Net_eq_dec : EqDecision Net.
Proof. solve_decision. Defined.

Module Nets.
Definition parse (cidr : str) : option Net :=
  match split_once 47 (trim cidr) with
  | None => None
  | Some (addr, len) =>
      match parse_ipv4 addr with
      | None => None
      | Some addr =>
          match parse_uint 32 len with
          | None => None
          | Some len =>
              if negb ((MIN_PREFIX_LEN <=? len) && (len <=? 32)) then None
              else
                let mask := u32 (Z.shiftl u32_MAX (32 - len)) in
                Some (MkNet (Z.land addr mask) mask)
          end
      end
  end.

Definition contains (n : Net) (ip : Z) : bool := Z.land ip (mask n) =? base n.

Definition covers (n other : Net) : bool := (mask n <=? mask other) && contains n (base other).
End Nets.

(** The order of [sort_unstable_by_key(|net| (net.base, net.mask))].  The key
    is the whole prefix, so every sort gives the same list. *)
Definition key_le (a b : Net) : Prop :=
  base a < base b \/ (base a = base b /\ mask a <= mask b).

#[export] Instance key_le_dec : RelDecision key_le.
Proof. intros a b. unfold key_le. solve_decision. Defined.

(** [slice::partition_point]: the branch-free binary search of the standard
    library. *)
Fixpoint partition_loop {A} (fuel : nat) (l : list A) (pred : A -> bool) (low size : nat)
  : outcome nat :=
  match fuel with
  | O => Ret low
  | S fuel' =>
      if (1 <? size)%nat then
        let half := (size / 2)%nat in
        let mid := (low + half)%nat in
        let* x := rd l mid in
        partition_loop fuel' l pred (if pred x then mid else low) (size - half)
      else Ret low
  end.

Definition partition_point {A} (l : list A) (pred : A -> bool) : outcome nat :=
  match l with
  | [] => Ret 0%nat
  | _ =>
      let* low := partition_loop (length l) l pred 0 (length l) in
      let* x := rd l low in
      Ret (if pred x then low + 1 else low)%nat
  end.

Abbreviation NetSet := (list Net) (only parsing).

Module NetSets.
(** One step of the loop of [NetSet::new]; [kept] is kept in reverse, so its
    head is [kept.last()]. *)
Definition keep (kept : list Net) (net : Net) : list Net :=
  match kept with
  | last :: _ => if Nets.covers last net then kept else net :: kept
  | [] => [net]
  end.

Definition new (nets : list Net) : NetSet :=
  reverse (fold_left keep (merge_sort key_le nets) []).

Definition contains (s : NetSet) (ip : Ipv4Addr) : outcome bool :=
  let* after := partition_point s (fun net => base net <=? ip) in
  if (0 <? after)%nat then
    let* net := rd s (after - 1) in
    Ret (Nets.contains net ip)
  else Ret false.
End NetSets.

(* ------------------------------------------------------------------ *)
(** ** The allowlist file *)

Record Allowlist : Type := MkAllowlist { al_udp : list Net; al_tcp : list Net; invalid_lines : nat }.

Definition parse_entry (line : str) : option (bool * bool * Net) :=
  match split_whitespace line with
  | [cidr] => option_map (fun net => (true, true, net)) (Nets.parse cidr)
  | [w; cidr] =>
      if str_eqb w (lit "udp") then option_map (fun net => (true, false, net)) (Nets.parse cidr)
      else if str_eqb w (lit "tcp")
      then option_map (fun net => (false, true, net)) (Nets.parse cidr)
      else None
  | _ => None
  end.

Definition parse_line (list : Allowlist) (line : str) : Allowlist :=
  let line := trim (hd [] (split 35 line)) in
  if Nat.eqb (length line) 0 then list
  else
    match parse_entry line with
    | Some (udp, tcp, net) =>
        MkAllowlist (al_udp list ++ if udp then [net] else [])
                    (al_tcp list ++ if tcp then [net] else [])
                    (invalid_lines list)
    | None => MkAllowlist (al_udp list) (al_tcp list) (S (invalid_lines list))
    end.

Definition parse_allowlist (text : str) : Allowlist :=
  fold_left parse_line (lines text) (MkAllowlist [] [] 0).

Definition DEFAULT_TCP_PORTS : list Z := [80; 443].

Definition parse_ports (raw : option str) : list Z :=
  let ports :=
    List.filter (fun port => negb (port =? 0))
      (omap (fun port => parse_uint 16 (trim port)) (split 44 (default [] raw))) in
  match ports with
  | [] => DEFAULT_TCP_PORTS
  | _ => ports
  end.

Definition BUILT_IN_ROBLOX : list string :=
  ["128.116.0.0/17"; "103.140.28.0/23"; "141.193.3.0/24"; "205.201.62.0/24";
   "204.13.168.0/24"; "204.13.169.0/24"; "204.13.170.0/24"; "204.13.171.0/24";
   "204.13.172.0/24"; "204.13.173.0/24"; "204.13.174.0/24"; "204.9.184.0/24";
   "23.173.192.0/24"]%string.

(* ------------------------------------------------------------------ *)
(** ** The policy object *)

Record Counters : Type := MkCounters {
  udp_unlisted : Z;
  tcp_unlisted_network : Z;
  tcp_unlisted_port : Z;
  dropped : Z;
}.
#[global] Instance eta_Counters : Eta Counters := fun c =>
  MkCounters (udp_unlisted c) (tcp_unlisted_network c) (tcp_unlisted_port c) (dropped c).

Record Tally : Type := MkTally {
  networks : gmap (Z * Z) Z;
  tcp_port_samples : gmap Z Z;
  overflow : Z;
}.

Inductive Unlisted : Type := Network | Port.

Record DestPolicy : Type := MkPolicy {
  mode : Mode;
  enforce_refused : option str;
  notes : list str;
  source : str;
  udp : NetSet;
  tcp : NetSet;
  tcp_ports : list Z;
  sample_every : Z;
  counters : Counters;
  tick : Z;
  tally_state : Tally;
}.
#[global] Instance eta_DestPolicy : Eta DestPolicy := fun p =>
  MkPolicy (mode p) (enforce_refused p) (notes p) (source p) (udp p) (tcp p) (tcp_ports p)
    (sample_every p) (counters p) (tick p) (tally_state p).

(** [fetch_add(1, Relaxed)] on an [AtomicU64]. *)
Definition incr (x : Z) : Z := u64 (x + 1).

Definition bump {K} `{Countable K} (map : gmap K Z) (key : K) (overflow : Z) : gmap K Z * Z :=
  match map !! key with
  | Some count => (<[key := incr count]> map, overflow)
  | None =>
      if (size map <? SAMPLE_CAP)%nat then (<[key := 1]> map, overflow)
      else (map, incr overflow)
  end.

Definition tally (self : DestPolicy) (protocol : Z) (dst : Ipv4Addr) (dst_port : option Z)
  (unlisted : Unlisted) : DestPolicy :=
  let t := tick self in
  let self := self <| tick := incr t |> in
  if negb (t mod sample_every self =? 0) then self
  else
    let ty := tally_state self in
    match unlisted with
    | Network =>
        let network := Z.land dst 0xFFFFFF00 in
        let '(m, o) := bump (networks ty) (protocol, network) (overflow ty) in
        self <| tally_state := MkTally m (tcp_port_samples ty) o |>
    | Port =>
        match dst_port with
        | Some port =>
            let '(m, o) := bump (tcp_port_samples ty) port (overflow ty) in
            self <| tally_state := MkTally (networks ty) m o |>
        | None => self
        end
    end.

(** What [permits] finds out about a destination: [None] for a listed one. *)
Definition classify (self : DestPolicy) (protocol : Z) (dst : Ipv4Addr) (dst_port : option Z)
  : outcome (option Unlisted) :=
  if protocol =? 6 then
    let* listed := NetSets.contains (tcp self) dst in
    if negb listed then Ret (Some Network)
    else if match dst_port with
            | Some port => negb (existsb (Z.eqb port) (tcp_ports self))
            | None => false
            end
    then Ret (Some Port)
    else Ret None
  else
    let* listed := NetSets.contains (udp self) dst in
    Ret (if listed then None else Some Network).

Definition count_unlisted (c : Counters) (protocol : Z) (u : Unlisted) : Counters :=
  if protocol =? 6 then
    match u with
    | Network => c <| tcp_unlisted_network ::= incr |>
    | Port => c <| tcp_unlisted_port ::= incr |>
    end
  else c <| udp_unlisted ::= incr |>.

Definition policy_permits (self : DestPolicy) (protocol : Z) (dst : Ipv4Addr)
  (dst_port : option Z) : outcome (DestPolicy * bool) :=
  if bool_decide (mode self = Off) then Ret (self, true) else
  let* unlisted := classify self protocol dst dst_port in
  match unlisted with
  | None => Ret (self, true)
  | Some u =>
      let self := self <| counters ::= fun c => count_unlisted c protocol u |> in
      let self := tally self protocol dst dst_port u in
      if bool_decide (mode self = Enforce)
      then Ret (self <| counters ::= fun c => c <| dropped ::= incr |> |>, false)
      else Ret (self, true)
  end.

(** The texts of [build]. *)
Definition note_unreadable (path error : str) : str :=
  lit "cannot read " ++ path ++ lit ": " ++ error ++ lit "; using the built-in list".
Definition note_invalid (path : str) (n : nat) : str :=
  path ++ lit ": skipped " ++ show_dec (Z.of_nat n) ++ lit " unreadable lines".
Definition note_incomplete (path : str) : str :=
  path ++ lit " needs prefixes for both UDP and TCP; using the built-in list".
Definition refused_text : str :=
  lit "enforce needs a readable RELAY_DEST_ALLOWLIST_FILE covering UDP and TCP. The built-in list has no CloudFront ranges, so enforcing it would cut Route Assist".

(** The first half of [build]: the notes, and the list if it is usable.
    The contents are the text of the file or the text of the I/O error. *)
Definition load_allowlist (file : option (str * (str + str)))
  : list str * option (str * Allowlist) :=
  match file with
  | None => ([], None)
  | Some (path, inr error) => ([note_unreadable path error], None)
  | Some (path, inl text) =>
      let list := parse_allowlist text in
      let notes :=
        if (0 <? invalid_lines list)%nat then [note_invalid path (invalid_lines list)] else [] in
      if (length (al_udp list) =? 0)%nat || (length (al_tcp list) =? 0)%nat
      then (notes ++ [note_incomplete path], None)
      else (notes, Some (path, list))
  end.

(** [DestPolicy::build]. *)
Definition build (requested : Mode) (file : option (str * (str + str))) (ports : list Z)
  : DestPolicy :=
  let '(notes, loaded) := load_allowlist file in
  let refused := bool_decide (requested = Enforce) && negb (bool_decide (is_Some loaded)) in
  let mode := if refused then Observe else requested in
  let enforce_refused := if refused then Some refused_text else None in
  let roblox := omap (fun cidr => Nets.parse (lit cidr)) BUILT_IN_ROBLOX in
  let '(source, udp, tcp) :=
    match loaded with
    | Some (path, list) => (path, al_udp list, al_tcp list)
    | None => (lit "built-in", roblox, roblox)
    end in
  MkPolicy mode enforce_refused notes source (NetSets.new udp) (NetSets.new tcp) ports
    SAMPLE_EVERY (MkCounters 0 0 0 0) 0 (MkTally ∅ ∅ 0).

(** The lists of [snapshot]: sampled entries, busiest first, the first
    [SNAPSHOT_TOP].  The order is on (samples, protocol, network)
    descending. *)
Definition busier (a b : Z * Z * Z) : Prop :=
  let '(s1, p1, n1) := a in let '(s2, p2, n2) := b in
  s2 < s1 \/ (s1 = s2 /\ (p2 < p1 \/ (p1 = p2 /\ n2 <= n1))).

#[export] Instance busier_dec : RelDecision busier.
Proof. intros [[s1 p1] n1] [[s2 p2] n2]. unfold busier. solve_decision. Defined.

Definition snapshot_networks (t : Tally) : list (Z * Z * Z) :=
  take SNAPSHOT_TOP
    (merge_sort busier
       (List.map (fun e => (e.2, e.1.1, e.1.2)) (map_to_list (networks t)))).

(* ------------------------------------------------------------------ *)
(** ** The binary search *)

Lemma partition_loop_returns {A} fuel (l : list A) pred low sz :
  (1 <= sz <= fuel)%nat -> (low + sz <= length l)%nat ->
  returns (partition_loop fuel l pred low sz) (fun r => r < length l)%nat.
Proof.
  revert low sz. induction fuel as [|fuel IH]; intros low sz Hs Hl; [lia|].
  cbn [partition_loop]. destruct (Nat.ltb_spec 1 sz) as [H1|H1]; [|cbn; lia].
  assert (0 < sz / 2 < sz)%nat as Hh
    by (split; [apply Nat.div_str_pos; lia | apply Nat.div_lt; lia]).
  ostep. ostep. destruct (pred b); apply IH; lia.
Qed.

(** [partition_point] never indexes out of range, partitioned or not. *)
Lemma partition_point_returns {A} (l : list A) pred :
  returns (partition_point l pred) (fun r => r <= length l)%nat.
Proof.
  destruct l as [|x l]; [cbn; lia|]. unfold partition_point. ostep.
  eapply returns_mono; [apply partition_loop_returns; cbn [length]; lia|].
  cbn beta. intros r Hr. ostep. ostep. destruct (pred b); cbn in *; lia.
Qed.

(** [r] is where [pred] turns from true to false. *)
Definition partition_at {A} (l : list A) (pred : A -> bool) (r : nat) : Prop :=
  forall i x, l !! i = Some x -> pred x = bool_decide (i < r)%nat.

Lemma partition_loop_at {A} fuel (l : list A) pred r low sz :
  partition_at l pred r -> (1 <= sz <= fuel)%nat -> (low + sz <= length l)%nat ->
  (r <= length l)%nat ->
  (low <= r <= low + sz)%nat -> (low = 0 \/ low < r)%nat ->
  exists k, partition_loop fuel l pred low sz = Ret k /\ (k < length l)%nat
    /\ (k <= r <= k + 1)%nat /\ (k = 0 \/ k < r)%nat.
Proof.
  intros Hp. revert low sz. induction fuel as [|fuel IH]; intros low sz Hs Hl Hrl Hr H0; [lia|].
  cbn [partition_loop]. destruct (Nat.ltb_spec 1 sz) as [H1|H1].
  - assert (0 < sz / 2 < sz)%nat as Hh
      by (split; [apply Nat.div_str_pos; lia | apply Nat.div_lt; lia]).
    destruct (lookup_lt_is_Some_2 l (low + sz / 2) ltac:(lia)) as [x Hx].
    rewrite (rd_lookup _ _ _ Hx). cbn [obind]. rewrite (Hp _ _ Hx).
    pose proof (Nat.Div0.mul_div_le sz 2). case_bool_decide; apply IH; lia.
  - exists low. split; [reflexivity|]. lia.
Qed.

Lemma partition_point_at {A} (l : list A) pred r :
  partition_at l pred r -> (r <= length l)%nat -> partition_point l pred = Ret r.
Proof.
  intros Hp Hr. destruct l as [|x0 l]; [cbn in *; f_equal; lia|].
  unfold partition_point.
  destruct (partition_loop_at (length (x0 :: l)) (x0 :: l) pred r 0 (length (x0 :: l)) Hp)
    as (k & -> & Hk & Hkr & Hk0); cbn [length] in *; try lia.
  cbn [obind]. destruct (lookup_lt_is_Some_2 (x0 :: l) k ltac:(cbn; lia)) as [x Hx].
  rewrite (rd_lookup _ _ _ Hx). cbn [obind]. rewrite (Hp _ _ Hx). f_equal.
  case_bool_decide; lia.
Qed.

Lemma netset_contains_returns s ip : exists b, NetSets.contains s ip = Ret b.
Proof.
  destruct (returns_inv (NetSets.contains s ip) (fun _ => True)) as (b & E & _); [|eauto].
  unfold NetSets.contains. ostep. eapply returns_mono; [apply partition_point_returns|].
  cbn beta. intros r Hr. ostep; [|exact I]. ostep. ostep. exact I.
Qed.

(* ------------------------------------------------------------------ *)
(** ** Prefixes are intervals *)

(** A prefix of [32 - k] bits: [mask] has the low [k] bits clear, [base] is a
    multiple of [2 ^ k]. *)
Definition net_bits (n : Net) (k : Z) : Prop :=
  0 <= k <= 24 /\ mask n = 2 ^ 32 - 2 ^ k /\ 0 <= base n < 2 ^ 32
  /\ exists q, base n = q * 2 ^ k.
Definition wf_net (n : Net) : Prop := exists k, net_bits n k.

Lemma pow_split k : 0 <= k <= 32 -> 2 ^ 32 = 2 ^ (32 - k) * 2 ^ k /\ 0 < 2 ^ k /\ 0 < 2 ^ (32 - k).
Proof.
  intros Hk. rewrite <- Z.pow_add_r by lia. replace (32 - k + k) with 32 by lia.
  split; [reflexivity|]. split; apply Z.pow_pos_nonneg; lia.
Qed.

Lemma land_mask ip k :
  0 <= ip < 2 ^ 32 -> 0 <= k <= 32 -> Z.land ip (2 ^ 32 - 2 ^ k) = ip / 2 ^ k * 2 ^ k.
Proof.
  intros Hip Hk. destruct (pow_split k Hk) as (E & Hp & Hq).
  assert (2 ^ 32 - 2 ^ k = Z.ldiff (Z.ones 32) (Z.ones k)) as ->.
  { rewrite Z.ldiff_ones_r, Z.shiftl_mul_pow2, Z.shiftr_div_pow2 by lia.
    assert (Z.ones 32 / 2 ^ k = 2 ^ (32 - k) - 1) as ->; [|lia].
    rewrite Z.ones_equiv. unfold Z.pred. symmetry.
    apply (Z.div_unique _ _ _ (2 ^ k - 1)); lia. }
  rewrite Z.ldiff_land, Z.land_assoc, (Z.land_ones ip) by lia.
  rewrite Z.mod_small by lia.
  rewrite <- Z.ldiff_land, Z.ldiff_ones_r, Z.shiftl_mul_pow2, Z.shiftr_div_pow2 by lia.
  reflexivity.
Qed.

Lemma contains_interval n k ip :
  net_bits n k -> is_u32 ip ->
  Nets.contains n ip = bool_decide (base n <= ip < base n + 2 ^ k).
Proof.
  intros (Hk & Hm & Hb & q & Hq) Hip. unfold Nets.contains.
  destruct (pow_split k ltac:(lia)) as (_ & Hp & _).
  rewrite Hm, land_mask by (unfold in_width in *; lia).
  pose proof (Z.div_mod ip (2 ^ k) ltac:(lia)). pose proof (Z.mod_pos_bound ip (2 ^ k) Hp).
  apply eq_bool_prop_intro. rewrite Hq in *. rewrite bool_decide_spec.
  split; intros Hx.
  - apply Is_true_true, Z.eqb_eq in Hx. lia.
  - apply Is_true_true, Z.eqb_eq.
    destruct (euclid_unique (2 ^ k) (ip mod 2 ^ k) (ip - q * 2 ^ k) (ip / 2 ^ k) q); nia.
Qed.

Lemma size_pos n k : net_bits n k -> 0 < 2 ^ k.
Proof. intros (Hk & _). apply Z.pow_pos_nonneg; lia. Qed.

(** [n] and every address of [m] in terms of [covers]. *)
Lemma covers_spec n m k j :
  net_bits n k -> net_bits m j ->
  Nets.covers n m = bool_decide (j <= k /\ base n <= base m < base n + 2 ^ k).
Proof.
  intros Hn Hm. unfold Nets.covers. rewrite (contains_interval n k) by (try assumption; apply Hm).
  destruct Hn as (Hk & -> & _), Hm as (Hj & -> & _).
  assert ((2 ^ 32 - 2 ^ k <=? 2 ^ 32 - 2 ^ j) = bool_decide (j <= k)) as ->.
  { case_bool_decide as H.
    - apply Z.leb_le. pose proof (Z.pow_le_mono_r 2 j k ltac:(lia) H). lia.
    - apply Z.leb_gt. pose proof (Z.pow_lt_mono_r 2 k j ltac:(lia) ltac:(lia) ltac:(lia)). lia. }
  rewrite <- bool_decide_and. reflexivity.
Qed.

(** Aligned blocks nest or are disjoint: the larger one absorbs the smaller
    from any common point. *)
Lemma aligned_nested a b k j :
  0 <= j <= k -> (exists q, a = q * 2 ^ k) -> (exists q, b = q * 2 ^ j) ->
  a <= b < a + 2 ^ k -> b + 2 ^ j <= a + 2 ^ k.
Proof.
  intros Hj [q ->] [r ->] Hb.
  assert (2 ^ k = 2 ^ (k - j) * 2 ^ j) as E by (rewrite <- Z.pow_add_r by lia; f_equal; lia).
  assert (0 < 2 ^ j) by (apply Z.pow_pos_nonneg; lia).
  assert (r < (q + 1) * 2 ^ (k - j)) by (apply (Z.mul_lt_mono_pos_r (2 ^ j)); lia).
  assert ((r + 1) * 2 ^ j <= (q + 1) * 2 ^ (k - j) * 2 ^ j) by (apply Z.mul_le_mono_nonneg_r; lia).
  lia.
Qed.

(** Two aligned blocks where the smaller starts first are disjoint. *)
Lemma aligned_disjoint a b k j :
  0 <= k < j -> (exists q, a = q * 2 ^ k) -> (exists q, b = q * 2 ^ j) ->
  a < b -> a + 2 ^ k <= b.
Proof.
  intros Hk [r ->] [q ->] Hlt.
  assert (2 ^ j = 2 ^ (j - k) * 2 ^ k) as E by (rewrite <- Z.pow_add_r by lia; f_equal; lia).
  assert (0 < 2 ^ k) by (apply Z.pow_pos_nonneg; lia).
  assert (r < q * 2 ^ (j - k)) by (apply (Z.mul_lt_mono_pos_r (2 ^ k)); lia).
  assert ((r + 1) * 2 ^ k <= q * 2 ^ (j - k) * 2 ^ k) by (apply Z.mul_le_mono_nonneg_r; lia).
  lia.
Qed.

(** Kept prefixes, last first: each ends before the next one begins. *)
Inductive disjoint_desc : list Net -> Prop :=
| dd_nil : disjoint_desc []
| dd_one n : wf_net n -> disjoint_desc [n]
| dd_cons n m l k : wf_net n -> net_bits m k -> base m + 2 ^ k <= base n ->
    disjoint_desc (m :: l) -> disjoint_desc (n :: m :: l).

Lemma disjoint_desc_wf l : disjoint_desc l -> Forall wf_net l.
Proof. induction 1; repeat (constructor; auto). Qed.

Definition covered (l : list Net) (ip : Z) : bool := existsb (fun n => Nets.contains n ip) l.

(** One step of the loop keeps the prefixes disjoint and adds exactly the
    addresses of the new prefix. *)
Lemma keep_step kept net ip :
  disjoint_desc kept -> wf_net net -> (forall n, head kept = Some n -> key_le n net) ->
  is_u32 ip ->
  disjoint_desc (NetSets.keep kept net)
  /\ covered (NetSets.keep kept net) ip = Nets.contains net ip || covered kept ip
  /\ (forall n, head (NetSets.keep kept net) = Some n -> key_le n net).
Proof.
  intros Hd [j Hj] Hle Hip. destruct kept as [|last kept]; cbn [NetSets.keep].
  { split; [constructor; by exists j|]. split; [reflexivity|].
    intros n [= <-]. right. lia. }
  specialize (Hle last eq_refl).
  assert (wf_net last) as [k Hk] by (apply disjoint_desc_wf in Hd; by inversion Hd).
  pose proof (size_pos _ _ Hj) as Hjp. pose proof (size_pos _ _ Hk) as Hkp.
  rewrite (covers_spec last net k j) by assumption.
  destruct (bool_decide_reflect (j <= k /\ base last <= base net < base last + 2 ^ k)) as [[Hjk Hin]|Hnot].
  - split; [assumption|]. split; [|intros n [= <-]; exact Hle].
    rewrite (contains_interval net j) by assumption. cbn [covered existsb].
    rewrite (contains_interval last k) by assumption.
    destruct Hj as (Hj0 & _ & _ & Hq), Hk as (Hk0 & _ & _ & Hr).
    pose proof (aligned_nested (base last) (base net) k j ltac:(lia) Hr Hq Hin).
    repeat case_bool_decide; cbn; try reflexivity; lia.
  - split; [|split].
    + apply dd_cons with k; [by exists j | assumption | | assumption].
      destruct (Z.le_gt_cases (base last + 2 ^ k) (base net)) as [|Hlt]; [assumption|exfalso].
      destruct Hle as [Hlt'|[Heq Hmask]].
      * assert (k < j) by lia.
        destruct Hj as (Hj0 & _ & _ & Hq), Hk as (Hk0 & _ & _ & Hr).
        pose proof (aligned_disjoint (base last) (base net) k j ltac:(lia) Hr Hq Hlt'). lia.
      * apply Hnot. split; [|lia]. destruct Hj as (Hj0 & Hmj & _), Hk as (Hk0 & Hmk & _).
        rewrite Hmj, Hmk in Hmask. apply (Z.pow_le_mono_r_iff 2); lia.
    + reflexivity.
    + intros n [= <-]. right. lia.
Qed.

#[export] Instance key_le_trans : Transitive key_le.
Proof. intros a b c. unfold key_le. lia. Qed.

#[export] Instance key_le_total : Total key_le.
Proof. intros a b. unfold key_le. lia. Qed.

Lemma fold_keep l kept ip :
  StronglySorted key_le l -> Forall wf_net l -> disjoint_desc kept ->
  (forall n, head kept = Some n -> Forall (key_le n) l) -> is_u32 ip ->
  disjoint_desc (fold_left NetSets.keep l kept)
  /\ covered (fold_left NetSets.keep l kept) ip = covered kept ip || covered l ip.
Proof.
  revert kept. induction l as [|a l IH]; intros kept Hs Hw Hd Hle Hip; cbn [fold_left].
  { split; [assumption|]. cbn. by rewrite orb_false_r. }
  inversion Hs as [|? ? Hs' Ha]; subst. inversion Hw as [|? ? Hwa Hw']; subst.
  destruct (keep_step kept a ip Hd Hwa) as (Hd' & Hc & Hh);
    [intros n Hn; specialize (Hle n Hn); by inversion Hle | assumption|].
  destruct (IH (NetSets.keep kept a) Hs' Hw' Hd') as [Hr Hcov]; [|assumption|].
  - intros n Hn. eapply Forall_impl; [|exact Ha]. intros x Hx.
    transitivity a; [by apply Hh | assumption].
  - split; [assumption|]. rewrite Hcov, Hc. cbn [covered existsb].
    destruct (Nets.contains a ip), (covered kept ip); reflexivity.
Qed.

(** [m] ends before [n] begins. *)
Definition before (m n : Net) : Prop := exists k, net_bits m k /\ base m + 2 ^ k <= base n.

Lemma disjoint_desc_before l i j n m :
  disjoint_desc l -> (i < j)%nat -> l !! i = Some n -> l !! j = Some m -> before m n.
Proof.
  intros Hd. revert i j n m.
  induction Hd as [|n0|n0 m0 l k Hn Hm Hle Hd IH]; intros i j n m Hij Hi Hj.
  - done.
  - destruct j as [|j]; [lia|]. done.
  - destruct j as [|j]; [lia|]. destruct i as [|i]; [|eapply (IH i j); eauto; lia].
    injection Hi as <-. destruct j as [|j]; cbn in Hj.
    + injection Hj as <-. by exists k.
    + destruct (IH 0%nat (S j) m0 m ltac:(lia) eq_refl Hj) as (k' & Hk' & Hlt).
      exists k'. split; [assumption|]. pose proof (size_pos _ _ Hm). lia.
Qed.

(** A set of prefixes in ascending order, pairwise apart. *)
Definition sorted_set (s : NetSet) : Prop :=
  Forall wf_net s
  /\ forall i j n m, (i < j)%nat -> s !! i = Some n -> s !! j = Some m -> before n m.

Lemma new_sorted_set nets : Forall wf_net nets -> sorted_set (NetSets.new nets)
  /\ forall ip, is_u32 ip -> covered (NetSets.new nets) ip = covered nets ip.
Proof.
  intros Hw. unfold NetSets.new.
  pose proof (merge_sort_Permutation key_le nets) as Hperm.
  assert (Forall wf_net (merge_sort key_le nets)) as Hw' by (by rewrite Hperm).
  assert (forall ip, is_u32 ip -> _) as H
    by (intros ip Hip; exact (fold_keep (merge_sort key_le nets) [] ip
          (StronglySorted_merge_sort key_le nets) Hw' dd_nil ltac:(done) Hip)).
  split.
  - destruct (H 0 ltac:(unfold in_width; lia)) as [Hd _]. split.
    + apply Forall_reverse, disjoint_desc_wf, Hd.
    + intros i j n m Hij Hi Hj.
      pose proof (lookup_lt_Some _ _ _ Hj) as Hlen. rewrite length_reverse in Hlen.
      rewrite reverse_lookup in Hi, Hj by lia.
      eapply (disjoint_desc_before _ _ _ m n Hd); [|exact Hj|exact Hi]. lia.
  - intros ip Hip. destruct (H ip Hip) as [_ Hc]. cbn [covered existsb orb] in Hc.
    transitivity (covered (merge_sort key_le nets) ip); [rewrite <- Hc|].
    + unfold covered. apply eq_bool_prop_intro. rewrite !existb_True.
      by rewrite reverse_Permutation.
    + unfold covered. apply eq_bool_prop_intro. rewrite !existb_True. by rewrite Hperm.
Qed.

Lemma sorted_set_partition s ip :
  sorted_set s -> exists r, (r <= length s)%nat /\ partition_at s (fun n => base n <=? ip) r.
Proof.
  intros [Hw Hs]. induction s as [|n s IH].
  - exists 0%nat. split; [lia|]. intros i x. by rewrite lookup_nil.
  - destruct (IH ltac:(by inversion Hw)) as (r & Hr & Hp).
    { intros i j a b Hij Hi Hj. apply (Hs (S i) (S j)); [lia|assumption..]. }
    destruct (Z.leb_spec (base n) ip) as [Hle|Hgt].
    + exists (S r). split; [cbn; lia|]. intros [|i] x; cbn.
      * intros [= <-]. rewrite (proj2 (Z.leb_le _ _) Hle). rewrite bool_decide_true by lia. done.
      * intros Hx. rewrite (Hp _ _ Hx). apply bool_decide_ext. lia.
    + exists 0%nat. split; [lia|]. intros [|i] x Hx.
      * injection Hx as <-. apply Z.leb_gt in Hgt. rewrite Hgt. by rewrite bool_decide_false by lia.
      * destruct (Hs 0%nat (S i) n x ltac:(lia) eq_refl Hx) as (k & Hk & Hlt).
        pose proof (size_pos _ _ Hk). rewrite bool_decide_false by lia. apply Z.leb_gt. lia.
Qed.

Lemma sorted_set_contains s ip :
  sorted_set s -> is_u32 ip -> NetSets.contains s ip = Ret (covered s ip).
Proof.
  intros Hs Hip. destruct (sorted_set_partition s ip Hs) as (r & Hr & Hp).
  unfold NetSets.contains. rewrite (partition_point_at _ _ _ Hp Hr). cbn [obind].
  destruct Hs as [Hw Hs]. rewrite Forall_lookup in Hw.
  assert (forall i n, s !! i = Some n -> Nets.contains n ip = true -> S i = r) as Huniq.
  { intros i n Hi Hc. destruct (Hw _ _ Hi) as [k Hk].
    rewrite (contains_interval n k) in Hc by assumption. apply bool_decide_eq_true in Hc.
    pose proof (Hp _ _ Hi) as Hpi. cbn beta in Hpi. rewrite (proj2 (Z.leb_le _ _)) in Hpi by lia.
    symmetry in Hpi. apply bool_decide_eq_true in Hpi.
    destruct (decide (S i = r)) as [|Hne]; [assumption|exfalso].
    destruct (lookup_lt_is_Some_2 s (S i) ltac:(lia)) as [m Hm].
    pose proof (Hp _ _ Hm) as Hpm. cbn beta in Hpm. rewrite bool_decide_true in Hpm by lia. apply Z.leb_le in Hpm.
    destruct (Hs i (S i) n m ltac:(lia) Hi Hm) as (k' & (Hk0 & Hm1 & _) & Hlt).
    destruct Hk as (Hk1 & Hm2 & _). assert (2 ^ k = 2 ^ k') by lia. lia. }
  destruct (Nat.ltb_spec 0 r) as [H0|H0].
  - destruct (lookup_lt_is_Some_2 s (r - 1) ltac:(lia)) as [n Hn].
    rewrite (rd_lookup _ _ _ Hn). cbn [obind]. f_equal.
    destruct (Nets.contains n ip) eqn:Ec; symmetry.
    + apply existsb_exists. exists n. split; [|assumption].
      apply list_elem_of_In, (list_elem_of_lookup_2 _ _ _ Hn).
    + apply not_true_iff_false. intros Hx. apply existsb_exists in Hx as (m & Hm & Hc).
      apply list_elem_of_In, list_elem_of_lookup in Hm as [i Hi].
      assert (i = (r - 1)%nat) as -> by (pose proof (Huniq _ _ Hi Hc); lia). congruence.
  - f_equal. symmetry. apply not_true_iff_false. intros Hx.
    apply existsb_exists in Hx as (m & Hm & Hc).
    apply list_elem_of_In, list_elem_of_lookup in Hm as [i Hi].
    pose proof (Huniq _ _ Hi Hc). lia.
Qed.

(* ------------------------------------------------------------------ *)
(** ** Parsed prefixes are well formed *)

Lemma parse_octet_byte s v : parse_octet s = Some v -> is_byte v.
Proof.
  unfold parse_octet. destruct s as [|c s]; [discriminate|].
  destruct (3 <? _)%nat; [discriminate|]. destruct (_ && _); [discriminate|].
  destruct (digits_value 0 (c :: s)) eqn:E; [|discriminate].
  destruct (Z.leb_spec z 255); [|discriminate]. intros [= <-].
  apply digits_value_nonneg in E; [|lia]. unfold in_width. lia.
Qed.

Lemma parse_ipv4_u32 s ip : parse_ipv4 s = Some ip -> is_u32 ip.
Proof.
  unfold parse_ipv4. intros E.
  assert (forall v, Some v ∈ List.map parse_octet (split 46 s) -> is_byte v) as Hb.
  { intros v Hv. apply list_elem_of_In, in_map_iff in Hv as (x & Hx & _).
    exact (parse_octet_byte _ _ Hx). }
  revert E Hb. generalize (List.map parse_octet (split 46 s)). intros l.
  destruct l as [|[a|] [|[b|] [|[c|] [|[d|] [|]]]]]; intros E Hb; simplify_eq E.
  intros <-. apply (from_be_bytes_bound [_; _; _; _]).
  repeat constructor; apply Hb; set_solver.
Qed.

Lemma shifted_mask k : 0 <= k <= 24 -> u32 (Z.shiftl u32_MAX k) = 2 ^ 32 - 2 ^ k.
Proof.
  intros Hk. rewrite Z.shiftl_mul_pow2 by lia. unfold u32_MAX, wrap.
  assert (0 < 2 ^ k <= 2 ^ 24)
    by (split; [apply Z.pow_pos_nonneg | apply Z.pow_le_mono_r]; lia).
  replace ((2 ^ 32 - 1) * 2 ^ k) with (2 ^ 32 - 2 ^ k + (2 ^ k - 1) * 2 ^ 32) by lia.
  rewrite Z.mod_add by lia. apply Z.mod_small. lia.
Qed.

(** Everything [Nets.parse] accepts, in terms of the address and the length
    it read. *)
Lemma net_parse_inv s n :
  Nets.parse s = Some n ->
  exists addr len, is_u32 addr /\ 8 <= len <= 32
    /\ n = MkNet (addr / 2 ^ (32 - len) * 2 ^ (32 - len)) (2 ^ 32 - 2 ^ (32 - len)).
Proof.
  unfold Nets.parse. destruct (split_once 47 (trim s)) as [[a l]|]; [|discriminate].
  destruct (parse_ipv4 a) as [addr|] eqn:Ea; [|discriminate].
  destruct (parse_uint 32 l) as [len|]; [|discriminate]. unfold MIN_PREFIX_LEN.
  destruct ((8 <=? len) && (len <=? 32)) eqn:El; [|discriminate]. cbn [negb]. bool_hyps.
  intros [= <-]. exists addr, len. pose proof (parse_ipv4_u32 _ _ Ea) as Hu.
  split; [assumption|]. split; [lia|].
  rewrite shifted_mask by lia. by rewrite land_mask by (unfold in_width in *; lia).
Qed.

Lemma net_parse_wf s n : Nets.parse s = Some n -> wf_net n.
Proof.
  intros H. destruct (net_parse_inv s n H) as (addr & len & Hu & Hl & ->).
  exists (32 - len). destruct (pow_split (32 - len) ltac:(lia)) as (E & Hp & _).
  pose proof (Z.div_mod addr (2 ^ (32 - len)) ltac:(lia)).
  pose proof (Z.mod_pos_bound addr (2 ^ (32 - len)) Hp).
  pose proof (Z.div_pos addr (2 ^ (32 - len)) ltac:(apply Hu) Hp).
  unfold in_width in Hu. split; [lia|]. split; [reflexivity|]. cbn [base].
  split; [nia | eauto].
Qed.

Lemma omap_parse_wf {A} (f : A -> str) l : Forall wf_net (omap (fun c => Nets.parse (f c)) l).
Proof.
  induction l as [|c l IH]; cbn; [constructor|].
  destruct (Nets.parse (f c)) eqn:E; [|assumption].
  constructor; [eapply net_parse_wf; eassumption | assumption].
Qed.

Lemma parse_entry_wf line u t n : parse_entry line = Some (u, t, n) -> wf_net n.
Proof.
  unfold parse_entry. destruct (split_whitespace line) as [|w [|c [|? ?]]]; try discriminate.
  - destruct (Nets.parse w) eqn:E; [|discriminate]. intros [= _ _ <-]. eapply net_parse_wf; eauto.
  - destruct (Nets.parse c) eqn:E.
    + repeat case_match; intros [= _ _ <-]; eapply net_parse_wf; eauto.
    + repeat case_match; discriminate.
Qed.

Lemma parse_allowlist_wf text :
  Forall wf_net (al_udp (parse_allowlist text)) /\ Forall wf_net (al_tcp (parse_allowlist text)).
Proof.
  unfold parse_allowlist.
  assert (forall l acc, Forall wf_net (al_udp acc) /\ Forall wf_net (al_tcp acc) ->
    Forall wf_net (al_udp (fold_left parse_line l acc))
    /\ Forall wf_net (al_tcp (fold_left parse_line l acc))) as H; [|apply H; split; constructor].
  induction l as [|line l IH]; intros acc Ha; [exact Ha|]. cbn [fold_left]. apply IH.
  unfold parse_line. destruct (_ =? 0)%nat; [assumption|].
  destruct (parse_entry _) as [[[u t] n]|] eqn:E; [|exact Ha].
  apply parse_entry_wf in E. cbn [al_udp al_tcp].
  destruct u, t; rewrite !Forall_app; repeat split; try apply Ha; try (by repeat constructor).
Qed.

(* ------------------------------------------------------------------ *)
(** ** The decision *)

(** What the configuration says about a destination, without the sorted
    representation. *)
Definition listed (udp tcp : list Net) (ports : list Z) (protocol dst : Z) (port : option Z)
  : bool :=
  if protocol =? 6
  then covered tcp dst && match port with Some q => existsb (Z.eqb q) ports | None => true end
  else covered udp dst.

(** In which way a destination is unlisted. *)
Definition verdict (udp tcp : list Net) (ports : list Z) (protocol dst : Z) (port : option Z)
  : option Unlisted :=
  if listed udp tcp ports protocol dst port then None
  else if (protocol =? 6) && covered tcp dst then Some Port
  else Some Network.

Record policy_ok (p : DestPolicy) : Prop := {
  ok_udp : sorted_set (udp p);
  ok_tcp : sorted_set (tcp p);
  ok_networks : (size (networks (tally_state p)) <= SAMPLE_CAP)%nat;
  ok_ports : (size (tcp_port_samples (tally_state p)) <= SAMPLE_CAP)%nat;
}.

Lemma bump_size {K} `{Countable K} (m : gmap K Z) k o :
  (size m <= SAMPLE_CAP)%nat -> (size (bump m k o).1 <= SAMPLE_CAP)%nat.
Proof.
  intros Hs. unfold bump. destruct (m !! k) eqn:E.
  - cbn. rewrite map_size_insert, E. cbn. lia.
  - destruct (Nat.ltb_spec (size m) SAMPLE_CAP) as [Hlt|]; cbn [fst]; [|assumption].
    rewrite map_size_insert, E. cbn. lia.
Qed.

(** The parts [permits] never touches. *)
Definition same_config (p q : DestPolicy) : Prop :=
  mode p = mode q /\ udp p = udp q /\ tcp p = tcp q /\ tcp_ports p = tcp_ports q.

Lemma tally_keeps p protocol dst port u :
  same_config p (tally p protocol dst port u)
  /\ counters (tally p protocol dst port u) = counters p.
Proof.
  unfold tally, same_config. cbn. destruct (negb _); [done|].
  destruct u; [destruct (bump _ _ _); done|]. destruct port; [destruct (bump _ _ _)|]; done.
Qed.

Lemma tally_ok p protocol dst port u :
  policy_ok p -> policy_ok (tally p protocol dst port u).
Proof.
  intros [H1 H2 H3 H4]. destruct (tally_keeps p protocol dst port u) as [(_ & E1 & E2 & _) _].
  unfold tally in *. cbn in *. destruct (negb _); [constructor; assumption|].
  destruct u.
  - pose proof (bump_size (networks (tally_state p)) (protocol, Z.land dst 0xFFFFFF00)
                  (overflow (tally_state p)) H3).
    destruct (bump _ _ _). constructor; assumption.
  - destruct port as [q|]; [|constructor; assumption].
    pose proof (bump_size (tcp_port_samples (tally_state p)) q (overflow (tally_state p)) H4).
    destruct (bump _ _ _). constructor; assumption.
Qed.

Lemma classify_spec p protocol dst port :
  policy_ok p -> is_u32 dst ->
  classify p protocol dst port = Ret (verdict (udp p) (tcp p) (tcp_ports p) protocol dst port).
Proof.
  intros [H1 H2 _ _] Hd. unfold classify, verdict, listed.
  rewrite !sorted_set_contains by assumption. cbn [obind].
  destruct (protocol =? 6).
  - destruct (covered (tcp p) dst); cbn [negb andb]; [|done].
    destruct port as [q|]; [|done]. by destruct (existsb _ _).
  - by destruct (covered (udp p) dst).
Qed.

Lemma verdict_listed udp tcp ports protocol dst port :
  verdict udp tcp ports protocol dst port = None <-> listed udp tcp ports protocol dst port = true.
Proof. unfold verdict. destruct (listed _ _ _ _ _ _); [done|]. by destruct (_ && _). Qed.

Lemma classify_returns p protocol dst port : exists u, classify p protocol dst port = Ret u.
Proof.
  unfold classify. destruct (netset_contains_returns (tcp p) dst) as [b ->].
  destruct (netset_contains_returns (udp p) dst) as [b' ->]. cbn [obind].
  repeat case_match; eauto.
Qed.

Lemma permits_returns p protocol dst port : exists r, policy_permits p protocol dst port = Ret r.
Proof.
  unfold policy_permits. case_bool_decide; [eauto|].
  destruct (classify_returns p protocol dst port) as [u ->]. cbn [obind].
  repeat case_match; eauto.
Qed.

(** The process-wide [POLICY] as the parser's gate; [policy_permits] always
    returns, so the default is never taken ([policy_gate]). *)
#[export] Instance policy_dest_gate : DestGate DestPolicy := fun p protocol dst port =>
  match policy_permits p protocol dst port with
  | Ret r => r
  | Panic => (p, false)
  end.

Lemma policy_gate p protocol dst port :
  policy_permits p protocol dst port = Ret (permits p protocol dst port).
Proof.
  destruct (permits_returns p protocol dst port) as [r E].
  unfold permits, policy_dest_gate. by rewrite E.
Qed.

Lemma permits_spec p protocol dst port :
  policy_ok p -> is_u32 dst ->
  let '(q, b) := permits p protocol dst port in
  same_config p q /\ policy_ok q
  /\ b = negb (bool_decide (mode p = Enforce))
         || listed (udp p) (tcp p) (tcp_ports p) protocol dst port
  /\ (mode p = Off -> q = p).
Proof.
  intros Hok Hd. pose proof (policy_gate p protocol dst port) as E. unfold policy_permits in E.
  destruct (bool_decide_reflect (mode p = Off)) as [Hoff|Hoff].
  - injection E as <-. rewrite Hoff. done.
  - pose proof (verdict_listed (udp p) (tcp p) (tcp_ports p) protocol dst port) as Hu.
    rewrite (classify_spec p protocol dst port Hok Hd) in E. cbn [obind] in E.
    destruct (verdict _ _ _ _ _ _) as [u|].
    + assert (listed (udp p) (tcp p) (tcp_ports p) protocol dst port = false) as ->
        by (apply not_true_iff_false; intros Hl; apply Hu in Hl; discriminate).
      set (p1 := p <| counters ::= _ |>) in E.
      assert (policy_ok p1) as Hok1 by (destruct Hok; constructor; assumption).
      destruct (tally_keeps p1 protocol dst port u) as [Hsame Hcnt].
      pose proof (tally_ok p1 protocol dst port u Hok1) as Hok2.
      set (p2 := tally p1 protocol dst port u) in *.
      assert (same_config p p2) as Hs by (exact Hsame).
      destruct Hs as (Hm & Hs'). rewrite <- Hm in E.
      destruct (bool_decide_reflect (mode p = Enforce)); injection E as <-.
      * repeat split; try apply Hs'; try apply Hok2; try assumption; congruence.
      * repeat split; try apply Hs'; try apply Hok2; try assumption; congruence.
    + rewrite (proj1 Hu eq_refl). injection E as <-. rewrite orb_true_r. done.
Qed.

Lemma build_ok requested file ports : policy_ok (build requested file ports).
Proof.
  assert (forall l, Forall wf_net l -> sorted_set (NetSets.new l)) as Hs
    by (intros l Hl; by apply new_sorted_set).
  pose proof (omap_parse_wf lit BUILT_IN_ROBLOX) as Hb.
  unfold build. destruct (load_allowlist file) as [ns [[path l]|]] eqn:El.
  - assert (exists text, l = parse_allowlist text) as [text ->].
    { unfold load_allowlist in El. destruct file as [[pa [text|err]]|]; try discriminate.
      destruct (_ || _); [discriminate|]. injection El as _ _ <-. eauto. }
    destruct (parse_allowlist_wf text). constructor; cbn [udp tcp]; auto; vm_compute; lia.
  - constructor; cbn [udp tcp]; auto; vm_compute; lia.
Qed.

(** A sequence of forwarding decisions. *)
Fixpoint policy_run (p : DestPolicy) (calls : list (Z * Ipv4Addr * option Z))
  : DestPolicy * list bool :=
  match calls with
  | [] => (p, [])
  | (protocol, dst, port) :: rest =>
      let '(p1, b) := permits p protocol dst port in
      let '(p2, bs) := policy_run p1 rest in
      (p2, b :: bs)
  end.

(** The counters of a policy that has judged [calls], from the lists alone:
    each unlisted packet is counted once, by protocol and by what was not
    listed, and in enforce mode also as dropped; a policy that is off counts
    nothing. *)
Section Expected.
Context (m : Mode) (udp tcp : list Net) (ports : list Z).

Definition is_verdict (tcp_protocol : bool) (u : Unlisted) (call : Z * Ipv4Addr * option Z) : bool :=
  let '(protocol, dst, port) := call in
  Bool.eqb (protocol =? 6) tcp_protocol
  && match verdict udp tcp ports protocol dst port, u with
     | Some Network, Network | Some Port, Port => true
     | _, _ => false
     end.
Definition is_unlisted (call : Z * Ipv4Addr * option Z) : bool :=
  let '(protocol, dst, port) := call in negb (listed udp tcp ports protocol dst port).

Definition number (f : Z * Ipv4Addr * option Z -> bool) (calls : list (Z * Ipv4Addr * option Z)) : Z :=
  Z.of_nat (length (List.filter f calls)).

Definition expected_counters (calls : list (Z * Ipv4Addr * option Z)) : Counters :=
  if bool_decide (m = Off) then MkCounters 0 0 0 0 else
  MkCounters (u64 (number (is_verdict false Network) calls))
    (u64 (number (is_verdict true Network) calls)) (u64 (number (is_verdict true Port) calls))
    (if bool_decide (m = Enforce) then u64 (number is_unlisted calls) else 0).

Lemma number_app f l c : number f (l ++ [c]) = number f l + (if f c then 1 else 0).
Proof. unfold number. rewrite List.filter_app, length_app. cbn. destruct (f c); cbn; lia. Qed.

Lemma u64_incr n : incr (u64 n) = u64 (n + 1).
Proof. unfold incr, wrap. by rewrite Zplus_mod_idemp_l. Qed.

(** One more decision. *)
Lemma expected_step calls protocol dst port :
  m <> Off ->
  expected_counters (calls ++ [(protocol, dst, port)])
  = match verdict udp tcp ports protocol dst port with
    | None => expected_counters calls
    | Some u =>
        let c := count_unlisted (expected_counters calls) protocol u in
        if bool_decide (m = Enforce) then c <| dropped ::= incr |> else c
    end.
Proof.
  intros Hm. unfold expected_counters. rewrite (bool_decide_false (m = Off)) by assumption.
  rewrite !number_app. cbn [is_verdict is_unlisted].
  pose proof (verdict_listed udp tcp ports protocol dst port) as Hl.
  assert (is_Some (verdict udp tcp ports protocol dst port) ->
          listed udp tcp ports protocol dst port = false) as Hu.
  { intros [u Eu]. rewrite Eu in Hl. apply not_true_iff_false. intros E. by apply Hl in E. }
  assert (protocol <> 6 -> verdict udp tcp ports protocol dst port <> Some Port) as Hp.
  { intros Hne. unfold verdict. rewrite (proj2 (Z.eqb_neq _ _) Hne). by destruct (listed _ _ _ _ _ _). }
  destruct (verdict udp tcp ports protocol dst port) as [u|].
  - rewrite (Hu ltac:(by eexists)). unfold count_unlisted.
    destruct (Z.eqb_spec protocol 6) as [->|Hne]; [|specialize (Hp Hne)]; destruct u; try done;
      destruct (bool_decide (m = Enforce)); cbn; rewrite ?u64_incr, ?Z.add_0_r; done.
  - rewrite (proj1 Hl eq_refl). cbn. rewrite !andb_false_r, !Z.add_0_r. done.
Qed.

Lemma expected_off calls : m = Off -> expected_counters calls = MkCounters 0 0 0 0.
Proof. intros E. unfold expected_counters. by rewrite bool_decide_true. Qed.

End Expected.

Lemma permits_counters p protocol dst port calls :
  policy_ok p -> is_u32 dst ->
  counters p = expected_counters (mode p) (udp p) (tcp p) (tcp_ports p) calls ->
  counters (permits p protocol dst port).1
  = expected_counters (mode p) (udp p) (tcp p) (tcp_ports p) (calls ++ [(protocol, dst, port)]).
Proof.
  intros Hok Hd Hc. pose proof (policy_gate p protocol dst port) as E. unfold policy_permits in E.
  destruct (bool_decide_reflect (mode p = Off)) as [Hoff|Hoff].
  { injection E as <-. cbn [fst]. rewrite Hc. by rewrite !expected_off. }
  rewrite (expected_step _ _ _ _ calls protocol dst port Hoff), <- Hc.
  rewrite (classify_spec p protocol dst port Hok Hd) in E. cbn [obind] in E.
  destruct (verdict _ _ _ _ _ _) as [u|]; [|by injection E as <-].
  set (p1 := p <| counters ::= _ |>) in E.
  destruct (tally_keeps p1 protocol dst port u) as [(Hm & _) Hcnt].
  set (p2 := tally p1 protocol dst port u) in *. cbv zeta.
  assert (mode p = mode p2) as Hm' by exact Hm. rewrite <- Hm' in E.
  destruct (bool_decide_reflect (mode p = Enforce)) as [He|He]; injection E as <-; cbn [fst].
  - change (counters (p2 <| counters ::= fun c => c <| dropped ::= incr |> |>))
      with (counters p2 <| dropped ::= incr |>). by rewrite Hcnt.
  - by rewrite Hcnt.
Qed.

(** What a run of decisions leaves, and what it answers. *)
Lemma policy_run_spec calls : forall p before,
  policy_ok p -> Forall (fun c => is_u32 c.1.2) calls ->
  counters p = expected_counters (mode p) (udp p) (tcp p) (tcp_ports p) before ->
  let '(q, answers) := policy_run p calls in
  policy_ok q /\ same_config p q
  /\ counters q = expected_counters (mode p) (udp p) (tcp p) (tcp_ports p) (before ++ calls)
  /\ answers = List.map (fun '(protocol, dst, port) =>
                 negb (bool_decide (mode p = Enforce))
                 || listed (udp p) (tcp p) (tcp_ports p) protocol dst port) calls.
Proof.
  induction calls as [|[[protocol dst] port] calls IH]; intros p before Hok Hf Hc; cbn [policy_run List.map].
  { rewrite app_nil_r. unfold same_config. auto 10. }
  apply Forall_cons_1 in Hf as [Hd Hf]. cbn in Hd.
  pose proof (permits_spec p protocol dst port Hok Hd) as Hs.
  pose proof (permits_counters p protocol dst port before Hok Hd Hc) as Hc1.
  destruct (permits p protocol dst port) as [p1 b]. destruct Hs as ((Em & Eu & Et & Ep) & Hok1 & Hb & _).
  cbn [fst] in Hc1. rewrite Em, Eu, Et, Ep in Hc1, Hb.
  specialize (IH p1 _ Hok1 Hf Hc1). destruct (policy_run p1 calls) as [p2 bs].
  destruct IH as (Hok2 & Hs2 & Hc2 & ->). unfold same_config in *. rewrite Em, Eu, Et, Ep.
  split; [exact Hok2|]. split; [exact Hs2|]. split; [by rewrite Hc2, <- app_assoc | by rewrite Hb].
Qed.

Lemma build_counters requested file ports :
  counters (build requested file ports) = MkCounters 0 0 0 0.
Proof. unfold build. by destruct (load_allowlist file) as [? [[? ?]|]]. Qed.

Lemma expected_nil m udp tcp ports : expected_counters m udp tcp ports [] = MkCounters 0 0 0 0.
Proof. unfold expected_counters. destruct (bool_decide (m = Off)), (bool_decide (m = Enforce)); reflexivity. Qed.

(* ------------------------------------------------------------------ *)
(** ** Theorems *)

(** C26: the sorted set is the list: for every collection of prefixes that
    [Net::parse] can produce, the binary search of [NetSet::contains] in the
    sorted, merged set answers exactly whether some prefix of the collection
    contains the address, and it never indexes out of range. *)
Theorem netset_contains_linear (cidrs : list str) (ip : Ipv4Addr) :
  is_u32 ip ->
  let nets := omap Nets.parse cidrs in
  NetSets.contains (NetSets.new nets) ip = Ret (existsb (fun n => Nets.contains n ip) nets).
Proof.
  intros Hip nets. destruct (new_sorted_set nets) as [Hs Hc];
    [apply (omap_parse_wf id) |].
  rewrite sorted_set_contains by assumption. f_equal. by apply Hc.
Qed.

Lemma netset_contains_linear_witness :
  NetSets.contains
    (NetSets.new (omap Nets.parse [lit "10.1.2.0/24"; lit "10.0.0.0/8"; lit "23.1.2.3/32"]))
    (ipv4_new 10 200 0 1)
  = Ret true.
Proof.
  rewrite (netset_contains_linear [lit "10.1.2.0/24"; lit "10.0.0.0/8"; lit "23.1.2.3/32"]
             (ipv4_new 10 200 0 1)); [vm_compute; reflexivity | vm_compute; split; congruence].
Defined.

(** A parsed prefix means what CIDR says: it has between 8 and 32 fixed
    bits and contains exactly the addresses that agree with its address on
    those bits. *)
Theorem net_parse_meaning (cidr : str) (n : Net) :
  Nets.parse cidr = Some n ->
  exists addr len, is_u32 addr /\ 8 <= len <= 32
    /\ forall ip, is_u32 ip -> Nets.contains n ip = in_block ip (addr, len).
Proof.
  intros E. pose proof (net_parse_inv cidr n E) as (addr & len & Hu & Hl & ->).
  exists addr, len. split; [assumption|]. split; [assumption|]. intros ip Hip.
  unfold Nets.contains, in_block. cbn [mask base].
  rewrite land_mask by (unfold in_width in *; lia).
  destruct (pow_split (32 - len) ltac:(lia)) as (_ & Hp & _).
  destruct (Z.eqb_spec (ip / 2 ^ (32 - len)) (addr / 2 ^ (32 - len))) as [->|Hne].
  - apply Z.eqb_refl.
  - apply Z.eqb_neq. intros He. apply Hne. apply (Z.mul_cancel_r _ _ (2 ^ (32 - len))); lia.
Qed.

Lemma net_parse_meaning_witness :
  exists addr len, is_u32 addr /\ 8 <= len <= 32
    /\ forall ip, is_u32 ip ->
       Nets.contains (MkNet (ipv4_new 128 116 0 0) 0xFFFF8000) ip = in_block ip (addr, len).
Proof. apply (net_parse_meaning (lit " 128.116.5.9/17")). vm_compute. reflexivity. Defined.

(** Enforcement is fail-open: the policy enforces exactly when enforcing
    was requested and the allowlist file was readable with at least one
    prefix for UDP and one for TCP; otherwise a request to enforce becomes
    observe with the reason recorded, and the lists in force are the file's
    or the built-in ones. *)
Theorem enforce_needs_usable_file (requested : Mode) (file : option (str * (str + str)))
  (ports : list Z) :
  let p := build requested file ports in
  (mode p = Enforce <->
   requested = Enforce
   /\ exists path text, file = Some (path, inl text)
        /\ al_udp (parse_allowlist text) <> [] /\ al_tcp (parse_allowlist text) <> []
        /\ udp p = NetSets.new (al_udp (parse_allowlist text))
        /\ tcp p = NetSets.new (al_tcp (parse_allowlist text)))
  /\ (is_Some (enforce_refused p) <-> requested = Enforce /\ mode p = Observe)
  /\ (requested <> Enforce -> mode p = requested).
Proof.
  unfold build. destruct (load_allowlist file) as [ns loaded] eqn:El.
  assert (forall path l, loaded = Some (path, l) ->
    exists text, file = Some (path, inl text) /\ l = parse_allowlist text
      /\ al_udp l <> [] /\ al_tcp l <> []) as Hl.
  { intros path l ->. unfold load_allowlist in El.
    destruct file as [[pa [text|err]]|]; try discriminate.
    destruct (_ || _) eqn:Eo; [discriminate|]. injection El as _ -> <-. exists text.
    apply orb_false_iff in Eo as [E1 E2]. apply Nat.eqb_neq in E1, E2.
    split; [reflexivity|]. split; [reflexivity|].
    split; intros E; rewrite E in *; done. }
  destruct loaded as [[path l]|].
  - destruct (Hl path l eq_refl) as (text & -> & -> & Hu & Ht).
    rewrite (bool_decide_true (is_Some (Some _))), andb_false_r by (by eexists). cbn. split; [|split].
    + split; [intros ->; eauto 10 | intros [-> _]; done].
    + split; [intros [? ?]; discriminate | intros [-> ?]; discriminate].
    + done.
  - assert (forall path text, file = Some (path, inl text) ->
      al_udp (parse_allowlist text) = [] \/ al_tcp (parse_allowlist text) = []) as Hn.
    { intros path text ->. unfold load_allowlist in El.
      destruct (_ || _) eqn:Eo; [|discriminate]. apply orb_true_iff in Eo as [Eo|Eo];
        apply Nat.eqb_eq, nil_length_inv in Eo; auto. }
    rewrite (bool_decide_false (is_Some None)) by (intros [? ?]; discriminate).
    rewrite andb_true_r. generalize (NetSets.new (omap (fun c => Nets.parse (lit c)) BUILT_IN_ROBLOX)).
    generalize refused_text (lit "built-in"). intros why src roblox.
    cbn [mode enforce_refused udp tcp]. split; [|split].
    + split; [case_bool_decide; [discriminate | congruence]|].
      intros (_ & path & text & E & H1 & H2 & _). destruct (Hn _ _ E); contradiction.
    + case_bool_decide as Hr; [by split; [|eexists]|].
      split; [intros [? ?]; discriminate | intros [? _]; contradiction].
    + intros Hr. by rewrite bool_decide_false.
Qed.

(** C27: a whole run of the policy: from the policy [build] returns, through
    any sequence of decisions, every answer is "not enforcing, or listed" by
    the plain prefix lists; the configuration never changes; both sample
    tables stay within 256 entries; and the counters are exactly the numbers
    of unlisted packets of the run, UDP, TCP by network and TCP by port, in
    observe and enforce mode alike, with the drops all of them in enforce
    mode and none otherwise (modulo the 64 bits of the counters). *)
Theorem policy_run_decides (requested : Mode) (file : option (str * (str + str)))
  (ports : list Z) (calls : list (Z * Ipv4Addr * option Z)) :
  Forall (fun c => is_u32 c.1.2) calls ->
  let p := build requested file ports in
  let '(q, answers) := policy_run p calls in
  answers = List.map (fun '(protocol, dst, port) =>
              negb (bool_decide (mode p = Enforce))
              || listed (udp p) (tcp p) (tcp_ports p) protocol dst port) calls
  /\ same_config p q
  /\ (size (networks (tally_state q)) <= 256)%nat
  /\ (size (tcp_port_samples (tally_state q)) <= 256)%nat
  /\ counters q = expected_counters (mode p) (udp p) (tcp p) (tcp_ports p) calls.
Proof.
  intros Hf p. pose proof (policy_run_spec calls p [] (build_ok requested file ports) Hf) as H.
  rewrite expected_nil in H. specialize (H (build_counters requested file ports)).
  destruct (policy_run p calls) as [q answers]. destruct H as ([_ _ H3 H4] & Hs & Hc & Ha). auto.
Qed.

Lemma policy_run_decides_witness :
  let p := build Enforce (Some (lit "/a", inl (lit "8.8.8.0/24"))) [443] in
  let '(q, answers) := policy_run p [(17, ipv4_new 8 8 8 8, Some 5000); (17, ipv4_new 9 9 9 9, Some 5000);
                                     (6, ipv4_new 8 8 8 8, Some 22)] in
  answers = [true; false; false] /\ counters q = MkCounters 1 0 1 2.
Proof.
  pose proof (policy_run_decides Enforce (Some (lit "/a", inl (lit "8.8.8.0/24"))) [443]
    [(17, ipv4_new 8 8 8 8, Some 5000); (17, ipv4_new 9 9 9 9, Some 5000);
     (6, ipv4_new 8 8 8 8, Some 22)]
    ltac:(repeat constructor; vm_compute; congruence)) as H.
  cbv zeta in *. destruct (policy_run _ _) as [q answers]. destruct H as (-> & _ & _ & _ & ->).
  split; vm_compute; reflexivity.
Defined.

(** C9: the open-relay guarantee end to end: with an enforcing policy, in any
    state its decisions have left it in, every packet the parser hands on
    for forwarding, first and later fragments included, is addressed outside
    the reserved blocks to a prefix of the allowlist file for its protocol,
    and for TCP to an allowed port whenever the packet carries its port, that
    is unless it is a fragment that is not the first. *)
Theorem enforced_parse_forwards_only_listed (path text : str) (ports : list Z)
  (calls : list (Z * Ipv4Addr * option Z)) (packet : list Z) (q : DestPolicy) (p : ParsedPacket) :
  let l := parse_allowlist text in
  let g := (policy_run (build Enforce (Some (path, inl text)) ports) calls).1 in
  Forall (fun c => is_u32 c.1.2) calls ->
  bytes_ok packet -> mode g = Enforce ->
  parse_ip_packet_full g packet = Ret (q, Some p) -> p <> ForbiddenDst ->
  exists protocol dst port,
    rd (raw_of p) 9 = Ret protocol /\ rd_ipv4 (raw_of p) 16 = Ret dst
    /\ carried_port (raw_of p) = Ret port
    /\ is_forbidden_dst dst = false
    /\ listed (al_udp l) (al_tcp l) ports protocol dst port = true.
Proof.
  intros l g Hcalls Hb Hm E Hp.
  pose proof (parse_ip_packet_full_returns g packet) as Hr. rewrite E in Hr.
  destruct Hr as [n Hr]. cbn in Hr.
  assert (raw_of p = take n packet /\ payload_fits p /\ admitted g q p) as (Hraw & _ & Hadm)
    by (destruct p; try congruence; exact Hr).
  destruct Hadm as (protocol & dst & port & Hlen & H9 & H16 & Hf & _ & Hperm & Hj & _).
  exists protocol, dst, port. repeat (split; [assumption|]).
  assert (is_u32 dst) as Hd.
  { apply (rd_ipv4_u32 (raw_of p) 16); [rewrite Hraw; by apply bytes_ok_take | assumption]. }
  set (g0 := build Enforce (Some (path, inl text)) ports) in *.
  pose proof (policy_run_spec calls g0 [] (build_ok _ _ _) Hcalls) as Hrun.
  rewrite expected_nil in Hrun. specialize (Hrun (build_counters _ _ _)).
  assert (g = (policy_run g0 calls).1) as Eg by done.
  destruct (policy_run g0 calls) as [g1 answers]. cbn [fst] in Eg. clearbody g. subst g1.
  destruct Hrun as (Hok & (Em & Eu & Et & Ep) & _). rewrite <- Em in Hm.
  pose proof (permits_spec g protocol dst port Hok Hd) as Hs. rewrite Hperm, <- Em, Hm in Hs.
  destruct Hs as (_ & _ & Hl & _). symmetry in Hl.
  rewrite bool_decide_true in Hl by reflexivity. cbn [negb orb] in Hl. rewrite <- Eu, <- Et, <- Ep in Hl.
  destruct (parse_allowlist_wf text) as [Hwu Hwt].
  assert (udp g0 = NetSets.new (al_udp l) /\ tcp g0 = NetSets.new (al_tcp l) /\ tcp_ports g0 = ports)
    as (Eu0 & Et0 & Ep0).
  { revert Hm. unfold g0, build, load_allowlist. fold l. destruct (_ || _); cbn; [done|]. done. }
  unfold listed in *. rewrite Eu0, Et0, Ep0 in Hl.
  rewrite (proj2 (new_sorted_set _ Hwu)), (proj2 (new_sorted_set _ Hwt)) in Hl by assumption.
  exact Hl.
Qed.

(** A first TCP fragment to port 443 of 128.116.1.1, after the policy has
    dropped a packet. *)
Definition sample_first_fragment : list Z :=
  [0x45; 0; 0; 28; 0; 0; 0x20; 0; 64; 6; 0; 0; 1; 1; 1; 1; 128; 116; 1; 1;
   0x13; 0x88; 0x01; 0xBB; 0; 0; 0; 0].
Definition sample_calls : list (Z * Ipv4Addr * option Z) := [(17, ipv4_new 9 9 9 9, Some 5000)].
Definition sample_enforcing : DestPolicy :=
  (policy_run (build Enforce (Some (lit "/list", inl (lit "128.116.0.0/17"))) [443]) sample_calls).1.

Lemma enforced_parse_forwards_only_listed_witness :
  exists protocol dst port,
    rd sample_first_fragment 9 = Ret protocol /\ rd_ipv4 sample_first_fragment 16 = Ret dst
    /\ carried_port sample_first_fragment = Ret port
    /\ is_forbidden_dst dst = false
    /\ listed (al_udp (parse_allowlist (lit "128.116.0.0/17")))
         (al_tcp (parse_allowlist (lit "128.116.0.0/17"))) [443] protocol dst port = true.
Proof.
  apply (enforced_parse_forwards_only_listed (lit "/list") (lit "128.116.0.0/17") [443] sample_calls
    sample_first_fragment sample_enforcing (Fragment 6 (ipv4_new 1 1 1 1) sample_first_fragment)).
  - repeat constructor; vm_compute; congruence.
  - repeat constructor; vm_compute; congruence.
  - vm_compute. reflexivity.
  - vm_compute. reflexivity.
  - discriminate.
Defined.
