(* ===== verification/Stats.v ===== *)
(** * Global counters (src/main.rs: [Stats], [DropReason],
    [DropReasonCounters])

    The atomics are [u64] that wrap.  Every drop goes through [drop_in] or
    [drop_out], which bump a direction counter and a reason counter. *)

From S2P Require Import Prelude.

Inductive DropReason : Type :=
| Auth | RateLimit | Capacity | TooSmall | Parse | Fragment | ForbiddenDst | TcpDisabled
| Pool | StaleQueue | ShardQueue | TxQueue | TunQueue | FlowQueue | FlowCreate | FlowSend
| SocketSend.

Record DropReasonCounters : Type := MkReasons {
  auth : Z; rate_limit : Z; capacity : Z; too_small : Z; parse : Z; fragment : Z;
  forbidden_dst : Z; tcp_disabled : Z; pool : Z; stale_queue : Z; shard_queue : Z;
  tx_queue : Z; tun_queue : Z; flow_queue : Z; flow_create : Z; flow_send : Z; socket_send : Z;
}.
#[global] Instance eta_DropReasonCounters : Eta DropReasonCounters := fun c =>
  MkReasons (auth c) (rate_limit c) (capacity c) (too_small c) (parse c) (fragment c)
    (forbidden_dst c) (tcp_disabled c) (pool c) (stale_queue c) (shard_queue c) (tx_queue c)
    (tun_queue c) (flow_queue c) (flow_create c) (flow_send c) (socket_send c).

(** [fetch_add(n, Relaxed)] on an [AtomicU64]. *)
Definition fetch_add (n x : Z) : Z := u64 (x + n).

Definition increment (self : DropReasonCounters) (reason : DropReason) : DropReasonCounters :=
  match reason with
  | Auth => self <| auth ::= fetch_add 1 |>
  | RateLimit => self <| rate_limit ::= fetch_add 1 |>
  | Capacity => self <| capacity ::= fetch_add 1 |>
  | TooSmall => self <| too_small ::= fetch_add 1 |>
  | Parse => self <| parse ::= fetch_add 1 |>
  | Fragment => self <| fragment ::= fetch_add 1 |>
  | ForbiddenDst => self <| forbidden_dst ::= fetch_add 1 |>
  | TcpDisabled => self <| tcp_disabled ::= fetch_add 1 |>
  | Pool => self <| pool ::= fetch_add 1 |>
  | StaleQueue => self <| stale_queue ::= fetch_add 1 |>
  | ShardQueue => self <| shard_queue ::= fetch_add 1 |>
  | TxQueue => self <| tx_queue ::= fetch_add 1 |>
  | TunQueue => self <| tun_queue ::= fetch_add 1 |>
  | FlowQueue => self <| flow_queue ::= fetch_add 1 |>
  | FlowCreate => self <| flow_create ::= fetch_add 1 |>
  | FlowSend => self <| flow_send ::= fetch_add 1 |>
  | SocketSend => self <| socket_send ::= fetch_add 1 |>
  end.

Definition reasons_new : DropReasonCounters := MkReasons 0 0 0 0 0 0 0 0 0 0 0 0 0 0 0 0 0.

Record Stats : Type := MkStats {
  packets_in : Z;
  packets_out : Z;
  bytes_in : Z;
  bytes_out : Z;
  active_flows : Z;
  active_sessions : Z;
  dropped_in : Z;
  dropped_out : Z;
  throttled_users : Z;
  tcp_forwarded : Z;
  tun_udp_forwarded : Z;
  pool_exhausted : Z;
  drop_reasons : DropReasonCounters;
}.
#[global] Instance eta_Stats : Eta Stats := fun s =>
  MkStats (packets_in s) (packets_out s) (bytes_in s) (bytes_out s) (active_flows s)
    (active_sessions s) (dropped_in s) (dropped_out s) (throttled_users s) (tcp_forwarded s)
    (tun_udp_forwarded s) (pool_exhausted s) (drop_reasons s).

Definition stats_new : Stats := MkStats 0 0 0 0 0 0 0 0 0 0 0 0 reasons_new.

Definition drop_in (self : Stats) (reason : DropReason) : Stats :=
  self <| dropped_in ::= fetch_add 1 |> <| drop_reasons ::= fun c => increment c reason |>.
Definition drop_out (self : Stats) (reason : DropReason) : Stats :=
  self <| dropped_out ::= fetch_add 1 |> <| drop_reasons ::= fun c => increment c reason |>.

(** The sum an operator reads off [DropReasonCounters::to_json]. *)
Definition reasons_total (c : DropReasonCounters) : Z :=
  auth c + rate_limit c + capacity c + too_small c + parse c + fragment c + forbidden_dst c
  + tcp_disabled c + pool c + stale_queue c + shard_queue c + tx_queue c + tun_queue c
  + flow_queue c + flow_create c + flow_send c + socket_send c.

(** Every counted drop has exactly one reason. *)
Definition drops_ok (s : Stats) : Prop :=
  (dropped_in s + dropped_out s) mod 2 ^ 64 = reasons_total (drop_reasons s) mod 2 ^ 64.

(* ------------------------------------------------------------------ *)
(** ** Lemmas *)

Lemma fetch_add_eq n x : exists k, fetch_add n x = x + n + k * 2 ^ 64.
Proof.
  exists (- ((x + n) / 2 ^ 64)). unfold fetch_add, wrap.
  pose proof (Z.div_mod (x + n) (2 ^ 64) ltac:(lia)). lia.
Qed.

Lemma mod_shift a b k : a = b + k * 2 ^ 64 -> a mod 2 ^ 64 = b mod 2 ^ 64.
Proof. intros ->. by rewrite Z.mod_add by lia. Qed.

Lemma increment_total c r :
  reasons_total (increment c r) mod 2 ^ 64 = (reasons_total c + 1) mod 2 ^ 64.
Proof.
  assert (forall x y z, y = z + (fetch_add 1 x - x - 1) -> y mod 2 ^ 64 = z mod 2 ^ 64) as H.
  { intros x y z ->. destruct (fetch_add_eq 1 x) as [k ->]. apply (mod_shift _ _ k). lia. }
  unfold reasons_total, increment.
  destruct r; cbn -[Z.modulo Z.pow fetch_add];
    match goal with |- context [fetch_add 1 ?x] => apply (H x); lia end.
Qed.

Lemma drops_ok_step (d d' t t' : Z) :
  d mod 2 ^ 64 = t mod 2 ^ 64 -> d' mod 2 ^ 64 = (d + 1) mod 2 ^ 64 ->
  t' mod 2 ^ 64 = (t + 1) mod 2 ^ 64 -> d' mod 2 ^ 64 = t' mod 2 ^ 64.
Proof. intros H -> ->. by rewrite <- Zplus_mod_idemp_l, H, Zplus_mod_idemp_l. Qed.

Lemma drop_in_ok s r : drops_ok s -> drops_ok (drop_in s r).
Proof.
  intros H. unfold drops_ok, drop_in in *. cbn -[Z.modulo Z.pow fetch_add].
  eapply drops_ok_step; [exact H | | apply increment_total].
  destruct (fetch_add_eq 1 (dropped_in s)) as [k ->]. apply (mod_shift _ _ k). lia.
Qed.

Lemma drop_out_ok s r : drops_ok s -> drops_ok (drop_out s r).
Proof.
  intros H. unfold drops_ok, drop_out in *. cbn -[Z.modulo Z.pow fetch_add].
  eapply drops_ok_step; [exact H | | apply increment_total].
  destruct (fetch_add_eq 1 (dropped_out s)) as [k ->]. apply (mod_shift _ _ k). lia.
Qed.

#[global] Hint Resolve drop_in_ok drop_out_ok : relay.

(** Any update that leaves the drop counters alone keeps [drops_ok]. *)
Lemma drops_ok_frame s s' :
  dropped_in s' = dropped_in s -> dropped_out s' = dropped_out s ->
  drop_reasons s' = drop_reasons s -> drops_ok s -> drops_ok s'.
Proof. unfold drops_ok. by intros -> -> ->. Qed.
