(* ===== verification/Sessions.v ===== *)
(** * The session table (src/main.rs: [SessionEntry], [SessionTraffic], the
    per-source session counts, leases and [forwarding_addr])

    Both datapaths share these operations.  The per-source counters are a
    cache of a property of the session table; [counts_inv] says how far the
    cache can be trusted while the cleanup is between the two halves of a
    decrement, and the lemmas show each pair of updates keeps it. *)

From Stdlib Require Import String.
From S2P Require Import Prelude Net RustStr Stats.

Definition SESSION_ID_LEN : nat := 8.
Definition MAX_SESSIONS_TOTAL : Z := 65536.
Definition MAX_SESSIONS_PER_SRC_IP : Z := 512.
Definition MAX_FLOWS_TOTAL : Z := 262144.
Definition MAX_FLOWS_PER_SESSION : Z := 1024.
Definition SESSION_TIMEOUT : Z := secs 180.
Definition CLEANUP_INTERVAL : Z := secs 30.
Definition FLOW_GRACE_PERIOD : Z := secs 30.

(** A session id is its eight bytes. *)
Abbreviation SessionId := (list Z) (only parsing).

Inductive SessionAuthState : Type := Legacy | Authenticated.

#[export] Instance SessionAuthState_eq_dec : EqDecision SessionAuthState.
Proof. solve_decision. Defined.

Record SessionEntry : Type := MkSession {
  user_id : str;
  auth_state : SessionAuthState;
  lease_expires_at_unix : option Z;
  client_addr : SocketAddr;
  created_at_unix : Z;
  last_activity : Z;
  last_activity_unix : Z;
}.
#[global] Instance eta_SessionEntry : Eta SessionEntry := fun s =>
  MkSession (user_id s) (auth_state s) (lease_expires_at_unix s) (client_addr s)
    (created_at_unix s) (last_activity s) (last_activity_unix s).

Record SessionTraffic : Type := MkTraffic {
  connected_at_unix : Z;
  t_bytes_in : Z;
  t_bytes_out : Z;
  t_packets_in : Z;
  t_packets_out : Z;
  t_last_activity_unix : Z;
  last_rtt_us : Z;
}.
#[global] Instance eta_SessionTraffic : Eta SessionTraffic := fun t =>
  MkTraffic (connected_at_unix t) (t_bytes_in t) (t_bytes_out t) (t_packets_in t)
    (t_packets_out t) (t_last_activity_unix t) (last_rtt_us t).

Definition traffic_new (connected_at_unix : Z) : SessionTraffic :=
  MkTraffic connected_at_unix 0 0 0 0 connected_at_unix 0.

Abbreviation Sessions := (gmap (list Z) SessionEntry) (only parsing).
Abbreviation Traffic := (gmap (list Z) SessionTraffic) (only parsing).
Abbreviation SourceCounts := (gmap IpAddr Z) (only parsing).

Definition record_session_ingress (session_traffic : Traffic) (session_id : SessionId)
  (connected_at_unix : Z) (packet_len : nat) : Traffic :=
  let traffic := default (traffic_new connected_at_unix) (session_traffic !! session_id) in
  <[session_id := traffic <| t_bytes_in ::= fetch_add (Z.of_nat packet_len) |>
                          <| t_packets_in ::= fetch_add 1 |>
                          <| t_last_activity_unix := connected_at_unix |>]> session_traffic.

Definition source_session_count (counts : SourceCounts) (source_ip : IpAddr) : Z :=
  default 0 (counts !! source_ip).

Definition increment_source_session_count (counts : SourceCounts) (source_ip : IpAddr)
  : SourceCounts :=
  <[source_ip := u64 (default 0 (counts !! source_ip) + 1)]> counts.

(** [decrement_source_session_count] in two halves.  The first holds the
    guard of [get_mut]: a count above 1 goes down and the call is over;
    otherwise the guard is released and the entry is still to be removed. *)
Definition decrement_begin (counts : SourceCounts) (source_ip : IpAddr) : SourceCounts * option IpAddr :=
  match counts !! source_ip with
  | Some count =>
      if 1 <? count then (<[source_ip := count - 1]> counts, None) else (counts, Some source_ip)
  | None => (counts, Some source_ip)
  end.

(** The second is the [remove], whatever the count is by then. *)
Definition decrement_finish (counts : SourceCounts) (removal : option IpAddr) : SourceCounts :=
  match removal with
  | Some source_ip => delete source_ip counts
  | None => counts
  end.

(** The call with nothing in between.  The receive loop's own calls (a rebind)
    can be taken so, because nobody else increments. *)
Definition decrement_source_session_count (counts : SourceCounts) (source_ip : IpAddr)
  : SourceCounts :=
  let '(counts, removal) := decrement_begin counts source_ip in
  decrement_finish counts removal.

Definition update_source_session_count_for_rebind (counts : SourceCounts) (old_ip new_ip : IpAddr)
  : SourceCounts :=
  if bool_decide (old_ip = new_ip) then counts
  else increment_source_session_count (decrement_source_session_count counts old_ip) new_ip.

Definition authenticated_session_source_allowed (session : SessionEntry) (auth_required : bool)
  (addr : SocketAddr) (is_auth_hello : bool) : bool :=
  if negb auth_required || negb (bool_decide (auth_state session = Authenticated)) then true
  else is_auth_hello || bool_decide (client_addr session = addr).

Definition session_lease_is_current (session : SessionEntry) (now_unix : Z) : bool :=
  match lease_expires_at_unix session with
  | None => true
  | Some expires_at => now_unix <? expires_at
  end.

Definition session_auth_is_current (session : SessionEntry) (now_unix : Z) : bool :=
  bool_decide (auth_state session = Authenticated)
  && match lease_expires_at_unix session with
     | Some expires_at => now_unix <? expires_at
     | None => false
     end.

Definition forwarding_addr (sessions : Sessions) (session_id : SessionId) (auth_required : bool)
  (now_unix : Z) : option SocketAddr :=
  match sessions !! session_id with
  | None => None
  | Some session =>
      let current := if auth_required then session_auth_is_current session now_unix
                     else session_lease_is_current session now_unix in
      if current then Some (client_addr session) else None
  end.

Definition v1_session_capacity_available (sessions : Sessions) (counts : SourceCounts)
  (stats : Stats) (source_ip : IpAddr) : Stats * bool :=
  if MAX_SESSIONS_TOTAL <=? Z.of_nat (size sessions) then (drop_in stats Capacity, false)
  else if MAX_SESSIONS_PER_SRC_IP <=? source_session_count counts source_ip
  then (drop_in stats Capacity, false)
  else (stats, true).

Definition derive_user_id (session_id : SessionId) : str :=
  lit "session-" ++ show_hex16 (from_be_bytes session_id).

(* ------------------------------------------------------------------ *)
(** ** The counters are the number of sessions per source address *)

Definition from_ip (ip : IpAddr) (kv : list Z * SessionEntry) : Prop :=
  sock_ip (client_addr kv.2) = ip.

#[export] Instance from_ip_dec ip kv : Decision (from_ip ip kv).
Proof. unfold from_ip. apply _. Defined.

Definition n_sessions (sessions : Sessions) (ip : IpAddr) : Z :=
  Z.of_nat (size (filter (from_ip ip) sessions)).

Lemma n_sessions_insert_new (sessions : Sessions) sid e ip :
  sessions !! sid = None ->
  n_sessions (<[sid := e]> sessions) ip
  = n_sessions sessions ip + (if bool_decide (sock_ip (client_addr e) = ip) then 1 else 0).
Proof.
  intros Hs. unfold n_sessions. case_bool_decide as He.
  - rewrite map_filter_insert_True by exact He.
    rewrite map_size_insert_None by (by apply map_lookup_filter_None; left). lia.
  - rewrite map_filter_insert_not' by (first [exact He | intros y Hy; congruence]). lia.
Qed.

Lemma n_sessions_delete (sessions : Sessions) sid e ip :
  sessions !! sid = Some e ->
  n_sessions (delete sid sessions) ip
  = n_sessions sessions ip - (if bool_decide (sock_ip (client_addr e) = ip) then 1 else 0).
Proof.
  intros Hs.
  pose proof (n_sessions_insert_new (delete sid sessions) sid e ip (lookup_delete_eq _ _)) as H.
  rewrite insert_delete_eq, insert_id in H by assumption. lia.
Qed.

Lemma n_sessions_replace (sessions : Sessions) sid e e' ip :
  sessions !! sid = Some e ->
  n_sessions (<[sid := e']> sessions) ip
  = n_sessions sessions ip
    - (if bool_decide (sock_ip (client_addr e) = ip) then 1 else 0)
    + (if bool_decide (sock_ip (client_addr e') = ip) then 1 else 0).
Proof.
  intros Hs. rewrite <- (n_sessions_delete sessions sid e) by assumption.
  rewrite <- (n_sessions_insert_new _ sid) by apply lookup_delete_eq.
  by rewrite insert_delete_eq.
Qed.

Lemma n_sessions_bound sessions ip : 0 <= n_sessions sessions ip <= Z.of_nat (size sessions).
Proof.
  unfold n_sessions. split; [lia|]. apply Nat2Z.inj_le, map_subseteq_size, map_filter_subseteq.
Qed.

Lemma count_increment counts ip ip' :
  source_session_count (increment_source_session_count counts ip) ip'
  = if bool_decide (ip = ip') then u64 (source_session_count counts ip + 1)
    else source_session_count counts ip'.
Proof.
  unfold source_session_count, increment_source_session_count.
  case_bool_decide as E; [subst; by rewrite lookup_insert_eq | by rewrite lookup_insert_ne].
Qed.

Lemma count_decrement counts ip ip' :
  (forall ip c, counts !! ip = Some c -> 0 < c) ->
  source_session_count (decrement_source_session_count counts ip) ip'
  = if bool_decide (ip = ip') then Z.max 0 (source_session_count counts ip - 1)
    else source_session_count counts ip'.
Proof.
  intros Hp. unfold source_session_count, decrement_source_session_count, decrement_begin.
  destruct (counts !! ip) as [c|] eqn:E.
  - specialize (Hp _ _ E). cbn. destruct (Z.ltb_spec 1 c); case_bool_decide; subst; cbn [decrement_finish].
    + rewrite lookup_insert_eq. cbn. lia.
    + by rewrite lookup_insert_ne.
    + rewrite lookup_delete_eq. cbn. lia.
    + by rewrite lookup_delete_ne.
  - cbn [decrement_finish].
    case_bool_decide; subst; [by rewrite lookup_delete_eq | by rewrite lookup_delete_ne].
Qed.

Lemma decrement_pos counts ip :
  (forall i c, counts !! i = Some c -> 0 < c) ->
  forall i c, decrement_source_session_count counts ip !! i = Some c -> 0 < c.
Proof.
  intros Hp i c. unfold decrement_source_session_count, decrement_begin.
  destruct (counts !! ip) as [k|] eqn:E; [destruct (Z.ltb_spec 1 k)|]; cbn [decrement_finish].
  - intros [[<- <-]|[_ Hc]]%lookup_insert_Some; [lia | eauto].
  - intros [_ Hc]%lookup_delete_Some. eauto.
  - intros [_ Hc]%lookup_delete_Some. eauto.
Qed.

(** The session the cleanup is in the middle of closing, with the address
    whose counter it still has to remove. *)
Abbreviation Closing := (option (list Z * option IpAddr)) (only parsing).

Definition to_remove (closing : Closing) (ip : IpAddr) : Z :=
  match closing with
  | Some (_, Some i) => if bool_decide (i = ip) then 1 else 0
  | _ => 0
  end.

(** How far the counters can be trusted: [Loose] in any interleaving, [Exact]
    as long as the receive loop does nothing between the halves of a closing,
    [Still] where moreover no closing is under way. *)
Inductive Counting : Type := Loose | Exact | Still.
Existing Class Counting.

Record counts_inv (mode : Counting) (closing : Closing) (sessions : Sessions) (counts : SourceCounts)
  : Prop := {
  ci_le : forall ip, source_session_count counts ip <= n_sessions sessions ip + to_remove closing ip;
  ci_pos : forall ip c, counts !! ip = Some c -> 0 < c;
  ci_eq : mode <> Loose ->
    forall ip, source_session_count counts ip = n_sessions sessions ip + to_remove closing ip;
  ci_last : mode <> Loose -> forall sid ip, closing = Some (sid, Some ip) -> n_sessions sessions ip = 0;
  ci_still : mode = Still -> closing = None;
}.

Lemma to_remove_bound closing ip : 0 <= to_remove closing ip <= 1.
Proof. destruct closing as [[sid [i|]]|]; cbn; [case_bool_decide|..]; lia. Qed.

Lemma source_count_nonneg counts ip :
  (forall i c, counts !! i = Some c -> 0 < c) -> 0 <= source_session_count counts ip.
Proof.
  intros Hp. unfold source_session_count. destruct (counts !! ip) as [c|] eqn:E; cbn; [|lia].
  specialize (Hp _ _ E). lia.
Qed.

Lemma counts_inv_still closing sessions counts :
  counts_inv Still closing sessions counts <-> counts_inv Exact closing sessions counts /\ closing = None.
Proof.
  split.
  - intros [H1 H2 H3 H4 H5]. split; [|by apply H5]. constructor; try assumption; [..|discriminate]; intros _.
    + by apply H3.
    + by apply H4.
  - intros [[H1 H2 H3 H4 H5] ->]. constructor; try assumption; [..|done]; intros _.
    + by apply H3.
    + by apply H4.
Qed.

Lemma counts_inv_exact closing sessions counts :
  counts_inv Exact closing sessions counts -> counts_inv Loose closing sessions counts.
Proof. intros [H1 H2 H3 H4 H5]. by constructor. Qed.

Section Counting.
Context (mode : Counting) (closing : Closing) (sessions : Sessions) (counts : SourceCounts).
Hypothesis Hsize : Z.of_nat (size sessions) <= MAX_SESSIONS_TOTAL.
Hypothesis Hok : counts_inv mode closing sessions counts.

(** Outside [Exact], equality means that nothing is being removed. *)
Lemma counting_still : mode <> Exact -> mode <> Loose -> closing = None.
Proof. intros H1 H2. apply (ci_still _ _ _ _ Hok). by destruct mode. Qed.

Lemma counts_inv_open sid e :
  mode <> Exact -> sessions !! sid = None ->
  counts_inv mode closing (<[sid := e]> sessions)
    (increment_source_session_count counts (sock_ip (client_addr e))).
Proof.
  intros Hm Hs. destruct Hok as [Hc Hp He _ Hst].
  assert (forall ip, u64 (source_session_count counts ip + 1) = source_session_count counts ip + 1)
    as Hu.
  { intros ip. pose proof (source_count_nonneg counts ip Hp). specialize (Hc ip).
    pose proof (n_sessions_bound sessions ip). pose proof (to_remove_bound closing ip).
    unfold MAX_SESSIONS_TOTAL in Hsize. apply wrap_small. unfold in_width. lia. }
  constructor; [| | | |exact Hst].
  - intros ip. rewrite count_increment, n_sessions_insert_new, Hu by assumption. specialize (Hc ip).
    case_bool_decide; subst; lia.
  - intros ip c. unfold increment_source_session_count.
    intros [[_ <-]|[_ H]]%lookup_insert_Some; [|eauto].
    change (0 < u64 (source_session_count counts (sock_ip (client_addr e)) + 1)).
    rewrite Hu. pose proof (source_count_nonneg counts (sock_ip (client_addr e)) Hp). lia.
  - intros Hl ip. rewrite count_increment, n_sessions_insert_new, Hu by assumption. specialize (He Hl ip).
    case_bool_decide; subst; lia.
  - intros Hl s ip E. rewrite (counting_still Hm Hl) in E. discriminate.
Qed.

(** Taking a session off its address in one go. *)
Lemma counts_inv_leave sid e :
  mode <> Exact -> sessions !! sid = Some e ->
  counts_inv mode closing (delete sid sessions)
    (decrement_source_session_count counts (sock_ip (client_addr e))).
Proof.
  intros Hm Hs. destruct Hok as [Hc Hp He _ Hst].
  assert (forall ip, 0 <= n_sessions (delete sid sessions) ip) as Hb
    by (intros ip; apply (n_sessions_bound (delete sid sessions) ip)).
  constructor; [|by apply decrement_pos| | |exact Hst].
  - intros ip. specialize (Hb ip). revert Hb.
    rewrite count_decrement, (n_sessions_delete _ sid e) by assumption.
    pose proof (to_remove_bound closing ip). specialize (Hc ip). case_bool_decide; subst; lia.
  - intros Hl ip. specialize (Hb ip). revert Hb.
    rewrite count_decrement, (n_sessions_delete _ sid e) by assumption. specialize (He Hl ip).
    rewrite (counting_still Hm Hl) in *. cbn in *. case_bool_decide; subst; lia.
  - intros Hl s ip E. rewrite (counting_still Hm Hl) in E. discriminate.
Qed.

Lemma counts_inv_update sid e e' :
  sessions !! sid = Some e -> sock_ip (client_addr e') = sock_ip (client_addr e) ->
  counts_inv mode closing (<[sid := e']> sessions) counts.
Proof.
  intros Hs E. destruct Hok as [Hc Hp He Hl Hst].
  assert (forall ip, n_sessions (<[sid := e']> sessions) ip = n_sessions sessions ip) as En.
  { intros ip. rewrite (n_sessions_replace _ sid e), E by assumption. lia. }
  constructor; [| exact Hp | | | exact Hst].
  - intros ip. by rewrite En.
  - intros Hm ip. rewrite En. by apply He.
  - intros Hm s ip. rewrite En. by apply Hl.
Qed.

(** The first half of closing a session. *)
Lemma counts_inv_close_begin sid e c removal :
  mode <> Still -> closing = None -> sessions !! sid = Some e ->
  decrement_begin counts (sock_ip (client_addr e)) = (c, removal) ->
  counts_inv mode (Some (sid, removal)) (delete sid sessions) c.
Proof.
  intros Hm Hn Hs E. destruct Hok as [Hc Hp He _ _]. rewrite Hn in Hc, He. clear Hok.
  set (a := sock_ip (client_addr e)) in *. cbn in Hc, He.
  assert (forall ip, 0 <= n_sessions (delete sid sessions) ip) as Hb
    by (intros ip; apply (n_sessions_bound (delete sid sessions) ip)).
  assert (forall ip, n_sessions (delete sid sessions) ip
            = n_sessions sessions ip - (if bool_decide (a = ip) then 1 else 0)) as En.
  { intros ip. by apply n_sessions_delete. }
  unfold decrement_begin in E. destruct (counts !! a) as [k|] eqn:Ek; [destruct (Z.ltb_spec 1 k)|];
    injection E as <- <-.
  - assert (forall ip, source_session_count (<[a := k - 1]> counts) ip
              = source_session_count counts ip - (if bool_decide (a = ip) then 1 else 0)) as Ec.
    { intros ip. unfold source_session_count.
      case_bool_decide as Hi; [subst ip; rewrite lookup_insert_eq, Ek; cbn; lia | rewrite lookup_insert_ne by done; lia]. }
    constructor; [| | | |done].
    + intros ip. rewrite Ec, En. cbn. specialize (Hc ip). lia.
    + intros ip x [[<- <-]|[_ Hx]]%lookup_insert_Some; [lia | eauto].
    + intros Hl ip. rewrite Ec, En. cbn. specialize (He Hl ip). lia.
    + intros _ s ip [=].
  - assert (k = 1) as -> by (specialize (Hp _ _ Ek); lia).
    assert (source_session_count counts a = 1) as E1 by (unfold source_session_count; by rewrite Ek).
    constructor; [| exact Hp | | |done].
    + intros ip. specialize (Hb ip). rewrite En in *. cbn. specialize (Hc ip). case_bool_decide; subst; lia.
    + intros Hl ip. rewrite En. cbn. specialize (He Hl ip). case_bool_decide; subst; lia.
    + intros Hl s ip [= <- <-]. rewrite En, bool_decide_true by done. specialize (He Hl a). lia.
  - assert (source_session_count counts a = 0) as E0 by (unfold source_session_count; by rewrite Ek).
    assert (mode <> Loose -> False) as Hno.
    { intros Hl. specialize (He Hl a). specialize (Hb a). rewrite En, bool_decide_true in Hb by done. lia. }
    constructor; [| exact Hp | by intros | by intros | done].
    intros ip. specialize (Hb ip). rewrite En in *. cbn. specialize (Hc ip). case_bool_decide; subst; lia.
Qed.

(** The second half. *)
Lemma counts_inv_close_finish sid removal :
  closing = Some (sid, removal) -> counts_inv mode None sessions (decrement_finish counts removal).
Proof.
  intros E. destruct Hok as [Hc Hp He Hl Hst]. rewrite E in Hc, He, Hl, Hst. clear Hok.
  destruct removal as [a|]; cbn [decrement_finish] in *; [|by constructor].
  assert (forall ip, source_session_count (delete a counts) ip
            = if bool_decide (a = ip) then 0 else source_session_count counts ip) as Ec.
  { intros ip. unfold source_session_count.
    case_bool_decide as Hi; [subst ip; by rewrite lookup_delete_eq | by rewrite lookup_delete_ne]. }
  constructor; [| | | |done].
  - intros ip. rewrite Ec. cbn. specialize (Hc ip). cbn in Hc. pose proof (n_sessions_bound sessions ip).
    revert Hc. case_bool_decide; subst; lia.
  - intros ip c [_ Hx]%lookup_delete_Some. eauto.
  - intros Hm ip. rewrite Ec. cbn. specialize (He Hm ip). cbn in He. revert He. case_bool_decide; [|lia].
    subst ip. intros _. rewrite (Hl Hm sid a eq_refl). lia.
  - intros _ s ip [=].
Qed.

End Counting.

Lemma counts_inv_rebind (mode : Counting) (closing : Closing) (sessions : Sessions) (counts : SourceCounts) sid (e e' : SessionEntry) :
  mode <> Exact -> Z.of_nat (size sessions) <= MAX_SESSIONS_TOTAL ->
  counts_inv mode closing sessions counts -> sessions !! sid = Some e ->
  counts_inv mode closing (<[sid := e']> sessions)
    (update_source_session_count_for_rebind counts (sock_ip (client_addr e))
       (sock_ip (client_addr e'))).
Proof.
  intros Hm Hsize Hok Hs. unfold update_source_session_count_for_rebind.
  case_bool_decide as E; [eapply counts_inv_update; eauto|].
  rewrite <- (insert_delete_eq sessions).
  apply counts_inv_open; [|by eapply counts_inv_leave | exact Hm | apply lookup_delete_eq].
  rewrite map_size_delete, Hs. cbn. lia.
Qed.

(** A session's own address decides where responses go: only a session in the
    table, with a current lease, has a forwarding address, and it is the
    session's present address. *)
Lemma forwarding_addr_inv sessions sid auth_required now a :
  forwarding_addr sessions sid auth_required now = Some a ->
  exists e, sessions !! sid = Some e /\ client_addr e = a
    /\ (forall t, lease_expires_at_unix e = Some t -> now < t)
    /\ (auth_required = true ->
        auth_state e = Authenticated /\ is_Some (lease_expires_at_unix e)).
Proof.
  unfold forwarding_addr. destruct (sessions !! sid) as [e|]; [|discriminate].
  intros H. exists e. unfold session_auth_is_current, session_lease_is_current in H.
  destruct auth_required; [destruct (bool_decide_reflect (auth_state e = Authenticated))|];
    destruct (lease_expires_at_unix e) as [t|] eqn:El; cbn in H; try discriminate;
    try (destruct (Z.ltb_spec now t); [|discriminate]); injection H as <-;
    (split; [reflexivity|]); (split; [reflexivity|]); split.
  all: try (intros t' E; injection E as <-; assumption).
  all: try discriminate; try (by split).
Qed.
