(* ===== verification/RateLimit.v ===== *)
(** * Per-source rate limiting (src/main.rs: [SourceRateState],
    [SourceRateLimiter], [PendingAuthLimiter], [allow_source_event])

    A fixed one-second window per source address, a table of windows that is
    pruned lazily, and the fixed-size table used before a signature is
    checked. *)

From S2P Require Import Prelude Net Stats Sessions.

Definition SOURCE_RATE_WINDOW : Z := secs 1.
Definition SOURCE_RATE_PRUNE_INTERVAL : Z := secs 30.
Definition SOURCE_RATE_IDLE_TTL : Z := secs 120.
Definition MAX_PACKETS_PER_SOURCE_WINDOW : Z := 50000.
Definition MAX_NEW_SESSIONS_PER_SOURCE_WINDOW : Z := 256.
Definition MAX_NEW_FLOWS_PER_SOURCE_WINDOW : Z := 4096.

Inductive SourceLimitKind : Type := Packet | NewSession | NewFlow.

#[export] Instance SourceLimitKind_eq_dec : EqDecision SourceLimitKind.
Proof. solve_decision. Defined.

Record SourceRateState : Type := MkRate {
  window_start : Z;
  packets : Z;
  new_sessions : Z;
  new_flows : Z;
}.
#[global] Instance eta_SourceRateState : Eta SourceRateState := fun s =>
  MkRate (window_start s) (packets s) (new_sessions s) (new_flows s).

Definition rate_new (now : Z) : SourceRateState := MkRate now 0 0 0.

Definition rate_allow (self : SourceRateState) (kind : SourceLimitKind) (now : Z)
  : SourceRateState * bool :=
  let self := if SOURCE_RATE_WINDOW <=? duration_since now (window_start self)
              then rate_new now else self in
  match kind with
  | Packet =>
      if MAX_PACKETS_PER_SOURCE_WINDOW <=? packets self then (self, false)
      else (self <| packets ::= fun n => u32 (n + 1) |>, true)
  | NewSession =>
      if MAX_NEW_SESSIONS_PER_SOURCE_WINDOW <=? new_sessions self then (self, false)
      else (self <| new_sessions ::= fun n => u32 (n + 1) |>, true)
  | NewFlow =>
      if MAX_NEW_FLOWS_PER_SOURCE_WINDOW <=? new_flows self then (self, false)
      else (self <| new_flows ::= fun n => u32 (n + 1) |>, true)
  end.

Record SourceRateLimiter : Type := MkLimiter {
  sources : gmap IpAddr SourceRateState;
  created_at : Z;
  last_prune_ms : Z;
}.

(** [duration.as_millis().min(u64::MAX)]. *)
Definition duration_millis_u64 (duration : Z) : Z := Z.min (duration / 1000000) u64_max.

Definition limiter_new (now : Z) : SourceRateLimiter := MkLimiter ∅ now 0.

(** Not yet idle for [SOURCE_RATE_IDLE_TTL]. *)
Definition recent (now : Z) (kv : IpAddr * SourceRateState) : Prop :=
  duration_since now (window_start kv.2) < SOURCE_RATE_IDLE_TTL.

#[export] Instance recent_dec now kv : Decision (recent now kv).
Proof. unfold recent. apply _. Defined.

(** [prune_idle]; the compare-exchange can only fail under a concurrent
    prune, which does the same work. *)
Definition prune_idle (self : SourceRateLimiter) (now : Z) : SourceRateLimiter :=
  let now_ms := duration_millis_u64 (duration_since now (created_at self)) in
  if sat_sub now_ms (last_prune_ms self) <? duration_millis_u64 SOURCE_RATE_PRUNE_INTERVAL
  then self
  else MkLimiter (filter (recent now) (sources self)) (created_at self) now_ms.

Definition limiter_allow (self : SourceRateLimiter) (ip : IpAddr) (kind : SourceLimitKind)
  (now : Z) : SourceRateLimiter * bool :=
  let self := prune_idle self now in
  if negb (bool_decide (is_Some (sources self !! ip)))
     && (MAX_SESSIONS_TOTAL <=? Z.of_nat (size (sources self)))
  then (self, false)
  else
    let '(st, ok) := rate_allow (default (rate_new now) (sources self !! ip)) kind now in
    (MkLimiter (<[ip := st]> (sources self)) (created_at self) (last_prune_ms self), ok).

Definition allow_source_event (limiter : SourceRateLimiter) (stats : Stats) (addr : SocketAddr)
  (kind : SourceLimitKind) (now : Z) : SourceRateLimiter * Stats * bool :=
  let '(limiter, ok) := limiter_allow limiter (sock_ip addr) kind now in
  if ok then (limiter, stats, true)
  else (limiter, drop_in (stats <| throttled_users ::= fetch_add 1 |>) RateLimit, false).

(** [PendingAuthLimiter]: 4096 buckets; the hash of an address is random per
    process and stays a parameter. *)
Section Pending.
Context (hash_one : IpAddr -> Z).

Definition pending_new (now : Z) : list SourceRateState := replicate (Z.to_nat 4096) (rate_new now).

Definition pending_allow (buckets : list SourceRateState) (ip : IpAddr) (now : Z)
  : outcome (list SourceRateState * bool) :=
  let index := Z.to_nat (hash_one ip mod Z.of_nat (length buckets)) in
  let* bucket := rd buckets index in
  let '(st, ok) := rate_allow bucket NewSession now in
  let* buckets := wr buckets index st in
  Ret (buckets, ok).

End Pending.

(* ------------------------------------------------------------------ *)
(** ** One window *)

Definition kind_max (k : SourceLimitKind) : Z :=
  match k with
  | Packet => MAX_PACKETS_PER_SOURCE_WINDOW
  | NewSession => MAX_NEW_SESSIONS_PER_SOURCE_WINDOW
  | NewFlow => MAX_NEW_FLOWS_PER_SOURCE_WINDOW
  end.

Definition kind_count (s : SourceRateState) (k : SourceLimitKind) : Z :=
  match k with
  | Packet => packets s
  | NewSession => new_sessions s
  | NewFlow => new_flows s
  end.

Definition rate_ok (s : SourceRateState) : Prop := forall k, 0 <= kind_count s k <= kind_max k.

Definition expired (s : SourceRateState) (now : Z) : bool :=
  SOURCE_RATE_WINDOW <=? duration_since now (window_start s).

Definition current (s : SourceRateState) (now : Z) : SourceRateState :=
  if expired s now then rate_new now else s.

Lemma rate_new_ok now : rate_ok (rate_new now).
Proof. intros []; split; vm_compute; congruence. Qed.

Lemma current_ok s now : rate_ok s -> rate_ok (current s now).
Proof. unfold current. destruct (expired s now); auto using rate_new_ok. Qed.

(** The whole behaviour of [allow] in terms of the counter of its kind. *)
Lemma rate_allow_spec s k now :
  rate_ok s ->
  let c := current s now in
  let '(s', b) := rate_allow s k now in
  b = (kind_count c k <? kind_max k)
  /\ window_start s' = window_start c
  /\ rate_ok s'
  /\ (forall j, kind_count s' j = kind_count c j + if b && bool_decide (j = k) then 1 else 0).
Proof.
  intros Hok c. pose proof (current_ok s now Hok) as Hc. fold c in Hc.
  pose proof (Hc k) as Hk. unfold rate_allow. fold (expired s now). fold (current s now). fold c.
  assert (0 <= kind_count c k -> kind_count c k < kind_max k ->
          u32 (kind_count c k + 1) = kind_count c k + 1) as Hu.
  { intros. apply wrap_small. assert (kind_max k <= 50000) by (destruct k; vm_compute; congruence).
    unfold in_width. lia. }
  destruct k; cbn [kind_count kind_max] in *;
    match goal with |- context [?m <=? ?n] =>
      destruct (Z.leb_spec m n) as [Hle|Hlt];
      [rewrite (proj2 (Z.ltb_ge n m) Hle) | rewrite (proj2 (Z.ltb_lt n m) Hlt)]
    end.
  all: split; [reflexivity|]; split; [reflexivity|].
  all: try (split; [exact Hc | intros j; cbn [andb]; lia]).
  all: rewrite ?Hu by lia.
  all: split; intros j; specialize (Hc j); destruct j; cbn in *; rewrite ?Hu by lia; try lia.
  all: case_bool_decide; (congruence || lia).
Qed.

(** Rewriting form. *)
Lemma rate_allow_eq s k now :
  rate_ok s ->
  exists s' b, rate_allow s k now = (s', b)
    /\ b = (kind_count (current s now) k <? kind_max k)
    /\ window_start s' = window_start (current s now) /\ rate_ok s'
    /\ (forall j, kind_count s' j
                 = kind_count (current s now) j + if b && bool_decide (j = k) then 1 else 0).
Proof.
  intros Hok. pose proof (rate_allow_spec s k now Hok) as H. cbv zeta in H.
  destruct (rate_allow s k now) as [s' b]. eauto 10.
Qed.

(* ------------------------------------------------------------------ *)
(** ** Bursts *)

(** The answers of one source's window to a sequence of events. *)
Fixpoint rate_run (s : SourceRateState) (evs : list (SourceLimitKind * Z)) : list bool :=
  match evs with
  | [] => []
  | (k, now) :: rest => let '(s', b) := rate_allow s k now in b :: rate_run s' rest
  end.

(** Accepted events of kind [k] in the second that starts at [t]. *)
Fixpoint accepted_in (k : SourceLimitKind) (t : Z) (evs : list (SourceLimitKind * Z))
  (answers : list bool) : Z :=
  match evs, answers with
  | (j, now) :: evs, b :: answers =>
      (if b && bool_decide (j = k) && (t <=? now) && (now <? t + SOURCE_RATE_WINDOW) then 1 else 0)
      + accepted_in k t evs answers
  | _, _ => 0
  end.

(** The clock does not go backwards. *)
Fixpoint ordered (from : Z) (evs : list (SourceLimitKind * Z)) : Prop :=
  match evs with
  | [] => True
  | (_, now) :: rest => from <= now /\ ordered now rest
  end.

Lemma accepted_late k t from evs answers :
  ordered from evs -> t + SOURCE_RATE_WINDOW <= from -> accepted_in k t evs answers = 0.
Proof.
  revert from answers. induction evs as [|[j now] evs IH]; intros from answers Ho Hf; [done|].
  destruct answers as [|b answers]; [done|]. cbn in Ho |- *. destruct Ho as [Hle Ho].
  rewrite (proj2 (Z.ltb_ge now _)), andb_false_r by lia. rewrite (IH now); [done..|lia].
Qed.

(** Within a window that began at or after [t] only the remaining allowance
    can still be accepted before [t + 1 s]. *)
Lemma accepted_one_window k t from s evs :
  rate_ok s -> ordered from evs -> t <= window_start s ->
  accepted_in k t evs (rate_run s evs) <= kind_max k - kind_count s k.
Proof.
  revert s from. induction evs as [|[j now] evs IH]; intros s from Hok Ho Ht.
  { cbn. specialize (Hok k). lia. }
  cbn [rate_run]. destruct (rate_allow_eq s j now Hok) as (s' & b & -> & Eb & Ew & Hok' & Hk).
  cbn in Ho |- *. destruct Ho as [Hle Ho].
  destruct (expired s now) eqn:Ex.
  - assert (t + SOURCE_RATE_WINDOW <= now) as Hlate.
    { unfold expired in Ex. apply Z.leb_le in Ex. unfold duration_since in Ex.
      assert (0 < SOURCE_RATE_WINDOW) by reflexivity. lia. }
    rewrite (proj2 (Z.ltb_ge now _)), andb_false_r by lia.
    rewrite (accepted_late k t now) by (assumption || lia). specialize (Hok k). lia.
  - unfold current in *. rewrite Ex in *.
    specialize (IH s' now Hok' Ho ltac:(lia)). rewrite Hk in IH.
    destruct b, (bool_decide_reflect (k = j)), (bool_decide_reflect (j = k)); cbn [andb] in *;
      try congruence; repeat case_match; lia.
Qed.

(** C33: bursts are bounded: with a clock that does not go backwards, in any
    one-second interval a source gets at most twice the per-window maximum
    of each kind accepted (the rest of one window and one full window),
    whatever the window's state was and however the kinds are mixed. *)
Theorem rate_burst_bound (k : SourceLimitKind) (t from : Z) (s : SourceRateState)
  (evs : list (SourceLimitKind * Z)) :
  rate_ok s -> ordered from evs ->
  accepted_in k t evs (rate_run s evs) <= 2 * kind_max k.
Proof.
  assert (forall evs s from, rate_ok s -> ordered from evs -> t <= from ->
    accepted_in k t evs (rate_run s evs) <= kind_max k - kind_count s k + kind_max k) as HB.
  { clear. induction evs as [|[j now] evs IH]; intros s from Hok Ho Ht.
    { cbn. specialize (Hok k). lia. }
    cbn [rate_run]. destruct (rate_allow_eq s j now Hok) as (s' & b & -> & Eb & Ew & Hok' & Hk).
    cbn in Ho |- *. destruct Ho as [Hle Ho]. unfold current in *.
    destruct (expired s now) eqn:Ex.
    - pose proof (accepted_one_window k t now s' evs Hok' Ho ltac:(cbn in Ew; lia)) as Hw.
      rewrite Hk in Hw. specialize (Hok k). replace (kind_count (rate_new now) k) with 0 in Hw
        by (destruct k; reflexivity).
      destruct b, (bool_decide_reflect (k = j)), (bool_decide_reflect (j = k)); cbn [andb] in *;
        try congruence; repeat case_match; lia.
    - specialize (IH s' now Hok' Ho ltac:(lia)). rewrite Hk in IH.
      destruct b, (bool_decide_reflect (k = j)), (bool_decide_reflect (j = k)); cbn [andb] in *;
        try congruence; repeat case_match; lia. }
  revert s from. induction evs as [|[j now] evs IH]; intros s from Hok Ho.
  { specialize (Hok k). cbn. lia. }
  destruct (Z.le_gt_cases t now) as [Hle|Hgt].
  - pose proof (HB ((j, now) :: evs) s now Hok) as H. specialize (Hok k).
    cbn [ordered] in *. specialize (H ltac:(split; [lia|apply Ho]) Hle). lia.
  - cbn [rate_run]. destruct (rate_allow_eq s j now Hok) as (s' & b & -> & _ & _ & Hok' & _).
    cbn. rewrite (proj2 (Z.leb_gt t now)), andb_false_r by lia. cbn [andb].
    apply (IH s' now Hok'). apply Ho.
Qed.

Lemma rate_burst_bound_witness :
  accepted_in NewSession 0 [(NewSession, 0); (NewSession, millis 1)]
    (rate_run (rate_new 0) [(NewSession, 0); (NewSession, millis 1)]) <= 2 * 256.
Proof.
  apply (rate_burst_bound NewSession 0 0 (rate_new 0) [(NewSession, 0); (NewSession, millis 1)]).
  - apply rate_new_ok.
  - unfold millis. cbn. lia.
Defined.

(** The window itself never admits more than its maximum: the counters never
    pass it, so the [u32] additions cannot overflow. *)
Lemma rate_run_ok s evs :
  rate_ok s -> rate_ok (fold_left (fun s e => (rate_allow s e.1 e.2).1) evs s).
Proof.
  revert s. induction evs as [|[k now] evs IH]; intros s Hok; [exact Hok|]. cbn [fold_left fst snd].
  apply IH. destruct (rate_allow_eq s k now Hok) as (s' & b & -> & _ & _ & Hok' & _). exact Hok'.
Qed.

(* ------------------------------------------------------------------ *)
(** ** The table of windows *)

#[local] Set Warnings "-clear-no-such-hyp".

Abbreviation Event := (IpAddr * SourceLimitKind * Z)%type (only parsing).

Fixpoint limiter_run (l : SourceRateLimiter) (evs : list Event) : list bool :=
  match evs with
  | [] => []
  | (ip, k, now) :: rest => let '(l', b) := limiter_allow l ip k now in b :: limiter_run l' rest
  end.

(** The specification: one window per source, kept for ever. *)
Definition ref_allow (m : gmap IpAddr SourceRateState) (ip : IpAddr) (k : SourceLimitKind)
  (now : Z) : gmap IpAddr SourceRateState * bool :=
  let '(st, b) := rate_allow (default (rate_new now) (m !! ip)) k now in (<[ip := st]> m, b).

Fixpoint ref_run (m : gmap IpAddr SourceRateState) (evs : list Event) : list bool :=
  match evs with
  | [] => []
  | (ip, k, now) :: rest => let '(m', b) := ref_allow m ip k now in b :: ref_run m' rest
  end.

Fixpoint events_ordered (from : Z) (evs : list Event) : Prop :=
  match evs with
  | [] => True
  | (_, _, now) :: rest => from <= now /\ events_ordered now rest
  end.

(** The pruned table agrees with the full one, except for windows idle since
    [SOURCE_RATE_IDLE_TTL] at [last]. *)
Definition pruned_of (last : Z) (real ref : gmap IpAddr SourceRateState) : Prop :=
  forall ip, match real !! ip, ref !! ip with
             | Some a, Some b => a = b
             | None, Some b => SOURCE_RATE_IDLE_TTL <= duration_since last (window_start b)
             | None, None => True
             | Some _, None => False
             end.

Lemma pruned_of_filter last now real ref :
  last <= now -> pruned_of last real ref -> pruned_of now (filter (recent now) real) ref.
Proof.
  intros Hle H ip. specialize (H ip). rewrite map_lookup_filter.
  destruct (real !! ip) as [a|], (ref !! ip) as [b|]; cbn; try done.
  - subst b. destruct (decide (recent now (ip, a))) as [Hr|Hr]; rewrite ?option_guard_True,
      ?option_guard_False by assumption; [done|]. unfold recent in Hr. cbn in *. lia.
  - unfold duration_since in *. lia.
Qed.

Lemma pruned_of_later last now real ref :
  last <= now -> pruned_of last real ref -> pruned_of now real ref.
Proof.
  intros Hle H ip. specialize (H ip).
  destruct (real !! ip), (ref !! ip); try done. unfold duration_since in *. lia.
Qed.

Lemma pruned_of_prune last now l ref :
  last <= now -> pruned_of last (sources l) ref -> pruned_of now (sources (prune_idle l now)) ref.
Proof.
  intros Hle H. unfold prune_idle. destruct (_ <? _);
    [by eapply pruned_of_later | by eapply pruned_of_filter].
Qed.

(** An idle window answers like a fresh one. *)
Lemma idle_is_fresh s k now :
  SOURCE_RATE_IDLE_TTL <= duration_since now (window_start s) ->
  rate_allow s k now = rate_allow (rate_new now) k now.
Proof.
  intros H. unfold rate_allow.
  assert (SOURCE_RATE_WINDOW <= SOURCE_RATE_IDLE_TTL) by (vm_compute; congruence).
  rewrite (proj2 (Z.leb_le SOURCE_RATE_WINDOW (duration_since now (window_start s)))) by lia.
  assert (duration_since now (window_start (rate_new now)) = 0) as ->
    by (unfold duration_since; cbn; lia). reflexivity.
Qed.

Lemma pruned_of_insert now real ref ip st :
  pruned_of now real ref -> pruned_of now (<[ip := st]> real) (<[ip := st]> ref).
Proof.
  intros H jp. destruct (decide (ip = jp)) as [->|]; [by rewrite !lookup_insert_eq|].
  rewrite !lookup_insert_ne by assumption. apply H.
Qed.

Lemma prune_idle_subset l now : sources (prune_idle l now) ⊆ sources l.
Proof.
  unfold prune_idle. destruct (_ <? _); [done|]. apply map_filter_subseteq.
Qed.

(** The source is new and the table holds as many as it may. *)
Definition table_full (l : SourceRateLimiter) (ip : IpAddr) (now : Z) : bool :=
  let l := prune_idle l now in
  negb (bool_decide (is_Some (sources l !! ip))) && (MAX_SESSIONS_TOTAL <=? Z.of_nat (size (sources l))).

(** For each event whether it is turned away because of that. *)
Fixpoint turned_away (l : SourceRateLimiter) (evs : list Event) : list bool :=
  match evs with
  | [] => []
  | (ip, k, now) :: rest => table_full l ip now :: turned_away (limiter_allow l ip k now).1 rest
  end.

(** The reference on the other events. *)
Fixpoint ref_run_but (ref : gmap IpAddr SourceRateState) (evs : list Event) (away : list bool) : list bool :=
  match evs, away with
  | (ip, k, now) :: rest, a :: away =>
      if a then false :: ref_run_but ref rest away
      else let '(ref', b) := ref_allow ref ip k now in b :: ref_run_but ref' rest away
  | _, _ => []
  end.

Lemma limiter_step last l ref ip k now :
  last <= now -> pruned_of last (sources l) ref ->
  let '(l', b) := limiter_allow l ip k now in
  dom (sources l') ⊆ dom (sources l) ∪ {[ip]} /\
  if table_full l ip now then b = false /\ pruned_of now (sources l') ref
  else let '(ref', b') := ref_allow ref ip k now in b = b' /\ pruned_of now (sources l') ref'.
Proof.
  intros Hle Hp. unfold limiter_allow, ref_allow, table_full.
  pose proof (pruned_of_prune last now l ref Hle Hp) as Hp'.
  pose proof (prune_idle_subset l now) as Hsub. apply subseteq_dom in Hsub.
  set (l1 := prune_idle l now) in *. destruct (_ && _); [split; [set_solver | done]|].
  assert (rate_allow (default (rate_new now) (sources l1 !! ip)) k now
          = rate_allow (default (rate_new now) (ref !! ip)) k now) as ->.
  { specialize (Hp' ip). destruct (sources l1 !! ip) as [a|], (ref !! ip) as [b|]; cbn; try done.
    - by subst.
    - symmetry. by apply idle_is_fresh. }
  destruct (rate_allow _ k now) as [st b]. cbn. rewrite dom_insert. split; [set_solver|].
  split; [done | by apply pruned_of_insert].
Qed.

Lemma not_full l ip now :
  Z.of_nat (size (dom (sources l) ∪ {[ip]})) <= MAX_SESSIONS_TOTAL -> table_full l ip now = false.
Proof.
  intros Hsz. unfold table_full. pose proof (prune_idle_subset l now) as Hsub. apply subseteq_dom in Hsub.
  set (l1 := prune_idle l now) in *.
  destruct (bool_decide_reflect (is_Some (sources l1 !! ip))) as [|Hno]; [done|]. cbn.
  apply Z.leb_gt. rewrite <- size_dom.
  assert (ip ∉ dom (sources l1)) by (rewrite elem_of_dom; assumption).
  assert (size (dom (sources l1) ∪ {[ip]}) <= size (dom (sources l) ∪ {[ip]}))%nat
    by (apply subseteq_size; set_solver).
  rewrite size_union, size_singleton in H0 by set_solver. lia.
Qed.

Lemma limiter_run_refines evs : forall l ref last,
  events_ordered last evs -> pruned_of last (sources l) ref ->
  limiter_run l evs = ref_run_but ref evs (turned_away l evs).
Proof.
  induction evs as [|[[ip k] now] evs IH]; intros l ref last Ho Hp; [done|].
  cbn [limiter_run ref_run_but turned_away events_ordered] in *.
  pose proof (limiter_step last l ref ip k now (proj1 Ho) Hp) as Hs.
  destruct (limiter_allow l ip k now) as [l' b]. cbn [fst]. destruct Hs as [_ Hs].
  destruct (table_full l ip now).
  - destruct Hs as [-> Hp']. f_equal. by apply (IH l' ref now (proj2 Ho)).
  - destruct (ref_allow ref ip k now) as [ref' b']. destruct Hs as [-> Hp']. f_equal.
    by apply (IH l' ref' now (proj2 Ho)).
Qed.

Lemma none_turned_away evs : forall l (S : gset IpAddr),
  dom (sources l) ∪ list_to_set (List.map (fun e => e.1.1) evs) ⊆ S ->
  Z.of_nat (size S) <= MAX_SESSIONS_TOTAL ->
  turned_away l evs = replicate (length evs) false.
Proof.
  induction evs as [|[[ip k] now] evs IH]; intros l S Hsub Hsz; [done|].
  cbn [turned_away List.map list_to_set fst length replicate] in *. f_equal.
  - apply not_full. etransitivity; [|exact Hsz]. apply Nat2Z.inj_le, subseteq_size. set_solver.
  - apply (IH _ S); [|exact Hsz].
    assert (dom (sources (limiter_allow l ip k now).1) ⊆ dom (sources l) ∪ {[ip]}); [|set_solver].
    pose proof (prune_idle_subset l now) as Hd. apply subseteq_dom in Hd.
    unfold limiter_allow. destruct (_ && _); [set_solver|].
    destruct (rate_allow _ k now) as [st b]. cbn. rewrite dom_insert. set_solver.
Qed.

Lemma ref_run_but_none evs : forall ref, ref_run_but ref evs (replicate (length evs) false) = ref_run ref evs.
Proof.
  induction evs as [|[[ip k] now] evs IH]; intros ref; [done|]. cbn.
  destruct (ref_allow ref ip k now). by rewrite IH.
Qed.

(** C34: pruning is unobservable: with a clock that does not go backwards the
    limiter that forgets idle sources gives exactly the answers of one that
    keeps every source's window for ever, except that it turns away a new
    source while its table holds 65536 of them, and those events do not count
    for the source; with at most 65536 distinct sources no event is turned
    away. *)
Theorem limiter_refines_unpruned (start : Z) (evs : list Event) :
  events_ordered start evs ->
  let away := turned_away (limiter_new start) evs in
  limiter_run (limiter_new start) evs = ref_run_but ∅ evs away
  /\ (Z.of_nat (size (list_to_set (C := gset IpAddr) (List.map (fun e => e.1.1) evs))) <= MAX_SESSIONS_TOTAL ->
      limiter_run (limiter_new start) evs = ref_run ∅ evs).
Proof.
  intros Ho away.
  assert (limiter_run (limiter_new start) evs = ref_run_but ∅ evs away) as E.
  { apply (limiter_run_refines evs _ _ start Ho). intros ip. cbn. by rewrite !lookup_empty. }
  split; [exact E|]. intros Hsz. rewrite E. unfold away.
  rewrite (none_turned_away evs _ (list_to_set (List.map (fun e => e.1.1) evs)));
    [apply ref_run_but_none | cbn; set_solver | exact Hsz].
Qed.

Lemma limiter_refines_unpruned_witness :
  let evs := [(V4 1, Packet, 0); (V4 1, NewFlow, secs 200)] in
  limiter_run (limiter_new 0) evs = ref_run_but ∅ evs [false; false]
  /\ limiter_run (limiter_new 0) evs = ref_run ∅ evs.
Proof.
  intros evs. destruct (limiter_refines_unpruned 0 evs) as [H1 H2].
  - unfold evs, secs. cbn. lia.
  - split; [exact H1|]. apply H2. vm_compute. congruence.
Defined.

(** Memory is bounded: whatever addresses packets claim to come from, in
    any order and with any clock readings, the table never holds more than
    [MAX_SESSIONS_TOTAL] sources and every counter stays within its
    maximum. *)
Theorem limiter_table_bounded (start : Z) (evs : list Event) :
  let l := fold_left (fun l e => (limiter_allow l e.1.1 e.1.2 e.2).1) evs (limiter_new start) in
  Z.of_nat (size (sources l)) <= MAX_SESSIONS_TOTAL
  /\ map_Forall (fun _ s => rate_ok s) (sources l).
Proof.
  cbv zeta.
  assert (forall evs l, Z.of_nat (size (sources l)) <= MAX_SESSIONS_TOTAL ->
    map_Forall (fun _ s => rate_ok s) (sources l) ->
    let l' := fold_left (fun l e => (limiter_allow l e.1.1 e.1.2 e.2).1) evs l in
    Z.of_nat (size (sources l')) <= MAX_SESSIONS_TOTAL
    /\ map_Forall (fun _ s => rate_ok s) (sources l')) as H;
    [|apply H; [vm_compute; congruence | apply map_Forall_empty]].
  induction evs0 as [|[[ip k] now] evs0 IH]; intros l Hsz Hok; [done|]. cbn [fold_left fst snd].
  apply IH; clear IH; unfold limiter_allow;
    pose proof (prune_idle_subset l now) as Hsub; set (l1 := prune_idle l now) in *;
    pose proof (map_subseteq_size _ _ Hsub) as Hs1;
    assert (map_Forall (fun _ s => rate_ok s) (sources l1)) as Hok1
      by (intros i s Hi; eapply Hok, lookup_weaken; eassumption).
  - destruct (bool_decide_reflect (is_Some (sources l1 !! ip))) as [[st0 Hst]|Hno]; cbn [negb andb].
    + destruct (rate_allow _ k now). cbn [fst sources].
      rewrite map_size_insert, Hst. cbn -[size]. lia.
    + destruct (Z.leb_spec MAX_SESSIONS_TOTAL (Z.of_nat (size (sources l1)))); [cbn [fst]; lia|].
      destruct (rate_allow _ k now). cbn [fst sources]. rewrite map_size_insert.
      destruct (sources l1 !! ip); cbn -[size]; lia.
  - destruct (_ && _); [exact Hok1|].
    assert (rate_ok (default (rate_new now) (sources l1 !! ip))) as Hr.
    { destruct (sources l1 !! ip) as [st|] eqn:E; cbn; [by eapply Hok1 | apply rate_new_ok]. }
    destruct (rate_allow_eq _ k now Hr) as (s' & b & -> & _ & _ & Hs' & _). cbn.
    by apply map_Forall_insert_2.
Qed.

(* ------------------------------------------------------------------ *)
(** ** The table used before a signature is checked *)

(** Memory before authentication is fixed: for any hash function and any
    sequence of source addresses and clock readings, the pre-authentication
    limiter never indexes outside its buckets, keeps exactly 4096 of them,
    and no bucket admits more than 256 attempts in its window. *)
Theorem pending_limiter_bounded (hash_one : IpAddr -> Z) (start : Z)
  (evs : list (IpAddr * Z)) :
  exists buckets,
    fold_left (fun m e => obind m (fun b => obind (pending_allow hash_one b e.1 e.2)
                                              (fun r => Ret r.1)))
      evs (Ret (pending_new start)) = Ret buckets
    /\ Z.of_nat (length buckets) = 4096
    /\ Forall rate_ok buckets.
Proof.
  assert (forall evs b, Z.of_nat (length b) = 4096 -> Forall rate_ok b -> exists buckets,
    fold_left (fun m e => obind m (fun b => obind (pending_allow hash_one b e.1 e.2)
                                              (fun r => Ret r.1))) evs (Ret b) = Ret buckets
    /\ Z.of_nat (length buckets) = 4096 /\ Forall rate_ok buckets) as H.
  { clear. induction evs as [|[ip now] evs IH]; intros b Hl Hok; [by exists b|].
    cbn [fold_left obind fst snd]. unfold pending_allow. rewrite Hl.
    set (index := Z.to_nat (hash_one ip mod 4096)).
    assert (index < length b)%nat as Hi
      by (subst index; pose proof (Z.mod_pos_bound (hash_one ip) 4096 ltac:(lia)); lia).
    destruct (lookup_lt_is_Some_2 b index Hi) as [st Hst].
    rewrite (rd_lookup _ _ _ Hst). cbn [obind].
    assert (rate_ok st) as Hst' by (eapply Forall_lookup_1; eassumption).
    destruct (rate_allow_eq st NewSession now Hst') as (s' & ok & -> & _ & _ & Hs' & _).
    rewrite wr_lt by assumption. cbn [obind fst].
    apply IH; [by rewrite length_insert | by apply Forall_insert]. }
  apply H.
  - unfold pending_new. rewrite length_replicate. lia.
  - apply Forall_replicate, rate_new_ok.
Qed.
