(* ===== verification/AccountBudget.v ===== *)
(** * Account-wide budgets (src/account_budget.rs)

    One [State] per account, shared by all its sessions.  [process] is what
    [Budgets::event] does under the account's mutex; [begin_event] and
    [finish_event] split [event] at the point where it holds a reference to
    the account, so that [maintain] can run in between, as it does in the
    code. *)

From Stdlib Require Import String.
From S2P Require Import Prelude Checksum Net Packet RustStr Stats Sessions.

Definition FLOW_IDLE_SECONDS : Z := 120.
Definition ACCOUNT_IDLE_SECONDS : Z := 600.

Record Policy : Type := MkBudgetPolicy {
  enforce : bool;
  limit_packets : Z;
  limit_bytes : Z;
  limit_new_flows : Z;
}.

(** [Policy::from_env]: each number is 0 (unlimited) unless the variable
    parses. *)
Definition policy_from_env (env_mode env_packets env_bytes env_flows : option str) : Policy :=
  let number raw := default 0 (raw ≫= parse_uint 64) in
  MkBudgetPolicy (bool_decide (env_mode = Some (lit "enforce")))
    (number env_packets) (number env_bytes) (number env_flows).

Record Flow : Type := MkFlow {
  f_sid : list Z;
  f_proto : Z;
  f_src : Ipv4Addr;
  f_dst : Ipv4Addr;
  f_sport : Z;
  f_dport : Z;
}.

#[export] Instance Flow_eq_dec : EqDecision Flow.
Proof. solve_decision. Defined.

#[export] Instance Flow_countable : Countable Flow.
Proof.
  apply (inj_countable'
    (fun f => (f_sid f, f_proto f, f_src f, f_dst f, f_sport f, f_dport f))
    (fun '(a, b, c, d, e, g) => MkFlow a b c d e g)).
  by intros [].
Defined.

(** [Flow::parse]. *)
Definition flow_parse (sid : list Z) (p : list Z) : outcome (option Flow) :=
  if (length p <? 20)%nat then Ret None else
  let* b0 := rd p 0 in
  if negb (Z.shiftr b0 4 =? 4) then Ret None else
  let* b9 := rd p 9 in
  if negb ((b9 =? 6) || (b9 =? 17)) then Ret None else
  let* frag := rd16 p 6 in
  if negb (Z.land frag 0x1FFF =? 0) then Ret None else
  let offset := ihl_of b0 in
  if (offset <? 20)%nat || (length p <? offset + 4)%nat then Ret None else
  let* src := rd_ipv4 p 12 in
  let* dst := rd_ipv4 p 16 in
  let* sport := rd16 p offset in
  let* dport := rd16 p (offset + 2) in
  Ret (Some (MkFlow sid b9 src dst sport dport)).

(** The arrays hold packets in, bytes in, packets out, bytes out. *)
Record State : Type := MkState {
  second : Z;
  minute : Z;
  counts : list Z;
  totals : list Z;
  peaks : list Z;
  samples : list (list Z);
  new_flows : Z;
  total_new_flows : Z;
  peak_flows : Z;
  breaches : Z;
  drops : Z;
  untracked : Z;
  flows : gmap Flow Z;
}.
#[global] Instance eta_State : Eta State := fun s =>
  MkState (second s) (minute s) (counts s) (totals s) (peaks s) (samples s) (new_flows s)
    (total_new_flows s) (peak_flows s) (breaches s) (drops s) (untracked s) (flows s).

Definition state_new (now : Z) : State :=
  MkState now (now / 60) [0; 0; 0; 0] [0; 0; 0; 0] [0; 0; 0; 0] [] 0 0 0 0 0 0 ∅.

(** The window changes at the start of [event]. *)
Definition roll_second (s : State) (now : Z) : State :=
  if second s =? now then s
  else
    let samples' := if (length (samples s) =? 60)%nat then drop 1 (samples s) else samples s in
    s <| samples := samples' ++ [counts s] |> <| counts := [0; 0; 0; 0] |> <| second := now |>.

Definition roll_minute (s : State) (now : Z) : State :=
  if minute s =? now / 60 then s else s <| new_flows := 0 |> <| minute := now / 60 |>.

(** [slots.fetch_sub(n)]. *)
Definition fetch_sub (n x : Z) : Z := u64 (x - n).

Definition expire_flow (slots : Z) (s : State) (flow : option Flow) (now : Z) : Z * State :=
  match flow with
  | Some key =>
      match flows s !! key with
      | Some seen =>
          if FLOW_IDLE_SECONDS <=? sat_sub now seen
          then (fetch_sub 1 slots, s <| flows ::= delete key |>)
          else (slots, s)
      | None => (slots, s)
      end
  | None => (slots, s)
  end.

(** One round of the counting loop. *)
Definition count_at (s : State) (index : nat) (amount : Z) : State :=
  let c := sat_add (counts s !!! index) amount in
  s <| counts ::= <[index := c]> |>
    <| totals ::= fun l => <[index := sat_add (l !!! index) amount]> l |>
    <| peaks ::= fun l => <[index := Z.max (l !!! index) c]> l |>.

Definition exceeded (policy : Policy) (s : State) (new_flow : bool) : bool :=
  ((0 <? limit_packets policy)
   && (limit_packets policy <? sat_add (counts s !!! 0%nat) (counts s !!! 2%nat)))
  || ((0 <? limit_bytes policy)
      && (limit_bytes policy <? sat_add (counts s !!! 1%nat) (counts s !!! 3%nat)))
  || (new_flow && (0 <? limit_new_flows policy) && (limit_new_flows policy <=? new_flows s)).

(** The admission of a flow: takes a slot for a new one. *)
Definition track_flow (policy : Policy) (flow_limit : Z) (slots : Z) (s : State)
  (flow : option Flow) (new_flow : bool) (now : Z) : Z * State * bool :=
  match flow with
  | None => (slots, s, true)
  | Some key =>
      let insert slots (s : State) :=
        let s := s <| flows ::= <[key := now]> |> in
        (slots, s <| peak_flows ::= Z.max (Z.of_nat (size (flows s))) |>, true) in
      if new_flow then
        if slots <? flow_limit then
          insert (slots + 1) (s <| new_flows ::= fetch_add 1 |> <| total_new_flows ::= fetch_add 1 |>)
        else
          let s := s <| untracked ::= fetch_add 1 |> in
          (slots, (if enforce policy then s <| drops ::= fetch_add 1 |> else s),
           negb (enforce policy))
      else insert slots s
  end.

(** The part of [event] under the account's mutex. *)
Definition process (policy : Policy) (flow_limit : Z) (slots : Z) (s : State)
  (out : bool) (bytes : nat) (flow : option Flow) (now : Z) : Z * State * bool :=
  let now := Z.max now (second s) in
  let s := roll_second s now in
  let s := roll_minute s now in
  let '(slots, s) := expire_flow slots s flow now in
  let offset := if out then 2%nat else 0%nat in
  let s := count_at s offset 1 in
  let s := count_at s (offset + 1) (Z.of_nat bytes) in
  let new_flow := match flow with
                  | Some key => negb (bool_decide (is_Some (flows s !! key)))
                  | None => false
                  end in
  if exceeded policy s new_flow then
    let s := s <| breaches ::= fetch_add 1 |> in
    if enforce policy then (slots, s <| drops ::= fetch_add 1 |>, false)
    else track_flow policy flow_limit slots s flow new_flow now
  else track_flow policy flow_limit slots s flow new_flow now.

(* ------------------------------------------------------------------ *)
(** ** The table of accounts *)

(** [holders] is [Arc::strong_count - 1]: the events in progress. *)
Record Account : Type := MkAccount {
  a_state : State;
  last_used : Z;
  holders : nat;
}.
#[global] Instance eta_Account : Eta Account := fun a =>
  MkAccount (a_state a) (last_used a) (holders a).

Record Budgets : Type := MkBudgets {
  policy : Policy;
  accounts : gmap str Account;
  slots : Z;
  capacity_packets : Z;
  capacity_drops : Z;
  account_limit : Z;
  flow_limit : Z;
}.
#[global] Instance eta_Budgets : Eta Budgets := fun b =>
  MkBudgets (policy b) (accounts b) (slots b) (capacity_packets b) (capacity_drops b)
    (account_limit b) (flow_limit b).

Definition budgets_new (p : Policy) : Budgets :=
  MkBudgets p ∅ 0 0 0 MAX_SESSIONS_TOTAL MAX_FLOWS_TOTAL.

(** [Budgets::account]: the reference handed out is counted in [holders];
    [false] when the table is full. *)
Definition account (b : Budgets) (user : str) (now : Z) : Budgets * bool :=
  match accounts b !! user with
  | Some a => (b <| accounts ::= <[user := a <| holders ::= S |>]> |>, true)
  | None =>
      if account_limit b <=? Z.of_nat (size (accounts b)) then (b, false)
      else (b <| accounts ::= <[user := MkAccount (state_new now) now 1]> |>, true)
  end.

(** [event] up to the reference; [Some answer] when the account is refused. *)
Definition begin_event (b : Budgets) (user : str) (now : Z) : Budgets * option bool :=
  let '(b, found) := account b user now in
  if found then (b, None)
  else
    let b := b <| capacity_packets ::= fetch_add 1 |> in
    ((if enforce (policy b) then b <| capacity_drops ::= fetch_add 1 |> else b),
     Some (negb (enforce (policy b)))).

(** The rest of [event], ending with the release of the reference. *)
Definition finish_event (b : Budgets) (user : str) (out : bool) (bytes : nat)
  (flow : option Flow) (now : Z) : Budgets * bool :=
  match accounts b !! user with
  | Some a =>
      let '(slots', s, ok) :=
        process (policy b) (flow_limit b) (slots b) (a_state a) out bytes flow now in
      let a := MkAccount s (Z.max (last_used a) now) (pred (holders a)) in
      (b <| accounts ::= <[user := a]> |> <| slots := slots' |>, ok)
  | None => (b, false)
  end.

Definition event (b : Budgets) (user : str) (out : bool) (bytes : nat) (flow : option Flow)
  (now : Z) : Budgets * bool :=
  match begin_event b user now with
  | (b, Some answer) => (b, answer)
  | (b, None) => finish_event b user out bytes flow now
  end.

(** [maintain], first part: evict idle accounts nobody holds.  Dropping an
    account gives its flow slots back. *)
Definition kept (now : Z) (kv : str * Account) : Prop :=
  sat_sub now (last_used kv.2) < ACCOUNT_IDLE_SECONDS \/ (0 < holders kv.2)%nat.

#[export] Instance kept_dec now kv : Decision (kept now kv).
Proof. unfold kept. apply _. Defined.

Definition flows_of (a : Account) : Z := Z.of_nat (size (flows (a_state a))).
Definition total_flows (m : gmap str Account) : Z :=
  map_fold (fun _ a acc => flows_of a + acc) 0 m.

Definition maintain_accounts (b : Budgets) (now : Z) : Budgets :=
  let evicted := filter (fun kv => ~ kept now kv) (accounts b) in
  b <| accounts ::= filter (kept now) |> <| slots ::= fetch_sub (total_flows evicted) |>.

(** [maintain], second part, one account: forget idle flows. *)
Definition live_flow (now : Z) (kv : Flow * Z) : Prop := sat_sub now kv.2 < FLOW_IDLE_SECONDS.

#[export] Instance live_flow_dec now kv : Decision (live_flow now kv).
Proof. unfold live_flow. apply _. Defined.

Definition maintain_flows (b : Budgets) (user : str) (now : Z) : Budgets :=
  match accounts b !! user with
  | None => b
  | Some a =>
      let s := a_state a in
      let flows' := filter (live_flow now) (flows s) in
      b <| accounts ::= <[user := a <| a_state := s <| flows := flows' |> |>]> |>
        <| slots ::= fetch_sub (Z.of_nat (size (flows s)) - Z.of_nat (size flows')) |>
  end.

Definition maintain (b : Budgets) (now : Z) : Budgets :=
  let b := maintain_accounts b now in
  fold_left (fun b user => maintain_flows b user now) (List.map fst (map_to_list (accounts b))) b.

(** [allow]: what the datapaths ask for each packet. *)
Definition allow (b : Budgets) (sessions : Sessions) (sid : list Z) (out : bool)
  (packet : list Z) (now_ms : Z) : outcome (Budgets * bool) :=
  match sessions !! sid with
  | None => Ret (b, false)
  | Some session =>
      if negb (bool_decide (auth_state session = Authenticated)) then Ret (b, true)
      else
        let* flow := if out then Ret None else flow_parse sid packet in
        Ret (event b (user_id session) out (length packet) flow (now_ms / 1000))
  end.

(** The 95th percentile of [snapshot] for one counter. *)
Definition p95 (s : State) (i : nat) : outcome Z :=
  let values := merge_sort Z.le (List.map (fun v => v !!! i) (samples s) ++ [counts s !!! i]) in
  rd values ((length values * 95 + 99) / 100 - 1)%nat.

(* ------------------------------------------------------------------ *)
(** ** Sums over the table *)

Lemma total_flows_insert (m : gmap str Account) u a :
  m !! u = None -> total_flows (<[u := a]> m) = flows_of a + total_flows m.
Proof.
  intros H. unfold total_flows.
  rewrite (map_fold_insert_L (fun (_ : str) a acc => flows_of a + acc)); [done | | assumption].
  intros; lia.
Qed.

Lemma total_flows_delete (m : gmap str Account) u a :
  m !! u = Some a -> total_flows m = flows_of a + total_flows (delete u m).
Proof.
  intros H. rewrite <- (total_flows_insert _ u) by apply lookup_delete_eq.
  by rewrite insert_delete_id.
Qed.

Lemma total_flows_replace (m : gmap str Account) u a a' :
  m !! u = Some a -> total_flows (<[u := a']> m) = total_flows m - flows_of a + flows_of a'.
Proof.
  intros H. rewrite (total_flows_delete m u a H).
  rewrite <- insert_delete_eq, total_flows_insert by apply lookup_delete_eq. lia.
Qed.

Lemma flows_of_nonneg a : 0 <= flows_of a.
Proof. unfold flows_of. lia. Qed.

Lemma total_flows_nonneg m : 0 <= total_flows m.
Proof.
  induction m as [|u a m Hu IH] using map_ind; [cbn; unfold total_flows; rewrite map_fold_empty; lia|].
  rewrite total_flows_insert by assumption. pose proof (flows_of_nonneg a). lia.
Qed.

Lemma total_flows_split (P : str * Account -> Prop) `{!forall x, Decision (P x)} m :
  total_flows (filter P m) + total_flows (filter (fun x => ~ P x) m) = total_flows m.
Proof.
  induction m as [|u a m Hu IH] using map_ind.
  - rewrite !map_filter_empty. unfold total_flows. by rewrite !map_fold_empty.
  - assert (forall Q `{!forall x : str * Account, Decision (Q x)}, filter Q m !! u = None) as Hn
      by (intros; apply map_lookup_filter_None; by left).
    rewrite (total_flows_insert m) by assumption. destruct (decide (P (u, a))) as [Hp|Hp].
    + rewrite map_filter_insert_True by assumption.
      rewrite (map_filter_insert_not' (fun x => ~ P x)) by (first [tauto | intros; congruence]).
      rewrite total_flows_insert by apply Hn. lia.
    + rewrite (map_filter_insert_not' P) by (first [tauto | intros; congruence]).
      rewrite map_filter_insert_True by assumption. rewrite total_flows_insert by apply Hn. lia.
Qed.

Lemma fetch_sub_exact n x : 0 <= n <= x -> x < 2 ^ 64 -> fetch_sub n x = x - n.
Proof. intros. unfold fetch_sub. apply wrap_small. unfold in_width. lia. Qed.

(* ------------------------------------------------------------------ *)
(** ** One account *)

Record state_ok (s : State) : Prop := {
  so_counts : length (counts s) = 4%nat;
  so_samples : (length (samples s) <= 60)%nat;
  so_nonneg : forall i, 0 <= counts s !!! i;
}.

Lemma state_new_ok now : state_ok (state_new now).
Proof. constructor; cbn; try lia. intros i. do 4 (destruct i; [cbn; lia|]). done. Qed.

Lemma roll_second_flows s now : flows (roll_second s now) = flows s.
Proof. unfold roll_second. by destruct (_ =? _). Qed.
Lemma roll_minute_flows s now : flows (roll_minute s now) = flows s.
Proof. unfold roll_minute. by destruct (_ =? _). Qed.
Lemma count_at_flows s i n : flows (count_at s i n) = flows s.
Proof. reflexivity. Qed.

(** Slots move exactly with the number of tracked flows. *)
Lemma expire_flow_slots slots s flow now :
  Z.of_nat (size (flows s)) <= slots < 2 ^ 64 ->
  let '(slots', s') := expire_flow slots s flow now in
  slots' - Z.of_nat (size (flows s')) = slots - Z.of_nat (size (flows s))
  /\ Z.of_nat (size (flows s')) <= slots' <= slots.
Proof.
  intros H. unfold expire_flow. destruct flow as [key|]; [|lia].
  destruct (flows s !! key) as [seen|] eqn:E; [|lia]. destruct (_ <=? _); [|lia].
  cbn -[size]. rewrite map_size_delete, E. cbn -[size].
  assert (size (flows s) <> 0)%nat by (intros H0; apply map_size_empty_inv in H0; rewrite H0 in E; done).
  rewrite fetch_sub_exact by lia. lia.
Qed.

Lemma track_flow_slots policy flow_limit slots s flow now :
  let new_flow := match flow with
                  | Some key => negb (bool_decide (is_Some (flows s !! key)))
                  | None => false
                  end in
  Z.of_nat (size (flows s)) <= slots <= flow_limit ->
  let '(slots', s', _) := track_flow policy flow_limit slots s flow new_flow now in
  slots' - Z.of_nat (size (flows s')) = slots - Z.of_nat (size (flows s))
  /\ Z.of_nat (size (flows s')) <= slots' <= flow_limit.
Proof.
  intros new_flow H. unfold track_flow. destruct flow as [key|]; [|lia]. subst new_flow.
  destruct (bool_decide_reflect (is_Some (flows s !! key))) as [[t Ht]|Hn]; cbn [negb].
  - cbn -[size]. rewrite map_size_insert, Ht. cbn -[size]. lia.
  - destruct (Z.ltb_spec slots flow_limit).
    + cbn -[size]. apply eq_None_not_Some in Hn. rewrite map_size_insert, Hn. cbn -[size]. lia.
    + destruct (enforce policy); cbn -[size]; lia.
Qed.

Lemma process_slots policy flow_limit slots s out bytes flow now :
  Z.of_nat (size (flows s)) <= slots <= flow_limit -> flow_limit < 2 ^ 64 ->
  let '(slots', s', _) := process policy flow_limit slots s out bytes flow now in
  slots' - Z.of_nat (size (flows s')) = slots - Z.of_nat (size (flows s))
  /\ Z.of_nat (size (flows s')) <= slots' <= flow_limit.
Proof.
  intros H Hl. unfold process.
  set (now' := Z.max now (second s)). set (s1 := roll_minute (roll_second s now') now').
  assert (flows s1 = flows s) as E1
    by (subst s1; by rewrite roll_minute_flows, roll_second_flows).
  pose proof (expire_flow_slots slots s1 flow now') as He. rewrite E1 in He.
  specialize (He ltac:(lia)). destruct (expire_flow slots s1 flow now') as [slots2 s2].
  set (s3 := count_at (count_at s2 _ 1) _ _).
  assert (flows s3 = flows s2) as E3 by reflexivity.
  set (nf := match flow with
             | Some key => negb (bool_decide (is_Some (flows s3 !! key)))
             | None => false
             end).
  assert (forall s4, flows s4 = flows s3 ->
    let '(slots', s', _) := track_flow policy flow_limit slots2 s4 flow nf now' in
    slots' - Z.of_nat (size (flows s')) = slots - Z.of_nat (size (flows s))
    /\ Z.of_nat (size (flows s')) <= slots' <= flow_limit) as Ht.
  { intros s4 E4. pose proof (track_flow_slots policy flow_limit slots2 s4 flow now') as Ht.
    cbv zeta in Ht. rewrite E4 in Ht. fold nf in Ht. rewrite E3 in Ht. specialize (Ht ltac:(lia)).
    destruct (track_flow _ _ _ _ _ _ _) as [[? ?] ?]. lia. }
  clearbody nf s3. destruct (exceeded policy s3 nf); [destruct (enforce policy)|].
  - cbn -[size]. rewrite E3. lia.
  - apply Ht. reflexivity.
  - by apply Ht.
Qed.

Lemma process_state_ok policy flow_limit slots s out bytes flow now :
  state_ok s -> state_ok (process policy flow_limit slots s out bytes flow now).1.2.
Proof.
  intros Hok. unfold process.
  set (now' := Z.max now (second s)).
  assert (forall s1 s2, counts s2 = counts s1 -> samples s2 = samples s1 ->
    state_ok s1 -> state_ok s2) as Hfr.
  { intros s1 s2 E1 E2 [? ? ?]. constructor; rewrite ?E1, ?E2; assumption. }
  assert (state_ok (roll_second s now')) as H1.
  { destruct Hok as [Hc Hs Hn]. unfold roll_second. destruct (_ =? _); [by constructor|].
    constructor; cbn; try done.
    - rewrite length_app. cbn. destruct (Nat.eqb_spec (length (samples s)) 60);
        rewrite ?length_drop; lia.
    - intros i. do 4 (destruct i; [cbn; lia|]). done. }
  assert (state_ok (roll_minute (roll_second s now') now')) as H2
    by (unfold roll_minute; destruct (_ =? _); [done|]; by eapply Hfr; [..|exact H1]).
  set (s1 := roll_minute _ now') in *. clearbody s1.
  assert (state_ok (expire_flow slots s1 flow now').2) as H3.
  { unfold expire_flow. repeat case_match; try done. by eapply Hfr; [..|exact H2]. }
  destruct (expire_flow slots s1 flow now') as [slots2 s2]. cbn [snd] in H3.
  assert (forall s i n, 0 <= n -> state_ok s -> state_ok (count_at s i n)) as Hcount.
  { intros s3 i n Hpos [Hc Hs Hn]. constructor; cbn; [by rewrite length_insert | done|].
    intros j. destruct (decide (i = j)) as [->|Hne].
    - destruct (decide (j < length (counts s3))%nat).
      + rewrite list_lookup_total_insert_eq by assumption. specialize (Hn j).
        unfold sat_add, u64_max. lia.
      + rewrite list_insert_ge by lia. apply Hn.
    - rewrite list_lookup_total_insert_ne by assumption. apply Hn. }
  assert (state_ok (count_at (count_at s2 (if out then 2 else 0)%nat 1)
                     ((if out then 2 else 0) + 1)%nat (Z.of_nat bytes))) as H4
    by (apply Hcount; [lia|]; apply Hcount; [lia|assumption]).
  set (s3 := count_at _ _ (Z.of_nat bytes)) in *. clearbody s3.
  assert (forall s4 nf, counts s4 = counts s3 -> samples s4 = samples s3 ->
    state_ok (track_flow policy flow_limit slots2 s4 flow nf now').1.2) as Ht.
  { intros s4 nf E1 E2. unfold track_flow. repeat case_match; cbn;
      (eapply Hfr; [..|exact H4]; assumption). }
  destruct (exceeded _ _ _); [destruct (enforce policy)|]; try (by apply Ht).
  by eapply Hfr; [..|exact H4].
Qed.

(* ------------------------------------------------------------------ *)
(** ** The invariant of the table *)

Record budgets_ok (b : Budgets) : Prop := {
  bo_slots : slots b = total_flows (accounts b);
  bo_flow_limit : slots b <= flow_limit b < 2 ^ 64;
  bo_accounts : Z.of_nat (size (accounts b)) <= account_limit b;
  bo_states : map_Forall (fun _ a => state_ok (a_state a)) (accounts b);
}.

(** Steps of the concurrent system: events begin and end at any time, on any
    thread, around the two parts of maintenance. *)
Inductive budget_step : Budgets -> Budgets -> Prop :=
| step_begin b user now : budget_step b (begin_event b user now).1
| step_finish b user a out bytes flow now :
    accounts b !! user = Some a -> (0 < holders a)%nat ->
    budget_step b (finish_event b user out bytes flow now).1
| step_evict b now : budget_step b (maintain_accounts b now)
| step_prune b user now : budget_step b (maintain_flows b user now).

Lemma account_le_total b user a :
  accounts b !! user = Some a -> flows_of a <= total_flows (accounts b).
Proof.
  intros H. rewrite (total_flows_delete _ _ _ H).
  pose proof (total_flows_nonneg (delete user (accounts b))). lia.
Qed.

Lemma begin_event_ok b user now : budgets_ok b -> budgets_ok (begin_event b user now).1.
Proof.
  intros [Hs Hf Ha Hst]. unfold begin_event, account.
  destruct (accounts b !! user) as [a|] eqn:E.
  - cbn. constructor; cbn -[size]; try assumption.
    + rewrite (total_flows_replace _ _ a) by assumption.
      change (flows_of (MkAccount _ _ _)) with (flows_of a). lia.
    + rewrite map_size_insert, E. cbn -[size]. lia.
    + apply map_Forall_insert_2; [exact (Hst _ _ E) | assumption].
  - destruct (Z.leb_spec (account_limit b) (Z.of_nat (size (accounts b)))).
    + destruct (enforce (policy _)); constructor; assumption.
    + constructor; cbn -[size]; try assumption.
      * rewrite total_flows_insert by assumption.
        change (flows_of (MkAccount (state_new now) now 1)) with 0. lia.
      * rewrite map_size_insert, E. cbn -[size]. lia.
      * apply map_Forall_insert_2; [apply state_new_ok | assumption].
Qed.

Lemma finish_event_ok b user out bytes flow now :
  budgets_ok b -> budgets_ok (finish_event b user out bytes flow now).1.
Proof.
  intros [Hs Hf Ha Hst]. unfold finish_event.
  destruct (accounts b !! user) as [a|] eqn:E; [|by constructor].
  pose proof (account_le_total _ _ _ E) as Hle. unfold flows_of in Hle.
  pose proof (process_slots (policy b) (flow_limit b) (slots b) (a_state a) out bytes flow now
                ltac:(lia) ltac:(lia)) as Hp.
  pose proof (process_state_ok (policy b) (flow_limit b) (slots b) (a_state a) out bytes flow now
                (Hst _ _ E)) as Hok.
  destruct (process _ _ _ _ _ _ _ _) as [[slots' s'] ok]. cbn [fst snd] in *.
  constructor; cbn -[size]; try assumption.
  - rewrite (total_flows_replace _ _ a) by assumption. unfold flows_of. cbn [a_state]. lia.
  - lia.
  - rewrite map_size_insert, E. cbn -[size]. lia.
  - by apply map_Forall_insert_2.
Qed.

Lemma maintain_accounts_ok b now : budgets_ok b -> budgets_ok (maintain_accounts b now).
Proof.
  intros [Hs Hf Ha Hst]. unfold maintain_accounts.
  pose proof (total_flows_split (kept now) (accounts b)) as Hsplit.
  pose proof (total_flows_nonneg (filter (kept now) (accounts b))).
  pose proof (total_flows_nonneg (filter (fun kv => ~ kept now kv) (accounts b))).
  assert (fetch_sub (total_flows (filter (fun kv => ~ kept now kv) (accounts b))) (slots b)
          = total_flows (filter (kept now) (accounts b))) as E
    by (rewrite fetch_sub_exact; lia).
  pose proof (map_subseteq_size _ _ (map_filter_subseteq (kept now) (accounts b))).
  constructor; cbn -[size]; try (rewrite E; lia).
  - lia.
  - intros u a [Hu _]%map_lookup_filter_Some. eauto.
Qed.

Lemma maintain_flows_ok b user now : budgets_ok b -> budgets_ok (maintain_flows b user now).
Proof.
  intros [Hs Hf Ha Hst]. unfold maintain_flows.
  destruct (accounts b !! user) as [a|] eqn:E; [|by constructor].
  pose proof (account_le_total _ _ _ E) as Hle. unfold flows_of in Hle.
  pose proof (map_subseteq_size _ _ (map_filter_subseteq (live_flow now) (flows (a_state a)))).
  assert (fetch_sub (Z.of_nat (size (flows (a_state a)))
            - Z.of_nat (size (filter (live_flow now) (flows (a_state a))))) (slots b)
          = slots b - Z.of_nat (size (flows (a_state a)))
            + Z.of_nat (size (filter (live_flow now) (flows (a_state a))))) as Es
    by (rewrite fetch_sub_exact; lia).
  constructor; cbn -[size filter]; try (rewrite Es).
  - rewrite (total_flows_replace _ _ a) by assumption. unfold flows_of. cbn [a_state flows]. lia.
  - lia.
  - rewrite map_size_insert, E. cbn -[size]. lia.
  - apply map_Forall_insert_2; [|assumption]. destruct (Hst _ _ E). by constructor.
Qed.

(** C35: flow slots are never lost or leaked: in every state the running
    relay can reach, with events and maintenance interleaved in any way, the
    slot counter equals the number of flows tracked over all accounts, it
    never exceeds the process limit, the table never exceeds the account
    limit and no account keeps more than 60 samples. *)
Theorem budgets_invariant (p : Policy) (b : Budgets) :
  rtc budget_step (budgets_new p) b ->
  slots b = total_flows (accounts b)
  /\ slots b <= flow_limit b
  /\ Z.of_nat (size (accounts b)) <= account_limit b
  /\ map_Forall (fun _ a => (length (samples (a_state a)) <= 60)%nat) (accounts b).
Proof.
  assert (budgets_ok (budgets_new p)) as H0.
  { constructor; cbn; [reflexivity | vm_compute; split; congruence | vm_compute; congruence
                       | apply map_Forall_empty]. }
  intros Hr. enough (budgets_ok b) as [H1 H2 H3 H4].
  { repeat split; try assumption; [lia|]. intros u a Hu. exact (so_samples _ (H4 _ _ Hu)). }
  revert H0. generalize (budgets_new p) Hr. clear. intros b0 Hr. induction Hr as [|x y z Hxy _ IH]; [done|].
  intros Hx. apply IH. destruct Hxy;
    auto using begin_event_ok, finish_event_ok, maintain_accounts_ok, maintain_flows_ok.
Qed.

(** One event of one account, with a new flow. *)
Definition one_flow : Flow := MkFlow [1; 2; 3; 4; 5; 6; 7; 8] 17 1 2 3 4.
Lemma budgets_invariant_witness :
  let p := MkBudgetPolicy true 9 9000 9 in
  let b := (finish_event (begin_event (budgets_new p) (lit "u") 5).1 (lit "u") false 100 (Some one_flow) 5).1 in
  slots b = 1
  /\ slots b = total_flows (accounts b) /\ slots b <= flow_limit b
  /\ Z.of_nat (size (accounts b)) <= account_limit b
  /\ map_Forall (fun _ a => (length (samples (a_state a)) <= 60)%nat) (accounts b).
Proof.
  intros p b. split; [vm_compute; reflexivity|]. apply (budgets_invariant p b).
  apply (rtc_l _ _ (begin_event (budgets_new p) (lit "u") 5).1); [apply step_begin|].
  apply rtc_once. apply (step_finish _ _ (MkAccount (state_new 5) 5 1)); [vm_compute; reflexivity | cbn; lia].
Defined.

(** An account in use is never evicted: while an event holds a
    reference, maintenance keeps the account (with its window), whatever the
    time, so an enforced allowance cannot split across two states. *)
Theorem held_account_survives (b : Budgets) (user : str) (a : Account) (now : Z) :
  accounts b !! user = Some a -> (0 < holders a)%nat ->
  accounts (maintain_accounts b now) !! user = Some a.
Proof.
  intros Hu Hh. unfold maintain_accounts. cbn -[filter].
  apply map_lookup_filter_Some. split; [assumption|]. by right.
Qed.

Lemma held_account_survives_witness :
  let b := (begin_event (budgets_new (MkBudgetPolicy true 9 9 9)) (lit "u") 5).1 in
  accounts (maintain_accounts b 100000) !! lit "u" = Some (MkAccount (state_new 5) 5 1).
Proof. intros b. apply (held_account_survives b); [vm_compute; reflexivity | cbn; lia]. Defined.

(** Observing never drops: outside enforce mode every event of every
    account is allowed, also when the account or flow tables are full. *)
Theorem observe_allows (b : Budgets) (user : str) (out : bool) (bytes : nat)
  (flow : option Flow) (now : Z) :
  enforce (policy b) = false -> (event b user out bytes flow now).2 = true.
Proof.
  intros Hp. unfold event, begin_event, account.
  assert (forall b', enforce (policy b') = false -> is_Some (accounts b' !! user) ->
    (finish_event b' user out bytes flow now).2 = true) as Hf.
  { clear. intros b Hp [a Ha]. unfold finish_event. rewrite Ha.
    assert ((process (policy b) (flow_limit b) (slots b) (a_state a) out bytes flow now).2 = true)
      as E.
    { unfold process. destruct (expire_flow _ _ _ _) as [? ?]. rewrite Hp.
      destruct (exceeded _ _ _); unfold track_flow; rewrite Hp; repeat case_match; reflexivity. }
    destruct (process _ _ _ _ _ _ _ _) as [[? ?] ok]. exact E. }
  destruct (accounts b !! user) as [a|] eqn:E.
  - apply Hf; [assumption|]. cbn. rewrite lookup_insert_eq. eauto.
  - destruct (_ <=? _); [cbn; by rewrite Hp|]. apply Hf; [assumption|]. cbn. rewrite lookup_insert_eq. eauto.
Qed.

Lemma observe_allows_witness :
  (event (budgets_new (MkBudgetPolicy false 1 1 1)) (lit "u") false 5000 None 7).2 = true.
Proof.
  apply (observe_allows (budgets_new (MkBudgetPolicy false 1 1 1)) (lit "u") false 5000 None 7).
  reflexivity.
Defined.

(* ------------------------------------------------------------------ *)
(** ** Enforced windows *)

(** The counters after an event of a window that held [c]. *)
Definition counted (c : list Z) (out : bool) (bytes : nat) : list Z :=
  let offset := if out then 2%nat else 0%nat in
  let c1 := <[offset := sat_add (c !!! offset) 1]> c in
  <[(offset + 1)%nat := sat_add (c1 !!! (offset + 1)%nat) (Z.of_nat bytes)]> c1.

Definition window_before (s : State) (now : Z) : list Z :=
  if second s =? now then counts s else [0; 0; 0; 0].

Lemma track_flow_view policy flow_limit slots s flow nf now :
  let '(_, s', _) := track_flow policy flow_limit slots s flow nf now in
  second s' = second s /\ counts s' = counts s.
Proof.
  unfold track_flow. destruct flow as [key|]; [|done].
  destruct nf; [destruct (slots <? flow_limit)|]; [done | | done].
  by destruct (enforce policy).
Qed.

Lemma process_view policy flow_limit slots s out bytes flow now :
  let '(_, s', ok) := process policy flow_limit slots s out bytes flow now in
  second s' = Z.max now (second s)
  /\ counts s' = counted (window_before s (Z.max now (second s))) out bytes
  /\ (enforce policy = true -> ok = true -> exceeded policy s' false = false).
Proof.
  unfold process. set (now' := Z.max now (second s)).
  set (s1 := roll_minute (roll_second s now') now').
  assert (second s1 = now' /\ counts s1 = window_before s now') as [E1 E2].
  { subst s1. unfold roll_minute, roll_second, window_before.
    destruct (Z.eqb_spec (second s) now'); destruct (_ =? _); done. }
  clearbody s1.
  assert (second (expire_flow slots s1 flow now').2 = now'
          /\ counts (expire_flow slots s1 flow now').2 = window_before s now') as [E3 E4]
    by (unfold expire_flow; repeat case_match; done).
  destruct (expire_flow slots s1 flow now') as [slots2 s2]. cbn [snd] in *.
  set (s3 := count_at (count_at s2 _ 1) _ _).
  assert (second s3 = now' /\ counts s3 = counted (window_before s now') out bytes) as [E5 E6]
    by (subst s3; unfold counted; rewrite <- E4; done).
  set (nf := match flow with Some _ => _ | None => _ end). clearbody nf s3.
  pose proof (track_flow_view policy flow_limit slots2 s3 flow nf now') as Ht.
  assert (forall s4, counts s4 = counts s3 -> exceeded policy s3 nf = false ->
                     exceeded policy s4 false = false) as Hx.
  { intros s4 E. unfold exceeded. rewrite E. rewrite !orb_false_iff. tauto. }
  destruct (exceeded policy s3 nf) eqn:Ex.
  - destruct (enforce policy) eqn:He; [done|].
    pose proof (track_flow_view policy flow_limit slots2 (s3 <| breaches ::= fetch_add 1 |>) flow nf now')
      as Ht2.
    destruct (track_flow _ _ _ (upd _ _ _) _ _ _) as [[? s'] ok]. destruct Ht2 as [-> ->]. done.
  - destruct (track_flow _ _ _ _ _ _ _) as [[? s'] ok]. destruct Ht as [E7 E8].
    rewrite E7, E8. split; [done|]. split; [done|]. intros _ _. by apply Hx.
Qed.

(** The two budgets: packets ([i = 0]) and bytes ([i = 1]), in and out
    together. *)
Definition used (c : list Z) (i : nat) : Z := sat_add (c !!! i) (c !!! (i + 2)%nat).
Definition amount (i bytes : nat) : Z := if (i =? 0)%nat then 1 else Z.of_nat bytes.
Definition limit (p : Policy) (i : nat) : Z := if (i =? 0)%nat then limit_packets p else limit_bytes p.

Lemma counted_used c i out bytes :
  length c = 4%nat -> (forall j, 0 <= c !!! j) -> (i <= 1)%nat ->
  Z.min u64_max (used c i + amount i bytes) <= used (counted c out bytes) i.
Proof.
  intros Hl Hn Hi. destruct c as [|a [|b [|c [|d [|]]]]]; try discriminate Hl.
  pose proof (Hn 0%nat). pose proof (Hn 1%nat). pose proof (Hn 2%nat). pose proof (Hn 3%nat). cbn in *.
  destruct i as [|[|]]; [| |lia]; destruct out; unfold used, counted, amount, sat_add; cbn -[u64_max]; lia.
Qed.

(** What the threads do to the table: events begin and end, each with its own
    clock reading, around the two parts of maintenance. *)
Inductive BudgetOp : Type :=
| OpBegin (user : str) (now : Z)
| OpFinish (user : str) (out : bool) (bytes : nat) (flow : option Flow) (now : Z)
| OpEvict (now : Z)
| OpPrune (user : str) (now : Z).

(** An event that ends reports its account, the second it was counted in, its
    size and the answer; one that does not hold its account does not exist. *)
Definition budget_exec (b : Budgets) (op : BudgetOp) : Budgets * option (str * Z * nat * bool) :=
  match op with
  | OpBegin user now => ((begin_event b user now).1, None)
  | OpFinish user out bytes flow now =>
      match accounts b !! user with
      | Some a =>
          if (0 <? holders a)%nat then
            let '(b', ok) := finish_event b user out bytes flow now in
            (b', (fun a' => (user, second (a_state a'), bytes, ok)) <$> accounts b' !! user)
          else (b, None)
      | None => (b, None)
      end
  | OpEvict now => (maintain_accounts b now, None)
  | OpPrune user now => (maintain_flows b user now, None)
  end.

Fixpoint budget_run (b : Budgets) (ops : list BudgetOp) : list (str * Z * nat * bool) :=
  match ops with
  | [] => []
  | op :: rest =>
      let '(b, ended) := budget_exec b op in
      match ended with
      | Some x => x :: budget_run b rest
      | None => budget_run b rest
      end
  end.

(** No event's clock reading is [ACCOUNT_IDLE_SECONDS] or more behind that of
    an eviction that came before it. *)
Fixpoint clocks_ok (latest : Z) (ops : list BudgetOp) : Prop :=
  match ops with
  | [] => True
  | OpBegin _ now :: rest => latest < now + ACCOUNT_IDLE_SECONDS /\ clocks_ok latest rest
  | OpFinish _ _ _ _ now :: rest => latest < now + ACCOUNT_IDLE_SECONDS /\ clocks_ok latest rest
  | OpEvict now :: rest => clocks_ok (Z.max latest now) rest
  | OpPrune _ _ :: rest => clocks_ok latest rest
  end.

(** What the account [user] got through in second [t]. *)
Fixpoint admitted_in (i : nat) (user : str) (t : Z) (trace : list (str * Z * nat * bool)) : Z :=
  match trace with
  | [] => 0
  | (u, w, bytes, ok) :: rest =>
      (if ok && bool_decide (u = user) && (w =? t) then amount i bytes else 0) + admitted_in i user t rest
  end.

Section Enforced.
Context (p : Policy) (i : nat) (user : str).
Hypothesis Hi : (i <= 1)%nat.
Hypothesis He : enforce p = true.
Hypothesis Hl : 0 < limit p i < u64_max.

(** The part of the past that matters: [adm t] has been let through in second
    [t], all of it in windows the present state of the account, if it has
    one, still knows or has left behind. *)
Record within (b : Budgets) (latest : Z) (adm : Z -> Z) : Prop := {
  wi_policy : policy b = p;
  wi_limit : forall t, 0 <= adm t <= limit p i;
  wi_state : forall a, accounts b !! user = Some a ->
    state_ok (a_state a) /\ second (a_state a) <= last_used a
    /\ (forall t, second (a_state a) < t -> adm t = 0)
    /\ adm (second (a_state a)) <= used (counts (a_state a)) i;
  wi_none : accounts b !! user = None -> forall t, latest < t + ACCOUNT_IDLE_SECONDS -> adm t = 0;
}.

Lemma within_begin b latest adm u now :
  within b latest adm -> latest < now + ACCOUNT_IDLE_SECONDS -> within (begin_event b u now).1 latest adm.
Proof.
  intros [H1 H2 H3 H4] Hc. unfold begin_event, account.
  destruct (accounts b !! u) as [a|] eqn:E; [|destruct (_ <=? _)].
  - constructor; cbn; try assumption.
    + intros a'. destruct (decide (u = user)) as [->|Hne].
      * rewrite lookup_insert_eq. intros [= <-]. exact (H3 a E).
      * rewrite lookup_insert_ne by assumption. apply H3.
    + intros [Hn _]%lookup_insert_None. by apply H4.
  - destruct (enforce (policy _)); by constructor.
  - constructor; cbn; try assumption.
    + intros a'. destruct (decide (u = user)) as [->|Hne].
      * rewrite lookup_insert_eq. intros [= <-]. cbn. split; [apply state_new_ok|]. split; [lia|].
        split; [intros t Ht; apply H4; [exact E | lia]|].
        rewrite (H4 E now Hc). destruct i as [|[|]]; [vm_compute; congruence.. | lia].
      * rewrite lookup_insert_ne by assumption. apply H3.
    + intros [Hn _]%lookup_insert_None. by apply H4.
Qed.

Lemma within_evict b latest adm now :
  within b latest adm -> within (maintain_accounts b now) (Z.max latest now) adm.
Proof.
  intros [H1 H2 H3 H4]. constructor; cbn -[filter]; try assumption.
  - intros a [Ha _]%map_lookup_filter_Some. by apply H3.
  - intros [Hn|Hev]%map_lookup_filter_None t Ht.
    + apply H4; [exact Hn | lia].
    + destruct (accounts b !! user) as [a|] eqn:E; [|apply H4; [done | lia]].
      destruct (H3 a eq_refl) as (_ & Hs & Hz & _). apply Hz.
      assert (~ kept now (user, a)) as Hk by (by apply Hev). unfold kept, sat_sub, ACCOUNT_IDLE_SECONDS in *.
      cbn in Hk. lia.
Qed.

Lemma within_prune b latest adm u now : within b latest adm -> within (maintain_flows b u now) latest adm.
Proof.
  intros [H1 H2 H3 H4]. unfold maintain_flows. destruct (accounts b !! u) as [a|] eqn:E; [|by constructor].
  constructor; cbn -[filter]; try assumption.
  - intros a'. destruct (decide (u = user)) as [->|Hne].
    + rewrite lookup_insert_eq. intros [= <-]. destruct (H3 a E) as ([Hx Hy Hz] & Hr). by split.
    + rewrite lookup_insert_ne by assumption. apply H3.
  - intros [Hn _]%lookup_insert_None. by apply H4.
Qed.

(** The window of an event holds what it held before, and the event. *)
Lemma event_used s out bytes flow_limit slots flow now a :
  state_ok s -> 0 <= a -> (second s < Z.max now (second s) -> a = 0) ->
  (Z.max now (second s) = second s -> a <= used (counts s) i) ->
  let '(_, s', ok) := process p flow_limit slots s out bytes flow now in
  Z.min u64_max (a + amount i bytes) <= used (counts s') i
  /\ (ok = true -> used (counts s') i <= limit p i).
Proof.
  intros Hok Ha Hlater Hsame.
  pose proof (process_view p flow_limit slots s out bytes flow now) as Hv.
  destruct (process p flow_limit slots s out bytes flow now) as [[? s'] ok]. destruct Hv as (_ & Ec & Hx). split.
  - rewrite Ec. unfold window_before. destruct Hok as [Hc _ Hn]. destruct (Z.eqb_spec (second s) (Z.max now (second s))).
    + pose proof (counted_used (counts s) i out bytes Hc Hn Hi). lia.
    + pose proof (counted_used [0; 0; 0; 0] i out bytes eq_refl) as H.
      rewrite Hlater by lia. etransitivity; [|apply H; [|assumption]].
      * unfold used. destruct i as [|[|]]; cbn -[u64_max]; unfold sat_add; lia.
      * intros j. do 4 (destruct j; [cbn; lia|]). done.
  - intros ->. specialize (Hx He eq_refl). unfold exceeded in Hx.
    rewrite !orb_false_iff in Hx. destruct Hx as [[Hx1 Hx2] _].
    unfold used, limit in *. destruct i as [|[|]]; [| |lia]; cbn -[u64_max] in *.
    + rewrite (proj2 (Z.ltb_lt 0 _)) in Hx1 by lia. apply Z.ltb_ge in Hx1. exact Hx1.
    + rewrite (proj2 (Z.ltb_lt 0 _)) in Hx2 by lia. apply Z.ltb_ge in Hx2. exact Hx2.
Qed.

(** One more event on record. *)
Definition admit_more (adm : Z -> Z) (x : str * Z * nat * bool) (t : Z) : Z :=
  adm t + admitted_in i user t [x].

Lemma within_finish b latest adm u out bytes flow now a x :
  within b latest adm -> accounts b !! u = Some a ->
  (fun a' => (u, second (a_state a'), bytes, (finish_event b u out bytes flow now).2))
    <$> accounts (finish_event b u out bytes flow now).1 !! u = Some x ->
  within (finish_event b u out bytes flow now).1 latest (admit_more adm x).
Proof.
  intros Hw E. pose proof Hw as [H1 H2 H3 H4]. unfold finish_event. rewrite E, H1.
  destruct (decide (u = user)) as [->|Hne].
  2: { destruct (process _ _ _ _ _ _ _ _) as [[? s'] ok]. cbn. rewrite lookup_insert_eq. cbn. intros [= <-].
       assert (forall t, admit_more adm (u, second s', bytes, ok) t = adm t) as Ead.
       { intros t. unfold admit_more. cbn. rewrite bool_decide_false, andb_false_r by assumption. cbn. lia. }
       constructor; cbn; try assumption; setoid_rewrite Ead; [exact H2| |].
       - rewrite lookup_insert_ne by assumption. exact H3.
       - intros [Hn _]%lookup_insert_None. by apply H4. }
  destruct (H3 a E) as (Hok & Hlast & Hz & Hu).
  pose proof (process_view p (flow_limit b) (slots b) (a_state a) out bytes flow now) as Hv.
  pose proof (process_state_ok p (flow_limit b) (slots b) (a_state a) out bytes flow now Hok) as Hok'.
  pose proof (event_used (a_state a) out bytes (flow_limit b) (slots b) flow now
    (adm (Z.max now (second (a_state a)))) Hok (proj1 (H2 _)) (Hz _)
    ltac:(intros ->; exact Hu)) as Hev.
  destruct (process _ _ _ _ _ _ _ _) as [[? s'] ok]. cbn. rewrite lookup_insert_eq. cbn. intros [= <-].
  cbn [fst snd] in *. destruct Hv as (Es & _). destruct Hev as [Hused Hacc].
  assert (0 <= amount i bytes) as Hamt by (unfold amount; destruct (_ =? _)%nat; lia).
  assert (forall t, admit_more adm (user, second s', bytes, ok) t
                    = adm t + (if ok && (second s' =? t) then amount i bytes else 0)) as Ead.
  { intros t. unfold admit_more. cbn. rewrite bool_decide_true, andb_true_r by done. lia. }
  rewrite <- Es in *. pose proof (H2 (second s')).
  constructor; cbn; try assumption; setoid_rewrite Ead.
  - intros t. pose proof (H2 t). destruct ok; cbn [andb]; [|lia]. specialize (Hacc eq_refl).
    destruct (Z.eqb_spec (second s') t) as [<-|]; lia.
  - rewrite lookup_insert_eq. intros a' [= <-]. cbn. split; [exact Hok'|]. split; [lia|]. split.
    + intros t Ht. rewrite (Hz t) by lia. rewrite (proj2 (Z.eqb_neq _ _)), andb_false_r by lia. done.
    + rewrite Z.eqb_refl, andb_true_r. destruct ok; [specialize (Hacc eq_refl)|]; lia.
  - by rewrite lookup_insert_eq.
Qed.

Lemma budget_run_within ops : forall b latest adm t,
  within b latest adm -> clocks_ok latest ops ->
  adm t + admitted_in i user t (budget_run b ops) <= limit p i.
Proof.
  induction ops as [|op ops IH]; intros b latest adm t Hw Hc; [cbn; pose proof (wi_limit _ _ _ Hw t); lia|].
  destruct op as [u now|u out bytes flow now|now|u now]; cbn [budget_run budget_exec clocks_ok] in *.
  - destruct Hc as [Hc Hr]. apply (IH _ latest); [by apply within_begin | exact Hr].
  - destruct Hc as [Hc Hr]. destruct (accounts b !! u) as [a|] eqn:E; [|by apply (IH _ latest)].
    destruct (_ <? _)%nat; [|by apply (IH _ latest)].
    pose proof (within_finish b latest adm u out bytes flow now a) as Hf.
    assert (is_Some (accounts (finish_event b u out bytes flow now).1 !! u)) as [a' Ea'].
    { unfold finish_event. rewrite E. destruct (process _ _ _ _ _ _ _ _) as [[? ?] ?]. cbn.
      rewrite lookup_insert_eq. by eexists. }
    destruct (finish_event b u out bytes flow now) as [b' ok]. cbn [fst snd] in *. rewrite Ea' in *. cbn in *.
    specialize (Hf _ Hw E eq_refl). specialize (IH b' latest _ t Hf Hr). unfold admit_more in IH. cbn in IH. lia.
  - apply (IH _ (Z.max latest now)); [by apply within_evict | exact Hc].
  - apply (IH _ latest); [by apply within_prune | exact Hc].
Qed.

End Enforced.

(** C36: the enforced budget holds in every second: through any interleaving
    of events and maintenance of the whole table, evictions and accounts that
    come back included, the packets (or bytes) an account gets through in one
    second of its window clock never exceed the configured limit, provided no
    event's clock reading is [ACCOUNT_IDLE_SECONDS], ten minutes, or more
    behind that of a maintenance pass that ran before it.  Within that bound
    the threads' clock readings may come in any order: a late one cannot
    reopen an old window. *)
Theorem enforced_budget_per_second (p : Policy) (start : Z) (ops : list BudgetOp)
  (i : nat) (user : str) (t : Z) :
  enforce p = true -> (i <= 1)%nat -> 0 < limit p i < u64_max -> clocks_ok start ops ->
  admitted_in i user t (budget_run (budgets_new p) ops) <= limit p i.
Proof.
  intros He Hi Hl Hc.
  apply (budget_run_within p i user Hi He Hl ops (budgets_new p) start (fun _ => 0)); [|exact Hc].
  constructor; cbn; [done | lia | intros a; by rewrite lookup_empty | done].
Qed.

(** Three packets in second 7, one of them with a clock that is late, and the
    account evicted and back ten minutes later. *)
Definition sample_budget_ops : list BudgetOp :=
  let packet now := [OpBegin (lit "u") now; OpFinish (lit "u") false 10 None now] in
  packet 7 ++ packet 6 ++ packet 7 ++ [OpEvict 607] ++ packet 608.

Lemma enforced_budget_per_second_witness :
  budget_run (budgets_new (MkBudgetPolicy true 2 0 0)) sample_budget_ops
  = [(lit "u", 7, 10%nat, true); (lit "u", 7, 10%nat, true); (lit "u", 7, 10%nat, false); (lit "u", 608, 10%nat, true)]
  /\ admitted_in 0 (lit "u") 7 (budget_run (budgets_new (MkBudgetPolicy true 2 0 0)) sample_budget_ops) <= 2.
Proof.
  split; [vm_compute; reflexivity|].
  apply (enforced_budget_per_second (MkBudgetPolicy true 2 0 0) 0 sample_budget_ops 0 (lit "u") 7).
  - reflexivity.
  - lia.
  - unfold limit, u64_max. cbn [Nat.eqb limit_packets]. lia.
  - cbn. unfold ACCOUNT_IDLE_SECONDS. lia.
Defined.

(** Beyond that bound the code gives an account a second budget: evicted and
    re-created by an event whose clock is ten minutes late, it starts again
    in a second it had used up. *)
Lemma late_clock_reopens_window :
  let packet now := [OpBegin (lit "u") now; OpFinish (lit "u") false 10 None now] in
  admitted_in 0 (lit "u") 7
    (budget_run (budgets_new (MkBudgetPolicy true 2 0 0))
       (packet 7 ++ packet 7 ++ [OpEvict 607] ++ packet 7 ++ packet 7)) = 4.
Proof. vm_compute. reflexivity. Qed.

(* ------------------------------------------------------------------ *)
(** ** Safety of the remaining reads *)

Lemma flow_parse_returns sid p : returns (flow_parse sid p) (fun _ => True).
Proof.
  unfold flow_parse. ostep; [exact I|]. bool_hyps.
  ostep. ostep. ostep; [exact I|]. ostep. ostep. ostep; [exact I|].
  ostep. ostep. ostep; [exact I|]. ostep; [exact I|]. bool_hyps.
  do 2 (ostep; apply returns_rd_ipv4; [lia|intros ? ?]).
  ostep. ostep. ostep. ostep. exact I.
Qed.

Lemma allow_returns b sessions sid out packet now :
  exists r, allow b sessions sid out packet now = Ret r.
Proof.
  unfold allow. destruct (sessions !! sid) as [e|]; [|eauto].
  destruct (negb _); [eauto|]. destruct out; cbn [obind]; [eauto|].
  destruct (returns_inv _ _ (flow_parse_returns sid packet)) as (f & -> & _). cbn. eauto.
Qed.

Lemma sorted_prefix_le (l : list Z) k v :
  StronglySorted Z.le l -> l !! k = Some v -> Forall (fun x => x <= v) (take (S k) l).
Proof.
  intros Hs Hk. rewrite (take_S_r _ _ _ Hk). apply Forall_app. split; [|by repeat constructor].
  rewrite <- (take_drop k l) in Hs. apply Forall_forall. intros x Hx%list_elem_of_In.
  apply (StronglySorted_app_1_elem_of _ _ _ x v Hs Hx).
  apply list_elem_of_lookup_2 with 0%nat. by rewrite lookup_drop, Nat.add_0_r.
Qed.

Lemma filter_all_length {A} (P : A -> Prop) `{!forall x, Decision (P x)} (l : list A) :
  Forall P l -> length (filter P l) = length l.
Proof.
  induction 1 as [|x l Hx _ IH]; [reflexivity|].
  rewrite filter_cons_True by assumption. cbn. by rewrite IH.
Qed.

(** The reported 95th percentile is one: for every account state and
    counter the index is in range (the list is never empty), and at least
    95% of the recent per-second values are at most the reported one. *)
Theorem p95_is_percentile (s : State) (i : nat) :
  let values := List.map (fun v => v !!! i) (samples s) ++ [counts s !!! i] in
  exists v, p95 s i = Ret v /\ v ∈ values
    /\ (95 * length values <= 100 * length (filter (fun x => (x <= v)%Z) values))%nat.
Proof.
  intros values. unfold p95. fold values. set (sorted := merge_sort Z.le values).
  assert (sorted ≡ₚ values) as Hperm by apply merge_sort_Permutation.
  assert (0 < length values)%nat as Hpos by (subst values; rewrite length_app; cbn; lia).
  pose proof (Permutation_length Hperm) as El. rewrite El.
  set (n := length values) in *. set (k := ((n * 95 + 99) / 100 - 1)%nat).
  pose proof (Nat.div_mod_eq (n * 95 + 99) 100) as Hd.
  pose proof (Nat.mod_upper_bound (n * 95 + 99) 100 ltac:(lia)) as Hm.
  set (q := ((n * 95 + 99) / 100)%nat) in *.
  assert (k < n /\ 95 * n <= 100 * S k)%nat as [Hk H95] by (subst k; lia).
  destruct (lookup_lt_is_Some_2 sorted k ltac:(lia)) as [v Hv].
  exists v. split; [by apply rd_lookup|].
  split; [rewrite <- Hperm; by eapply list_elem_of_lookup_2|].
  rewrite <- (Permutation_length (filter_Permutation _ _ _ Hperm)).
  assert (StronglySorted Z.le sorted) as Hs by (apply StronglySorted_merge_sort; apply _).
  pose proof (sorted_prefix_le sorted k v Hs Hv) as Hall.
  rewrite <- (take_drop (S k) sorted), list.filter_app, length_app.
  rewrite (filter_all_length (fun x => x <= v) _ Hall), length_take. lia.
Qed.
