(* ===== verification/Auth.v ===== *)
(** * Relay tickets (src/main.rs: [RelayAuthConfig], [verify_relay_ticket],
    [RelayTicketReplayCache], [parse_auth_hello_token])

    Base64 decoding, Ed25519 verification and JSON decoding are third-party
    code: they are the operations of the class [TicketCrypto], and every
    theorem holds for all of them. *)

From Stdlib Require Import String.
From S2P Require Import Prelude Net RustStr Sessions.

Definition MAX_AUTH_TOKEN_LEN : nat := Z.to_nat 4096.
Definition AUTH_CLOCK_SKEW_SECS : Z := 30.
Definition REPLAY_CACHE_PRUNE_INTERVAL_SECS : Z := 30.
Definition AUTH_HELLO_FRAME_TYPE : Z := 0xA1.
Definition AUTH_ACK_FRAME_TYPE : Z := 0xA2.
Definition AUTH_ACK_OK : Z := 0.
Definition AUTH_ACK_BAD_FORMAT : Z := 1.
Definition AUTH_ACK_BAD_SIGNATURE : Z := 2.
Definition AUTH_ACK_EXPIRED : Z := 3.
Definition AUTH_ACK_SID_MISMATCH : Z := 4.
Definition AUTH_ACK_SERVER_MISMATCH : Z := 5.
Definition AUTH_ACK_AUTH_DISABLED : Z := 6.
Definition AUTH_ACK_REPLAY : Z := 7.
Definition AUTH_ACK_OWNER_MISMATCH : Z := 8.
Definition AUTH_ACK_REAUTH_REQUIRED : Z := 9.

Inductive RelayAuthMode : Type := AuthOff | AuthOptional | AuthRequired.

#[export] Instance RelayAuthMode_eq_dec : EqDecision RelayAuthMode.
Proof. solve_decision. Defined.

Definition auth_mode_from_env (value : option str) : RelayAuthMode :=
  match option_map (fun v => to_ascii_lowercase (trim v)) value with
  | Some v =>
      if str_eqb v (lit "required") then AuthRequired
      else if str_eqb v (lit "optional") then AuthOptional
      else if str_eqb v (lit "off") then AuthOff
      else AuthRequired
  | None => AuthRequired
  end.

Definition requires_auth (m : RelayAuthMode) : bool := negb (bool_decide (m = AuthOff)).

Record RelayAuthConfig : Type := MkAuthConfig {
  auth_mode : RelayAuthMode;
  public_key : option (list Z);
  server_id : option str;
}.

Record RelayTicketClaims : Type := MkClaims {
  c_v : Z; c_iss : str; c_aud : str; c_sub : str; c_sid : str; c_srv : str;
  c_iat : Z; c_exp : Z; c_jti : str; c_lease : bool;
}.

Record VerifiedRelayTicket : Type := MkTicket {
  t_user_id : str; t_jti : str; t_exp : Z; t_lease : bool;
}.

Inductive RelayAuthVerifyError : Type :=
| BadFormat | BadSignature | Expired | SidMismatch | ServerMismatch | Replay | OwnerMismatch.

Definition ack_status (e : RelayAuthVerifyError) : Z :=
  match e with
  | BadFormat => AUTH_ACK_BAD_FORMAT
  | BadSignature => AUTH_ACK_BAD_SIGNATURE
  | Expired => AUTH_ACK_EXPIRED
  | SidMismatch => AUTH_ACK_SID_MISMATCH
  | ServerMismatch => AUTH_ACK_SERVER_MISMATCH
  | Replay => AUTH_ACK_REPLAY
  | OwnerMismatch => AUTH_ACK_OWNER_MISMATCH
  end.

(** The third-party operations: the three base64 engines, Ed25519
    verification of a message under a key, and the typed JSON decoder. *)
Class TicketCrypto : Type := {
  BASE64_URL_SAFE_NO_PAD : str -> option (list Z);
  BASE64_URL_SAFE : str -> option (list Z);
  BASE64_STANDARD : str -> option (list Z);
  ed25519_verify : list Z -> list Z -> list Z -> bool;
  claims_from_slice : list Z -> option RelayTicketClaims;
}.

Section Verify.
Context `{TicketCrypto}.

Definition decode_base64_flexible (input : str) : option (list Z) :=
  match BASE64_URL_SAFE_NO_PAD input with
  | Some b => Some b
  | None =>
      match BASE64_URL_SAFE input with
      | Some b => Some b
      | None => BASE64_STANDARD input
      end
  end.

(** [RelayAuthConfig::from_env]; [None] is the refusal to start. *)
Definition auth_config_from_env (env_mode env_insecure env_key env_server : option str)
  : option RelayAuthConfig :=
  let mode := auth_mode_from_env env_mode in
  if bool_decide (mode = AuthOff) then
    if negb (bool_decide (env_insecure = Some (lit "1"))) then None
    else Some (MkAuthConfig mode None None)
  else
    key_b64 ← env_key;
    key_bytes ← decode_base64_flexible (trim key_b64);
    if negb (length key_bytes =? 32)%nat then None
    else
      server ← env_server;
      if (length (trim server) =? 0)%nat then None
      else Some (MkAuthConfig mode (Some key_bytes) (Some server)).

(** The long disjunction on the claims, and the fixed issuer and audience. *)
Definition claims_malformed (c : RelayTicketClaims) : bool :=
  negb (c_v c =? 1)
  || negb (c_lease c)
  || (64 <? str_len (c_sub c))%nat
  || (str_len (c_jti c) =? 0)%nat
  || (128 <? str_len (c_jti c))%nat
  || negb (forallb (fun b => is_ascii_alphanumeric b || (b =? 45)) (as_bytes (c_sub c)))
  || negb (forallb (fun b => is_ascii_alphanumeric b || (b =? 45) || (b =? 95)) (as_bytes (c_jti c)))
  || (str_len (c_srv c) =? 0)%nat
  || (64 <? str_len (c_srv c))%nat
  || (c_exp c <=? c_iat c)
  || (900 <? c_exp c - c_iat c).

Definition wrong_parties (c : RelayTicketClaims) : bool :=
  negb (str_eqb (c_iss c) (lit "swifttunnel-web"))
  || negb (str_eqb (c_aud c) (lit "swifttunnel-relay"))
  || (str_len (c_sub c) =? 0)%nat.

Definition verify_relay_ticket (token : str) (session_id : SessionId) (auth : RelayAuthConfig)
  (now_unix : Z) : result VerifiedRelayTicket RelayAuthVerifyError :=
  if (str_len token =? 0)%nat || (MAX_AUTH_TOKEN_LEN <? str_len token)%nat
  then Err BadFormat else
  let? (payload_b64, signature_b64) := ok_or (split_once 46 token) BadFormat in
  let? payload := ok_or (decode_base64_flexible payload_b64) BadFormat in
  let? signature := ok_or (decode_base64_flexible signature_b64) BadFormat in
  if negb (length signature =? 64)%nat then Err BadFormat else
  let? key := ok_or (public_key auth) BadFormat in
  if negb (ed25519_verify key payload signature) then Err BadSignature else
  let? claims := ok_or (claims_from_slice payload) BadFormat in
  if claims_malformed claims then Err BadFormat else
  if wrong_parties claims then Err BadFormat else
  let expected_sid := show_hex16 (from_be_bytes session_id) in
  if negb (str_eqb (c_sid claims) expected_sid) then Err SidMismatch else
  let? expected_server := ok_or (server_id auth) BadFormat in
  if negb (str_eqb (c_srv claims) expected_server) then Err ServerMismatch else
  if sat_add now_unix AUTH_CLOCK_SKEW_SECS <? c_iat claims then Err BadFormat else
  if c_exp claims <=? now_unix then Err Expired else
  Ok (MkTicket (c_sub claims) (c_jti claims) (c_exp claims) (c_lease claims)).

End Verify.

(* ------------------------------------------------------------------ *)
(** ** The replay cache *)

Record RelayTicketReplayCache : Type := MkCache {
  seen_jti : gmap str Z;
  last_prune_unix : Z;
}.

Definition cache_new : RelayTicketReplayCache := MkCache ∅ 0.

(** Not yet past its expiry plus the clock skew. *)
Definition remembered (now_unix : Z) (kv : str * Z) : Prop :=
  now_unix <= sat_add kv.2 AUTH_CLOCK_SKEW_SECS.

#[export] Instance remembered_dec now kv : Decision (remembered now kv).
Proof. unfold remembered. apply _. Defined.

Definition prune_expired (self : RelayTicketReplayCache) (now_unix : Z) : RelayTicketReplayCache :=
  if sat_sub now_unix (last_prune_unix self) <? REPLAY_CACHE_PRUNE_INTERVAL_SECS then self
  else MkCache (filter (remembered now_unix) (seen_jti self)) now_unix.

Definition accept_once (self : RelayTicketReplayCache) (jti : str) (exp now_unix : Z)
  : RelayTicketReplayCache * bool :=
  let self := prune_expired self now_unix in
  match seen_jti self !! jti with
  | Some _ => (self, false)
  | None => (MkCache (<[jti := exp]> (seen_jti self)) (last_prune_unix self), true)
  end.

Definition verify_relay_ticket_once `{TicketCrypto} (token : str) (session_id : SessionId)
  (auth : RelayAuthConfig) (now_unix : Z) (cache : RelayTicketReplayCache)
  : RelayTicketReplayCache * result VerifiedRelayTicket RelayAuthVerifyError :=
  match verify_relay_ticket token session_id auth now_unix with
  | Err e => (cache, Err e)
  | Ok ticket =>
      let '(cache, fresh) := accept_once cache (t_jti ticket) (t_exp ticket) now_unix in
      (cache, if fresh then Ok ticket else Err Replay)
  end.

(* ------------------------------------------------------------------ *)
(** ** The hello frame *)

Definition parse_auth_hello_token (frame : list Z) (len : nat)
  : outcome (result str RelayAuthVerifyError) :=
  if (len <? SESSION_ID_LEN + 3)%nat then Ret (Err BadFormat) else
  let* token_len := rd16 frame (SESSION_ID_LEN + 1) in
  let token_len := Z.to_nat token_len in
  let payload_start := (SESSION_ID_LEN + 3)%nat in
  let payload_end := (payload_start + token_len)%nat in
  if (token_len =? 0)%nat || (MAX_AUTH_TOKEN_LEN <? token_len)%nat
     || (len <? payload_end)%nat || negb (payload_end =? len)%nat
  then Ret (Err BadFormat) else
  let* body := slice frame payload_start payload_end in
  Ret (ok_or (from_utf8 body) BadFormat).

(** The packet of [send_auth_ack] and of the v2 control frames. *)
Definition auth_ack_packet (session_id : SessionId) (status : Z) : list Z :=
  session_id ++ [AUTH_ACK_FRAME_TYPE; status].

(* ------------------------------------------------------------------ *)
(** ** What a verified ticket guarantees *)

Section VerifyFacts.
Context `{TicketCrypto}.

(** The claims a token carries, whoever presents it. *)
Definition token_claims (token : str) : option RelayTicketClaims :=
  '(payload_b64, _) ← split_once 46 token;
  payload ← decode_base64_flexible payload_b64;
  claims_from_slice payload.

(** The signature over those claims verifies under the configured key. *)
Definition token_signed (token : str) (auth : RelayAuthConfig) : Prop :=
  exists payload_b64 signature_b64 payload signature key,
    split_once 46 token = Some (payload_b64, signature_b64)
    /\ decode_base64_flexible payload_b64 = Some payload
    /\ decode_base64_flexible signature_b64 = Some signature
    /\ length signature = 64%nat
    /\ public_key auth = Some key
    /\ ed25519_verify key payload signature = true.

Lemma verify_ok_inv token sid auth now t :
  verify_relay_ticket token sid auth now = Ok t ->
  token_signed token auth
  /\ exists c, token_claims token = Some c
    /\ claims_malformed c = false /\ wrong_parties c = false
    /\ c_sid c = show_hex16 (from_be_bytes sid)
    /\ server_id auth = Some (c_srv c)
    /\ c_iat c <= sat_add now AUTH_CLOCK_SKEW_SECS
    /\ now < c_exp c
    /\ t = MkTicket (c_sub c) (c_jti c) (c_exp c) (c_lease c).
Proof.
  unfold verify_relay_ticket, token_signed, token_claims.
  destruct (_ || _); [discriminate|].
  destruct (split_once 46 token) as [[pb sb]|]; cbn [ok_or rbind]; [|discriminate].
  destruct (decode_base64_flexible pb) as [payload|] eqn:Ep; cbn [ok_or rbind]; [|discriminate].
  destruct (decode_base64_flexible sb) as [sig|] eqn:Es; cbn [ok_or rbind]; [|discriminate].
  destruct (Nat.eqb_spec (length sig) 64); cbn [negb]; [|discriminate].
  destruct (public_key auth) as [key|]; cbn [ok_or rbind]; [|discriminate].
  destruct (ed25519_verify key payload sig) eqn:Ev; cbn [negb]; [|discriminate].
  destruct (claims_from_slice payload) as [c|] eqn:Ec; cbn [ok_or rbind]; [|discriminate].
  destruct (claims_malformed c) eqn:Em; [discriminate|].
  destruct (wrong_parties c) eqn:Ew; [discriminate|].
  unfold str_eqb.
  destruct (bool_decide_reflect (c_sid c = show_hex16 (from_be_bytes sid))); cbn [negb]; [|discriminate].
  destruct (server_id auth) as [srv|] eqn:Esrv; cbn [ok_or rbind]; [|discriminate].
  destruct (bool_decide_reflect (c_srv c = srv)); cbn [negb]; [|discriminate].
  destruct (Z.ltb_spec (sat_add now AUTH_CLOCK_SKEW_SECS) (c_iat c)); [discriminate|].
  destruct (Z.leb_spec (c_exp c) now); [discriminate|]. intros [= <-].
  split; [exists pb, sb, payload, sig, key; auto 10|].
  exists c. cbn. rewrite Ep. cbn. subst. auto 10.
Qed.

Lemma claims_times c : claims_malformed c = false -> c_iat c < c_exp c <= c_iat c + 900 /\ c_lease c = true.
Proof.
  unfold claims_malformed. rewrite !orb_false_iff, negb_false_iff.
  intros [[[[[[[[[[_ Hl] _] _] _] _] _] _] _] H1] H2]. apply negb_false_iff in Hl. bool_hyps. split; [lia|done].
Qed.

(** C24: an accepted ticket is authentic and bounded: the payload's signature
    verifies under the configured key, the claims name this session and this
    server, the ticket has a lease, it is unexpired, and the lease it grants
    ends at most 930 seconds after the relay's clock. *)
Theorem ticket_sound (token : str) (sid : SessionId) (auth : RelayAuthConfig) (now : Z)
  (t : VerifiedRelayTicket) :
  verify_relay_ticket token sid auth now = Ok t ->
  token_signed token auth
  /\ (exists c, token_claims token = Some c
       /\ c_sid c = show_hex16 (from_be_bytes sid) /\ server_id auth = Some (c_srv c)
       /\ c_iss c = lit "swifttunnel-web" /\ c_aud c = lit "swifttunnel-relay"
       /\ t_user_id t = c_sub c /\ t_jti t = c_jti c)
  /\ t_lease t = true /\ now < t_exp t <= now + 930.
Proof.
  intros Hv. destruct (verify_ok_inv _ _ _ _ _ Hv) as (Hs & c & Ec & Hm & Hw & Esid & Esrv & Hiat & Hexp & ->).
  destruct (claims_times c Hm) as [Ht Hl]. split; [assumption|].
  unfold wrong_parties, str_eqb in Hw. rewrite !orb_false_iff, !negb_false_iff in Hw.
  destruct Hw as [[Hi Ha] _]. apply bool_decide_eq_true in Hi, Ha.
  unfold sat_add, AUTH_CLOCK_SKEW_SECS, u64_max in Hiat.
  split; [exists c; auto 10|]. cbn. split; [assumption|]. lia.
Qed.

(** A ticket is good for one session id only: the same token never
    verifies for two different session ids, whenever it is presented. *)
Theorem ticket_binds_session (token : str) (sid1 sid2 : SessionId) (auth1 auth2 : RelayAuthConfig)
  (now1 now2 : Z) (t1 t2 : VerifiedRelayTicket) :
  bytes_ok sid1 -> length sid1 = SESSION_ID_LEN -> bytes_ok sid2 -> length sid2 = SESSION_ID_LEN ->
  verify_relay_ticket token sid1 auth1 now1 = Ok t1 ->
  verify_relay_ticket token sid2 auth2 now2 = Ok t2 -> sid1 = sid2.
Proof.
  intros Hb1 Hl1 Hb2 Hl2 H1 H2.
  destruct (verify_ok_inv _ _ _ _ _ H1) as (_ & c & Ec & _ & _ & E1 & _).
  destruct (verify_ok_inv _ _ _ _ _ H2) as (_ & c' & Ec' & _ & _ & E2 & _).
  assert (c' = c) as -> by congruence. rewrite E1 in E2.
  assert (forall l, bytes_ok l -> length l = SESSION_ID_LEN -> is_u64 (from_be_bytes l)) as Hu.
  { intros l Hb Hl. pose proof (from_be_bytes_bound l Hb) as Hx. rewrite Hl in Hx. exact Hx. }
  apply show_hex16_inj in E2; [|by apply Hu..].
  rewrite <- (to_from_be_bytes sid1), <- (to_from_be_bytes sid2) by assumption.
  by rewrite Hl1, Hl2, E2.
Qed.

(* ------------------------------------------------------------------ *)
(** ** Single use *)

Context (auth : RelayAuthConfig).
(** serde decodes [exp] into a [u64]. *)
Hypothesis claims_exp_u64 : forall p c, claims_from_slice p = Some c -> c_exp c <= u64_max.

Fixpoint once_run (cache : RelayTicketReplayCache) (calls : list (str * SessionId * Z))
  : list (result VerifiedRelayTicket RelayAuthVerifyError) :=
  match calls with
  | [] => []
  | (token, sid, now) :: rest =>
      let '(cache, r) := verify_relay_ticket_once token sid auth now cache in
      r :: once_run cache rest
  end.

Fixpoint calls_ordered (from : Z) (calls : list (str * SessionId * Z)) : Prop :=
  match calls with
  | [] => True
  | (_, _, now) :: rest => from <= now /\ calls_ordered now rest
  end.

(** The ticket id is remembered with its expiry, or was, and the clock is past
    that expiry and the skew. *)
Definition spent (cache : RelayTicketReplayCache) (last : Z) (jti : str) (exp : Z) : Prop :=
  seen_jti cache !! jti = Some exp \/ sat_add exp AUTH_CLOCK_SKEW_SECS < last.

Lemma token_exp_u64 token c : token_claims token = Some c -> c_exp c <= u64_max.
Proof.
  unfold token_claims. destruct (split_once 46 token) as [[pb sb]|]; cbn; [|discriminate].
  destruct (decode_base64_flexible pb); cbn; [|discriminate]. apply claims_exp_u64.
Qed.

Lemma sat_add_skew e : e <= u64_max -> e <= sat_add e AUTH_CLOCK_SKEW_SECS.
Proof. unfold sat_add, AUTH_CLOCK_SKEW_SECS. lia. Qed.

Lemma spent_prune cache last now jti exp :
  last <= now -> spent cache last jti exp -> spent (prune_expired cache now) now jti exp.
Proof.
  intros Hle [Hs|Hs]; [|right; lia]. unfold prune_expired. destruct (_ <? _); [by left|]. unfold spent. cbn -[filter].
  destruct (decide (now <= sat_add exp AUTH_CLOCK_SKEW_SECS)); [left|right; lia].
  by apply map_lookup_filter_Some.
Qed.

Lemma spent_step cache last jti exp token sid now :
  last <= now -> spent cache last jti exp ->
  let '(cache', r) := verify_relay_ticket_once token sid auth now cache in
  spent cache' now jti exp
  /\ forall t, r = Ok t -> t_jti t = jti -> sat_add exp AUTH_CLOCK_SKEW_SECS < now.
Proof.
  intros Hle Hsp. unfold verify_relay_ticket_once.
  destruct (verify_relay_ticket token sid auth now) as [t|e].
  - pose proof (spent_prune cache last now jti exp Hle Hsp) as Hp. unfold accept_once.
    set (cache1 := prune_expired cache now) in *. clearbody cache1.
    destruct (seen_jti cache1 !! t_jti t) as [e|] eqn:El; [by split|].
    destruct Hp as [Hd|Hd].
    + assert (jti <> t_jti t) as Hne by congruence. split.
      * left. cbn. by rewrite lookup_insert_ne.
      * intros t' [= <-] <-. congruence.
    + split; [by right|]. auto.
  - split; [|discriminate]. destruct Hsp; [by left | right; lia].
Qed.

Lemma spent_run calls : forall cache last jti exp,
  calls_ordered last calls -> spent cache last jti exp ->
  forall j t, once_run cache calls !! j = Some (Ok t) -> t_jti t = jti ->
  forall c, calls !! j = Some c -> sat_add exp AUTH_CLOCK_SKEW_SECS < c.2.
Proof.
  induction calls as [|[[tok sid] now] calls IH]; intros cache last jti exp Ho Hsp j t Hj Ht c Hc; [done|].
  cbn [once_run calls_ordered] in *. destruct Ho as [Hle Ho].
  pose proof (spent_step cache last jti exp tok sid now Hle Hsp) as Hs.
  destruct (verify_relay_ticket_once tok sid auth now cache) as [cache' r]. destruct Hs as [Hs Hr].
  destruct j as [|j]; cbn in *.
  - injection Hj as ->. injection Hc as <-. by eapply Hr.
  - by eapply IH.
Qed.

Lemma accepted_is_spent cache token sid now cache' t :
  verify_relay_ticket_once token sid auth now cache = (cache', Ok t) -> spent cache' now (t_jti t) (t_exp t).
Proof.
  unfold verify_relay_ticket_once.
  destruct (verify_relay_ticket token sid auth now) as [t'|]; [|intros [= _]; discriminate].
  unfold accept_once. destruct (seen_jti _ !! t_jti t'); [discriminate|]. intros [= <- <-].
  left. apply lookup_insert_eq.
Qed.

Lemma accepted_verified calls : forall cache i t c,
  once_run cache calls !! i = Some (Ok t) -> calls !! i = Some c ->
  verify_relay_ticket c.1.1 c.1.2 auth c.2 = Ok t.
Proof.
  induction calls as [|[[tok sid] now] calls IH]; intros cache i t c Hi Hc; [done|]. cbn [once_run] in Hi.
  unfold verify_relay_ticket_once in Hi. destruct (verify_relay_ticket tok sid auth now) as [t'|e] eqn:Ev.
  - destruct (accept_once cache (t_jti t') (t_exp t') now) as [cache' []]; destruct i as [|i]; cbn in *;
      try discriminate; try (eapply IH; eassumption). injection Hi as <-. injection Hc as <-. exact Ev.
  - destruct i as [|i]; cbn in *; [discriminate | eapply IH; eassumption].
Qed.

(** What was accepted first is over before its id is accepted again. *)
Lemma jti_once calls : forall start cache i j ti tj cj,
  calls_ordered start calls -> (i < j)%nat ->
  once_run cache calls !! i = Some (Ok ti) -> once_run cache calls !! j = Some (Ok tj) ->
  calls !! j = Some cj -> t_jti tj = t_jti ti -> sat_add (t_exp ti) AUTH_CLOCK_SKEW_SECS < cj.2.
Proof.
  induction calls as [|[[tok sid] now] calls IH]; intros start cache i j ti tj cj Ho Hij Hi Hj Hcj Eid; [done|].
  cbn [once_run calls_ordered] in *. destruct Ho as [Hle Ho].
  destruct (verify_relay_ticket_once tok sid auth now cache) as [cache' r] eqn:Ev.
  destruct j as [|j]; [lia|]. destruct i as [|i]; cbn in *.
  - injection Hi as ->. apply accepted_is_spent in Ev. by eapply spent_run.
  - eapply (IH now cache' i j); eauto. lia.
Qed.

(** C25: single use: across any sequence of authentication attempts with a
    clock that does not go backwards, and in spite of the pruning of the
    replay cache, a ticket id that was accepted once is accepted again only
    after that ticket has been over for longer than the clock skew, whatever
    token and session id it comes with; and the same token is never accepted
    twice. *)
Theorem ticket_single_use (start : Z) (calls : list (str * SessionId * Z)) (i j : nat)
  (ti tj : VerifiedRelayTicket) (ci cj : str * SessionId * Z) :
  calls_ordered start calls -> (i < j)%nat ->
  once_run cache_new calls !! i = Some (Ok ti) -> once_run cache_new calls !! j = Some (Ok tj) ->
  calls !! i = Some ci -> calls !! j = Some cj ->
  (t_jti tj = t_jti ti -> sat_add (t_exp ti) AUTH_CLOCK_SKEW_SECS < cj.2) /\ ci.1.1 <> cj.1.1.
Proof.
  intros Ho Hij Hi Hj Hci Hcj.
  assert (t_jti tj = t_jti ti -> sat_add (t_exp ti) AUTH_CLOCK_SKEW_SECS < cj.2) as Hid
    by (by eapply jti_once).
  split; [exact Hid|]. intros Etok.
  destruct (verify_ok_inv _ _ _ _ _ (accepted_verified _ _ _ _ _ Hi Hci)) as (_ & c & Ec & _ & _ & _ & _ & _ & _ & ->).
  destruct (verify_ok_inv _ _ _ _ _ (accepted_verified _ _ _ _ _ Hj Hcj)) as (_ & c' & Ec' & _ & _ & _ & _ & _ & Hexp & ->).
  assert (c' = c) as -> by congruence. specialize (Hid eq_refl). cbn in Hid.
  pose proof (sat_add_skew _ (token_exp_u64 _ _ Ec)). lia.
Qed.

End VerifyFacts.

(* ------------------------------------------------------------------ *)
(** ** Configuration and the hello frame *)

(** The relay does not start open by accident: any configuration it
    starts with either has authentication switched off by an explicit
    [RELAY_AUTH_MODE=off] together with [RELAY_ALLOW_INSECURE=1], or requires
    authentication with a 32-byte key and a server id that is not blank. *)
Theorem auth_config_fails_closed `{TicketCrypto}
  (env_mode env_insecure env_key env_server : option str) (cfg : RelayAuthConfig) :
  auth_config_from_env env_mode env_insecure env_key env_server = Some cfg ->
  (auth_mode cfg = AuthOff /\ requires_auth (auth_mode cfg) = false
   /\ env_insecure = Some (lit "1")
   /\ exists v, env_mode = Some v /\ to_ascii_lowercase (trim v) = lit "off")
  \/ (requires_auth (auth_mode cfg) = true
      /\ (exists key, public_key cfg = Some key /\ length key = 32%nat)
      /\ (exists srv, server_id cfg = Some srv /\ trim srv <> [])).
Proof.
  unfold auth_config_from_env.
  destruct (bool_decide_reflect (auth_mode_from_env env_mode = AuthOff)) as [Hm|Hm].
  - destruct (bool_decide_reflect (env_insecure = Some (lit "1"))) as [Hi|]; [|discriminate].
    intros [= <-]. left. rewrite Hm. repeat split; [assumption|].
    unfold auth_mode_from_env in Hm. destruct env_mode as [v|]; cbn [option_map] in Hm; [|discriminate].
    exists v. split; [reflexivity|]. unfold str_eqb in Hm.
    repeat case_bool_decide; try discriminate; assumption.
  - destruct env_key as [k|]; cbn [mbind option_bind]; [|discriminate].
    destruct (decode_base64_flexible (trim k)) as [key|]; cbn [mbind option_bind]; [|discriminate].
    destruct (Nat.eqb_spec (length key) 32); cbn [negb]; [|discriminate].
    destruct env_server as [srv|]; cbn [mbind option_bind]; [|discriminate].
    destruct (Nat.eqb_spec (length (trim srv)) 0) as [|Hs]; [discriminate|]. intros [= <-]. right.
    cbn. split; [unfold requires_auth; by rewrite bool_decide_false|].
    split; [eauto|]. exists srv. split; [reflexivity|]. intros E. by rewrite E in Hs.
Qed.

(** The hello frame is read exactly: within a buffer of any contents the
    parser never reads outside it, and it yields a token exactly when the
    declared length is between 1 and 4096, is what remains of the datagram
    (no truncation, no trailing bytes), and those bytes are UTF-8. *)
Theorem auth_hello_exact (frame : list Z) (len : nat) :
  bytes_ok frame -> (len <= length frame)%nat ->
  exists r, parse_auth_hello_token frame len = Ret r
    /\ forall token, r = Ok token <->
         exists n, rd16 frame 9 = Ret (Z.of_nat n) /\ (0 < n)%nat /\ Z.of_nat n <= 4096
           /\ len = (11 + n)%nat /\ from_utf8 (take n (drop 11 frame)) = Some token.
Proof.
  intros Hb Hlen. unfold parse_auth_hello_token, SESSION_ID_LEN.
  destruct (Nat.ltb_spec len (8 + 3)) as [Hs|Hs].
  { eexists. split; [reflexivity|]. intros token. split; [discriminate|].
    intros (n & _ & Hn & _ & E & _). lia. }
  destruct (returns_inv (rd16 frame (8 + 1)) (fun v => 0 <= v)) as (v & Ev & Hv).
  { apply returns_rd16; [lia|]. intros hi lo H1 H2.
    pose proof (bytes_ok_lookup _ _ _ Hb H1). pose proof (bytes_ok_lookup _ _ _ Hb H2).
    unfold be16, in_width in *. lia. }
  rewrite Ev. cbn [obind]. set (n := Z.to_nat v). change (8 + 3)%nat with 11%nat.
  assert (rd16 frame 9 = Ret (Z.of_nat n)) as Ev' 
    by (subst n; rewrite Z2Nat.id by lia; exact Ev).
  assert (forall m, rd16 frame 9 = Ret (Z.of_nat m) -> m = n) as Huniq
    by (intros m Em; rewrite Ev' in Em; injection Em; lia).
  assert (Z.of_nat MAX_AUTH_TOKEN_LEN = 4096) as Hmax by (unfold MAX_AUTH_TOKEN_LEN; lia).
  destruct (_ || _) eqn:Ec.
  - eexists. split; [reflexivity|]. intros token. split; [discriminate|].
    intros (m & Em & H1 & H2 & H3 & _). apply Huniq in Em as ->. exfalso.
    rewrite !orb_true_iff in Ec. destruct Ec as [[[Ec|Ec]|Ec]|Ec]; bool_hyps; lia.
  - rewrite !orb_false_iff in Ec. destruct Ec as [[[E1 E2] E3] E4]. bool_hyps.
    unfold slice. rewrite !(proj2 (Nat.leb_le _ _)) by lia. cbn [andb obind].
    replace (11 + n - 11)%nat with n by lia.
    eexists. split; [reflexivity|]. intros token.
    destruct (from_utf8 (take n (drop 11 frame))) as [tok|] eqn:Eu; cbn [ok_or]; split.
    + intros [= <-]. exists n. repeat split; try assumption; lia.
    + intros (m & Em & _ & _ & _ & E). apply Huniq in Em as ->. congruence.
    + discriminate.
    + intros (m & Em & _ & _ & _ & E). apply Huniq in Em as ->. congruence.
Qed.

(* ------------------------------------------------------------------ *)
(** ** Witnesses *)

(** A toy instance of the third-party operations: identity decoding, every
    signature of the key [1; 1; ...] accepted, three payloads with claims. *)
Definition toy_claims (jti : str) : RelayTicketClaims :=
  MkClaims 1 (lit "swifttunnel-web") (lit "swifttunnel-relay") (lit "user-1")
    (lit "0102030405060708") (lit "eu-1") 1000 1600 jti true.
(** A later ticket that reuses the first id. *)
Definition toy_claims_again : RelayTicketClaims :=
  MkClaims 1 (lit "swifttunnel-web") (lit "swifttunnel-relay") (lit "user-1")
    (lit "0102030405060708") (lit "eu-1") 1600 2200 (lit "jti-1") true.

#[local] Instance toy_crypto : TicketCrypto := {
  BASE64_URL_SAFE_NO_PAD := Some;
  BASE64_URL_SAFE := fun _ => None;
  BASE64_STANDARD := fun _ => None;
  ed25519_verify := fun key _ _ => bool_decide (key = replicate 32 1);
  claims_from_slice := fun p =>
    if bool_decide (p = lit "p") then Some (toy_claims (lit "jti-1"))
    else if bool_decide (p = lit "q") then Some (toy_claims (lit "jti-2"))
    else if bool_decide (p = lit "r") then Some toy_claims_again
    else None;
}.

Definition toy_token : str := lit "p." ++ replicate 64 97.
Definition toy_auth : RelayAuthConfig :=
  MkAuthConfig AuthRequired (Some (replicate 32 1)) (Some (lit "eu-1")).
Definition toy_sid : list Z := [1; 2; 3; 4; 5; 6; 7; 8].
Definition toy_ticket : VerifiedRelayTicket := MkTicket (lit "user-1") (lit "jti-1") 1600 true.

Lemma ticket_sound_witness :
  token_signed toy_token toy_auth
  /\ (exists c, token_claims toy_token = Some c
       /\ c_sid c = show_hex16 (from_be_bytes toy_sid) /\ server_id toy_auth = Some (c_srv c)
       /\ c_iss c = lit "swifttunnel-web" /\ c_aud c = lit "swifttunnel-relay"
       /\ t_user_id toy_ticket = c_sub c /\ t_jti toy_ticket = c_jti c)
  /\ t_lease toy_ticket = true /\ 1200 < t_exp toy_ticket <= 1200 + 930.
Proof.
  apply (ticket_sound toy_token toy_sid toy_auth 1200 toy_ticket). vm_compute. reflexivity.
Defined.

Lemma ticket_binds_session_witness : toy_sid = toy_sid.
Proof.
  apply (ticket_binds_session toy_token toy_sid toy_sid toy_auth toy_auth 1200 1300
           toy_ticket toy_ticket); first [vm_compute; reflexivity | idtac].
  all: repeat constructor; vm_compute; congruence.
Defined.

Lemma toy_exp p c : claims_from_slice p = Some c -> c_exp c <= u64_max.
Proof. cbn. repeat case_bool_decide; intros E; simplify_eq E; intros <-; vm_compute; congruence. Qed.

(** A token presented twice, a second token with the same id while the first
    ticket is still remembered, and again when it is over. *)
Definition toy_again : str := lit "r." ++ replicate 64 97.
Definition toy_ticket_again : VerifiedRelayTicket := MkTicket (lit "user-1") (lit "jti-1") 2200 true.
Definition toy_calls : list (str * SessionId * Z) :=
  [(toy_token, toy_sid, 1200); (toy_token, toy_sid, 1201); (toy_again, toy_sid, 1590); (toy_again, toy_sid, 1700)].

Lemma ticket_single_use_witness :
  once_run toy_auth cache_new toy_calls = [Ok toy_ticket; Err Replay; Err Replay; Ok toy_ticket_again]
  /\ (t_jti toy_ticket_again = t_jti toy_ticket -> sat_add 1600 AUTH_CLOCK_SKEW_SECS < 1700)
  /\ toy_token <> toy_again.
Proof.
  split; [vm_compute; reflexivity|].
  apply (ticket_single_use toy_auth toy_exp 0 toy_calls 0 3 toy_ticket toy_ticket_again
    (toy_token, toy_sid, 1200) (toy_again, toy_sid, 1700)).
  all: first [vm_compute; reflexivity | cbn; lia].
Defined.

Lemma auth_config_fails_closed_witness :
  let cfg := MkAuthConfig AuthRequired (Some (replicate 32 1)) (Some (lit "eu-1")) in
  (auth_mode cfg = AuthOff /\ requires_auth (auth_mode cfg) = false
   /\ Some (lit "1") = Some (lit "1")
   /\ exists v, None = Some v /\ to_ascii_lowercase (trim v) = lit "off")
  \/ (requires_auth (auth_mode cfg) = true
      /\ (exists key, public_key cfg = Some key /\ length key = 32%nat)
      /\ (exists srv, server_id cfg = Some srv /\ trim srv <> [])).
Proof.
  apply (auth_config_fails_closed None (Some (lit "1")) (Some (replicate 32 1)) (Some (lit "eu-1"))).
  vm_compute. reflexivity.
Defined.

Lemma auth_hello_exact_witness :
  exists r, parse_auth_hello_token (toy_sid ++ [0xA1; 0; 3] ++ lit "a.b" ++ [9; 9]) 14 = Ret r
    /\ forall token, r = Ok token <->
         exists n, rd16 (toy_sid ++ [0xA1; 0; 3] ++ lit "a.b" ++ [9; 9]) 9 = Ret (Z.of_nat n)
           /\ (0 < n)%nat /\ Z.of_nat n <= 4096 /\ 14%nat = (11 + n)%nat
           /\ from_utf8 (take n (drop 11 (toy_sid ++ [0xA1; 0; 3] ++ lit "a.b" ++ [9; 9])))
              = Some token.
Proof.
  apply (auth_hello_exact (toy_sid ++ [0xA1; 0; 3] ++ lit "a.b" ++ [9; 9]) 14).
  - repeat constructor; vm_compute; congruence.
  - vm_compute. lia.
Defined.
