(* ===== verification/Frames.v ===== *)
(** * Control frames (src/main.rs: ping/pong, RTT reports, resolve requests
    and responses)

    The layouts of the frames a client exchanges with the relay after the
    eight-byte session id. *)

From Stdlib Require Import String.
From S2P Require Import Prelude Net RustStr Sessions.

Definition PING_FRAME_TYPE : Z := 0xA3.
Definition PONG_FRAME_TYPE : Z := 0xA4.
Definition RTT_REPORT_FRAME_TYPE : Z := 0xA5.
Definition RESOLVE_REQUEST_FRAME_TYPE : Z := 0xA6.
Definition RESOLVE_RESPONSE_FRAME_TYPE : Z := 0xA7.
Definition PING_FRAME_LEN : nat := (SESSION_ID_LEN + 1 + 4 + 8)%nat.
Definition PONG_FRAME_LEN : nat := (SESSION_ID_LEN + 1 + 4 + 8 + 8)%nat.
Definition RTT_REPORT_FRAME_LEN : nat := (SESSION_ID_LEN + 1 + 4)%nat.
Definition RESOLVE_MAX_HOSTS_PER_REQUEST : nat := 16.
Definition RESOLVE_MAX_HOSTNAME_LEN : nat := 64.
Definition RESOLVE_MAX_IPS_PER_HOST : nat := 4.

(** [Ipv4Addr::to_string]. *)
Definition show_ipv4 (ip : Ipv4Addr) : str :=
  match octets ip with
  | [a; b; c; d] => show_dec a ++ [46] ++ show_dec b ++ [46] ++ show_dec c ++ [46] ++ show_dec d
  | _ => []
  end.

(** Lowercase hexadecimal without leading zeros, of a 16-bit number. *)
Fixpoint strip_zeros (s : str) : str :=
  match s with
  | c :: ((_ :: _) as rest) => if c =? 48 then strip_zeros rest else c :: rest
  | _ => s
  end.
Definition show_hex (x : Z) : str := strip_zeros (hex_digits 4 x).

(** The first longest run of zero segments: start and length. *)
Fixpoint longest_zeroes (segs : list Z) (i start len best_start best_len : nat) : nat * nat :=
  match segs with
  | [] => (best_start, best_len)
  | 0 :: segs =>
      let start := if (len =? 0)%nat then i else start in
      let len := S len in
      if (best_len <? len)%nat then longest_zeroes segs (S i) start len start len
      else longest_zeroes segs (S i) start len best_start best_len
  | _ :: segs => longest_zeroes segs (S i) 0 0 best_start best_len
  end.

Fixpoint join_hex (segs : list Z) : str :=
  match segs with
  | [] => []
  | [s] => show_hex s
  | s :: rest => show_hex s ++ [58] ++ join_hex rest
  end.

(** [Ipv6Addr::to_string]. *)
Definition show_ipv6 (ip : Z) : str :=
  let segs := List.map (fun k => (ip / 2 ^ (16 * k)) mod 2 ^ 16) [7; 6; 5; 4; 3; 2; 1; 0] in
  if ip / 2 ^ 32 =? 0xffff then lit "::ffff:" ++ show_ipv4 (ip mod 2 ^ 32)
  else
    let '(start, n) := longest_zeroes segs 0 0 0 0 0 in
    if (1 <? n)%nat then join_hex (take start segs) ++ [58; 58] ++ join_hex (drop (start + n) segs)
    else join_hex segs.

(** [SocketAddr::to_string]. *)
Definition show_socket_addr (a : SocketAddr) : str :=
  match a with
  | SockV4 ip port => show_ipv4 ip ++ [58] ++ show_dec port
  | SockV6 ip port _ scope =>
      [91] ++ show_ipv6 ip ++ (if scope =? 0 then [] else [37] ++ show_dec scope)
      ++ [93; 58] ++ show_dec port
  end.

(** The bytes of a pong: the ping's sequence number and timestamp, then the
    relay's clock. *)
Definition pong_bytes (session_id : SessionId) (seq client_ts server_ts : Z) : list Z :=
  session_id ++ [PONG_FRAME_TYPE] ++ to_be_bytes 4 seq ++ to_be_bytes 8 client_ts
  ++ to_be_bytes 8 server_ts.

(** [uN::from_be_bytes([buf[i], ..., buf[i + n - 1]])]. *)
Fixpoint rd_bytes (buf : list Z) (i n : nat) : outcome (list Z) :=
  match n with
  | O => Ret []
  | S n' =>
      let* b := rd buf i in
      let* rest := rd_bytes buf (S i) n' in
      Ret (b :: rest)
  end.
Definition rd_be (buf : list Z) (i n : nat) : outcome Z :=
  let* l := rd_bytes buf i n in Ret (from_be_bytes l).

Definition is_resolvable_roblox_host (host : str) : bool :=
  let h := to_ascii_lowercase (trim_end_matches 46 host) in
  str_eqb h (lit "roblox.com")
  || ends_with h (lit ".roblox.com")
  || ends_with h (lit ".rbxcdn.com")
  || ends_with h (lit ".arkoselabs.com").

(** The loop of [parse_resolve_request] over the remaining hosts; [None] is
    the early [return None]. *)
Fixpoint resolve_hosts (frame : list Z) (len off count : nat) (hosts : list str)
  : outcome (option (list str)) :=
  match count with
  | O => Ret (Some hosts)
  | S count' =>
      if (len <=? off)%nat then Ret None else
      let* hlen := rd frame off in
      let hlen := Z.to_nat hlen in
      let off := (off + 1)%nat in
      if (hlen =? 0)%nat || (RESOLVE_MAX_HOSTNAME_LEN <? hlen)%nat || (len <? off + hlen)%nat
      then Ret None else
      let* raw := slice frame off (off + hlen) in
      match from_utf8 raw with
      | None => Ret None
      | Some host =>
          resolve_hosts frame len (off + hlen) count'
            (if is_resolvable_roblox_host host then hosts ++ [host] else hosts)
      end
  end.

Definition parse_resolve_request (frame : list Z) (len : nat)
  : outcome (option (Z * list str)) :=
  let header := (SESSION_ID_LEN + 1)%nat in
  if (len <? header + 3)%nat then Ret None else
  let* request_id := rd16 frame header in
  let* host_count := rd frame (header + 2) in
  let host_count := Z.to_nat host_count in
  if (RESOLVE_MAX_HOSTS_PER_REQUEST <? host_count)%nat then Ret None else
  let* hosts := resolve_hosts frame len (header + 3) host_count [] in
  Ret (option_map (fun hosts => (request_id, hosts)) hosts).

Definition resolve_answer (host : str) (ips : list Ipv4Addr) : list Z :=
  let hbytes := as_bytes host in
  let hlen := Nat.min (length hbytes) RESOLVE_MAX_HOSTNAME_LEN in
  let ip_count := Nat.min (length ips) RESOLVE_MAX_IPS_PER_HOST in
  [u8 (Z.of_nat hlen)] ++ take hlen hbytes ++ [u8 (Z.of_nat ip_count)]
  ++ concat (List.map octets (take ip_count ips)).

Definition build_resolve_response (session_id : SessionId) (request_id : Z)
  (answers : list (str * list Ipv4Addr)) : list Z :=
  let answer_count := Nat.min (length answers) 255 in
  session_id ++ [RESOLVE_RESPONSE_FRAME_TYPE] ++ to_be_bytes 2 request_id
  ++ [u8 (Z.of_nat answer_count)]
  ++ concat (List.map (fun a => resolve_answer a.1 a.2) (take answer_count answers)).

(** [resolve_roblox_host_ipv4] after the lookup: the IPv4 answers without
    consecutive duplicates, at most four. *)
Fixpoint dedup_adjacent (l : list Z) : list Z :=
  match l with
  | a :: ((b :: _) as rest) => if a =? b then dedup_adjacent rest else a :: dedup_adjacent rest
  | _ => l
  end.

Definition resolve_roblox_host_ipv4 (lookup_host : str -> option (list IpAddr)) (host : str)
  : list Ipv4Addr :=
  match lookup_host host with
  | Some addrs =>
      take RESOLVE_MAX_IPS_PER_HOST
        (dedup_adjacent (omap (fun a => match a with V4 v4 => Some v4 | V6 _ => None end) addrs))
  | None => []
  end.

(** The resolve task: answers for the hosts that resolve, in order. *)
Definition resolve_reply (lookup_host : str -> option (list IpAddr)) (session_id : SessionId)
  (request_id : Z) (hosts : list str) : list Z :=
  build_resolve_response session_id request_id
    (omap (fun host => match resolve_roblox_host_ipv4 lookup_host host with
                       | [] => None
                       | ips => Some (host, ips)
                       end) hosts).

(* ------------------------------------------------------------------ *)
(** ** Lemmas and theorems *)

Lemma rd_bytes_returns buf i n (Q : list Z -> Prop) :
  (i + n <= length buf)%nat -> Q (take n (drop i buf)) -> returns (rd_bytes buf i n) Q.
Proof.
  revert i Q. induction n as [|n IH]; intros i Q Hl HQ; [cbn; by rewrite take_0 in HQ|].
  cbn [rd_bytes]. ostep. ostep. ostep. apply IH; [lia|]. ostep.
  rewrite (drop_S _ _ _ Hrd) in HQ. exact HQ.
Qed.

Lemma rd_be_returns buf i n (Q : Z -> Prop) :
  (i + n <= length buf)%nat -> Q (from_be_bytes (take n (drop i buf))) -> returns (rd_be buf i n) Q.
Proof. intros Hl HQ. unfold rd_be. ostep. apply rd_bytes_returns; assumption. Qed.

Lemma resolve_hosts_returns frame len off count hosts :
  bytes_ok frame -> (len <= length frame)%nat ->
  Forall (fun h => is_resolvable_roblox_host h = true) hosts ->
  returns (resolve_hosts frame len off count hosts) (fun r =>
    match r with
    | None => True
    | Some hs => Forall (fun h => is_resolvable_roblox_host h = true) hs
        /\ (length hs <= length hosts + count)%nat
    end).
Proof.
  intros Hb Hlen. revert off hosts. induction count as [|count IH]; intros off hosts Hh.
  { cbn. split; [assumption|lia]. }
  cbn [resolve_hosts]. ostep; [exact I|]. bool_hyps. ostep. ostep. ostep; [exact I|]. bool_hyps.
  ostep. ostep. ostep; [|exact I].
  eapply returns_mono; [apply IH|].
  - destruct (is_resolvable_roblox_host _) eqn:E; [|assumption].
    apply Forall_app. split; [assumption|]. by repeat constructor.
  - intros [hs|]; [|done]. intros [Hf Hn]. split; [assumption|].
    destruct (is_resolvable_roblox_host _); [rewrite length_app in Hn; cbn in Hn|]; lia.
Qed.

Lemma parse_resolve_returns (frame : list Z) (len : nat) :
  bytes_ok frame -> (len <= length frame)%nat ->
  exists r, parse_resolve_request frame len = Ret r
    /\ forall id hosts, r = Some (id, hosts) ->
         (length hosts <= 16)%nat
         /\ Forall (fun h => is_resolvable_roblox_host h = true) hosts.
Proof.
  intros Hb Hlen. apply returns_inv. unfold parse_resolve_request, SESSION_ID_LEN.
  ostep; [done|]. bool_hyps. ostep. ostep. ostep. ostep. ostep; [done|]. bool_hyps. ostep.
  eapply returns_mono; [apply resolve_hosts_returns; [assumption..|constructor]|].
  intros [hs|]; cbn [obind returns option_map]; [|done].
  intros [Hf Hn] id hosts [= _ <-]. split; [|assumption].
  unfold RESOLVE_MAX_HOSTS_PER_REQUEST in *. cbn in Hn. lia.
Qed.

(** The resolver is not open: for every datagram the resolve-request
    parser stays inside the buffer, and every name it hands to the resolver
    is under one of the allowlisted domains, at most 16 per request. *)
Theorem resolve_only_roblox (frame : list Z) (len : nat) :
  bytes_ok frame -> (len <= length frame)%nat ->
  exists r, parse_resolve_request frame len = Ret r
    /\ forall id hosts, r = Some (id, hosts) ->
         (length hosts <= 16)%nat
         /\ Forall (fun h => is_resolvable_roblox_host h = true) hosts.
Proof. apply parse_resolve_returns. Qed.

Definition sample_request : list Z :=
  [1; 2; 3; 4; 5; 6; 7; 8; 0xA6; 0; 9; 2] ++ [14] ++ lit "www.roblox.com" ++ [8] ++ lit "evil.com".

Lemma resolve_only_roblox_witness :
  exists r, parse_resolve_request sample_request 36 = Ret r
    /\ forall id hosts, r = Some (id, hosts) ->
         (length hosts <= 16)%nat
         /\ Forall (fun h => is_resolvable_roblox_host h = true) hosts.
Proof.
  apply (resolve_only_roblox sample_request 36).
  - repeat constructor; vm_compute; congruence.
  - vm_compute. lia.
Defined.

(** The request a client writes for a list of names. *)
Definition encode_request (session_id : SessionId) (request_id : Z) (hosts : list str) : list Z :=
  session_id ++ [RESOLVE_REQUEST_FRAME_TYPE] ++ to_be_bytes 2 request_id
  ++ [Z.of_nat (length hosts)]
  ++ concat (List.map (fun h => Z.of_nat (length h) :: h) hosts).

Definition host_ok (h : str) : Prop :=
  Forall (fun c => 0 <= c < 0x80) h /\ (1 <= length h <= 64)%nat.

Lemma resolve_hosts_encode pre hosts post acc len :
  Forall host_ok hosts ->
  len = (length pre + length (concat (List.map (fun h => Z.of_nat (length h) :: h) hosts)))%nat ->
  resolve_hosts (pre ++ concat (List.map (fun h => Z.of_nat (length h) :: h) hosts) ++ post) len
    (length pre) (length hosts) acc
  = Ret (Some (acc ++ List.filter is_resolvable_roblox_host hosts)).
Proof.
  intros Hh. revert pre acc len. induction Hh as [|h hosts [Ha Hl] _ IH]; intros pre acc len Elen.
  { cbn. by rewrite app_nil_r. }
  cbn [List.map concat length resolve_hosts List.filter] in *.
  set (tail := concat (List.map (fun h => Z.of_nat (length h) :: h) hosts)) in *.
  rewrite length_app in Elen. cbn [length] in Elen.
  rewrite (proj2 (Nat.leb_gt _ _)) by lia.
  assert (forall k l, rd (pre ++ k :: l) (length pre) = Ret k) as Hrd
    by (intros; unfold rd; by rewrite list_lookup_middle).
  cbn [app]. rewrite Hrd. cbn [obind]. rewrite Nat2Z.id. unfold RESOLVE_MAX_HOSTNAME_LEN.
  rewrite (proj2 (Nat.eqb_neq _ _)), !(proj2 (Nat.ltb_ge _ _)) by lia. cbn [orb].
  assert (slice (pre ++ Z.of_nat (length h) :: (h ++ tail) ++ post) (length pre + 1)
            (length pre + 1 + length h) = Ret h) as ->.
  { unfold slice. rewrite !(proj2 (Nat.leb_le _ _));
      [|rewrite !length_app; cbn; rewrite !length_app; lia | lia]. cbn [andb]. f_equal.
    replace (length pre + 1 + length h - (length pre + 1))%nat with (length h) by lia.
    rewrite cons_middle, app_assoc, drop_app_length' by (rewrite length_app; cbn; lia).
    rewrite <- app_assoc. by rewrite take_app_length. }
  cbn [obind]. destruct (from_utf8_ascii h Ha) as [-> _].
  specialize (IH (pre ++ Z.of_nat (length h) :: h)
    (if is_resolvable_roblox_host h then acc ++ [h] else acc) len).
  rewrite <- app_assoc in IH. cbn [app] in IH. rewrite <- app_assoc.
  replace (length (pre ++ Z.of_nat (length h) :: h)) with (length pre + 1 + length h)%nat in IH
    by (rewrite length_app; cbn; lia).
  rewrite IH by lia. do 2 f_equal. destruct (is_resolvable_roblox_host h); [|reflexivity].
  by rewrite <- app_assoc.
Qed.

(** Resolve requests round-trip: a well-formed request (ASCII names of 1
    to 64 bytes, at most 16) is read back with its id and exactly its
    allowlisted names, in order, whatever follows it in the buffer. *)
Theorem resolve_request_roundtrip (session_id : SessionId) (request_id : Z) (hosts : list str)
  (junk : list Z) :
  length session_id = SESSION_ID_LEN -> is_u16 request_id -> (length hosts <= 16)%nat ->
  Forall host_ok hosts ->
  let frame := encode_request session_id request_id hosts in
  parse_resolve_request (frame ++ junk) (length frame)
  = Ret (Some (request_id, List.filter is_resolvable_roblox_host hosts)).
Proof.
  intros Hs Hid Hn Hh frame. unfold frame, encode_request. clear frame.
  unfold SESSION_ID_LEN in Hs. uncons_list session_id 8. destruct session_id; [|cbn in Hs; lia].
  set (body := concat (List.map (fun h => Z.of_nat (length h) :: h) hosts)).
  unfold parse_resolve_request, SESSION_ID_LEN.
  cbn [app length Nat.add to_be_bytes]. rewrite (proj2 (Nat.ltb_ge _ _)) by lia.
  unfold rd16, rd. cbn [lookup list_lookup app Nat.add obind].
  rewrite Nat2Z.id. unfold RESOLVE_MAX_HOSTS_PER_REQUEST.
  rewrite (proj2 (Nat.ltb_ge _ _)) by lia.
  match goal with |- context [resolve_hosts ?f ?l 12 _ _] =>
    pose proof (resolve_hosts_encode
      [z; z0; z1; z2; z3; z4; z5; z6; RESOLVE_REQUEST_FRAME_TYPE;
       request_id / 256 ^ Z.of_nat 1 mod 256; request_id / 256 ^ Z.of_nat 0 mod 256;
       Z.of_nat (length hosts)] hosts junk [] l Hh eq_refl) as E end.
  fold body in E. cbn [app length] in E. rewrite E. cbn [obind option_map app]. do 3 f_equal.
  pose proof (from_to_be_bytes 2 request_id) as Eb. cbn [to_be_bytes] in Eb.
  unfold from_be_bytes in Eb. cbn [fold_left] in Eb. unfold be16.
  rewrite Z.mul_0_l, Z.add_0_l in Eb. rewrite Eb. apply Z.mod_small. exact Hid.
Qed.

Lemma resolve_request_roundtrip_witness :
  let hosts := [lit "www.roblox.com"; lit "evil.com"] in
  let frame := encode_request [1; 2; 3; 4; 5; 6; 7; 8] 777 hosts in
  parse_resolve_request (frame ++ [0; 0]) (length frame)
  = Ret (Some (777, List.filter is_resolvable_roblox_host hosts)).
Proof.
  apply (resolve_request_roundtrip [1; 2; 3; 4; 5; 6; 7; 8] 777
           [lit "www.roblox.com"; lit "evil.com"] [0; 0]).
  - reflexivity.
  - unfold in_width. lia.
  - cbn. lia.
  - repeat constructor; vm_compute; first [congruence | lia].
Defined.
