(* ===== verification/HttpApi.v ===== *)
(** * The statistics and health endpoints (src/main.rs:
    [handle_stats_http_client_blocking], [handle_stats_http_client],
    [run_health_http_server_blocking], [render_connections_payload],
    [find_http_header_end], [escape_json])

    What a client sends arrives in pieces: a list of results of [read].  The
    handler reads until the end of the headers, parses the request line and
    the authorization header, and answers.  The bodies rendered with
    [serde_json] and the counters behind them are parameters. *)

From Stdlib Require Import String.
From S2P Require Import Prelude Net RustStr Stats Sessions Auth Frames.

Definition MAX_HTTP_REQUEST_SIZE : nat := Z.to_nat 8192.

(* ------------------------------------------------------------------ *)
(** ** Requests *)

(** [buf.windows(4).position(|w| w == b"\r\n\r\n").map(|i| i + 4)]. *)
Fixpoint find_http_header_end (buf : list Z) : option nat :=
  match buf with
  | [] => None
  | _ :: rest =>
      if bool_decide (take 4 buf = [13; 10; 13; 10]) then Some 4%nat
      else option_map S (find_http_header_end rest)
  end.

(** The result of one [read] into the rest of the buffer. *)
Inductive ReadResult : Type :=
| ReadOk (bytes : list Z)
| ReadTimedOut
| ReadFailed.

Inductive Request : Type :=
| Headers (buf : list Z)
| Incomplete (buf : list Z)
| TooLarge
| RequestTimedOut
| ConnectionError.

(** The read loop; the kernel fills at most the rest of the buffer, and a
    client that sends nothing more has closed the connection. *)
Fixpoint read_request (reads : list ReadResult) (buf : list Z) : Request :=
  if (MAX_HTTP_REQUEST_SIZE <=? length buf)%nat then TooLarge else
  match reads with
  | [] | ReadOk [] :: _ => Incomplete buf
  | ReadTimedOut :: _ => RequestTimedOut
  | ReadFailed :: _ => ConnectionError
  | ReadOk bytes :: rest =>
      let buf := buf ++ take (MAX_HTTP_REQUEST_SIZE - length buf) bytes in
      if bool_decide (is_Some (find_http_header_end buf)) then Headers buf
      else read_request rest buf
  end.

(** [split("\r\n")]. *)
Fixpoint split_crlf (s : str) : list str :=
  match s with
  | [] => [[]]
  | c :: rest =>
      match rest with
      | [] => [[c]]
      | d :: rest' =>
          if (c =? 13) && (d =? 10) then [] :: split_crlf rest'
          else match split_crlf rest with
               | w :: ws => (c :: w) :: ws
               | [] => [[c]]
               end
      end
  end.

(** [name.eq_ignore_ascii_case(..)]. *)
Definition eq_ignore_ascii_case (a b : str) : bool :=
  bool_decide (to_ascii_lowercase a = to_ascii_lowercase b).

(** The header lines up to the first empty one; the last authorization
    header counts. *)
Fixpoint find_auth_header (lines : list str) (acc : option str) : option str :=
  match lines with
  | [] => acc
  | line :: rest =>
      if (length line =? 0)%nat then acc
      else
        let acc :=
          match split_once 58 line with
          | Some (name, value) =>
              if eq_ignore_ascii_case name (lit "authorization") then Some (trim value) else acc
          | None => acc
          end in
        find_auth_header rest acc
  end.

(* ------------------------------------------------------------------ *)
(** ** Answers *)

Record HttpResponse : Type := MkResponse { status_code : Z; status_text : str; body : str }.

(** What becomes of a client: no answer, an error, or a response. *)
Inductive ClientResult : Type :=
| NoAnswer
| Failed
| Answered (r : HttpResponse).

Definition error_response (code : Z) (text error : string) : HttpResponse :=
  MkResponse code (lit text) (lit "{" ++ [34] ++ lit "error" ++ [34; 58; 34] ++ lit error ++ [34] ++ lit "}").

(** The endpoints and their bodies. *)
Record Bodies : Type := MkBodies {
  account_budgets : str;
  dest_policy : str;
  stats_payload : str;
  connections : str;
  config_payload : str;
}.

Definition route (bodies : Bodies) (path : str) : option str :=
  if str_eqb path (lit "/v1/account-budgets") then Some (account_budgets bodies)
  else if str_eqb path (lit "/v1/dest-policy") then Some (dest_policy bodies)
  else if str_eqb path (lit "/v1/stats") then Some (stats_payload bodies)
  else if str_eqb path (lit "/v1/connections") then Some (connections bodies)
  else if str_eqb path (lit "/v1/config") then Some (config_payload bodies)
  else None.

(** The answer to complete headers. *)
Definition answer (token : str) (bodies : Bodies) (buf : list Z) : HttpResponse :=
  let header_end := default (length buf) (find_http_header_end buf) in
  let request := from_utf8_lossy (take header_end buf) in
  let lines := split_crlf request in
  let request_line := default [] (head lines) in
  let parts := split_whitespace request_line in
  let method := default [] (head parts) in
  let path := default [] (parts !! 1%nat) in
  if (length method =? 0)%nat || (length path =? 0)%nat then
    error_response 400 "Bad Request" "bad_request_line"
  else
  let auth_header := find_auth_header (tail lines) None in
  if negb (str_eqb method (lit "GET")) then
    error_response 405 "Method Not Allowed" "method_not_allowed"
  else if negb (bool_decide (auth_header = Some (lit "Bearer " ++ token))) then
    error_response 401 "Unauthorized" "unauthorized"
  else
    match route bodies path with
    | Some b => MkResponse 200 (lit "OK") b
    | None => error_response 404 "Not Found" "not_found"
    end.

(** What follows the read loop. *)
Definition finish (token : str) (bodies : Bodies) (r : Request) : ClientResult :=
  match r with
  | TooLarge => Answered (error_response 431 "Request Header Fields Too Large" "request_too_large")
  | RequestTimedOut => Answered (error_response 408 "Request Timeout" "request_timeout")
  | ConnectionError => Failed
  | Incomplete [] => NoAnswer
  | Incomplete _ => Answered (error_response 400 "Bad Request" "incomplete_request_headers")
  | Headers buf => Answered (answer token bodies buf)
  end.

Definition handle_stats_http_client_blocking (token : str) (bodies : Bodies) (reads : list ReadResult)
  : ClientResult := finish token bodies (read_request reads []).

(** The asynchronous handler, which the tests drive: the timeout is around
    the read, and any error of the read itself ends the connection. *)
Inductive AsyncRead : Type :=
| AsyncOk (bytes : list Z)
| AsyncErr
| AsyncElapsed.

Fixpoint read_request_async (reads : list AsyncRead) (buf : list Z) : Request :=
  if (MAX_HTTP_REQUEST_SIZE <=? length buf)%nat then TooLarge else
  match reads with
  | [] => Incomplete buf
  | AsyncElapsed :: _ => RequestTimedOut
  | AsyncErr :: _ => ConnectionError
  | AsyncOk bytes :: rest =>
      if (length bytes =? 0)%nat then Incomplete buf
      else
        let buf := buf ++ take (MAX_HTTP_REQUEST_SIZE - length buf) bytes in
        if bool_decide (is_Some (find_http_header_end buf)) then Headers buf
        else read_request_async rest buf
  end.

Definition handle_stats_http_client (token : str) (bodies : Bodies) (reads : list AsyncRead)
  : ClientResult := finish token bodies (read_request_async reads []).

(** [write_http_response]: the length is in bytes. *)
Definition write_http_response (r : HttpResponse) : list Z :=
  as_bytes (lit "HTTP/1.1 " ++ show_dec (status_code r) ++ [32] ++ status_text r ++ [13; 10]
    ++ lit "Content-Type: application/json" ++ [13; 10]
    ++ lit "Content-Length: " ++ show_dec (Z.of_nat (str_len (body r))) ++ [13; 10]
    ++ lit "Connection: close" ++ [13; 10; 13; 10] ++ body r).

(** The health endpoint: one read of at most 1024 bytes (nothing when it
    fails), the second word of whatever was sent.  [server_id] is the quoted
    text [serde_json] makes of the server id. *)
Definition starts_with (s prefix : str) : bool := bool_decide (take (length prefix) s = prefix).

Definition health_answer (server_id version : str) (uptime : Z) (received : list Z) : HttpResponse :=
  let request := from_utf8_lossy (take 1024 received) in
  let path := default (lit "/") (split_whitespace request !! 1%nat) in
  if starts_with path (lit "/health") then
    MkResponse 200 (lit "OK")
      (lit "{" ++ [34] ++ lit "status" ++ [34; 58; 34] ++ lit "ok" ++ [34; 44; 34] ++ lit "server_id" ++ [34; 58]
       ++ server_id ++ [44; 34] ++ lit "uptime_seconds" ++ [34; 58] ++ show_dec uptime
       ++ [44; 34] ++ lit "version" ++ [34; 58; 34] ++ version ++ [34] ++ lit "}")
  else
    MkResponse 404 (lit "Not Found")
      (lit "{" ++ [34] ++ lit "error" ++ [34; 58; 34] ++ lit "not found" ++ [34] ++ lit "}").

Definition health_response (r : HttpResponse) : list Z :=
  as_bytes (lit "HTTP/1.1 " ++ show_dec (status_code r) ++ [32] ++ status_text r ++ [13; 10]
    ++ lit "Content-Type: application/json" ++ [13; 10]
    ++ lit "Content-Length: " ++ show_dec (Z.of_nat (str_len (body r))) ++ [13; 10]
    ++ lit "Cache-Control: no-store" ++ [13; 10]
    ++ lit "Connection: close" ++ [13; 10; 13; 10] ++ body r).

(* ------------------------------------------------------------------ *)
(** ** The connections payload *)

Definition escape_char (ch : Z) : str :=
  if ch =? 34 then [92; 34]
  else if ch =? 92 then [92; 92]
  else if ch =? 10 then [92; 110]
  else if ch =? 13 then [92; 114]
  else if ch =? 9 then [92; 116]
  else [ch].
Definition escape_json (value : str) : str := concat (List.map escape_char value).

Record ConnectionSnapshot : Type := MkSnapshot {
  sn_user_id : str;
  sn_session_id : str;
  sn_auth_state : str;
  sn_connected_at : Z;
  sn_last_activity_at : Z;
  sn_bytes_in : Z;
  sn_bytes_out : Z;
  sn_client_endpoint : str;
  sn_packets_in : Z;
  sn_packets_out : Z;
  sn_rtt_us : Z;
}.

(** [SessionAuthState::as_str]. *)
Definition auth_state_str (s : SessionAuthState) : str :=
  match s with
  | Legacy => lit "legacy"
  | Authenticated => lit "authenticated"
  end.

(** A session with traffic counters, and one that has none yet. *)
Definition with_traffic (sid : SessionId) (e : SessionEntry) (t : SessionTraffic) : ConnectionSnapshot :=
  MkSnapshot (user_id e) (show_hex16 (from_be_bytes sid)) (auth_state_str (auth_state e))
    (Z.max (connected_at_unix t) (created_at_unix e)) (t_last_activity_unix t)
    (t_bytes_in t) (t_bytes_out t) (show_socket_addr (client_addr e))
    (t_packets_in t) (t_packets_out t) (last_rtt_us t).
Definition without_traffic (sid : SessionId) (e : SessionEntry) : ConnectionSnapshot :=
  MkSnapshot (user_id e) (show_hex16 (from_be_bytes sid)) (auth_state_str (auth_state e))
    (created_at_unix e) (last_activity_unix e) 0 0 (show_socket_addr (client_addr e)) 0 0 0.

(** Most recent activity first. *)
Definition more_recent (a b : ConnectionSnapshot) : Prop :=
  sn_last_activity_at b <= sn_last_activity_at a.
#[export] Instance more_recent_dec a b : Decision (more_recent a b).
Proof. unfold more_recent. apply _. Defined.

(** The two passes: the sessions with traffic in the order of the traffic
    table, then the others in the order of the copied session table.  The
    iteration orders of the hash tables are arguments. *)
Definition connection_snapshots (sessions : Sessions) (traffic : Traffic)
  (traffic_order session_order : list SessionId) : list ConnectionSnapshot :=
  let seen := filter (fun sid => is_Some (sessions !! sid)) traffic_order in
  let first := omap (fun sid => match sessions !! sid, traffic !! sid with
                                | Some e, Some t => Some (with_traffic sid e t)
                                | _, _ => None
                                end) traffic_order in
  let second := omap (fun sid => if decide (sid ∈ seen) then None
                                 else option_map (without_traffic sid) (sessions !! sid)) session_order in
  merge_sort more_recent (first ++ second).

(** A member of a JSON object: a quoted name, then the value. *)
Definition json_num (name : string) (value : Z) : str :=
  [34] ++ lit name ++ [34; 58] ++ show_dec value.
Definition json_str (name : string) (value : str) : str :=
  [34] ++ lit name ++ [34; 58; 34] ++ escape_json value ++ [34].

Definition render_connection (c : ConnectionSnapshot) : str :=
  [123] ++ json_str "user_id" (sn_user_id c) ++ [44] ++ json_str "session_id" (sn_session_id c)
  ++ [44] ++ json_str "auth_state" (sn_auth_state c) ++ [44] ++ json_num "connected_at" (sn_connected_at c)
  ++ [44] ++ json_num "last_activity_at" (sn_last_activity_at c)
  ++ [44] ++ json_num "bytes_in" (sn_bytes_in c) ++ [44] ++ json_num "bytes_out" (sn_bytes_out c)
  ++ [44] ++ json_str "client_endpoint" (sn_client_endpoint c)
  ++ [44] ++ json_num "packets_in" (sn_packets_in c) ++ [44] ++ json_num "packets_out" (sn_packets_out c)
  ++ [44] ++ json_num "rtt_us" (sn_rtt_us c) ++ [125].

Fixpoint join_commas (l : list str) : str :=
  match l with
  | [] => []
  | [x] => x
  | x :: rest => x ++ [44] ++ join_commas rest
  end.

Definition render_connections_payload (sessions : Sessions) (traffic : Traffic)
  (traffic_order session_order : list SessionId) (now_unix : Z) : str :=
  [123] ++ json_num "timestamp" now_unix ++ [44; 34] ++ lit "connections" ++ [34; 58; 91]
  ++ join_commas (List.map render_connection (connection_snapshots sessions traffic traffic_order session_order))
  ++ [93; 125].

Definition empty_connections_payload (now_unix : Z) : str :=
  [123] ++ json_num "timestamp" now_unix ++ [44; 34] ++ lit "connections" ++ [34; 58; 91; 93; 125].

(* ------------------------------------------------------------------ *)
(** ** The token *)

(** [y] occurs in [l] without gaps. *)
Definition infix (y l : list Z) : Prop := exists a b, l = a ++ y ++ b.

Lemma infix_refl l : infix l l.
Proof. exists [], []. by rewrite app_nil_r. Qed.
Lemma infix_trans a b c : infix a b -> infix b c -> infix a c.
Proof.
  intros (x & y & ->) (u & v & ->). exists (u ++ x), (y ++ v). by rewrite <- !app_assoc.
Qed.
Lemma infix_app_r y l b : infix y l -> infix y (l ++ b).
Proof. intros (u & v & ->). exists u, (v ++ b). by rewrite <- !app_assoc. Qed.
Lemma infix_app_l y l a : infix y l -> infix y (a ++ l).
Proof. intros (u & v & ->). exists (a ++ u), v. by rewrite <- !app_assoc. Qed.
Lemma infix_rev y l : infix y l -> infix (rev y) (rev l).
Proof. intros (a & b & ->). exists (rev b), (rev a). by rewrite !rev_app_distr, app_assoc. Qed.

Lemma trim_start_infix s : infix (trim_start s) s.
Proof.
  induction s as [|c s IH]; cbn; [apply infix_refl|]. destruct (is_whitespace c); [|apply infix_refl].
  by apply (infix_app_l _ _ [c]).
Qed.
Lemma trim_infix s : infix (trim s) s.
Proof.
  eapply infix_trans; [|apply trim_start_infix]. unfold trim, trim_end.
  rewrite <- (rev_involutive (trim_start s)) at 2. apply infix_rev, trim_start_infix.
Qed.
Lemma split_once_eq sep s a b : split_once sep s = Some (a, b) -> s = a ++ sep :: b.
Proof.
  revert a b. induction s as [|c s IH]; intros a b; cbn; [discriminate|].
  destruct (Z.eqb_spec c sep) as [->|Hne]; [by intros [= <- <-]|].
  destruct (split_once sep s) as [[x y]|]; [|discriminate]. intros [= <- <-]. cbn. f_equal. by apply IH.
Qed.
(** The first piece is a prefix, the others occur. *)
Lemma split_crlf_pieces n s : (length s <= n)%nat ->
  exists w ws, split_crlf s = w :: ws /\ (exists b, s = w ++ b) /\ Forall (fun x => infix x s) ws.
Proof.
  revert s. induction n as [|n IH]; intros s Hn.
  { destruct s; [|cbn in Hn; lia]. exists [], []. split; [done|]. split; [by exists []|constructor]. }
  destruct s as [|c [|d s]]; cbn [length] in Hn.
  - exists [], []. split; [done|]. split; [by exists []|constructor].
  - exists [c], []. split; [done|]. split; [by exists []|constructor].
  - change (split_crlf (c :: d :: s)) with
      (if (c =? 13) && (d =? 10) then [] :: split_crlf s
       else match split_crlf (d :: s) with w :: ws => (c :: w) :: ws | [] => [[c]] end).
    destruct (_ && _).
    + destruct (IH s ltac:(lia)) as (w & ws & -> & [b Eb] & Hws). exists [], (w :: ws).
      split; [done|]. split; [by exists (c :: d :: s)|]. constructor.
      * apply (infix_app_l _ _ [c; d]). exists [], b. exact Eb.
      * eapply Forall_impl; [|exact Hws]. intros x Hx. by apply (infix_app_l _ _ [c; d]).
    + destruct (IH (d :: s) ltac:(cbn; lia)) as (w & ws & -> & [b Eb] & Hws). exists (c :: w), ws.
      split; [done|]. split; [exists b; cbn; by rewrite <- Eb|].
      eapply Forall_impl; [|exact Hws]. intros x Hx. by apply (infix_app_l _ _ [c]).
Qed.

Lemma find_auth_header_infix s lines acc v :
  Forall (fun x => infix x s) lines -> find_auth_header lines acc = Some v -> acc = Some v \/ infix v s.
Proof.
  intros Hl. revert acc. induction Hl as [|line lines Hi Hl IH]; intros acc E; [by left|].
  cbn [find_auth_header] in E. destruct (length line =? 0)%nat; [by left|].
  apply IH in E as [E|E]; [|by right].
  destruct (split_once 58 line) as [[name value]|] eqn:Es; [|by left].
  destruct (eq_ignore_ascii_case name (lit "authorization")); [|by left]. injection E as <-. right.
  apply split_once_eq in Es. eapply infix_trans; [apply trim_infix|]. eapply infix_trans; [|exact Hi].
  exists (name ++ [58]), []. rewrite app_nil_r, <- app_assoc. exact Es.
Qed.

(** Everything read came from the client. *)
Definition sent_bytes (reads : list ReadResult) : list Z :=
  concat (List.map (fun r => match r with ReadOk b => b | _ => [] end) reads).

Lemma read_request_buf reads buf b :
  read_request reads buf = Headers b -> exists rest, buf ++ sent_bytes reads = b ++ rest.
Proof.
  revert buf. induction reads as [|r reads IH]; intros buf; cbn [read_request].
  { by destruct (_ <=? _)%nat. }
  destruct (_ <=? _)%nat; [discriminate|]. destruct r as [[|c bytes]| |]; try discriminate.
  set (chunk := c :: bytes). set (room := (MAX_HTTP_REQUEST_SIZE - length buf)%nat).
  case_bool_decide as Hf.
  - intros [= <-]. exists (drop room chunk ++ sent_bytes reads). unfold sent_bytes. cbn [List.map concat].
    by rewrite <- !app_assoc, (app_assoc (take room chunk)), take_drop.
  - destruct (Nat.le_gt_cases (length chunk) room) as [Hl|Hl].
    + rewrite take_ge by done. intros E. destruct (IH _ E) as [rest Er]. exists rest.
      unfold sent_bytes. cbn [List.map concat]. by rewrite app_assoc.
    + destruct reads as [|r reads]; cbn [read_request];
        (rewrite (proj2 (Nat.leb_le MAX_HTTP_REQUEST_SIZE _)); [discriminate|]);
        rewrite length_app, length_take; unfold room in *; lia.
Qed.

Lemma header_end_bound l e : find_http_header_end l = Some e -> (4 <= e <= length l)%nat.
Proof.
  revert e. induction l as [|c l IH]; intros e; [discriminate|]. cbn [find_http_header_end length].
  case_bool_decide as Hw.
  - intros [= <-]. apply (f_equal length) in Hw. rewrite length_take in Hw. cbn [length] in Hw. lia.
  - destruct (find_http_header_end l) as [e'|]; [|discriminate]. intros [= <-].
    specialize (IH e' eq_refl). lia.
Qed.

(** More bytes do not move the end of the headers, fewer do not either. *)
Lemma header_end_app l x e : find_http_header_end l = Some e -> find_http_header_end (l ++ x) = Some e.
Proof.
  revert e. induction l as [|c l IH]; intros e; [discriminate|]. cbn [find_http_header_end app].
  case_bool_decide as Hw.
  - intros [= <-]. rewrite bool_decide_eq_true_2; [done|].
    pose proof (f_equal length Hw) as Hl. rewrite length_take in Hl. cbn [length] in Hl.
    rewrite app_comm_cons, take_app_le by (cbn [length]; lia). exact Hw.
  - destruct (find_http_header_end l) as [e'|] eqn:E; [|discriminate]. intros [= <-].
    pose proof (header_end_bound _ _ E).
    rewrite bool_decide_eq_false_2; [by rewrite (IH e' eq_refl)|].
    rewrite app_comm_cons, take_app_le by (cbn [length]; lia). exact Hw.
Qed.

Lemma header_end_prefix l x e :
  find_http_header_end (l ++ x) = Some e -> (e <= length l)%nat -> find_http_header_end l = Some e.
Proof.
  revert e. induction l as [|c l IH]; intros e E Hl.
  { pose proof (header_end_bound _ _ E). cbn in Hl. lia. }
  cbn [find_http_header_end app length] in *. case_bool_decide as Hw.
  - injection E as <-. rewrite app_comm_cons, take_app_le in Hw by (cbn [length]; lia).
    by rewrite bool_decide_eq_true_2.
  - destruct (find_http_header_end (l ++ x)) as [e'|] eqn:E'; [|discriminate]. injection E as <-.
    rewrite (IH e' eq_refl) by lia. rewrite bool_decide_eq_false_2; [done|].
    pose proof (header_end_bound _ _ E'). intros Hw'. apply Hw.
    rewrite app_comm_cons, take_app_le by (cbn [length]; lia). exact Hw'.
Qed.

Lemma read_request_complete reads buf b :
  read_request reads buf = Headers b -> is_Some (find_http_header_end b).
Proof.
  revert buf. induction reads as [|r reads IH]; intros buf; cbn [read_request].
  { by destruct (_ <=? _)%nat. }
  destruct (_ <=? _)%nat; [discriminate|]. destruct r as [[|c bytes]| |]; try discriminate.
  case_bool_decide as Hf; [by intros [= <-] | apply IH].
Qed.

(** The documents of the endpoint and the paths that name them. *)
Definition documents (bodies : Bodies) : list (str * str) :=
  [(lit "/v1/account-budgets", account_budgets bodies); (lit "/v1/dest-policy", dest_policy bodies);
   (lit "/v1/stats", stats_payload bodies); (lit "/v1/connections", connections bodies);
   (lit "/v1/config", config_payload bodies)].

(** The client asked for [path]: what it sent starts with complete headers,
    up to the first empty line, whose first line has the words [GET] and
    [path]. *)
Definition requests (reads : list ReadResult) (path : str) : Prop :=
  exists headers rest, sent_bytes reads = headers ++ rest
    /\ find_http_header_end headers = Some (length headers)
    /\ exists line lines version, split_crlf (from_utf8_lossy headers) = line :: lines
         /\ split_whitespace line = lit "GET" :: path :: version.

(** What was sent names at most one document. *)
Lemma requests_unique reads p1 p2 : requests reads p1 -> requests reads p2 -> p1 = p2.
Proof.
  intros (h1 & r1 & E1 & H1 & l1 & ls1 & v1 & Es1 & Ew1) (h2 & r2 & E2 & H2 & l2 & ls2 & v2 & Es2 & Ew2).
  apply (header_end_app _ r1) in H1. apply (header_end_app _ r2) in H2. rewrite <- E1 in H1. rewrite <- E2 in H2.
  assert (h1 = h2) as ->.
  { rewrite E1 in E2. apply app_inj_1 in E2; [apply E2 | congruence]. }
  congruence.
Qed.

Lemma route_documents bodies path b : route bodies path = Some b -> (path, b) ∈ documents bodies.
Proof.
  unfold route, str_eqb, documents. repeat case_bool_decide; intros [= <-]; subst; set_solver.
Qed.

(** What an answer with status 200 says about the request. *)
Lemma answered_200 (token : str) (bodies : Bodies) (reads : list ReadResult) (r : HttpResponse) :
  Forall (fun c => c < 0x80) token ->
  handle_stats_http_client_blocking token bodies reads = Answered r -> status_code r = 200 ->
  infix (lit "Bearer " ++ token) (sent_bytes reads)
  /\ exists path, requests reads path /\ (path, body r) ∈ documents bodies.
Proof.
  intros Ht. unfold handle_stats_http_client_blocking, finish.
  destruct (read_request reads []) as [buf|[|]| | |] eqn:Er; try (intros [= <-]; discriminate).
  intros [= <-]. unfold answer.
  destruct (read_request_complete _ _ _ Er) as [e He]. rewrite He.
  change (default (length buf) (Some e)) with e. cbv zeta. set (hdr := take e buf).
  destruct (read_request_buf _ _ _ Er) as [rest Hb]. cbn [app] in Hb.
  destruct (split_crlf_pieces _ (from_utf8_lossy hdr) (le_n _)) as (w & ws & Es & _ & Hws). rewrite Es.
  change (default [] (head (w :: ws))) with w. cbn [tail].
  destruct (split_whitespace w) as [|method [|path version]] eqn:Ew; [discriminate| |].
  { cbn. rewrite orb_true_r. discriminate. }
  change (default [] (head (method :: path :: version))) with method.
  change (default [] ((method :: path :: version) !! 1%nat)) with path.
  destruct (_ || _); [discriminate|]. unfold str_eqb at 1.
  destruct (bool_decide_reflect (method = lit "GET")) as [->|]; [|discriminate]. cbn [negb].
  case_bool_decide as Ha; [|discriminate]. cbn [negb].
  destruct (route bodies path) as [b|] eqn:Eb; [|discriminate]. intros _. split.
  - apply (find_auth_header_infix _ _ _ _ Hws) in Ha as [|(x & z & Ha)]; [discriminate|].
    apply lossy_infix_ascii in Ha as (l1 & l2 & Hd).
    2: { apply Forall_app_2; [|exact Ht]. repeat apply List.Forall_cons; try apply List.Forall_nil; done. }
    rewrite Hb. apply infix_app_r. rewrite <- (take_drop e buf). apply infix_app_r. exists l1, l2. exact Hd.
  - exists path. split; [|by apply route_documents]. exists hdr, (drop e buf ++ rest).
    pose proof (header_end_bound _ _ He).
    assert (length hdr = e) as Hlen by (unfold hdr; rewrite length_take; lia).
    split; [by rewrite Hb, app_assoc; unfold hdr; rewrite take_drop|].
    split; [rewrite Hlen; apply header_end_prefix with (drop e buf); [by unfold hdr; rewrite take_drop | lia]|].
    by exists w, ws, version.
Qed.

(** C39: the statistics need the token.  Whatever a client sends and however
    it arrives, it gets one of the five documents (status 200) only if its
    bytes contain the configured token (an ASCII one) after [Bearer] and its
    request line asks with [GET] for one of the five paths, and then the
    document it gets is the one that path stands for. *)
Theorem stats_api_needs_token (token : str) (bodies : Bodies) (reads : list ReadResult) (r : HttpResponse) :
  Forall (fun c => c < 0x80) token ->
  handle_stats_http_client_blocking token bodies reads = Answered r -> status_code r = 200 ->
  infix (lit "Bearer " ++ token) (sent_bytes reads)
  /\ exists path, requests reads path /\ (path, body r) ∈ documents bodies.
Proof. apply answered_200. Qed.

(** A header value never ends in white space, so a token that does is one no
    request can present: [get_stats_token] does not trim the variable. *)
Lemma trim_no_trailing s c t : is_whitespace c = true -> trim s <> t ++ [c].
Proof.
  intros Hc E. unfold trim, trim_end in E. apply (f_equal (@rev Z)) in E.
  rewrite rev_involutive, rev_app_distr in E. cbn [rev app] in E.
  induction (rev (trim_start s)) as [|d l IH]; [discriminate|]. cbn in E.
  destruct (is_whitespace d) eqn:Ed; [by apply IH|]. injection E as -> _. congruence.
Qed.

Lemma auth_header_trimmed lines acc v c t :
  is_whitespace c = true -> find_auth_header lines acc = Some v -> v = t ++ [c] -> acc = Some v.
Proof.
  intros Hc. revert acc. induction lines as [|line lines IH]; intros acc E ->; [exact E|].
  cbn [find_auth_header] in E. destruct (length line =? 0)%nat; [exact E|].
  apply IH in E; [|done]. destruct (split_once 58 line) as [[name value]|]; [|exact E].
  destruct (eq_ignore_ascii_case _ _); [|exact E]. injection E as E. by apply trim_no_trailing in E.
Qed.

Lemma padded_token_locks_out (token : str) (c : Z) (bodies : Bodies) (reads : list ReadResult) (r : HttpResponse) :
  is_whitespace c = true ->
  handle_stats_http_client_blocking (token ++ [c]) bodies reads = Answered r -> status_code r <> 200.
Proof.
  intros Hc. unfold handle_stats_http_client_blocking, finish.
  destruct (read_request reads []) as [buf|[|]| | |]; try (intros [= <-]; discriminate).
  intros [= <-]. unfold answer.
  destruct (_ || _); [discriminate|]. destruct (negb (str_eqb _ _)); [discriminate|].
  case_bool_decide as Ha; [|discriminate]. rewrite app_assoc in Ha.
  by apply (auth_header_trimmed _ _ _ c (lit "Bearer " ++ token)) in Ha.
Qed.

(* ------------------------------------------------------------------ *)
(** ** How the request arrives does not matter *)

Lemma read_request_chunks chunks buf e :
  Forall (fun c => c <> []) chunks -> find_http_header_end buf = None ->
  (length buf <= MAX_HTTP_REQUEST_SIZE)%nat ->
  find_http_header_end (take MAX_HTTP_REQUEST_SIZE (buf ++ concat chunks)) = Some e ->
  exists b rest, read_request (List.map ReadOk chunks) buf = Headers b
    /\ find_http_header_end b = Some e /\ take MAX_HTTP_REQUEST_SIZE (buf ++ concat chunks) = b ++ rest.
Proof.
  intros Hc. revert buf. induction Hc as [|c chunks Hne Hc IH]; intros buf Hn Hl He; cbn [List.map read_request].
  { cbn [concat] in He. rewrite app_nil_r, take_ge in He by done. congruence. }
  destruct (Nat.leb_spec MAX_HTTP_REQUEST_SIZE (length buf)) as [Hfull|Hroom].
  { rewrite take_app_le, take_ge in He by lia. congruence. }
  destruct c as [|x c]; [done|]. set (chunk := x :: c) in *.
  set (room := (MAX_HTTP_REQUEST_SIZE - length buf)%nat).
  set (buf' := buf ++ take room chunk).
  assert (length buf' <= MAX_HTTP_REQUEST_SIZE)%nat as Hl'
    by (unfold buf', room; rewrite length_app, length_take; lia).
  assert (exists rest, take MAX_HTTP_REQUEST_SIZE (buf ++ concat (chunk :: chunks)) = buf' ++ rest
      /\ take MAX_HTTP_REQUEST_SIZE (buf' ++ concat chunks) = buf' ++ rest) as (rest & E1 & E2).
  { cbn [concat]. exists (take (MAX_HTTP_REQUEST_SIZE - length buf') (drop room chunk ++ concat chunks)).
    destruct (Nat.le_gt_cases (length chunk) room) as [Hlt|Hgt].
    - unfold buf' in *. rewrite (take_ge chunk room), (drop_ge chunk room) in * by done. cbn [app].
      rewrite (take_app_ge (buf ++ chunk)) by done. by rewrite app_assoc, (take_app_ge (buf ++ chunk)).
    - assert (length buf' = MAX_HTTP_REQUEST_SIZE) as Hm
        by (unfold buf', room in *; rewrite length_app, length_take; lia).
      rewrite Hm, Nat.sub_diag, take_0, app_nil_r. split.
      + rewrite <- (take_drop room chunk) at 1. rewrite <- app_assoc, (app_assoc buf). fold buf'.
        by rewrite <- Hm, take_app_length.
      + by rewrite <- Hm, take_app_length. }
  rewrite E1 in He |- *. case_bool_decide as Hf.
  - exists buf', rest. split; [done|]. split; [|done]. destruct Hf as [e' Hf].
    rewrite (header_end_app _ rest _ Hf) in He. congruence.
  - apply eq_None_not_Some in Hf. rewrite <- E2 in He |- *. by apply IH.
Qed.

(** A request may arrive in any pieces.  If the first 8192 bytes a
    client sends contain the end of the headers, the client is answered, and
    the answer depends only on the bytes up to that end: not on how they were
    cut into reads, nor on what follows. *)
Theorem stats_api_any_chunks (token : str) (bodies : Bodies) (chunks : list (list Z)) (e : nat) :
  Forall (fun c => c <> []) chunks ->
  find_http_header_end (take MAX_HTTP_REQUEST_SIZE (concat chunks)) = Some e ->
  handle_stats_http_client_blocking token bodies (List.map ReadOk chunks)
  = Answered (answer token bodies (take e (concat chunks))).
Proof.
  intros Hc He.
  destruct (read_request_chunks chunks [] e Hc eq_refl ltac:(cbn; lia) He) as (b & rest & Er & Hb & Et).
  unfold handle_stats_http_client_blocking, finish. rewrite Er. f_equal. unfold answer.
  pose proof (header_end_bound _ _ Hb) as [_ Hlb].
  assert (take e (concat chunks) = take e b) as Ee.
  { cbn [app] in Et. pose proof (f_equal (take e) Et) as Ed. rewrite take_take, take_app_le in Ed by lia.
    pose proof (header_end_bound _ _ He) as [_ Hle]. rewrite length_take in Hle.
    by rewrite Nat.min_l in Ed by lia. }
  assert (find_http_header_end (take e b) = Some e) as Hte.
  { apply header_end_prefix with (drop e b); [by rewrite take_drop | rewrite length_take; lia]. }
  rewrite Hb, Ee, Hte. cbn [default]. by rewrite take_take, Nat.min_id.
Qed.

(** The two handlers agree: what a test shows of the asynchronous one holds of
    the one the relay serves, given the same documents. *)
Definition as_blocking (r : AsyncRead) : ReadResult :=
  match r with
  | AsyncOk bytes => ReadOk bytes
  | AsyncErr => ReadFailed
  | AsyncElapsed => ReadTimedOut
  end.

Lemma handlers_agree token bodies reads :
  handle_stats_http_client token bodies reads
  = handle_stats_http_client_blocking token bodies (List.map as_blocking reads).
Proof.
  unfold handle_stats_http_client, handle_stats_http_client_blocking. f_equal.
  generalize (@nil Z). induction reads as [|r reads IH]; intros buf; [done|].
  cbn [List.map read_request_async read_request]. destruct (_ <=? _)%nat; [done|].
  destruct r as [[|c bytes]| |]; cbn [as_blocking length Nat.eqb]; try done.
  destruct (bool_decide _); [done | apply IH].
Qed.

(* ------------------------------------------------------------------ *)
(** ** The connections document *)

(** What the document says of one session. *)
Definition describe (traffic : Traffic) (kv : SessionId * SessionEntry) : ConnectionSnapshot :=
  match traffic !! kv.1 with
  | Some t => with_traffic kv.1 kv.2 t
  | None => without_traffic kv.1 kv.2
  end.

Definition describe_id (sessions : Sessions) (traffic : Traffic) (sid : SessionId)
  : option ConnectionSnapshot :=
  option_map (fun e => describe traffic (sid, e)) (sessions !! sid).

Lemma omap_ext_in {A B} (f g : A -> option B) (l : list A) :
  (forall x, x ∈ l -> f x = g x) -> omap f l = omap g l.
Proof.
  intros Hfg. induction l as [|x l IH]; [done|]. cbn. rewrite (Hfg x ltac:(by left)).
  rewrite IH; [done|]. intros y Hy. apply Hfg. by right.
Qed.

Lemma keys_elem {V} (m : gmap SessionId V) (order : list SessionId) (sid : SessionId) :
  order ≡ₚ (map_to_list m).*1 -> sid ∈ order <-> is_Some (m !! sid).
Proof.
  intros Ho. rewrite Ho, list_elem_of_fmap. split.
  - intros ([k t] & -> & E%elem_of_map_to_list). by exists t.
  - intros [t E]. exists (sid, t). split; [done | by apply elem_of_map_to_list].
Qed.

Lemma omap_filter {A B} (f : A -> option B) (P : A -> Prop) `{!forall x, Decision (P x)} (l : list A) :
  (forall x, ~ P x -> f x = None) -> omap f (filter P l) = omap f l.
Proof.
  intros Hf. induction l as [|x l IH]; [done|]. rewrite filter_cons. destruct (decide (P x)); cbn.
  - by rewrite IH.
  - by rewrite (Hf x).
Qed.

Lemma omap_ids (sessions : Sessions) (traffic : Traffic) :
  omap (describe_id sessions traffic) (map_to_list sessions).*1
  = describe traffic <$> map_to_list sessions.
Proof.
  assert (forall l, (forall kv, kv ∈ l -> sessions !! kv.1 = Some kv.2) ->
            omap (describe_id sessions traffic) l.*1 = describe traffic <$> l) as Hl.
  { intros l. induction l as [|[sid e] l IH]; intros Hin; [done|]. cbn.
    unfold describe_id at 1. pose proof (Hin (sid, e) ltac:(by left)) as E. cbn in E. rewrite E. cbn. f_equal. apply IH.
    intros kv Hkv. apply Hin. by right. }
  apply Hl. intros [sid e] Hin. by apply elem_of_map_to_list in Hin.
Qed.

Lemma split_order (sessions : Sessions) (t_order s_order : list SessionId) :
  NoDup t_order -> NoDup s_order -> (forall sid, sid ∈ s_order <-> is_Some (sessions !! sid)) ->
  filter (fun sid => is_Some (sessions !! sid)) t_order
  ++ filter (fun sid => sid ∉ filter (fun sid => is_Some (sessions !! sid)) t_order) s_order
  ≡ₚ s_order.
Proof.
  intros Ht Hs Hin. apply list.NoDup_Permutation; [|exact Hs|].
  - apply list.NoDup_app. split; [by apply list.NoDup_filter|]. split; [|by apply list.NoDup_filter].
    intros x Hx [Hn _]%list_elem_of_filter. contradiction.
  - intros x. rewrite elem_of_app, !list_elem_of_filter. split.
    + intros [[Hx _]|[_ Hx]]; [by apply Hin | exact Hx].
    + intros Hx. destruct (decide (x ∈ t_order)); [left; split; [by apply Hin | done]|].
      right. split; [|exact Hx]. intros [_ ?]. contradiction.
Qed.

(** The connections document lists the sessions.  Whatever the order the
    hash tables are iterated in, and whatever traffic counters of sessions
    that are gone are still there, the document has exactly one entry for
    each session of the table, with that session's account, address and
    counters (zero when it has none yet), most recent activity first. *)
Lemma snapshots_complete (sessions : Sessions) (traffic : Traffic)
  (traffic_order session_order : list SessionId) :
  traffic_order ≡ₚ (map_to_list traffic).*1 -> session_order ≡ₚ (map_to_list sessions).*1 ->
  connection_snapshots sessions traffic traffic_order session_order
    ≡ₚ describe traffic <$> map_to_list sessions
  /\ StronglySorted more_recent (connection_snapshots sessions traffic traffic_order session_order).
Proof.
  intros Ht Hs. unfold connection_snapshots.
  pose proof (fun sid => keys_elem traffic traffic_order sid Ht) as Hint.
  pose proof (fun sid => keys_elem sessions session_order sid Hs) as Hins.
  split; [|apply StronglySorted_merge_sort; [intros a b c ? ?; unfold more_recent in *; lia
                                            | intros a b; unfold more_recent; lia]].
  rewrite merge_sort_Permutation, <- omap_ids, <- Hs.
  set (seen := filter _ traffic_order).
  assert (seen ++ filter (fun sid => sid ∉ seen) session_order ≡ₚ session_order) as Hsplit.
  { apply split_order; [rewrite Ht | rewrite Hs | exact Hins]; apply NoDup_fst_map_to_list. }
  etransitivity; [|exact (omap_Permutation (describe_id sessions traffic) _ _ Hsplit)].
  rewrite omap_app. apply Permutation_app; apply reflexive_eq.
  - unfold seen. rewrite omap_filter.
    + apply omap_ext_in. intros sid [t Et]%Hint. unfold describe_id, describe. cbn. rewrite Et.
      by destruct (sessions !! sid).
    + intros sid Hn. unfold describe_id. destruct (sessions !! sid); [by destruct Hn | done].
  - transitivity (omap (fun sid => if decide (sid ∈ seen) then None
                          else option_map (without_traffic sid) (sessions !! sid))
                       (filter (fun sid => sid ∉ seen) session_order)).
    + symmetry. apply omap_filter. intros sid Hn. destruct (decide (sid ∈ seen)); done.
    + apply omap_ext_in. intros sid [Hn Hin]%list_elem_of_filter. rewrite decide_False by done.
      unfold describe_id, describe. cbn. destruct (sessions !! sid) as [e|] eqn:E; [|done]. cbn.
      destruct (traffic !! sid) as [t|] eqn:Et; [|done]. exfalso. apply Hn. unfold seen.
      apply list_elem_of_filter. split; [by exists e | by apply Hint].
Qed.

(** Reading a JSON string back, up to the closing quote: the two-character
    escapes [escape_json] makes. *)
Fixpoint json_unescape (s : str) : option (str * str) :=
  match s with
  | [] => None
  | c :: rest =>
      if c =? 34 then Some ([], rest)
      else if c =? 92 then
        match rest with
        | [] => None
        | d :: rest =>
            match (if d =? 34 then Some 34 else if d =? 92 then Some 92 else if d =? 110 then Some 10
                   else if d =? 114 then Some 13 else if d =? 116 then Some 9 else None),
                  json_unescape rest with
            | Some x, Some (v, rest) => Some (x :: v, rest)
            | _, _ => None
            end
        end
      else
        match json_unescape rest with
        | Some (v, rest) => Some (c :: v, rest)
        | None => None
        end
  end.

(** An escaped value ends where it should and reads back as itself. *)
Lemma escape_json_roundtrip (value rest : str) :
  json_unescape (escape_json value ++ 34 :: rest) = Some (value, rest).
Proof.
  induction value as [|c value IH]; [done|].
  change (escape_json (c :: value)) with (escape_char c ++ escape_json value). rewrite <- app_assoc.
  revert IH. generalize (escape_json value ++ 34 :: rest). intros t IH. unfold escape_char.
  destruct (Z.eqb_spec c 34) as [->|H34]; [cbn; by rewrite IH|].
  destruct (Z.eqb_spec c 92) as [->|H92]; [cbn; by rewrite IH|].
  destruct (Z.eqb_spec c 10) as [->|?]; [cbn; by rewrite IH|].
  destruct (Z.eqb_spec c 13) as [->|?]; [cbn; by rewrite IH|].
  destruct (Z.eqb_spec c 9) as [->|?]; [cbn; by rewrite IH|].
  cbn [app json_unescape]. rewrite (proj2 (Z.eqb_neq c 34) H34), (proj2 (Z.eqb_neq c 92) H92). by rewrite IH.
Qed.

(* ------------------------------------------------------------------ *)
(** ** Witnesses *)

Definition sample_bodies : Bodies :=
  MkBodies (lit "budgets") (lit "policy") (lit "stats") (lit "connections") (lit "config").
Definition sample_request : list Z :=
  lit "GET /v1/stats HTTP/1.1" ++ [13; 10] ++ lit "authorization: Bearer s3cret" ++ [13; 10; 13; 10].
Definition sample_reads : list (list Z) := [take 30 sample_request; drop 30 sample_request].

Lemma stats_api_needs_token_witness :
  handle_stats_http_client_blocking (lit "s3cret") sample_bodies (List.map ReadOk sample_reads)
    = Answered (MkResponse 200 (lit "OK") (lit "stats"))
  /\ infix (lit "Bearer " ++ lit "s3cret") (sent_bytes (List.map ReadOk sample_reads))
  /\ exists path, requests (List.map ReadOk sample_reads) path /\ (path, lit "stats") ∈ documents sample_bodies.
Proof.
  assert (handle_stats_http_client_blocking (lit "s3cret") sample_bodies (List.map ReadOk sample_reads)
    = Answered (MkResponse 200 (lit "OK") (lit "stats"))) as E by (vm_compute; reflexivity).
  split; [exact E|].
  refine (stats_api_needs_token (lit "s3cret") sample_bodies (List.map ReadOk sample_reads) _ _ E _).
  - repeat apply List.Forall_cons; try apply List.Forall_nil; vm_compute; reflexivity.
  - reflexivity.
Defined.

Lemma stats_api_any_chunks_witness :
  handle_stats_http_client_blocking (lit "s3cret") sample_bodies (List.map ReadOk sample_reads)
  = Answered (answer (lit "s3cret") sample_bodies sample_request).
Proof.
  refine (stats_api_any_chunks (lit "s3cret") sample_bodies sample_reads 56%nat _ _).
  - repeat apply List.Forall_cons; try apply List.Forall_nil; vm_compute; discriminate.
  - vm_compute; reflexivity.
Defined.

(** Two sessions, one with counters, and the counters of a session gone. *)
Definition sample_sid (n : Z) : SessionId := [0; 0; 0; 0; 0; 0; 0; n].
Definition sample_entry (t : Z) : SessionEntry :=
  MkSession (lit "user") Legacy None (SockV4 0x01020304 5) 10 0 t.
Definition sample_sessions : Sessions :=
  <[sample_sid 1 := sample_entry 20]> (<[sample_sid 2 := sample_entry 30]> ∅).
Definition sample_traffic : Traffic :=
  <[sample_sid 1 := traffic_new 12]> (<[sample_sid 3 := traffic_new 40]> ∅).

Lemma snapshots_complete_sample :
  List.map sn_last_activity_at
    (connection_snapshots sample_sessions sample_traffic
       [sample_sid 3; sample_sid 1] [sample_sid 1; sample_sid 2]) = [30; 12]
  /\ connection_snapshots sample_sessions sample_traffic
       [sample_sid 3; sample_sid 1] [sample_sid 1; sample_sid 2]
     ≡ₚ describe sample_traffic <$> map_to_list sample_sessions.
Proof.
  split; [vm_compute; reflexivity|].
  refine (proj1 (snapshots_complete sample_sessions sample_traffic
    [sample_sid 3; sample_sid 1] [sample_sid 1; sample_sid 2] _ _)).
  - assert ((map_to_list sample_traffic).*1 = [sample_sid 1; sample_sid 3]
            \/ (map_to_list sample_traffic).*1 = [sample_sid 3; sample_sid 1]) as [->| ->];
      [vm_compute; tauto | apply Permutation_swap | reflexivity].
  - assert ((map_to_list sample_sessions).*1 = [sample_sid 1; sample_sid 2]
            \/ (map_to_list sample_sessions).*1 = [sample_sid 2; sample_sid 1]) as [->| ->];
      [vm_compute; tauto | reflexivity | apply Permutation_swap].
Defined.
