(* ===== verification/StatsRates.v ===== *)
(** * Throughput sampling (src/main.rs: [StatsRateWindow], [sample_stats_rates])

    The rates are computed in [f64].  The arithmetic is the standard's, on the
    specification floats of the Standard Library at the width of [f64]:
    conversion and division round to nearest even, [round] goes half away
    from zero, [as u64] saturates. *)

From Stdlib Require Import SpecFloat.
From S2P Require Import Prelude Stats.

(* ------------------------------------------------------------------ *)
(** ** [f64] *)

(** [n as f64]. *)
Definition f64_of_u64 (n : Z) : spec_float := binary_normalize 53 1024 n 0 false.
Definition f64_div : spec_float -> spec_float -> spec_float := SFdiv 53 1024.
Definition f64_add : spec_float -> spec_float -> spec_float := SFadd 53 1024.

(** [Duration::as_secs_f64], a duration in nanoseconds. *)
Definition as_secs_f64 (d : Z) : spec_float :=
  f64_add (f64_of_u64 (d / 1000000000)) (f64_div (f64_of_u64 (d mod 1000000000)) (f64_of_u64 1000000000)).

(** [x.round() as u64]. *)
Definition round_as_u64 (x : spec_float) : Z :=
  match x with
  | S754_zero _ | S754_nan | S754_infinity true | S754_finite true _ _ => 0
  | S754_infinity false => u64_max
  | S754_finite false m e =>
      Z.min u64_max
        (if 0 <=? e then Z.pos m * 2 ^ e
         else (Z.pos m + 2 ^ (- e - 1)) / 2 ^ (- e))
  end.

(** [x > 0.0]. *)
Definition f64_positive (x : spec_float) : bool :=
  match x with
  | S754_finite false _ _ | S754_infinity false => true
  | _ => false
  end.

(* ------------------------------------------------------------------ *)
(** ** The window *)

Definition STATS_RATE_SAMPLE_MIN_MS : Z := 1000.

Record StatsRateWindow : Type := MkWindow {
  last_sample_at : option Z;
  last_bytes_in : Z;
  last_bytes_out : Z;
  inbound_bps : Z;
  outbound_bps : Z;
}.
Definition window_new : StatsRateWindow := MkWindow None 0 0 0 0.

(** [(delta as f64 / elapsed_secs).round() as u64] of a saturating
    difference. *)
Definition rate_of (now_bytes last_bytes : Z) (elapsed : Z) : Z :=
  round_as_u64 (f64_div (f64_of_u64 (Z.max 0 (now_bytes - last_bytes))) (as_secs_f64 elapsed)).

(** [sample_stats_rates], with the window as state. *)
Definition sample_stats_rates (w : StatsRateWindow) (bytes_in bytes_out now : Z)
  : StatsRateWindow * (Z * Z) :=
  let w :=
    match last_sample_at w with
    | None => MkWindow (Some now) bytes_in bytes_out (inbound_bps w) (outbound_bps w)
    | Some last =>
        let elapsed := Z.max 0 (now - last) in
        if (STATS_RATE_SAMPLE_MIN_MS * 1000000 <=? elapsed) && f64_positive (as_secs_f64 elapsed) then
          MkWindow (Some now) bytes_in bytes_out
            (rate_of bytes_in (last_bytes_in w) elapsed) (rate_of bytes_out (last_bytes_out w) elapsed)
        else w
    end in
  (w, (inbound_bps w, outbound_bps w)).

(* ------------------------------------------------------------------ *)
(** ** What polling reports *)

Lemma round_as_u64_range x : 0 <= round_as_u64 x <= u64_max.
Proof.
  unfold round_as_u64, u64_max. destruct x as [|[]| |[] m e]; try lia.
  destruct (Z.leb_spec 0 e).
  - pose proof (Z.pow_nonneg 2 e ltac:(lia)). nia.
  - assert (0 <= (Z.pos m + 2 ^ (- e - 1)) / 2 ^ (- e)); [|lia].
    apply Z.div_pos; [|apply Z.pow_pos_nonneg; lia].
    pose proof (Z.pow_nonneg 2 (- e - 1) ltac:(lia)). lia.
Qed.

(** Polls closer together than a second, however many, all report the rates
    of the last sample and do not delay the next one. *)
Lemma polls_within_a_second w last (polls : list (Z * Z * Z)) :
  last_sample_at w = Some last ->
  Forall (fun '(_, _, t) => t < last + 1000000000) polls ->
  fold_left (fun w '(i, o, t) => fst (sample_stats_rates w i o t)) polls w = w.
Proof.
  intros Hl Hp. induction Hp as [|[[i o] t] polls Ht Hp IH]; [done|]. cbn [fold_left].
  replace (fst (sample_stats_rates w i o t)) with w; [exact IH|].
  unfold sample_stats_rates. rewrite Hl. unfold STATS_RATE_SAMPLE_MIN_MS.
  destruct (Z.leb_spec (1000 * 1000000) (Z.max 0 (t - last))); [lia | done].
Qed.

(** 2001 bytes in two seconds are 1000.5 bytes a second, rounded up; a
    counter that went back is no traffic. *)
Lemma sample_two_seconds :
  snd (sample_stats_rates (MkWindow (Some 0) 0 500 7 7) 2001 400 2000000000) = (1001, 0).
Proof. vm_compute. reflexivity. Qed.
