(* ===== verification/Handler.v ===== *)
(** * Handlers: state, panics and early [continue]

    The receive loops are long bodies full of [continue].  A [handler] over
    a state runs to a value or to [Continue] (the rest of the body is
    skipped), or panics.  [hoare P m R Q] says that from [P] it never panics and
    ends in [R] with a value or in [Q] with [Continue]; [keeps] is the case
    of an invariant. *)

From S2P Require Import Prelude.

Inductive ctl (A : Type) : Type :=
| Next (a : A)
| Continue.
Arguments Next {A} a.
Arguments Continue {A}.

Definition handler (S A : Type) : Type := S -> outcome (S * ctl A).

Section Ops.
Context {S : Type}.

Definition hret {A} (a : A) : handler S A := fun s => Ret (s, Next a).
Definition hcontinue {A} : handler S A := fun s => Ret (s, Continue).
Definition hbind {A B} (m : handler S A) (k : A -> handler S B) : handler S B := fun s =>
  match m s with
  | Panic => Panic
  | Ret (s', Continue) => Ret (s', Continue)
  | Ret (s', Next a) => k a s'
  end.
Definition hget {A} (f : S -> A) : handler S A := fun s => Ret (s, Next (f s)).
Definition hmod (f : S -> S) : handler S unit := fun s => Ret (f s, Next tt).
Definition hlift {A} (m : outcome A) : handler S A := fun s =>
  match m with
  | Ret a => Ret (s, Next a)
  | Panic => Panic
  end.
(** An operation on the state that also returns a value. *)
Definition hrun {A} (f : S -> outcome (S * A)) : handler S A := fun s =>
  match f s with
  | Ret (s', a) => Ret (s', Next a)
  | Panic => Panic
  end.

(** The state a handler leaves, whichever way it ends. *)
Definition wp {A} (m : handler S A) (Q : S -> ctl A -> Prop) (s : S) : Prop :=
  match m s with
  | Ret (s', c) => Q s' c
  | Panic => False
  end.

(** From [P]: [R a] after a value [a], [Q] after [Continue], no panic. *)
Definition hoare {A} (P : S -> Prop) (m : handler S A) (R : A -> S -> Prop) (Q : S -> Prop) : Prop :=
  forall s, P s -> wp m (fun s' c => match c with Next a => R a s' | Continue => Q s' end) s.

Definition keeps (I : S -> Prop) {A} (m : handler S A) : Prop := hoare I m (fun _ => I) I.

End Ops.

Notation "'let!' x ':=' m 'in' k" := (hbind m (fun x => k))
  (at level 10, x pattern, m at level 100, k at level 200,
   format "'[v' 'let!'  x  ':='  m  'in' '/' k ']'") : relay_scope.
Notation "m ';!' k" := (hbind m (fun _ => k))
  (at level 100, k at level 200, right associativity, format "'[v' m  ';!' '/' k ']'") : relay_scope.

(* ------------------------------------------------------------------ *)
(** ** Rules *)

Section Rules.
Context {S : Type}.

Lemma wp_bind {A B} (m : handler S A) (k : A -> handler S B) Q s :
  wp m (fun s' c => match c with
                    | Next a => wp (k a) Q s'
                    | Continue => Q s' Continue
                    end) s ->
  wp (hbind m k) Q s.
Proof. unfold wp, hbind. by destruct (m s) as [[s' [a|]]|]. Qed.

Lemma wp_mono {A} (m : handler S A) (P Q : S -> ctl A -> Prop) s :
  wp m P s -> (forall s' c, P s' c -> Q s' c) -> wp m Q s.
Proof. unfold wp. destruct (m s) as [[s' c]|]; auto. Qed.

Lemma wp_inv {A} (m : handler S A) Q s : wp m Q s -> exists s' c, m s = Ret (s', c) /\ Q s' c.
Proof. unfold wp. destruct (m s) as [[s' c]|]; [eauto|contradiction]. Qed.

Lemma wp_and {A} (m : handler S A) P Q s :
  wp m P s -> wp m Q s -> wp m (fun s' c => P s' c /\ Q s' c) s.
Proof. unfold wp. destruct (m s) as [[s' c]|]; auto. Qed.

Lemma hoare_ret {A} (a : A) (R : A -> S -> Prop) Q : hoare (R a) (hret a) R Q.
Proof. intros s H. exact H. Qed.
Lemma hoare_continue {A} (R : A -> S -> Prop) Q : hoare Q hcontinue R Q.
Proof. intros s H. exact H. Qed.
Lemma hoare_bind {A B} P (m : handler S A) (k : A -> handler S B) M R Q :
  hoare P m M Q -> (forall a, hoare (M a) (k a) R Q) -> hoare P (hbind m k) R Q.
Proof.
  intros Hm Hk s Hs. apply wp_bind. eapply wp_mono; [exact (Hm s Hs)|].
  intros s' [a|] H; [exact (Hk a s' H) | exact H].
Qed.
Lemma hoare_conseq {A} (P P' : S -> Prop) (m : handler S A) (R R' : A -> S -> Prop) (Q Q' : S -> Prop) :
  hoare P' m R' Q' -> (forall s, P s -> P' s) -> (forall a s, R' a s -> R a s) ->
  (forall s, Q' s -> Q s) -> hoare P m R Q.
Proof.
  intros H HP HR HQ s Hs. eapply wp_mono; [exact (H s (HP s Hs))|]. intros s' [a|]; auto.
Qed.
Lemma hoare_mod (P R Q : S -> Prop) f :
  (forall s, P s -> R (f s)) -> hoare P (hmod f) (fun _ => R) Q.
Proof. intros H s Hs. exact (H s Hs). Qed.
Lemma hoare_run {A} (P : S -> Prop) (f : S -> outcome (S * A)) (R : A -> S -> Prop) Q :
  (forall s, P s -> returns (f s) (fun '(s', a) => R a s')) -> hoare P (hrun f) R Q.
Proof.
  intros H s Hs. specialize (H s Hs). unfold wp, hrun.
  destruct (f s) as [[s' a]|]; [exact H | contradiction].
Qed.
(** Reading the state: the value is the one of the present state. *)
Lemma hoare_get {A} (P : S -> Prop) (f : S -> A) Q :
  hoare P (hget f) (fun a s => P s /\ a = f s) Q.
Proof. intros s H. split; [exact H | reflexivity]. Qed.

Lemma keeps_ret I {A} (a : A) : keeps I (@hret S A a).
Proof. intros s H. exact H. Qed.
Lemma keeps_continue I {A} : keeps I (@hcontinue S A).
Proof. intros s H. exact H. Qed.
Lemma keeps_get I {A} (f : S -> A) : keeps I (hget f).
Proof. intros s H. exact H. Qed.
Lemma keeps_mod (I : S -> Prop) f : (forall s, I s -> I (f s)) -> keeps I (hmod f).
Proof. intros H s Hs. exact (H s Hs). Qed.
Lemma keeps_lift (I : S -> Prop) {A} (m : outcome A) : returns m (fun _ => True) -> keeps I (hlift m).
Proof. intros H s Hs. unfold wp, hlift. destruct m; [exact Hs | exact H]. Qed.
(** A pure fact of the precondition. *)
Lemma hoare_pure {A} (phi : Prop) (P : S -> Prop) (m : handler S A) R Q :
  (forall s, P s -> phi) -> (phi -> hoare P m R Q) -> hoare P m R Q.
Proof. intros H1 H2 s Hs. exact (H2 (H1 s Hs) s Hs). Qed.
(** A pure step that is known to return. *)
Lemma hoare_lift_Ret {A B} P (a : A) (k : A -> handler S B) R Q :
  hoare P (k a) R Q -> hoare P (hbind (hlift (Ret a)) k) R Q.
Proof. exact id. Qed.
Lemma keeps_lift_Ret I {A B} (a : A) (k : A -> handler S B) :
  keeps I (k a) -> keeps I (hbind (hlift (Ret a)) k).
Proof. exact id. Qed.
Lemma keeps_bind (I : S -> Prop) {A B} (m : handler S A) (k : A -> handler S B) :
  keeps I m -> (forall a, keeps I (k a)) -> keeps I (hbind m k).
Proof. intros Hm Hk. exact (hoare_bind _ _ _ _ _ _ Hm Hk). Qed.
Lemma keeps_run (I : S -> Prop) {A} (f : S -> outcome (S * A)) :
  (forall s, I s -> returns (f s) (fun r => I r.1)) -> keeps I (hrun f).
Proof.
  intros H. apply hoare_run. intros s Hs. eapply returns_mono; [exact (H s Hs)|]. by intros [s' a].
Qed.

End Rules.

(** ** Partial correctness *)

(** What holds of every result, when the question of panics is settled
    elsewhere. *)
Section Partial.
Context {S : Type}.

Definition ends {A} (P : S -> Prop) (m : handler S A) (R : A -> S -> Prop) (Q : S -> Prop) : Prop :=
  forall s s' c, P s -> m s = Ret (s', c) ->
  match c with Next a => R a s' | Continue => Q s' end.

(** [m] does not touch what [f] looks at. *)
Definition leaves {A T} (f : S -> T) (m : handler S A) : Prop :=
  forall s s' c, m s = Ret (s', c) -> f s' = f s.

Lemma ends_bind {A B} P (m : handler S A) (k : A -> handler S B) M R Q :
  ends P m M Q -> (forall a, ends (M a) (k a) R Q) -> ends P (hbind m k) R Q.
Proof.
  intros Hm Hk s s' c Hs E. unfold hbind in E. destruct (m s) as [[w [a|]]|] eqn:Em; [| |discriminate].
  - eapply Hk; [|exact E]. exact (Hm _ _ _ Hs Em).
  - injection E as -> <-. exact (Hm _ _ _ Hs Em).
Qed.
Lemma ends_get {A T} (P : S -> Prop) (f : S -> T) (k : T -> handler S A) R Q :
  (forall a, ends (fun s => P s /\ a = f s) (k a) R Q) -> ends P (hbind (hget f) k) R Q.
Proof. intros H s s' c Hs E. exact (H (f s) s s' c (conj Hs eq_refl) E). Qed.
Lemma ends_ret {A} (a : A) (P : S -> Prop) R Q : (forall s, P s -> R a s) -> ends P (hret a) R Q.
Proof. intros H s s' c Hs [= <- <-]. auto. Qed.
Lemma ends_continue {A} (P : S -> Prop) (R : A -> S -> Prop) (Q : S -> Prop) :
  (forall s, P s -> Q s) -> ends P hcontinue R Q.
Proof. intros H s s' c Hs [= <- <-]. auto. Qed.
Lemma ends_mod (P : S -> Prop) f (R : unit -> S -> Prop) Q :
  (forall s, P s -> R tt (f s)) -> ends P (hmod f) R Q.
Proof. intros H s s' c Hs [= <- <-]. auto. Qed.
Lemma ends_run {A} (P : S -> Prop) (f : S -> outcome (S * A)) (R : A -> S -> Prop) Q :
  (forall s s' a, P s -> f s = Ret (s', a) -> R a s') -> ends P (hrun f) R Q.
Proof.
  intros H s s' c Hs E. unfold hrun in E. destruct (f s) as [[w a]|] eqn:Ef; [|discriminate].
  injection E as <- <-. eauto.
Qed.
Lemma ends_lift {A} (P : S -> Prop) (m : outcome A) (R : A -> S -> Prop) Q :
  (forall s a, P s -> m = Ret a -> R a s) -> ends P (hlift m) R Q.
Proof.
  intros H s s' c Hs E. unfold hlift in E. destruct m as [a|]; [|discriminate].
  injection E as <- <-. auto.
Qed.
Lemma ends_bind_lift {A B} (P : S -> Prop) (m : outcome A) (k : A -> handler S B) R Q :
  (forall a, m = Ret a -> ends P (k a) R Q) -> ends P (hbind (hlift m) k) R Q.
Proof.
  intros H s s' c Hs E. unfold hbind, hlift in E. destruct m as [a|]; [|discriminate].
  exact (H a eq_refl s s' c Hs E).
Qed.
Lemma ends_pre {A} (P P' : S -> Prop) (m : handler S A) R Q :
  ends P' m R Q -> (forall s, P s -> P' s) -> ends P m R Q.
Proof. intros H HP s s' c Hs E. exact (H s s' c (HP s Hs) E). Qed.
Lemma ends_pure {A} (phi : Prop) (P : S -> Prop) (m : handler S A) R Q :
  (forall s, P s -> phi) -> (phi -> ends P m R Q) -> ends P m R Q.
Proof. intros H1 H2 s s' c Hs E. exact (H2 (H1 s Hs) s s' c Hs E). Qed.

Lemma ends_and {A} (P P' : S -> Prop) (m : handler S A) R R' Q Q' :
  ends P m R Q -> ends P' m R' Q' ->
  ends (fun s => P s /\ P' s) m (fun a s => R a s /\ R' a s) (fun s => Q s /\ Q' s).
Proof.
  intros H1 H2 s s' c [Hs Hs'] E. specialize (H1 _ _ _ Hs E). specialize (H2 _ _ _ Hs' E).
  by destruct c.
Qed.
Lemma ends_conseq {A} (P P' : S -> Prop) (m : handler S A) (R R' : A -> S -> Prop) (Q Q' : S -> Prop) :
  ends P' m R' Q' -> (forall s, P s -> P' s) -> (forall a s, R' a s -> R a s) ->
  (forall s, Q' s -> Q s) -> ends P m R Q.
Proof. intros H HP HR HQ s s' c Hs E. specialize (H _ _ _ (HP _ Hs) E). destruct c; auto. Qed.

(** What a handler leaves alone it carries through any assertion about it. *)
Lemma leaves_ends {A T} (f : S -> T) (P : T -> Prop) (m : handler S A) :
  leaves f m -> ends (fun s => P (f s)) m (fun _ s => P (f s)) (fun s => P (f s)).
Proof. intros H s s' [a|] Hs E; by rewrite (H _ _ _ E). Qed.

Lemma leaves_bind {A B T} (f : S -> T) (m : handler S A) (k : A -> handler S B) :
  leaves f m -> (forall a, leaves f (k a)) -> leaves f (hbind m k).
Proof.
  intros Hm Hk s s' c E. unfold hbind in E. destruct (m s) as [[w [a|]]|] eqn:Em; [| |discriminate].
  - rewrite (Hk _ _ _ _ E). exact (Hm _ _ _ Em).
  - injection E as -> <-. exact (Hm _ _ _ Em).
Qed.
Lemma leaves_ret {A T} (f : S -> T) (a : A) : leaves f (hret a).
Proof. by intros s s' c [= <- <-]. Qed.
Lemma leaves_continue {A T} (f : S -> T) : leaves f (@hcontinue S A).
Proof. by intros s s' c [= <- <-]. Qed.
Lemma leaves_get {A T} (f : S -> T) (g : S -> A) : leaves f (hget g).
Proof. by intros s s' c [= <- <-]. Qed.
Lemma leaves_mod {T} (f : S -> T) g : (forall s, f (g s) = f s) -> leaves f (hmod g).
Proof. intros H s s' c [= <- <-]. apply H. Qed.
Lemma leaves_lift {A T} (f : S -> T) (m : outcome A) : leaves f (hlift m).
Proof. intros s s' c E. unfold hlift in E. destruct m; [by injection E as <- <- | discriminate]. Qed.
Lemma leaves_run {A T} (f : S -> T) (g : S -> outcome (S * A)) :
  (forall s s' a, g s = Ret (s', a) -> f s' = f s) -> leaves f (hrun g).
Proof.
  intros H s s' c E. unfold hrun in E. destruct (g s) as [[w a]|] eqn:Eg; [|discriminate].
  injection E as <- <-. eauto.
Qed.

(** An assertion that holds before and after, whichever way [m] ends. *)
Definition stays {A} (I : S -> Prop) (m : handler S A) : Prop := ends I m (fun _ => I) I.

Lemma stays_bind {A B} (I : S -> Prop) (m : handler S A) (k : A -> handler S B) :
  stays I m -> (forall a, stays I (k a)) -> stays I (hbind m k).
Proof. apply ends_bind. Qed.
Lemma stays_ret {A} (I : S -> Prop) (a : A) : stays I (hret a).
Proof. by apply ends_ret. Qed.
Lemma stays_continue {A} (I : S -> Prop) : stays I (@hcontinue S A).
Proof. by apply ends_continue. Qed.
Lemma stays_mod (I : S -> Prop) f : (forall s, I s -> I (f s)) -> stays I (hmod f).
Proof. intros H. apply ends_mod. exact H. Qed.
Lemma stays_leaves {A T} (f : S -> T) (P : T -> Prop) (m : handler S A) :
  leaves f m -> stays (fun s => P (f s)) m.
Proof. apply leaves_ends. Qed.

End Partial.

Create HintDb handler.
#[global] Hint Resolve keeps_ret keeps_continue keeps_get : handler.

(** One structural step of a [keeps] goal: binds, branches and matches. *)
Ltac kstep :=
  lazymatch goal with
  | |- keeps _ (hbind _ _) => apply keeps_bind; [|intros ?]
  | |- keeps _ (hret _) => apply keeps_ret
  | |- keeps _ hcontinue => apply keeps_continue
  | |- keeps _ (hget _) => apply keeps_get
  | |- keeps _ (if ?b then _ else _) => destruct b eqn:?
  | |- keeps _ (match ?x with _ => _ end) => destruct x eqn:?
  | |- keeps _ _ => solve [eauto with handler]
  end.
Ltac ksteps := repeat kstep.

(** The same for [leaves]. *)
Ltac lstep :=
  lazymatch goal with
  | |- leaves _ (hbind _ _) => apply leaves_bind; [|intros ?]
  | |- leaves _ (hret _) => apply leaves_ret
  | |- leaves _ hcontinue => apply leaves_continue
  | |- leaves _ (hget _) => apply leaves_get
  | |- leaves _ (hlift _) => apply leaves_lift
  | |- leaves _ (hmod _) => apply leaves_mod; by intros ?
  | |- leaves _ (if ?b then _ else _) => destruct b eqn:?
  | |- leaves _ (match ?x with _ => _ end) => destruct x eqn:?
  | |- leaves _ _ => solve [eauto with handler]
  end.
Ltac lsteps := repeat lstep.

(** And for [stays]; what only reads the state stays trivially. *)
Ltac sstep :=
  lazymatch goal with
  | |- stays _ (hbind _ _) => apply stays_bind; [|intros ?]
  | |- stays _ (hret _) => apply stays_ret
  | |- stays _ hcontinue => apply stays_continue
  | |- stays _ (if ?b then _ else _) => destruct b eqn:?
  | |- stays _ (match ?x with _ => _ end) => destruct x eqn:?
  | |- stays _ _ => solve [eauto with handler]
  end.
Ltac ssteps := repeat sstep.
