(* ===== verification/V2State.v ===== *)
(** * Datapath v2: state (src/datapath_v2.rs)

    The state shared by the RX thread, the shard threads, the TX thread and
    the session cleanup: the tables of main.rs, the buffer pool and the
    bounded queues between the threads.  A queue is a list with a capacity;
    what goes out on a socket is appended to a log: [v_sent] for the main
    socket, [v_to_game] for the connected sockets of the flows. *)

From S2P Require Import Prelude Checksum Net Packet TunRewrite TunSession RustStr Tuning DestPolicy Stats Sessions RateLimit AccountBudget Auth Frames Handler.

Definition MAX_PACKET_SIZE : nat := Z.to_nat 1600.
Definition MAX_DATA_QUEUE_AGE : Z := millis 250.

(* ------------------------------------------------------------------ *)
(** ** The buffer pool *)

(** [free] is the content of the free-list channel, oldest first. *)
Record BufferPool : Type := MkPool {
  buffers : list (list Z);
  free : list nat;
}.
#[global] Instance eta_BufferPool : Eta BufferPool := fun p => MkPool (buffers p) (free p).

Definition pool_new (slots : nat) : BufferPool :=
  MkPool (replicate slots (replicate MAX_PACKET_SIZE 0)) (seq 0 slots).

(** [try_acquire] and [release]. *)
Definition try_acquire (p : BufferPool) : BufferPool * option nat :=
  match free p with
  | idx :: rest => (p <| free := rest |>, Some idx)
  | [] => (p, None)
  end.
Definition release (p : BufferPool) (idx : nat) : BufferPool := p <| free ::= fun l => l ++ [idx] |>.

(** [buffer(idx)] and a write through [buffer_mut(idx)]. *)
Definition buffer (p : BufferPool) (idx : nat) : outcome (list Z) := rd (buffers p) idx.
Definition set_buffer (p : BufferPool) (idx : nat) (b : list Z) : outcome BufferPool :=
  let* bs := wr (buffers p) idx b in Ret (p <| buffers := bs |>).

(* ------------------------------------------------------------------ *)
(** ** Flows and messages *)

Record FlowKey : Type := MkKey { k_session_id : list Z; k_game_addr : SocketAddr }.

#[export] Instance FlowKey_eq_dec : EqDecision FlowKey.
Proof. solve_decision. Defined.
#[export] Instance FlowKey_countable : Countable FlowKey.
Proof.
  apply (inj_countable' (fun k => (k_session_id k, k_game_addr k)) (fun '(s, a) => MkKey s a)).
  by intros [].
Defined.

(** [FlowState] without its socket, which belongs to the environment. *)
Record FlowState : Type := MkFlowState {
  f_client_addr : SocketAddr;
  f_original_info : OriginalPacketInfo;
  f_last_activity : Z;
  f_marked_for_removal : option Z;
  f_token : Z;
}.
#[global] Instance eta_FlowState : Eta FlowState := fun f =>
  MkFlowState (f_client_addr f) (f_original_info f) (f_last_activity f)
    (f_marked_for_removal f) (f_token f).

Inductive ShardMsg : Type :=
| ClientPacket (session_id : list Z) (client_addr game_addr : SocketAddr)
    (original_info : OriginalPacketInfo) (payload_idx payload_len : nat) (enqueued_at : Z)
| Keepalive (session_id : list Z) (client_addr : SocketAddr)
| RemoveSession (session_id : list Z).

Inductive QueuedPacketKind : Type := Data | Control.

#[export] Instance QueuedPacketKind_eq_dec : EqDecision QueuedPacketKind.
Proof. solve_decision. Defined.

Record TxPacket : Type := MkTx {
  p_addr : SocketAddr;
  p_session_id : list Z;
  p_buf_idx : nat;
  p_len : nat;
  p_enqueued_at : Z;
  p_kind : QueuedPacketKind;
}.
#[global] Instance eta_TxPacket : Eta TxPacket := fun p =>
  MkTx (p_addr p) (p_session_id p) (p_buf_idx p) (p_len p) (p_enqueued_at p) (p_kind p).

(** What one shard thread owns, with its inbox and its published count. *)
Record Shard : Type := MkShard {
  inbox : list ShardMsg;
  sh_flows : gmap FlowKey FlowState;
  session_flows : gmap (list Z) (list SocketAddr);
  token_to_flow : gmap Z FlowKey;
  next_token : Z;
  flow_count : Z;
}.
#[global] Instance eta_Shard : Eta Shard := fun s =>
  MkShard (inbox s) (sh_flows s) (session_flows s) (token_to_flow s) (next_token s) (flow_count s).

Definition shard_new : Shard := MkShard [] ∅ ∅ ∅ 1 0.

(** [shard_for_session]: the finaliser of a 64-bit mixer, modulo the number
    of shards; the remainder by zero panics. *)
Definition xorshift33 (x : Z) : Z := Z.lxor x (Z.shiftr x 33).
Definition shard_for_session (session_id : list Z) (shard_count : nat) : outcome nat :=
  let sid := from_be_bytes session_id in
  let sid := xorshift33 sid in
  let sid := u64 (sid * 0xff51afd7ed558ccd) in
  let sid := xorshift33 sid in
  let sid := u64 (sid * 0xc4ceb9fe1a85ec53) in
  let sid := xorshift33 sid in
  if (shard_count =? 0)%nat then Panic else Ret (Z.to_nat (sid mod Z.of_nat shard_count)).

Definition should_drop_stale_queued_packet (kind : QueuedPacketKind) (enqueued_at now : Z) : bool :=
  bool_decide (kind = Data) && (MAX_DATA_QUEUE_AGE <? duration_since now enqueued_at).

(* ------------------------------------------------------------------ *)
(** ** The whole state *)

Record Config : Type := MkConfig {
  c_auth : RelayAuthConfig;
  c_shard_queue_cap : nat;
  c_tx_queue_cap : nat;
  c_tun_cap : option nat;
  c_tun_udp_enabled : bool;
  c_tcp_enabled : bool;
}.

(** [v_closing]: the session the cleanup is in the middle of closing, with the
    address whose counter it is about to remove; [v_writing]: the packet the
    TUN writer has assigned an address to and not written yet. *)
Record V2 : Type := MkV2 {
  v_stats : Stats;
  v_sessions : gmap (list Z) SessionEntry;
  v_counts : gmap IpAddr Z;
  v_traffic : gmap (list Z) SessionTraffic;
  v_limiter : SourceRateLimiter;
  v_cache : RelayTicketReplayCache;
  v_pending : list SourceRateState;
  v_budgets : Budgets;
  v_policy : DestPolicy;
  v_pool : BufferPool;
  v_tx_control : list TxPacket;
  v_tx_data : list TxPacket;
  v_shards : list Shard;
  v_tun : list InboundTunPacket;
  v_nat : option Tun;
  v_device : list (list Z);
  v_tun_resp : list TunTxPacket;
  v_resolve : list (list Z * Z * list str * SocketAddr);
  v_sent : list (SocketAddr * list Z);
  v_to_game : list (FlowKey * list Z);
  v_closing : option (list Z * option IpAddr);
  v_writing : option (InboundTunPacket * Ipv4Addr * Ipv4Addr);
}.
#[global] Instance eta_V2 : Eta V2 := fun v =>
  MkV2 (v_stats v) (v_sessions v) (v_counts v) (v_traffic v) (v_limiter v) (v_cache v)
    (v_pending v) (v_budgets v) (v_policy v) (v_pool v) (v_tx_control v) (v_tx_data v)
    (v_shards v) (v_tun v) (v_nat v) (v_device v) (v_tun_resp v) (v_resolve v) (v_sent v)
    (v_to_game v) (v_closing v) (v_writing v).

(** The state [run_datapath_v2] starts from; [tun] says whether [main] could
    create the TUN device. *)
Definition v2_new (tuning : RelayV2Tuning) (policy : DestPolicy) (budget : Policy) (tun : bool)
  (now : Z) : V2 :=
  MkV2 stats_new ∅ ∅ ∅ (limiter_new now) cache_new (pending_new now) (budgets_new budget) policy
    (pool_new (Z.to_nat (pool_slots tuning))) [] []
    (replicate (Z.to_nat (shard_count tuning)) shard_new)
    [] (if tun then Some (MkTun ∅ ∅) else None) [] [] [] [] [] None None.

Abbreviation H := (handler V2).

(** [Sender::try_send] on a bounded queue; the receivers live as long as the
    process (a dead thread ends it, [supervise_critical_thread]). *)
Definition try_send {A} (cap : nat) (queue : list A) (x : A) : option (list A) :=
  if (length queue <? cap)%nat then Some (queue ++ [x]) else None.

(** Primitive operations of the threads. *)
Definition stat (f : Stats -> Stats) : H unit := hmod (fun v => v <| v_stats ::= f |>).
Definition h_drop_in (r : DropReason) : H unit := stat (fun s => drop_in s r).
Definition h_drop_out (r : DropReason) : H unit := stat (fun s => drop_out s r).
Definition h_pool_exhausted : H unit := stat (fun s => s <| pool_exhausted ::= fetch_add 1 |>).

Definition h_acquire : H (option nat) := hrun (fun v =>
  let '(p, r) := try_acquire (v_pool v) in Ret (v <| v_pool := p |>, r)).
Definition h_release (idx : nat) : H unit :=
  hmod (fun v => v <| v_pool ::= fun p => release p idx |>).

(** Write [bytes] at the start of a pool buffer. *)
Definition h_fill (idx : nat) (bytes : list Z) : H unit := hrun (fun v =>
  let* b := buffer (v_pool v) idx in
  let* b := copy_from_slice b 0 (length bytes) bytes in
  let* p := set_buffer (v_pool v) idx b in
  Ret (v <| v_pool := p |>, tt)).

(** Queue a packet for the TX thread, or count the drop and give the buffer
    back. *)
Definition h_queue_tx (cfg : Config) (packet : TxPacket) : H unit := hrun (fun v =>
  let full := Ret (v <| v_stats ::= fun s => drop_out s TxQueue |>
                     <| v_pool ::= fun p => release p (p_buf_idx packet) |>, tt) in
  match p_kind packet with
  | Control =>
      match try_send (c_tx_queue_cap cfg) (v_tx_control v) packet with
      | Some q => Ret (v <| v_tx_control := q |>, tt)
      | None => full
      end
  | Data =>
      match try_send (c_tx_queue_cap cfg) (v_tx_data v) packet with
      | Some q => Ret (v <| v_tx_data := q |>, tt)
      | None => full
      end
  end).

(** [send_small_control_frame]. *)
Definition send_small_control_frame (cfg : Config) (client_addr : SocketAddr)
  (session_id : list Z) (frame_type status now : Z) : H unit :=
  let! slot := h_acquire in
  match slot with
  | None => h_drop_out Pool ;! h_pool_exhausted
  | Some buf_idx =>
      h_fill buf_idx (session_id ++ [frame_type; status]) ;!
      h_queue_tx cfg (MkTx client_addr session_id buf_idx (SESSION_ID_LEN + 2) now Control)
  end.

(** Post a message to the shard of a session; [None] when there is no such
    shard, [Some false] when its inbox is full. *)
Definition h_post (cfg : Config) (session_id : list Z) (msg : ShardMsg) : H (option bool) :=
  hrun (fun v =>
    let* shard_id := shard_for_session session_id (length (v_shards v)) in
    match v_shards v !! shard_id with
    | None => Ret (v, None)
    | Some sh =>
        match try_send (c_shard_queue_cap cfg) (inbox sh) msg with
        | None => Ret (v, Some false)
        | Some q => Ret (v <| v_shards ::= <[shard_id := sh <| inbox := q |>]> |>, Some true)
        end
    end).
