(* ===== verification/V2Rx.v ===== *)
(** * Datapath v2: the RX thread (src/datapath_v2.rs, [run_datapath_v2])

    One iteration of the receive loop, in the order of the source: ticket
    verification, the authentication gate, rate limiting and admission, the
    session entry, then the frame by type.  [buf] is the whole receive
    buffer, [len] the number of bytes received into it. *)

From S2P Require Import Prelude Checksum Net Packet TunRewrite TunSession RustStr DestPolicy Stats Sessions RateLimit AccountBudget Auth Frames Handler V2State.

(** What the environment supplies for one datagram: the buffer and length,
    the sender, and the clocks as they are read. *)
Record RxInput : Type := MkRx {
  buf : list Z;
  len : nat;
  from : SocketAddr;
  now : Z;
  now_unix : Z;
  mono_ms : Z;
  enqueue_time : Z;
}.

Section Rx.
Context `{TicketCrypto} (hash_one : IpAddr -> Z) (cfg : Config).

Definition auth_needed : bool := requires_auth (auth_mode (c_auth cfg)).

(** [pending_auth.allow(client_addr.ip(), now)]. *)
Definition h_pending (i : RxInput) : H bool := hrun (fun v =>
  let* (buckets, ok) := pending_allow hash_one (v_pending v) (sock_ip (from i)) (now i) in
  Ret (v <| v_pending := buckets |>, ok)).

(** [allow_source_event]. *)
Definition h_source_event (i : RxInput) (kind : SourceLimitKind) : H bool := hrun (fun v =>
  let '(l, s, ok) := allow_source_event (v_limiter v) (v_stats v) (from i) kind (now i) in
  Ret (v <| v_limiter := l |> <| v_stats := s |>, ok)).

Definition h_verify_once (i : RxInput) (session_id : list Z) (token : str)
  : H (result VerifiedRelayTicket RelayAuthVerifyError) := hrun (fun v =>
  let '(cache, r) := verify_relay_ticket_once token session_id (c_auth cfg) (now_unix i) (v_cache v) in
  Ret (v <| v_cache := cache |>, r)).

Definition h_ack (i : RxInput) (session_id : list Z) (status : Z) : H unit :=
  send_small_control_frame cfg (from i) session_id AUTH_ACK_FRAME_TYPE status (enqueue_time i).

(** The ticket of a hello frame, when authentication is on. *)
Definition rx_ticket (i : RxInput) (session_id : list Z) (is_auth_hello : bool)
  : H (option VerifiedRelayTicket) :=
  if auth_needed && is_auth_hello then
    let! allowed := h_pending i in
    if negb allowed then h_drop_in RateLimit ;! hcontinue else
    let! parsed := hlift (parse_auth_hello_token (buf i) (len i)) in
    let! verdict :=
      match parsed with
      | Err e => hret (Err e)
      | Ok token => h_verify_once i session_id token
      end in
    match verdict with
    | Ok ticket => hret (Some ticket)
    | Err err => h_ack i session_id (ack_status err) ;! hcontinue
    end
  else hret None.

(** A packet without a ticket for a session at another address gets a hint
    to authenticate again. *)
Definition rx_reauth_hint (i : RxInput) (session_id : list Z)
  (ticket : option VerifiedRelayTicket) : H unit :=
  let! sessions := hget v_sessions in
  if auth_needed && negb (bool_decide (is_Some ticket))
     && match sessions !! session_id with
        | Some session => negb (bool_decide (client_addr session = from i))
        | None => false
        end
  then
    let! allowed := h_pending i in
    if allowed then h_ack i session_id AUTH_ACK_REAUTH_REQUIRED else hret tt
  else hret tt.

(** Without a ticket only a current, authenticated session at its own
    address passes. *)
Definition rx_auth_gate (i : RxInput) (session_id : list Z)
  (ticket : option VerifiedRelayTicket) : H unit :=
  let! sessions := hget v_sessions in
  if auth_needed && negb (bool_decide (is_Some ticket))
     && negb match sessions !! session_id with
             | Some session =>
                 session_auth_is_current session (now_unix i)
                 && authenticated_session_source_allowed session true (from i) false
             | None => false
             end
  then h_drop_in Stats.Auth ;! hcontinue
  else hret tt.

(** Rate limits and, for a new session, the capacity checks. *)
Definition rx_admit (i : RxInput) (session_id : list Z) : H unit :=
  let! ok := h_source_event i RateLimit.Packet in
  if negb ok then hcontinue else
  let! v := hget id in
  if negb (bool_decide (is_Some (v_sessions v !! session_id))) then
    if MAX_SESSIONS_TOTAL <=? Z.of_nat (size (v_sessions v)) then h_drop_in Capacity ;! hcontinue
    else if MAX_SESSIONS_PER_SRC_IP <=? source_session_count (v_counts v) (sock_ip (from i))
    then h_drop_in Capacity ;! hcontinue
    else
      let! ok := h_source_event i NewSession in
      if negb ok then hcontinue else hret tt
  else hret tt.

(** [sessions.entry(session_id)]: returns whether the session is
    authenticated and whether the source address is allowed. *)
Definition rx_session (i : RxInput) (session_id : list Z) (is_auth_hello : bool)
  : H (bool * bool) := hrun (fun v =>
  match v_sessions v !! session_id with
  | Some session =>
      let authenticated := session_auth_is_current session (now_unix i) in
      let source_allowed :=
        authenticated_session_source_allowed session auth_needed (from i) is_auth_hello in
      if negb auth_needed || (negb is_auth_hello && bool_decide (client_addr session = from i))
      then
        Ret (v <| v_counts ::= fun c => update_source_session_count_for_rebind c
                                          (sock_ip (client_addr session)) (sock_ip (from i)) |>
               <| v_sessions ::= <[session_id := session <| client_addr := from i |>
                                                         <| last_activity := now i |>
                                                         <| last_activity_unix := now_unix i |>]> |>,
             (authenticated, source_allowed))
      else Ret (v, (authenticated, source_allowed))
  | None =>
      Ret (v <| v_sessions ::= <[session_id := MkSession (derive_user_id session_id) Legacy None
                                   (from i) (now_unix i) (now i) (now_unix i)]> |>
             <| v_counts ::= fun c => increment_source_session_count c (sock_ip (from i)) |>
             <| v_stats ::= fun s => s <| active_sessions ::= fetch_add 1 |> |>,
           (false, true))
  end).

Definition rx_ingress (i : RxInput) (session_id : list Z) : H unit :=
  hmod (fun v => v <| v_traffic ::= fun t =>
                        record_session_ingress t session_id (now_unix i) (len i) |>).

(** The hello frame: ownership does not transfer. *)
Definition rx_hello (i : RxInput) (session_id : list Z) (ticket : option VerifiedRelayTicket)
  : H unit :=
  if bool_decide (auth_mode (c_auth cfg) = AuthOff) then
    h_ack i session_id AUTH_ACK_AUTH_DISABLED ;! hcontinue
  else
    match ticket with
    | Some t =>
        let! sessions := hget v_sessions in
        let owner_conflict :=
          match sessions !! session_id with
          | Some existing => bool_decide (auth_state existing = Authenticated)
                             && negb (bool_decide (user_id existing = t_user_id t))
          | None => false
          end in
        if owner_conflict then h_ack i session_id AUTH_ACK_OWNER_MISMATCH ;! hcontinue
        else
          hmod (fun v =>
            match v_sessions v !! session_id with
            | None => v
            | Some e =>
                v <| v_counts ::= fun c => update_source_session_count_for_rebind c
                                             (sock_ip (client_addr e)) (sock_ip (from i)) |>
                  <| v_sessions ::= <[session_id :=
                       MkSession (t_user_id t) Authenticated
                         (if t_lease t then Some (t_exp t) else None) (from i)
                         (created_at_unix e) (now i) (now_unix i)]> |>
            end) ;!
          h_ack i session_id AUTH_ACK_OK ;!
          hcontinue
    | None => h_ack i session_id (ack_status BadFormat) ;! hcontinue
    end.

(** The check most frame types repeat. *)
Definition rx_require_auth (authenticated : bool) : H unit :=
  if auth_needed && negb authenticated then h_drop_in Stats.Auth ;! hcontinue else hret tt.

Definition rx_ping (i : RxInput) (session_id : list Z) (authenticated : bool) : H unit :=
  rx_require_auth authenticated ;!
  let! seq := hlift (rd_be (buf i) (SESSION_ID_LEN + 1) 4) in
  let! client_ts := hlift (rd_be (buf i) (SESSION_ID_LEN + 5) 8) in
  let! slot := h_acquire in
  match slot with
  | None => h_drop_out Pool ;! h_pool_exhausted ;! hcontinue
  | Some buf_idx =>
      h_fill buf_idx (pong_bytes session_id seq client_ts (mono_ms i)) ;!
      h_queue_tx cfg (MkTx (from i) session_id buf_idx PONG_FRAME_LEN (enqueue_time i) Control) ;!
      hcontinue
  end.

Definition rx_rtt (i : RxInput) (session_id : list Z) (authenticated : bool) : H unit :=
  rx_require_auth authenticated ;!
  let! rtt_us := hlift (rd_be (buf i) (SESSION_ID_LEN + 1) 4) in
  hmod (fun v => v <| v_traffic ::= alter (fun t => t <| last_rtt_us := rtt_us |>) session_id |>) ;!
  hcontinue.

(** The lookup and the reply run in a spawned task ([resolve_reply]). *)
Definition rx_resolve (i : RxInput) (session_id : list Z) (authenticated : bool) : H unit :=
  rx_require_auth authenticated ;!
  let! req := hlift (parse_resolve_request (buf i) (len i)) in
  match req with
  | Some (request_id, hosts) =>
      hmod (fun v => v <| v_resolve ::= fun q => q ++ [(session_id, request_id, hosts, from i)] |>) ;!
      hcontinue
  | None => hcontinue
  end.

Definition rx_keepalive (i : RxInput) (session_id : list Z) (authenticated : bool) : H unit :=
  rx_require_auth authenticated ;!
  let! posted := h_post cfg session_id (Keepalive session_id (from i)) in
  match posted with
  | Some false => h_drop_in ShardQueue ;! hcontinue
  | _ => hcontinue
  end.

(** A session that is not authenticated is named after its tunnel address. *)
Definition h_name_legacy (session_id : list Z) (src_ip : Ipv4Addr) : H unit :=
  hmod (fun v =>
    v <| v_sessions ::= alter (fun e => if bool_decide (auth_state e = Authenticated) then e
                                        else e <| user_id := show_ipv4 src_ip |>) session_id |>).

(** Hand a packet to the TUN writer; [count] is the counter on success. *)
Definition h_tun (i : RxInput) (session_id raw : list Z) (count : Stats -> Stats) : H unit :=
  match c_tun_cap cfg with
  | None => h_drop_in TunQueue
  | Some cap =>
      let! queue := hget v_tun in
      match try_send cap queue (MkInbound session_id (from i) raw) with
      | None => h_drop_in TunQueue
      | Some q => hmod (fun v => v <| v_tun := q |>) ;! stat count
      end
  end.

Definition count_tcp (s : Stats) : Stats := s <| tcp_forwarded ::= fetch_add 1 |>.
Definition count_tun_udp (s : Stats) : Stats := s <| tun_udp_forwarded ::= fetch_add 1 |>.

(** UDP payload to the shard of the session. *)
Definition rx_udp (i : RxInput) (session_id : list Z) (game_addr : SocketAddr)
  (payload : list Z) (original_info : OriginalPacketInfo) : H unit :=
  h_name_legacy session_id (src_ip original_info) ;!
  let! slot := h_acquire in
  match slot with
  | None => h_drop_in Pool ;! h_pool_exhausted ;! hcontinue
  | Some payload_idx =>
      h_fill payload_idx payload ;!
      let! posted := h_post cfg session_id
        (ClientPacket session_id (from i) game_addr original_info payload_idx (length payload) (now i)) in
      match posted with
      | Some true => hret tt
      | _ => h_drop_in ShardQueue ;! h_release payload_idx
      end
  end.

Definition rx_forward (i : RxInput) (session_id : list Z) (parsed : ParsedPacket) : H unit :=
  match parsed with
  | Packet.ForbiddenDst => h_drop_in Stats.ForbiddenDst ;! hcontinue
  | Packet.Fragment protocol src raw =>
      (if ((protocol =? 17) && c_tun_udp_enabled cfg) || ((protocol =? 6) && c_tcp_enabled cfg)
       then h_tun i session_id raw (if protocol =? 6 then count_tcp else count_tun_udp)
       else h_drop_in Stats.Fragment) ;!
      h_name_legacy session_id src ;!
      hcontinue
  | Tcp info raw =>
      (if c_tcp_enabled cfg then h_tun i session_id raw count_tcp else h_drop_in TcpDisabled) ;!
      h_name_legacy session_id (src_ip info) ;!
      hcontinue
  | Udp game_addr payload info raw =>
      if c_tun_udp_enabled cfg then
        h_tun i session_id raw count_tun_udp ;!
        h_name_legacy session_id (src_ip info) ;!
        hcontinue
      else rx_udp i session_id game_addr payload info
  end.

(** [account_budget::allow(&sessions, session_id, false, ip_packet)]. *)
Definition h_budget (session_id : list Z) (out : bool) (packet : list Z) (mono : Z) : H bool :=
  hrun (fun v =>
    let* (b, ok) := allow (v_budgets v) (v_sessions v) session_id out packet mono in
    Ret (v <| v_budgets := b |>, ok)).

Definition h_parse (packet : list Z) : H (option ParsedPacket) := hrun (fun v =>
  let* (p, r) := parse_ip_packet_full (v_policy v) packet in
  Ret (v <| v_policy := p |>, r)).

(** A tunnelled IP packet. *)
Definition rx_packet (i : RxInput) (session_id : list Z) (authenticated : bool) : H unit :=
  rx_require_auth authenticated ;!
  if (len i <? SESSION_ID_LEN + IP_HEADER_MIN)%nat then h_drop_in TooSmall ;! hcontinue else
  let! ip_packet := hlift (slice (buf i) SESSION_ID_LEN (len i)) in
  let! parsed := h_parse ip_packet in
  match parsed with
  | None => h_drop_in Parse ;! hcontinue
  | Some Packet.ForbiddenDst => rx_forward i session_id Packet.ForbiddenDst
  | Some p =>
      let! ok := h_budget session_id false ip_packet (mono_ms i) in
      if negb ok then h_drop_in RateLimit ;! hcontinue else rx_forward i session_id p
  end.

(** Frames after the session is known, by type and length. *)
Definition rx_frame (i : RxInput) (session_id : list Z) (authenticated : bool) : H unit :=
  let! b := hlift (rd (buf i) SESSION_ID_LEN) in
  if (len i =? PING_FRAME_LEN)%nat && (b =? PING_FRAME_TYPE) then
    rx_ping i session_id authenticated
  else if (len i =? PONG_FRAME_LEN)%nat && (b =? PONG_FRAME_TYPE) then hcontinue
  else if (len i =? RTT_REPORT_FRAME_LEN)%nat && (b =? RTT_REPORT_FRAME_TYPE) then
    rx_rtt i session_id authenticated
  else if (SESSION_ID_LEN <? len i)%nat && (b =? RESOLVE_REQUEST_FRAME_TYPE) then
    rx_resolve i session_id authenticated
  else if (len i =? SESSION_ID_LEN)%nat then rx_keepalive i session_id authenticated
  else rx_packet i session_id authenticated.

(** One datagram through the RX loop. *)
Definition rx_step (i : RxInput) : H unit :=
  stat (fun s => s <| packets_in ::= fetch_add 1 |>
                   <| bytes_in ::= fetch_add (Z.of_nat (len i)) |>) ;!
  if (len i <? SESSION_ID_LEN)%nat then h_drop_in TooSmall ;! hcontinue else
  let! session_id := hlift (slice (buf i) 0 SESSION_ID_LEN) in
  let! b := hlift (rd (buf i) SESSION_ID_LEN) in
  let is_auth_hello := (SESSION_ID_LEN + 3 <=? len i)%nat && (b =? AUTH_HELLO_FRAME_TYPE) in
  let! ticket := rx_ticket i session_id is_auth_hello in
  rx_reauth_hint i session_id ticket ;!
  rx_auth_gate i session_id ticket ;!
  rx_admit i session_id ;!
  let! (authenticated, source_allowed) := rx_session i session_id is_auth_hello in
  rx_ingress i session_id ;!
  if is_auth_hello then rx_hello i session_id ticket
  else if negb source_allowed then h_drop_in Stats.Auth ;! hcontinue
  else rx_frame i session_id authenticated.

End Rx.
