(* ===== verification/V2Shard.v ===== *)
(** * Datapath v2: shards, the TX thread and session cleanup
    (src/datapath_v2.rs: [run_shard], [send_tx_packet], the cleanup task)

    What sockets do is supplied by the environment: whether a flow socket can
    be created and registered, what a send returns, which datagrams a flow
    receives.  The cleanup closes a session in two halves that other threads
    can come between. *)

From S2P Require Import Prelude Checksum Net Packet TunRewrite TunSession RustStr DestPolicy Stats Sessions RateLimit AccountBudget Auth Frames Handler V2State V2Rx.

Definition MAX_FLOW_RECV_BURST : nat := 64.

(** Result of a non-blocking send. *)
Inductive SendResult : Type := SendOk | SendWouldBlock | SendError.

(** [remove_flow_from_session_index]: [swap_remove] of the first match. *)
Definition swap_remove {A} (l : list A) (pos : nat) : list A :=
  match List.last (List.map Some l) None with
  | Some x => take (length l - 1) (<[pos := x]> l)
  | None => l
  end.

Definition remove_flow_from_session_index (m : gmap (list Z) (list SocketAddr)) (flow : FlowKey)
  : gmap (list Z) (list SocketAddr) :=
  match m !! k_session_id flow with
  | None => m
  | Some l =>
      let l := match list_find (fun a => a = k_game_addr flow) l with
               | Some (pos, _) => swap_remove l pos
               | None => l
               end in
      if (length l =? 0)%nat then delete (k_session_id flow) m else <[k_session_id flow := l]> m
  end.

(** [usize] is 64 bits wide. *)
Definition next_usize (x : Z) : Z := let y := u64 (x + 1) in if y =? 0 then 1 else y.

(** The loop of [allocate_flow_token]; [fuel] bounds the number of probes. *)
Fixpoint probe_token (fuel : nat) (start next : Z) (used : gmap Z FlowKey) : Z * option Z :=
  match fuel with
  | O => (next, None)
  | S fuel' =>
      let token := next in
      let next := next_usize next in
      if (token =? 0) || bool_decide (is_Some (used !! token)) then
        if next =? start then (next, None) else probe_token fuel' start next used
      else (next, Some token)
  end.

Definition allocate_flow_token (next : Z) (used : gmap Z FlowKey) : Z * option Z :=
  let next := if next =? 0 then 1 else next in
  probe_token (size used + 1) next next used.

Section Shard.
Context (cfg : Config) (shard_id : nat).

(** The shard's own state; the threads are the indices of [v_shards]. *)
Definition h_shard : H Shard := hget (fun v => default shard_new (v_shards v !! shard_id)).
Definition h_set_shard (f : Shard -> Shard) : H unit :=
  hmod (fun v => v <| v_shards ::= alter f shard_id |>).

(** [sessions.get(..).is_some_and(session_lease_is_current)]. *)
Definition lease_current (v : V2) (sid : list Z) (now_unix : Z) : bool :=
  match v_sessions v !! sid with
  | Some session => session_lease_is_current session now_unix
  | None => false
  end.

(** One datagram from the game server on flow [key]. *)
Definition shard_response (key : FlowKey) (payload : list Z) (response_tos : option Z)
  (received_at now_unix : Z) : H unit :=
  let! v := hget id in
  if negb (lease_current v (k_session_id key) now_unix) then hcontinue else
  let! sh := h_shard in
  match sh_flows sh !! key with
  | None => hcontinue
  | Some flow =>
      let flow := flow <| f_last_activity := received_at |> <| f_marked_for_removal := None |> in
      h_set_shard (fun sh => sh <| sh_flows ::= <[key := flow]> |>) ;!
      hmod (fun v => v <| v_sessions ::= alter (fun e => e <| last_activity := received_at |>
                                                          <| last_activity_unix := now_unix |>)
                                           (k_session_id key) |>) ;!
      let! slot := h_acquire in
      match slot with
      | None => h_drop_out Pool ;! h_pool_exhausted ;! hcontinue
      | Some buf_idx =>
          let! ip_len := hrun (fun v =>
            let* out := buffer (v_pool v) buf_idx in
            let* out := copy_from_slice out 0 SESSION_ID_LEN (k_session_id key) in
            let* head := slice out 0 SESSION_ID_LEN in
            let* tail := slice out SESSION_ID_LEN (length out) in
            let* (tail, ip_len) := write_response_ip_packet_into_with_tos tail payload
              (f_original_info flow) (default (tos (f_original_info flow)) response_tos) in
            let* p := set_buffer (v_pool v) buf_idx (head ++ tail) in
            Ret (v <| v_pool := p |>, ip_len)) in
          match ip_len with
          | None => h_release buf_idx ;! hcontinue
          | Some ip_len =>
              h_queue_tx cfg (MkTx (f_client_addr flow) (k_session_id key) buf_idx
                                (SESSION_ID_LEN + ip_len) received_at Data)
          end
      end
  end.

(** A burst on one flow: [Continue] is the [break] of the source. *)
Fixpoint shard_burst (key : FlowKey) (burst : nat) (datagrams : list (list Z * option Z * Z * Z))
  : H unit :=
  match burst, datagrams with
  | S burst', (payload, response_tos, received_at, now_unix) :: rest =>
      shard_response key payload response_tos received_at now_unix ;! shard_burst key burst' rest
  | _, _ => hcontinue
  end.

(** A readiness event of the poller. *)
Definition shard_event (token : Z) (datagrams : list (list Z * option Z * Z * Z)) : H unit :=
  if token =? 0 then hcontinue else
  let! sh := h_shard in
  match token_to_flow sh !! token with
  | None => hcontinue
  | Some key =>
      if bool_decide (is_Some (sh_flows sh !! key)) then shard_burst key MAX_FLOW_RECV_BURST datagrams
      else hcontinue
  end.

(** The flow of a client packet, created on first use: [Some tt] when it
    exists afterwards.  Every refusal gives the payload's buffer back. *)
Definition shard_open_flow (key : FlowKey) (client_addr : SocketAddr)
  (info : OriginalPacketInfo) (payload_idx : nat) (socket_ok register_ok : bool) (now : Z)
  : H unit :=
  let refuse (r : DropReason) : H unit := h_drop_in r ;! h_release payload_idx ;! hcontinue in
  let! v := hget id in
  let! sh := h_shard in
  if bool_decide (is_Some (sh_flows sh !! key)) then hret tt else
  let total_flows := fold_left (fun n s => n + flow_count s) (v_shards v) 0 in
  if MAX_FLOWS_TOTAL <=? total_flows then refuse Capacity else
  if MAX_FLOWS_PER_SESSION <=?
       Z.of_nat (length (default [] (session_flows sh !! k_session_id key)))
  then refuse Capacity else
  let! allowed := hrun (fun v =>
    let '(l, s, ok) := allow_source_event (v_limiter v) (v_stats v) client_addr NewFlow now in
    Ret (v <| v_limiter := l |> <| v_stats := s |>, ok)) in
  if negb allowed then h_release payload_idx ;! hcontinue else
  if negb socket_ok then refuse FlowCreate else
  let '(next, token) := allocate_flow_token (next_token sh) (token_to_flow sh) in
  h_set_shard (fun sh => sh <| next_token := next |>) ;!
  match token with
  | None => refuse FlowCreate
  | Some token =>
      if negb register_ok then refuse FlowCreate else
      h_set_shard (fun sh =>
        sh <| token_to_flow ::= <[token := key]> |>
           <| session_flows ::= fun m =>
                <[k_session_id key := default [] (m !! k_session_id key) ++ [k_game_addr key]]> m |>
           <| sh_flows ::= <[key := MkFlowState client_addr info now None token]> |>)
  end.

(** [flow.socket.send]: the socket is connected to the flow's game server. *)
Definition h_flow_send (key : FlowKey) (bytes : list Z) (send : SendResult) : H unit :=
  match send with
  | SendOk => hmod (fun v => v <| v_to_game ::= fun l => l ++ [(key, bytes)] |>)
  | _ => hret tt
  end.

(** [ShardMsg::ClientPacket]. *)
Definition shard_client_packet (session_id : list Z) (client_addr game_addr : SocketAddr)
  (info : OriginalPacketInfo) (payload_idx payload_len : nat) (enqueued_at : Z)
  (socket_ok register_ok : bool) (send : SendResult) (now : Z) : H unit :=
  if should_drop_stale_queued_packet Data enqueued_at now then
    h_drop_in StaleQueue ;! h_release payload_idx ;! hcontinue
  else
  let key := MkKey session_id game_addr in
  shard_open_flow key client_addr info payload_idx socket_ok register_ok now ;!
  h_set_shard (fun sh => sh <| sh_flows ::= alter (fun f =>
    f <| f_client_addr := client_addr |> <| f_original_info := info |>
      <| f_last_activity := now |> <| f_marked_for_removal := None |>) key |>) ;!
  let! bytes := hrun (fun v => let* b := buffer (v_pool v) payload_idx in
                               let* bytes := slice b 0 payload_len in Ret (v, bytes)) in
  h_flow_send key bytes send ;!
  h_release payload_idx ;!
  match send with
  | SendWouldBlock => h_drop_in FlowSend
  | _ => hret tt
  end.

(** [ShardMsg::Keepalive]: every flow of the session. *)
Definition shard_keepalive (session_id : list Z) (client_addr : SocketAddr) (now : Z) : H unit :=
  h_set_shard (fun sh =>
    sh <| sh_flows ::= fun m =>
      fold_left (fun m game_addr =>
        alter (fun f => f <| f_client_addr := client_addr |> <| f_last_activity := now |>
                          <| f_marked_for_removal := None |>) (MkKey session_id game_addr) m)
        (default [] (session_flows sh !! session_id)) m |>).

(** [ShardMsg::RemoveSession]. *)
Definition shard_remove_session (session_id : list Z) : H unit :=
  h_set_shard (fun sh =>
    match session_flows sh !! session_id with
    | None => sh
    | Some l =>
        fold_left (fun sh game_addr =>
          let key := MkKey session_id game_addr in
          match sh_flows sh !! key with
          | Some flow => sh <| sh_flows ::= delete key |> <| token_to_flow ::= delete (f_token flow) |>
          | None => sh
          end) l (sh <| session_flows ::= delete session_id |>)
    end).

(** One message of the inbox. *)
Definition shard_inbox (socket_ok register_ok : bool) (send : SendResult) (now : Z) : H unit :=
  let! sh := h_shard in
  match inbox sh with
  | [] => hcontinue
  | msg :: rest =>
      h_set_shard (fun sh => sh <| inbox := rest |>) ;!
      match msg with
      | ClientPacket sid addr game info idx plen t =>
          shard_client_packet sid addr game info idx plen t socket_ok register_ok send now
      | Keepalive sid addr => shard_keepalive sid addr now
      | RemoveSession sid => shard_remove_session sid
      end
  end.

(** One flow in the cleanup's [retain]: [None] removes it. *)
Definition cleanup_flow (now : Z) (flow : FlowState) : option FlowState :=
  let idle_time := duration_since now (f_last_activity flow) in
  match f_marked_for_removal flow with
  | Some marked_at =>
      if FLOW_GRACE_PERIOD <=? duration_since now marked_at then None
      else if idle_time <? secs 10 then Some (flow <| f_marked_for_removal := None |>)
      else Some flow
  | None =>
      if SESSION_TIMEOUT <=? idle_time then Some (flow <| f_marked_for_removal := Some now |>)
      else Some flow
  end.

Definition shard_cleanup (now : Z) : H unit :=
  h_set_shard (fun sh =>
    let removed := filter (fun kv => cleanup_flow now kv.2 = None) (sh_flows sh) in
    let sh := sh <| sh_flows ::= omap (cleanup_flow now) |> in
    let sh := fold_left (fun sh kv =>
                sh <| token_to_flow ::= delete (f_token kv.2) |>
                   <| session_flows ::= fun m => remove_flow_from_session_index m kv.1 |>)
                (map_to_list removed) sh in
    sh <| flow_count := Z.of_nat (size (sh_flows sh)) |>).

End Shard.

(* ------------------------------------------------------------------ *)
(** ** The TX thread *)

(** [select_biased!]: control packets first. *)
Definition tx_next (v : V2) : V2 * option TxPacket :=
  match v_tx_control v with
  | p :: rest => (v <| v_tx_control := rest |>, Some p)
  | [] =>
      match v_tx_data v with
      | p :: rest => (v <| v_tx_data := rest |>, Some p)
      | [] => (v, None)
      end
  end.

Definition count_out (sid : list Z) (n : nat) (now_unix : Z) : H unit := hmod (fun v =>
  v <| v_stats ::= fun s => s <| packets_out ::= fetch_add 1 |>
                              <| bytes_out ::= fetch_add (Z.of_nat n) |> |>
    <| v_traffic ::= alter (fun t => t <| t_bytes_out ::= fetch_add (Z.of_nat n) |>
                                       <| t_packets_out ::= fetch_add 1 |>
                                       <| t_last_activity_unix := now_unix |>) sid |>).

(** [send_tx_packet]; [sent_ok] is whether the socket accepts the packet. *)
Definition send_tx_packet (auth_required : bool) (packet : TxPacket) (sent_ok : bool)
  (now now_unix mono : Z) : H unit :=
  let discard (r : DropReason) : H unit :=
    h_drop_out r ;! h_release (p_buf_idx packet) ;! hcontinue in
  if should_drop_stale_queued_packet (p_kind packet) (p_enqueued_at packet) now
  then discard StaleQueue else
  let! sessions := hget v_sessions in
  let! addr :=
    match p_kind packet with
    | Control => hret (p_addr packet)
    | Data =>
        match forwarding_addr sessions (p_session_id packet) auth_required now_unix with
        | Some addr => hret addr
        | None => discard Stats.Auth ;! hcontinue
        end
    end in
  let! bytes := hrun (fun v => let* b := buffer (v_pool v) (p_buf_idx packet) in Ret (v, b)) in
  let! within :=
    match p_kind packet with
    | Control => hret true
    | Data =>
        let! ip_packet := hlift (slice bytes SESSION_ID_LEN (p_len packet)) in
        h_budget (p_session_id packet) true ip_packet mono
    end in
  if negb within then discard RateLimit else
  let! frame := hlift (slice bytes 0 (p_len packet)) in
  (if sent_ok then
     hmod (fun v => v <| v_sent ::= fun l => l ++ [(addr, frame)] |>) ;!
     count_out (p_session_id packet) (p_len packet) now_unix
   else h_drop_out SocketSend) ;!
  h_release (p_buf_idx packet).

(** One turn of the TX loop. *)
Definition tx_step (auth_required : bool) (sent_ok : bool) (now now_unix mono : Z) : H unit :=
  let! packet := hrun (fun v => Ret (tx_next v)) in
  match packet with
  | None => hcontinue
  | Some p => send_tx_packet auth_required p sent_ok now now_unix mono
  end.

(* ------------------------------------------------------------------ *)
(** ** Session cleanup *)

Definition SESSION_IDLE_LIMIT : Z := SESSION_TIMEOUT + FLOW_GRACE_PERIOD.
Definition LEASE_GRACE_SECS : Z := FLOW_GRACE_PERIOD / 1000000000 + AUTH_CLOCK_SKEW_SECS.

(** The condition of the cleanup's [retain], negated. *)
Definition session_expired (session : SessionEntry) (now now_unix : Z) : bool :=
  match lease_expires_at_unix session with
  | Some expires_at => sat_add expires_at LEASE_GRACE_SECS <=? now_unix
  | None => false
  end
  || (SESSION_IDLE_LIMIT <=? duration_since now (last_activity session)).

(** The [retain] closure on one session that is to go, in two halves.  The
    first removes the traffic record and decides about the source's counter;
    then the guard of the counter is free and the receive loop can use it.
    The closure runs under the lock of the session's entry, so the entry is
    taken out here: nobody sees it again. *)
Definition close_begin (expired : SessionEntry -> bool) (sid : list Z) : H unit :=
  let! closing := hget v_closing in
  match closing with
  | Some _ => hret tt
  | None =>
      let! sessions := hget v_sessions in
      match sessions !! sid with
      | None => hret tt
      | Some session =>
          if expired session then
            hmod (fun v =>
              let decrement := decrement_begin (v_counts v) (sock_ip (client_addr session)) in
              v <| v_traffic ::= delete sid |>
                <| v_counts := decrement.1 |>
                <| v_sessions ::= delete sid |>
                <| v_closing := Some (sid, decrement.2) |>)
          else hret tt
      end
  end.

(** The second half: the counter's removal, if it was decided, and the gauge;
    returns the session. *)
Definition close_finish : H (option (list Z)) :=
  let! closing := hget v_closing in
  match closing with
  | None => hret None
  | Some (sid, removal) =>
      hmod (fun v =>
        v <| v_counts ::= fun c => decrement_finish c removal |>
          <| v_stats ::= fun s => s <| active_sessions ::= fetch_sub 1 |> |>
          <| v_closing := None |>) ;!
      hret (Some sid)
  end.

(** Here the second half ends with a message to the session's shard. *)
Definition cleanup_begin (now now_unix : Z) (sid : list Z) : H unit :=
  close_begin (fun session => session_expired session now now_unix) sid.
Definition cleanup_finish (cfg : Config) : H unit :=
  let! closed := close_finish in
  match closed with
  | None => hret tt
  | Some sid => let! _ := h_post cfg sid (RemoveSession sid) in hret tt
  end.

(** One session of the [retain] loop with nothing in between. *)
Definition cleanup_session (cfg : Config) (now now_unix : Z) (sid : list Z) : H unit :=
  cleanup_begin now now_unix sid ;! cleanup_finish cfg.

Fixpoint cleanup_sessions (cfg : Config) (now now_unix : Z) (sids : list (list Z)) : H unit :=
  match sids with
  | [] => hret tt
  | sid :: rest => cleanup_session cfg now now_unix sid ;! cleanup_sessions cfg now now_unix rest
  end.

(** [tun.remove_expired(|sid| sessions_cleanup.contains_key(sid))], one entry
    or all of them. *)
Definition expire_tun (sid : list Z) : H unit := hmod (fun v =>
  v <| v_nat ::= option_map (fun t =>
                   expire_entry (fun sid => bool_decide (is_Some (v_sessions v !! sid))) t sid) |>).
Definition cleanup_tun : H unit := hmod (fun v =>
  v <| v_nat ::= option_map (fun t =>
                   remove_expired t (fun sid => bool_decide (is_Some (v_sessions v !! sid)))) |>).

(** A whole pass over the session table, then the TUN addresses, after what
    the cleanup is in the middle of. *)
Definition cleanup_step (cfg : Config) (now now_unix : Z) : H unit :=
  cleanup_finish cfg ;!
  let! sessions := hget v_sessions in
  cleanup_sessions cfg now now_unix (List.map fst (map_to_list sessions)) ;!
  cleanup_tun.
