(* ===== verification/V2Tun.v ===== *)
(** * The other threads of the relay (src/tcp_tun.rs: [tun_writer_loop],
    [tun_reader_loop]; src/main.rs: the relay-tun-resp thread;
    src/datapath_v2.rs: the resolve task and the statistics task;
    src/account_budget.rs: [start_maintenance])

    They share the state of the datapath.  A blocking receive with nothing to
    receive, and a blocking send with no room, leave the state alone: the
    thread waits. *)

From S2P Require Import Prelude Checksum Net Packet TunRewrite TunSession RustStr Tuning DestPolicy Stats Sessions RateLimit AccountBudget Auth Frames Handler V2State V2Rx V2Shard.

(** [bounded::<tcp_tun::TxPacket>(4096)]. *)
Definition TUN_RESPONSE_CAP : nat := Z.to_nat 4096.

(** The TUN address maps; without a TUN the threads do not exist. *)
Definition h_nat : H Tun :=
  let! nat := hget v_nat in
  match nat with
  | Some t => hret t
  | None => hcontinue
  end.

(** One packet of the inbound channel to the device, in two turns: the
    writer takes the packet and assigns the session its address, and it
    commits the reverse mapping and writes the packet. *)
Definition tun_assign_turn : H unit :=
  let! t := h_nat in
  let! writing := hget v_writing in
  match writing with
  | Some _ => hcontinue
  | None =>
      let! queue := hget v_tun in
      match queue with
      | [] => hcontinue
      | pkt :: rest =>
          hmod (fun v => v <| v_tun := rest |>) ;!
          let! (t, assigned) := hlift (writer_assign t pkt) in
          hmod (fun v => v <| v_nat := Some t |>
                           <| v_writing := assigned_writing pkt assigned |>)
      end
  end.

Definition tun_commit_turn : H unit :=
  let! t := h_nat in
  let! writing := hget v_writing in
  match writing with
  | None => hcontinue
  | Some (pkt, ip, src) =>
      let! (t, out) := hlift (writer_commit t pkt ip src) in
      hmod (fun v => v <| v_nat := Some t |> <| v_writing := None |>) ;!
      match out with
      | Some packet => hmod (fun v => v <| v_device ::= fun d => d ++ [packet] |>)
      | None => hcontinue
      end
  end.

(** One packet of the device to the response channel. *)
Definition tun_read_turn (packet : list Z) : H unit :=
  let! t := h_nat in
  let! response := hlift (reader_step t packet) in
  match response with
  | None => hcontinue
  | Some r =>
      let! queue := hget v_tun_resp in
      match try_send TUN_RESPONSE_CAP queue r with
      | None => hcontinue
      | Some q => hmod (fun v => v <| v_tun_resp := q |>)
      end
  end.

(** Counters of the response thread: the session's last activity is not
    touched here. *)
Definition count_tun_out (sid : list Z) (n : nat) : H unit := hmod (fun v =>
  v <| v_stats ::= fun s => s <| packets_out ::= fetch_add 1 |>
                              <| bytes_out ::= fetch_add (Z.of_nat n) |> |>
    <| v_traffic ::= alter (fun t => t <| t_bytes_out ::= fetch_add (Z.of_nat n) |>
                                       <| t_packets_out ::= fetch_add 1 |>) sid |>).

(** One response to a client. *)
Definition tun_resp_turn (auth_required sent_ok : bool) (now_unix mono : Z) : H unit :=
  let! queue := hget v_tun_resp in
  match queue with
  | [] => hcontinue
  | r :: rest =>
      hmod (fun v => v <| v_tun_resp := rest |>) ;!
      let! sessions := hget v_sessions in
      match forwarding_addr sessions (tx_session_id r) auth_required now_unix with
      | None => hcontinue
      | Some client_addr =>
          let! ok := h_budget (tx_session_id r) true (tx_ip_packet r) mono in
          if negb ok then h_drop_out RateLimit ;! hcontinue else
          let frame := tx_session_id r ++ tx_ip_packet r in
          if sent_ok then
            hmod (fun v => v <| v_sent ::= fun l => l ++ [(client_addr, frame)] |>) ;!
            count_tun_out (tx_session_id r) (length frame)
          else hret tt
      end
  end.

(** The reply of the [n]th pending resolve task, once its lookups are done. *)
Definition resolve_turn (n : nat) (lookup_host : str -> option (list IpAddr)) (sent_ok : bool)
  : H unit :=
  let! queue := hget v_resolve in
  match queue !! n with
  | None => hcontinue
  | Some (session_id, request_id, hosts, addr) =>
      hmod (fun v => v <| v_resolve ::= delete n |>) ;!
      let response := resolve_reply lookup_host session_id request_id hosts in
      if sent_ok then hmod (fun v => v <| v_sent ::= fun l => l ++ [(addr, response)] |>)
      else hret tt
  end.

(** The account-budget-prune thread. *)
Definition maintain_turn (mono : Z) : H unit :=
  hmod (fun v => v <| v_budgets ::= fun b => maintain b (mono / 1000) |>).

(** The statistics task: the flow gauge is the sum of the shards' counts. *)
Definition stats_turn : H unit :=
  hmod (fun v =>
    v <| v_stats ::= fun s =>
           s <| active_flows := fold_left (fun n sh => n + flow_count sh) (v_shards v) 0 |> |>).
