(* ===== verification/V2Inv.v ===== *)
(** * Datapath v2: invariants

    The buffer pool hands out indices and the code writes through them with
    [unsafe]; what makes that sound is that every index is in exactly one
    place: the free list, one queue, or the hands of one thread.  [inv held]
    says so, with [held] the indices the running step has in hand, together
    with the invariants of the session table, of the drop counters and of the
    TUN maps.  [mode] says how far the per-source counters are trusted
    (Sessions.v).  The lemmas below prove it for each primitive and then for each thread's
    step. *)

From S2P Require Import Prelude Checksum Net Packet TunRewrite TunSession RustStr DestPolicy Stats Sessions RateLimit AccountBudget Auth Frames Handler V2State V2Rx V2Shard V2Tun.

Lemma max_packet_size : Z.of_nat MAX_PACKET_SIZE = 1600.
Proof. unfold MAX_PACKET_SIZE. lia. Qed.
#[global] Opaque MAX_PACKET_SIZE.

(* ------------------------------------------------------------------ *)
(** ** The invariant *)

Definition msg_owned (m : ShardMsg) : list nat :=
  match m with
  | ClientPacket _ _ _ _ idx _ _ => [idx]
  | _ => []
  end.
Definition shard_owned (sh : Shard) : list nat := concat (List.map msg_owned (inbox sh)).
Definition in_flight (v : V2) : list nat :=
  List.map p_buf_idx (v_tx_control v) ++ List.map p_buf_idx (v_tx_data v)
  ++ concat (List.map shard_owned (v_shards v)).

(** A queued frame fits its buffer and has at least a session id. *)
Definition tx_ok (p : TxPacket) : Prop := (SESSION_ID_LEN <= p_len p <= MAX_PACKET_SIZE)%nat.

Definition msg_ok (m : ShardMsg) : Prop :=
  match m with
  | ClientPacket sid _ _ _ _ plen _ => length sid = SESSION_ID_LEN /\ (plen <= MAX_PACKET_SIZE)%nat
  | _ => True
  end.

Definition shard_ok (sh : Shard) : Prop :=
  Forall msg_ok (inbox sh)
  /\ forall key flow, sh_flows sh !! key = Some flow -> length (k_session_id key) = SESSION_ID_LEN.

(** Packets for the TUN carry a full session id, and a session's TUN address
    leads back to the session. *)
Definition tun_packet_ok (p : InboundTunPacket) : Prop := length (in_session_id p) = SESSION_ID_LEN.
Definition nat_ok (nat : option Tun) (writing : option (InboundTunPacket * Ipv4Addr * Ipv4Addr)) : Prop :=
  match nat with
  | Some t => forward_ok t writing
  | None => True
  end.

(** A session being closed still counts in the gauge. *)
Definition closing_count (v : V2) : Z := match v_closing v with Some _ => 1 | None => 0 end.

Section Invariant.
Context {mode : Counting}.

Record inv (held : list nat) (v : V2) : Prop := {
  i_pool : free (v_pool v) ++ in_flight v ++ held ≡ₚ seq 0 (length (buffers (v_pool v)));
  i_bufs : Forall (fun b => length b = MAX_PACKET_SIZE) (buffers (v_pool v));
  i_tx_control : Forall tx_ok (v_tx_control v);
  i_tx_data : Forall tx_ok (v_tx_data v);
  i_shards : Forall shard_ok (v_shards v);
  i_shards_ne : v_shards v <> [];
  i_pending : v_pending v <> [];
  i_counts : counts_inv mode (v_closing v) (v_sessions v) (v_counts v);
  i_size : Z.of_nat (size (v_sessions v)) <= MAX_SESSIONS_TOTAL;
  i_active : active_sessions (v_stats v) = Z.of_nat (size (v_sessions v)) + closing_count v;
  i_drops : drops_ok (v_stats v);
  i_tun : Forall tun_packet_ok (v_tun v);
  i_nat : nat_ok (v_nat v) (v_writing v);
}.

(** The fields [inv] looks at. *)
Lemma inv_frame held v v' :
  inv held v ->
  v_pool v' = v_pool v -> v_tx_control v' = v_tx_control v -> v_tx_data v' = v_tx_data v ->
  v_shards v' = v_shards v -> v_sessions v' = v_sessions v -> v_counts v' = v_counts v ->
  v_tun v' = v_tun v -> v_nat v' = v_nat v -> v_closing v' = v_closing v -> v_writing v' = v_writing v ->
  v_pending v' <> [] -> active_sessions (v_stats v') = active_sessions (v_stats v) ->
  drops_ok (v_stats v') -> inv held v'.
Proof.
  intros [H1 H2 H3 H4 H5 H6 H7 H8 H9 H10 H11 H12 H13] E1 E2 E3 E4 E5 E6 E7 E8 E9 E10 Hp Ha Hd.
  constructor; unfold closing_count; rewrite ?E1, ?E2, ?E3, ?E4, ?E5, ?E6, ?E7, ?E8, ?E9, ?E10; try assumption.
  - unfold in_flight. rewrite E2, E3, E4. exact H1.
  - rewrite Ha. exact H10.
Qed.

Lemma inv_perm held held' v : held ≡ₚ held' -> inv held v -> inv held' v.
Proof. intros E [H1 ?]. constructor; try assumption. by rewrite <- E. Qed.

(** An index in hand is an index of the pool. *)
Lemma held_in_range held v i : inv held v -> i ∈ held -> (i < length (buffers (v_pool v)))%nat.
Proof.
  intros Hi Hin. assert (i ∈ seq 0 (length (buffers (v_pool v)))) as Hs.
  { rewrite <- (i_pool _ _ Hi). rewrite !elem_of_app. auto. }
  apply elem_of_seq in Hs. lia.
Qed.

(* ------------------------------------------------------------------ *)
(** ** Primitives *)

Section Prims.
Context (held : list nat).

Lemma hoare_stat f Q :
  (forall s, drops_ok s -> drops_ok (f s)) ->
  (forall s, active_sessions (f s) = active_sessions s) ->
  hoare (inv held) (stat f) (fun _ => inv held) Q.
Proof.
  intros Hf Ha. apply hoare_mod. intros v Hv.
  eapply inv_frame; [exact Hv | reflexivity.. | apply (i_pending _ _ Hv) | apply Ha |].
  apply Hf, (i_drops _ _ Hv).
Qed.

Lemma hoare_drop_in r Q : hoare (inv held) (h_drop_in r) (fun _ => inv held) Q.
Proof. apply hoare_stat; [auto with relay | reflexivity]. Qed.
Lemma hoare_drop_out r Q : hoare (inv held) (h_drop_out r) (fun _ => inv held) Q.
Proof. apply hoare_stat; [auto with relay | reflexivity]. Qed.
Lemma hoare_pool_exhausted Q : hoare (inv held) h_pool_exhausted (fun _ => inv held) Q.
Proof. apply hoare_stat; [|reflexivity]. intros s. by apply drops_ok_frame. Qed.

(** Updates of parts the invariant does not mention. *)
Lemma hoare_other f Q :
  (forall v, v_pool (f v) = v_pool v /\ v_tx_control (f v) = v_tx_control v
     /\ v_tx_data (f v) = v_tx_data v /\ v_shards (f v) = v_shards v
     /\ v_sessions (f v) = v_sessions v /\ v_counts (f v) = v_counts v
     /\ v_tun (f v) = v_tun v /\ v_nat (f v) = v_nat v
     /\ v_closing (f v) = v_closing v /\ v_writing (f v) = v_writing v
     /\ v_pending (f v) = v_pending v /\ v_stats (f v) = v_stats v) ->
  hoare (inv held) (hmod f) (fun _ => inv held) Q.
Proof.
  intros Hf. apply hoare_mod. intros v Hv. destruct (Hf v) as (E1 & E2 & E3 & E4 & E5 & E6 & E7 & E8 & E9 & E10 & E11 & E12).
  eapply inv_frame; eauto; rewrite ?E11, ?E12; [apply (i_pending _ _ Hv) | reflexivity | apply (i_drops _ _ Hv)].
Qed.

Lemma hoare_acquire Q :
  hoare (inv held) h_acquire
    (fun r => match r with Some i => inv (i :: held) | None => inv held end) Q.
Proof.
  apply hoare_run. intros v Hv. unfold try_acquire.
  destruct (free (v_pool v)) as [|i rest] eqn:Ef; cbn [returns].
  { eapply inv_frame; [exact Hv | reflexivity.. | apply (i_pending _ _ Hv) | reflexivity
                       | apply (i_drops _ _ Hv)]. }
  destruct Hv as [H1 H2 H3 H4 H5 H6 H7 H8 H9 H10 H11 H12 H13].
  constructor; cbn; try assumption.
  rewrite <- H1, Ef. unfold in_flight. cbn. rewrite <- !app_assoc. by rewrite !Permutation_middle.
Qed.

Lemma hoare_release i Q : hoare (inv (i :: held)) (h_release i) (fun _ => inv held) Q.
Proof.
  apply hoare_mod. intros v [H1 H2 H3 H4 H5 H6 H7 H8 H9 H10 H11 H12 H13].
  constructor; cbn; try assumption.
  rewrite <- H1. unfold in_flight. cbn. rewrite <- !app_assoc. cbn. by rewrite !Permutation_middle.
Qed.

Lemma hoare_fill i bytes Q :
  i ∈ held -> (length bytes <= MAX_PACKET_SIZE)%nat ->
  hoare (inv held) (h_fill i bytes) (fun _ => inv held) Q.
Proof.
  intros Hin Hlen. apply hoare_run. intros v Hv.
  pose proof (held_in_range _ _ _ Hv Hin) as Hi.
  destruct (lookup_lt_is_Some_2 _ _ Hi) as [b Hb].
  unfold buffer. rewrite (rd_lookup _ _ _ Hb). cbn [obind].
  pose proof (Forall_lookup_1 _ _ _ _ (i_bufs _ _ Hv) Hb) as Hlb. cbn in Hlb.
  unfold copy_from_slice. rewrite (proj2 (Nat.leb_le (length bytes) (length b))) by lia.
  rewrite Nat.sub_0_r, Nat.eqb_refl. cbn [Nat.leb andb obind take].
  unfold set_buffer. rewrite wr_lt by assumption. cbn [obind returns].
  destruct Hv as [H1 H2 H3 H4 H5 H6 H7 H8 H9 H10 H11 H12 H13].
  constructor; cbn; try assumption; [by rewrite length_insert|].
  apply Forall_insert; [assumption|]. rewrite take_0, !length_app, length_drop. cbn [length]. lia.
Qed.

End Prims.

(** Queues. *)
Lemma try_send_spec {A} cap (q q' : list A) x : try_send cap q x = Some q' -> q' = q ++ [x].
Proof. unfold try_send. destruct (_ <? _)%nat; congruence. Qed.

Lemma hoare_queue_tx held cfg p Q :
  tx_ok p -> hoare (inv (p_buf_idx p :: held)) (h_queue_tx cfg p) (fun _ => inv held) Q.
Proof.
  intros Hok. apply hoare_run. intros v Hv.
  assert (inv held (v <| v_stats ::= fun s => drop_out s TxQueue |>
                      <| v_pool ::= fun p0 => release p0 (p_buf_idx p) |>)) as Hfull.
  { pose proof (hoare_drop_out (p_buf_idx p :: held) TxQueue Q v Hv) as H1.
    exact (hoare_release held (p_buf_idx p) Q _ H1). }
  destruct Hv as [H1 H2 H3 H4 H5 H6 H7 H8 H9 H10 H11 H12 H13].
  destruct (p_kind p).
  - destruct (try_send _ (v_tx_data v) p) as [q|] eqn:E; [|exact Hfull].
    apply try_send_spec in E as ->. constructor; cbn; try assumption.
    + rewrite <- H1. unfold in_flight. cbn. rewrite map_app, <- !app_assoc. cbn.
      by rewrite !Permutation_middle.
    + apply Forall_app_2; [assumption | by apply Forall_singleton].
  - destruct (try_send _ (v_tx_control v) p) as [q|] eqn:E; [|exact Hfull].
    apply try_send_spec in E as ->. constructor; cbn; try assumption.
    + rewrite <- H1. unfold in_flight. cbn. rewrite map_app, <- !app_assoc. cbn.
      by rewrite !Permutation_middle.
    + apply Forall_app_2; [assumption | by apply Forall_singleton].
Qed.

Lemma hoare_control_frame held cfg addr sid ft st now Q :
  length sid = SESSION_ID_LEN ->
  hoare (inv held) (send_small_control_frame cfg addr sid ft st now) (fun _ => inv held) Q.
Proof.
  intros Hsid. pose proof max_packet_size. unfold SESSION_ID_LEN in *.
  unfold send_small_control_frame. eapply hoare_bind; [apply hoare_acquire|]. intros [i|].
  - eapply hoare_bind.
    + apply hoare_fill; [by left|]. rewrite length_app. cbn. lia.
    + intros ?. apply (hoare_queue_tx held cfg (MkTx _ _ i _ _ _)). unfold tx_ok, SESSION_ID_LEN. cbn. lia.
  - eapply hoare_bind; [apply hoare_drop_out | intros ?; apply hoare_pool_exhausted].
Qed.

(** Messages to a shard: the buffer of a client packet goes with it. *)
Lemma concat_owned_insert (l : list Shard) n sh sh' extra :
  l !! n = Some sh -> shard_owned sh' ≡ₚ shard_owned sh ++ extra ->
  concat (List.map shard_owned (<[n := sh']> l)) ≡ₚ concat (List.map shard_owned l) ++ extra.
Proof.
  revert n. induction l as [|x l IH]; intros n Hn E; [done|]. destruct n as [|n]; cbn in *.
  - injection Hn as ->. rewrite E, <- !app_assoc. apply Permutation_app_head, Permutation_app_comm.
  - by rewrite (IH _ Hn E), app_assoc.
Qed.

Lemma shard_index sid n : n <> 0%nat ->
  exists k, shard_for_session sid n = Ret k /\ (k < n)%nat.
Proof.
  intros Hn. unfold shard_for_session. rewrite (proj2 (Nat.eqb_neq _ _) Hn).
  eexists. split; [reflexivity|].
  match goal with |- (Z.to_nat (?x mod _) < _)%nat =>
    pose proof (Z.mod_pos_bound x (Z.of_nat n) ltac:(lia)) end. lia.
Qed.

Lemma hoare_post held cfg sid msg Q :
  msg_ok msg ->
  hoare (inv (msg_owned msg ++ held)) (h_post cfg sid msg)
    (fun r => match r with
              | Some true => inv held
              | _ => inv (msg_owned msg ++ held)
              end) Q.
Proof.
  intros Hmsg. apply hoare_run. intros v Hv.
  destruct (shard_index sid (length (v_shards v))) as (k & -> & Hk).
  { pose proof (i_shards_ne _ _ Hv). by destruct (v_shards v). }
  cbn [obind]. destruct (lookup_lt_is_Some_2 _ _ Hk) as [sh Hsh]. rewrite Hsh.
  destruct (try_send _ (inbox sh) msg) as [q|] eqn:E; cbn [returns]; [|exact Hv].
  apply try_send_spec in E as ->.
  destruct Hv as [H1 H2 H3 H4 H5 H6 H7 H8 H9 H10 H11 H12 H13].
  constructor; cbn; try assumption.
  - rewrite <- H1. unfold in_flight. cbn.
    rewrite (concat_owned_insert _ _ _ _ (msg_owned msg) Hsh).
    + by rewrite <- !app_assoc.
    + unfold shard_owned. cbn. rewrite map_app, concat_app. cbn. by rewrite app_nil_r.
  - apply Forall_insert; [assumption|].
    destruct (Forall_lookup_1 _ _ _ _ H5 Hsh) as [Hi Hf]. split; cbn; [|exact Hf].
    apply Forall_app_2; [assumption | by apply Forall_singleton].
  - intros E. apply (f_equal length) in E. rewrite length_insert in E. cbn in E. lia.
Qed.

End Invariant.
