(* ===== verification/V2Safe.v ===== *)
(** * Datapath v2: every step is safe

    Each thread's step keeps the invariant of V2Inv.v with nothing left in
    hand, and never panics, whatever the datagrams, clocks and socket results
    are.  [v2_step] is one turn of any thread, so that a run of the relay is
    any interleaving of turns. *)

From S2P Require Import Prelude Checksum Net Packet TunRewrite TunSession RustStr DestPolicy Stats Sessions RateLimit AccountBudget Auth Frames Handler V2State V2Rx V2Shard V2Tun V2Inv.

(** See a [hoare] goal whose three assertions agree as [keeps]. *)
Ltac hkeep := lazymatch goal with |- hoare ?I ?m _ ?I => change (keeps I m) end.

(* ------------------------------------------------------------------ *)
(** ** Parts shared by the threads *)

Lemma keeps_conseq {S A} (I : S -> Prop) (m : handler S A) R Q :
  keeps I m -> (forall s, I s -> Q s) -> (forall a s, I s -> R a s) -> hoare I m R Q.
Proof. intros H HQ HR. eapply hoare_conseq; [exact H | auto..]. Qed.

Lemma hoare_pre {S A} (P P' : S -> Prop) (m : handler S A) R Q :
  hoare P' m R Q -> (forall s, P s -> P' s) -> hoare P m R Q.
Proof. intros H HP s Hs. exact (H s (HP s Hs)). Qed.

Section Safety.
Context {mode : Counting}.

Lemma drop_continue {A} held r (R : A -> V2 -> Prop) :
  hoare (inv held) (h_drop_in r ;! hcontinue) R (inv held).
Proof. eapply hoare_bind; [apply hoare_drop_in | intros ?; apply hoare_continue]. Qed.

Lemma allow_source_event_drops l s a k t :
  drops_ok s ->
  match allow_source_event l s a k t with
  | (_, s', _) => drops_ok s' /\ active_sessions s' = active_sessions s
  end.
Proof.
  intros Hs. unfold allow_source_event. destruct (limiter_allow _ _ _ _) as [l' [|]]; [by split|].
  split; [|reflexivity]. apply drop_in_ok. by eapply drops_ok_frame; [..|exact Hs].
Qed.

(** Counting an event of a source leaves the tables alone. *)
Lemma hoare_source_event held a k t (P : V2 -> Prop) Q :
  (forall v l s, P v -> P (v <| v_limiter := l |> <| v_stats := s |>)) ->
  hoare (fun v => inv held v /\ P v)
    (hrun (fun v => let '(l, s, ok) := allow_source_event (v_limiter v) (v_stats v) a k t in
                    Ret (v <| v_limiter := l |> <| v_stats := s |>, ok)))
    (fun _ v => inv held v /\ P v) Q.
Proof.
  intros HP. apply hoare_run. intros v [Hv Hp].
  pose proof (allow_source_event_drops (v_limiter v) (v_stats v) a k t (i_drops _ _ Hv)) as Hd.
  destruct (allow_source_event _ _ _ _ _) as [[l s] ok]. destruct Hd as [Hd Ha]. cbn [returns].
  split; [|by apply HP].
  eapply inv_frame; [exact Hv | reflexivity.. | apply (i_pending _ _ Hv) | exact Ha | exact Hd].
Qed.

Lemma keeps_event held a k t :
  keeps (inv held)
    (hrun (fun v => let '(l, s, ok) := allow_source_event (v_limiter v) (v_stats v) a k t in
                    Ret (v <| v_limiter := l |> <| v_stats := s |>, ok))).
Proof.
  eapply hoare_conseq; [apply (hoare_source_event held a k t (fun _ => True) (inv held)) | ..];
    try (intros; exact I); cbn; intros; tauto.
Qed.

(** Replacing a session by one at the same source address. *)
Lemma inv_alter_session held v sid f :
  (forall e, client_addr (f e) = client_addr e) ->
  inv held v -> inv held (v <| v_sessions ::= alter f sid |>).
Proof.
  intros Hf [H1 H2 H3 H4 H5 H6 H7 H8 H9 H10 H11 H12 H13].
  destruct (v_sessions v !! sid) as [e|] eqn:E.
  - assert (alter f sid (v_sessions v) = <[sid := f e]> (v_sessions v)) as Ea.
    { apply map_eq. intros k. destruct (decide (k = sid)) as [->|Hk].
      - by rewrite lookup_alter_eq, lookup_insert_eq, E.
      - by rewrite lookup_alter_ne, lookup_insert_ne. }
    assert (size (<[sid := f e]> (v_sessions v)) = size (v_sessions v)) as Es.
    { by eapply map_size_insert_Some. }
    constructor; cbn -[size]; try assumption; rewrite ?Ea, ?Es; try assumption.
    eapply counts_inv_update; eauto. by rewrite Hf.
  - assert (alter f sid (v_sessions v) = v_sessions v) as Ea.
    { apply map_eq. intros k. destruct (decide (k = sid)) as [->|Hk].
      - by rewrite lookup_alter_eq, E.
      - by rewrite lookup_alter_ne. }
    constructor; cbn -[size]; rewrite ?Ea; assumption.
Qed.

(** Moving a session to another address together with its count. *)
Lemma inv_rebind held v sid e e' :
  mode <> Exact -> v_sessions v !! sid = Some e -> inv held v ->
  inv held (v <| v_counts ::= fun c => update_source_session_count_for_rebind c
                                         (sock_ip (client_addr e)) (sock_ip (client_addr e')) |>
              <| v_sessions ::= <[sid := e']> |>).
Proof.
  intros Hm E [H1 H2 H3 H4 H5 H6 H7 H8 H9 H10 H11 H12 H13].
  assert (size (<[sid := e']> (v_sessions v)) = size (v_sessions v)) as Es.
  { by eapply map_size_insert_Some. }
  constructor; cbn -[size]; try assumption; rewrite ?Es; try assumption.
  by apply counts_inv_rebind.
Qed.

Lemma fetch_add_small n x : 0 <= x + n < 2 ^ 64 -> fetch_add n x = x + n.
Proof. intros. unfold fetch_add. by apply wrap_small. Qed.

(** Opening a session while there is room. *)
Lemma inv_open held v sid e :
  mode <> Exact -> v_sessions v !! sid = None -> Z.of_nat (size (v_sessions v)) < MAX_SESSIONS_TOTAL ->
  inv held v ->
  inv held (v <| v_sessions ::= <[sid := e]> |>
              <| v_counts ::= fun c => increment_source_session_count c (sock_ip (client_addr e)) |>
              <| v_stats ::= fun s => s <| active_sessions ::= fetch_add 1 |> |>).
Proof.
  intros Hm E Hroom [H1 H2 H3 H4 H5 H6 H7 H8 H9 H10 H11 H12 H13].
  constructor; cbn -[size fetch_add]; try assumption; rewrite ?map_size_insert_None by assumption.
  - by apply counts_inv_open.
  - lia.
  - rewrite H10, fetch_add_small; change (closing_count _) with (closing_count v); [lia|].
    unfold MAX_SESSIONS_TOTAL, closing_count in *. destruct (v_closing v); lia.
Qed.

Lemma fetch_sub_small n x : 0 <= x - n < 2 ^ 64 -> fetch_sub n x = x - n.
Proof. intros. unfold fetch_sub. by apply wrap_small. Qed.

(** Closing one, in its two halves. *)
Lemma sessions_nonempty (sessions : gmap (list Z) SessionEntry) sid e :
  sessions !! sid = Some e -> (0 < size sessions)%nat.
Proof.
  intros E. destruct (size sessions) eqn:Es; [|lia]. apply map_size_empty_inv in Es.
  rewrite Es, lookup_empty in E. discriminate.
Qed.

Lemma close_begin_safe expired sid : mode <> Still -> keeps (inv []) (close_begin expired sid).
Proof.
  intros Hm. unfold close_begin. eapply hoare_bind; [apply hoare_get|]. intros [x|]; [intros v [Hv _]; exact Hv|].
  eapply hoare_bind; [apply hoare_get|]. intros sessions.
  destruct (sessions !! sid) as [e|] eqn:Es; [|intros v [[Hv _] _]; exact Hv].
  destruct (expired e); [|intros v [[Hv _] _]; exact Hv].
  apply hoare_mod. intros v [[[H1 H2 H3 H4 H5 H6 H7 H8 H9 H10 H11 H12 H13] Ec] ->].
  pose proof (sessions_nonempty _ _ _ Es).
  destruct (decrement_begin (v_counts v) (sock_ip (client_addr e))) as [c removal] eqn:Ed.
  constructor; cbn -[size]; try assumption; rewrite ?map_size_delete, ?Es; cbn -[size].
  - by eapply counts_inv_close_begin.
  - lia.
  - rewrite H10. unfold closing_count. rewrite <- Ec. cbn -[size]. lia.
Qed.

Lemma close_finish_safe : keeps (inv []) close_finish.
Proof.
  unfold close_finish. eapply hoare_bind; [apply hoare_get|]. intros [[sid removal]|]; [|intros v [Hv _]; exact Hv].
  apply hoare_bind with (fun _ => inv []); [|intros ? v Hv; exact Hv]. apply hoare_mod.
  intros v [[H1 H2 H3 H4 H5 H6 H7 H8 H9 H10 H11 H12 H13] Ec].
  constructor; cbn -[size fetch_sub]; try assumption.
  - by eapply counts_inv_close_finish.
  - unfold closing_count in *. rewrite <- Ec in H10. cbn -[size fetch_sub].
    rewrite H10, fetch_sub_small; [lia|]. unfold MAX_SESSIONS_TOTAL in H9. lia.
Qed.

(* ------------------------------------------------------------------ *)
(** ** The RX thread *)

Section RxSafe.
Context `{TicketCrypto} (hash_one : IpAddr -> Z) (cfg : Config) (i : RxInput).
Hypothesis Hmode : mode <> Exact.
Hypothesis Hbuf : length (buf i) = MAX_PACKET_SIZE.
Hypothesis Hlen : (len i <= MAX_PACKET_SIZE)%nat.

Abbreviation ok := (inv []).

Lemma keeps_drop_in r : keeps ok (h_drop_in r).
Proof. apply hoare_drop_in. Qed.
Lemma keeps_drop_out r : keeps ok (h_drop_out r).
Proof. apply hoare_drop_out. Qed.
Lemma keeps_pool_exhausted : keeps ok h_pool_exhausted.
Proof. apply hoare_pool_exhausted. Qed.

Lemma keeps_ack sid status : length sid = SESSION_ID_LEN -> keeps ok (h_ack cfg i sid status).
Proof. intros Hs. by apply hoare_control_frame. Qed.

Lemma keeps_pending : keeps ok (h_pending hash_one i).
Proof.
  clear Hbuf Hlen.
  apply keeps_run. intros v Hv. pose proof (i_pending _ _ Hv) as Hne. unfold pending_allow.
  set (n := length (v_pending v)).
  assert (0 < n)%nat as Hn by (unfold n; destruct (v_pending v); [done | cbn; lia]).
  pose proof (Z.mod_pos_bound (hash_one (sock_ip (from i))) (Z.of_nat n) ltac:(lia)) as Hm.
  apply returns_bind, returns_bind, returns_rd; [fold n; lia|]. intros b _.
  destruct (rate_allow _ _ _) as [st r]. rewrite wr_lt by (fold n; lia). cbn.
  eapply inv_frame; [exact Hv | reflexivity.. | | reflexivity | apply (i_drops _ _ Hv)].
  cbn. intros E. apply (f_equal length) in E. rewrite length_insert in E. cbn in E. fold n in E. lia.
Qed.

Lemma keeps_source_event k : keeps ok (h_source_event i k).
Proof. apply keeps_event. Qed.

Lemma keeps_verify_once sid token : keeps ok (h_verify_once cfg i sid token).
Proof.
  apply keeps_run. intros v Hv.
  destruct (verify_relay_ticket_once _ _ _ _ _) as [c r]. cbn [returns fst].
  eapply inv_frame; [exact Hv | reflexivity.. | apply (i_pending _ _ Hv) | reflexivity
                     | apply (i_drops _ _ Hv)].
Qed.

Hint Resolve keeps_drop_in keeps_drop_out keeps_pool_exhausted keeps_ack keeps_pending
  keeps_source_event keeps_verify_once : handler.

Lemma parse_hello_returns : returns (parse_auth_hello_token (buf i) (len i)) (fun _ => True).
Proof.
  unfold parse_auth_hello_token. ostep; [exact I|]. bool_hyps. unfold SESSION_ID_LEN in *.
  ostep. ostep. ostep; [exact I|]. bool_hyps. ostep. ostep. exact I.
Qed.

Lemma keeps_ticket sid b : length sid = SESSION_ID_LEN -> keeps ok (rx_ticket hash_one cfg i sid b).
Proof. intros Hs. unfold rx_ticket. ksteps. apply keeps_lift, parse_hello_returns. Qed.

Lemma keeps_reauth_hint sid t :
  length sid = SESSION_ID_LEN -> keeps ok (rx_reauth_hint hash_one cfg i sid t).
Proof. intros Hs. unfold rx_reauth_hint. ksteps. Qed.

Lemma keeps_auth_gate sid t : keeps ok (rx_auth_gate cfg i sid t).
Proof. unfold rx_auth_gate. ksteps. Qed.

(** A session that is about to be opened has room. *)
Definition room (sid : list Z) (v : V2) : Prop :=
  v_sessions v !! sid = None -> Z.of_nat (size (v_sessions v)) < MAX_SESSIONS_TOTAL.

Lemma admit_room sid : hoare ok (rx_admit i sid) (fun _ v => ok v /\ room sid v) ok.
Proof.
  unfold rx_admit. eapply hoare_bind; [apply keeps_source_event|]. intros b.
  destruct b; cbn [negb]; [|apply hoare_continue].
  eapply hoare_bind; [apply hoare_get|]. intros v0. cbn [id].
  case_bool_decide as Hs; cbn [negb].
  { intros v [Hv ->]. split; [exact Hv|]. intros E. cbn in Hs. rewrite E in Hs. by destruct Hs. }
  destruct (Z.leb_spec MAX_SESSIONS_TOTAL (Z.of_nat (size (v_sessions v0)))).
  { apply (hoare_pre _ ok); [apply drop_continue | tauto]. }
  destruct (_ <=? _).
  { apply (hoare_pre _ ok); [apply drop_continue | tauto]. }
  apply (hoare_bind _ _ _ (fun _ v => ok v /\ room sid v)).
  - eapply hoare_conseq with (Q' := ok);
      [apply (hoare_source_event [] (from i) NewSession (now i) (room sid) ok) | | |]; cbn.
    + intros v l s Hr. exact Hr.
    + intros v [Hv ->]. split; [exact Hv|]. by intros _.
    + intros a s Hs'. exact Hs'.
    + tauto.
  - intros [|]; cbn [negb]; [intros v Hv; exact Hv|].
    apply (hoare_pre _ ok); [apply hoare_continue | cbn; tauto].
Qed.

Lemma session_keeps sid b :
  hoare (fun v => ok v /\ room sid v) (rx_session cfg i sid b) (fun _ => ok) ok.
Proof.
  apply hoare_run. intros v [Hv Hr]. unfold rx_session.
  destruct (v_sessions v !! sid) as [e|] eqn:E.
  - destruct (_ || _); cbn [returns]; [|exact Hv].
    exact (inv_rebind [] v sid e
      (e <| client_addr := from i |> <| last_activity := now i |> <| last_activity_unix := now_unix i |>)
      Hmode E Hv).
  - exact (inv_open [] v sid (MkSession _ _ _ _ _ _ _) Hmode E (Hr E) Hv).
Qed.

Lemma keeps_ingress sid : keeps ok (rx_ingress i sid).
Proof. apply hoare_other. intros v. by repeat split. Qed.

Lemma keeps_hello sid t : length sid = SESSION_ID_LEN -> keeps ok (rx_hello cfg i sid t).
Proof.
  intros Hs. unfold rx_hello. ksteps. apply keeps_mod. intros w Hw.
  destruct (v_sessions w !! sid) as [e|] eqn:E; [|exact Hw].
  exact (inv_rebind [] w sid e (MkSession _ _ _ (from i) _ _ _) Hmode E Hw).
Qed.

Lemma keeps_require_auth a : keeps ok (rx_require_auth cfg a).
Proof. unfold rx_require_auth. ksteps. Qed.
Hint Resolve keeps_require_auth : handler.

Lemma keeps_rd_be k n : (k + n <= MAX_PACKET_SIZE)%nat -> keeps ok (hlift (rd_be (buf i) k n)).
Proof. intros Hk. apply keeps_lift, rd_be_returns; [lia | exact I]. Qed.

(** A frame in a fresh buffer, or the pool-exhausted path. *)
Lemma keeps_frame_out (addr : SocketAddr) sid bytes n t (miss : H unit) :
  (length bytes <= MAX_PACKET_SIZE)%nat -> (SESSION_ID_LEN <= n <= MAX_PACKET_SIZE)%nat ->
  keeps ok miss ->
  keeps ok (let! slot := h_acquire in
            match slot with
            | None => miss
            | Some idx => h_fill idx bytes ;! h_queue_tx cfg (MkTx addr sid idx n t Control) ;! hcontinue
            end).
Proof.
  intros Hb Hn Hm. eapply hoare_bind; [apply hoare_acquire|]. intros [idx|]; [|exact Hm].
  eapply hoare_bind; [apply hoare_fill; [by left | exact Hb]|]. intros ?.
  eapply hoare_bind; [exact (hoare_queue_tx [] cfg (MkTx addr sid idx n t Control) ok Hn)|].
  intros ?. apply hoare_continue.
Qed.

Lemma keeps_ping sid a : length sid = SESSION_ID_LEN -> keeps ok (rx_ping cfg i sid a).
Proof.
  intros Hs. pose proof max_packet_size. unfold SESSION_ID_LEN in *. unfold rx_ping.
  apply keeps_bind; [apply keeps_require_auth | intros ?].
  apply keeps_bind; [apply keeps_rd_be; unfold SESSION_ID_LEN; lia | intros ?].
  apply keeps_bind; [apply keeps_rd_be; unfold SESSION_ID_LEN; lia | intros ?].
  apply keeps_frame_out; [| unfold PONG_FRAME_LEN, SESSION_ID_LEN; lia | ksteps].
  unfold pong_bytes. rewrite !length_app. cbn. lia.
Qed.

Lemma keeps_rtt sid a : keeps ok (rx_rtt cfg i sid a).
Proof.
  pose proof max_packet_size. unfold rx_rtt. ksteps.
  - apply keeps_rd_be. unfold SESSION_ID_LEN. lia.
  - apply hoare_other. intros v. by repeat split.
Qed.

Lemma keeps_resolve sid a : bytes_ok (buf i) -> keeps ok (rx_resolve cfg i sid a).
Proof.
  intros Hb. unfold rx_resolve. ksteps.
  - apply keeps_lift. destruct (parse_resolve_returns (buf i) (len i)) as (r & -> & _);
      [assumption | lia | exact I].
  - apply hoare_other. intros v. by repeat split.
Qed.

Lemma keeps_post sid msg : msg_owned msg = [] -> msg_ok msg -> keeps ok (h_post cfg sid msg).
Proof.
  intros E Hm. eapply hoare_conseq; [exact (hoare_post [] cfg sid msg ok Hm) | ..]; rewrite ?E; cbn; auto.
  intros [[|]|] s; auto.
Qed.

Lemma keeps_keepalive sid a : keeps ok (rx_keepalive cfg i sid a).
Proof. unfold rx_keepalive. ksteps. by apply keeps_post. Qed.

Lemma keeps_name_legacy sid ip : keeps ok (h_name_legacy sid ip).
Proof.
  apply keeps_mod. intros v Hv. apply inv_alter_session; [|exact Hv].
  intros e. by case_bool_decide.
Qed.
Hint Resolve keeps_name_legacy : handler.

Lemma keeps_tun sid raw count :
  length sid = SESSION_ID_LEN ->
  (forall s, drops_ok s -> drops_ok (count s)) ->
  (forall s, active_sessions (count s) = active_sessions s) ->
  keeps ok (h_tun cfg i sid raw count).
Proof.
  intros Hs Hc Ha. unfold h_tun. destruct (c_tun_cap cfg) as [cap|]; [|kstep].
  eapply hoare_bind; [apply hoare_get|]. intros queue.
  destruct (try_send cap queue _) as [q|] eqn:E.
  - eapply hoare_bind; [|intros ?; by apply hoare_stat]. apply hoare_mod.
    intros v [[H1 H2 H3 H4 H5 H6 H7 H8 H9 H10 H11 H12 H13] ->].
    apply try_send_spec in E as ->. constructor; cbn; try assumption.
    apply Forall_app_2; [assumption | by apply Forall_singleton].
  - apply (hoare_pre _ ok); [apply hoare_drop_in | tauto].
Qed.

Lemma count_tcp_ok s : drops_ok s -> drops_ok (count_tcp s).
Proof. by apply drops_ok_frame. Qed.
Lemma count_tun_udp_ok s : drops_ok s -> drops_ok (count_tun_udp s).
Proof. by apply drops_ok_frame. Qed.

Lemma keeps_udp sid game payload info :
  length sid = SESSION_ID_LEN -> (length payload <= MAX_PACKET_SIZE)%nat ->
  keeps ok (rx_udp cfg i sid game payload info).
Proof.
  intros Hs Hp. unfold rx_udp. kstep; [eauto with handler|].
  eapply hoare_bind; [apply hoare_acquire|]. intros [idx|]; [|hkeep; ksteps].
  eapply hoare_bind; [apply hoare_fill; [by left | exact Hp]|]. intros ?.
  eapply hoare_bind.
  - apply (hoare_post [] cfg sid (ClientPacket sid (from i) game info idx (length payload) (now i)) ok).
    by split.
  - intros [[|]|]; cbn [msg_owned app]; [intros v Hv; exact Hv| |];
      (eapply hoare_bind; [apply hoare_drop_in | intros ?; apply hoare_release]).
Qed.

Lemma keeps_forward sid p :
  length sid = SESSION_ID_LEN ->
  match p with Udp _ pl _ _ => (length pl <= MAX_PACKET_SIZE)%nat | _ => True end ->
  keeps ok (rx_forward cfg i sid p).
Proof.
  intros Hs Hp. unfold rx_forward. ksteps; try apply keeps_tun; auto using count_tcp_ok, count_tun_udp_ok;
    try (intros; case_match; auto using count_tcp_ok, count_tun_udp_ok).
  by apply keeps_udp.
Qed.

Lemma hoare_budget held sid out packet mono Q :
  hoare (inv held) (h_budget sid out packet mono) (fun _ => inv held) Q.
Proof.
  apply hoare_run. intros v Hv.
  destruct (allow_returns (v_budgets v) (v_sessions v) sid out packet mono) as ([b r] & ->).
  cbn [obind returns fst].
  eapply inv_frame; [exact Hv | reflexivity.. | apply (i_pending _ _ Hv) | reflexivity
                     | apply (i_drops _ _ Hv)].
Qed.

Definition payload_bounded (r : option ParsedPacket) : Prop :=
  match r with
  | Some (Udp _ payload _ _) => (length payload <= MAX_PACKET_SIZE)%nat
  | _ => True
  end.

Lemma parse_keeps packet :
  (length packet <= MAX_PACKET_SIZE)%nat ->
  hoare ok (h_parse packet) (fun r v => ok v /\ payload_bounded r) ok.
Proof.
  clear Hbuf Hlen. intros Hl. apply hoare_run. intros v Hv.
  pose proof (parse_ip_packet_full_returns (v_policy v) packet) as Hr.
  destruct (parse_ip_packet_full _ _) as [[p r]|]; [|contradiction]. cbn [obind returns].
  split.
  - eapply inv_frame; [exact Hv | reflexivity.. | apply (i_pending _ _ Hv) | reflexivity
                       | apply (i_drops _ _ Hv)].
  - destruct Hr as [n Hr]. destruct r as [[a pl o raw| | |]|]; try exact I.
    destruct Hr as (E & Hf & _). cbn in *. subst raw. rewrite length_take in Hf. lia.
Qed.

Lemma keeps_packet sid a : length sid = SESSION_ID_LEN -> keeps ok (rx_packet cfg i sid a).
Proof.
  intros Hs. unfold rx_packet. kstep; [eauto with handler|]. kstep; [ksteps|]. bool_hyps.
  assert (length (take (len i - SESSION_ID_LEN) (drop SESSION_ID_LEN (buf i))) <= MAX_PACKET_SIZE)%nat
    as Hl by (rewrite length_take; lia).
  unfold slice. rewrite (proj2 (Nat.leb_le SESSION_ID_LEN (len i))) by lia.
  rewrite (proj2 (Nat.leb_le (len i) _)) by lia. cbn [andb].
  set (pkt := take _ _) in *.
  apply keeps_lift_Ret.
  eapply hoare_bind; [by apply parse_keeps|]. intros r v [Hv Hr]. revert v Hv.
  destruct r as [p|]; [|exact (drop_continue [] Parse (fun _ => ok))].
  assert (keeps ok (rx_forward cfg i sid p)) as Hf by (apply keeps_forward; [done | by destruct p]).
  destruct p; try exact Hf;
    (refine (keeps_bind ok _ _ (hoare_budget [] _ _ _ _ _) _); intros [|]; cbn [negb];
      [exact Hf | exact (drop_continue [] RateLimit (fun _ => ok))]).
Qed.

Lemma keeps_frame sid a :
  bytes_ok (buf i) -> length sid = SESSION_ID_LEN -> keeps ok (rx_frame cfg i sid a).
Proof.
  intros Hb Hs. pose proof max_packet_size. unfold rx_frame.
  kstep; [apply keeps_lift, returns_rd; [unfold SESSION_ID_LEN; lia | done]|].
  ksteps; auto using keeps_ping, keeps_rtt, keeps_resolve, keeps_keepalive, keeps_packet with handler.
Qed.

Lemma keeps_rx_step : bytes_ok (buf i) -> keeps ok (rx_step hash_one cfg i).
Proof.
  intros Hb. pose proof max_packet_size. unfold rx_step.
  kstep; [apply hoare_stat; [intros s; by apply drops_ok_frame | reflexivity]|].
  kstep; [ksteps|].
  assert (slice (buf i) 0 SESSION_ID_LEN = Ret (take SESSION_ID_LEN (buf i))) as ->.
  { unfold slice, SESSION_ID_LEN. rewrite (proj2 (Nat.leb_le 8 _)) by lia. reflexivity. }
  set (sid := take SESSION_ID_LEN (buf i)).
  assert (length sid = SESSION_ID_LEN) as Hs
    by (subst sid; rewrite length_take; unfold SESSION_ID_LEN; lia).
  apply keeps_lift_Ret.
  kstep; [apply keeps_lift, returns_rd; [unfold SESSION_ID_LEN; lia | done]|].
  kstep; [by apply keeps_ticket|]. kstep; [by apply keeps_reauth_hint|].
  kstep; [apply keeps_auth_gate|].
  eapply hoare_bind; [apply admit_room|]. intros ?.
  eapply hoare_bind; [apply session_keeps|]. intros [authenticated allowed]. hkeep.
  kstep; [apply keeps_ingress|].
  ksteps; [by apply keeps_hello | by apply keeps_frame].
Qed.

End RxSafe.

(* ------------------------------------------------------------------ *)
(** ** The shard threads *)

Lemma map_alter_same {A B} (g : A -> B) (f : A -> A) (l : list A) k :
  (forall x, g (f x) = g x) -> List.map g (alter f k l) = List.map g l.
Proof.
  intros Hf. revert k. induction l as [|x l IH]; intros [|k]; cbn; try done.
  - by rewrite Hf.
  - f_equal. apply IH.
Qed.

(** Updates of a shard that leave its inbox alone. *)
Lemma hoare_set_shard held k f Q :
  (forall sh, shard_ok sh -> shard_ok (f sh)) -> (forall sh, inbox (f sh) = inbox sh) ->
  hoare (inv held) (h_set_shard k f) (fun _ => inv held) Q.
Proof.
  intros Hok Hin. apply hoare_mod. intros v [H1 H2 H3 H4 H5 H6 H7 H8 H9 H10 H11 H12 H13].
  constructor; cbn; try assumption.
  - unfold in_flight. cbn. rewrite map_alter_same; [exact H1|].
    intros sh. unfold shard_owned. by rewrite Hin.
  - by apply Forall_alter; [|intros; apply Hok].
  - intros E. apply (f_equal length) in E. rewrite length_alter in E. by destruct (v_shards v).
Qed.

(** Any read of the shard. *)
Lemma hoare_shard held k Q :
  hoare (inv held) (h_shard k) (fun sh v => inv held v /\ sh = default shard_new (v_shards v !! k)) Q.
Proof. apply hoare_get. Qed.

(** The key of a flow names a full session id. *)
Definition key_ok (key : FlowKey) : Prop := length (k_session_id key) = SESSION_ID_LEN.

Lemma shard_ok_flows sh (g : gmap FlowKey FlowState -> gmap FlowKey FlowState) :
  (forall key f, g (sh_flows sh) !! key = Some f -> key_ok key \/ is_Some (sh_flows sh !! key)) ->
  shard_ok sh -> shard_ok (sh <| sh_flows ::= g |>).
Proof.
  intros Hg [H1 H2]. split; cbn; [exact H1|]. intros key f E.
  destruct (Hg _ _ E) as [Hk|[f' E']]; [exact Hk | eauto].
Qed.

Lemma alter_is_Some (m : gmap FlowKey FlowState) f k key x :
  alter f k m !! key = Some x -> is_Some (m !! key).
Proof.
  destruct (decide (k = key)) as [->|Hk].
  - rewrite lookup_alter_eq. destruct (m !! key); [eauto | discriminate].
  - rewrite lookup_alter_ne by assumption. eauto.
Qed.

Section ShardSafe.
Context (cfg : Config) (k : nat).

Lemma refuse_safe {A} r idx (R : A -> V2 -> Prop) :
  hoare (inv [idx]) (h_drop_in r ;! h_release idx ;! hcontinue) R (inv []).
Proof.
  eapply hoare_bind; [apply hoare_drop_in|]. intros ?.
  eapply hoare_bind; [apply hoare_release|]. intros ?. apply hoare_continue.
Qed.

Lemma open_flow_safe key addr info idx so ro t :
  key_ok key ->
  hoare (inv [idx]) (shard_open_flow k key addr info idx so ro t) (fun _ => inv [idx]) (inv []).
Proof.
  intros Hkey. unfold shard_open_flow.
  eapply hoare_bind; [apply hoare_get|]. intros v0.
  apply (hoare_pre _ (inv [idx])); [|tauto].
  eapply hoare_bind; [apply hoare_shard|]. intros sh.
  apply (hoare_pre _ (inv [idx])); [|tauto].
  case_bool_decide; [intros v Hv; exact Hv|].
  destruct (_ <=? _); [apply refuse_safe|]. destruct (_ <=? _); [apply refuse_safe|].
  eapply hoare_bind.
  { eapply hoare_conseq with (Q' := inv []);
      [apply (hoare_source_event [idx] addr NewFlow t (fun _ => True) (inv [])); auto | ..]; cbn; auto.
    intros a s Hs. exact (proj1 Hs). }
  intros [|]; cbn [negb].
  2: { eapply hoare_bind; [apply hoare_release | intros ?; apply hoare_continue]. }
  destruct so; cbn [negb]; [|apply refuse_safe].
  destruct (allocate_flow_token _ _) as [next token].
  eapply hoare_bind; [by apply hoare_set_shard|]. intros ?.
  destruct token as [token|]; [|apply refuse_safe].
  destruct ro; cbn [negb]; [|apply refuse_safe].
  apply hoare_set_shard; [|done]. intros s [Hi Hf]. split; cbn; [exact Hi|].
  intros key' f [[<- _]|[_ E]]%lookup_insert_Some; [exact Hkey | eauto].
Qed.

Lemma flow_send_safe held key bytes sr Q :
  hoare (inv held) (h_flow_send key bytes sr) (fun _ => inv held) Q.
Proof. destruct sr; [by apply hoare_other | by intros v Hv..]. Qed.

Lemma client_packet_safe sid addr game info idx plen t0 so ro sr t :
  length sid = SESSION_ID_LEN -> (plen <= MAX_PACKET_SIZE)%nat ->
  hoare (inv [idx]) (shard_client_packet k sid addr game info idx plen t0 so ro sr t)
    (fun _ => inv []) (inv []).
Proof.
  intros Hs Hp. unfold shard_client_packet. destruct (should_drop_stale_queued_packet _ _ _).
  { apply refuse_safe. }
  eapply hoare_bind; [by apply open_flow_safe|]. intros ?.
  eapply hoare_bind.
  { apply hoare_set_shard; [|done]. intros sh. apply shard_ok_flows.
    intros key f E. right. by eapply alter_is_Some. }
  intros ?. eapply hoare_bind with (M := fun _ => inv [idx]).
  { apply hoare_run. intros v Hv.
    destruct (lookup_lt_is_Some_2 _ _ (held_in_range _ _ idx Hv ltac:(by left))) as [b Hb].
    unfold buffer. rewrite (rd_lookup _ _ _ Hb). cbn [obind].
    pose proof (Forall_lookup_1 _ _ _ _ (i_bufs _ _ Hv) Hb) as Hlb. cbn in Hlb.
    unfold slice. rewrite (proj2 (Nat.leb_le plen (length b))) by lia. exact Hv. }
  intros bytes. eapply hoare_bind; [apply flow_send_safe|]. intros ?.
  eapply hoare_bind; [apply hoare_release|]. intros ?.
  destruct sr; try (apply hoare_drop_in); intros v Hv; exact Hv.
Qed.

Lemma fold_alter_is_Some (f : FlowState -> FlowState) sid (l : list SocketAddr) key :
  forall (m : gmap FlowKey FlowState) x,
  fold_left (fun m a => alter f (MkKey sid a) m) l m !! key = Some x -> is_Some (m !! key).
Proof.
  induction l as [|a l IH]; intros m x E; cbn in E; [eauto|].
  apply IH in E as [y E]. by eapply alter_is_Some.
Qed.

Lemma keepalive_safe sid addr t : keeps (inv []) (shard_keepalive k sid addr t).
Proof.
  apply hoare_set_shard; [|done]. intros sh. apply (shard_ok_flows sh (fun m => fold_left _ _ m)).
  intros key f E. right. by eapply fold_alter_is_Some.
Qed.

(** Folds that only remove flows. *)
Lemma fold_shard_ok {A} (step : Shard -> A -> Shard) l :
  (forall sh a, inbox (step sh a) = inbox sh) ->
  (forall sh a, sh_flows (step sh a) ⊆ sh_flows sh) ->
  forall sh, inbox (fold_left step l sh) = inbox sh /\ sh_flows (fold_left step l sh) ⊆ sh_flows sh.
Proof.
  intros H1 H2. induction l as [|a l IH]; intros sh; cbn; [done|].
  destruct (IH (step sh a)) as [E1 E2]. split; [by rewrite E1 | by etransitivity].
Qed.

Lemma shard_ok_shrink sh sh' :
  inbox sh' = inbox sh -> sh_flows sh' ⊆ sh_flows sh -> shard_ok sh -> shard_ok sh'.
Proof.
  intros E1 E2 [H1 H2]. split; [by rewrite E1|]. intros key f Hf.
  exact (H2 key f (lookup_weaken _ _ _ _ Hf E2)).
Qed.

Definition remove_one (sid : list Z) (sh : Shard) (game_addr : SocketAddr) : Shard :=
  let key := MkKey sid game_addr in
  match sh_flows sh !! key with
  | Some flow => sh <| sh_flows ::= delete key |> <| token_to_flow ::= delete (f_token flow) |>
  | None => sh
  end.

Lemma remove_one_shrinks sid sh a :
  inbox (remove_one sid sh a) = inbox sh /\ sh_flows (remove_one sid sh a) ⊆ sh_flows sh.
Proof.
  unfold remove_one. case_match; cbn; [|done]. split; [done | apply delete_subseteq].
Qed.

Lemma remove_session_safe sid : keeps (inv []) (shard_remove_session k sid).
Proof.
  apply hoare_set_shard.
  - intros sh Hsh. destruct (session_flows sh !! sid) as [l|]; [|exact Hsh].
    destruct (fold_shard_ok (remove_one sid) l) with (sh := sh <| session_flows ::= delete sid |>)
      as [E1 E2]; try (intros; apply remove_one_shrinks).
    exact (shard_ok_shrink sh _ E1 E2 Hsh).
  - intros sh. destruct (session_flows sh !! sid) as [l|]; [|done].
    destruct (fold_shard_ok (remove_one sid) l) with (sh := sh <| session_flows ::= delete sid |>)
      as [E1 E2]; try (intros; apply remove_one_shrinks). exact E1.
Qed.

Lemma concat_owned_alter (l : list Shard) n sh f extra :
  l !! n = Some sh -> shard_owned sh ≡ₚ shard_owned (f sh) ++ extra ->
  concat (List.map shard_owned l) ≡ₚ concat (List.map shard_owned (alter f n l)) ++ extra.
Proof.
  revert n. induction l as [|x l IH]; intros n Hn E; [done|]. destruct n as [|n]; cbn in *.
  - injection Hn as ->. rewrite E, <- !app_assoc. apply Permutation_app_head, Permutation_app_comm.
  - by rewrite (IH _ Hn E), app_assoc.
Qed.

(** Taking a message off the inbox puts its buffer in the thread's hands. *)
Lemma take_message msg rest Q :
  hoare (fun v => inv [] v /\ exists sh, v_shards v !! k = Some sh /\ inbox sh = msg :: rest)
    (h_set_shard k (fun sh => sh <| inbox := rest |>))
    (fun _ v => inv (msg_owned msg) v /\ msg_ok msg) Q.
Proof.
  apply hoare_mod. intros v [[H1 H2 H3 H4 H5 H6 H7 H8 H9 H10 H11 H12 H13] (sh & Hsh & Hin)].
  destruct (Forall_lookup_1 _ _ _ _ H5 Hsh) as [Hm Hf]. rewrite Hin in Hm.
  apply Forall_cons_1 in Hm as [Hmsg Hrest]. split; [|exact Hmsg].
  constructor; cbn; try assumption.
  - rewrite <- H1, app_nil_r. unfold in_flight. cbn.
    rewrite (concat_owned_alter _ k sh (fun sh => sh <| inbox := rest |>) (msg_owned msg) Hsh).
    + by rewrite <- !app_assoc.
    + unfold shard_owned. rewrite Hin. cbn. apply Permutation_app_comm.
  - apply Forall_alter; [assumption|]. intros sh' Hsh' _.
    assert (sh' = sh) as -> by congruence. by split.
  - intros E. apply (f_equal length) in E. rewrite length_alter in E. by destruct (v_shards v).
Qed.

Lemma inbox_safe so ro sr t : keeps (inv []) (shard_inbox k so ro sr t).
Proof.
  unfold shard_inbox. eapply hoare_bind; [apply hoare_shard|]. intros sh.
  destruct (inbox sh) as [|msg rest] eqn:Ei.
  { apply (hoare_pre _ (inv [])); [apply hoare_continue | tauto]. }
  eapply hoare_bind.
  - apply (hoare_pre _ (fun v => inv [] v /\ exists sh, v_shards v !! k = Some sh /\ inbox sh = msg :: rest)).
    + apply take_message.
    + intros v [Hv ->]. split; [exact Hv|]. destruct (v_shards v !! k) as [sh|]; [eauto | discriminate].
  - intros ? v [Hv Hm]. revert v Hv. destruct msg; cbn in *.
    + destruct Hm. by apply client_packet_safe.
    + apply keepalive_safe.
    + apply remove_session_safe.
Qed.

Lemma shard_cleanup_safe t : keeps (inv []) (shard_cleanup k t).
Proof.
  assert (forall (l : list (FlowKey * FlowState)) sh,
    let step sh kv := sh <| token_to_flow ::= delete (f_token kv.2) |>
                         <| session_flows ::= fun m => remove_flow_from_session_index m kv.1 |> in
    inbox (fold_left step l sh) = inbox sh /\ sh_flows (fold_left step l sh) ⊆ sh_flows sh) as Hfold.
  { intros l sh step. by apply fold_shard_ok. }
  apply hoare_set_shard.
  - intros sh Hsh. set (sh1 := sh <| sh_flows ::= omap (cleanup_flow t) |>).
    assert (shard_ok sh1) as H1.
    { apply shard_ok_flows; [|exact Hsh]. intros key f E. right.
      rewrite lookup_omap in E. destruct (sh_flows sh !! key); [eauto | discriminate]. }
    destruct (Hfold (map_to_list (filter (fun kv => cleanup_flow t kv.2 = None) (sh_flows sh))) sh1)
      as [E1 E2].
    exact (shard_ok_shrink sh1 _ E1 E2 H1).
  - intros sh.
    exact (proj1 (Hfold (map_to_list (filter (fun kv => cleanup_flow t kv.2 = None) (sh_flows sh)))
             (sh <| sh_flows ::= omap (cleanup_flow t) |>))).
Qed.

(** The response is written inside the buffer, which keeps its size. *)
Lemma write_response_safe key payload info tos idx Q :
  key_ok key ->
  hoare (inv [idx])
    (hrun (fun v =>
       let* out := buffer (v_pool v) idx in
       let* out := copy_from_slice out 0 SESSION_ID_LEN (k_session_id key) in
       let* head := slice out 0 SESSION_ID_LEN in
       let* tail := slice out SESSION_ID_LEN (length out) in
       let* (tail, ip_len) := write_response_ip_packet_into_with_tos tail payload info tos in
       let* p := set_buffer (v_pool v) idx (head ++ tail) in
       Ret (v <| v_pool := p |>, ip_len)))
    (fun r v => inv [idx] v
                /\ forall n, r = Some n -> (SESSION_ID_LEN <= SESSION_ID_LEN + n <= MAX_PACKET_SIZE)%nat) Q.
Proof.
  intros Hk. pose proof max_packet_size as Hmax. apply hoare_run. intros v Hv.
  pose proof (held_in_range _ _ idx Hv ltac:(by left)) as Hi.
  destruct (lookup_lt_is_Some_2 _ _ Hi) as [b Hb].
  pose proof (Forall_lookup_1 _ _ _ _ (i_bufs _ _ Hv) Hb) as Hlb. cbn in Hlb.
  unfold key_ok, SESSION_ID_LEN in *.
  unfold buffer. rewrite (rd_lookup _ _ _ Hb). cbn [obind].
  unfold copy_from_slice. rewrite Hk, (proj2 (Nat.leb_le 8 (length b))) by lia. cbn [Nat.leb andb Nat.eqb Nat.sub obind].
  set (out := take 0 b ++ k_session_id key ++ drop 8 b).
  assert (length out = MAX_PACKET_SIZE) as Ho.
  { subst out. rewrite take_0, !length_app, length_drop, Hk. cbn [length]. lia. }
  unfold slice. rewrite (proj2 (Nat.leb_le 8 (length out))) by lia. cbn [Nat.leb andb obind].
  rewrite Nat.leb_refl. cbn [andb obind].
  set (tail := take (length out - 8) (drop 8 out)).
  assert (length tail = MAX_PACKET_SIZE - 8)%nat as Ht.
  { subst tail. rewrite length_take, length_drop. lia. }
  rewrite write_response_into_spec.
  assert (forall tail', length tail' = (MAX_PACKET_SIZE - 8)%nat ->
    inv [idx] (v <| v_pool ::= fun p => p <| buffers ::= <[idx := take (8 - 0) (drop 0 out) ++ tail']> |> |>)) as Hset.
  { intros tail' Htl. destruct Hv as [H1 H2 H3 H4 H5 H6 H7 H8 H9 H10 H11 H12 H13].
    constructor; cbn; try assumption; [by rewrite length_insert|].
    apply Forall_insert; [assumption|]. rewrite length_app, length_take, drop_0. lia. }
  destruct (Nat.ltb_spec (length tail) (28 + length payload)); cbn [obind];
    unfold set_buffer; rewrite wr_lt by assumption; cbn [obind returns].
  - split; [by apply Hset | discriminate].
  - split.
    + apply Hset. rewrite length_app, response_packet_length, length_drop. lia.
    + intros n [= <-]. lia.
Qed.

Lemma keeps_touch sid (f : SessionEntry -> SessionEntry) :
  (forall e, client_addr (f e) = client_addr e) ->
  keeps (inv []) (hmod (fun v => v <| v_sessions ::= alter f sid |>)).
Proof. intros Hf. apply keeps_mod. intros v Hv. by apply inv_alter_session. Qed.

Lemma response_safe key payload tos t tu :
  keeps (inv []) (shard_response cfg k key payload tos t tu).
Proof.
  unfold shard_response. kstep; [kstep|]. kstep; [kstep|].
  eapply hoare_bind; [apply hoare_shard|]. intros sh.
  destruct (sh_flows sh !! key) as [flow|] eqn:Ef.
  2: { intros v [Hv _]. exact Hv. }
  apply (hoare_pure (key_ok key)); [intros v [Hv Esh] | intros Hkey].
  { destruct (v_shards v !! k) as [s|] eqn:Es; cbn in Esh; subst sh; [|discriminate].
    destruct (Forall_lookup_1 _ _ _ _ (i_shards _ _ Hv) Es) as [_ Hf]. exact (Hf key flow Ef). }
  apply (hoare_pre _ (inv [])); [hkeep | tauto].
  kstep.
  { apply hoare_set_shard; [|done]. intros s. apply shard_ok_flows.
    intros key' f [[<- _]|[_ E]]%lookup_insert_Some; eauto. }
  kstep; [by apply keeps_touch|].
  eapply hoare_bind; [apply hoare_acquire|]. intros [idx|].
  2: { hkeep. ksteps; [apply hoare_drop_out | apply hoare_pool_exhausted]. }
  eapply hoare_bind; [by apply write_response_safe|]. intros [n|] v [Hv Hn]; revert v Hv; cbn iota.
  - exact (hoare_queue_tx [] cfg (MkTx _ _ idx _ _ Data) (inv []) (Hn n eq_refl)).
  - intros v Hv. exact (hoare_bind _ _ _ _ _ _ (hoare_release [] idx (inv []))
                          (fun _ => hoare_continue _ _) v Hv).
Qed.

Lemma burst_safe key n l : keeps (inv []) (shard_burst cfg k key n l).
Proof.
  revert l. induction n as [|n IH]; intros l; cbn [shard_burst]; [kstep|].
  destruct l as [|[[[payload tos] t] tu] l]; [kstep|]. kstep; [apply response_safe | apply IH].
Qed.

Lemma event_safe token l : keeps (inv []) (shard_event cfg k token l).
Proof. unfold shard_event, h_shard. ksteps. apply burst_safe. Qed.

End ShardSafe.

(* ------------------------------------------------------------------ *)
(** ** The TX thread and the cleanup *)

Lemma tx_next_safe Q :
  hoare (inv []) (hrun (fun v => Ret (tx_next v)))
    (fun r v => match r with
                | Some p => inv [p_buf_idx p] v /\ tx_ok p
                | None => inv [] v
                end) Q.
Proof.
  apply hoare_run. intros v Hv. unfold tx_next.
  pose proof Hv as [H1 H2 H3 H4 H5 H6 H7 H8 H9 H10 H11 H12 H13].
  destruct (v_tx_control v) as [|p rest] eqn:Ec; [destruct (v_tx_data v) as [|p rest] eqn:Ed|];
    cbn [returns]; [exact Hv | |].
  - apply Forall_cons_1 in H4 as [Hp Hr]. split; [|exact Hp].
    constructor; cbn; rewrite ?Ec; try assumption.
    rewrite <- H1, app_nil_r. unfold in_flight. cbn. rewrite Ec, Ed. cbn.
    apply Permutation_app_head. symmetry. apply Permutation_cons_append.
  - apply Forall_cons_1 in H3 as [Hp Hr]. split; [|exact Hp].
    constructor; cbn; try assumption.
    rewrite <- H1, app_nil_r. unfold in_flight. cbn. rewrite Ec. cbn.
    apply Permutation_app_head. symmetry. apply Permutation_cons_append.
Qed.

Lemma discard_safe {A} r idx (R : A -> V2 -> Prop) :
  hoare (inv [idx]) (h_drop_out r ;! h_release idx ;! hcontinue) R (inv []).
Proof.
  eapply hoare_bind; [apply hoare_drop_out|]. intros ?.
  eapply hoare_bind; [apply hoare_release|]. intros ?. apply hoare_continue.
Qed.

Lemma read_buffer_safe idx Q :
  hoare (inv [idx]) (hrun (fun v => let* b := buffer (v_pool v) idx in Ret (v, b)))
    (fun b v => inv [idx] v /\ length b = MAX_PACKET_SIZE) Q.
Proof.
  apply hoare_run. intros v Hv.
  destruct (lookup_lt_is_Some_2 _ _ (held_in_range _ _ idx Hv ltac:(by left))) as [b Hb].
  unfold buffer. rewrite (rd_lookup _ _ _ Hb). cbn. split; [exact Hv|].
  exact (Forall_lookup_1 _ _ _ _ (i_bufs _ _ Hv) Hb).
Qed.

Lemma slice_within (b : list Z) lo hi : (lo <= hi <= length b)%nat ->
  slice b lo hi = Ret (take (hi - lo) (drop lo b)).
Proof.
  intros Hb. unfold slice. rewrite (proj2 (Nat.leb_le lo hi)) by lia.
  by rewrite (proj2 (Nat.leb_le hi _)) by lia.
Qed.

Lemma count_out_safe held sid n tu Q :
  hoare (inv held) (count_out sid n tu) (fun _ => inv held) Q.
Proof.
  apply hoare_mod. intros v Hv.
  eapply inv_frame; [exact Hv | reflexivity.. | apply (i_pending _ _ Hv) | reflexivity |].
  eapply drops_ok_frame; [..|apply (i_drops _ _ Hv)]; reflexivity.
Qed.

Lemma send_tx_safe auth p sent_ok t tu mono :
  tx_ok p -> hoare (inv [p_buf_idx p]) (send_tx_packet auth p sent_ok t tu mono) (fun _ => inv []) (inv []).
Proof.
  intros [Hlo Hhi]. unfold send_tx_packet.
  destruct (should_drop_stale_queued_packet _ _ _); [apply discard_safe|].
  eapply hoare_bind with (M := fun _ => inv [p_buf_idx p]); [intros v Hv; exact Hv|]. intros sessions.
  eapply hoare_bind with (M := fun _ => inv [p_buf_idx p]).
  { destruct (p_kind p); [|intros v Hv; exact Hv].
    destruct (forwarding_addr _ _ _ _); [intros v Hv; exact Hv|].
    eapply hoare_bind; [apply (discard_safe _ _ (fun _ => inv [])) | intros ?; apply hoare_continue]. }
  intros addr. eapply hoare_bind; [apply read_buffer_safe|]. intros bytes.
  apply (hoare_pure (length bytes = MAX_PACKET_SIZE)); [by intros v [_ E] | intros Hb].
  apply (hoare_pre _ (inv [p_buf_idx p])); [|tauto].
  eapply hoare_bind with (M := fun _ => inv [p_buf_idx p]).
  { destruct (p_kind p); [|intros v Hv; exact Hv]. rewrite slice_within by lia.
    apply hoare_lift_Ret. apply hoare_budget. }
  intros [|]; cbn [negb]; [|apply discard_safe]. rewrite slice_within by lia.
  apply hoare_lift_Ret. eapply hoare_bind with (M := fun _ => inv [p_buf_idx p]).
  { destruct sent_ok; [|apply hoare_drop_out].
    eapply hoare_bind; [apply hoare_other; intros v; by repeat split | intros ?; apply count_out_safe]. }
  intros ?. apply hoare_release.
Qed.

Lemma tx_step_safe auth sent_ok t tu mono : keeps (inv []) (tx_step auth sent_ok t tu mono).
Proof.
  unfold tx_step. eapply hoare_bind; [apply tx_next_safe|]. intros [p|]; [|apply hoare_continue].
  apply (hoare_pure (tx_ok p)); [tauto | intros Hp].
  apply (hoare_pre _ (inv [p_buf_idx p])); [by apply send_tx_safe | tauto].
Qed.

Lemma cleanup_finish_safe cfg : keeps (inv []) (cleanup_finish cfg).
Proof.
  unfold cleanup_finish. apply keeps_bind; [apply close_finish_safe|]. intros [sid|]; [|kstep].
  ksteps. by apply keeps_post.
Qed.

Lemma cleanup_tun_safe : keeps (inv []) cleanup_tun.
Proof.
  apply keeps_mod. intros v [H1 H2 H3 H4 H5 H6 H7 H8 H9 H10 H11 H12 H13].
  constructor; cbn; try assumption. destruct (v_nat v); [by apply forward_ok_expired | exact I].
Qed.
Lemma expire_tun_safe sid : keeps (inv []) (expire_tun sid).
Proof.
  apply keeps_mod. intros v [H1 H2 H3 H4 H5 H6 H7 H8 H9 H10 H11 H12 H13].
  constructor; cbn; try assumption. destruct (v_nat v); [by apply forward_ok_expire | exact I].
Qed.

Lemma cleanup_step_safe cfg t tu : mode <> Still -> keeps (inv []) (cleanup_step cfg t tu).
Proof.
  intros Hm. unfold cleanup_step. apply keeps_bind; [apply cleanup_finish_safe|]. intros ?. kstep; [kstep|].
  apply keeps_bind; [|intros ?; apply cleanup_tun_safe].
  match goal with |- keeps _ (cleanup_sessions _ _ _ ?l) => generalize l end.
  intros l. induction l as [|sid l IH]; cbn [cleanup_sessions]; [kstep|].
  kstep; [|exact IH]. unfold cleanup_session.
  apply keeps_bind; [by apply close_begin_safe | intros ?; apply cleanup_finish_safe].
Qed.

(* ------------------------------------------------------------------ *)
(** ** The TUN threads, resolve replies and statistics *)

Lemma hoare_nat (P : V2 -> Prop) Q :
  (forall v, P v -> Q v) -> hoare P h_nat (fun t v => P v /\ v_nat v = Some t) Q.
Proof.
  intros HQ. unfold h_nat. eapply hoare_bind; [apply hoare_get|].
  intros [t|] v [Hv E]; [by split | by apply HQ].
Qed.

Lemma tun_assign_safe : keeps (inv []) tun_assign_turn.
Proof.
  unfold tun_assign_turn. eapply hoare_bind; [by apply hoare_nat|].
  intros t. eapply hoare_bind; [apply hoare_get|]. intros [x|]; [intros v [[Hv _] _]; exact Hv|].
  eapply hoare_bind; [apply hoare_get|].
  intros queue. destruct queue as [|pkt rest]; [intros v [[[Hv _] _] _]; exact Hv|].
  apply (hoare_pure (forward_ok t None /\ tun_packet_ok pkt)).
  { intros v [[[Hv Et] Ew] Eq]. pose proof (i_nat _ _ Hv) as Hn. rewrite Et, <- Ew in Hn.
    pose proof (i_tun _ _ Hv) as Hq. rewrite <- Eq in Hq. apply Forall_cons_1 in Hq as [Hp _]. by split. }
  intros [Hok Hp].
  apply hoare_bind with (fun _ => inv []).
  { apply hoare_mod. intros v [[[Hv _] _] Eq]. pose proof (i_tun _ _ Hv) as Hq. rewrite <- Eq in Hq.
    apply Forall_cons_1 in Hq as [_ Hr].
    destruct Hv as [H1 H2 H3 H4 H5 H6 H7 H8 H9 H10 H11 H12 H13]. by constructor. }
  intros ?. destruct (returns_inv _ _ (writer_assign_forward t pkt Hok Hp)) as ([t' assigned] & -> & Hok').
  apply hoare_lift_Ret, hoare_mod. intros v [H1 H2 H3 H4 H5 H6 H7 H8 H9 H10 H11 H12 H13]. by constructor.
Qed.

Lemma tun_commit_safe : keeps (inv []) tun_commit_turn.
Proof.
  unfold tun_commit_turn. eapply hoare_bind; [by apply hoare_nat|].
  intros t. eapply hoare_bind; [apply hoare_get|].
  intros [[[pkt ip] src]|]; [|intros v [[Hv _] _]; exact Hv].
  apply (hoare_pure (forward_ok t (Some (pkt, ip, src)))).
  { intros v [[Hv Et] Ew]. pose proof (i_nat _ _ Hv) as Hn. by rewrite Et, <- Ew in Hn. }
  intros Hok. destruct (writer_commit_forward _ _ _ _ Hok) as (q & _ & -> & Hok').
  apply hoare_lift_Ret. apply hoare_bind with (fun _ => inv []).
  { apply hoare_mod. intros v [[[H1 H2 H3 H4 H5 H6 H7 H8 H9 H10 H11 H12 H13] _] _]. by constructor. }
  intros ?. apply hoare_other. intros v. by repeat split.
Qed.

Lemma tun_read_safe packet : keeps (inv []) (tun_read_turn packet).
Proof.
  unfold tun_read_turn, h_nat. ksteps; [|apply hoare_other; intros ?; by repeat split].
  apply keeps_lift, reader_step_returns.
Qed.

Lemma tun_resp_safe auth sent_ok tu mono : keeps (inv []) (tun_resp_turn auth sent_ok tu mono).
Proof.
  unfold tun_resp_turn, count_tun_out. ksteps; try (apply hoare_budget); try (apply hoare_drop_out);
    try (apply hoare_other; intros ?; by repeat split).
  apply keeps_mod. intros w Hw.
  eapply inv_frame; [exact Hw | reflexivity.. | apply (i_pending _ _ Hw) | reflexivity |].
  eapply drops_ok_frame; [..|apply (i_drops _ _ Hw)]; reflexivity.
Qed.

Lemma resolve_safe n lookup ok : keeps (inv []) (resolve_turn n lookup ok).
Proof. unfold resolve_turn. ksteps; apply hoare_other; intros ?; by repeat split. Qed.

Lemma maintain_safe mono : keeps (inv []) (maintain_turn mono).
Proof. apply hoare_other. intros ?. by repeat split. Qed.

Lemma stats_safe : keeps (inv []) stats_turn.
Proof.
  apply keeps_mod. intros w Hw.
  eapply inv_frame; [exact Hw | reflexivity.. | apply (i_pending _ _ Hw) | reflexivity |].
  eapply drops_ok_frame; [..|apply (i_drops _ _ Hw)]; reflexivity.
Qed.

(* ------------------------------------------------------------------ *)
(** ** Runs *)

(** One turn of one of the threads, from its input to the state it leaves,
    whether it reached the end of its loop body or a [continue].  The cleanup
    closes a session and the TUN writer handles a packet in two turns each;
    [TurnCleanup] is a whole pass of the cleanup that nothing interrupts. *)
Inductive turn : Type :=
| TurnRx (i : RxInput)
| TurnEvent (shard : nat) (token : Z) (datagrams : list (list Z * option Z * Z * Z))
| TurnInbox (shard : nat) (socket_ok register_ok : bool) (send : SendResult) (now : Z)
| TurnShardCleanup (shard : nat) (now : Z)
| TurnTx (sent_ok : bool) (now now_unix mono : Z)
| TurnCleanup (now now_unix : Z)
| TurnClose (now now_unix : Z) (session_id : list Z)
| TurnCloseFinish
| TurnTunExpire (session_id : list Z)
| TurnTunAssign
| TurnTunCommit
| TurnTunRead (packet : list Z)
| TurnTunResp (sent_ok : bool) (now_unix mono : Z)
| TurnResolve (n : nat) (lookup_host : str -> option (list IpAddr)) (sent_ok : bool)
| TurnMaintain (mono : Z)
| TurnStats.

Section Run.
Context `{TicketCrypto} (hash_one : IpAddr -> Z) (cfg : Config).

Definition turn_handler (a : turn) : H unit :=
  match a with
  | TurnRx i => rx_step hash_one cfg i
  | TurnEvent k token l => shard_event cfg k token l
  | TurnInbox k so ro sr t => shard_inbox k so ro sr t
  | TurnShardCleanup k t => shard_cleanup k t
  | TurnTx sent_ok t tu mono => tx_step (auth_needed cfg) sent_ok t tu mono
  | TurnCleanup t tu => cleanup_step cfg t tu
  | TurnClose t tu sid => cleanup_begin t tu sid
  | TurnCloseFinish => cleanup_finish cfg
  | TurnTunExpire sid => expire_tun sid
  | TurnTunAssign => tun_assign_turn
  | TurnTunCommit => tun_commit_turn
  | TurnTunRead packet => tun_read_turn packet
  | TurnTunResp sent_ok tu mono => tun_resp_turn (auth_needed cfg) sent_ok tu mono
  | TurnResolve n lookup_host sent_ok => resolve_turn n lookup_host sent_ok
  | TurnMaintain mono => maintain_turn mono
  | TurnStats => stats_turn
  end.

(** The kernel puts at most a buffer of bytes into the buffer. *)
Definition turn_ok (a : turn) : Prop :=
  match a with
  | TurnRx i => length (buf i) = MAX_PACKET_SIZE /\ (len i <= MAX_PACKET_SIZE)%nat /\ bytes_ok (buf i)
  | _ => True
  end.

Definition v2_turn (v : V2) (a : turn) : outcome V2 :=
  let* (v', _) := turn_handler a v in Ret v'.

Fixpoint v2_run (v : V2) (l : list turn) : outcome V2 :=
  match l with
  | [] => Ret v
  | a :: l => let* v := v2_turn v a in v2_run v l
  end.

Lemma v2_run_app l1 l2 v : v2_run v (l1 ++ l2) = (let* w := v2_run v l1 in v2_run w l2).
Proof.
  revert v. induction l1 as [|a l1 IH]; intros v; [done|]. cbn. destruct (v2_turn v a); [apply IH | done].
Qed.

(** The turns that keep the counters as good as [mode] says. *)
Definition turn_counts (a : turn) : Prop :=
  match a with
  | TurnRx _ => mode <> Exact
  | TurnCleanup _ _ | TurnClose _ _ _ => mode <> Still
  | _ => True
  end.

Lemma turn_safe a : turn_ok a -> turn_counts a -> keeps (inv []) (turn_handler a).
Proof.
  destruct a; cbn [turn_ok turn_counts turn_handler]; intros Ha Hc.
  - destruct Ha as (H1 & H2 & H3). by apply keeps_rx_step.
  - apply event_safe.
  - apply inbox_safe.
  - apply shard_cleanup_safe.
  - apply tx_step_safe.
  - by apply cleanup_step_safe.
  - by apply close_begin_safe.
  - apply cleanup_finish_safe.
  - apply expire_tun_safe.
  - apply tun_assign_safe.
  - apply tun_commit_safe.
  - apply tun_read_safe.
  - apply tun_resp_safe.
  - apply resolve_safe.
  - apply maintain_safe.
  - apply stats_safe.
Qed.

Lemma turn_returns v a : inv [] v -> turn_ok a -> turn_counts a -> returns (v2_turn v a) (inv []).
Proof.
  intros Hv Ha Hc. pose proof (turn_safe a Ha Hc v Hv) as Hw. unfold v2_turn, wp in *.
  destruct (turn_handler a v) as [[v' [u|]]|]; [exact Hw | exact Hw | contradiction].
Qed.

End Run.

End Safety.
