(* ===== verification/V2Thms.v ===== *)
(** * Datapath v2: what a run guarantees

    A run is any sequence of turns of the threads, with any datagrams, clock
    readings and socket results, from the state the relay starts in with any
    environment. *)

From Stdlib Require Import String.
From S2P Require Import Prelude Checksum Net Packet TunRewrite TunSession RustStr Tuning DestPolicy Stats Sessions RateLimit AccountBudget Auth Frames Handler V2State V2Rx V2Shard V2Tun V2Inv V2Safe.

Lemma inv_new {mode : Counting} tuning policy budget tun t :
  1 <= shard_count tuning -> inv [] (v2_new tuning policy budget tun t).
Proof.
  intros Hs. constructor; cbn -[size MAX_PACKET_SIZE pending_new].
  - unfold in_flight. cbn.
    assert (forall n, concat (List.map shard_owned (replicate n shard_new)) = []) as ->.
    { intros n. induction n; [done | exact IHn]. }
    by rewrite length_replicate, !app_nil_r.
  - apply Forall_replicate, length_replicate.
  - constructor.
  - constructor.
  - apply Forall_replicate. split; cbn; [constructor|]. intros key f. by rewrite lookup_empty.
  - intros E. apply (f_equal length) in E. rewrite length_replicate in E. cbn in E. lia.
  - unfold pending_new. rewrite <- (Nat.lt_succ_pred 0 (Z.to_nat 4096)) by lia. discriminate.
  - assert (forall ip, source_session_count ∅ ip = n_sessions ∅ ip + 0) as He.
    { intros ip. unfold n_sessions. by rewrite map_filter_empty. }
    constructor; [intros ip; cbn; by rewrite <- He | intros ip c; by rewrite lookup_empty | | done | done].
    intros _ ip. apply He.
  - unfold MAX_SESSIONS_TOTAL. rewrite map_size_empty. lia.
  - by rewrite map_size_empty.
  - reflexivity.
  - constructor.
  - destruct tun; [|exact I]. apply forward_ok_empty.
Qed.

(** Unless a statement says otherwise, the cleanup may be interrupted. *)
#[global] Instance any_counting : Counting := Loose.

Lemma turn_loose a : turn_counts a.
Proof. by destruct a. Qed.

Lemma v2_turn_returns `{TicketCrypto} hash_one cfg v a :
  inv [] v -> turn_ok a -> returns (v2_turn hash_one cfg v a) (inv []).
Proof. intros Hv Ha. apply turn_returns; [exact Hv | exact Ha | apply turn_loose]. Qed.

Lemma run_returns `{TicketCrypto} hash_one cfg l v :
  inv [] v -> Forall turn_ok l -> returns (v2_run hash_one cfg v l) (inv []).
Proof.
  revert v. induction l as [|a l IH]; intros v Hv Hl; cbn [v2_run]; [exact Hv|].
  apply Forall_cons_1 in Hl as [Ha Hl]. apply returns_bind.
  eapply returns_mono; [by apply v2_turn_returns|]. intros v' Hv'. by apply IH.
Qed.

(** The receive loop does nothing between the halves of a closing. *)
Definition undisturbed `{TicketCrypto} (hash_one : IpAddr -> Z) (cfg : Config) (v0 : V2) (l : list turn) : Prop :=
  forall l1 i l2 v, l = l1 ++ TurnRx i :: l2 -> v2_run hash_one cfg v0 l1 = Ret v -> v_closing v = None.

Lemma inv_still v : inv (mode := Still) [] v <-> inv (mode := Exact) [] v /\ v_closing v = None.
Proof.
  split.
  - intros [H1 H2 H3 H4 H5 H6 H7 H8 H9 H10 H11 H12 H13]. apply counts_inv_still in H8 as [H8 E].
    split; [by constructor | exact E].
  - intros [[H1 H2 H3 H4 H5 H6 H7 H8 H9 H10 H11 H12 H13] E]. constructor; try assumption.
    by apply counts_inv_still.
Qed.

Lemma turn_exact `{TicketCrypto} hash_one cfg v a :
  inv (mode := Exact) [] v -> turn_ok a -> (forall i, a = TurnRx i -> v_closing v = None) ->
  returns (v2_turn hash_one cfg v a) (inv (mode := Exact) []).
Proof.
  intros Hv Ha Hrx. destruct a; try (by apply (turn_returns (mode := Exact))).
  eapply returns_mono.
  - apply (turn_returns (mode := Still) hash_one cfg v (TurnRx i)); [|exact Ha | discriminate].
    apply inv_still. split; [exact Hv | by eapply Hrx].
  - intros v' Hv'. by apply inv_still in Hv' as [Hv' _].
Qed.

Lemma run_exact `{TicketCrypto} hash_one cfg l v :
  inv (mode := Exact) [] v -> Forall turn_ok l -> undisturbed hash_one cfg v l ->
  returns (v2_run hash_one cfg v l) (inv (mode := Exact) []).
Proof.
  revert v. induction l as [|a l IH]; intros v Hv Hl Hu; cbn [v2_run]; [exact Hv|].
  apply Forall_cons_1 in Hl as [Ha Hl].
  destruct (returns_inv _ _ (turn_exact hash_one cfg v a Hv Ha (fun i E => Hu [] i l v (f_equal (.:: l) E) eq_refl)))
    as (v' & E & Hv'). rewrite E. cbn [obind]. apply IH; [exact Hv' | exact Hl|].
  intros l1 i l2 w -> Er. apply (Hu (a :: l1) i l2 w); [done|]. cbn [v2_run]. by rewrite E.
Qed.

Fixpoint undisturbed_run `{TicketCrypto} (hash_one : IpAddr -> Z) (cfg : Config) (v : V2) (l : list turn) : bool :=
  match l with
  | [] => true
  | a :: l =>
      match a with TurnRx _ => bool_decide (v_closing v = None) | _ => true end
      && match v2_turn hash_one cfg v a with Ret v => undisturbed_run hash_one cfg v l | Panic => true end
  end.

Lemma undisturbed_check `{TicketCrypto} hash_one cfg l v :
  undisturbed_run hash_one cfg v l = true -> undisturbed hash_one cfg v l.
Proof.
  revert v. induction l as [|a l IH]; intros v Hb l1 i l2 w El Er; [by destruct l1|].
  cbn [undisturbed_run] in Hb. apply andb_true_iff in Hb as [Ha Hb].
  destruct l1 as [|b l1]; injection El as -> ->.
  - injection Er as <-. by apply bool_decide_eq_true in Ha.
  - cbn [v2_run] in Er. apply obind_inv in Er as (v' & E & Er). rewrite E in Hb. by eapply IH.
Qed.

Section Run.
Context `{TicketCrypto} (hash_one : IpAddr -> Z) (cfg : Config).
Context (env : str -> option str) (cores : Z) (policy : DestPolicy) (budget : Policy) (tun : bool) (t0 : Z).

Definition start : V2 := v2_new (relay_v2_tuning env cores) policy budget tun t0.

Lemma run_inv l : Forall turn_ok l -> exists v, v2_run hash_one cfg start l = Ret v /\ inv [] v.
Proof.
  intros Hl. apply returns_inv, run_returns; [|exact Hl]. apply inv_new, shard_count_bounds.
Qed.

End Run.

(** The number of buffers never changes. *)
Lemma inv_free_length v : inv [] v ->
  (length (free (v_pool v)) + length (in_flight v) = length (buffers (v_pool v)))%nat.
Proof.
  intros Hv. pose proof (Permutation_length (i_pool _ _ Hv)) as E.
  rewrite app_nil_r, length_app, length_seq in E. exact E.
Qed.

(** C5: no sequence of datagrams, game responses and timer ticks makes a
    thread of the sharded datapath panic, and between turns each pool buffer
    is in exactly one place, the free list or one queue: no index is lost,
    none is held twice (which is what the [unsafe] accesses rely on), all are
    in range, the free list never holds more than the pool's slots (so
    giving a buffer back never blocks), and every queued frame lies inside
    its buffer. *)
Theorem v2_buffers_owned_once `{TicketCrypto} hash_one cfg env cores policy budget tun t0
  (l : list turn) :
  Forall turn_ok l ->
  exists v, v2_run hash_one cfg (start env cores policy budget tun t0) l = Ret v
    /\ NoDup (free (v_pool v) ++ in_flight v)
    /\ (forall idx, idx ∈ free (v_pool v) ++ in_flight v <-> (idx < length (buffers (v_pool v)))%nat)
    /\ (length (free (v_pool v)) <= length (buffers (v_pool v)))%nat
    /\ Forall tx_ok (v_tx_control v ++ v_tx_data v).
Proof.
  intros Hl. destruct (run_inv hash_one cfg env cores policy budget tun t0 l Hl) as (v & E & Hv).
  exists v. pose proof (i_pool _ _ Hv) as Hp. rewrite app_nil_r in Hp.
  pose proof (inv_free_length v Hv). split; [exact E|]. repeat split.
  - rewrite Hp. apply NoDup_seq.
  - intros Hi. rewrite Hp in Hi. apply elem_of_seq in Hi. lia.
  - intros Hi. rewrite Hp. apply elem_of_seq. lia.
  - lia.
  - apply Forall_app_2; [apply (i_tx_control _ _ Hv) | apply (i_tx_data _ _ Hv)].
Qed.

(** C23: the accounts of the relay.  In every state a run reaches the session
    table is within its limit; the [active_sessions] gauge is its size, plus
    one while the cleanup is between the halves of closing a session; the two
    drop totals together are the sum of the seventeen reasons (modulo the
    width of the counters), so no path counts a drop without a reason or the
    reverse; and the counter of a source address, which admission compares
    with the per-source limit, is never more than the number of sessions at
    that address, plus one while the cleanup is about to remove that counter:
    no source is refused for sessions it does not have.  As long as the
    receive loop handles no datagram between the halves of a closing, the
    counter is exactly the number of sessions at the address, through opens,
    rebinds to other addresses and expiry; otherwise it can fall short
    ([closing_race_loses_counter]). *)
Theorem v2_accounting `{TicketCrypto} hash_one cfg env cores policy budget tun t0
  (l : list turn) :
  let v0 := start env cores policy budget tun t0 in
  Forall turn_ok l ->
  exists v, v2_run hash_one cfg v0 l = Ret v
    /\ Z.of_nat (size (v_sessions v)) <= MAX_SESSIONS_TOTAL
    /\ active_sessions (v_stats v) = Z.of_nat (size (v_sessions v)) + closing_count v
    /\ drops_ok (v_stats v)
    /\ (forall ip, source_session_count (v_counts v) ip
                   <= n_sessions (v_sessions v) ip + to_remove (v_closing v) ip)
    /\ (undisturbed hash_one cfg v0 l ->
        forall ip, source_session_count (v_counts v) ip
                   = n_sessions (v_sessions v) ip + to_remove (v_closing v) ip).
Proof.
  intros v0 Hl. destruct (run_inv hash_one cfg env cores policy budget tun t0 l Hl) as (v & E & Hv).
  exists v. split; [exact E|]. split; [apply (i_size _ _ Hv)|].
  split; [apply (i_active _ _ Hv)|]. split; [apply (i_drops _ _ Hv)|].
  split; [apply (ci_le _ _ _ _ (i_counts _ _ Hv))|]. intros Hu.
  pose proof (run_exact hash_one cfg l v0 (inv_new _ _ _ _ _ (proj1 (shard_count_bounds env cores))) Hl Hu) as Hx.
  unfold v0 in Hx. rewrite E in Hx. exact (ci_eq _ _ _ _ (i_counts _ _ Hx) ltac:(discriminate)).
Qed.

(* ------------------------------------------------------------------ *)
(** ** Witnesses *)

Section Witnesses.
#[local] Existing Instance toy_crypto.

Definition sample_cfg : Config := MkConfig toy_auth 64 64 None false false.
Definition no_env (name : str) : option str := None.

(** A keepalive of an unknown session, a send and the two cleanups. *)
Definition sample_turns : list turn :=
  [TurnRx (MkRx (replicate MAX_PACKET_SIZE 7) 8 (SockV4 1 2) 3 4 5 6); TurnTx true 7 8 9;
   TurnCleanup 10 11; TurnShardCleanup 0 12].

Lemma sample_turns_ok : Forall turn_ok sample_turns.
Proof.
  pose proof max_packet_size.
  repeat apply List.Forall_cons; try apply List.Forall_nil; try exact I.
  cbn. rewrite length_replicate. split; [done|]. split; [lia|].
  apply Forall_replicate. unfold in_width. lia.
Qed.

Definition sample_policy : DestPolicy := build Observe None [].
Definition sample_budget : Policy := MkBudgetPolicy false 1 1 1.

Lemma v2_buffers_owned_once_witness :
  exists v, v2_run (fun _ => 0) sample_cfg (start no_env 4 sample_policy sample_budget true 0) sample_turns = Ret v
    /\ NoDup (free (v_pool v) ++ in_flight v)
    /\ (forall idx, idx ∈ free (v_pool v) ++ in_flight v <-> (idx < length (buffers (v_pool v)))%nat)
    /\ (length (free (v_pool v)) <= length (buffers (v_pool v)))%nat
    /\ Forall tx_ok (v_tx_control v ++ v_tx_data v).
Proof.
  apply (v2_buffers_owned_once (fun _ => 0) sample_cfg no_env 4 sample_policy sample_budget true 0 sample_turns).
  exact sample_turns_ok.
Defined.

(** Authentication off, and the keepalives of two sessions. *)
Definition open_cfg : Config := MkConfig (MkAuthConfig AuthOff None None) 64 64 None false false.
Definition keepalive (session : Z) (from : SocketAddr) (t : Z) : turn :=
  TurnRx (MkRx (replicate MAX_PACKET_SIZE session) 8 from t t t t).
Definition home : SocketAddr := SockV4 1 2.
Definition away : SocketAddr := SockV4 3 4.
Definition late : Z := secs 100000.

Lemma keepalive_ok session from t : 0 <= session < 256 -> turn_ok (keepalive session from t).
Proof.
  intros Hs. cbn. rewrite length_replicate. pose proof max_packet_size. split; [done|]. split; [lia|].
  apply Forall_replicate. exact Hs.
Qed.

(** A session is closed in its two halves, then another opens at its address. *)
Definition closing_turns : list turn :=
  [keepalive 7 home 0; TurnClose late 1 (replicate 8 7); TurnCloseFinish; keepalive 9 home 5].

Lemma v2_accounting_witness :
  let v0 := start no_env 4 sample_policy sample_budget true 0 in
  exists v, v2_run (fun _ => 0) open_cfg v0 closing_turns = Ret v
    /\ Z.of_nat (size (v_sessions v)) <= MAX_SESSIONS_TOTAL
    /\ active_sessions (v_stats v) = Z.of_nat (size (v_sessions v)) + closing_count v
    /\ drops_ok (v_stats v)
    /\ (forall ip, source_session_count (v_counts v) ip
                   <= n_sessions (v_sessions v) ip + to_remove (v_closing v) ip)
    /\ (forall ip, source_session_count (v_counts v) ip
                   = n_sessions (v_sessions v) ip + to_remove (v_closing v) ip).
Proof.
  destruct (v2_accounting (fun _ => 0) open_cfg no_env 4 sample_policy sample_budget true 0 closing_turns)
    as (v & E & H1 & H2 & H3 & H4 & H5).
  - repeat apply List.Forall_cons; try apply List.Forall_nil; try exact I; apply keepalive_ok; lia.
  - exists v. repeat (split; [assumption|]). apply H5, undisturbed_check. vm_compute. reflexivity.
Defined.

(** A session at one address is closed while another moves there, between the
    halves: [remove] takes away the counter the move has just raised, and the
    address has a session that is not counted. *)
Lemma closing_race_loses_counter :
  exists v, v2_run (fun _ => 0) open_cfg (v2_new (MkTuning 1 4 4 4 0 0 0 0) sample_policy sample_budget true 0)
      [keepalive 7 home 0; keepalive 9 away 1; TurnClose late 1 (replicate 8 7);
       keepalive 9 home 2; TurnCloseFinish] = Ret v
    /\ v_closing v = None
    /\ n_sessions (v_sessions v) (sock_ip home) = 1 /\ source_session_count (v_counts v) (sock_ip home) = 0.
Proof. eexists. split; [vm_compute; reflexivity|]. split; [reflexivity|]. split; vm_compute; reflexivity. Qed.

End Witnesses.
