(* ===== verification/V2Auth.v ===== *)
(** * Datapath v2: authentication

    Which datagrams reach a game server or the TUN device, who owns a
    session, and where responses go. *)

From Stdlib Require Import String.
From S2P Require Import Prelude Checksum Net Packet TunRewrite TunSession RustStr Tuning DestPolicy Stats Sessions RateLimit AccountBudget Auth Frames Handler V2State V2Rx V2Shard V2Tun V2Inv V2Safe V2Thms.

(* ------------------------------------------------------------------ *)
(** ** What the steps leave alone *)

(** The session table and what has been handed on towards the internet. *)
Definition handed_on (v : V2) : list InboundTunPacket * list (list ShardMsg) :=
  (v_tun v, List.map inbox (v_shards v)).
Definition view (v : V2) : gmap (list Z) SessionEntry * (list InboundTunPacket * list (list ShardMsg)) :=
  (v_sessions v, handed_on v).

Lemma leaves_weaken {S A T U} (g : T -> U) (f : S -> T) (m : handler S A) :
  leaves f m -> leaves (fun s => g (f s)) m.
Proof. intros H s s' c E. by rewrite (H _ _ _ E). Qed.

Lemma view_stat f : leaves view (stat f).
Proof. by apply leaves_mod. Qed.
Lemma view_release i : leaves view (h_release i).
Proof. by apply leaves_mod. Qed.
Lemma view_acquire : leaves view h_acquire.
Proof.
  apply leaves_run. intros s s' a E. destruct (try_acquire (v_pool s)). by injection E as <- <-.
Qed.
Lemma view_fill i b : leaves view (h_fill i b).
Proof.
  apply leaves_run. intros s s' a E.
  destruct (buffer _ _); [|discriminate]. cbn [obind] in E.
  destruct (copy_from_slice _ _ _ _); [|discriminate]. cbn [obind] in E.
  destruct (set_buffer _ _ _); [|discriminate]. by injection E as <- <-.
Qed.
Lemma view_queue_tx cfg p : leaves view (h_queue_tx cfg p).
Proof.
  apply leaves_run. intros s s' a E. destruct (p_kind p), (try_send _ _ p); by injection E as <- <-.
Qed.
#[global] Hint Resolve view_stat view_release view_acquire view_fill view_queue_tx : handler.

Lemma view_drop_in r : leaves view (h_drop_in r).
Proof. apply view_stat. Qed.
Lemma view_drop_out r : leaves view (h_drop_out r).
Proof. apply view_stat. Qed.
Lemma view_pool_exhausted : leaves view h_pool_exhausted.
Proof. apply view_stat. Qed.
#[global] Hint Resolve view_drop_in view_drop_out view_pool_exhausted : handler.

Lemma view_control_frame cfg a sid ft st t : leaves view (send_small_control_frame cfg a sid ft st t).
Proof. unfold send_small_control_frame. lsteps. Qed.
#[global] Hint Resolve view_control_frame : handler.

Section Rx.
Context `{TicketCrypto} (hash_one : IpAddr -> Z) (cfg : Config) (i : RxInput).

Lemma view_ack sid st : leaves view (h_ack cfg i sid st).
Proof. apply view_control_frame. Qed.
Lemma view_pending : leaves view (h_pending hash_one i).
Proof.
  apply leaves_run. intros s s' a E. destruct (pending_allow _ _ _ _) as [[b r]|]; [|discriminate].
  by injection E as <- <-.
Qed.
Lemma view_source_event k : leaves view (h_source_event i k).
Proof.
  apply leaves_run. intros s s' a E. destruct (allow_source_event _ _ _ _ _) as [[l st] r].
  by injection E as <- <-.
Qed.
Lemma view_verify_once sid token : leaves view (h_verify_once cfg i sid token).
Proof.
  apply leaves_run. intros s s' a E. destruct (verify_relay_ticket_once _ _ _ _ _).
  by injection E as <- <-.
Qed.
Hint Resolve view_ack view_pending view_source_event view_verify_once : handler.

Lemma view_ticket sid b : leaves view (rx_ticket hash_one cfg i sid b).
Proof. unfold rx_ticket. lsteps. Qed.
Lemma view_reauth_hint sid t : leaves view (rx_reauth_hint hash_one cfg i sid t).
Proof. unfold rx_reauth_hint. lsteps. Qed.
Lemma view_auth_gate sid t : leaves view (rx_auth_gate cfg i sid t).
Proof. unfold rx_auth_gate. lsteps. Qed.
Lemma view_admit sid : leaves view (rx_admit i sid).
Proof. unfold rx_admit. lsteps. Qed.
Lemma view_ingress sid : leaves view (rx_ingress i sid).
Proof. by apply leaves_mod. Qed.

Lemma handed_on_session sid b : leaves handed_on (rx_session cfg i sid b).
Proof.
  apply leaves_run. intros s s' a E. destruct (v_sessions s !! sid); [destruct (_ || _)|];
    by injection E as <- <-.
Qed.

Lemma leaves_handed_on {A} (m : H A) : leaves view m -> leaves handed_on m.
Proof. apply (leaves_weaken snd). Qed.
Lemma leaves_sessions {A} (m : H A) : leaves view m -> leaves v_sessions m.
Proof. apply (leaves_weaken fst). Qed.

Lemma handed_on_hello sid t : leaves handed_on (rx_hello cfg i sid t).
Proof.
  unfold rx_hello. lsteps; try (apply leaves_handed_on, view_ack).
  apply leaves_mod. intros s. by destruct (v_sessions s !! sid).
Qed.

(** A ticket is only there for a hello frame that carries a verified token. *)
Definition verified (sid : list Z) (b : bool) (t : VerifiedRelayTicket) : Prop :=
  b = true /\ exists token, parse_auth_hello_token (buf i) (len i) = Ret (Ok token)
    /\ verify_relay_ticket token sid (c_auth cfg) (now_unix i) = Ok t.

Lemma verify_once_ok token sid auth t cache c' tk :
  verify_relay_ticket_once token sid auth t cache = (c', Ok tk) ->
  verify_relay_ticket token sid auth t = Ok tk.
Proof.
  unfold verify_relay_ticket_once. destruct (verify_relay_ticket token sid auth t) as [x|e] eqn:E;
    intros Hv; repeat (case_match; simplify_eq/=); congruence.
Qed.

Lemma ticket_verified sid b :
  ends (fun _ => True) (rx_ticket hash_one cfg i sid b)
    (fun r _ => forall t, r = Some t -> verified sid b t) (fun _ => True).
Proof.
  unfold rx_ticket. destruct b; [|rewrite andb_false_r; by apply ends_ret].
  destruct (auth_needed cfg); cbn [andb]; [|by apply ends_ret].
  apply ends_bind with (fun _ _ => True); [by intros ? ? []|]. intros [|]; cbn [negb].
  2: { apply ends_bind with (fun _ _ => True); [by intros ? ? [] | intros ?; by apply ends_continue]. }
  eapply ends_bind; [apply (ends_lift _ _ (fun r _ => parse_auth_hello_token (buf i) (len i) = Ret r)); auto|].
  intros parsed. apply ends_bind with (fun r _ => forall t, r = Ok t -> verified sid true t).
  - destruct parsed as [token|e]; [|by apply ends_ret]. apply ends_run.
    intros s s' r Hp E. destruct (verify_relay_ticket_once _ _ _ _ _) as [c' r'] eqn:Ev.
    injection E as <- <-. intros t ->. split; [done|]. exists token. split; [exact Hp|].
    by eapply verify_once_ok.
  - intros [t|e].
    + apply ends_ret. intros s Hs t' [= <-]. auto.
    + apply ends_bind with (fun _ _ => True); [by intros ? ? [] | intros ?; by apply ends_continue].
Qed.

(** A current authenticated session at the address the datagram came from. *)
Definition authorised (sessions : gmap (list Z) SessionEntry) (sid : list Z) : Prop :=
  exists e, sessions !! sid = Some e /\ session_auth_is_current e (now_unix i) = true
    /\ client_addr e = from i.

Lemma gate_authorised sid ticket S0 :
  ends (fun v => v_sessions v = S0) (rx_auth_gate cfg i sid ticket)
    (fun _ _ => auth_needed cfg = true -> ticket = None -> authorised S0 sid) (fun _ => True).
Proof.
  unfold rx_auth_gate. apply ends_get. intros sessions.
  destruct (auth_needed cfg && _ && _) eqn:E.
  { apply ends_bind with (fun _ _ => True); [by intros ? ? [] | intros ?; by apply ends_continue]. }
  apply ends_ret. intros s [Hs ->] Ha ->. rewrite Ha in E. cbn in E.
  apply negb_false_iff in E. rewrite Hs in E. destruct (S0 !! sid) as [e|] eqn:Es; [|discriminate].
  apply andb_true_iff in E as [Hc Hsrc]. exists e. split; [exact Es|]. split; [exact Hc|].
  unfold session_auth_is_current in Hc. apply andb_true_iff in Hc as [Hauth _].
  unfold authenticated_session_source_allowed in Hsrc. rewrite Hauth in Hsrc. cbn in Hsrc.
  by apply bool_decide_eq_true in Hsrc.
Qed.

(** The body after admission. *)
Definition rx_tail (sid : list Z) (b : bool) (ticket : option VerifiedRelayTicket) : H unit :=
  let! (authenticated, source_allowed) := rx_session cfg i sid b in
  rx_ingress i sid ;!
  if b then rx_hello cfg i sid ticket
  else if negb source_allowed then h_drop_in Stats.Auth ;! hcontinue
  else rx_frame cfg i sid authenticated.

(** What is known when a datagram gets past admission. *)
Definition passed (v0 : V2) (sid : list Z) (b : bool) (ticket : option VerifiedRelayTicket) : Prop :=
  (forall t, ticket = Some t -> verified sid b t)
  /\ (auth_needed cfg = true -> ticket = None -> authorised (v_sessions v0) sid).

Lemma leaves_view_ends {A} v0 (m : H A) (Q : V2 -> Prop) :
  leaves view m -> (forall v, view v = view v0 -> Q v) ->
  ends (fun v => view v = view v0) m (fun _ v => view v = view v0) Q.
Proof.
  intros Hm HQ. eapply ends_conseq; [apply (leaves_ends view (fun x => x = view v0) m Hm) | auto..].
Qed.

(** The body up to admission, with any assertion [J] its steps preserve: a
    datagram is dropped with the [view] unchanged, or reaches the tail with
    what [passed] says. *)
Lemma rx_step_ends_with (J : V2 -> Prop) (v0 : V2) (Q : V2 -> Prop) :
  let sid := take SESSION_ID_LEN (buf i) in
  (forall f, stays J (stat f)) ->
  (length sid = SESSION_ID_LEN -> forall b, stays J (rx_ticket hash_one cfg i sid b)) ->
  (length sid = SESSION_ID_LEN -> forall t, stays J (rx_reauth_hint hash_one cfg i sid t)) ->
  stays J (rx_admit i sid) ->
  (forall v, J v -> view v = view v0 -> Q v) ->
  (forall b ticket, length sid = SESSION_ID_LEN -> passed v0 sid b ticket ->
    ends (fun v => J v /\ view v = view v0) (rx_tail sid b ticket) (fun _ => Q) Q) ->
  ends (fun v => J v /\ v = v0) (rx_step hash_one cfg i) (fun _ => Q) Q.
Proof.
  intros sid Jstat Jticket Jhint Jadmit HQ Htail.
  set (P v := J v /\ view v = view v0).
  apply (ends_pre _ P); [|intros v [Hj ->]; by split].
  assert (forall A (m : H A), leaves view m -> stays J m -> ends P m (fun _ => P) Q) as Hv.
  { intros A m Hm Hj. eapply ends_conseq;
      [exact (ends_and _ _ _ _ _ _ _ Hj (leaves_view_ends v0 m (fun v => view v = view v0) Hm (fun v E => E)))
      | auto | auto | intros v []; auto]. }
  assert (forall A (m : outcome A), ends P (hlift m) (fun x v => P v /\ m = Ret x) Q) as Hlift.
  { intros A m. apply ends_lift. auto. }
  unfold rx_step. eapply ends_bind; [apply Hv; [apply view_stat | apply Jstat]|]. intros ?.
  destruct (_ <? _)%nat.
  { eapply ends_bind; [apply Hv; [apply view_drop_in | apply Jstat]|].
    intros ?. apply ends_continue. intros v []. auto. }
  eapply ends_bind; [apply Hlift|]. intros sid'.
  apply (ends_pure (sid' = sid /\ length sid = SESSION_ID_LEN)).
  { intros v [_ E]. unfold slice in E. destruct (_ && _) eqn:El; [|discriminate]. injection E as <-.
    split; [done|]. apply andb_true_iff in El as [_ El%Nat.leb_le]. subst sid. rewrite length_take. lia. }
  intros [-> Hlen]. apply (ends_pre _ P); [|by intros v []].
  eapply ends_bind; [apply Hlift|]. intros c. apply (ends_pre _ P); [|by intros v []].
  set (b := (SESSION_ID_LEN + 3 <=? len i)%nat && (c =? AUTH_HELLO_FRAME_TYPE)).
  eapply ends_bind with (M := fun r v => P v /\ forall t, r = Some t -> verified sid b t).
  { eapply ends_conseq;
      [exact (ends_and _ _ _ _ _ _ _ (Hv _ _ (view_ticket sid b) (Jticket Hlen b)) (ticket_verified sid b))
       | intros s Hs; by split | auto | by intros ? []]. }
  intros ticket. apply (ends_pure (forall t, ticket = Some t -> verified sid b t)); [by intros ? []|].
  intros Hver. apply (ends_pre _ P); [|by intros ? []].
  eapply ends_bind; [exact (Hv _ _ (view_reauth_hint sid ticket) (Jhint Hlen ticket))|]. intros ?.
  assert (stays J (rx_auth_gate cfg i sid ticket)) as Jgate.
  { unfold rx_auth_gate. apply stays_bind; [intros s s' x Hs [= <- <-]; exact Hs|]. intros ?.
    destruct (auth_needed cfg && _ && _); [|apply stays_ret].
    apply stays_bind; [apply Jstat | intros ?; apply stays_continue]. }
  eapply ends_bind with (M := fun _ v => P v
    /\ (auth_needed cfg = true -> ticket = None -> authorised (v_sessions v0) sid)).
  { eapply ends_conseq;
      [exact (ends_and _ _ _ _ _ _ _ (Hv _ _ (view_auth_gate sid ticket) Jgate)
                (gate_authorised sid ticket (v_sessions v0))) | | auto | by intros ? []].
    intros s Hs. split; [exact Hs | by injection (proj2 Hs)]. }
  intros ?.
  apply (ends_pure (auth_needed cfg = true -> ticket = None -> authorised (v_sessions v0) sid));
    [by intros ? []|].
  intros Hauth. apply (ends_pre _ P); [|by intros ? []].
  eapply ends_bind; [exact (Hv _ _ (view_admit sid) Jadmit)|]. intros ?.
  apply (Htail b ticket Hlen). by split.
Qed.

Lemma rx_step_ends (v0 : V2) (Q : V2 -> Prop) :
  (forall v, view v = view v0 -> Q v) ->
  (forall b ticket, passed v0 (take SESSION_ID_LEN (buf i)) b ticket ->
    ends (fun v => view v = view v0) (rx_tail (take SESSION_ID_LEN (buf i)) b ticket) (fun _ => Q) Q) ->
  ends (fun v => v = v0) (rx_step hash_one cfg i) (fun _ => Q) Q.
Proof.
  intros HQ Htail. assert (forall A (m : H A), stays (fun _ => True) m) as Htriv by by intros A m ? ? [].
  eapply ends_pre; [apply (rx_step_ends_with (fun _ => True) v0 Q) | by intros v ->]; auto.
  intros b ticket _ Hp. eapply ends_pre; [exact (Htail b ticket Hp) | by intros v []].
Qed.

Lemma tail_hello_handed_on sid ticket : leaves handed_on (rx_tail sid true ticket).
Proof.
  unfold rx_tail. apply leaves_bind; [apply handed_on_session|]. intros [x y].
  apply leaves_bind; [apply leaves_handed_on, view_ingress|]. intros ?. apply handed_on_hello.
Qed.

Lemma forwards_authorised v0 :
  auth_needed cfg = true ->
  let Q v := handed_on v = handed_on v0
             \/ authorised (v_sessions v0) (take SESSION_ID_LEN (buf i)) in
  ends (fun v => v = v0) (rx_step hash_one cfg i) (fun _ => Q) Q.
Proof.
  intros Ha Q. apply rx_step_ends.
  - intros v E. left. exact (f_equal snd E).
  - intros b ticket [Hver Hauth]. destruct b.
    + intros s s' c Hs E. apply tail_hello_handed_on in E.
      assert (handed_on s' = handed_on v0) as Hh by (rewrite E; exact (f_equal snd Hs)). destruct c; by left.
    + assert (ticket = None) as -> by (destruct ticket as [t|]; [destruct (Hver t eq_refl) as [Hb _]; discriminate | done]).
      intros s s' c _ _. destruct c; right; auto.
Qed.

(* ------------------------------------------------------------------ *)
(** ** Who owns a session *)

End Rx.

(** The account, lease and address of an authenticated session. *)
Record Owner : Type := MkOwner { o_user : str; o_lease : option Z; o_addr : SocketAddr }.

Definition owner (e : SessionEntry) : option Owner :=
  if bool_decide (auth_state e = Authenticated)
  then Some (MkOwner (user_id e) (lease_expires_at_unix e) (client_addr e)) else None.
Definition owners (v : V2) : gmap (list Z) Owner := omap owner (v_sessions v).

Lemma owners_lookup v sid : owners v !! sid = v_sessions v !! sid ≫= owner.
Proof. apply lookup_omap. Qed.

Lemma leaves_owners {A} (m : H A) : leaves v_sessions m -> leaves owners m.
Proof. apply (leaves_weaken (omap owner)). Qed.

(** Changing an entry without changing its owner. *)
Lemma omap_owner_alter (S : gmap (list Z) SessionEntry) f sid :
  (forall e, owner (f e) = owner e) -> omap owner (alter f sid S) = omap owner S.
Proof.
  intros Hf. apply map_eq. intros k. rewrite !lookup_omap. destruct (decide (k = sid)) as [->|Hk].
  - rewrite lookup_alter_eq. destruct (S !! sid); cbn; [apply Hf | done].
  - by rewrite lookup_alter_ne.
Qed.
Lemma omap_owner_insert (S : gmap (list Z) SessionEntry) e sid :
  owner e = S !! sid ≫= owner -> omap owner (<[sid := e]> S) = omap owner S.
Proof.
  intros Hf. apply map_eq. intros k. rewrite !lookup_omap. destruct (decide (k = sid)) as [->|Hk].
  - by rewrite lookup_insert_eq.
  - by rewrite lookup_insert_ne.
Qed.

Section Owners.
Context `{TicketCrypto} (hash_one : IpAddr -> Z) (cfg : Config) (i : RxInput).

Lemma owners_view {A} (m : H A) : leaves view m -> leaves owners m.
Proof. intros Hm. apply leaves_owners, leaves_sessions, Hm. Qed.

Lemma owners_session sid b : auth_needed cfg = true -> leaves owners (rx_session cfg i sid b).
Proof.
  intros Ha. apply leaves_run. intros s s' r E. rewrite Ha in E. cbn [negb orb] in E.
  destruct (v_sessions s !! sid) as [e|] eqn:Es.
  - destruct (negb b && bool_decide (client_addr e = from i)) eqn:Eb; [|by injection E as <- _].
    injection E as <- _.
    apply andb_true_iff in Eb as [_ Hb]. apply bool_decide_eq_true in Hb.
    apply omap_owner_insert. rewrite Es. unfold owner. cbn. by rewrite Hb.
  - injection E as <- _. apply omap_owner_insert. by rewrite Es.
Qed.

Lemma owners_name_legacy sid ip : leaves owners (h_name_legacy sid ip).
Proof.
  apply leaves_mod. intros s. apply omap_owner_alter. intros e. unfold owner.
  destruct (bool_decide (auth_state e = Authenticated)) eqn:E; cbn; by rewrite E.
Qed.
Lemma owners_post sid msg : leaves owners (h_post cfg sid msg).
Proof.
  apply leaves_run. intros s s' r E. destruct (shard_for_session _ _); [|discriminate]. cbn [obind] in E.
  destruct (v_shards s !! _); [destruct (try_send _ _ _)|]; by injection E as <- <-.
Qed.
Lemma owners_tun sid raw count : leaves owners (h_tun cfg i sid raw count).
Proof. unfold h_tun. lsteps; by apply owners_view, view_stat || apply leaves_mod. Qed.
Lemma owners_parse p : leaves owners (h_parse p).
Proof.
  apply leaves_run. intros s s' r E. destruct (parse_ip_packet_full _ _) as [[q x]|]; [|discriminate].
  by injection E as <- <-.
Qed.
Lemma owners_budget sid out p mono : leaves owners (h_budget sid out p mono).
Proof.
  apply leaves_run. intros s s' r E. destruct (allow _ _ _ _ _ _) as [[q x]|]; [|discriminate].
  by injection E as <- <-.
Qed.
Hint Resolve owners_name_legacy owners_post owners_tun owners_parse owners_budget : handler.

Lemma owners_stat f : leaves owners (stat f).
Proof. apply owners_view, view_stat. Qed.
Lemma owners_drop_in r : leaves owners (h_drop_in r).
Proof. apply owners_stat. Qed.
Lemma owners_drop_out r : leaves owners (h_drop_out r).
Proof. apply owners_stat. Qed.
Lemma owners_exhausted : leaves owners h_pool_exhausted.
Proof. apply owners_stat. Qed.
Lemma owners_release k : leaves owners (h_release k).
Proof. apply owners_view, view_release. Qed.
Lemma owners_acquire : leaves owners h_acquire.
Proof. apply owners_view, view_acquire. Qed.
Lemma owners_fill k b : leaves owners (h_fill k b).
Proof. apply owners_view, view_fill. Qed.
Lemma owners_queue_tx p : leaves owners (h_queue_tx cfg p).
Proof. apply owners_view, view_queue_tx. Qed.
Hint Resolve owners_stat owners_drop_in owners_drop_out owners_exhausted owners_release
  owners_acquire owners_fill owners_queue_tx : handler.

Lemma owners_require_auth a : leaves owners (rx_require_auth cfg a).
Proof. unfold rx_require_auth. lsteps. Qed.
Hint Resolve owners_require_auth : handler.

Lemma owners_forward sid p : leaves owners (rx_forward cfg i sid p).
Proof. unfold rx_forward, rx_udp. lsteps. Qed.
Hint Resolve owners_forward : handler.

Lemma owners_frame sid a : leaves owners (rx_frame cfg i sid a).
Proof.
  unfold rx_frame, rx_ping, rx_rtt, rx_resolve, rx_keepalive, rx_packet. lsteps.
Qed.

(** The owner a ticket gives the session, at the datagram's address. *)
Definition ticket_owner (t : VerifiedRelayTicket) : Owner :=
  MkOwner (t_user_id t) (if t_lease t then Some (t_exp t) else None) (from i).

(** Either no owner changes, or the datagram's own session gets the owner its
    verified ticket names, and the session had none or the same account. *)
Definition owner_step (v0 v : V2) : Prop :=
  let sid := take SESSION_ID_LEN (buf i) in
  owners v = owners v0
  \/ exists token t, parse_auth_hello_token (buf i) (len i) = Ret (Ok token)
       /\ verify_relay_ticket token sid (c_auth cfg) (now_unix i) = Ok t
       /\ (forall o, owners v0 !! sid = Some o -> o_user o = t_user_id t)
       /\ owners v = <[sid := ticket_owner t]> (owners v0).

Lemma hello_owner_step v0 sid ticket :
  sid = take SESSION_ID_LEN (buf i) ->
  (forall t, ticket = Some t -> verified cfg i sid true t) ->
  ends (fun v => owners v = owners v0) (rx_hello cfg i sid ticket)
    (fun _ => owner_step v0) (owner_step v0).
Proof.
  intros Hsid Hver. unfold rx_hello.
  assert (forall st, ends (fun v => owners v = owners v0) (h_ack cfg i sid st ;! hcontinue)
                      (fun _ : unit => owner_step v0) (owner_step v0)) as Hack.
  { intros st s s' c Hs E. assert (owners s' = owners v0) as Ho.
    { rewrite <- Hs. revert s s' c E Hs. intros s s' c E _. revert s s' c E.
      apply leaves_bind; [apply owners_view, view_ack | intros ?; apply leaves_continue]. }
    destruct c; by left. }
  case_bool_decide; [apply Hack|]. destruct ticket as [t|]; [|apply Hack].
  destruct (Hver t eq_refl) as [_ (token & Hp & Hv)].
  apply ends_get. intros sessions.
  destruct (match sessions !! sid with Some e => _ | None => _ end) eqn:Econf.
  { eapply ends_pre; [apply Hack | by intros s []]. }
  apply ends_bind with (fun _ => owner_step v0).
  - apply ends_mod. intros s [Hs ->]. destruct (v_sessions s !! sid) as [e|] eqn:Es; [|by left].
    right. exists token, t. rewrite <- Hsid. split; [exact Hp|]. split; [exact Hv|]. split.
    + intros o. rewrite <- Hs, owners_lookup, Es. cbn. unfold owner.
      destruct (bool_decide (auth_state e = Authenticated)) eqn:Ea; [|discriminate].
      intros [= <-]. cbn. cbn in Econf. apply negb_false_iff in Econf.
      by apply bool_decide_eq_true in Econf.
    + rewrite <- Hs. unfold owners. cbn. by rewrite (omap_insert_Some _ _ _ _ (ticket_owner t)).
  - intros ?. intros s s' c Hs E. assert (owners s' = owners s) as Ho.
    { revert E. apply leaves_bind; [apply owners_view, view_ack | intros ?; apply leaves_continue]. }
    unfold owner_step in *. rewrite <- Ho in Hs. destruct c; exact Hs.
Qed.

Lemma tail_owner_step v0 b ticket :
  auth_needed cfg = true ->
  let sid := take SESSION_ID_LEN (buf i) in
  passed cfg i v0 sid b ticket ->
  ends (fun v => view v = view v0) (rx_tail cfg i sid b ticket) (fun _ => owner_step v0) (owner_step v0).
Proof.
  intros Ha sid [Hver _]. unfold rx_tail.
  assert (forall A (m : H A), leaves owners m ->
    ends (fun v => owners v = owners v0) m (fun _ v => owners v = owners v0) (owner_step v0)) as Hl.
  { intros A m Hm. eapply ends_conseq; [apply (leaves_ends owners (fun x => x = owners v0) m Hm)|auto..].
    intros s Hs. by left. }
  apply (ends_pre _ (fun v => owners v = owners v0)).
  2: { intros v E. unfold owners. by rewrite (f_equal fst E : v_sessions v = v_sessions v0). }
  eapply ends_bind; [by apply Hl, owners_session|]. intros [x y].
  eapply ends_bind; [apply Hl, owners_view, view_ingress|]. intros ?.
  destruct b; [by apply hello_owner_step|].
  assert (leaves owners (if negb y then h_drop_in Stats.Auth ;! hcontinue else rx_frame cfg i sid x)) as Hr.
  { lsteps. apply owners_frame. }
  eapply ends_conseq; [apply (Hl _ _ Hr) | auto | | auto]. intros ? s Hs. by left.
Qed.

Lemma rx_owner_step v0 :
  auth_needed cfg = true ->
  ends (fun v => v = v0) (rx_step hash_one cfg i) (fun _ => owner_step v0) (owner_step v0).
Proof.
  intros Ha. apply rx_step_ends.
  - intros v E. left. unfold owners. by rewrite (f_equal fst E : v_sessions v = v_sessions v0).
  - intros b ticket Hp. by apply tail_owner_step.
Qed.

End Owners.

(* ------------------------------------------------------------------ *)
(** ** The other threads *)

#[global] Hint Resolve owners_stat owners_drop_in owners_drop_out owners_exhausted owners_release
  owners_acquire owners_queue_tx owners_budget owners_post : handler.

Lemma owners_set_shard k f : leaves owners (h_set_shard k f).
Proof. by apply leaves_mod. Qed.
Lemma owners_shard k : leaves owners (h_shard k).
Proof. apply leaves_get. Qed.
#[global] Hint Resolve owners_set_shard owners_shard : handler.

Lemma owners_response cfg k key payload tos t tu :
  leaves owners (shard_response cfg k key payload tos t tu).
Proof.
  unfold shard_response. repeat (lstep || (apply leaves_mod; intros s; apply omap_owner_alter; by intros e)).
  apply leaves_run. intros s s' r E.
  do 4 (apply obind_inv in E as (? & _ & E)). apply obind_inv in E as ([tail ip_n] & _ & E).
  apply obind_inv in E as (p & _ & E). by injection E as <- <-.
Qed.

Lemma owners_burst cfg k key n l : leaves owners (shard_burst cfg k key n l).
Proof.
  revert l. induction n as [|n IH]; intros l; cbn [shard_burst]; [lstep|].
  destruct l as [|[[[payload tos] t] tu] l]; [lstep|]. apply leaves_bind; [apply owners_response | auto].
Qed.

Lemma owners_event cfg k token l : leaves owners (shard_event cfg k token l).
Proof. unfold shard_event. lsteps. apply owners_burst. Qed.

Lemma owners_open_flow k key addr info idx so ro t :
  leaves owners (shard_open_flow k key addr info idx so ro t).
Proof.
  unfold shard_open_flow. lsteps. apply leaves_run. intros w w' r E.
  destruct (allow_source_event _ _ _ _ _) as [[l st] ok]. by injection E as <- <-.
Qed.
#[global] Hint Resolve owners_open_flow : handler.

Lemma owners_inbox k so ro sr t : leaves owners (shard_inbox k so ro sr t).
Proof.
  unfold shard_inbox, shard_client_packet, h_flow_send, shard_keepalive, shard_remove_session. lsteps.
  apply leaves_run. intros w w' r E. do 2 (apply obind_inv in E as (? & _ & E)). by injection E as <- <-.
Qed.

Lemma owners_send_tx auth p sent_ok t tu mono : leaves owners (send_tx_packet auth p sent_ok t tu mono).
Proof.
  unfold send_tx_packet, count_out. lsteps.
  apply leaves_run. intros w w' r E. apply obind_inv in E as (? & _ & E). by injection E as <- <-.
Qed.

Lemma owners_tx auth sent_ok t tu mono : leaves owners (tx_step auth sent_ok t tu mono).
Proof.
  unfold tx_step. lsteps; [|apply owners_send_tx]. apply leaves_run. intros w w' r E. unfold tx_next in E.
  destruct (v_tx_control w); [destruct (v_tx_data w)|]; by injection E as <- <-.
Qed.

(** Cleanup only removes owners. *)
Definition owns_less (v : V2) {A} (m : H A) : Prop :=
  ends (fun w => owners w ⊆ owners v) m (fun _ w => owners w ⊆ owners v) (fun w => owners w ⊆ owners v).

Lemma owns_less_step v A (m : H A) v' c : owns_less v m -> m v = Ret (v', c) -> owners v' ⊆ owners v.
Proof. intros Hm E. specialize (Hm v v' c (reflexivity _) E). by destruct c. Qed.

Lemma owners_close_begin v expired sid : owns_less v (close_begin expired sid).
Proof.
  unfold owns_less, close_begin. apply ends_get. intros [x|]; [by apply ends_ret; intros s []|].
  apply (ends_pre _ (fun w => owners w ⊆ owners v)); [|tauto].
  apply ends_get. intros sessions. destruct (sessions !! sid) as [e|]; [|by apply ends_ret; intros s []].
  destruct (expired e); [|by apply ends_ret; intros s []].
  apply ends_mod. intros s [Hs _]. etransitivity; [|exact Hs].
  unfold owners. cbn. rewrite omap_delete. apply delete_subseteq.
Qed.

Lemma owners_close_finish : leaves owners close_finish.
Proof. unfold close_finish. lsteps. Qed.
Lemma owners_cleanup_finish cfg : leaves owners (cleanup_finish cfg).
Proof. unfold cleanup_finish. lsteps. apply owners_close_finish. Qed.

Lemma owners_cleanup cfg t tu v : owns_less v (cleanup_step cfg t tu).
Proof.
  assert (owns_less v (cleanup_finish cfg)) as Hfin.
  { apply (leaves_ends owners (fun x => x ⊆ owners v)), owners_cleanup_finish. }
  assert (forall sids, owns_less v (cleanup_sessions cfg t tu sids)) as Hall.
  { intros sids. induction sids as [|sid sids IH]; cbn [cleanup_sessions]; [by apply ends_ret|].
    eapply ends_bind; [|intros ?; exact IH]. unfold cleanup_session.
    eapply ends_bind; [apply owners_close_begin | intros ?; apply Hfin]. }
  unfold cleanup_step. eapply ends_bind; [apply Hfin|]. intros ?. apply ends_get. intros sessions.
  apply (ends_pre _ (fun w => owners w ⊆ owners v)); [|tauto].
  eapply ends_bind; [apply Hall|]. intros ?. apply ends_mod. intros s Hs. exact Hs.
Qed.

Lemma owners_tun_assign : leaves owners tun_assign_turn.
Proof. unfold tun_assign_turn, h_nat. lsteps. Qed.
Lemma owners_tun_commit : leaves owners tun_commit_turn.
Proof. unfold tun_commit_turn, h_nat. lsteps. Qed.
Lemma owners_tun_read packet : leaves owners (tun_read_turn packet).
Proof. unfold tun_read_turn, h_nat. lsteps. Qed.
Lemma owners_tun_resp auth ok tu mono : leaves owners (tun_resp_turn auth ok tu mono).
Proof. unfold tun_resp_turn, count_tun_out. lsteps. Qed.
Lemma owners_resolve n lookup ok : leaves owners (resolve_turn n lookup ok).
Proof. unfold resolve_turn. lsteps. Qed.

(* ------------------------------------------------------------------ *)
(** ** Where frames go *)

Definition sent_view (v : V2) : list (SocketAddr * list Z) * gmap (list Z) SessionEntry :=
  (v_sent v, v_sessions v).

(** What the TX thread may append to the log of sent frames for packet [p]. *)
Definition proper_send (auth : bool) (t tu : Z) (v : V2) (p : TxPacket)
  (addr : SocketAddr) (frame : list Z) : Prop :=
  length frame = p_len p
  /\ match p_kind p with
     | Control => addr = p_addr p
     | Data => forwarding_addr (v_sessions v) (p_session_id p) auth tu = Some addr
               /\ duration_since t (p_enqueued_at p) <= MAX_DATA_QUEUE_AGE
     end.

Definition send_outcome (auth : bool) (t tu : Z) (v : V2) (p : TxPacket) (v' : V2) : Prop :=
  v_sent v' = v_sent v
  \/ exists addr frame, v_sent v' = v_sent v ++ [(addr, frame)] /\ proper_send auth t tu v p addr frame.

Lemma slice_length {A} (l : list A) a b x : slice l a b = Ret x -> length x = (b - a)%nat.
Proof.
  unfold slice. destruct (_ && _) eqn:E; [|discriminate]. intros [= <-].
  apply andb_true_iff in E as [E1%Nat.leb_le E2%Nat.leb_le]. rewrite length_take, length_drop. lia.
Qed.

Lemma sent_drop_out r : leaves sent_view (h_drop_out r).
Proof. by apply leaves_mod. Qed.
Lemma sent_release k : leaves sent_view (h_release k).
Proof. by apply leaves_mod. Qed.
Lemma sent_budget sid out p mono : leaves sent_view (h_budget sid out p mono).
Proof.
  apply leaves_run. intros s s' r E. apply obind_inv in E as ([q x] & _ & E). by injection E as <- <-.
Qed.
#[global] Hint Resolve sent_drop_out sent_release sent_budget : handler.

Lemma send_tx_spec auth p ok t tu mono v :
  ends (fun w => sent_view w = sent_view v) (send_tx_packet auth p ok t tu mono)
    (fun _ => send_outcome auth t tu v p) (send_outcome auth t tu v p).
Proof.
  assert (forall A (m : H A), leaves sent_view m ->
    ends (fun w => sent_view w = sent_view v) m (fun _ w => sent_view w = sent_view v)
      (send_outcome auth t tu v p)) as Hl.
  { intros A m Hm. eapply ends_conseq; [apply (leaves_ends sent_view (fun x => x = sent_view v) m Hm)|auto..].
    intros s Hs. left. exact (f_equal fst Hs). }
  assert (forall r, ends (fun w => sent_view w = sent_view v)
            (h_drop_out r ;! h_release (p_buf_idx p) ;! hcontinue)
            (fun _ : unit => send_outcome auth t tu v p) (send_outcome auth t tu v p)) as Hgive.
  { intros r. eapply ends_conseq; [apply Hl; lsteps | auto | | auto].
    intros ? s Hs. left. exact (f_equal fst Hs). }
  unfold send_tx_packet. destruct (should_drop_stale_queued_packet _ _ _) eqn:Estale; [apply Hgive|].
  apply ends_get. intros sessions.
  apply (ends_bind _ _ _ (fun addr w => sent_view w = sent_view v
    /\ match p_kind p with
       | Control => addr = p_addr p
       | Data => forwarding_addr (v_sessions v) (p_session_id p) auth tu = Some addr
       end)).
  { destruct (p_kind p); [|by apply ends_ret; intros s []].
    destruct (forwarding_addr sessions (p_session_id p) auth tu) as [a|] eqn:Ef.
    - apply ends_ret. intros s [Hs ->]. split; [exact Hs|]. rewrite <- Ef. f_equal.
      by rewrite (f_equal snd Hs : v_sessions s = v_sessions v).
    - eapply ends_pre; [|intros s [Hs _]; exact Hs].
      apply ends_bind with (fun _ => send_outcome auth t tu v p); [apply Hgive|].
      intros ?. apply ends_continue. auto. }
  intros addr.
  apply (ends_pure (match p_kind p with
                    | Control => addr = p_addr p
                    | Data => forwarding_addr (v_sessions v) (p_session_id p) auth tu = Some addr
                    end)); [by intros s []|]. intros Haddr.
  apply (ends_pre _ (fun w => sent_view w = sent_view v)); [|by intros s []].
  eapply ends_bind; [apply Hl, leaves_run; intros s s' r E; apply obind_inv in E as (? & _ & E);
                     by injection E as <- <-|].
  intros bytes. eapply ends_bind; [apply Hl; lsteps|]. intros [|]; cbn [negb]; [|apply Hgive].
  eapply ends_bind with (M := fun frame w => sent_view w = sent_view v /\ length frame = p_len p).
  { apply ends_lift. intros s frame Hs E. split; [exact Hs|]. apply slice_length in E. lia. }
  intros frame. apply (ends_bind _ _ _ (fun _ => send_outcome auth t tu v p)).
  - destruct ok.
    + apply ends_bind with (fun _ w => v_sent w = v_sent v ++ [(addr, frame)] /\ length frame = p_len p).
      * apply ends_mod. intros s [Hs Hf]. split; [|exact Hf]. cbn. by rewrite (f_equal fst Hs : v_sent s = _).
      * intros ?. apply ends_mod. intros s [Hs Hf]. right. exists addr, frame. split; [exact Hs|].
        split; [exact Hf|]. unfold should_drop_stale_queued_packet in Estale.
        destruct (p_kind p); [|exact Haddr]. split; [exact Haddr|]. cbn in Estale.
        by apply Z.ltb_ge in Estale.
    + apply ends_mod. intros s [Hs Hf]. left. exact (f_equal fst Hs).
  - intros ?. apply ends_mod. intros s Hs. exact Hs.
Qed.

Lemma tx_step_sends auth ok t tu mono v v' c :
  tx_step auth ok t tu mono v = Ret (v', c) ->
  v_sent v' = v_sent v
  \/ exists p addr frame, (tx_next v).2 = Some p /\ v_sent v' = v_sent v ++ [(addr, frame)]
       /\ proper_send auth t tu v p addr frame.
Proof.
  unfold tx_step, hbind, hrun. destruct (tx_next v) as [w r] eqn:En.
  assert (sent_view w = sent_view v) as Hw.
  { unfold tx_next in En. destruct (v_tx_control v); [destruct (v_tx_data v)|]; by injection En as <- <-. }
  destruct r as [p|]; intros E.
  - assert (send_outcome auth t tu v p v') as [Hs|(a & f & Hs)].
    { pose proof (send_tx_spec auth p ok t tu mono v w v' c Hw E). by destruct c. }
    + by left.
    + right. exists p, a, f. by split.
  - injection E as <- <-. left. exact (f_equal fst Hw).
Qed.

(* ------------------------------------------------------------------ *)
(** ** Theorems *)

Lemma authorised_current i sessions sid :
  authorised i sessions sid ->
  exists e, sessions !! sid = Some e /\ auth_state e = Authenticated
    /\ (exists exp, lease_expires_at_unix e = Some exp /\ now_unix i < exp)
    /\ client_addr e = from i.
Proof.
  intros (e & Es & Hc & Hsrc). exists e. split; [exact Es|]. unfold session_auth_is_current in Hc.
  apply andb_true_iff in Hc as [Hauth Hlease]. apply bool_decide_eq_true in Hauth.
  destruct (lease_expires_at_unix e) as [exp|]; [|discriminate]. apply Z.ltb_lt in Hlease. eauto 6.
Qed.

(** With authentication on, a datagram only leads to a packet for the
    internet (a message in a shard's inbox or a packet for the TUN device)
    when its session is in the table, authenticated with a lease that has not
    expired, and at the very address the datagram came from. *)
Theorem v2_forwards_only_authorised `{TicketCrypto} hash_one cfg i v v' c :
  auth_needed cfg = true -> rx_step hash_one cfg i v = Ret (v', c) ->
  handed_on v' <> handed_on v ->
  exists e, v_sessions v !! take SESSION_ID_LEN (buf i) = Some e
    /\ auth_state e = Authenticated
    /\ (exists exp, lease_expires_at_unix e = Some exp /\ now_unix i < exp)
    /\ client_addr e = from i.
Proof.
  intros Ha E Hne. apply authorised_current.
  pose proof (forwards_authorised hash_one cfg i v Ha v v' c eq_refl E) as Hq.
  destruct c, Hq as [Hq|Hq]; congruence || exact Hq.
Qed.

(** C8: ownership does not transfer.  With authentication on, one datagram
    either changes no session's account, lease or address, or it is a hello
    frame with a ticket that verifies for its own session id, and then only
    that session changes: it gets the ticket's account and lease and the
    sender's address, and if it was authenticated before, then as the same
    account. *)
Theorem v2_ownership_never_transfers `{TicketCrypto} hash_one cfg i v v' c :
  auth_needed cfg = true -> rx_step hash_one cfg i v = Ret (v', c) ->
  owners v' = owners v
  \/ exists token t, parse_auth_hello_token (buf i) (len i) = Ret (Ok token)
       /\ verify_relay_ticket token (take SESSION_ID_LEN (buf i)) (c_auth cfg) (now_unix i) = Ok t
       /\ (forall o, owners v !! take SESSION_ID_LEN (buf i) = Some o -> o_user o = t_user_id t)
       /\ owners v' = <[take SESSION_ID_LEN (buf i) := ticket_owner i t]> (owners v).
Proof.
  intros Ha E. pose proof (rx_owner_step hash_one cfg i v Ha v v' c eq_refl E) as Hq.
  destruct c; exact Hq.
Qed.

(** The turn that gave a session its owner. *)
Definition ticketed `{TicketCrypto} (cfg : Config) (l : list turn) (sid : list Z) (o : Owner) : Prop :=
  exists i token t, TurnRx i ∈ l /\ take SESSION_ID_LEN (buf i) = sid
    /\ parse_auth_hello_token (buf i) (len i) = Ret (Ok token)
    /\ verify_relay_ticket token sid (c_auth cfg) (now_unix i) = Ok t
    /\ o = ticket_owner i t.

Lemma turn_owners `{TicketCrypto} hash_one cfg a v v' sid o :
  auth_needed cfg = true -> v2_turn hash_one cfg v a = Ret v' ->
  owners v' !! sid = Some o -> owners v !! sid = Some o \/ ticketed cfg [a] sid o.
Proof.
  intros Ha E Ho. apply obind_inv in E as ([w c] & E & [= <-]).
  assert (leaves owners (turn_handler hash_one cfg a) -> owners v !! sid = Some o) as Hl.
  { intros Hl. by rewrite <- (Hl _ _ _ E). }
  destruct a; cbn [turn_handler] in *.
  - pose proof (rx_owner_step hash_one cfg i v Ha v w c eq_refl E) as Hq.
    assert (owner_step cfg i v w) as [Hs|(token & t & Hp & Hv & _ & Hs)] by (by destruct c).
    + left. by rewrite <- Hs.
    + rewrite Hs in Ho. apply lookup_insert_Some in Ho as [[<- <-]|[_ Ho]]; [|by left].
      right. exists i, token, t. repeat split; try assumption. by left.
  - left. apply Hl, owners_event.
  - left. apply Hl, owners_inbox.
  - left. apply Hl, owners_set_shard.
  - left. apply Hl, owners_tx.
  - left. eapply lookup_weaken; [exact Ho | exact (owns_less_step _ _ _ _ _ (owners_cleanup _ _ _ _) E)].
  - left. eapply lookup_weaken; [exact Ho | exact (owns_less_step _ _ _ _ _ (owners_close_begin _ _ _) E)].
  - left. apply Hl, owners_cleanup_finish.
  - left. apply Hl. by apply leaves_mod.
  - left. apply Hl, owners_tun_assign.
  - left. apply Hl, owners_tun_commit.
  - left. apply Hl, owners_tun_read.
  - left. apply Hl, owners_tun_resp.
  - left. apply Hl, owners_resolve.
  - left. apply Hl. by apply leaves_mod.
  - left. apply Hl. by apply leaves_mod.
Qed.

Lemma run_owners `{TicketCrypto} hash_one cfg l v v' sid o :
  auth_needed cfg = true -> v2_run hash_one cfg v l = Ret v' ->
  owners v' !! sid = Some o -> owners v !! sid = Some o \/ ticketed cfg l sid o.
Proof.
  intros Ha. revert v. induction l as [|a l IH]; intros v E Ho; [left; by injection E as ->|].
  cbn [v2_run] in E. apply obind_inv in E as (w & Ew & E).
  destruct (IH w E Ho) as [Hw|(i & token & t & Hin & Hr)].
  - destruct (turn_owners hash_one cfg a v w sid o Ha Ew Hw) as [Hv|(i & token & t & Hin & Hr)];
      [by left|].
    right. exists i, token, t. split; [|exact Hr]. apply list_elem_of_singleton in Hin as ->. by left.
  - right. exists i, token, t. split; [by right | exact Hr].
Qed.

(** The address data may go to now is one a ticket of this run was presented
    from, with a lease that is not over. *)
Definition ticket_holder `{TicketCrypto} (cfg : Config) (l : list turn) (sid : list Z) (tu : Z)
  (addr : SocketAddr) : Prop :=
  exists i token tk, TurnRx i ∈ l /\ take SESSION_ID_LEN (buf i) = sid
    /\ parse_auth_hello_token (buf i) (len i) = Ret (Ok token)
    /\ verify_relay_ticket token sid (c_auth cfg) (now_unix i) = Ok tk
    /\ addr = from i /\ t_lease tk = true /\ tu < t_exp tk.

Lemma owner_holds `{TicketCrypto} cfg l sid tu addr exp user :
  tu < exp -> ticketed cfg l sid (MkOwner user (Some exp) addr) -> ticket_holder cfg l sid tu addr.
Proof.
  intros Hlt (i & token & tk & Hin & Hsid & Hpar & Hver & Ho).
  exists i, token, tk. unfold ticket_owner in Ho. injection Ho as _ Hl Haddr.
  destruct (t_lease tk) eqn:El; [|discriminate]. injection Hl as ->. by repeat split.
Qed.

Lemma forwarding_ticketed `{TicketCrypto} hash_one cfg tuning policy budget tun t0 l v sid tu addr :
  auth_needed cfg = true ->
  v2_run hash_one cfg (v2_new tuning policy budget tun t0) l = Ret v ->
  forwarding_addr (v_sessions v) sid true tu = Some addr -> ticket_holder cfg l sid tu addr.
Proof.
  intros Ha Hrun Hfwd.
  destruct (forwarding_addr_inv _ _ _ _ _ Hfwd) as (e & Es & Ec & Hlease & Hauth).
  destruct (Hauth eq_refl) as [Hst [exp Hexp]].
  destruct (run_owners hash_one cfg l _ v sid (MkOwner (user_id e) (Some exp) addr) Ha Hrun)
    as [Hnone|Ht].
  - rewrite owners_lookup, Es. cbn. unfold owner. rewrite Hst, Hexp, Ec. reflexivity.
  - rewrite owners_lookup in Hnone. discriminate.
  - by eapply owner_holds; [apply Hlease|].
Qed.

Lemma sent_grows {A} (l : list A) x : l <> l ++ [x].
Proof. intros E. apply (f_equal length) in E. rewrite length_app in E. cbn in E. lia. Qed.

(** C7: who receives game data.  With authentication on, in every state a
    run reaches, a data frame the TX thread sends has waited at most 250 ms
    and goes to an address from which a hello frame of this run presented a
    ticket that verified for that session, and whose lease has not expired
    when the frame is sent. *)
Theorem v2_data_goes_to_ticket_holder `{TicketCrypto} hash_one cfg tuning policy budget tun t0
  (l : list turn) v ok t tu mono v' c p addr frame :
  auth_needed cfg = true ->
  v2_run hash_one cfg (v2_new tuning policy budget tun t0) l = Ret v ->
  tx_step true ok t tu mono v = Ret (v', c) ->
  (tx_next v).2 = Some p -> p_kind p = Data -> v_sent v' = v_sent v ++ [(addr, frame)] ->
  duration_since t (p_enqueued_at p) <= MAX_DATA_QUEUE_AGE
  /\ ticket_holder cfg l (p_session_id p) tu addr.
Proof.
  intros Ha Hrun E Hp Hk Hs.
  destruct (tx_step_sends _ _ _ _ _ _ _ _ E) as [Hn|(p' & a & f & Hp' & Hs' & Hf & Hprop)].
  { rewrite Hn in Hs. by apply sent_grows in Hs. }
  assert (p' = p) as -> by congruence. rewrite Hk in Hprop. destruct Hprop as [Hfwd Hage].
  split; [exact Hage|]. rewrite Hs in Hs'. apply app_inj_2 in Hs' as [_ [= <- <-]]; [|done].
  by eapply forwarding_ticketed.
Qed.

Lemma tun_resp_sends auth ok tu mono v v' c :
  tun_resp_turn auth ok tu mono v = Ret (v', c) ->
  v_sent v' = v_sent v
  \/ exists r addr, head (v_tun_resp v) = Some r
       /\ forwarding_addr (v_sessions v) (tx_session_id r) auth tu = Some addr
       /\ v_sent v' = v_sent v ++ [(addr, tx_session_id r ++ tx_ip_packet r)].
Proof.
  unfold tun_resp_turn. cbn. destruct (v_tun_resp v) as [|r rest] eqn:Er.
  { intros [= <- <-]. by left. }
  cbn. destruct (forwarding_addr _ _ _ _) as [addr|] eqn:Ef; [|intros [= <- <-]; by left].
  unfold hbind at 1. destruct (h_budget _ _ _ _ _) as [[w [okb|]]|] eqn:Eb; [| |discriminate].
  2: { intros [= <- <-]. left. exact (f_equal fst (sent_budget _ _ _ _ _ _ _ Eb)). }
  apply sent_budget in Eb. assert (v_sent w = v_sent v) as Hw by exact (f_equal fst Eb).
  destruct okb; cbn [negb]; [|intros [= <- <-]; by left].
  destruct ok; intros [= <- <-]; [right|by left].
  exists r, addr. cbn. rewrite Hw. by repeat split.
Qed.

(** Who receives packets from the TUN.  With authentication on, in every
    state a run reaches, whatever the response thread sends is a packet the
    TUN reader queued, prefixed with the id of the session it was queued for,
    to an address that presented a verified ticket for that session and
    whose lease has not expired. *)
Theorem v2_tun_data_goes_to_ticket_holder `{TicketCrypto} hash_one cfg tuning policy budget tun t0
  (l : list turn) v ok tu mono v' c addr frame :
  auth_needed cfg = true ->
  v2_run hash_one cfg (v2_new tuning policy budget tun t0) l = Ret v ->
  tun_resp_turn true ok tu mono v = Ret (v', c) -> v_sent v' = v_sent v ++ [(addr, frame)] ->
  exists r, head (v_tun_resp v) = Some r /\ frame = tx_session_id r ++ tx_ip_packet r
    /\ ticket_holder cfg l (tx_session_id r) tu addr.
Proof.
  intros Ha Hrun E Hs.
  destruct (tun_resp_sends _ _ _ _ _ _ _ E) as [Hn|(r & a & Hr & Hfwd & Hs')].
  { rewrite Hn in Hs. by apply sent_grows in Hs. }
  rewrite Hs in Hs'. apply app_inj_2 in Hs' as [_ [= -> ->]]; [|done].
  exists r. split; [exact Hr|]. split; [reflexivity|]. by eapply forwarding_ticketed.
Qed.

(* ------------------------------------------------------------------ *)
(** ** Witnesses *)

Section Witnesses.
#[local] Existing Instance toy_crypto.

Definition toy_cfg : Config := MkConfig toy_auth 4 4 None false false.
Definition toy_policy : DestPolicy := build Observe None [].
Definition toy_budget : Policy := MkBudgetPolicy false 1 1 1.
Definition toy_hash (ip : IpAddr) : Z := 0.
Definition toy_client : SocketAddr := SockV4 (ipv4_new 9 9 9 9) 4000.
Definition pad (l : list Z) : list Z := l ++ replicate (MAX_PACKET_SIZE - length l) 0.
Definition toy_rx (frame : list Z) (t : Z) : RxInput :=
  MkRx (pad frame) (length frame) toy_client t (1200 + t) t t.

(** An authenticated session and a keepalive from its address. *)
Definition toy_session : SessionEntry :=
  MkSession (lit "user-1") Authenticated (Some 1600) toy_client 1100 0 1100.
Definition toy_v2 : V2 :=
  MkV2 stats_new {[toy_sid := toy_session]} {[sock_ip toy_client := 1]} ∅ (limiter_new 0) cache_new
    [rate_new 0] (budgets_new toy_budget) toy_policy (pool_new 1) [] [] [shard_new] [] None [] [] [] [] [] None None.

Lemma v2_forwards_only_authorised_witness :
  exists e, v_sessions toy_v2 !! take SESSION_ID_LEN (buf (toy_rx toy_sid 5)) = Some e
    /\ auth_state e = Authenticated
    /\ (exists exp, lease_expires_at_unix e = Some exp /\ now_unix (toy_rx toy_sid 5) < exp)
    /\ client_addr e = from (toy_rx toy_sid 5).
Proof.
  destruct (rx_step toy_hash toy_cfg (toy_rx toy_sid 5) toy_v2) as [[v' c]|] eqn:E.
  - apply (v2_forwards_only_authorised toy_hash toy_cfg (toy_rx toy_sid 5) toy_v2 v' c eq_refl E).
    assert (v' = match rx_step toy_hash toy_cfg (toy_rx toy_sid 5) toy_v2 with
                 | Ret (w, _) => w | Panic => toy_v2 end) as -> by (by rewrite E).
    vm_compute. discriminate.
  - exfalso. revert E. vm_compute. discriminate.
Defined.

Definition toy_hello : list Z := toy_sid ++ [0xA1; 0; 66] ++ toy_token.

(** The state and the end of a handler that returns. *)
Definition after {A} (m : H A) (v : V2) : V2 :=
  match m v with Ret (w, _) => w | Panic => v end.

Lemma returned {A} (m : outcome A) (d : A) :
  match m with Ret _ => true | Panic => false end = true ->
  m = Ret (match m with Ret v => v | Panic => d end).
Proof. by destruct m. Qed.
Lemma ended (m : H unit) v :
  match m v with Ret (_, Next _) => true | _ => false end = true -> m v = Ret (after m v, Next tt).
Proof. unfold after. destruct (m v) as [[w [[]|]]|]; done. Qed.

Lemma v2_ownership_never_transfers_witness :
  owners (after (rx_step toy_hash toy_cfg (toy_rx toy_hello 5)) toy_v2) = owners toy_v2
  \/ exists token t,
       parse_auth_hello_token (buf (toy_rx toy_hello 5)) (len (toy_rx toy_hello 5)) = Ret (Ok token)
       /\ verify_relay_ticket token (take SESSION_ID_LEN (buf (toy_rx toy_hello 5)))
            (c_auth toy_cfg) (now_unix (toy_rx toy_hello 5)) = Ok t
       /\ (forall o, owners toy_v2 !! take SESSION_ID_LEN (buf (toy_rx toy_hello 5)) = Some o ->
            o_user o = t_user_id t)
       /\ owners (after (rx_step toy_hash toy_cfg (toy_rx toy_hello 5)) toy_v2)
          = <[take SESSION_ID_LEN (buf (toy_rx toy_hello 5)) := ticket_owner (toy_rx toy_hello 5) t]>
              (owners toy_v2).
Proof.
  unfold after. destruct (rx_step toy_hash toy_cfg (toy_rx toy_hello 5) toy_v2) as [[v' c]|] eqn:E.
  - exact (v2_ownership_never_transfers toy_hash toy_cfg (toy_rx toy_hello 5) toy_v2 v' c eq_refl E).
  - exfalso. revert E. vm_compute. discriminate.
Defined.

(** Hello, the ack, a packet for the game, and the game's answer. *)
Definition toy_turns : list turn :=
  [TurnRx (toy_rx toy_hello 0); TurnTx true 1 1201 1; TurnRx (toy_rx (toy_sid ++ sample_udp) 2);
   TurnInbox 0 true true SendOk 3; TurnEvent 0 1 [([7; 7], None, 4, 1204)]].
Definition toy_start : V2 := v2_new (MkTuning 1 4 4 4 0 0 0 0) toy_policy toy_budget true 0.
Definition toy_end : V2 :=
  match v2_run toy_hash toy_cfg toy_start toy_turns with Ret v => v | Panic => toy_start end.
Definition toy_data : TxPacket := MkTx toy_client toy_sid 2 38 4 Data.
Definition toy_frame : list Z :=
  match v_sent (after (tx_step true true 5 1205 5) toy_end) with _ :: (_, f) :: _ => f | _ => [] end.

Lemma v2_data_goes_to_ticket_holder_witness :
  duration_since 5 (p_enqueued_at toy_data) <= MAX_DATA_QUEUE_AGE
  /\ ticket_holder toy_cfg toy_turns (p_session_id toy_data) 1205 toy_client.
Proof.
  apply (v2_data_goes_to_ticket_holder toy_hash toy_cfg (MkTuning 1 4 4 4 0 0 0 0) toy_policy toy_budget true 0
    toy_turns toy_end true 5 1205 5 (after (tx_step true true 5 1205 5) toy_end) (Next tt)
    toy_data toy_client toy_frame).
  - reflexivity.
  - apply returned. vm_compute. reflexivity.
  - apply ended. vm_compute. reflexivity.
  - vm_compute. reflexivity.
  - reflexivity.
  - vm_compute. reflexivity.
Defined.

(** The same over the TUN: hello, a UDP packet for the TUN, the answer to the
    address the session got there. *)
Definition tun_cfg : Config := MkConfig toy_auth 4 4 (Some 4%nat) true false.
Definition tun_answer : list Z :=
  [0x45; 0; 0; 30; 0; 0; 0; 0; 64; 17; 0; 0; 128; 116; 1; 1; 10; 200; 1; 2;
   214; 216; 19; 136; 0; 10; 0; 0; 7; 7].
Definition tun_turns : list turn :=
  [TurnRx (toy_rx toy_hello 0); TurnRx (toy_rx (toy_sid ++ sample_udp) 2);
   TurnTunAssign; TurnTunCommit; TurnTunRead tun_answer].
Definition tun_end : V2 :=
  match v2_run toy_hash tun_cfg toy_start tun_turns with Ret v => v | Panic => toy_start end.
Definition tun_frame : list Z :=
  match v_sent (after (tun_resp_turn true true 1205 5) tun_end) with [(_, f)] => f | _ => [] end.

Lemma v2_tun_data_goes_to_ticket_holder_witness :
  tun_frame <> []
  /\ exists r, head (v_tun_resp tun_end) = Some r /\ tun_frame = tx_session_id r ++ tx_ip_packet r
    /\ ticket_holder tun_cfg tun_turns (tx_session_id r) 1205 toy_client.
Proof.
  split; [vm_compute; discriminate|].
  apply (v2_tun_data_goes_to_ticket_holder toy_hash tun_cfg (MkTuning 1 4 4 4 0 0 0 0) toy_policy
    toy_budget true 0 tun_turns tun_end true 1205 5 (after (tun_resp_turn true true 1205 5) tun_end)
    (Next tt) toy_client tun_frame).
  - reflexivity.
  - apply returned. vm_compute. reflexivity.
  - apply ended. vm_compute. reflexivity.
  - vm_compute. reflexivity.
Defined.

End Witnesses.
