(* ===== verification/V2Flows.v ===== *)
(** * Datapath v2: the flow tables of a shard

    A shard keeps its flows in three tables: the flows by key, the flows of a
    session by their game addresses, and the poller's tokens.  They are
    updated one after the other, by swap-removal and in folds; this file
    shows that they agree in every reachable state, that a token is only given to one
    flow, and that a session's flows are all in the shard its id selects. *)

From S2P Require Import Prelude Checksum Net Packet TunRewrite TunSession RustStr Tuning DestPolicy Stats Sessions RateLimit AccountBudget Auth Frames Handler V2State V2Rx V2Shard V2Tun V2Inv V2Safe V2Thms V2Auth.

(* ------------------------------------------------------------------ *)
(** ** Tokens *)

Lemma next_usize_range x : 0 <= x < 2 ^ 64 -> 1 <= next_usize x < 2 ^ 64.
Proof.
  intros Hx. unfold next_usize, u64. pose proof (Z.mod_pos_bound (x + 1) (2 ^ 64) ltac:(lia)).
  destruct (Z.eqb_spec ((x + 1) mod 2 ^ 64) 0); lia.
Qed.

(** Whatever the fuel, a token that is handed out is neither 0 nor in use. *)
Lemma probe_token_fresh fuel start next used n token :
  probe_token fuel start next used = (n, Some token) -> token <> 0 /\ used !! token = None.
Proof.
  revert next. induction fuel as [|fuel IH]; intros next; cbn [probe_token]; [discriminate|].
  destruct ((next =? 0) || bool_decide (is_Some (used !! next))) eqn:E.
  - destruct (_ =? start); [discriminate | apply IH].
  - intros [= <- <-]. apply orb_false_iff in E as [E1%Z.eqb_neq E2%bool_decide_eq_false].
    split; [exact E1 | by apply eq_None_not_Some].
Qed.
Lemma allocate_flow_token_fresh next used n token :
  allocate_flow_token next used = (n, Some token) -> token <> 0 /\ used !! token = None.
Proof. apply probe_token_fresh. Qed.

(** The counter after [k] steps, in the cycle of the non-zero values. *)
Definition cycle (start : Z) (k : nat) : Z := (start - 1 + Z.of_nat k) mod (2 ^ 64 - 1) + 1.

Lemma cycle_next start k : 1 <= start < 2 ^ 64 -> next_usize (cycle start k) = cycle start (S k).
Proof.
  intros Hs. unfold cycle, next_usize, u64.
  rewrite Nat2Z.inj_succ. replace (start - 1 + Z.succ (Z.of_nat k)) with ((start - 1 + Z.of_nat k) + 1) by lia.
  generalize (start - 1 + Z.of_nat k). intros a.
  rewrite <- (Z.add_mod_idemp_l a 1 (2 ^ 64 - 1)) by lia.
  pose proof (Z.mod_pos_bound a (2 ^ 64 - 1) ltac:(lia)) as Ha. revert Ha.
  generalize (a mod (2 ^ 64 - 1)). intros r Hr.
  destruct (Z.eq_dec r (2 ^ 64 - 2)) as [->|E]; [reflexivity|].
  rewrite (Z.mod_small (r + 1 + 1)), (Z.mod_small (r + 1)) by lia.
  destruct (Z.eqb_spec (r + 1 + 1) 0); lia.
Qed.

Lemma cycle_start start : 1 <= start < 2 ^ 64 -> cycle start 0 = start.
Proof. intros Hs. unfold cycle. rewrite Z.mod_small; lia. Qed.
Lemma cycle_pos start k : 1 <= cycle start k < 2 ^ 64.
Proof. unfold cycle. pose proof (Z.mod_pos_bound (start - 1 + Z.of_nat k) (2 ^ 64 - 1) ltac:(lia)). lia. Qed.
Lemma cycle_inj start j k :
  Z.of_nat j < 2 ^ 64 - 1 -> Z.of_nat k < 2 ^ 64 - 1 -> cycle start j = cycle start k -> j = k.
Proof.
  intros Hj Hk E. unfold cycle in E. apply Z.add_cancel_r in E.
  pose proof (Z.div_mod (start - 1 + Z.of_nat j) (2 ^ 64 - 1) ltac:(lia)) as Dj.
  pose proof (Z.div_mod (start - 1 + Z.of_nat k) (2 ^ 64 - 1) ltac:(lia)) as Dk.
  rewrite E in Dj. revert Dj Dk. generalize ((start - 1 + Z.of_nat k) mod (2 ^ 64 - 1)).
  generalize ((start - 1 + Z.of_nat j) / (2 ^ 64 - 1)). generalize ((start - 1 + Z.of_nat k) / (2 ^ 64 - 1)).
  clear E. intros q1 q2 r Dj Dk. assert (q1 = q2) by lia. lia.
Qed.

(** Among the first [size used + 1] values of the cycle one is free. *)
Lemma free_in_cycle start (used : gmap Z FlowKey) :
  Z.of_nat (size used) < 2 ^ 64 - 1 ->
  exists k, (k <= size used)%nat /\ used !! cycle start k = None.
Proof.
  intros Hu. destruct (decide (Exists (fun k => used !! cycle start k = None) (seq 0 (size used + 1))))
    as [He|He].
  - apply list.Exists_exists in He as (k & Hk & E). apply elem_of_seq in Hk. exists k. split; [lia | exact E].
  - exfalso. assert (length (cycle start <$> seq 0 (size used + 1)) <= size (dom used))%nat as Hl.
    { rewrite <- (size_list_to_set (C := gset Z) (cycle start <$> seq 0 (size used + 1))).
      - apply subseteq_size. intros x Hx. apply elem_of_list_to_set, list_elem_of_fmap in Hx as (k & -> & Hk).
        apply elem_of_dom. apply not_eq_None_Some. intros E. apply He, list.Exists_exists. eauto.
      - apply NoDup_fmap_2_strong; [|apply NoDup_seq]. intros j k Hj%elem_of_seq Hk%elem_of_seq.
        apply cycle_inj; lia. }
    rewrite length_fmap, length_seq, size_dom in Hl. lia.
Qed.

(** The loop walks the cycle and stops at the first free value. *)
Lemma probe_token_walks start (used : gmap Z FlowKey) k fuel :
  1 <= start < 2 ^ 64 -> Z.of_nat k < 2 ^ 64 - 1 -> used !! cycle start k = None ->
  (forall j, (j < k)%nat -> is_Some (used !! cycle start j)) ->
  forall j, (j <= k)%nat -> (k - j < fuel)%nat ->
  probe_token fuel start (cycle start j) used = (cycle start (S k), Some (cycle start k)).
Proof.
  intros Hs Hk Hfree Hused. induction fuel as [|fuel IH]; intros j Hj Hf; [lia|].
  cbn [probe_token]. pose proof (cycle_pos start j). rewrite (proj2 (Z.eqb_neq (cycle start j) 0)) by lia.
  cbn [orb]. rewrite cycle_next by done. case_bool_decide as Hu.
  - assert (j <> k) by (intros ->; destruct Hu; congruence).
    destruct (Z.eqb_spec (cycle start (S j)) start) as [E|_]; [|apply IH; lia].
    rewrite <- (cycle_start start Hs) in E at 2. apply cycle_inj in E; lia.
  - destruct (Nat.eq_dec j k) as [->|Hne]; [done|]. destruct Hu. apply Hused. lia.
Qed.

(** C38: allocating a token ends.  The loop that looks for a free poller token
    stops after at most one probe more than there are tokens in use, from any
    position of the counter (also across its wrap-around past 2^64 - 1 and
    with the counter at the reserved 0), and finds a token that is not 0, not
    in use and within the width; more fuel does not change the result. *)
Theorem flow_token_found (next : Z) (used : gmap Z FlowKey) :
  0 <= next < 2 ^ 64 -> Z.of_nat (size used) < 2 ^ 64 - 1 ->
  exists next' token,
    (forall fuel, (size used < fuel)%nat ->
       let start := if next =? 0 then 1 else next in
       probe_token fuel start start used = (next', Some token))
    /\ allocate_flow_token next used = (next', Some token)
    /\ 1 <= token < 2 ^ 64 /\ used !! token = None /\ 1 <= next' < 2 ^ 64.
Proof.
  intros Hn Hu. set (start := if next =? 0 then 1 else next).
  assert (1 <= start < 2 ^ 64) as Hs by (unfold start; destruct (Z.eqb_spec next 0); lia).
  destruct (free_in_cycle start used Hu) as (k0 & Hk0 & E0).
  destruct (dec_inh_nat_subset_has_unique_least_element (fun k => used !! cycle start k = None)) as (k & [E Hmin] & _).
  { intros k. destruct (used !! cycle start k); [by right | by left]. }
  { by exists k0. }
  assert (k <= size used)%nat as Hk by (specialize (Hmin k0 E0); lia).
  assert (forall fuel, (size used < fuel)%nat ->
            probe_token fuel start start used = (cycle start (S k), Some (cycle start k))) as Hp.
  { intros fuel Hf. rewrite <- (cycle_start start Hs) at 2.
    apply probe_token_walks; try lia; [exact E|]. intros j Hj. apply not_eq_None_Some. intros Ej.
    specialize (Hmin j Ej). lia. }
  exists (cycle start (S k)), (cycle start k). split; [exact Hp|].
  split; [apply Hp; lia|]. split; [apply cycle_pos|]. split; [exact E | apply cycle_pos].
Qed.

(* ------------------------------------------------------------------ *)
(** ** The three tables *)

Definition flows_of (index : gmap (list Z) (list SocketAddr)) (sid : list Z) : list SocketAddr :=
  default [] (index !! sid).

(** The tables agree: a token names the flow that holds it, the index of a
    session lists its flows without repetition and within the limit. *)
Record tables (flows : gmap FlowKey FlowState) (index : gmap (list Z) (list SocketAddr))
  (tokens : gmap Z FlowKey) : Prop := {
  t_tokens : forall t key, tokens !! t = Some key <-> exists f, flows !! key = Some f /\ f_token f = t;
  t_index : forall sid a, a ∈ flows_of index sid <-> is_Some (flows !! MkKey sid a);
  t_nodup : forall sid, NoDup (flows_of index sid);
  t_limit : forall sid, Z.of_nat (length (flows_of index sid)) <= MAX_FLOWS_PER_SESSION;
  t_nonzero : forall key f, flows !! key = Some f -> f_token f <> 0;
}.
Definition tables_ok (sh : Shard) : Prop := tables (sh_flows sh) (session_flows sh) (token_to_flow sh).

Lemma tables_empty : tables ∅ ∅ ∅.
Proof.
  constructor; unfold flows_of; intros *; rewrite ?lookup_empty; cbn.
  - split; [discriminate | by intros (f & Hf & _)].
  - split; [by intros ?%elem_of_nil | by intros []].
  - constructor.
  - unfold MAX_FLOWS_PER_SESSION. lia.
  - discriminate.
Qed.

(** The poller's tokens and the flows are in bijection: no two flows share
    one. *)
Lemma tables_token_inj flows index tokens k1 k2 f1 f2 :
  tables flows index tokens -> flows !! k1 = Some f1 -> flows !! k2 = Some f2 ->
  f_token f1 = f_token f2 -> k1 = k2.
Proof.
  intros Ht E1 E2 E. pose proof (proj2 (t_tokens _ _ _ Ht (f_token f1) k1) ltac:(eauto)).
  pose proof (proj2 (t_tokens _ _ _ Ht (f_token f1) k2) ltac:(eauto)). congruence.
Qed.

(** Changing flows without changing which there are and their tokens. *)
Lemma tables_retag flows flows' index tokens :
  tables flows index tokens -> (forall key, f_token <$> flows' !! key = f_token <$> flows !! key) ->
  tables flows' index tokens.
Proof.
  intros [H1 H2 H3 H4 H5] E.
  assert (forall key t, (exists f, flows' !! key = Some f /\ f_token f = t)
            <-> (exists f, flows !! key = Some f /\ f_token f = t)) as Hf.
  { intros key t. specialize (E key).
    destruct (flows' !! key) as [f'|], (flows !! key) as [f|]; cbn in E; try discriminate.
    - injection E as E. split; intros (? & [= <-] & <-); eexists; split; eauto.
    - split; by intros (? & ? & _). }
  constructor; [|..]; try assumption.
  - intros t key. by rewrite Hf.
  - intros sid a. rewrite H2. specialize (E (MkKey sid a)).
    destruct (flows' !! _), (flows !! _); try discriminate; [|done]. split; eauto.
  - intros key f' Hk. destruct (proj1 (Hf key (f_token f'))) as (f & Ef & <-); [eauto|]. eauto.
Qed.

Lemma tables_index flows index index' tokens :
  (forall sid, flows_of index' sid = flows_of index sid) ->
  tables flows index tokens -> tables flows index' tokens.
Proof. intros E [H1 H2 H3 H4 H5]. constructor; try assumption; intros *; rewrite E; auto. Qed.

(** A new flow under a free token. *)
Lemma tables_insert flows index tokens key f :
  tables flows index tokens -> flows !! key = None -> tokens !! f_token f = None -> f_token f <> 0 ->
  Z.of_nat (length (flows_of index (k_session_id key))) < MAX_FLOWS_PER_SESSION ->
  tables (<[key := f]> flows)
    (<[k_session_id key := flows_of index (k_session_id key) ++ [k_game_addr key]]> index)
    (<[f_token f := key]> tokens).
Proof.
  intros [H1 H2 H3 H4 H5] Hk Ht Hz Hl. destruct key as [sid0 a0]. cbn [k_session_id k_game_addr] in *.
  assert (a0 ∉ flows_of index sid0) as Hnew by (rewrite H2, Hk; by intros []).
  assert (forall sid, flows_of (<[sid0 := flows_of index sid0 ++ [a0]]> index) sid
            = if decide (sid = sid0) then flows_of index sid0 ++ [a0] else flows_of index sid) as Hof.
  { intros sid. unfold flows_of at 1. destruct (decide (sid = sid0)) as [->|].
    - by rewrite lookup_insert_eq.
    - by rewrite lookup_insert_ne. }
  constructor.
  - intros t key. rewrite lookup_insert_Some. split.
    + intros [[<- <-]|[Hne E]]; [exists f; by rewrite lookup_insert_eq|].
      apply H1 in E as (f' & E & <-). exists f'. rewrite lookup_insert_ne by congruence. done.
    + intros (f' & [[<- <-]|[Hne E]]%lookup_insert_Some & <-); [by left|]. right.
      assert (tokens !! f_token f' = Some key) as Et by (apply H1; eauto). split; congruence.
  - intros sid a. rewrite Hof. destruct (decide (sid = sid0)) as [->|Hs].
    + rewrite elem_of_app, H2, list_elem_of_singleton. destruct (decide (a = a0)) as [->|Ha].
      * rewrite lookup_insert_eq. split; eauto.
      * rewrite lookup_insert_ne by congruence. tauto.
    + rewrite H2, lookup_insert_ne by congruence. done.
  - intros sid. rewrite Hof. destruct (decide (sid = sid0)) as [->|Hs]; [|apply H3].
    apply list.NoDup_app. split; [apply H3|]. split; [|apply NoDup_singleton].
    intros x Hx ->%list_elem_of_singleton. contradiction.
  - intros sid. rewrite Hof. destruct (decide (sid = sid0)) as [->|Hs]; [|apply H4].
    rewrite length_app. cbn [length]. lia.
  - intros key f' [[_ <-]|[_ E]]%lookup_insert_Some; eauto.
Qed.

(** Taking one flow out of the three tables. *)
Lemma tables_remove flows index index' tokens key f :
  tables flows index tokens -> flows !! key = Some f ->
  (forall sid, sid <> k_session_id key -> flows_of index' sid = flows_of index sid) ->
  k_game_addr key :: flows_of index' (k_session_id key) ≡ₚ flows_of index (k_session_id key) ->
  tables (delete key flows) index' (delete (f_token f) tokens).
Proof.
  intros Ht Hk Hother Hperm. pose proof Ht as [H1 H2 H3 H4 H5].
  destruct key as [sid0 a0]. cbn [k_session_id k_game_addr] in *.
  pose proof (H3 sid0) as Hnd. rewrite <- Hperm in Hnd. apply list.NoDup_cons in Hnd as [Hout Hnd].
  constructor.
  - intros t key. rewrite lookup_delete_Some, H1. split.
    + intros (Hne & f' & E & <-). exists f'. rewrite lookup_delete_ne by congruence. done.
    + intros (f' & [Hne E]%lookup_delete_Some & <-). split; [|eauto]. intros Heq.
      by rewrite (tables_token_inj _ _ _ _ _ _ _ Ht Hk E Heq) in Hne.
  - intros sid a. destruct (decide (sid = sid0)) as [->|Hs].
    + destruct (decide (a = a0)) as [->|Ha].
      * rewrite lookup_delete_eq. split; [intros; contradiction | by intros []].
      * rewrite lookup_delete_ne, <- H2, <- Hperm by congruence. rewrite elem_of_cons. tauto.
    + rewrite Hother, H2, lookup_delete_ne by congruence. done.
  - intros sid. destruct (decide (sid = sid0)) as [->|Hs]; [exact Hnd | rewrite Hother by done; apply H3].
  - intros sid. destruct (decide (sid = sid0)) as [->|Hs]; [|rewrite Hother by done; apply H4].
    pose proof (H4 sid0) as Hl. rewrite <- Hperm in Hl. cbn [length] in Hl. lia.
  - intros key f' [_ E]%lookup_delete_Some. eauto.
Qed.

(** [swap_remove] takes out the element at its position. *)
Lemma swap_remove_perm {A} (l : list A) pos x :
  l !! pos = Some x -> x :: swap_remove l pos ≡ₚ l.
Proof.
  intros Hx. destruct (exists_last (l := l)) as (l' & y & ->); [by intros ->|].
  unfold swap_remove. rewrite map_app. cbn [List.map]. rewrite last_last, length_app. cbn [length].
  rewrite Nat.add_sub. destruct (Nat.lt_ge_cases pos (length l')) as [Hp|Hp].
  - rewrite insert_app_l by done. rewrite take_app_le, take_ge by (rewrite length_insert; lia).
    rewrite lookup_app_l in Hx by done.
    rewrite <- (take_drop_middle l' pos x Hx) at 2.
    rewrite insert_take_drop by done.
    rewrite <- (Permutation_cons_append _ y). rewrite <- !Permutation_middle. apply Permutation_swap.
  - rewrite lookup_app_r in Hx by done. destruct (pos - length l')%nat as [|n] eqn:E; [|by destruct n].
    injection Hx as ->. replace pos with (length l' + 0)%nat by lia.
    rewrite insert_app_r. cbn. rewrite take_app_length. apply Permutation_cons_append.
Qed.

Lemma remove_from_index (index : gmap (list Z) (list SocketAddr)) key :
  k_game_addr key ∈ flows_of index (k_session_id key) ->
  (forall sid, sid <> k_session_id key ->
     flows_of (remove_flow_from_session_index index key) sid = flows_of index sid)
  /\ k_game_addr key :: flows_of (remove_flow_from_session_index index key) (k_session_id key)
     ≡ₚ flows_of index (k_session_id key).
Proof.
  unfold remove_flow_from_session_index, flows_of. intros Hin.
  destruct (index !! k_session_id key) as [l|] eqn:El; cbn in *; [|by apply elem_of_nil in Hin].
  destruct (list_find_elem_of (fun a => a = k_game_addr key) l _ Hin eq_refl) as [[pos x] Hf].
  rewrite Hf. apply list_find_Some in Hf as (Hpos & -> & _). pose proof (swap_remove_perm l pos _ Hpos) as Hp.
  destruct (Nat.eqb_spec (length (swap_remove l pos)) 0) as [E|E].
  - apply nil_length_inv in E. rewrite E in Hp. split.
    + intros sid Hs. by rewrite lookup_delete_ne.
    + rewrite lookup_delete_eq. exact Hp.
  - split.
    + intros sid Hs. by rewrite lookup_insert_ne.
    + rewrite lookup_insert_eq. exact Hp.
Qed.

(** Removing a whole session: its entry of the index first, then flow by
    flow. *)
Lemma remove_all_flows sid l (sh : Shard) index :
  tables (sh_flows sh) (<[sid := l]> index) (token_to_flow sh) ->
  let sh' := fold_left (remove_one sid) l sh in
  tables (sh_flows sh') (delete sid index) (token_to_flow sh')
  /\ session_flows sh' = session_flows sh /\ sh_flows sh' ⊆ sh_flows sh.
Proof.
  revert sh. induction l as [|a l IH]; intros sh Ht; cbn [fold_left].
  - split; [|done]. revert Ht. apply tables_index. intros s. unfold flows_of.
    destruct (decide (s = sid)) as [->|Hs].
    + by rewrite lookup_delete_eq, lookup_insert_eq.
    + by rewrite lookup_delete_ne, lookup_insert_ne.
  - destruct (proj1 (t_index _ _ _ Ht sid a)) as [f Ef].
    { unfold flows_of. rewrite lookup_insert_eq. by left. }
    assert (remove_one sid sh a
      = sh <| sh_flows ::= delete (MkKey sid a) |> <| token_to_flow ::= delete (f_token f) |>) as Er
      by (unfold remove_one; by rewrite Ef).
    rewrite Er. destruct (IH (sh <| sh_flows ::= delete (MkKey sid a) |>
      <| token_to_flow ::= delete (f_token f) |>)) as (H1 & H2 & H3).
    + refine (tables_remove _ _ (<[sid := l]> index) _ (MkKey sid a) f Ht Ef _ _); cbn.
      * intros s Hs. unfold flows_of. by rewrite !lookup_insert_ne.
      * unfold flows_of. by rewrite !lookup_insert_eq.
    + split; [exact H1|]. split; [exact H2|]. etransitivity; [exact H3 | apply delete_subseteq].
Qed.

Definition drop_session (sid : list Z) (sh : Shard) : Shard :=
  match session_flows sh !! sid with
  | None => sh
  | Some l => fold_left (remove_one sid) l (sh <| session_flows ::= delete sid |>)
  end.

Lemma remove_session_tables sid (sh : Shard) :
  tables_ok sh ->
  tables_ok (drop_session sid sh).
Proof.
  intros Ht. unfold drop_session. destruct (session_flows sh !! sid) as [l|] eqn:El; [|exact Ht].
  destruct (remove_all_flows sid l (sh <| session_flows ::= delete sid |>) (session_flows sh)) as (H1 & H2 & _).
  - cbn. rewrite insert_id by done. exact Ht.
  - unfold tables_ok. rewrite H2. exact H1.
Qed.

Lemma drop_session_complete sid a (sh : Shard) :
  tables_ok sh -> sh_flows (drop_session sid sh) !! MkKey sid a = None.
Proof.
  intros Ht. apply eq_None_not_Some. unfold drop_session.
  destruct (session_flows sh !! sid) as [l|] eqn:El.
  - destruct (remove_all_flows sid l (sh <| session_flows ::= delete sid |>) (session_flows sh)) as (H1 & _ & _).
    + cbn. rewrite insert_id by done. exact Ht.
    + rewrite <- (t_index _ _ _ H1). unfold flows_of. rewrite lookup_delete_eq. by intros ?%elem_of_nil.
  - rewrite <- (t_index _ _ _ Ht). unfold flows_of. rewrite El. by intros ?%elem_of_nil.
Qed.

(** The cleanup takes the flows out of the table first and then their tokens
    and index entries, one by one. *)
Definition forget (sh : Shard) (kv : FlowKey * FlowState) : Shard :=
  sh <| token_to_flow ::= delete (f_token kv.2) |>
     <| session_flows ::= fun m => remove_flow_from_session_index m kv.1 |>.

Lemma forget_keeps l (sh : Shard) :
  inbox (fold_left forget l sh) = inbox sh /\ sh_flows (fold_left forget l sh) = sh_flows sh.
Proof.
  revert sh. induction l as [|kv l IH]; intros sh; [done|]. cbn [fold_left].
  by destruct (IH (forget sh kv)) as [-> ->].
Qed.

(** The cleanup is [cleanup_flow] on every flow. *)
Definition cleaned (t : Z) (sh : Shard) : Shard :=
  let sh' := fold_left forget (map_to_list (filter (fun kv => cleanup_flow t kv.2 = None) (sh_flows sh)))
               (sh <| sh_flows ::= omap (cleanup_flow t) |>) in
  sh' <| flow_count := Z.of_nat (size (sh_flows sh')) |>.

Lemma cleaned_flows t sh key : sh_flows (cleaned t sh) !! key = sh_flows sh !! key ≫= cleanup_flow t.
Proof.
  unfold cleaned. cbn [sh_flows]. change (sh_flows (?x <| flow_count := _ |>)) with (sh_flows x).
  rewrite (proj2 (forget_keeps _ _)). apply lookup_omap.
Qed.

Lemma cleaned_inbox t sh : inbox (cleaned t sh) = inbox sh.
Proof. exact (proj1 (forget_keeps _ (sh <| sh_flows ::= omap (cleanup_flow t) |>))). Qed.

Lemma forget_all l (sh : Shard) (flows : gmap FlowKey FlowState) :
  tables flows (session_flows sh) (token_to_flow sh) -> NoDup l.*1 ->
  (forall kv, kv ∈ l -> flows !! kv.1 = Some kv.2) ->
  let sh' := fold_left forget l sh in
  tables (fold_left (fun m kv => delete kv.1 m) l flows) (session_flows sh') (token_to_flow sh')
  /\ sh_flows sh' = sh_flows sh /\ inbox sh' = inbox sh.
Proof.
  revert sh flows. induction l as [|[key f] l IH]; intros sh flows Ht Hn Hin; cbn [fold_left]; [done|].
  cbn in Hn. apply list.NoDup_cons in Hn as [Hout Hn].
  pose proof (Hin (key, f) ltac:(by left)) as Ef. cbn in Ef.
  destruct (remove_from_index (session_flows sh) key) as [Ho Hp].
  { apply (t_index _ _ _ Ht). exists f. by destruct key. }
  destruct (IH (forget sh (key, f)) (delete key flows)) as (H1 & H2 & H3).
  - exact (tables_remove _ _ _ _ _ _ Ht Ef Ho Hp).
  - exact Hn.
  - intros [k2 f2] Hk. rewrite lookup_delete_ne; [apply Hin; by right|].
    intros ->. apply Hout. apply list_elem_of_fmap. by exists (k2, f2).
  - split; [exact H1|]. by split.
Qed.

Lemma cleanup_flow_token t f f' : cleanup_flow t f = Some f' -> f_token f' = f_token f.
Proof. unfold cleanup_flow. intros E. repeat case_match; simplify_eq/=; done. Qed.

Lemma forget_lookup (l : list (FlowKey * FlowState)) (m : gmap FlowKey FlowState) key :
  fold_left (fun m kv => delete kv.1 m) l m !! key = if decide (key ∈ l.*1) then None else m !! key.
Proof.
  revert m. induction l as [|[k f] l IH]; intros m; cbn [fold_left]; [done|]. rewrite IH. cbn.
  destruct (decide (key ∈ l.*1)) as [Hin|Hin].
  - by rewrite decide_True by (by right).
  - destruct (decide (key = k)) as [->|Hk].
    + rewrite decide_True by (by left). apply lookup_delete_eq.
    + rewrite decide_False by (intros [?|?]%elem_of_cons; contradiction). by rewrite lookup_delete_ne.
Qed.

Lemma cleanup_tables t (sh : Shard) :
  tables_ok sh ->
  let sh' := fold_left forget (map_to_list (filter (fun kv => cleanup_flow t kv.2 = None) (sh_flows sh)))
               (sh <| sh_flows ::= omap (cleanup_flow t) |>) in
  tables_ok sh' /\ sh_flows sh' = omap (cleanup_flow t) (sh_flows sh) /\ inbox sh' = inbox sh.
Proof.
  intros Ht. set (removed := filter _ (sh_flows sh)).
  destruct (forget_all (map_to_list removed) (sh <| sh_flows ::= omap (cleanup_flow t) |>) (sh_flows sh))
    as (H1 & H2 & H3).
  - exact Ht.
  - apply NoDup_fst_map_to_list.
  - intros [key f] [E _]%elem_of_map_to_list%map_lookup_filter_Some. exact E.
  - split; [|by split]. unfold tables_ok. rewrite H2. eapply tables_retag; [exact H1|]. intros key.
    change (sh_flows (sh <| sh_flows ::= omap (cleanup_flow t) |>)) with (omap (cleanup_flow t) (sh_flows sh)).
    rewrite forget_lookup, lookup_omap.
    destruct (decide (key ∈ (map_to_list removed).*1)) as [Hin|Hin].
    + apply list_elem_of_fmap in Hin as ([k f] & -> & E%elem_of_map_to_list). cbn.
      apply map_lookup_filter_Some in E as [-> E]. cbn in *. by rewrite E.
    + destruct (sh_flows sh !! key) as [f|] eqn:Ef; [cbn|done].
      destruct (cleanup_flow t f) as [f'|] eqn:Ec; cbn; [by rewrite (cleanup_flow_token _ _ _ Ec)|].
      exfalso. apply Hin. apply list_elem_of_fmap. exists (key, f). split; [done|].
      apply elem_of_map_to_list, map_lookup_filter_Some. by split.
Qed.

(* ------------------------------------------------------------------ *)
(** ** The shard of a session *)

Definition msg_session (m : ShardMsg) : list Z :=
  match m with
  | ClientPacket sid _ _ _ _ _ _ | Keepalive sid _ | RemoveSession sid => sid
  end.

(** Shard [k] of [n] only has messages and flows of its own sessions. *)
Definition placed (n k : nat) (sh : Shard) : Prop :=
  Forall (fun m => shard_for_session (msg_session m) n = Ret k) (inbox sh)
  /\ forall key f, sh_flows sh !! key = Some f -> shard_for_session (k_session_id key) n = Ret k.

Definition fine_shards (l : list Shard) : Prop :=
  forall k sh, l !! k = Some sh -> tables_ok sh /\ placed (length l) k sh.
Definition fine (v : V2) : Prop := fine_shards (v_shards v).

Lemma placed_shrink n k sh sh' :
  inbox sh' = inbox sh -> (forall key, is_Some (sh_flows sh' !! key) -> is_Some (sh_flows sh !! key)) ->
  placed n k sh -> placed n k sh'.
Proof.
  intros E1 E2 [H1 H2]. split; [by rewrite E1|]. intros key f E. destruct (E2 key) as [f' E']; eauto.
Qed.

(** Updates of one shard. *)
Lemma fine_alter l k f :
  fine_shards l ->
  (forall sh, l !! k = Some sh -> tables_ok sh -> placed (length l) k sh ->
     tables_ok (f sh) /\ placed (length l) k (f sh)) ->
  fine_shards (alter f k l).
Proof.
  intros Hl Hf j sh E. rewrite length_alter. destruct (decide (j = k)) as [->|Hj].
  - rewrite list_lookup_alter_eq in E. destruct (l !! k) as [sh0|] eqn:E0; [|discriminate].
    injection E as <-. destruct (Hl k sh0 E0). by apply Hf.
  - rewrite list_lookup_alter_ne in E by done. by apply Hl.
Qed.

Lemma fine_set_shard k f :
  (forall n sh, tables_ok sh -> placed n k sh -> tables_ok (f sh) /\ placed n k (f sh)) ->
  stays fine (h_set_shard k f).
Proof. intros Hf. apply stays_mod. intros v Hv. apply fine_alter; [exact Hv | intros; by apply Hf]. Qed.

Lemma fine_leaves {A} (m : H A) : leaves v_shards m -> stays fine m.
Proof. apply (stays_leaves v_shards fine_shards). Qed.

(** A message goes to the shard of its session. *)
Lemma fine_post cfg sid msg : msg_session msg = sid -> stays fine (h_post cfg sid msg).
Proof.
  intros Hm. apply ends_run. intros s s' a Hs E.
  destruct (shard_for_session sid (length (v_shards s))) as [k|] eqn:Ek; [|discriminate]. cbn [obind] in E.
  destruct (v_shards s !! k) as [sh|] eqn:Es; [|by injection E as <- <-].
  unfold try_send in E. destruct (_ <? _)%nat; [|by injection E as <- <-]. injection E as <- <-.
  unfold fine. cbn. intros j sh' Ej. rewrite length_insert.
  apply list_lookup_insert_Some in Ej as [(-> & <- & _)|[_ Ej]]; [|by apply Hs].
  destruct (Hs j sh Es) as [Ht [Hp1 Hp2]]. split; [exact Ht|]. split; [|exact Hp2].
  cbn. apply Forall_app_2; [exact Hp1|]. apply list.Forall_singleton. by rewrite Hm.
Qed.

(* ------------------------------------------------------------------ *)
(** ** The threads *)

(** What does not touch the shards. *)
Lemma shards_stat f : leaves v_shards (stat f).
Proof. by apply leaves_mod. Qed.
Lemma shards_drop_in r : leaves v_shards (h_drop_in r).
Proof. apply shards_stat. Qed.
Lemma shards_drop_out r : leaves v_shards (h_drop_out r).
Proof. apply shards_stat. Qed.
Lemma shards_exhausted : leaves v_shards h_pool_exhausted.
Proof. apply shards_stat. Qed.
Lemma shards_release i : leaves v_shards (h_release i).
Proof. by apply leaves_mod. Qed.
Lemma shards_acquire : leaves v_shards h_acquire.
Proof.
  apply leaves_run. intros s s' a E. destruct (try_acquire (v_pool s)). by injection E as <- <-.
Qed.
Lemma shards_fill i b : leaves v_shards (h_fill i b).
Proof. apply leaves_run. intros s s' a E. do 3 (apply obind_inv in E as (? & _ & E)). by injection E as <- <-. Qed.
Lemma shards_queue_tx cfg p : leaves v_shards (h_queue_tx cfg p).
Proof.
  apply leaves_run. intros s s' a E. destruct (p_kind p), (try_send _ _ p); by injection E as <- <-.
Qed.
Lemma shards_budget sid out p mono : leaves v_shards (h_budget sid out p mono).
Proof. apply leaves_run. intros s s' r E. apply obind_inv in E as ([q x] & _ & E). by injection E as <- <-. Qed.
Lemma shards_parse p : leaves v_shards (h_parse p).
Proof. apply leaves_run. intros s s' r E. apply obind_inv in E as ([q x] & _ & E). by injection E as <- <-. Qed.
#[local] Hint Resolve shards_stat shards_drop_in shards_drop_out shards_exhausted shards_release
  shards_acquire shards_fill shards_queue_tx shards_budget shards_parse : handler.
#[local] Hint Resolve fine_leaves fine_post : handler.
#[local] Hint Extern 3 (leaves _ (hmod _)) => apply leaves_mod; by intros ? : handler.
#[local] Hint Extern 3 (leaves _ (hget _)) => apply leaves_get : handler.
#[local] Hint Extern 3 (leaves _ (hlift _)) => apply leaves_lift : handler.

Section Rx.
Context `{TicketCrypto} (hash_one : IpAddr -> Z) (cfg : Config) (i : RxInput).

Lemma shards_control_frame a sid ft st t : leaves v_shards (send_small_control_frame cfg a sid ft st t).
Proof. unfold send_small_control_frame. lsteps. Qed.
Lemma shards_ack sid st : leaves v_shards (h_ack cfg i sid st).
Proof. apply shards_control_frame. Qed.
Lemma shards_pending : leaves v_shards (h_pending hash_one i).
Proof. apply leaves_run. intros s s' a E. apply obind_inv in E as ([b r] & _ & E). by injection E as <- <-. Qed.
Lemma shards_source_event k : leaves v_shards (h_source_event i k).
Proof.
  apply leaves_run. intros s s' a E. destruct (allow_source_event _ _ _ _ _) as [[l st] r].
  by injection E as <- <-.
Qed.
Lemma shards_verify_once sid token : leaves v_shards (h_verify_once cfg i sid token).
Proof.
  apply leaves_run. intros s s' a E. destruct (verify_relay_ticket_once _ _ _ _ _). by injection E as <- <-.
Qed.
Hint Resolve shards_control_frame shards_ack shards_pending shards_source_event shards_verify_once : handler.

Lemma shards_ticket sid b : leaves v_shards (rx_ticket hash_one cfg i sid b).
Proof. unfold rx_ticket. lsteps. Qed.
Lemma shards_reauth_hint sid t : leaves v_shards (rx_reauth_hint hash_one cfg i sid t).
Proof. unfold rx_reauth_hint. lsteps. Qed.
Lemma shards_auth_gate sid t : leaves v_shards (rx_auth_gate cfg i sid t).
Proof. unfold rx_auth_gate. lsteps. Qed.
Lemma shards_admit sid : leaves v_shards (rx_admit i sid).
Proof. unfold rx_admit. lsteps. Qed.
Lemma shards_ingress sid : leaves v_shards (rx_ingress i sid).
Proof. by apply leaves_mod. Qed.
Lemma shards_session sid b : leaves v_shards (rx_session cfg i sid b).
Proof.
  apply leaves_run. intros s s' a E. destruct (v_sessions s !! sid); [destruct (_ || _)|];
    by injection E as <- <-.
Qed.
Lemma shards_hello sid t : leaves v_shards (rx_hello cfg i sid t).
Proof.
  unfold rx_hello. repeat (lstep || (apply leaves_mod; intros s; by destruct (v_sessions s !! sid))).
Qed.
Lemma shards_require_auth b : leaves v_shards (rx_require_auth cfg b).
Proof. unfold rx_require_auth. lsteps. Qed.
Lemma shards_tun sid raw count : leaves v_shards (h_tun cfg i sid raw count).
Proof. unfold h_tun. lsteps. Qed.
Lemma shards_name sid ip : leaves v_shards (h_name_legacy sid ip).
Proof. by apply leaves_mod. Qed.
Hint Resolve shards_ticket shards_reauth_hint shards_auth_gate shards_admit shards_ingress
  shards_session shards_hello shards_require_auth shards_tun shards_name : handler.

Lemma fine_frame sid b : stays fine (rx_frame cfg i sid b).
Proof.
  unfold rx_frame, rx_ping, rx_rtt, rx_resolve, rx_keepalive, rx_packet, rx_forward, rx_udp. ssteps.
Qed.

Lemma fine_rx : stays fine (rx_step hash_one cfg i).
Proof.
  unfold rx_step. repeat (sstep || apply fine_frame).
Qed.

End Rx.

(** Updates that leave the inbox, the tokens of the flows and the other
    tables as they are. *)
Lemma fine_retag k (g : Shard -> gmap FlowKey FlowState) :
  (forall sh key, f_token <$> g sh !! key = f_token <$> sh_flows sh !! key) ->
  stays fine (h_set_shard k (fun sh => sh <| sh_flows := g sh |>)).
Proof.
  intros Hg. apply fine_set_shard. intros n sh Ht Hp. split.
  - exact (tables_retag _ _ _ _ Ht (Hg sh)).
  - revert Hp. apply placed_shrink; [done|]. cbn. intros key. specialize (Hg sh key).
    destruct (g sh !! key), (sh_flows sh !! key); cbn in Hg; try discriminate; eauto.
Qed.

Lemma alter_token (m : gmap FlowKey FlowState) f k key :
  (forall x, f_token (f x) = f_token x) -> f_token <$> alter f k m !! key = f_token <$> m !! key.
Proof.
  intros Hf. destruct (decide (key = k)) as [->|Hk].
  - rewrite lookup_alter_eq. destruct (m !! k); cbn; [by rewrite Hf | done].
  - by rewrite lookup_alter_ne.
Qed.
Lemma fold_alter_token f sid (l : list SocketAddr) (m : gmap FlowKey FlowState) key :
  (forall x, f_token (f x) = f_token x) ->
  f_token <$> fold_left (fun m a => alter f (MkKey sid a) m) l m !! key = f_token <$> m !! key.
Proof.
  intros Hf. revert m. induction l as [|a l IH]; intros m; cbn [fold_left]; [done|].
  rewrite IH. by apply alter_token.
Qed.

Section Shards.
Context (cfg : Config) (k : nat).

(** The session is one of this shard's. *)
Definition at_home (sid : list Z) (v : V2) : Prop :=
  fine v /\ shard_for_session sid (length (v_shards v)) = Ret k.

Lemma home_leaves {A} sid (m : H A) : leaves v_shards m -> ends (at_home sid) m (fun _ => at_home sid) fine.
Proof.
  intros Hm s s' c [Hs Hk] E. unfold at_home, fine in *. rewrite (Hm _ _ _ E). destruct c; [by split | exact Hs].
Qed.

(** The new flow, in tables that are still those the token was chosen for. *)
Lemma fine_new_flow l sid a addr info t next token :
  let sh0 := default shard_new (l !! k) in
  let key := MkKey sid a in
  fine_shards l -> shard_for_session sid (length l) = Ret k -> sh_flows sh0 !! key = None ->
  Z.of_nat (length (flows_of (session_flows sh0) sid)) < MAX_FLOWS_PER_SESSION ->
  token <> 0 -> token_to_flow sh0 !! token = None ->
  fine_shards (alter (fun sh =>
    sh <| token_to_flow ::= <[token := key]> |>
       <| session_flows ::= fun m => <[sid := flows_of m sid ++ [a]]> m |>
       <| sh_flows ::= <[key := MkFlowState addr info t None token]> |>) k
    (alter (fun sh => sh <| next_token := next |>) k l)).
Proof.
  intros sh0 key Hl Hk Hnew Hroom Hz Hfree. apply fine_alter.
  { apply fine_alter; [exact Hl|]. intros sh _ Ht Hp. by split. }
  intros sh E Ht [Hp1 Hp2]. rewrite length_alter in *. rewrite list_lookup_alter_eq in E.
  unfold sh0 in *. destruct (l !! k) as [sh1|]; [|discriminate]. injection E as <-. cbn in *. split.
  - exact (tables_insert _ _ _ key (MkFlowState addr info t None token) Ht Hnew Hfree Hz Hroom).
  - split; [exact Hp1|]. cbn. intros key' f [[<- _]|[_ E]]%lookup_insert_Some; [exact Hk | eauto].
Qed.

Lemma fine_open_flow sid a addr info idx so ro t :
  ends (at_home sid) (shard_open_flow k (MkKey sid a) addr info idx so ro t) (fun _ => at_home sid) fine.
Proof.
  unfold shard_open_flow. apply ends_get. intros v0. apply ends_get. intros sh.
  case_bool_decide as Hnew; [by apply ends_ret; intros s [[Hs _] _]|]. apply eq_None_not_Some in Hnew.
  assert (forall {B} (m : H B), leaves v_shards m ->
    ends (fun s => (at_home sid s /\ v0 = id s) /\ sh = default shard_new (v_shards s !! k)) m
      (fun _ => at_home sid) fine) as Hgive.
  { intros B m Hm. eapply ends_pre; [by apply home_leaves | by intros s [[Hs _] _]]. }
  destruct (_ <=? _) eqn:Htotal; [apply Hgive; lsteps|].
  destruct (Z.leb_spec MAX_FLOWS_PER_SESSION
    (Z.of_nat (length (default [] (session_flows sh !! sid))))) as [Hfull|Hroom]; cbn [k_session_id];
    [rewrite (proj2 (Z.leb_le _ _) Hfull); apply Hgive; lsteps|].
  rewrite (proj2 (Z.leb_gt _ _) Hroom).
  apply ends_bind with (fun _ s => at_home sid s /\ sh = default shard_new (v_shards s !! k)).
  { apply ends_run. intros s s' b [[Hs _] Esh] E. destruct (allow_source_event _ _ _ _ _) as [[l st] ok].
    injection E as <- <-. by split. }
  intros allowed.
  assert (forall {B} (m : H B), leaves v_shards m ->
    ends (fun s => at_home sid s /\ sh = default shard_new (v_shards s !! k)) m
      (fun _ => at_home sid) fine) as Hgive'.
  { intros B m Hm. eapply ends_pre; [by apply home_leaves | by intros s [Hs _]]. }
  destruct (negb allowed); [apply Hgive'; lsteps|]. destruct (negb so); [apply Hgive'; lsteps|].
  assert (forall next (m : H unit), leaves v_shards m ->
    ends (fun s => at_home sid s /\ sh = default shard_new (v_shards s !! k))
      (h_set_shard k (fun sh => sh <| next_token := next |>) ;! m) (fun _ => at_home sid) fine) as Hnext.
  { intros next m Hm. eapply ends_bind with (fun _ => at_home sid); [|intros ?; by apply home_leaves].
    apply ends_mod. intros s [[Hs Hk] _]. split; cbn; [|by rewrite length_alter].
    apply fine_alter; [exact Hs|]. intros sh' _ Ht Hp. by split. }
  destruct (allocate_flow_token (next_token sh) (token_to_flow sh)) as [next [token|]] eqn:Etok.
  2: { apply Hnext. lsteps. }
  apply allocate_flow_token_fresh in Etok as [Hz Hfree].
  destruct (negb ro); [apply Hnext; lsteps|].
  intros s s' c [[Hs Hk] ->] [= <- <-]. split; cbn; [|by rewrite !length_alter].
  by apply fine_new_flow.
Qed.

Lemma fine_client_packet sid addr game info idx plen t0 so ro sr t :
  ends (at_home sid) (shard_client_packet k sid addr game info idx plen t0 so ro sr t) (fun _ => fine) fine.
Proof.
  unfold shard_client_packet. destruct (should_drop_stale_queued_packet _ _ _).
  { eapply ends_conseq; [apply (home_leaves sid); lsteps | done | by intros _ s [Hs _] | done]. }
  eapply ends_bind; [apply fine_open_flow|]. intros ?.
  apply (ends_pre _ fine); [|by intros s []].
  eapply ends_bind.
  { apply (fine_retag k (fun sh => alter _ _ (sh_flows sh))). intros sh key. by apply alter_token. }
  intros ?. eapply ends_bind.
  { apply fine_leaves, leaves_run. intros s s' r E. do 2 (apply obind_inv in E as (? & _ & E)).
    by injection E as <- <-. }
  intros bytes. eapply ends_bind; [apply fine_leaves; unfold h_flow_send; lsteps|]. intros ?.
  apply fine_leaves. lsteps.
Qed.

Lemma fine_keepalive sid addr t : stays fine (shard_keepalive k sid addr t).
Proof.
  apply (fine_retag k (fun sh => fold_left _ _ (sh_flows sh))). intros sh key. by apply fold_alter_token.
Qed.

Lemma fine_remove_session sid : stays fine (shard_remove_session k sid).
Proof.
  apply fine_set_shard. intros n sh Ht Hp. split; [by apply remove_session_tables|].
  destruct (session_flows sh !! sid) as [l|]; [|exact Hp].
  destruct (fold_shard_ok (remove_one sid) l) with (sh := sh <| session_flows ::= delete sid |>)
    as [E1 E2]; try (intros; apply remove_one_shrinks).
  revert Hp. apply placed_shrink; [exact E1|]. intros key [f E]. exists f. exact (lookup_weaken _ _ _ _ E E2).
Qed.

Lemma fine_inbox so ro sr t : stays fine (shard_inbox k so ro sr t).
Proof.
  unfold shard_inbox. apply ends_get. intros sh. destruct (inbox sh) as [|msg rest] eqn:Ei.
  { apply ends_continue. by intros s []. }
  apply ends_bind with (fun _ => at_home (msg_session msg)).
  - apply ends_mod. intros s [Hs Esh]. destruct (v_shards s !! k) as [sh1|] eqn:Es; cbn in Esh; subst sh;
      [|discriminate]. rename sh1 into sh. destruct (Hs k sh Es) as [_ [Hm _]].
    rewrite Ei in Hm. apply Forall_cons_1 in Hm as [Hm _].
    split; cbn; [|by rewrite length_alter]. apply fine_alter; [exact Hs|].
    intros sh' Es' Ht [Hp1 Hp2]. split; [exact Ht|]. split; [|exact Hp2]. cbn.
    assert (sh' = sh) as -> by congruence. rewrite Ei in Hp1. exact (proj2 (Forall_cons_1 _ _ _ Hp1)).
  - intros ?. destruct msg; cbn [msg_session].
    + apply fine_client_packet.
    + eapply ends_pre; [apply fine_keepalive | by intros s []].
    + eapply ends_pre; [apply fine_remove_session | by intros s []].
Qed.

Lemma fine_cleanup t : stays fine (shard_cleanup k t).
Proof.
  apply fine_set_shard. intros n sh Ht Hp. destruct (cleanup_tables t sh Ht) as (H1 & H2 & H3).
  split; [exact H1|]. revert Hp. apply placed_shrink; [exact H3|]. intros key.
  cbn [sh_flows]. intros Hk. change (is_Some (sh_flows (fold_left forget
    (map_to_list (filter (fun kv => cleanup_flow t kv.2 = None) (sh_flows sh)))
    (sh <| sh_flows ::= omap (cleanup_flow t) |>)) !! key)) in Hk.
  rewrite H2, lookup_omap in Hk. destruct (sh_flows sh !! key); [eauto | by destruct Hk].
Qed.

Lemma fine_response key payload tos t tu : stays fine (shard_response cfg k key payload tos t tu).
Proof.
  unfold shard_response. apply ends_get. intros v0. destruct (negb _).
  { apply ends_continue. by intros s []. }
  apply ends_get. intros sh. destruct (sh_flows sh !! key) as [f|] eqn:Ef.
  2: { apply ends_continue. by intros s [[]]. }
  apply ends_bind with (fun _ => fine).
  - apply ends_mod. intros s [[Hs _] Esh]. apply fine_alter; [exact Hs|]. intros sh' Es Ht Hp.
    rewrite Es in Esh. cbn in Esh. subst sh'. split.
    + refine (tables_retag _ _ _ _ Ht _). intros key'. cbn. destruct (decide (key' = key)) as [->|Hk].
      * by rewrite lookup_insert_eq, Ef.
      * by rewrite lookup_insert_ne.
    + revert Hp. apply placed_shrink; [done|]. cbn. intros key' [f' [[<- _]|[_ E]]%lookup_insert_Some]; eauto.
  - intros ?. apply stays_bind; [apply fine_leaves; by apply leaves_mod|]. intros ?.
    apply fine_leaves. lsteps. apply leaves_run. intros s s' r E.
    do 4 (apply obind_inv in E as (? & _ & E)). apply obind_inv in E as ([tail ip_n] & _ & E).
    apply obind_inv in E as (p & _ & E). by injection E as <- <-.
Qed.

Lemma fine_burst key n l : stays fine (shard_burst cfg k key n l).
Proof.
  revert l. induction n as [|n IH]; intros l; cbn [shard_burst]; [sstep|].
  destruct l as [|[[[payload tos] t] tu] l]; [sstep|]. apply stays_bind; [apply fine_response | auto].
Qed.

Lemma fine_event token l : stays fine (shard_event cfg k token l).
Proof.
  unfold shard_event. destruct (_ =? _); [sstep|]. apply stays_bind; [by apply fine_leaves, leaves_get|].
  intros sh. ssteps. apply fine_burst.
Qed.

End Shards.

(** The threads that do not own flows. *)
Lemma shards_tx auth sent_ok t tu mono : leaves v_shards (tx_step auth sent_ok t tu mono).
Proof.
  unfold tx_step, send_tx_packet, count_out. lsteps.
  - apply leaves_run. intros w w' r E. unfold tx_next in E.
    destruct (v_tx_control w); [destruct (v_tx_data w)|]; by injection E as <- <-.
  - apply leaves_run. intros w w' r E. apply obind_inv in E as (? & _ & E). by injection E as <- <-.
Qed.

Lemma fine_close_begin expired sid : stays fine (close_begin expired sid).
Proof. unfold close_begin. ssteps. Qed.
Lemma fine_cleanup_finish cfg : stays fine (cleanup_finish cfg).
Proof. unfold cleanup_finish, close_finish. ssteps. Qed.
#[local] Hint Resolve fine_close_begin fine_cleanup_finish : handler.

Lemma fine_sweep cfg t tu : stays fine (cleanup_step cfg t tu).
Proof.
  assert (forall sids, stays fine (cleanup_sessions cfg t tu sids)) as Hall.
  { intros sids. induction sids as [|sid sids IH]; cbn [cleanup_sessions]; [sstep|].
    apply stays_bind; [|intros ?; exact IH]. unfold cleanup_session.
    apply stays_bind; [apply fine_close_begin | intros ?; apply fine_cleanup_finish]. }
  unfold cleanup_step, cleanup_tun. ssteps.
Qed.

Lemma fine_turn `{TicketCrypto} hash_one cfg a : stays fine (turn_handler hash_one cfg a).
Proof.
  destruct a; cbn [turn_handler].
  - apply fine_rx.
  - apply fine_event.
  - apply fine_inbox.
  - apply fine_cleanup.
  - apply fine_leaves, shards_tx.
  - apply fine_sweep.
  - apply fine_close_begin.
  - apply fine_cleanup_finish.
  - apply fine_leaves. by apply leaves_mod.
  - apply fine_leaves. unfold tun_assign_turn, h_nat. lsteps.
  - apply fine_leaves. unfold tun_commit_turn, h_nat. lsteps.
  - apply fine_leaves. unfold tun_read_turn, h_nat. lsteps.
  - apply fine_leaves. unfold tun_resp_turn, count_tun_out. lsteps.
  - apply fine_leaves. unfold resolve_turn. lsteps.
  - apply fine_leaves. by apply leaves_mod.
  - apply fine_leaves. by apply leaves_mod.
Qed.

Lemma fine_run `{TicketCrypto} hash_one cfg l v v' :
  v2_run hash_one cfg v l = Ret v' -> fine v -> fine v'.
Proof.
  revert v. induction l as [|a l IH]; intros v E Hv; [by injection E as <-|].
  cbn [v2_run] in E. apply obind_inv in E as (w & Ew & E). apply (IH w E).
  apply obind_inv in Ew as ([u c] & Ew & [= <-]).
  pose proof (fine_turn hash_one cfg a v u c Hv Ew). by destruct c.
Qed.

Lemma fine_new tuning policy budget tun t : fine (v2_new tuning policy budget tun t).
Proof.
  intros k sh E. cbn in E. apply list.lookup_replicate in E as [-> _]. split; [exact tables_empty|].
  split; cbn; [constructor|]. intros key f. by rewrite lookup_empty.
Qed.

(* ------------------------------------------------------------------ *)
(** ** Theorems *)

(** C12: the flow tables of the shards agree in every reachable state.  The
    poller's tokens and the flows are in bijection, no flow has the reserved
    token 0, the index of a session lists exactly its flows, each once and at
    most 1024, and a flow is only ever in the shard its session id selects. *)
Theorem v2_flow_tables_agree `{TicketCrypto} hash_one cfg env cores policy budget tun t0 (l : list turn) :
  Forall turn_ok l ->
  exists v, v2_run hash_one cfg (start env cores policy budget tun t0) l = Ret v
    /\ forall k sh, v_shards v !! k = Some sh ->
       (forall t key, token_to_flow sh !! t = Some key
          <-> exists f, sh_flows sh !! key = Some f /\ f_token f = t)
       /\ (forall sid a, a ∈ flows_of (session_flows sh) sid <-> is_Some (sh_flows sh !! MkKey sid a))
       /\ (forall sid, NoDup (flows_of (session_flows sh) sid)
            /\ Z.of_nat (length (flows_of (session_flows sh) sid)) <= MAX_FLOWS_PER_SESSION)
       /\ (forall key f, sh_flows sh !! key = Some f ->
            f_token f <> 0 /\ shard_for_session (k_session_id key) (length (v_shards v)) = Ret k).
Proof.
  intros Hl. destruct (run_inv hash_one cfg env cores policy budget tun t0 l Hl) as (v & E & _).
  exists v. split; [exact E|]. intros k sh Hk.
  destruct (fine_run hash_one cfg l _ v E (fine_new _ _ _ _ _) k sh Hk) as [[H1 H2 H3 H4 H5] [_ Hp]].
  split; [exact H1|]. split; [exact H2|]. split; [auto|]. intros key f Ef. eauto.
Qed.

Lemma remove_turn `{TicketCrypto} hash_one cfg v k sh sid rest so ro sr t :
  v_shards v !! k = Some sh -> inbox sh = RemoveSession sid :: rest ->
  v2_turn hash_one cfg v (TurnInbox k so ro sr t)
  = Ret (v <| v_shards ::= fun l => alter (drop_session sid) k (alter (fun sh => sh <| inbox := rest |>) k l) |>).
Proof.
  intros Hk Hin. unfold v2_turn. cbn [turn_handler]. unfold shard_inbox, h_shard, hbind at 1, hget.
  rewrite Hk. cbn [default from_option]. unfold from_option, id. by rewrite Hin.
Qed.

(** C16: when a shard takes the message that a session is over, no shard has
    a flow of that session any more, and no poller token leads to one: the
    message reached the only shard that can have some, and the index it goes
    by missed none. *)
Theorem v2_session_removed `{TicketCrypto} hash_one cfg tuning policy budget tun t0 l v k sh sid rest so ro sr t v' :
  v2_run hash_one cfg (v2_new tuning policy budget tun t0) l = Ret v ->
  v_shards v !! k = Some sh -> inbox sh = RemoveSession sid :: rest ->
  v2_turn hash_one cfg v (TurnInbox k so ro sr t) = Ret v' ->
  forall j sh' key, v_shards v' !! j = Some sh' ->
    (is_Some (sh_flows sh' !! key) \/ exists token, token_to_flow sh' !! token = Some key) ->
    k_session_id key <> sid.
Proof.
  intros E Hk Hin Et j sh' key Hj Hflow <-.
  pose proof (fine_run hash_one cfg l _ v E (fine_new _ _ _ _ _)) as Hv.
  assert (fine v') as Hv'.
  { apply (fine_run hash_one cfg [TurnInbox k so ro sr t] v); [cbn [v2_run]; by rewrite Et | exact Hv]. }
  destruct (Hv' j sh' Hj) as [Ht' [_ Hp']].
  assert (exists f, sh_flows sh' !! key = Some f) as [f Ef].
  { destruct Hflow as [[f Ef]|[token Etok]]; [by exists f|].
    apply (t_tokens _ _ _ Ht') in Etok as (f & Ef & _). by exists f. }
  destruct (Hv k sh Hk) as [Ht [Hm _]]. rewrite Hin in Hm. apply Forall_cons_1 in Hm as [Hm _]. cbn in Hm.
  rewrite (remove_turn hash_one cfg v k sh (k_session_id key) rest so ro sr t Hk Hin) in Et. injection Et as <-.
  cbn in Hj, Hp'. specialize (Hp' key f Ef). rewrite !length_alter in Hp'. assert (j = k) as -> by congruence.
  rewrite !list_lookup_alter_eq, Hk in Hj. injection Hj as <-. destruct key as [sid a]. cbn in Ef.
  rewrite drop_session_complete in Ef; [discriminate | exact Ht].
Qed.

(* ------------------------------------------------------------------ *)
(** ** Witnesses *)

Section Witnesses.
#[local] Existing Instance toy_crypto.

(** The counter at its last value, which is in use: the next token is 1. *)
Lemma flow_token_found_witness :
  let used : gmap Z FlowKey := {[ 2 ^ 64 - 1 := MkKey [] (SockV4 1 2) ]} in
  allocate_flow_token (2 ^ 64 - 1) used = (2, Some 1)
  /\ exists next' token, allocate_flow_token (2 ^ 64 - 1) used = (next', Some token) /\ used !! token = None.
Proof.
  intros used. split; [vm_compute; reflexivity|].
  destruct (flow_token_found (2 ^ 64 - 1) used) as (n & token & _ & E & _ & Hf & _).
  - lia.
  - unfold used. rewrite map_size_singleton. lia.
  - exists n, token. by split.
Defined.

Lemma v2_flow_tables_agree_witness :
  exists v, v2_run (fun _ => 0) sample_cfg (start no_env 4 sample_policy sample_budget true 0) sample_turns = Ret v
    /\ forall k sh, v_shards v !! k = Some sh ->
       forall key f, sh_flows sh !! key = Some f -> token_to_flow sh !! f_token f = Some key.
Proof.
  destruct (v2_flow_tables_agree (fun _ => 0) sample_cfg no_env 4 sample_policy sample_budget true 0
    sample_turns sample_turns_ok) as (v & E & Hv).
  exists v. split; [exact E|]. intros k sh Hk key f Ef. apply (Hv k sh Hk). by exists f.
Defined.

(** A session with a flow expires; its shard takes the message. *)
Definition expiry_turns : list turn := toy_turns ++ [TurnCleanup (secs 100000) 1000000000].
Definition expiry_end : V2 :=
  match v2_run toy_hash toy_cfg toy_start expiry_turns with Ret v => v | Panic => toy_start end.
Definition expiry_after : V2 :=
  match v2_turn toy_hash toy_cfg expiry_end (TurnInbox 0 true true SendOk 9) with
  | Ret v => v | Panic => toy_start end.
Definition expiry_shard : Shard := default shard_new (v_shards expiry_end !! 0%nat).

Lemma v2_session_removed_witness :
  size (sh_flows expiry_shard) = 1%nat
  /\ forall j sh' key, v_shards expiry_after !! j = Some sh' -> is_Some (sh_flows sh' !! key) ->
     k_session_id key <> toy_sid.
Proof.
  split; [vm_compute; reflexivity|]. intros j sh' key Hj Hk.
  apply (v2_session_removed toy_hash toy_cfg (MkTuning 1 4 4 4 0 0 0 0) toy_policy toy_budget true 0
    expiry_turns expiry_end 0 expiry_shard toy_sid [] true true SendOk 9 expiry_after) with j sh'.
  - apply returned. vm_compute. reflexivity.
  - vm_compute. reflexivity.
  - vm_compute. reflexivity.
  - apply returned. vm_compute. reflexivity.
  - exact Hj.
  - left. exact Hk.
Defined.

End Witnesses.
