(* ===== verification/V2Data.v ===== *)
(** * Datapath v2: the bytes

    What the relay sends, traced back through the buffer pool, the queues and
    the flow tables to what it received: every datagram for a game server is
    the payload of a client packet, every frame for a client is an answer to
    that client or a datagram that arrived for its session.

    A pool buffer in a queue carries a claim, what its first bytes are; the
    claims survive because no index is in two places ([kept]).  [flowing]
    says that all claims hold, over a record [Facts] of what has been
    received. *)

From Stdlib Require Import String.
From S2P Require Import Prelude Checksum Net Packet TunRewrite TunSession RustStr Tuning DestPolicy Stats Sessions RateLimit AccountBudget Auth Frames Handler V2State V2Rx V2Shard V2Tun V2Inv V2Safe V2Thms V2Auth V2Flows.

(* ------------------------------------------------------------------ *)
(** ** Buffers and claims on them *)

Definition claim : Type := nat * (list Z -> Prop).

Definition holds (bufs : list (list Z)) (c : claim) : Prop :=
  forall b, bufs !! c.1 = Some b -> c.2 b.

Record kept (p : BufferPool) (l : list claim) : Prop := {
  k_once : NoDup (free p ++ l.*1);
  k_range : Forall (fun i => (i < length (buffers p))%nat) (free p ++ l.*1);
  k_holds : Forall (holds (buffers p)) l;
  k_size : Forall (fun b => length b = MAX_PACKET_SIZE) (buffers p);
}.

Lemma kept_perm p l l' : l ≡ₚ l' -> kept p l -> kept p l'.
Proof. intros E [H1 H2 H3 H4]. split; by rewrite <- ?E. Qed.

Lemma kept_acquire p p' i l :
  try_acquire p = (p', Some i) -> kept p l -> kept p' ((i, fun _ => True) :: l).
Proof.
  unfold try_acquire. destruct (free p) as [|j rest] eqn:Ef; [discriminate|].
  intros [= <- ->] [H1 H2 H3 H4]. rewrite Ef in H1, H2. split; cbn -[MAX_PACKET_SIZE].
  - by rewrite <- Permutation_middle.
  - by rewrite <- Permutation_middle.
  - constructor; [by intros b _ | exact H3].
  - exact H4.
Qed.

Lemma kept_release p i phi l : kept p ((i, phi) :: l) -> kept (release p i) l.
Proof.
  intros [H1 H2 H3 H4]. apply Forall_cons_1 in H3 as [_ H3].
  split; cbn -[MAX_PACKET_SIZE]; rewrite <- ?app_assoc; assumption.
Qed.

Lemma kept_write p p' i b (phi psi : list Z -> Prop) l :
  set_buffer p i b = Ret p' -> length b = MAX_PACKET_SIZE -> psi b ->
  kept p ((i, phi) :: l) -> kept p' ((i, psi) :: l).
Proof.
  intros E Hlen Hb [H1 H2 H3 H4]. unfold set_buffer in E. apply obind_inv in E as (bs & E & [= <-]).
  unfold wr in E. destruct (_ <? _)%nat; [|discriminate]. injection E as <-.
  split; cbn -[MAX_PACKET_SIZE]; [exact H1 | by rewrite length_insert | | by apply Forall_insert].
  apply Forall_cons_1 in H3 as [_ H3]. constructor.
  - intros b' E'. cbn in E'. apply list_lookup_insert_Some in E' as [(_ & <- & _)|(Hne & _)]; done.
  - apply list.Forall_forall. intros [j phi'] Hin b' E'. cbn in E'.
    apply list_lookup_insert_Some in E' as [(<- & _)|(_ & E')].
    + exfalso. apply list.NoDup_app in H1 as (_ & _ & H1). cbn in H1.
      apply list.NoDup_cons in H1 as [H1 _]. apply H1. apply list_elem_of_fmap. by exists (i, phi').
    + rewrite list.Forall_forall in H3. exact (H3 _ Hin b' E').
Qed.

Lemma kept_weaken p i (phi psi : list Z -> Prop) l :
  (forall b, phi b -> psi b) -> kept p ((i, phi) :: l) -> kept p ((i, psi) :: l).
Proof.
  intros Hw [H1 H2 H3 H4']. split; [exact H1 | exact H2 | | exact H4']. apply Forall_cons_1 in H3 as [H3 H4].
  constructor; [|exact H4]. intros b E. apply Hw, H3, E.
Qed.

(** The buffer of a claim exists and is as claimed. *)
Lemma kept_get p i phi l : kept p ((i, phi) :: l) -> exists b, buffers p !! i = Some b /\ phi b.
Proof.
  intros [_ H2 H3 _]. apply Forall_app in H2 as [_ H2]. apply Forall_cons_1 in H2 as [H2 _].
  apply Forall_cons_1 in H3 as [H3 _]. destruct (lookup_lt_is_Some_2 _ _ H2) as [b Hb].
  exists b. split; [exact Hb | exact (H3 b Hb)].
Qed.

Lemma kept_read p i b phi l : buffer p i = Ret b -> kept p ((i, phi) :: l) -> phi b.
Proof.
  intros E Hk. destruct (kept_get _ _ _ _ Hk) as (b' & Eb & Hb). unfold buffer, rd in E.
  rewrite Eb in E. by injection E as <-.
Qed.

Lemma kept_size p i b l : buffer p i = Ret b -> kept p l -> length b = MAX_PACKET_SIZE.
Proof.
  unfold buffer, rd. intros E [_ _ _ H4]. destruct (buffers p !! i) as [b'|] eqn:Eb; [|discriminate].
  injection E as <-. exact (Forall_lookup_1 _ _ _ _ H4 Eb).
Qed.

(* ------------------------------------------------------------------ *)
(** ** What has been received *)

(** [asked sid addr game info payload]: a client packet for a game server;
    [answered key payload tos]: a datagram from the game server of a flow;
    [acked addr frame]: a control frame owed to the sender of a datagram;
    [task_frame sid frame]: the frame of a datagram a flow task received;
    [dest sid addr n]: session [sid] was at [addr] when the [n]-th frame was sent;
    [in_force]: the destination policies there have been. *)
Record Facts : Type := MkFacts {
  asked : list Z -> SocketAddr -> SocketAddr -> OriginalPacketInfo -> list Z -> Prop;
  answered : FlowKey -> list Z -> option Z -> Prop;
  acked : SocketAddr -> list Z -> Prop;
  resolving : list Z * Z * list str * SocketAddr -> Prop;
  tun_in : InboundTunPacket -> Prop;
  tun_out : TunTxPacket -> Prop;
  task_frame : list Z -> list Z -> Prop;
  dest : list Z -> SocketAddr -> nat -> Prop;
  in_force : DestPolicy -> Prop;
}.

Section Flowing.
Context (F : Facts).

(** A data frame for session [sid]: its id and the IP packet built around a
    datagram that came on one of its flows, with the addresses of a packet
    the client sent on that flow. *)
Definition data_frame (sid frame : list Z) : Prop :=
  exists game info addr sent payload response_tos ip,
    asked F sid addr game info sent /\ answered F (MkKey sid game) payload response_tos
    /\ build_response_ip_packet_with_tos payload info (default (tos info) response_tos) = Ret ip
    /\ frame = sid ++ ip /\ length sid = SESSION_ID_LEN
    /\ (SESSION_ID_LEN + 28 + length payload <= MAX_PACKET_SIZE)%nat.

(** What may be sent on the main socket as its [n]-th frame. *)
Inductive justified (n : nat) : SocketAddr * list Z -> Prop :=
| JControl addr frame : acked F addr frame -> justified n (addr, frame)
| JData sid addr frame : dest F sid addr n -> data_frame sid frame -> justified n (addr, frame)
| JTask sid addr frame : dest F sid addr n -> task_frame F sid frame -> justified n (addr, frame)
| JTun r addr : dest F (tx_session_id r) addr n -> tun_out F r ->
    justified n (addr, tx_session_id r ++ tx_ip_packet r)
| JResolve sid request_id hosts addr lookup :
    resolving F (sid, request_id, hosts, addr) ->
    justified n (addr, resolve_reply lookup sid request_id hosts).

Definition all_justified (sent : list (SocketAddr * list Z)) : Prop :=
  forall n x, sent !! n = Some x -> justified n x.

Lemma all_justified_snoc sent x :
  all_justified sent -> justified (length sent) x -> all_justified (sent ++ [x]).
Proof.
  intros Hs Hx n y E. apply lookup_app_Some in E as [E|[Hn E]]; [by apply Hs|].
  apply list_lookup_singleton_Some in E as [E <-]. by replace n with (length sent) by lia.
Qed.

(** What may be sent to a game server, and what may be written to the TUN. *)
Definition to_game_ok (x : FlowKey * list Z) : Prop :=
  exists addr info, asked F (k_session_id x.1) addr (k_game_addr x.1) info x.2.
Definition to_tun_ok (packet : list Z) : Prop :=
  exists t t' p, tun_in F p /\ writer_step t p = Ret (t', Some packet).

(** What the TUN writer has in hand. *)
Definition writing_ok (writing : option (InboundTunPacket * Ipv4Addr * Ipv4Addr)) : Prop :=
  match writing with
  | Some (pkt, ip, src) => tun_in F pkt /\ exists t t', writer_assign t pkt = Ret (t', Some (ip, src))
  | None => True
  end.

Definition tx_claim (p : TxPacket) : claim :=
  (p_buf_idx p, fun b =>
    match p_kind p with
    | Control => acked F (p_addr p) (take (p_len p) b)
    | Data => data_frame (p_session_id p) (take (p_len p) b)
    end).
Definition msg_claim (m : ShardMsg) : list claim :=
  match m with
  | ClientPacket sid addr game info idx plen _ => [(idx, fun b => asked F sid addr game info (take plen b))]
  | _ => []
  end.
Definition inbox_claims (q : list ShardMsg) : list claim := concat (List.map msg_claim q).

Definition owed (v : V2) : list claim :=
  List.map tx_claim (v_tx_control v) ++ List.map tx_claim (v_tx_data v)
  ++ concat (List.map inbox_claims (List.map inbox (v_shards v))).

Definition flows_ok (m : gmap FlowKey FlowState) : Prop :=
  forall key f, m !! key = Some f ->
  exists addr sent, asked F (k_session_id key) addr (k_game_addr key) (f_original_info f) sent.

Record flowing (held : list claim) (v : V2) : Prop := {
  d_pool : kept (v_pool v) (owed v ++ held);
  d_flows : Forall flows_ok (List.map sh_flows (v_shards v));
  d_game : Forall to_game_ok (v_to_game v);
  d_sent : all_justified (v_sent v);
  d_resolve : Forall (resolving F) (v_resolve v);
  d_tun : Forall (tun_in F) (v_tun v) /\ writing_ok (v_writing v);
  d_device : Forall to_tun_ok (v_device v);
  d_tun_resp : Forall (tun_out F) (v_tun_resp v);
  d_policy : in_force F (v_policy v);
}.

(** The part of the state [flowing] looks at. *)
Definition dview (v : V2) :=
  (v_pool v, (v_tx_control v, v_tx_data v), (List.map inbox (v_shards v), List.map sh_flows (v_shards v)),
   (v_to_game v, v_sent v, v_resolve v), (v_tun v, v_device v, v_tun_resp v), v_policy v, v_writing v).

Lemma flowing_frame held v v' : dview v' = dview v -> flowing held v -> flowing held v'.
Proof.
  intros E [H1 H2 H3 H4 H5 H6 H7 H8 H9]. injection E as E1 E2 E3 E4 E5 E6 E7 E8 E9 E10 E11 E12 E13.
  constructor; rewrite ?E1, ?E5, ?E6, ?E7, ?E8, ?E9, ?E10, ?E11, ?E12, ?E13; try assumption.
  unfold owed. by rewrite E2, E3, E4.
Qed.

Lemma flowing_leaves {A} held (m : H A) : leaves dview m -> stays (flowing held) m.
Proof. intros Hm s s' [a|] Hs E; exact (flowing_frame _ _ _ (Hm _ _ _ E) Hs). Qed.

(** ** Primitives *)

Lemma flowing_acquire held Q :
  ends (flowing held) h_acquire
    (fun r => match r with Some i => flowing ((i, fun _ => True) :: held) | None => flowing held end) Q.
Proof.
  apply ends_run. intros s s' r [H1 H2 H3 H4 H5 H6 H7 H8 H9] E.
  destruct (try_acquire (v_pool s)) as [p i] eqn:Ep. injection E as <- <-. destruct i as [i|].
  - constructor; try assumption. cbn. eapply kept_perm; [|exact (kept_acquire _ _ _ _ Ep H1)].
    apply Permutation_middle.
  - constructor; try assumption. cbn. unfold try_acquire in Ep.
    destruct (free (v_pool s)); [|discriminate]. by injection Ep as <-.
Qed.

(** A pool update that turns the claim in hand into others. *)
Lemma flowing_pool held held' v p :
  (forall l, kept (v_pool v) (held ++ l) -> kept p (held' ++ l)) ->
  flowing held v -> flowing held' (v <| v_pool := p |>).
Proof.
  intros Hp [H1 H2 H3 H4 H5 H6 H7 H8 H9]. constructor; try assumption. cbn.
  eapply kept_perm; [apply Permutation_app_comm|]. apply Hp.
  eapply kept_perm; [apply Permutation_app_comm | exact H1].
Qed.

Lemma flowing_release held i phi Q :
  ends (flowing ((i, phi) :: held)) (h_release i) (fun _ => flowing held) Q.
Proof.
  apply ends_mod. intros s Hs. revert Hs. apply flowing_pool. intros l. apply kept_release.
Qed.

Lemma flowing_fill held i phi bytes Q :
  ends (flowing ((i, phi) :: held)) (h_fill i bytes)
    (fun _ => flowing ((i, fun b => take (length bytes) b = bytes) :: held)) Q.
Proof.
  apply ends_run. intros s s' [] Hs E.
  apply obind_inv in E as (b & Eb & E). apply obind_inv in E as (b' & Eb' & E).
  apply obind_inv in E as (p & Ep & [= <-]). revert Hs. apply flowing_pool. intros l Hk.
  pose proof (kept_size _ _ _ _ Eb Hk) as Hlen. unfold copy_from_slice in Eb'.
  destruct (_ && _) eqn:El; [|discriminate]. injection Eb' as <-.
  refine (kept_write _ _ _ _ _ _ _ Ep _ _ Hk); [|apply take_app_length].
  bool_hyps. rewrite ?length_app, ?length_take, ?length_drop. lia.
Qed.

Lemma flowing_weaken held i (phi psi : list Z -> Prop) v :
  (forall b, phi b -> psi b) -> flowing ((i, phi) :: held) v -> flowing ((i, psi) :: held) v.
Proof.
  intros Hw [H1 H2 H3 H4 H5 H6 H7 H8 H9]. constructor; try assumption.
  eapply kept_perm; [apply Permutation_middle|]. apply (kept_weaken _ _ _ _ _ Hw).
  eapply kept_perm; [symmetry; apply Permutation_middle | exact H1].
Qed.

Lemma flowing_count held f Q : ends (flowing held) (stat f) (fun _ => flowing held) Q.
Proof. apply ends_mod. intros s. by apply flowing_frame. Qed.
Lemma flowing_stat held f : stays (flowing held) (stat f).
Proof. apply flowing_count. Qed.

Lemma flowing_queue_tx held cfg p phi Q :
  (forall b, phi b -> (tx_claim p).2 b) ->
  ends (flowing ((p_buf_idx p, phi) :: held)) (h_queue_tx cfg p) (fun _ => flowing held) Q.
Proof.
  intros Hphi. apply ends_run. intros s s' [] Hs E.
  assert (flowing held (s <| v_stats ::= fun st => drop_out st TxQueue |>
                          <| v_pool ::= fun q => release q (p_buf_idx p) |>)) as Hfull.
  { apply (flowing_release held (p_buf_idx p) phi (fun _ => True) (s <| v_stats ::= fun st => drop_out st TxQueue |>)
             _ (Next tt)); [|reflexivity]. by apply (flowing_frame _ s). }
  apply (flowing_weaken _ _ _ _ _ Hphi) in Hs as [H1 H2 H3 H4 H5 H6 H7 H8 H9].
  change (p_buf_idx p, (tx_claim p).2) with (tx_claim p) in H1.
  destruct (p_kind p).
  - destruct (try_send _ (v_tx_data s) p) as [q|] eqn:Eq; injection E as <-; [|exact Hfull].
    apply try_send_spec in Eq as ->. constructor; try assumption. revert H1. apply kept_perm.
    unfold owed. cbn. rewrite map_app, <- !app_assoc. cbn. by rewrite !Permutation_middle.
  - destruct (try_send _ (v_tx_control s) p) as [q|] eqn:Eq; injection E as <-; [|exact Hfull].
    apply try_send_spec in Eq as ->. constructor; try assumption. revert H1. apply kept_perm.
    unfold owed. cbn. rewrite map_app, <- !app_assoc. cbn. by rewrite !Permutation_middle.
Qed.

Lemma flowing_drop_in held r : stays (flowing held) (h_drop_in r).
Proof. apply flowing_stat. Qed.
Lemma flowing_drop_out held r : stays (flowing held) (h_drop_out r).
Proof. apply flowing_stat. Qed.
Lemma flowing_exhausted held : stays (flowing held) h_pool_exhausted.
Proof. apply flowing_stat. Qed.
Lemma flowing_get {A} held (f : V2 -> A) : stays (flowing held) (hget f).
Proof. by intros s s' c Hs [= <- <-]. Qed.
Lemma flowing_lift {A} held (m : outcome A) : stays (flowing held) (hlift m).
Proof. by apply ends_lift. Qed.
#[local] Hint Resolve flowing_stat flowing_drop_in flowing_drop_out flowing_exhausted flowing_get
  flowing_lift : handler.

(** Acquire a buffer, fill it and queue it as a control frame. *)
Lemma flowing_frame_out cfg addr sid bytes n t (miss : H unit) :
  length bytes = n -> acked F addr bytes -> stays (flowing []) miss ->
  stays (flowing [])
    (let! slot := h_acquire in
     match slot with
     | None => miss
     | Some idx => h_fill idx bytes ;! h_queue_tx cfg (MkTx addr sid idx n t Control)
     end).
Proof.
  intros Hn Ha Hmiss. eapply ends_bind; [apply flowing_acquire|]. intros [idx|]; [|exact Hmiss].
  eapply ends_bind; [apply flowing_fill|]. intros ?.
  apply (flowing_queue_tx [] cfg (MkTx addr sid idx n t Control)). intros b Hb. cbn.
  rewrite <- Hn, Hb. exact Ha.
Qed.

Lemma flowing_control cfg addr sid ft st t :
  length sid = SESSION_ID_LEN -> acked F addr (sid ++ [ft; st]) ->
  stays (flowing []) (send_small_control_frame cfg addr sid ft st t).
Proof.
  intros Hs Ha. apply flowing_frame_out; [by rewrite length_app, Hs | exact Ha|]. ssteps.
Qed.

Lemma concat_claims_insert (l : list (list ShardMsg)) n q q' extra :
  l !! n = Some q -> inbox_claims q' ≡ₚ inbox_claims q ++ extra ->
  concat (List.map inbox_claims (<[n := q']> l)) ≡ₚ concat (List.map inbox_claims l) ++ extra.
Proof.
  revert n. induction l as [|x l IH]; intros n Hn E; [done|]. destruct n as [|n]; cbn in *.
  - injection Hn as ->. rewrite E, <- !app_assoc. apply Permutation_app_head, Permutation_app_comm.
  - by rewrite (IH _ Hn E), app_assoc.
Qed.

Lemma map_insert {A B} (f : A -> B) (l : list A) n x :
  List.map f (<[n := x]> l) = <[n := f x]> (List.map f l).
Proof. apply (list_fmap_insert f). Qed.

Lemma flowing_post held cfg sid msg Q :
  ends (flowing (msg_claim msg ++ held)) (h_post cfg sid msg)
    (fun r => match r with
              | Some true => flowing held
              | _ => flowing (msg_claim msg ++ held)
              end) Q.
Proof.
  apply ends_run. intros s s' r Hs E. apply obind_inv in E as (k & _ & E).
  destruct (v_shards s !! k) as [sh|] eqn:Esh; [|by injection E as <- <-].
  destruct (try_send _ (inbox sh) msg) as [q|] eqn:Eq; injection E as <- <-; [|exact Hs].
  apply try_send_spec in Eq as ->. destruct Hs as [H1 H2 H3 H4 H5 H6 H7 H8 H9].
  constructor; try assumption; cbn.
  - revert H1. apply kept_perm. unfold owed. cbn. rewrite map_insert. cbn.
    rewrite (concat_claims_insert _ _ (inbox sh) _ (msg_claim msg)).
    + by rewrite <- !app_assoc.
    + by rewrite list_lookup_fmap, Esh.
    + unfold inbox_claims. rewrite map_app, concat_app. cbn. by rewrite app_nil_r.
  - rewrite map_insert. cbn. apply Forall_insert; [exact H2|].
    apply (Forall_lookup_1 _ _ k _ H2). by rewrite list_lookup_fmap, Esh.
Qed.

(** ** The RX thread *)

Section Rx.
Context `{TicketCrypto} (hash_one : IpAddr -> Z) (cfg : Config) (i : RxInput).
Let sid : list Z := take SESSION_ID_LEN (buf i).
Hypothesis Hsid : length sid = SESSION_ID_LEN.
Hypothesis Hack : forall status, acked F (from i) (sid ++ [AUTH_ACK_FRAME_TYPE; status]).

Lemma flowing_ack status : stays (flowing []) (h_ack cfg i sid status).
Proof. by apply flowing_control. Qed.
Lemma flowing_pending : stays (flowing []) (h_pending hash_one i).
Proof.
  apply flowing_leaves, leaves_run. intros s s' r E.
  destruct (pending_allow _ _ _ _) as [[b x]|]; [|discriminate]. by injection E as <- <-.
Qed.
Lemma flowing_source_event k : stays (flowing []) (h_source_event i k).
Proof.
  apply flowing_leaves, leaves_run. intros s s' r E.
  destruct (allow_source_event _ _ _ _ _) as [[l st] x]. by injection E as <- <-.
Qed.
Lemma flowing_verify_once token : stays (flowing []) (h_verify_once cfg i sid token).
Proof.
  apply flowing_leaves, leaves_run. intros s s' r E.
  destruct (verify_relay_ticket_once _ _ _ _ _). by injection E as <- <-.
Qed.
#[local] Hint Resolve flowing_ack flowing_pending flowing_source_event flowing_verify_once : handler.

Lemma flowing_ticket b : stays (flowing []) (rx_ticket hash_one cfg i sid b).
Proof. unfold rx_ticket. ssteps. Qed.
Lemma flowing_reauth_hint t : stays (flowing []) (rx_reauth_hint hash_one cfg i sid t).
Proof. unfold rx_reauth_hint. ssteps. Qed.
Lemma flowing_admit sid' : stays (flowing []) (rx_admit i sid').
Proof. unfold rx_admit. ssteps. Qed.
Lemma flowing_session b : stays (flowing []) (rx_session cfg i sid b).
Proof.
  apply flowing_leaves, leaves_run. intros s s' r E.
  destruct (v_sessions s !! sid); [destruct (_ || _)|]; by injection E as <- <-.
Qed.
Lemma flowing_ingress : stays (flowing []) (rx_ingress i sid).
Proof. apply flowing_leaves. by apply leaves_mod. Qed.
Lemma flowing_hello t : stays (flowing []) (rx_hello cfg i sid t).
Proof.
  unfold rx_hello. ssteps. apply flowing_leaves, leaves_mod. intros s. by destruct (v_sessions s !! sid).
Qed.
Lemma flowing_require_auth a : stays (flowing []) (rx_require_auth cfg a).
Proof. unfold rx_require_auth. ssteps. Qed.
Lemma flowing_name_legacy ip held : stays (flowing held) (h_name_legacy sid ip).
Proof. apply flowing_leaves. by apply leaves_mod. Qed.
Lemma flowing_budget sid' out packet mono held : stays (flowing held) (h_budget sid' out packet mono).
Proof.
  apply flowing_leaves, leaves_run. intros s s' r E. apply obind_inv in E as ([q x] & _ & E).
  by injection E as <- <-.
Qed.
#[local] Hint Resolve flowing_require_auth flowing_name_legacy flowing_budget : handler.

Lemma flowing_rtt a : stays (flowing []) (rx_rtt cfg i sid a).
Proof. unfold rx_rtt. ssteps. apply flowing_leaves. by apply leaves_mod. Qed.

Lemma flowing_keepalive a : stays (flowing []) (rx_keepalive cfg i sid a).
Proof.
  unfold rx_keepalive. ssteps.
  eapply ends_conseq; [apply (flowing_post [] cfg sid (Keepalive sid (from i))) | done | | done].
  by intros [[|]|].
Qed.

Lemma flowing_ping a :
  (forall seq ts, rd_be (buf i) (SESSION_ID_LEN + 1) 4 = Ret seq ->
     rd_be (buf i) (SESSION_ID_LEN + 5) 8 = Ret ts ->
     acked F (from i) (pong_bytes sid seq ts (mono_ms i))) ->
  stays (flowing []) (rx_ping cfg i sid a).
Proof.
  intros Hpong. unfold rx_ping. sstep; [sstep|].
  apply ends_bind_lift. intros seq Eseq. apply ends_bind_lift. intros ts Ets.
  eapply ends_bind; [apply flowing_acquire|]. intros [idx|].
  2: { match goal with |- ends _ ?m _ _ => change (stays (flowing []) m) end. ssteps. }
  eapply ends_bind; [apply flowing_fill|]. intros ?.
  apply ends_bind with (fun _ => flowing []); [|intros ?; by apply ends_continue].
  apply (flowing_queue_tx [] cfg (MkTx (from i) sid idx PONG_FRAME_LEN (enqueue_time i) Control)).
  intros b Hb. cbn [p_len p_kind p_addr tx_claim snd].
  replace PONG_FRAME_LEN with (length (pong_bytes sid seq ts (mono_ms i))).
  - rewrite Hb. auto.
  - unfold pong_bytes. rewrite !length_app, Hsid. reflexivity.
Qed.

Lemma flowing_resolve a :
  (forall request_id hosts, parse_resolve_request (buf i) (len i) = Ret (Some (request_id, hosts)) ->
     resolving F (sid, request_id, hosts, from i)) ->
  stays (flowing []) (rx_resolve cfg i sid a).
Proof.
  intros Hres. unfold rx_resolve. sstep; [sstep|]. apply ends_bind_lift. intros [[rid hosts]|] Er.
  - apply ends_bind with (fun _ => flowing []); [|intros ?; by apply ends_continue].
    apply ends_mod. intros s [H1 H2 H3 H4 H5 H6 H7 H8 H9]. constructor; try assumption. cbn.
    apply Forall_app_2; [exact H5 | apply list.Forall_singleton; auto].
  - by apply ends_continue.
Qed.

Lemma flowing_tun raw count :
  tun_in F (MkInbound sid (from i) raw) -> stays (flowing []) (h_tun cfg i sid raw count).
Proof.
  intros Hin. unfold h_tun. destruct (c_tun_cap cfg) as [cap|]; [|sstep].
  apply ends_get. intros queue. destruct (try_send cap queue _) as [q|] eqn:Eq.
  2: { eapply ends_pre; [apply flowing_drop_in | by intros s []]. }
  apply try_send_spec in Eq as ->. apply ends_bind with (fun _ => flowing []); [|intros ?; apply flowing_stat].
  apply ends_mod. intros s [[H1 H2 H3 H4 H5 H6 H7 H8 H9] ->]. constructor; try assumption. cbn.
  split; [|apply H6]. apply Forall_app_2; [apply H6 | by apply list.Forall_singleton].
Qed.

Lemma flowing_udp game payload info :
  asked F sid (from i) game info payload -> stays (flowing []) (rx_udp cfg i sid game payload info).
Proof.
  intros Hask. unfold rx_udp. sstep; [sstep|].
  eapply ends_bind; [apply flowing_acquire|]. intros [idx|].
  2: { match goal with |- ends _ ?m _ _ => change (stays (flowing []) m) end. ssteps. }
  eapply ends_bind; [apply flowing_fill|]. intros ?.
  set (msg := ClientPacket sid (from i) game info idx (length payload) (now i)).
  apply (ends_pre _ (flowing (msg_claim msg ++ []))).
  2: { intros s. apply flowing_weaken. intros b Hb. by rewrite Hb. }
  eapply ends_bind; [apply flowing_post|].
  assert (ends (flowing (msg_claim msg ++ [])) (h_drop_in ShardQueue ;! h_release idx)
            (fun _ => flowing []) (flowing [])) as Hback.
  { eapply ends_bind; [apply flowing_count | intros ?; apply flowing_release]. }
  intros [[|]|]; [by apply ends_ret | exact Hback | exact Hback].
Qed.

(** The packet as the parser, with a policy in force, understood it. *)
Definition understood (p : ParsedPacket) : Prop :=
  exists ip g g', slice (buf i) SESSION_ID_LEN (len i) = Ret ip
    /\ in_force F g /\ parse_ip_packet_full g ip = Ret (g', Some p).

Hypothesis Hpolicy : forall g protocol dst port, in_force F g -> in_force F (permits g protocol dst port).1.
Hypothesis Hasked : forall game payload info raw,
  understood (Udp game payload info raw) -> asked F sid (from i) game info payload.
Hypothesis Htun : forall p, understood p -> p <> Packet.ForbiddenDst ->
  tun_in F (MkInbound sid (from i) (raw_of p)).

Lemma flowing_forward p : understood p -> stays (flowing []) (rx_forward cfg i sid p).
Proof.
  intros Hp. unfold rx_forward.
  assert (forall raw count, (p <> Packet.ForbiddenDst /\ raw_of p = raw) ->
            stays (flowing []) (h_tun cfg i sid raw count)) as Ht.
  { intros raw count [Hne <-]. by apply flowing_tun, Htun. }
  destruct p; ssteps; try (by apply Ht). by eapply flowing_udp, Hasked.
Qed.

Lemma flowing_packet a : stays (flowing []) (rx_packet cfg i sid a).
Proof.
  unfold rx_packet. sstep; [sstep|]. sstep; [ssteps|]. apply ends_bind_lift. intros ip Eip.
  apply ends_bind with (fun r v => flowing [] v /\ forall p, r = Some p -> understood p).
  { apply ends_run. intros s s' r [H1 H2 H3 H4 H5 H6 H7 H8 H9] E.
    apply obind_inv in E as ([g' x] & E & [= <- <-]). split.
    - constructor; try assumption. cbn. exact (parse_policy_trail _ Hpolicy _ _ _ _ H9 E).
    - intros p ->. by exists ip, (v_policy s), g'. }
  intros r. apply (ends_pure (forall p, r = Some p -> understood p)); [by intros s []|]. intros Hr.
  apply (ends_pre _ (flowing [])); [|by intros s []].
  destruct r as [p|]; [specialize (Hr p eq_refl)|match goal with |- ends _ ?m _ _ => change (stays (flowing []) m) end; ssteps].
  assert (stays (flowing []) (let! ok := h_budget sid false ip (mono_ms i) in
     if negb ok then h_drop_in RateLimit ;! hcontinue else rx_forward cfg i sid p)) as Hgo.
  { ssteps. by apply flowing_forward. }
  destruct p; try exact Hgo. by apply flowing_forward.
Qed.

(** What a datagram past the authentication gate may lead to. *)
Record rx_facts : Prop := {
  r_pong : forall seq ts, rd_be (buf i) (SESSION_ID_LEN + 1) 4 = Ret seq ->
    rd_be (buf i) (SESSION_ID_LEN + 5) 8 = Ret ts ->
    acked F (from i) (pong_bytes sid seq ts (mono_ms i));
  r_resolve : forall request_id hosts,
    parse_resolve_request (buf i) (len i) = Ret (Some (request_id, hosts)) ->
    resolving F (sid, request_id, hosts, from i);
  r_asked : forall game payload info raw,
    understood (Udp game payload info raw) -> asked F sid (from i) game info payload;
  r_tun : forall p, understood p -> p <> Packet.ForbiddenDst ->
    tun_in F (MkInbound sid (from i) (raw_of p));
}.

End Rx.

Definition entitled `{TicketCrypto} (cfg : Config) (i : RxInput) (v : V2) : Prop :=
  auth_needed cfg = true -> authorised i (v_sessions v) (take SESSION_ID_LEN (buf i)).

Lemma flowing_rx `{TicketCrypto} hash_one cfg i v0 :
  (forall status, acked F (from i) (take SESSION_ID_LEN (buf i) ++ [AUTH_ACK_FRAME_TYPE; status])) ->
  (forall g protocol dst port, in_force F g -> in_force F (permits g protocol dst port).1) ->
  (entitled cfg i v0 -> rx_facts i) ->
  ends (fun v => flowing [] v /\ v = v0) (rx_step hash_one cfg i) (fun _ => flowing []) (flowing []).
Proof.
  intros Hack Hpol Hfacts. apply rx_step_ends_with; auto using flowing_stat, flowing_ticket,
    flowing_reauth_hint, flowing_admit.
  intros b ticket Hsid [Hver Hauth]. apply (ends_pre _ (flowing [])); [|by intros v []].
  unfold rx_tail. apply stays_bind; [apply flowing_session|]. intros [x y].
  apply stays_bind; [apply flowing_ingress|]. intros ?.
  destruct b; [by apply flowing_hello|].
  destruct Hfacts as [R1 R2 R3 R4].
  { intros Ha. apply (Hauth Ha). destruct ticket as [t|]; [|done]. by destruct (Hver t eq_refl). }
  destruct (negb y); [ssteps|]. unfold rx_frame.
  apply stays_bind; [apply flowing_lift|]. intros c.
  repeat (destruct (_ && _)); [by apply flowing_ping | ssteps | by apply flowing_rtt | by apply flowing_resolve |].
  destruct (_ =? _)%nat; [by apply flowing_keepalive | by apply flowing_packet].
Qed.

(** ** The shard threads *)

Section Shard.
Context (cfg : Config) (k : nat).

Lemma flows_alter (l : list Shard) f :
  (forall sh, flows_ok (sh_flows sh) -> flows_ok (sh_flows (f sh))) ->
  Forall flows_ok (List.map sh_flows l) -> Forall flows_ok (List.map sh_flows (alter f k l)).
Proof.
  intros Hf. rewrite !Forall_map. intros Hl. apply Forall_alter; [exact Hl|]. intros sh _. apply Hf.
Qed.

Lemma flows_insert m key f addr sent :
  asked F (k_session_id key) addr (k_game_addr key) (f_original_info f) sent ->
  flows_ok m -> flows_ok (<[key := f]> m).
Proof. intros Ha Hm key' f' [[<- <-]|[_ E]]%lookup_insert_Some; eauto. Qed.

Lemma flows_update m key g addr sent :
  (forall f, asked F (k_session_id key) addr (k_game_addr key) (f_original_info (g f)) sent) ->
  flows_ok m -> flows_ok (alter g key m).
Proof. intros Ha Hm key' f' [(<- & f & E & ->)|[_ E]]%lookup_alter_Some; eauto. Qed.

(** A step on the shard that leaves the inbox alone. *)
Lemma flowing_set_shard held f Q :
  (forall sh, inbox (f sh) = inbox sh) ->
  (forall sh, flows_ok (sh_flows sh) -> flows_ok (sh_flows (f sh))) ->
  ends (flowing held) (h_set_shard k f) (fun _ => flowing held) Q.
Proof.
  intros Hi Hf. apply ends_mod. intros s [H1 H2 H3 H4 H5 H6 H7 H8 H9].
  constructor; try assumption; cbn; [|by apply flows_alter].
  unfold owed. cbn. by rewrite map_alter_same.
Qed.

Lemma flowing_read_shard {A} held (m : Shard -> H A) R Q :
  (forall sh, (forall key f, sh_flows sh !! key = Some f -> flows_ok (sh_flows sh)) ->
     ends (fun v => flowing held v /\ sh = default shard_new (v_shards v !! k)) (m sh) R Q) ->
  ends (flowing held) (hbind (h_shard k) m) R Q.
Proof.
  intros Hm. apply ends_get. intros sh.
  apply (ends_pure (forall key f, sh_flows sh !! key = Some f -> flows_ok (sh_flows sh))); [|apply Hm].
  intros v [Hv ->] key f. destruct (v_shards v !! k) as [sh|] eqn:Es; cbn; [|discriminate].
  intros _. apply (Forall_lookup_1 _ _ k _ (d_flows _ _ Hv)). by rewrite list_lookup_fmap, Es.
Qed.

Lemma Ret_pair_inj {A B} (a a' : A) (b b' : B) : Ret (a, b) = Ret (a', b') -> a = a' /\ b = b'.
Proof. by intros [= -> ->]. Qed.

Lemma flowing_write_response key payload info addr sent rtos idx phi Q :
  asked F (k_session_id key) addr (k_game_addr key) info sent -> answered F key payload rtos ->
  ends (flowing [(idx, phi)])
    (hrun (fun v =>
       let* out := buffer (v_pool v) idx in
       let* out := copy_from_slice out 0 SESSION_ID_LEN (k_session_id key) in
       let* head := slice out 0 SESSION_ID_LEN in
       let* tail := slice out SESSION_ID_LEN (length out) in
       let* (tail, ip_len) := write_response_ip_packet_into_with_tos tail payload info
         (default (tos info) rtos) in
       let* p := set_buffer (v_pool v) idx (head ++ tail) in
       Ret (v <| v_pool := p |>, ip_len)))
    (fun r => flowing [(idx, fun b => forall n, r = Some n ->
                data_frame (k_session_id key) (take (SESSION_ID_LEN + n) b))]) Q.
Proof.
  intros Hask Hans. apply ends_run. intros s s' r Hs E.
  apply obind_inv in E as (out & Eb & E). apply obind_inv in E as (out' & Eo & E).
  apply obind_inv in E as (hd & Eh & E). apply obind_inv in E as (tl & Et & E).
  apply obind_inv in E as ([tl' n] & Ew & E). apply obind_inv in E as (p & Ep & [= <- <-]).
  revert Hs. apply flowing_pool. intros l Hk. pose proof (kept_size _ _ _ _ Eb Hk) as Hlen.
  assert (length out' = MAX_PACKET_SIZE) as Hout'.
  { unfold copy_from_slice in Eo. destruct (_ && _) eqn:El; [|discriminate]. injection Eo as <-.
    bool_hyps. rewrite ?length_app, ?length_take, ?length_drop. lia. }
  pose proof (slice_length _ _ _ _ Eh) as Hh. pose proof (slice_length _ _ _ _ Et) as Ht.
  pose proof max_packet_size as Hmax. rewrite write_response_into_spec in Ew.
  refine (kept_write _ _ _ _ _ _ _ Ep _ _ Hk).
  { destruct (Nat.ltb_spec (length tl) (28 + length payload)); apply Ret_pair_inj in Ew as [<- _];
      rewrite !length_app, ?response_packet_length, ?length_drop; unfold SESSION_ID_LEN in *; lia. }
  intros m ->. unfold copy_from_slice in Eo. destruct (_ && _) eqn:El; [|discriminate]. injection Eo as <-.
  apply andb_true_iff in El as [_ El%Nat.eqb_eq]. rewrite Nat.sub_0_r in El.
  unfold slice in Eh. destruct (_ && _); [|discriminate]. injection Eh as <-.
  change 8%nat with SESSION_ID_LEN. rewrite drop_0, <- El, take_app_length.
  destruct (Nat.ltb_spec (length tl) (28 + length payload)); [discriminate|].
  apply Ret_pair_inj in Ew as [<- Em%Some_inj]. subst m. rewrite take_app_add.
  rewrite take_app_length' by (by rewrite response_packet_length). destruct key as [sid game].
  exists game, info, addr, sent, payload, rtos, (response_packet payload info (default (tos info) rtos)).
  cbn in El. unfold SESSION_ID_LEN in *. repeat split; try assumption; [apply build_response_spec | lia].
Qed.

Lemma flowing_response key payload rtos t tu :
  answered F key payload rtos -> stays (flowing []) (shard_response cfg k key payload rtos t tu).
Proof.
  intros Hans. unfold shard_response. apply stays_bind; [apply flowing_get|]. intros v.
  destruct (negb _); [ssteps|]. apply flowing_read_shard. intros sh Hfl.
  apply (ends_pre _ (flowing [])); [|by intros s []].
  destruct (sh_flows sh !! key) as [flow|] eqn:Ef; [|by apply ends_continue].
  destruct (Hfl key flow Ef key flow Ef) as (addr & sent & Hask).
  eapply ends_bind.
  { apply flowing_set_shard; [done|]. intros sh'. eapply flows_insert, Hask. }
  intros ?. apply stays_bind; [apply flowing_leaves; by apply leaves_mod|]. intros ?.
  eapply ends_bind; [apply flowing_acquire|]. intros [idx|].
  2: { match goal with |- ends _ ?m _ _ => change (stays (flowing []) m) end. ssteps. }
  eapply ends_bind; [by eapply flowing_write_response|]. intros [n|].
  - apply (flowing_queue_tx [] cfg (MkTx _ _ idx _ _ Data)). intros b Hb. exact (Hb n eq_refl).
  - eapply ends_bind; [apply flowing_release | intros ?; by apply ends_continue].
Qed.

Lemma flowing_burst key n l :
  (forall payload rtos t tu, (payload, rtos, t, tu) ∈ l -> answered F key payload rtos) ->
  stays (flowing []) (shard_burst cfg k key n l).
Proof.
  revert l. induction n as [|n IH]; intros l Hl; cbn [shard_burst]; [ssteps|].
  destruct l as [|[[[payload rtos] t] tu] l]; [ssteps|].
  apply stays_bind; [apply flowing_response; eapply Hl; by left|].
  intros ?. apply IH. intros p r t' tu' Hin. eapply Hl. by right.
Qed.

Lemma flowing_event token l v0 :
  (forall sh key payload rtos t tu, v_shards v0 !! k = Some sh -> token_to_flow sh !! token = Some key ->
     (payload, rtos, t, tu) ∈ l -> answered F key payload rtos) ->
  ends (fun v => flowing [] v /\ v = v0) (shard_event cfg k token l) (fun _ => flowing []) (flowing []).
Proof.
  intros Hl. unfold shard_event. destruct (token =? 0); [apply ends_continue; by intros s []|].
  apply ends_get. intros sh. destruct (token_to_flow sh !! token) as [key|] eqn:Et.
  2: { apply ends_continue. by intros s [[] _]. }
  apply (ends_pure (v_shards v0 !! k = Some sh)).
  { intros s [[_ ->] ->]. destruct (v_shards v0 !! k); [done|]. discriminate Et. }
  intros Esh. apply (ends_pre _ (flowing [])); [|by intros s [[] _]].
  case_bool_decide; [|by apply ends_continue]. apply flowing_burst. eauto.
Qed.

Lemma flowing_refuse {A} idx phi r (R : A -> V2 -> Prop) :
  ends (flowing [(idx, phi)]) (h_drop_in r ;! h_release idx ;! hcontinue) R (flowing []).
Proof.
  eapply ends_bind; [apply flowing_count|]. intros ?.
  eapply ends_bind; [apply flowing_release|]. intros ?. by apply ends_continue.
Qed.

Lemma flowing_open_flow key addr info idx phi so ro t sent :
  asked F (k_session_id key) addr (k_game_addr key) info sent ->
  ends (flowing [(idx, phi)]) (shard_open_flow k key addr info idx so ro t)
    (fun _ => flowing [(idx, phi)]) (flowing []).
Proof.
  intros Hask. unfold shard_open_flow. apply ends_get. intros v.
  apply (ends_pre _ (flowing [(idx, phi)])); [|by intros s []].
  apply flowing_read_shard. intros sh _. apply (ends_pre _ (flowing [(idx, phi)])); [|by intros s []].
  case_bool_decide; [by apply ends_ret|].
  do 2 (destruct (_ <=? _); [apply flowing_refuse|]).
  apply ends_bind with (fun _ => flowing [(idx, phi)]).
  { apply ends_run. intros s s' r Hs E. destruct (allow_source_event _ _ _ _ _) as [[l st] x].
    injection E as <- <-. by apply (flowing_frame _ s). }
  intros ok. destruct (negb ok).
  { eapply ends_bind; [apply flowing_release | intros ?; by apply ends_continue]. }
  destruct (negb so); [apply flowing_refuse|].
  destruct (allocate_flow_token _ _) as [next token].
  eapply ends_bind; [by apply flowing_set_shard|]. intros ?.
  destruct token as [token|]; [|apply flowing_refuse].
  destruct (negb ro); [apply flowing_refuse|].
  apply flowing_set_shard; [done|]. intros sh'. eapply flows_insert, Hask.
Qed.

Lemma flowing_claim held i phi v :
  flowing ((i, phi) :: held) v -> exists b, buffers (v_pool v) !! i = Some b /\ phi b.
Proof.
  intros Hv. apply (kept_get _ _ _ (owed v ++ held)).
  eapply kept_perm; [symmetry; apply Permutation_middle | apply (d_pool _ _ Hv)].
Qed.

Lemma flowing_client_packet sid addr game info idx plen t0 so ro sr t :
  ends (flowing (msg_claim (ClientPacket sid addr game info idx plen t0)))
    (shard_client_packet k sid addr game info idx plen t0 so ro sr t) (fun _ => flowing []) (flowing []).
Proof.
  cbn [msg_claim]. set (phi b := asked F sid addr game info (take plen b)).
  unfold shard_client_packet. destruct (should_drop_stale_queued_packet _ _ _); [apply flowing_refuse|].
  apply (ends_pure (exists sent, asked F sid addr game info sent)).
  { intros v Hv. destruct (flowing_claim _ _ _ _ Hv) as (b & _ & Hb). by exists (take plen b). }
  intros [sent Hask]. eapply ends_bind; [by eapply flowing_open_flow|]. intros ?.
  eapply ends_bind.
  { apply flowing_set_shard; [done|]. intros sh. by apply (flows_update _ _ _ addr sent). }
  intros ?. apply ends_bind with (fun bytes v => flowing [(idx, phi)] v /\ asked F sid addr game info bytes).
  { apply ends_run. intros s s' bytes Hs E. apply obind_inv in E as (b & Eb & E).
    apply obind_inv in E as (x & Ex & [= <- <-]). split; [exact Hs|].
    destruct (flowing_claim _ _ _ _ Hs) as (b' & Eb' & Hb'). unfold buffer, rd in Eb. rewrite Eb' in Eb.
    injection Eb as ->. unfold slice in Ex. destruct (_ && _); [|discriminate]. injection Ex as <-.
    by rewrite drop_0, Nat.sub_0_r. }
  intros bytes. apply ends_bind with (fun _ => flowing [(idx, phi)]).
  { unfold h_flow_send. destruct sr; [|by apply ends_ret; intros s []..].
    apply ends_mod. intros s [[H1 H2 H3 H4 H5 H6 H7 H8 H9] Hb]. constructor; try assumption. cbn.
    apply Forall_app_2; [exact H3 | apply list.Forall_singleton; by exists addr, info]. }
  intros ?. eapply ends_bind; [apply flowing_release|]. intros ?.
  destruct sr; [by apply ends_ret | apply flowing_count | by apply ends_ret].
Qed.

(** Flow states change in place or go; their packet info stays. *)
Lemma flows_shrink m m' :
  (forall key f', m' !! key = Some f' ->
     exists f, m !! key = Some f /\ f_original_info f' = f_original_info f) ->
  flows_ok m -> flows_ok m'.
Proof. intros Hs Hm key f' E. destruct (Hs key f' E) as (f & Ef & ->). eauto. Qed.

Lemma fold_alter_info (g : FlowState -> FlowState) sid (l : list SocketAddr) key :
  (forall f, f_original_info (g f) = f_original_info f) ->
  forall (m : gmap FlowKey FlowState) f',
  fold_left (fun m a => alter g (MkKey sid a) m) l m !! key = Some f' ->
  exists f, m !! key = Some f /\ f_original_info f' = f_original_info f.
Proof.
  intros Hg. induction l as [|a l IH]; intros m f' E; cbn in E; [eauto|].
  destruct (IH _ _ E) as (f1 & E1 & ->). apply lookup_alter_Some in E1 as [(<- & f & Ef & ->)|[_ Ef]]; eauto.
Qed.

Lemma flowing_shard_keepalive sid addr t : stays (flowing []) (shard_keepalive k sid addr t).
Proof.
  apply flowing_set_shard; [done|]. intros sh. apply flows_shrink.
  intros key f'. by apply fold_alter_info.
Qed.

Lemma flowing_remove_session sid : stays (flowing []) (shard_remove_session k sid).
Proof.
  apply flowing_set_shard; intros sh; destruct (session_flows sh !! sid) as [l|]; try done;
    destruct (fold_shard_ok (remove_one sid) l) with (sh := sh <| session_flows ::= delete sid |>)
      as [E1 E2]; try (intros; apply remove_one_shrinks); [exact E1|].
  apply flows_shrink. intros key f' E. exists f'. split; [exact (lookup_weaken _ _ _ _ E E2) | done].
Qed.

Lemma flowing_take_message msg rest Q :
  ends (fun v => flowing [] v /\ exists sh, v_shards v !! k = Some sh /\ inbox sh = msg :: rest)
    (h_set_shard k (fun sh => sh <| inbox := rest |>)) (fun _ => flowing (msg_claim msg)) Q.
Proof.
  apply ends_mod. intros s [[H1 H2 H3 H4 H5 H6 H7 H8 H9] (sh & Es & Ei)].
  constructor; try assumption; cbn; [|by apply flows_alter].
  revert H1. apply kept_perm. unfold owed. cbn. rewrite app_nil_r.
  assert (List.map inbox (v_shards s) = <[k := msg :: rest]> (List.map inbox (alter (fun sh => sh <| inbox := rest |>) k (v_shards s)))) as ->.
  { apply list_eq. intros n. change (@List.map Shard (list ShardMsg)) with (@fmap list _ Shard (list ShardMsg)).
    destruct (decide (n = k)) as [->|Hn].
    - rewrite list_lookup_insert_eq by (rewrite length_fmap, length_alter; by eapply lookup_lt_Some).
      by rewrite list_lookup_fmap, Es, <- Ei.
    - rewrite list_lookup_insert_ne by done. rewrite !list_lookup_fmap.
      by rewrite list_lookup_alter_ne. }
  rewrite (concat_claims_insert _ _ rest _ (msg_claim msg)).
  - by rewrite <- !app_assoc.
  - change (@List.map Shard (list ShardMsg)) with (@fmap list _ Shard (list ShardMsg)).
    by rewrite list_lookup_fmap, list_lookup_alter_eq, Es.
  - unfold inbox_claims. cbn. apply Permutation_app_comm.
Qed.

Lemma flowing_inbox so ro sr t : stays (flowing []) (shard_inbox k so ro sr t).
Proof.
  unfold shard_inbox. apply ends_get. intros sh. destruct (inbox sh) as [|msg rest] eqn:Ei.
  { apply ends_continue. by intros s []. }
  eapply ends_bind.
  - eapply ends_pre; [apply (flowing_take_message msg rest)|]. intros s [Hs ->]. split; [exact Hs|].
    destruct (v_shards s !! k) as [sh|]; [by exists sh | discriminate].
  - intros ?. destruct msg; [apply flowing_client_packet | apply flowing_shard_keepalive | apply flowing_remove_session].
Qed.

Lemma flowing_shard_cleanup t : stays (flowing []) (shard_cleanup k t).
Proof.
  apply (flowing_set_shard [] (cleaned t)); [apply cleaned_inbox|]. intros sh.
  apply flows_shrink. intros key f' E. rewrite cleaned_flows in E.
  destruct (sh_flows sh !! key) as [f|]; [|discriminate]. cbn in E. exists f. split; [done|].
  unfold cleanup_flow in E. repeat case_match; simplify_eq; done.
Qed.

End Shard.

(** ** The TX thread *)

Lemma flowing_tx_next s w p : flowing [] s -> tx_next s = (w, Some p) -> flowing [tx_claim p] w.
Proof.
  intros [H1 H2 H3 H4 H5 H6 H7 H8 H9] E. unfold tx_next in E. unfold owed in H1.
  destruct (v_tx_control s) as [|q rest] eqn:Ec; [destruct (v_tx_data s) as [|q rest] eqn:Ed; [discriminate|]|];
    injection E as <- ->; (constructor; try assumption); revert H1; apply kept_perm; unfold owed; cbn;
    rewrite ?Ec, ?app_nil_r; apply Permutation_cons_append.
Qed.

Lemma flowing_send_tx auth p ok t tu mono S0 n :
  (forall sid addr, forwarding_addr S0 sid auth tu = Some addr -> dest F sid addr n) ->
  ends (fun v => flowing [tx_claim p] v /\ v_sessions v = S0 /\ length (v_sent v) = n)
    (send_tx_packet auth p ok t tu mono)
    (fun _ => flowing []) (flowing []).
Proof.
  intros Hdest. unfold send_tx_packet.
  assert (forall A r (R : A -> V2 -> Prop), ends (flowing [tx_claim p])
            (h_drop_out r ;! h_release (p_buf_idx p) ;! hcontinue) R (flowing [])) as Hdiscard.
  { intros A r R. eapply ends_bind; [apply flowing_count|]. intros ?.
    eapply ends_bind; [apply flowing_release|]. intros ?. by apply ends_continue. }
  destruct (should_drop_stale_queued_packet _ _ _); [eapply ends_pre; [apply Hdiscard | by intros s []]|].
  apply ends_get. intros sessions.
  set (here := fun v => flowing [tx_claim p] v /\ length (v_sent v) = n).
  set (at_dest := fun addr => match p_kind p with Control => addr = p_addr p | Data => dest F (p_session_id p) addr n end).
  apply ends_bind with (fun addr v => here v /\ at_dest addr).
  { unfold here, at_dest. destruct (p_kind p); [|by apply ends_ret; intros s [(? & ? & ?)]].
    destruct (forwarding_addr sessions (p_session_id p) auth tu) as [addr|] eqn:Ef.
    - apply ends_ret. intros s [(Hs & HS & Hn) ->]. split; [done|]. apply Hdest. by rewrite <- HS.
    - eapply ends_pre; [|intros s [[Hs _] _]; exact Hs].
      eapply ends_bind; [apply (Hdiscard unit _ (fun _ => flowing [])) | intros ?; by apply ends_continue]. }
  intros addr. apply (ends_pure (at_dest addr)); [by intros s []|]. intros Haddr.
  apply ends_bind with (fun bytes v => here v /\ (tx_claim p).2 bytes).
  { apply ends_run. intros s s' r [Hs _] E. apply obind_inv in E as (b & Eb & [= <- <-]).
    split; [exact Hs|]. destruct Hs as [Hs _]. destruct (flowing_claim [] _ _ _ Hs) as (b' & Eb' & Hb').
    unfold buffer, rd in Eb. rewrite Eb' in Eb. by injection Eb as ->. }
  intros bytes. apply (ends_pure ((tx_claim p).2 bytes)); [by intros s []|]. intros Hbytes.
  apply ends_bind with (fun _ => here).
  { eapply ends_pre; [|intros s [Hs _]; exact Hs]. unfold here. destruct (p_kind p); [|by apply ends_ret].
    apply ends_bind_lift. intros ip _. apply ends_run. intros s s' r [Hs Hn] E.
    apply obind_inv in E as ([q x] & _ & [= <- <-]). split; [by apply (flowing_frame _ s) | exact Hn]. }
  intros [|]; cbn [negb]; [|eapply ends_pre; [apply Hdiscard | by intros s []]].
  apply ends_bind_lift. intros frame Eframe.
  assert (justified n (addr, frame)) as Hj.
  { unfold slice in Eframe. destruct (_ && _); [|discriminate]. injection Eframe as <-. unfold at_dest in Haddr.
    rewrite drop_0, Nat.sub_0_r. cbn in Hbytes. destruct (p_kind p); [by eapply JData | subst addr; by apply JControl]. }
  apply ends_bind with (fun _ => flowing [tx_claim p]); [|intros ?; apply flowing_release].
  destruct ok; [|eapply ends_pre; [apply flowing_count | by intros s []]].
  apply ends_bind with (fun _ => flowing [tx_claim p]).
  - apply ends_mod. intros s [[H1 H2 H3 H4 H5 H6 H7 H8 H9] Hn]. constructor; try assumption. cbn.
    apply all_justified_snoc; [exact H4 | by rewrite Hn].
  - intros ?. apply ends_mod. intros s Hs. by apply (flowing_frame _ s).
Qed.

Lemma flowing_tx auth ok t tu mono v0 :
  (forall sid addr, forwarding_addr (v_sessions v0) sid auth tu = Some addr -> dest F sid addr (length (v_sent v0))) ->
  ends (fun v => flowing [] v /\ v = v0) (tx_step auth ok t tu mono) (fun _ => flowing []) (flowing []).
Proof.
  intros Hdest. unfold tx_step.
  apply ends_bind with (fun r v => match r with
    | Some p => flowing [tx_claim p] v /\ v_sessions v = v_sessions v0 /\ length (v_sent v) = length (v_sent v0)
    | None => flowing [] v end).
  - apply ends_run. intros s s' r [Hs ->] [= E]. destruct r as [p|].
    + split; [exact (flowing_tx_next _ _ _ Hs E)|]. unfold tx_next in E.
      destruct (v_tx_control v0); [destruct (v_tx_data v0)|]; by injection E as <- _.
    + unfold tx_next in E. destruct (v_tx_control v0); [destruct (v_tx_data v0)|]; try discriminate.
      by injection E as <-.
  - intros [p|]; [by apply flowing_send_tx | by apply ends_continue].
Qed.

(** ** The cleanup, the TUN threads and the resolver tasks *)

Lemma flowing_close_begin expired sid : stays (flowing []) (close_begin expired sid).
Proof. apply flowing_leaves. unfold close_begin. lsteps. Qed.
Lemma flowing_cleanup_finish cfg : stays (flowing []) (cleanup_finish cfg).
Proof.
  unfold cleanup_finish. apply stays_bind; [apply flowing_leaves; unfold close_finish; lsteps|].
  intros [sid|]; [|ssteps]. apply stays_bind; [|intros ?; ssteps].
  eapply ends_conseq; [apply (flowing_post [] cfg sid (RemoveSession sid)) | done | | done]. by intros [[|]|].
Qed.

Lemma flowing_cleanup cfg t tu : stays (flowing []) (cleanup_step cfg t tu).
Proof.
  unfold cleanup_step. apply stays_bind; [apply flowing_cleanup_finish|]. intros ?.
  apply stays_bind; [apply flowing_get|]. intros sessions.
  apply stays_bind; [|intros ?; apply flowing_leaves; by apply leaves_mod].
  generalize (List.map fst (map_to_list sessions)). intros sids.
  induction sids as [|sid sids IH]; cbn [cleanup_sessions]; [ssteps|].
  apply stays_bind; [|intros ?; exact IH]. unfold cleanup_session.
  apply stays_bind; [apply flowing_close_begin | intros ?; apply flowing_cleanup_finish].
Qed.

(** What the writer has in hand came from a client and passed its checks. *)
Lemma commit_is_write t0 t1 t t' pkt ip src packet :
  writer_assign t0 pkt = Ret (t1, Some (ip, src)) -> writer_commit t pkt ip src = Ret (t', Some packet) ->
  exists u u', writer_step u pkt = Ret (u', Some packet).
Proof.
  intros Ea Ec. set (u := MkTun ∅ {[in_session_id pkt := ip]}).
  assert (writer_assign u pkt = Ret (u, Some (ip, src))) as Eu.
  { revert Ea. unfold writer_assign. destruct (_ <? _)%nat; [discriminate|].
    destruct (rd (raw_ip_packet pkt) 0); [|discriminate]. cbn [obind]. destruct (negb _); [discriminate|].
    destruct (rd (raw_ip_packet pkt) 9); [|discriminate]. cbn [obind]. destruct (negb _); [discriminate|].
    destruct (rd_ipv4 (raw_ip_packet pkt) 12) as [s|]; [|discriminate]. cbn [obind].
    cbn [u session_to_ip]. rewrite lookup_singleton_eq.
    destruct (session_to_ip t0 !! in_session_id pkt); [by intros [= _ -> ->]|].
    destruct (assign_session_ip _ _) as [[i|]|]; cbn [obind]; [|discriminate..]. by intros [= _ -> ->]. }
  assert (rewrite_src_ip (raw_ip_packet pkt) ip = Ret packet) as Er.
  { revert Ec. unfold writer_commit. destruct (ip_to_session t !! ip); [case_bool_decide; [|discriminate]|];
      (destruct (rewrite_src_ip _ _); [|discriminate]); cbn [obind]; congruence. }
  exists u. eexists. unfold writer_step. rewrite Eu. cbn [obind]. unfold writer_commit.
  cbn [u ip_to_session]. rewrite lookup_empty, Er. reflexivity.
Qed.

Lemma flowing_tun_assign : stays (flowing []) tun_assign_turn.
Proof.
  unfold tun_assign_turn, h_nat. sstep; [ssteps|]. apply ends_get. intros [x|].
  { apply ends_continue. by intros s []. }
  apply (ends_pre _ (flowing [])); [|by intros s []]. apply ends_get. intros [|pkt rest].
  { apply ends_continue. by intros s []. }
  apply ends_bind with (fun _ v => flowing [] v /\ tun_in F pkt).
  { apply ends_mod. intros s [[H1 H2 H3 H4 H5 [H6 Hw] H7 H8 H9] E]. rewrite <- E in H6.
    apply Forall_cons_1 in H6 as [Hp H6]. split; [by constructor | exact Hp]. }
  intros ?. apply (ends_pure (tun_in F pkt)); [by intros s []|]. intros Hin.
  apply (ends_pre _ (flowing [])); [|by intros s []].
  apply ends_bind_lift. intros [t assigned] Ew.
  apply ends_mod. intros s [H1 H2 H3 H4 H5 [H6 _] H7 H8 H9]. constructor; try assumption. cbn.
  split; [exact H6|]. destruct assigned as [[ip src]|]; [|exact I]. split; [exact Hin | eauto].
Qed.

Lemma flowing_tun_commit : stays (flowing []) tun_commit_turn.
Proof.
  unfold tun_commit_turn, h_nat. sstep; [ssteps|]. apply ends_get. intros [[[pkt ip] src]|].
  2: { apply ends_continue. by intros s []. }
  apply (ends_pure (writing_ok (Some (pkt, ip, src)))).
  { intros s [Hs ->]. apply (d_tun _ _ Hs). }
  intros (Hin & t0 & t1 & Ea). apply (ends_pre _ (flowing [])); [|by intros s []].
  apply ends_bind_lift. intros [t out] Ew. apply stays_bind.
  { apply stays_mod. intros s [H1 H2 H3 H4 H5 [H6 _] H7 H8 H9]. by constructor. }
  intros ?. destruct out as [packet|]; [|ssteps].
  destruct (commit_is_write _ _ _ _ _ _ _ _ Ea Ew) as (u & u' & Eu).
  apply ends_mod. intros s [H1 H2 H3 H4 H5 H6 H7 H8 H9]. constructor; try assumption. cbn.
  apply Forall_app_2; [exact H7 | apply list.Forall_singleton; by exists u, u', pkt].
Qed.

Lemma flowing_tun_read packet v0 :
  (forall t r, v_nat v0 = Some t -> reader_step t packet = Ret (Some r) -> tun_out F r) ->
  ends (fun v => flowing [] v /\ v = v0) (tun_read_turn packet) (fun _ => flowing []) (flowing []).
Proof.
  intros Hout. unfold tun_read_turn, h_nat.
  apply ends_bind with (fun t v => flowing [] v /\ v_nat v0 = Some t).
  { apply ends_get. intros [t|]; [apply ends_ret; by intros s [[Hs ->] E] | apply ends_continue; by intros s [[]]]. }
  intros t. apply (ends_pure (v_nat v0 = Some t)); [by intros s []|]. intros Et.
  apply (ends_pre _ (flowing [])); [|by intros s []].
  apply ends_bind_lift. intros [r|] Er; [|by apply ends_continue].
  apply ends_get. intros queue. destruct (try_send _ queue r) as [q|] eqn:Eq; [|apply ends_continue; by intros s []].
  apply try_send_spec in Eq as ->. apply ends_mod. intros s [[H1 H2 H3 H4 H5 H6 H7 H8 H9] ->].
  constructor; try assumption. cbn. apply Forall_app_2; [exact H8 | apply list.Forall_singleton; eauto].
Qed.

Lemma flowing_tun_resp auth ok tu mono v0 :
  (forall sid addr, forwarding_addr (v_sessions v0) sid auth tu = Some addr -> dest F sid addr (length (v_sent v0))) ->
  ends (fun v => flowing [] v /\ v = v0) (tun_resp_turn auth ok tu mono) (fun _ => flowing []) (flowing []).
Proof.
  intros Hdest. unfold tun_resp_turn. apply ends_get. intros [|r rest].
  { apply ends_continue. by intros s [[]]. }
  set (n := length (v_sent v0)) in *.
  apply ends_bind with (fun _ v => (flowing [] v /\ v_sessions v = v_sessions v0 /\ length (v_sent v) = n) /\ tun_out F r).
  { apply ends_mod. intros s [[[H1 H2 H3 H4 H5 H6 H7 H8 H9] <-] E]. rewrite <- E in H8.
    apply Forall_cons_1 in H8 as [Hr H8]. split; [split; [by constructor | done] | exact Hr]. }
  intros ?. apply (ends_pure (tun_out F r)); [by intros s []|]. intros Hr.
  apply (ends_pre _ (fun v => flowing [] v /\ v_sessions v = v_sessions v0 /\ length (v_sent v) = n)); [|by intros s []].
  apply ends_get. intros sessions.
  destruct (forwarding_addr sessions _ _ _) as [addr|] eqn:Ef; [|apply ends_continue; by intros s [[]]].
  apply (ends_pure (dest F (tx_session_id r) addr n)).
  { intros s [(_ & HS & _) ->]. apply Hdest. by rewrite <- HS. }
  intros Hd. apply ends_bind with (fun _ v => flowing [] v /\ length (v_sent v) = n).
  { intros s s' b [(Hs & _ & Hn) _] E. pose proof (f_equal fst (sent_budget _ _ _ _ _ _ _ E)) as Es.
    pose proof (flowing_budget _ _ _ _ _ _ _ _ Hs E) as Hb. destruct b; cbn in *; [|exact Hb].
    split; [exact Hb | by rewrite Es]. }
  assert (forall m : H unit, stays (flowing []) m -> ends (fun v => flowing [] v /\ length (v_sent v) = n) m
            (fun _ => flowing []) (flowing [])) as Hstay.
  { intros m Hm. by apply (ends_pre _ (flowing [])); [|intros s []]. }
  intros b. destruct (negb b); [apply Hstay; ssteps|]. destruct ok; [|apply Hstay; ssteps].
  apply ends_bind with (fun _ => flowing []); [|intros ?; apply flowing_leaves; by apply leaves_mod].
  apply ends_mod. intros s [[H1 H2 H3 H4 H5 H6 H7 H8 H9] Hn]. constructor; try assumption. cbn.
  apply all_justified_snoc; [exact H4 | rewrite Hn; by apply JTun].
Qed.

Lemma flowing_resolve_reply n lookup ok : stays (flowing []) (resolve_turn n lookup ok).
Proof.
  unfold resolve_turn. apply ends_get. intros queue.
  destruct (queue !! n) as [[[[sid rid] hosts] addr]|] eqn:Eq; [|apply ends_continue; by intros s []].
  apply ends_bind with (fun _ v => flowing [] v /\ resolving F (sid, rid, hosts, addr)).
  { apply ends_mod. intros s [[H1 H2 H3 H4 H5 H6 H7 H8 H9] ->]. split.
    - constructor; try assumption. cbn. by apply Forall_delete.
    - exact (Forall_lookup_1 _ _ _ _ H5 Eq). }
  intros ?. destruct ok; [|by apply ends_ret; intros s []].
  apply ends_mod. intros s [[H1 H2 H3 H4 H5 H6 H7 H8 H9] Hr]. constructor; try assumption. cbn.
  apply all_justified_snoc; [exact H4 | by apply JResolve].
Qed.

End Flowing.
