(* ===== verification/V2Trace.v ===== *)
(** * Datapath v2: every output has its input

    [V2Data] read over a run: what is sent to a game server, written to the
    TUN device or sent to a client is traced to the turns of the run that
    received it, with the state those turns started in. *)

From Stdlib Require Import String.
From S2P Require Import Prelude Checksum Net Packet TunRewrite TunSession RustStr Tuning DestPolicy Stats Sessions RateLimit AccountBudget Auth Frames Handler V2State V2Rx V2Shard V2Tun V2Inv V2Safe V2Thms V2Auth V2Data.

(** A decision never changes the configuration of the policy. *)
Definition same_policy (p q : DestPolicy) : Prop :=
  same_config p q /\ (policy_ok p -> policy_ok q).

#[export] Instance same_policy_preorder : PreOrder same_policy.
Proof.
  split.
  - by intros p.
  - intros p q r [(E1 & E2 & E3 & E4) H1] [(F1 & F2 & F3 & F4) H2].
    split; [repeat split; congruence | auto].
Qed.

Lemma permits_same_policy p protocol dst port : same_policy p (permits p protocol dst port).1.
Proof.
  pose proof (policy_gate p protocol dst port) as E. unfold policy_permits in E.
  case_bool_decide; [by injection E as <-|].
  apply obind_inv in E as (u & _ & E). destruct u as [u|]; [|by injection E as <-].
  set (p1 := p <| counters ::= _ |>) in E.
  assert (same_policy p (tally p1 protocol dst port u)) as Hs.
  { split; [exact (proj1 (tally_keeps p1 protocol dst port u))|].
    intros Hp. apply tally_ok. destruct Hp. by constructor. }
  destruct (bool_decide _); injection E as <-; [|exact Hs].
  destruct Hs as [Hc Hok]. split; [exact Hc|]. intros Hp. destruct (Hok Hp). by constructor.
Qed.

Section Trace.
Context `{TicketCrypto} (hash_one : IpAddr -> Z) (cfg : Config) (v0 : V2) (l : list turn).

(** A turn of the run, with the state it starts in. *)
Definition during (P : turn -> V2 -> Prop) : Prop :=
  exists l1 a l2 v, l = l1 ++ a :: l2 /\ v2_run hash_one cfg v0 l1 = Ret v /\ P a v.

(** The packet of a datagram, as the parser reads it under the relay's
    destination policy. *)
Definition reads (i : RxInput) (p : ParsedPacket) : Prop :=
  exists ip g g', slice (buf i) SESSION_ID_LEN (len i) = Ret ip
    /\ same_policy (v_policy v0) g /\ parse_ip_packet_full g ip = Ret (g', Some p).

(** The small frames a datagram is answered with. *)
Definition acknowledges (i : RxInput) (frame : list Z) : Prop :=
  let sid := take SESSION_ID_LEN (buf i) in
  (exists status, frame = sid ++ [AUTH_ACK_FRAME_TYPE; status])
  \/ exists seq ts, rd_be (buf i) (SESSION_ID_LEN + 1) 4 = Ret seq
       /\ rd_be (buf i) (SESSION_ID_LEN + 5) 8 = Ret ts
       /\ frame = pong_bytes sid seq ts (mono_ms i).

(** A turn that sends: the clock it reads. *)
Definition sends_at (a : turn) (tu : Z) : Prop :=
  (exists ok t mono, a = TurnTx ok t tu mono) \/ (exists ok mono, a = TurnTunResp ok tu mono).

Definition run_facts : Facts := {|
  asked sid addr game info payload := during (fun a v => exists i raw,
    a = TurnRx i /\ sid = take SESSION_ID_LEN (buf i) /\ addr = from i /\ entitled cfg i v
    /\ reads i (Udp game payload info raw));
  answered key payload rtos := during (fun a v => exists k token datagrams sh t tu,
    a = TurnEvent k token datagrams /\ v_shards v !! k = Some sh
    /\ token_to_flow sh !! token = Some key /\ (payload, rtos, t, tu) ∈ datagrams);
  acked addr frame := during (fun a v => exists i,
    a = TurnRx i /\ addr = from i /\ acknowledges i frame);
  resolving := fun '(sid, request_id, hosts, addr) => during (fun a v => exists i,
    a = TurnRx i /\ sid = take SESSION_ID_LEN (buf i) /\ addr = from i /\ entitled cfg i v
    /\ parse_resolve_request (buf i) (len i) = Ret (Some (request_id, hosts)));
  tun_in packet := during (fun a v => exists i p,
    a = TurnRx i /\ entitled cfg i v /\ reads i p /\ p <> Packet.ForbiddenDst
    /\ packet = MkInbound (take SESSION_ID_LEN (buf i)) (from i) (raw_of p));
  tun_out r := during (fun a v => exists packet t,
    a = TurnTunRead packet /\ v_nat v = Some t /\ reader_step t packet = Ret (Some r));
  task_frame sid frame := False;
  dest sid addr n := during (fun a v => exists tu, sends_at a tu /\ length (v_sent v) = n
    /\ forwarding_addr (v_sessions v) sid (auth_needed cfg) tu = Some addr);
  in_force := same_policy (v_policy v0);
|}.

Lemma turn_flowing l1 a l2 v v' :
  l = l1 ++ a :: l2 -> v2_run hash_one cfg v0 l1 = Ret v ->
  flowing run_facts [] v -> v2_turn hash_one cfg v a = Ret v' -> flowing run_facts [] v'.
Proof.
  intros El Er Hv E. apply obind_inv in E as ([w c] & E & [= <-]).
  assert (forall P : turn -> V2 -> Prop, P a v -> during P) as Hd by (intros P HP; by exists l1, a, l2, v).
  assert (stays (flowing run_facts []) (turn_handler hash_one cfg a) -> flowing run_facts [] w) as Hstay.
  { intros Hs. pose proof (Hs v w c Hv E). by destruct c. }
  assert (ends (fun s => flowing run_facts [] s /\ s = v) (turn_handler hash_one cfg a)
            (fun _ => flowing run_facts []) (flowing run_facts []) -> flowing run_facts [] w) as Hends.
  { intros Hs. pose proof (Hs v w c (conj Hv eq_refl) E). by destruct c. }
  destruct a; cbn [turn_handler] in *.
  - apply Hends, flowing_rx.
    + intros status. apply Hd. exists i. repeat split. left. by exists status.
    + intros g protocol dst port Hg. exact (transitivity Hg (permits_same_policy g protocol dst port)).
    + intros He. constructor.
      * intros seq ts E1 E2. apply Hd. exists i. repeat split. right. by exists seq, ts.
      * intros rid hosts Er'. apply Hd. by exists i.
      * intros game payload info raw Hu. apply Hd. by exists i, raw.
      * intros p Hu Hne. apply Hd. by exists i, p.
  - apply Hends, flowing_event. intros sh key payload rtos t tu Esh Etok Hin. apply Hd.
    by exists shard, token, datagrams, sh, t, tu.
  - apply Hstay, flowing_inbox.
  - apply Hstay, flowing_shard_cleanup.
  - apply Hends, flowing_tx. intros sid addr Ef. apply Hd. exists now_unix. split; [left; eauto | done].
  - apply Hstay, flowing_cleanup.
  - apply Hstay, flowing_close_begin.
  - apply Hstay, flowing_cleanup_finish.
  - apply Hstay, flowing_leaves. by apply leaves_mod.
  - apply Hstay, flowing_tun_assign.
  - apply Hstay, flowing_tun_commit.
  - apply Hends, flowing_tun_read. intros t r Et Er'. apply Hd. by exists packet, t.
  - apply Hends, flowing_tun_resp. intros sid addr Ef. apply Hd. exists now_unix. split; [right; eauto | done].
  - apply Hstay, flowing_resolve_reply.
  - apply Hstay, flowing_leaves. by apply leaves_mod.
  - apply Hstay, flowing_leaves. by apply leaves_mod.
Qed.

Lemma run_flowing l1 l2 v :
  flowing run_facts [] v0 -> l = l1 ++ l2 -> v2_run hash_one cfg v0 l1 = Ret v -> flowing run_facts [] v.
Proof.
  intros Hstart. revert l2 v. induction l1 as [|a l1 IH] using rev_ind; intros l2 v El E.
  { by injection E as <-. }
  rewrite v2_run_app in E. apply obind_inv in E as (w & Ew & E). cbn in E.
  apply obind_inv in E as (v' & Ev & [= <-]). rewrite <- app_assoc in El.
  exact (turn_flowing _ _ _ _ _ El Ew (IH _ _ El Ew) Ev).
Qed.

End Trace.

Lemma flowing_new F tuning policy budget tun t0 :
  in_force F policy -> flowing F [] (v2_new tuning policy budget tun t0).
Proof.
  intros Hp. constructor; cbn -[MAX_PACKET_SIZE]; try exact Hp; try by constructor.
  - assert (forall n, concat (List.map (inbox_claims F) (List.map inbox (replicate n shard_new))) = []) as Hn.
    { intros n. induction n; [done | exact IHn]. }
    unfold owed. cbn -[MAX_PACKET_SIZE]. rewrite Hn.
    split; cbn -[MAX_PACKET_SIZE]; [rewrite app_nil_r; apply NoDup_seq| |constructor|].
    2: { apply Forall_replicate. apply length_replicate. }
    rewrite app_nil_r, length_replicate. apply list.Forall_forall. intros i Hi%elem_of_seq. lia.
  - rewrite Forall_map. apply Forall_replicate. intros key f E. by destruct (lookup_empty_Some (M := gmap FlowKey) key f E).
  - intros n x E. by rewrite lookup_nil in E.
Qed.

(* ------------------------------------------------------------------ *)
(** ** What the parser guarantees of a packet it reads *)

Section Reads.
Context (v0 : V2) (i : RxInput).
Hypothesis Hbytes : bytes_ok (buf i).
Hypothesis Hpolicy : policy_ok (v_policy v0).

Lemma slice_bytes_ok ip : slice (buf i) SESSION_ID_LEN (len i) = Ret ip -> bytes_ok ip.
Proof.
  unfold slice. destruct (_ && _); [|discriminate]. intros [= <-]. by apply bytes_ok_take, bytes_ok_drop.
Qed.

(** The decision on a destination, from the configuration the relay started
    with. *)
Lemma permits_enforced g g' protocol dst port :
  same_policy (v_policy v0) g -> is_u32 dst -> permits g protocol dst port = (g', true) ->
  mode (v_policy v0) = Enforce ->
  listed (udp (v_policy v0)) (tcp (v_policy v0)) (tcp_ports (v_policy v0)) protocol dst port = true.
Proof.
  intros [(E1 & E2 & E3 & E4) Hok] Hd Hp Hm.
  pose proof (permits_spec g protocol dst port (Hok Hpolicy) Hd) as Hs. rewrite Hp in Hs.
  destruct Hs as (_ & _ & Hl & _). rewrite <- E1, Hm in Hl. rewrite E2, E3, E4.
  symmetry in Hl. by rewrite bool_decide_true in Hl.
Qed.

Lemma reads_udp game payload info raw :
  reads v0 i (Udp game payload info raw) ->
  game = SockV4 (dst_ip info) (dst_port info)
  /\ is_forbidden_dst (dst_ip info) = false /\ is_forbidden_dst_port (dst_port info) = false
  /\ (mode (v_policy v0) = Enforce -> covered (udp (v_policy v0)) (dst_ip info) = true).
Proof.
  intros (ip & g & g' & Eip & Hg & Ep).
  destruct (parse_udp_result _ _ _ _ _ _ _ Ep) as (Ea & Hf & Hfp & Hperm & H16 & n & ->).
  repeat (split; [assumption|]). intros Hm.
  apply (permits_enforced g g' 17 _ (Some (dst_port info))); try assumption.
  apply (rd_ipv4_u32 (take n ip) 16); [|exact H16]. by apply bytes_ok_take, slice_bytes_ok.
Qed.

(** The same for any packet that may be forwarded. *)
Definition destination_ok (p : ParsedPacket) : Prop :=
  exists protocol dst port,
    rd (raw_of p) 9 = Ret protocol /\ rd_ipv4 (raw_of p) 16 = Ret dst /\ judged_port p port
    /\ is_forbidden_dst dst = false
    /\ (protocol = 17 -> forall q, port = Some q -> is_forbidden_dst_port q = false)
    /\ (mode (v_policy v0) = Enforce ->
        listed (udp (v_policy v0)) (tcp (v_policy v0)) (tcp_ports (v_policy v0)) protocol dst port = true).

Lemma reads_destination p : reads v0 i p -> p <> Packet.ForbiddenDst -> destination_ok p.
Proof.
  intros (ip & g & g' & Eip & Hg & Ep) Hne.
  pose proof (parse_ip_packet_full_returns g ip) as Hr. rewrite Ep in Hr. destruct Hr as [n Hr]. cbn in Hr.
  assert (raw_of p = take n ip /\ payload_fits p /\ admitted g g' p) as (Hraw & _ & Hadm)
    by (destruct p; try congruence; exact Hr).
  destruct Hadm as (protocol & dst & port & _ & H9 & H16 & Hf & Hfp & Hperm & Hj).
  exists protocol, dst, port. repeat (split; [assumption|]).
  apply (permits_enforced g g'); [assumption| |assumption].
  apply (rd_ipv4_u32 (raw_of p) 16); [|exact H16]. rewrite Hraw. by apply bytes_ok_take, slice_bytes_ok.
Qed.

End Reads.

(* ------------------------------------------------------------------ *)
(** ** Theorems *)

Lemma turn_rx_ok l l1 i l2 : Forall turn_ok l -> l = l1 ++ TurnRx i :: l2 -> bytes_ok (buf i).
Proof.
  intros Hl ->. apply Forall_app in Hl as [_ Hl]. by apply Forall_cons_1 in Hl as [(_ & _ & Hb) _].
Qed.

(** C1: what the relay sends to the internet.  In every state a run reaches,
    each datagram that has gone out on a flow's socket is, byte for byte, the
    UDP payload of a client packet the relay received in that run for the
    flow's session and addressed to the flow's game server; with
    authentication on, the session was authenticated, with a current lease
    and at the sender's address, when that packet arrived; its destination is
    outside the reserved blocks and forbidden ports, and on the allowlist
    when the policy enforces.  So no buffer mix-up, stale content or
    unauthorised packet ever reaches a game server. *)
Theorem v2_game_data_from_clients `{TicketCrypto} hash_one cfg tuning requested file ports budget
  tun t0 (l : list turn) v key bytes :
  let policy := build requested file ports in
  let v0 := v2_new tuning policy budget tun t0 in
  Forall turn_ok l -> v2_run hash_one cfg v0 l = Ret v -> (key, bytes) ∈ v_to_game v ->
  exists l1 i l2 vb info raw,
    l = l1 ++ TurnRx i :: l2 /\ v2_run hash_one cfg v0 l1 = Ret vb
    /\ take SESSION_ID_LEN (buf i) = k_session_id key
    /\ (auth_needed cfg = true -> authorised i (v_sessions vb) (k_session_id key))
    /\ reads v0 i (Udp (k_game_addr key) bytes info raw)
    /\ k_game_addr key = SockV4 (dst_ip info) (dst_port info)
    /\ is_forbidden_dst (dst_ip info) = false /\ is_forbidden_dst_port (dst_port info) = false
    /\ (mode policy = Enforce -> covered (udp policy) (dst_ip info) = true).
Proof.
  intros policy v0 Hl E Hin.
  assert (flowing (run_facts hash_one cfg v0 l) [] v) as Hv.
  { apply (run_flowing hash_one cfg v0 l l [] v); [by apply flowing_new | by rewrite app_nil_r | exact E]. }
  pose proof (d_game _ _ _ Hv) as Hg. rewrite list.Forall_forall in Hg.
  destruct (Hg _ Hin) as (addr & info & l1 & a & l2 & vb & El & Eb & i & raw & -> & Es & _ & He & Hr).
  exists l1, i, l2, vb, info, raw. cbn [fst snd] in *.
  destruct (reads_udp v0 i (turn_rx_ok _ _ _ _ Hl El) (build_ok requested file ports) _ _ _ _ Hr)
    as (H1 & H2 & H3 & H4).
  repeat (split; [done|]). split; [|done]. rewrite Es. exact He.
Qed.

(** C10: the same for the TUN.  Each packet written to the TUN device is what
    the writer makes of a packet a client sent in that run: with
    authentication on its session was authenticated, current and at the
    sender's address, and the packet's own destination passed the address
    and port filters and, when enforcing, the allowlist. *)
Theorem v2_tun_packets_from_clients `{TicketCrypto} hash_one cfg tuning requested file ports budget
  tun t0 (l : list turn) v packet :
  let policy := build requested file ports in
  let v0 := v2_new tuning policy budget tun t0 in
  Forall turn_ok l -> v2_run hash_one cfg v0 l = Ret v -> packet ∈ v_device v ->
  exists l1 i l2 vb p t t',
    l = l1 ++ TurnRx i :: l2 /\ v2_run hash_one cfg v0 l1 = Ret vb
    /\ (auth_needed cfg = true -> authorised i (v_sessions vb) (take SESSION_ID_LEN (buf i)))
    /\ reads v0 i p /\ destination_ok v0 p
    /\ writer_step t (MkInbound (take SESSION_ID_LEN (buf i)) (from i) (raw_of p)) = Ret (t', Some packet).
Proof.
  intros policy v0 Hl E Hin.
  assert (flowing (run_facts hash_one cfg v0 l) [] v) as Hv.
  { apply (run_flowing hash_one cfg v0 l l [] v); [by apply flowing_new | by rewrite app_nil_r | exact E]. }
  pose proof (d_device _ _ _ Hv) as Hg. rewrite list.Forall_forall in Hg.
  destruct (Hg _ Hin) as (t & t' & pkt & (l1 & a & l2 & vb & El & Eb & i & p & -> & He & Hr & Hne & ->) & Ew).
  exists l1, i, l2, vb, p, t, t'. repeat (split; [done|]). split; [|exact Ew].
  exact (reads_destination v0 i (turn_rx_ok _ _ _ _ Hl El) (build_ok requested file ports) p Hr Hne).
Qed.

(** What a datagram may be answered with directly: an authentication ack, a
    pong, or the reply to its resolve request. *)
Definition replies (i : RxInput) (frame : list Z) : Prop :=
  acknowledges i frame
  \/ exists request_id hosts lookup,
       parse_resolve_request (buf i) (len i) = Ret (Some (request_id, hosts))
       /\ frame = resolve_reply lookup (take SESSION_ID_LEN (buf i)) request_id hosts.

(** C2: what the relay sends to clients.  With authentication on, in every
    state a run reaches, each frame that has gone out on the main socket is
    either the answer to a datagram, to the address that datagram came from
    (an authentication ack, a pong that echoes its numbers, or a resolver
    reply to its request), or it is a session id followed by an IP packet
    and went to an address that had presented, before it was sent, a ticket
    verified for that session whose lease was not over at the clock of the
    very turn that sent it (the [n]-th frame is sent by the turn that starts
    with [n] frames sent).  In the second case the packet is the one built
    around a datagram that arrived on a flow of that same session, with the
    endpoints of a packet the session sent on that flow, or one the TUN
    reader queued for that session.  No session's data reaches another
    session's client. *)
Theorem v2_client_frames_justified `{TicketCrypto} hash_one cfg tuning policy budget tun t0
  (l : list turn) v n addr frame :
  let v0 := v2_new tuning policy budget tun t0 in
  let F := run_facts hash_one cfg v0 l in
  auth_needed cfg = true -> v2_run hash_one cfg v0 l = Ret v -> v_sent v !! n = Some (addr, frame) ->
  (exists i, TurnRx i ∈ l /\ addr = from i /\ replies i frame)
  \/ exists l1 b l2 vb sid tu,
       l = l1 ++ b :: l2 /\ v2_run hash_one cfg v0 l1 = Ret vb /\ length (v_sent vb) = n
       /\ sends_at b tu /\ ticket_holder cfg l1 sid tu addr
       /\ (data_frame F sid frame
           \/ exists r, tun_out F r /\ tx_session_id r = sid /\ frame = sid ++ tx_ip_packet r).
Proof.
  intros v0 F Ha E Hin.
  assert (flowing F [] v) as Hv.
  { apply (run_flowing hash_one cfg v0 l l [] v); [by apply flowing_new | by rewrite app_nil_r | exact E]. }
  assert (forall sid a (P : Prop), dest F sid a n -> P -> exists l1 b l2 vb tu,
            l = l1 ++ b :: l2 /\ v2_run hash_one cfg v0 l1 = Ret vb /\ length (v_sent vb) = n
            /\ sends_at b tu /\ ticket_holder cfg l1 sid tu a /\ P) as Hdest.
  { intros sid a P (l1 & b & l2 & vb & El & Eb & tu & Hb & Hn & Ef) HP. rewrite Ha in Ef.
    exists l1, b, l2, vb, tu. repeat (split; [done|]). split; [by eapply forwarding_ticketed | exact HP]. }
  pose proof (d_sent _ _ _ Hv _ _ Hin) as Hs.
  inversion Hs as [a f Hack Ea|sid a f Hd Hf Ea|sid a f Hd Hf Ea|r a Hd Hr Ea|sid rid hosts a lookup Hres Ea]; subst.
  - left. destruct Hack as (l1 & b & l2 & vb & El & _ & i & -> & -> & Hk). exists i. rewrite El.
    split; [apply elem_of_app; right; by left|]. split; [done | by left].
  - right. destruct (Hdest sid addr _ Hd Hf) as (l1 & b & l2 & vb & tu & E1 & E2 & E3 & E4 & E5 & E6).
    exists l1, b, l2, vb, sid, tu. repeat (split; [done|]). by left.
  - destruct Hf.
  - right. destruct (Hdest _ addr _ Hd Hr) as (l1 & b & l2 & vb & tu & E1 & E2 & E3 & E4 & E5 & E6).
    exists l1, b, l2, vb, (tx_session_id r), tu. repeat (split; [done|]). right. by exists r.
  - left. destruct Hres as (l1 & b & l2 & vb & El & _ & i & -> & -> & -> & _ & Ep). exists i.
    split; [rewrite El; apply elem_of_app; right; by left|]. split; [done|]. right. eauto.
Qed.

(* ------------------------------------------------------------------ *)
(** ** Witnesses *)

Section Witnesses.
#[local] Existing Instance toy_crypto.

(** A 31-byte UDP packet 1.1.1.1:5000 -> 128.116.1.1:55000 with payload 1 2 3. *)
Definition udp_123 : list Z :=
  [0x45; 0; 0; 31; 0; 0; 0x40; 0; 64; 17; 0; 0; 1; 1; 1; 1; 128; 116; 1; 1;
   0x13; 0x88; 0xD6; 0xD8; 0; 11; 0; 0; 1; 2; 3].

Definition roblox_file : option (str * (str + str)) := Some (lit "/list", inl (lit "128.116.0.0/17")).
Definition small_tuning : RelayV2Tuning := MkTuning 1 4 4 4 0 0 0 0.
Definition trace_start : V2 :=
  v2_new small_tuning (build Enforce roblox_file [443]) toy_budget true 0.

(** Hello, the ack, a packet for the game, the game's answer and its frame. *)
Definition trace_turns : list turn :=
  [TurnRx (toy_rx toy_hello 0); TurnTx true 1 1201 1; TurnRx (toy_rx (toy_sid ++ udp_123) 2);
   TurnInbox 0 true true SendOk 3; TurnEvent 0 1 [([7; 7], None, 4, 1204)]; TurnTx true 5 1205 5].
Definition trace_end (cfg : Config) (turns : list turn) : V2 :=
  match v2_run toy_hash cfg trace_start turns with Ret v => v | Panic => trace_start end.

Lemma toy_rx_ok frame t :
  (length frame <=? 1000)%nat = true -> forallb (fun b => (0 <=? b) && (b <? 256)) frame = true ->
  turn_ok (TurnRx (toy_rx frame t)).
Proof.
  intros Hl%Nat.leb_le Hb. pose proof max_packet_size. cbn. unfold pad.
  rewrite length_app, length_replicate. split; [lia|]. split; [lia|].
  apply Forall_app_2; [|apply Forall_replicate; unfold in_width; lia].
  apply list.Forall_forall. intros x Hx. rewrite forallb_forall in Hb.
  specialize (Hb x (proj1 (list_elem_of_In _ _) Hx)). unfold in_width. lia.
Qed.

Lemma v2_game_data_from_clients_witness :
  exists l1 i l2 vb info raw,
    trace_turns = l1 ++ TurnRx i :: l2 /\ v2_run toy_hash toy_cfg trace_start l1 = Ret vb
    /\ take SESSION_ID_LEN (buf i) = toy_sid
    /\ (auth_needed toy_cfg = true -> authorised i (v_sessions vb) toy_sid)
    /\ reads trace_start i (Udp (SockV4 (ipv4_new 128 116 1 1) 55000) [1; 2; 3] info raw)
    /\ SockV4 (ipv4_new 128 116 1 1) 55000 = SockV4 (dst_ip info) (dst_port info)
    /\ is_forbidden_dst (dst_ip info) = false /\ is_forbidden_dst_port (dst_port info) = false
    /\ (mode (build Enforce roblox_file [443]) = Enforce ->
        covered (udp (build Enforce roblox_file [443])) (dst_ip info) = true).
Proof.
  apply (v2_game_data_from_clients toy_hash toy_cfg small_tuning Enforce roblox_file [443] toy_budget true 0
    trace_turns (trace_end toy_cfg trace_turns) (MkKey toy_sid (SockV4 (ipv4_new 128 116 1 1) 55000)) [1; 2; 3]).
  - repeat apply List.Forall_cons; try apply List.Forall_nil; try exact I;
      apply toy_rx_ok; vm_compute; reflexivity.
  - apply returned. vm_compute. reflexivity.
  - apply list_elem_of_lookup. exists 0%nat. vm_compute. reflexivity.
Defined.

(** The same packet through the TUN. *)
Definition device_turns : list turn :=
  [TurnRx (toy_rx toy_hello 0); TurnRx (toy_rx (toy_sid ++ udp_123) 2);
   TurnTunAssign; TurnTunCommit].
Definition device_packet : list Z :=
  match v_device (trace_end tun_cfg device_turns) with p :: _ => p | [] => [] end.

Lemma v2_tun_packets_from_clients_witness :
  device_packet <> []
  /\ exists l1 i l2 vb p t t',
    device_turns = l1 ++ TurnRx i :: l2 /\ v2_run toy_hash tun_cfg trace_start l1 = Ret vb
    /\ (auth_needed tun_cfg = true -> authorised i (v_sessions vb) (take SESSION_ID_LEN (buf i)))
    /\ reads trace_start i p /\ destination_ok trace_start p
    /\ writer_step t (MkInbound (take SESSION_ID_LEN (buf i)) (from i) (raw_of p))
       = Ret (t', Some device_packet).
Proof.
  split; [vm_compute; discriminate|].
  apply (v2_tun_packets_from_clients toy_hash tun_cfg small_tuning Enforce roblox_file [443] toy_budget true 0
    device_turns (trace_end tun_cfg device_turns) device_packet).
  - repeat apply List.Forall_cons; try apply List.Forall_nil; try exact I;
      apply toy_rx_ok; vm_compute; reflexivity.
  - apply returned. vm_compute. reflexivity.
  - apply list_elem_of_lookup. exists 0%nat. vm_compute. reflexivity.
Defined.

Definition trace_frame : list Z :=
  match v_sent (trace_end toy_cfg trace_turns) with _ :: (_, f) :: _ => f | _ => [] end.

Lemma v2_client_frames_justified_witness :
  drop 36 trace_frame = [7; 7]
  /\ ((exists i, TurnRx i ∈ trace_turns /\ toy_client = from i /\ replies i trace_frame)
      \/ exists l1 b l2 vb sid tu,
           trace_turns = l1 ++ b :: l2 /\ v2_run toy_hash toy_cfg trace_start l1 = Ret vb
           /\ length (v_sent vb) = 1%nat /\ sends_at b tu /\ ticket_holder toy_cfg l1 sid tu toy_client
           /\ (data_frame (run_facts toy_hash toy_cfg trace_start trace_turns) sid trace_frame
               \/ exists r, tun_out (run_facts toy_hash toy_cfg trace_start trace_turns) r
                    /\ tx_session_id r = sid /\ trace_frame = sid ++ tx_ip_packet r)).
Proof.
  split; [vm_compute; reflexivity|].
  apply (v2_client_frames_justified toy_hash toy_cfg small_tuning (build Enforce roblox_file [443])
    toy_budget true 0 trace_turns (trace_end toy_cfg trace_turns) 1 toy_client trace_frame).
  - reflexivity.
  - apply returned. vm_compute. reflexivity.
  - vm_compute. reflexivity.
Defined.

End Witnesses.
