(* ===== verification/V2Frames.v ===== *)
(** * Datapath v2: the format of what is sent

    From [V2Trace]: what goes to game servers and to clients is made of bytes,
    fits a datagram, and a response frame is a session id and a well-formed
    IPv4 packet with a UDP datagram. *)

From Stdlib Require Import String.
From S2P Require Import Prelude Checksum Net Packet TunRewrite TunSession RustStr Tuning DestPolicy Stats Sessions RateLimit AccountBudget Auth Frames Handler V2State V2Rx V2Shard V2Tun V2Inv V2Safe V2Thms V2Auth V2Data V2Trace.

(** The widths of the fields the parser reads. *)
Record info_ok (info : OriginalPacketInfo) : Prop := {
  io_tos : is_byte (tos info);
  io_src : is_u32 (src_ip info);
  io_dst : is_u32 (dst_ip info);
  io_sport : is_u16 (src_port info);
  io_dport : is_u16 (dst_port info);
}.

Lemma bytes_ok_slice p a b l : bytes_ok p -> slice p a b = Ret l -> bytes_ok l.
Proof.
  unfold slice. intros Hp. destruct (_ && _); [|discriminate]. intros [= <-].
  by apply bytes_ok_take, bytes_ok_drop.
Qed.

Lemma parse_udp_typed {P : Type} `{DestGate P} (g g' : P) packet ihl protocol src dst addr payload info raw :
  bytes_ok packet -> is_u32 src -> is_u32 dst -> (20 <= ihl)%nat ->
  parse_udp g packet ihl protocol src dst = Ret (g', Some (Udp addr payload info raw)) ->
  info_ok info /\ bytes_ok payload /\ (length payload + 28 <= length packet)%nat.
Proof.
  intros Hb Hs Hd Hi E. unfold parse_udp, UDP_HEADER_SIZE in E. cbn zeta in E.
  destruct (_ <? _)%nat eqn:E0; [discriminate|].
  apply obind_inv in E as (sp & Esp & E). apply obind_inv in E as (dp & Edp & E).
  apply obind_inv in E as (ul & Eul & E). destruct (_ || _) eqn:E1; [discriminate|].
  apply obind_inv in E as (pl & Epl & E). apply obind_inv in E as (t & Et & E).
  destruct (is_forbidden_dst dst || _); [discriminate|]. destruct (permits g protocol dst (Some dp)) as [g1 okp] eqn:Eg. cbn in E.
  destruct okp; [|discriminate E]. cbn in E.
  injection E as <- <- <- <- <-. bool_hyps.
  assert (bytes_ok pl /\ (length pl + 28 <= length packet)%nat) as Hpl.
  { destruct (_ <? _)%nat; [|injection Epl as <-; split; [constructor | cbn; lia]].
    split; [by eapply bytes_ok_slice|]. apply slice_length in Epl. lia. }
  split; [|exact Hpl]. constructor; cbn; try assumption.
  - apply rd_Ret_inv in Et. by eapply bytes_ok_lookup.
  - by eapply rd16_u16.
  - by eapply rd16_u16.
Qed.

(** A UDP packet the parser hands on. *)
Lemma parse_typed {P : Type} `{DestGate P} (g g' : P) packet addr payload info raw :
  bytes_ok packet -> parse_ip_packet_full g packet = Ret (g', Some (Udp addr payload info raw)) ->
  info_ok info /\ bytes_ok payload /\ (length payload + 28 <= length packet)%nat.
Proof.
  intros Hb E. unfold parse_ip_packet_full, IP_HEADER_MIN in E.
  destruct (_ <? _)%nat; [discriminate|]. apply obind_inv in E as (b0 & _ & E).
  destruct (negb _); [discriminate|]. destruct ((ihl_of b0 <? _)%nat || _) eqn:Ei; [discriminate|].
  apply obind_inv in E as (total & _ & E). destruct ((Z.to_nat total <? _)%nat || _) eqn:Et; [discriminate|].
  apply obind_inv in E as (p & Ep & E). apply obind_inv in E as (protocol & _ & E).
  apply obind_inv in E as (src & Es & E). apply obind_inv in E as (dst & Ed & E).
  apply obind_inv in E as (bits & _ & E). bool_hyps.
  pose proof (bytes_ok_slice _ _ _ _ Hb Ep) as Hp. apply slice_length in Ep.
  assert (parse_udp g p (ihl_of b0) protocol src dst = Ret (g', Some (Udp addr payload info raw)) ->
    info_ok info /\ bytes_ok payload /\ (length payload + 28 <= length packet)%nat) as Hudp.
  { intros Er.
    destruct (parse_udp_typed g g' p (ihl_of b0) protocol src dst addr payload info raw Hp
                (rd_ipv4_u32 _ _ _ Hp Es) (rd_ipv4_u32 _ _ _ Hp Ed)) as (Hi & Hpl & Hlen); [lia | exact Er|].
    split; [exact Hi|]. split; [exact Hpl | lia]. }
  destruct (negb (Z.land bits _ =? 0) || _).
  - unfold parse_fragment in E. cbn zeta in E. repeat first
      [ discriminate E
      | match type of E with
        | obind _ _ = _ => apply obind_inv in E as (? & ? & E)
        | context [if ?b then _ else _] => destruct b
        | context [permits g ?a ?b ?c] => destruct (permits g a b c)
        end ].
  - destruct (protocol =? 17); [by apply Hudp|]. destruct (protocol =? 6); [|discriminate].
    unfold parse_tcp in E. cbn zeta in E. repeat first
      [ discriminate E
      | match type of E with
        | obind _ _ = _ => apply obind_inv in E as (? & ? & E)
        | context [if ?b then _ else _] => destruct b
        | context [permits g ?a ?b ?c] => destruct (permits g a b c)
        end ].
Qed.

(** A response frame: a session id and an IPv4 packet with a UDP datagram. *)
Record response_frame (frame : list Z) : Prop := {
  rf_bytes : bytes_ok frame;
  rf_size : (SESSION_ID_LEN + 28 <= length frame <= MAX_PACKET_SIZE)%nat;
  rf_version : rd (drop SESSION_ID_LEN frame) 0 = Ret 0x45;
  rf_total : rd16 (drop SESSION_ID_LEN frame) 2 = Ret (Z.of_nat (length frame - SESSION_ID_LEN));
  rf_protocol : rd (drop SESSION_ID_LEN frame) 9 = Ret 17;
  rf_checksum : calculate_ip_checksum (take 20 (drop SESSION_ID_LEN frame)) = 0;
  rf_udp : rd16 (drop SESSION_ID_LEN frame) 24 = Ret (Z.of_nat (length frame - SESSION_ID_LEN - 20));
}.

Lemma response_packet_bytes payload info t :
  bytes_ok payload -> info_ok info -> is_byte t -> bytes_ok (response_packet payload info t).
Proof.
  intros Hp Hi Ht. unfold response_packet.
  assert (forall x, is_byte (u8 x)) as Hu8 by (intros x; by apply wrap_bound).
  assert (forall x, is_byte (lo8 x)) as Hlo by (intros x; rewrite lo8_eq; apply byte_mod).
  assert (forall x, is_byte (hi8 x)) as Hhi by (intros x; rewrite hi8_eq; apply byte_mod).
  apply bytes_ok_app; [by apply ip_header_with_ok|]. apply bytes_ok_app; [|exact Hp].
  unfold udp_header. repeat apply Forall_cons_2; auto; try apply List.Forall_nil; unfold in_width; lia.
Qed.

Lemma response_frame_of sid payload info t :
  length sid = SESSION_ID_LEN -> bytes_ok sid -> bytes_ok payload -> info_ok info -> is_byte t ->
  (SESSION_ID_LEN + 28 + length payload <= MAX_PACKET_SIZE)%nat ->
  response_frame (sid ++ response_packet payload info t).
Proof.
  intros Hl Hs Hp Hi Ht Hmax. pose proof max_packet_size as Hm.
  pose proof (response_packet_length payload info t) as Hlen.
  assert (drop SESSION_ID_LEN (sid ++ response_packet payload info t) = response_packet payload info t) as Ed
    by (by rewrite <- Hl, drop_app_length).
  destruct (response_fields payload info t) as (E2 & _ & _ & _ & _ & E24);
    [lia | apply Hi | apply Hi | apply Hi | apply Hi|].
  constructor; rewrite ?Ed, ?length_app.
  - apply bytes_ok_app; [exact Hs | by apply response_packet_bytes].
  - unfold SESSION_ID_LEN in *. lia.
  - reflexivity.
  - rewrite E2. f_equal. lia.
  - reflexivity.
  - unfold response_packet. rewrite take_app_length' by reflexivity. by apply ip_header_checksum.
  - rewrite E24. f_equal. unfold SESSION_ID_LEN in *. lia.
Qed.

(** What the sockets hand to a shard: bytes, and a TOS that is a byte. *)
Definition datagrams_ok (a : turn) : Prop :=
  match a with
  | TurnEvent _ _ datagrams =>
      Forall (fun '(payload, rtos, _, _) => bytes_ok payload /\ is_byte (default 0 rtos)) datagrams
  | _ => True
  end.

Section Run.
Context `{TicketCrypto} (hash_one : IpAddr -> Z) (cfg : Config) (v0 : V2) (l : list turn).
Lemma during_turn P : during hash_one cfg v0 l P -> exists a v, a ∈ l /\ P a v.
Proof. intros (l1 & a & l2 & v & -> & _ & HP). exists a, v. split; [apply elem_of_app; right; by left | done]. Qed.

Hypothesis Hl : Forall turn_ok l.
Hypothesis Hd : Forall datagrams_ok l.
Let F := run_facts hash_one cfg v0 l.

(** A packet of the run. *)
Lemma asked_typed sid addr game info payload :
  asked F sid addr game info payload ->
  bytes_ok sid /\ info_ok info /\ bytes_ok payload
  /\ (SESSION_ID_LEN + 28 + length payload <= MAX_PACKET_SIZE)%nat.
Proof.
  intros (a & v & Hin & i & raw & -> & -> & _ & _ & ip & g & g' & Es & _ & Ep)%during_turn.
  rewrite list.Forall_forall in Hl. destruct (Hl _ Hin) as (Hlen & Hi & Hb).
  destruct (parse_typed _ _ _ _ _ _ _ (bytes_ok_slice _ _ _ _ Hb Es) Ep) as (H1 & H2 & H3).
  apply slice_length in Es. split; [by apply bytes_ok_take|]. split; [exact H1|]. split; [exact H2|].
  unfold SESSION_ID_LEN in *. lia.
Qed.

Lemma data_frame_typed sid frame : data_frame F sid frame -> response_frame frame.
Proof.
  intros (game & info & addr & sent & payload & rtos & ip & Ha & Hans & Eb & -> & Hsid & Hmax).
  destruct (asked_typed _ _ _ _ _ Ha) as (H1 & H2 & _ & _). rewrite build_response_spec in Eb. injection Eb as <-.
  apply during_turn in Hans as (a & v & Hin & k & token & ds & sh & t & tu & -> & _ & _ & Hp).
  rewrite list.Forall_forall in Hd. specialize (Hd _ Hin). cbn in Hd. rewrite list.Forall_forall in Hd.
  destruct (Hd _ Hp) as [Hb Ht]. apply response_frame_of; try assumption.
  destruct rtos; [exact Ht | apply H2].
Qed.

End Run.

(** C11: everything the relay sends has the format it should have.  In every
    state a run reaches, each datagram sent to a game server is made of bytes
    and is at most 1564 bytes long (with a session id and the 28 bytes of its
    IP and UDP headers it is within 1600 bytes); each frame sent to a client
    is an answer to a datagram, a session id and a packet the TUN reader
    queued for that session (forwarded whatever its length and protocol), or a
    response frame, which is what the relay builds for the datagrams of its
    flows: at most 1600 bytes, a session id and an IPv4 packet whose length
    fields agree with its length, with protocol UDP and a valid header
    checksum. *)
Theorem v2_frames_well_formed `{TicketCrypto} hash_one cfg tuning policy budget tun t0 (l : list turn) v :
  let v0 := v2_new tuning policy budget tun t0 in
  let F := run_facts hash_one cfg v0 l in
  Forall turn_ok l -> Forall datagrams_ok l -> v2_run hash_one cfg v0 l = Ret v ->
  (forall key bytes, (key, bytes) ∈ v_to_game v ->
     bytes_ok bytes /\ (SESSION_ID_LEN + 28 + length bytes <= MAX_PACKET_SIZE)%nat)
  /\ forall addr frame, (addr, frame) ∈ v_sent v ->
       (exists i, TurnRx i ∈ l /\ addr = from i /\ replies i frame)
       \/ (exists r, tun_out F r /\ frame = tx_session_id r ++ tx_ip_packet r)
       \/ response_frame frame.
Proof.
  intros v0 F Hl Hd E.
  assert (flowing F [] v) as Hv.
  { apply (run_flowing hash_one cfg v0 l l [] v); [by apply flowing_new | by rewrite app_nil_r | exact E]. }
  split.
  - intros key bytes Hin. pose proof (d_game _ _ _ Hv) as Hg. rewrite list.Forall_forall in Hg.
    destruct (Hg _ Hin) as (addr & info & Ha). cbn in Ha. by apply asked_typed in Ha as (_ & _ & ? & ?).
  - intros addr frame [n Hin]%list_elem_of_lookup. pose proof (d_sent _ _ _ Hv _ _ Hin) as Hs.
    inversion Hs as [a f Hack Ea|sid a f Hto Hf Ea|sid a f Hto [] Ea|r a Hto Hr Ea|sid rid hosts a lookup Hres Ea]; subst.
    + left. destruct (during_turn _ _ _ _ _ Hack) as (a & w & Ha & i & -> & -> & Hk). exists i.
      split; [exact Ha|]. split; [done | by left].
    + right. right. by eapply data_frame_typed.
    + right. left. by exists r.
    + left. destruct (during_turn _ _ _ _ _ Hres) as (a & w & Ha & i & -> & -> & -> & _ & Ep). exists i.
      split; [exact Ha|]. split; [done|]. right. eauto.
Qed.

Section Witness.
#[local] Existing Instance toy_crypto.

Lemma v2_frames_well_formed_witness :
  v_to_game (trace_end toy_cfg trace_turns) <> []
  /\ length (v_sent (trace_end toy_cfg trace_turns)) = 2%nat
  /\ (forall key bytes, (key, bytes) ∈ v_to_game (trace_end toy_cfg trace_turns) ->
        bytes_ok bytes /\ (SESSION_ID_LEN + 28 + length bytes <= MAX_PACKET_SIZE)%nat).
Proof.
  split; [vm_compute; discriminate|]. split; [vm_compute; reflexivity|].
  refine (proj1 (v2_frames_well_formed toy_hash toy_cfg small_tuning (build Enforce roblox_file [443])
    toy_budget true 0 trace_turns (trace_end toy_cfg trace_turns) _ _ _)).
  - repeat apply List.Forall_cons; try apply List.Forall_nil; try exact I;
      apply toy_rx_ok; vm_compute; reflexivity.
  - repeat apply List.Forall_cons; try apply List.Forall_nil; try exact I.
    split; [|unfold in_width; cbn; lia]. repeat apply List.Forall_cons; try apply List.Forall_nil; unfold in_width; lia.
  - apply returned. vm_compute. reflexivity.
Defined.

End Witness.
