(* ===== verification/V2Deliver.v ===== *)
(** * Datapath v2: what is admitted is delivered

    The safety theorems would also hold of a relay that drops everything.
    Here the other direction: a packet of an established session that every
    limit admits goes out to its game server, byte for byte, after one turn
    of the RX thread and one of the shard, and a datagram of a game server
    reaches the client after one turn of the shard and one of the TX thread.
    [passes] is [hoare] without the [Continue] exit: the handler runs to its
    end. *)

From Stdlib Require Import String.
From S2P Require Import Prelude Checksum Net Packet TunRewrite TunSession RustStr Tuning DestPolicy Stats Sessions RateLimit AccountBudget Auth Frames Handler V2State V2Rx V2Shard V2Tun V2Inv V2Safe V2Thms V2Flows V2Auth V2Data V2Trace.

Definition passes {S A} (P : S -> Prop) (m : handler S A) (R : A -> S -> Prop) : Prop :=
  hoare P m R (fun _ => False).

Section Passes.
Context {S : Type}.

Lemma passes_bind {A B} (P : S -> Prop) (m : handler S A) (k : A -> handler S B) M R :
  passes P m M -> (forall a, passes (M a) (k a) R) -> passes P (hbind m k) R.
Proof. apply hoare_bind. Qed.
(** A step whose result is known. *)
Lemma passes_step {A B} (P M : S -> Prop) (m : handler S A) a (k : A -> handler S B) R :
  passes P m (fun x s => x = a /\ M s) -> passes M (k a) R -> passes P (hbind m k) R.
Proof.
  intros Hm Hk. eapply hoare_bind; [exact Hm|]. intros x s [-> Hs]. exact (Hk s Hs).
Qed.
Lemma passes_get {A B} (P : S -> Prop) (f : S -> A) (k : A -> handler S B) R :
  (forall s0, P s0 -> passes (fun s => s = s0) (k (f s0)) R) -> passes P (hbind (hget f) k) R.
Proof. intros H s Hs. apply wp_bind. exact (H s Hs s eq_refl). Qed.
Lemma passes_run {A} (P : S -> Prop) (f : S -> outcome (S * A)) (R : A -> S -> Prop) :
  (forall s, P s -> returns (f s) (fun '(s', a) => R a s')) -> passes P (hrun f) R.
Proof. apply hoare_run. Qed.
Lemma passes_mod (P : S -> Prop) f (R : unit -> S -> Prop) :
  (forall s, P s -> R tt (f s)) -> passes P (hmod f) R.
Proof. intros H s Hs. exact (H s Hs). Qed.
Lemma passes_pre {A} (P P' : S -> Prop) (m : handler S A) R :
  passes P' m R -> (forall s, P s -> P' s) -> passes P m R.
Proof. apply hoare_pre. Qed.
Lemma passes_ret {A} (P : S -> Prop) (a : A) (R : A -> S -> Prop) : (forall s, P s -> R a s) -> passes P (hret a) R.
Proof. intros H s Hs. exact (H s Hs). Qed.

End Passes.

(* ------------------------------------------------------------------ *)
(** ** To the game server: the RX thread *)

(** The first byte of an IPv4 packet is none of the frame types. *)
Lemma parse_version {P : Type} `{DestGate P} (g g' : P) packet p :
  bytes_ok packet -> parse_ip_packet_full g packet = Ret (g', Some p) ->
  (IP_HEADER_MIN <= length packet)%nat /\ exists b0, rd packet 0 = Ret b0 /\ 64 <= b0 < 80.
Proof.
  intros Hb E. unfold parse_ip_packet_full in E.
  destruct (Nat.ltb_spec (length packet) IP_HEADER_MIN) as [|Hl]; [discriminate|]. split; [exact Hl|].
  apply obind_inv in E as (b0 & Eb & E). exists b0. split; [exact Eb|].
  destruct (Z.eqb_spec (Z.land (Z.shiftr b0 4) 15) 4) as [Hv|]; [|discriminate].
  assert (is_byte b0) as Hi.
  { unfold rd in Eb. destruct (packet !! 0%nat) as [x|] eqn:Ex; [|discriminate]. injection Eb as <-.
    exact (Forall_lookup_1 _ _ _ _ Hb Ex). }
  change 15 with (Z.ones 4) in Hv. rewrite Z.land_ones, Z.shiftr_div_pow2 in Hv by lia.
  unfold in_width in Hi. change (2 ^ 4) with 16 in Hv. change (2 ^ 8) with 256 in Hi.
  Z.to_euclidean_division_equations. lia.
Qed.

Lemma lookup_alter_Some_2 {A} (f : A -> A) (m : gmap (list Z) A) k x :
  m !! k = Some x -> alter f k m !! k = Some (f x).
Proof. intros E. by rewrite lookup_alter_eq, E. Qed.

Lemma parse_payload_length {P : Type} `{DestGate P} (g g' : P) packet addr payload info raw :
  parse_ip_packet_full g packet = Ret (g', Some (Udp addr payload info raw)) ->
  (length payload <= length packet)%nat.
Proof.
  intros E. pose proof (parse_ip_packet_full_returns g packet) as Hr. rewrite E in Hr.
  destruct Hr as [n (Hraw & Hf & _)]. cbn in Hraw, Hf. rewrite Hraw, length_take in Hf. lia.
Qed.

(** The account an admission is charged to. *)
Definition payer (e : SessionEntry) : option str :=
  if bool_decide (auth_state e = Authenticated) then Some (user_id e) else None.

Lemma allow_payer (b : Budgets) (s s' : gmap (list Z) SessionEntry) (sid : list Z) out packet t :
  payer <$> s' !! sid = payer <$> s !! sid -> allow b s' sid out packet t = allow b s sid out packet t.
Proof.
  unfold allow, payer. intros E. destruct (s' !! sid) as [e'|], (s !! sid) as [e|]; try discriminate; [|done].
  cbn in E. injection E as E. destruct (bool_decide (auth_state e' = _)), (bool_decide (auth_state e = _));
    try discriminate; cbn; [|done]. by injection E as ->.
Qed.

Lemma free_in_range v idx rest :
  inv [] v -> free (v_pool v) = idx :: rest -> (idx < length (buffers (v_pool v)))%nat.
Proof.
  intros Hv Hf. assert (idx ∈ seq 0 (length (buffers (v_pool v)))) as Hs
    by (rewrite <- (i_pool _ _ Hv), Hf; apply elem_of_app; left; by left).
  apply elem_of_seq in Hs. lia.
Qed.

(** What the relay requires of a datagram to hand its payload to a shard: an
    established session at the sender's address, a packet the parser and the
    policy accept, the packet limit of the source and the budget of the
    account, a free buffer and room in the inbox of the session's shard. *)
Record admits `{TicketCrypto} (cfg : Config) (v : V2) (i : RxInput) (game : SocketAddr) (payload : list Z)
  (info : OriginalPacketInfo) (k : nat) (sh : Shard) (lim : SourceRateLimiter) : Prop := {
  ad_input : turn_ok (TurnRx i);
  ad_session : exists e, v_sessions v !! take SESSION_ID_LEN (buf i) = Some e /\ client_addr e = from i
    /\ (auth_needed cfg = true -> session_auth_is_current e (now_unix i) = true);
  ad_packet : exists ip pol bud raw, slice (buf i) SESSION_ID_LEN (len i) = Ret ip
    /\ parse_ip_packet_full (v_policy v) ip = Ret (pol, Some (Udp game payload info raw))
    /\ allow (v_budgets v) (v_sessions v) (take SESSION_ID_LEN (buf i)) false ip (mono_ms i) = Ret (bud, true);
  ad_limit : limiter_allow (v_limiter v) (sock_ip (from i)) RateLimit.Packet (now i) = (lim, true);
  ad_shards : c_tun_udp_enabled cfg = false;
  ad_pool : free (v_pool v) <> [];
  ad_shard : shard_for_session (take SESSION_ID_LEN (buf i)) (length (v_shards v)) = Ret k;
  ad_here : v_shards v !! k = Some sh;
  ad_room : (length (inbox sh) < c_shard_queue_cap cfg)%nat;
}.

Section Rx.
Context `{TicketCrypto} (hash_one : IpAddr -> Z) (cfg : Config) (v : V2) (i : RxInput).
Let sid := take SESSION_ID_LEN (buf i).

(** The state of the RX thread between two steps: nothing has moved but what
    the arguments say. *)
Record stage (e : SessionEntry) (lim : SourceRateLimiter) (pol : DestPolicy) (bud : Budgets) (s : V2) : Prop := {
  sg_session : exists e', v_sessions s !! sid = Some e' /\ client_addr e' = from i
    /\ auth_state e' = auth_state e /\ lease_expires_at_unix e' = lease_expires_at_unix e
    /\ payer e' = payer e;
  sg_limiter : v_limiter s = lim;
  sg_policy : v_policy s = pol;
  sg_budgets : v_budgets s = bud;
  sg_pool : v_pool s = v_pool v;
  sg_shards : v_shards s = v_shards v;
  sg_game : v_to_game s = v_to_game v;
}.

Section Steps.
Context (e : SessionEntry) (lim : SourceRateLimiter) (pol : DestPolicy) (bud : Budgets).
Hypothesis Haddr : client_addr e = from i.
Hypothesis Hauth : auth_needed cfg = true -> session_auth_is_current e (now_unix i) = true.

Lemma stage_stat f : passes (stage e lim pol bud) (stat f) (fun _ => stage e lim pol bud).
Proof. apply passes_mod. intros s [H1 H2 H3 H4 H5 H6 H7]. by constructor. Qed.

Lemma current_same e' : auth_state e' = auth_state e -> lease_expires_at_unix e' = lease_expires_at_unix e ->
  session_auth_is_current e' (now_unix i) = session_auth_is_current e (now_unix i).
Proof. unfold session_auth_is_current. by intros -> ->. Qed.

Lemma source_allowed e' b hello :
  client_addr e' = from i -> authenticated_session_source_allowed e' b (from i) hello = true.
Proof.
  intros Ea. unfold authenticated_session_source_allowed.
  rewrite Ea, (bool_decide_true (from i = from i)), orb_true_r by done. by destruct (_ || _).
Qed.

Lemma stage_reauth : passes (stage e lim pol bud) (rx_reauth_hint hash_one cfg i sid None) (fun _ => stage e lim pol bud).
Proof.
  apply passes_get. intros s Hs. destruct (sg_session _ _ _ _ _ Hs) as (e' & E & Ea & _).
  rewrite E, Ea, (bool_decide_true (from i = from i)) by done. rewrite andb_false_r. apply passes_ret. by intros ? ->.
Qed.

Lemma stage_gate : passes (stage e lim pol bud) (rx_auth_gate cfg i sid None) (fun _ => stage e lim pol bud).
Proof.
  apply passes_get. intros s Hs. destruct (sg_session _ _ _ _ _ Hs) as (e' & E & Ea & Es & El & _).
  rewrite E, (current_same e' Es El), (source_allowed e' _ _ Ea).
  destruct (auth_needed cfg); [rewrite Hauth by done|]; apply passes_ret; by intros ? ->.
Qed.

Lemma stage_admit lim' :
  limiter_allow lim (sock_ip (from i)) RateLimit.Packet (now i) = (lim', true) ->
  passes (stage e lim pol bud) (rx_admit i sid) (fun _ => stage e lim' pol bud).
Proof.
  intros Hl. apply (passes_step _ (stage e lim' pol bud) _ true).
  - apply passes_run. intros s [H1 H2 H3 H4 H5 H6 H7]. unfold allow_source_event. rewrite H2, Hl. cbn.
    split; [done|]. by constructor.
  - apply passes_get. intros s Hs. destruct (sg_session _ _ _ _ _ Hs) as (e' & E & _).
    change (id s) with s. rewrite E, bool_decide_true by done. apply passes_ret. by intros ? ->.
Qed.

Lemma stage_session :
  passes (stage e lim pol bud) (rx_session cfg i sid false)
    (fun x s => x = (session_auth_is_current e (now_unix i), true) /\ stage e lim pol bud s).
Proof.
  apply passes_run. intros s [H1 H2 H3 H4 H5 H6 H7]. destruct H1 as (e' & E & Ea & Es & El & Ep).
  rewrite E, (current_same e' Es El).
  rewrite (source_allowed e' _ _ Ea), Ea, (bool_decide_true (from i = from i)), orb_true_r by done. cbn. split; [done|].
  constructor; try done. eexists. cbn. rewrite lookup_insert_eq. by repeat split.
Qed.

Lemma stage_ingress : passes (stage e lim pol bud) (rx_ingress i sid) (fun _ => stage e lim pol bud).
Proof. apply passes_mod. intros s [H1 H2 H3 H4 H5 H6 H7]. by constructor. Qed.

Lemma stage_name ip : passes (stage e lim pol bud) (h_name_legacy sid ip) (fun _ => stage e lim pol bud).
Proof.
  apply passes_mod. intros s [H1 H2 H3 H4 H5 H6 H7]. constructor; try done.
  destruct H1 as (e' & E & Ea & Es & El & Ep). eexists. split; [exact (lookup_alter_Some_2 _ _ _ _ E)|].
  case_bool_decide as Hb; [done|]. repeat (split; [done|]).
  rewrite <- Ep. unfold payer. cbn -[show_ipv4]. by rewrite bool_decide_false.
Qed.

Lemma stage_parse ip pol' p :
  parse_ip_packet_full pol ip = Ret (pol', p) ->
  passes (stage e lim pol bud) (h_parse ip) (fun x s => x = p /\ stage e lim pol' bud s).
Proof.
  intros Hp. apply passes_run. intros s [H1 H2 H3 H4 H5 H6 H7]. rewrite H3, Hp. cbn.
  split; [done|]. by constructor.
Qed.

Lemma stage_budget (ip : list Z) (bud' : Budgets) (ok : bool) (mono : Z) (sessions : gmap (list Z) SessionEntry) :
  sessions !! sid = Some e -> allow bud sessions sid false ip mono = Ret (bud', ok) ->
  passes (stage e lim pol bud) (h_budget sid false ip mono) (fun x s => x = ok /\ stage e lim pol bud' s).
Proof.
  intros Es Ha. apply passes_run. intros s [H1 H2 H3 H4 H5 H6 H7]. destruct H1 as (e' & E & Ea & Est & El & Ep).
  rewrite H4, (allow_payer bud sessions), Ha.
  - cbn. split; [done|]. constructor; try done. by exists e'.
  - rewrite E, Es. cbn. by rewrite Ep.
Qed.

Lemma stage_require authenticated :
  (auth_needed cfg = true -> authenticated = true) ->
  passes (stage e lim pol bud) (rx_require_auth cfg authenticated) (fun _ => stage e lim pol bud).
Proof.
  intros Ha. unfold rx_require_auth. destruct (auth_needed cfg); [rewrite Ha by done|]; by apply passes_ret.
Qed.

End Steps.

(** The payload in a buffer, the message in the inbox of the shard. *)
Record handed_over (game : SocketAddr) (payload : list Z) (info : OriginalPacketInfo) (k : nat) (sh : Shard)
  (lim : SourceRateLimiter) (idx : nat) (s : V2) : Prop := {
  ho_limiter : v_limiter s = lim;
  ho_game : v_to_game s = v_to_game v;
  ho_shards : v_shards s = <[k := sh <| inbox ::= fun q => q ++
    [ClientPacket sid (from i) game info idx (length payload) (now i)] |>]> (v_shards v);
  ho_buffer : exists b, buffers (v_pool s) !! idx = Some b /\ slice b 0 (length payload) = Ret payload;
}.

Lemma stage_udp e lim pol bud game payload info k sh idx rest :
  inv [] v -> (length payload <= MAX_PACKET_SIZE)%nat -> free (v_pool v) = idx :: rest ->
  shard_for_session sid (length (v_shards v)) = Ret k -> v_shards v !! k = Some sh ->
  (length (inbox sh) < c_shard_queue_cap cfg)%nat ->
  passes (stage e lim pol bud) (rx_udp cfg i sid game payload info)
    (fun _ => handed_over game payload info k sh lim idx).
Proof.
  intros Hv Hlen Hfree Hk Hsh Hroom. unfold rx_udp.
  eapply passes_bind; [apply stage_name|]. intros ?.
  set (after pool s := v_limiter s = lim /\ v_to_game s = v_to_game v /\ v_shards s = v_shards v /\ v_pool s = pool).
  apply (passes_step _ (after (MkPool (buffers (v_pool v)) rest)) _ (Some idx)).
  { apply passes_run. intros s [H1 H2 H3 H4 H5 H6 H7]. unfold try_acquire. rewrite H5, Hfree. cbn. by repeat split. }
  pose proof (free_in_range v idx rest Hv Hfree) as Hidx.
  destruct (lookup_lt_is_Some_2 _ _ Hidx) as [b Hb].
  pose proof (Forall_lookup_1 _ _ _ _ (i_bufs _ _ Hv) Hb) as Hlb. cbn in Hlb.
  set (b' := payload ++ drop (length payload) b).
  apply (passes_step _ (after (MkPool (<[idx := b']> (buffers (v_pool v))) rest)) _ tt).
  { apply passes_run. intros s (H1 & H2 & H3 & H4). unfold buffer. rewrite H4. cbn [buffers upd].
    rewrite (rd_lookup _ _ _ Hb). cbn [obind]. unfold copy_from_slice.
    rewrite (proj2 (Nat.leb_le _ (length b))), Nat.sub_0_r, Nat.eqb_refl by lia.
    cbn [Nat.leb andb obind take]. unfold set_buffer. rewrite wr_lt by exact Hidx. cbn. by repeat split. }
  eapply passes_step with (a := Some true).
  - apply passes_run. intros s (H1 & H2 & H3 & H4). rewrite H3, Hk. cbn [obind]. rewrite Hsh.
    unfold try_send. rewrite (proj2 (Nat.ltb_lt _ _) Hroom). split; [done|].
    instantiate (1 := handed_over game payload info k sh lim idx).
    constructor; cbn; [exact H1 | exact H2 | by rewrite H3 |].
    exists b'. rewrite H4. cbn. rewrite list_lookup_insert_eq by exact Hidx. split; [done|].
    unfold slice, b'. rewrite length_app, (proj2 (Nat.leb_le (length payload) _)) by lia. cbn [Nat.leb andb].
    by rewrite drop_0, Nat.sub_0_r, take_app_length.
  - by apply passes_ret.
Qed.

(** A datagram with a UDP packet: not a control frame, and within a buffer. *)
Lemma packet_datagram ip pol game payload info raw :
  turn_ok (TurnRx i) -> slice (buf i) SESSION_ID_LEN (len i) = Ret ip ->
  parse_ip_packet_full (v_policy v) ip = Ret (pol, Some (Udp game payload info raw)) ->
  (SESSION_ID_LEN + IP_HEADER_MIN <= len i <= length (buf i))%nat
  /\ (length payload <= MAX_PACKET_SIZE)%nat
  /\ exists b0, rd (buf i) SESSION_ID_LEN = Ret b0 /\ forall t, 160 <= t -> (b0 =? t) = false.
Proof.
  intros (Hbuf & Hlen & Hok) Eip Ep. assert (bytes_ok ip) as Hip by exact (slice_bytes_ok i Hok ip Eip).
  destruct (parse_version _ _ _ _ Hip Ep) as (Hl & b0 & Eb0 & Hb0).
  pose proof (parse_payload_length _ _ _ _ _ _ _ Ep) as Hpl.
  unfold slice in Eip. destruct (_ && _) eqn:E; [|discriminate]. injection Eip as <-. bool_hyps.
  rewrite length_take, length_drop in Hl, Hpl. split; [lia|]. split; [lia|].
  exists b0. split; [|intros t Ht; apply Z.eqb_neq; lia]. unfold rd in *.
  rewrite lookup_take_lt, lookup_drop, Nat.add_0_r in Eb0 by (unfold IP_HEADER_MIN in *; lia). exact Eb0.
Qed.

(** Through the RX thread, in its order. *)
Lemma rx_hands_over game payload info k sh lim idx rest :
  inv [] v -> admits cfg v i game payload info k sh lim -> free (v_pool v) = idx :: rest ->
  passes (fun s => s = v) (rx_step hash_one cfg i) (fun _ => handed_over game payload info k sh lim idx).
Proof.
  intros Hv [Hin (e & Ee & Ea & Hcur) (ip & pol & bud & raw & Eip & Ep & Eb) Elim Etun _ Ek Esh Hroom] Hf.
  destruct (packet_datagram ip pol game payload info raw Hin Eip Ep) as (Hn & Hmax & b0 & Erd & Hty).
  apply (passes_pre _ (stage e (v_limiter v) (v_policy v) (v_budgets v))).
  2: { intros s ->. constructor; try done. by exists e. }
  unfold rx_step. eapply passes_bind; [apply stage_stat|]. intros ?.
  rewrite (proj2 (Nat.ltb_ge (len i) SESSION_ID_LEN)) by lia.
  assert (slice (buf i) 0 SESSION_ID_LEN = Ret sid) as ->.
  { unfold slice. rewrite (proj2 (Nat.leb_le _ (length (buf i)))) by lia. reflexivity. }
  rewrite Erd. apply hoare_lift_Ret, hoare_lift_Ret. cbv zeta.
  rewrite (Hty AUTH_HELLO_FRAME_TYPE), andb_false_r by (unfold AUTH_HELLO_FRAME_TYPE; lia).
  unfold rx_ticket. rewrite andb_false_r.
  eapply passes_step with (a := None); [by apply passes_ret|].
  eapply passes_bind; [by apply stage_reauth|]. intros ?.
  eapply passes_bind; [by apply stage_gate|]. intros ?.
  eapply passes_bind; [by apply stage_admit|]. intros ?.
  eapply passes_step; [by apply stage_session|]. cbv beta iota.
  eapply passes_bind; [apply stage_ingress|]. intros ?. cbn [negb].
  unfold rx_frame. fold sid. rewrite Erd. apply hoare_lift_Ret.
  rewrite !Hty, !andb_false_r by (unfold PING_FRAME_TYPE, PONG_FRAME_TYPE, RTT_REPORT_FRAME_TYPE, RESOLVE_REQUEST_FRAME_TYPE; lia).
  rewrite (proj2 (Nat.eqb_neq (len i) SESSION_ID_LEN)) by (unfold IP_HEADER_MIN in *; lia).
  unfold rx_packet. eapply passes_bind; [by apply stage_require|]. intros ?.
  rewrite (proj2 (Nat.ltb_ge _ _) (proj1 Hn)), Eip. apply hoare_lift_Ret.
  eapply passes_step; [by apply stage_parse|]. cbv beta iota.
  eapply passes_step; [by eapply stage_budget|]. cbn [negb rx_forward]. rewrite Etun.
  by eapply stage_udp.
Qed.

End Rx.

(* ------------------------------------------------------------------ *)
(** ** To the game server: the shard *)

(** The flow of the packet is open, or can be opened: the relay and the
    session have room, the source may open a flow, and there is a token. *)
Definition flow_available (shards : list Shard) (sh : Shard) (lim : SourceRateLimiter) (addr : SocketAddr)
  (key : FlowKey) (t : Z) : Prop :=
  is_Some (sh_flows sh !! key)
  \/ fold_left (fun n s => n + flow_count s) shards 0 < MAX_FLOWS_TOTAL
     /\ Z.of_nat (length (flows_of (session_flows sh) (k_session_id key))) < MAX_FLOWS_PER_SESSION
     /\ (limiter_allow lim (sock_ip addr) NewFlow t).2 = true
     /\ is_Some (allocate_flow_token (next_token sh) (token_to_flow sh)).2.

Lemma alter_insert {A} (f : A -> A) (l : list A) n x : (n < length l)%nat -> alter f n (<[n := x]> l) = <[n := f x]> l.
Proof. revert n. induction l as [|y l IH]; intros [|n] Hn; cbn in *; [lia..|done|]. f_equal. apply IH. lia. Qed.

Section Inbox.
Context (k : nat) (shards : list Shard) (sh : Shard) (lim : SourceRateLimiter) (pool : BufferPool)
  (sent : list (FlowKey * list Z)).
Hypothesis Hk : (k < length shards)%nat.

(** The shard with its inbox, and the outputs so far. *)
Definition at_shard (q : list ShardMsg) (s : V2) : Prop :=
  v_shards s = <[k := sh <| inbox := q |>]> shards /\ v_limiter s = lim /\ v_pool s = pool /\ v_to_game s = sent.
Definition outputs (s : V2) : Prop := v_pool s = pool /\ v_to_game s = sent.

Lemma flow_counts q : shards !! k = Some sh ->
  fold_left (fun n s => n + flow_count s) (<[k := sh <| inbox := q |>]> shards) 0
  = fold_left (fun n s => n + flow_count s) shards 0.
Proof.
  intros E. generalize 0. clear Hk. revert k E. induction shards as [|x l IH]; intros [|n] E z; cbn in *; try done.
  - by injection E as ->.
  - by apply IH.
Qed.

Lemma opens_flow q key addr info idx t :
  shards !! k = Some sh -> flow_available shards sh lim addr key t ->
  passes (at_shard q) (shard_open_flow k key addr info idx true true t) (fun _ => outputs).
Proof.
  intros Hsh Hav. unfold shard_open_flow. apply passes_get. intros s (H1 & H2 & H3 & H4).
  unfold h_shard. apply passes_get. intros s1 ->. change (id s) with s.
  rewrite H1, list_lookup_insert_eq, flow_counts by assumption.
  cbn [default from_option]. unfold from_option, id. cbn [sh_flows session_flows next_token token_to_flow upd].
  destruct Hav as [Hf|(Ht & Hn & Hl & Htok)].
  { rewrite bool_decide_true by exact Hf. apply passes_ret. by intros ? ->. }
  case_bool_decide; [apply passes_ret; by intros ? -> |].
  rewrite (proj2 (Z.leb_gt _ _) Ht).
  unfold flows_of, from_option, id in Hn. rewrite (proj2 (Z.leb_gt _ _) Hn).
  apply (passes_step _ outputs _ true).
  { apply passes_run. intros s2 ->. unfold allow_source_event. rewrite H2.
    destruct (limiter_allow lim (sock_ip addr) NewFlow t) as [lim' ok]. cbn in Hl. subst ok. by split. }
  cbn [negb]. destruct (allocate_flow_token _ _) as [next [token|]]; [|by destruct Htok].
  apply (passes_step _ outputs _ tt); [apply passes_mod; by intros s2 [? ?]|].
  apply passes_mod. by intros s2 [? ?].
Qed.

Lemma sends_payload sid addr game info idx payload b t0 t :
  shards !! k = Some sh -> flow_available shards sh lim addr (MkKey sid game) t ->
  duration_since t t0 <= MAX_DATA_QUEUE_AGE ->
  buffers pool !! idx = Some b -> slice b 0 (length payload) = Ret payload ->
  passes (at_shard [ClientPacket sid addr game info idx (length payload) t0])
    (shard_inbox k true true SendOk t)
    (fun _ s => v_to_game s = sent ++ [(MkKey sid game, payload)]).
Proof.
  intros Hsh Hav Hage Hb Hs. unfold shard_inbox, h_shard. apply passes_get. intros s Hat.
  rewrite (proj1 Hat), list_lookup_insert_eq by exact Hk. cbn [default from_option]. unfold from_option, id. cbn [inbox upd].
  apply (passes_step _ (at_shard []) _ tt).
  { apply passes_mod. intros s1 ->. destruct Hat as (H1 & H2 & H3 & H4). split; [done|].
    unfold at_shard. cbn. rewrite H1, alter_insert by exact Hk. by repeat split. }
  unfold shard_client_packet, should_drop_stale_queued_packet.
  rewrite (proj2 (Z.ltb_ge _ _) Hage), andb_false_r.
  eapply passes_bind; [by apply opens_flow|]. intros ?.
  apply (passes_step _ outputs _ tt); [apply passes_mod; by intros s1 [? ?]|].
  apply (passes_step _ outputs _ payload).
  { apply passes_run. intros s1 [H1 H2]. unfold buffer. rewrite H1, (rd_lookup _ _ _ Hb). cbn [obind].
    rewrite Hs. by repeat split. }
  unfold h_flow_send.
  set (gone := fun s => v_to_game s = sent ++ [(MkKey sid game, payload)]).
  apply (passes_step _ gone _ tt).
  { apply passes_mod. intros s1 [H1 H2]. split; [done|]. unfold gone. cbn. by rewrite H2. }
  apply (passes_step _ gone _ tt); [by apply passes_mod | by apply passes_ret].
Qed.

End Inbox.

Lemma passes_turn `{TicketCrypto} hash_one cfg v a (R : V2 -> Prop) :
  passes (fun s => s = v) (turn_handler hash_one cfg a) (fun _ => R) ->
  returns (v2_turn hash_one cfg v a) R.
Proof.
  intros Hp. specialize (Hp v eq_refl). unfold v2_turn, wp in *.
  destruct (turn_handler hash_one cfg a v) as [[s [u|]]|]; [exact Hp | contradiction..].
Qed.

(** C3: admitted packets reach their game server.  In any state the relay
    reaches: a datagram of an established session (with authentication on,
    one that is authenticated and current) from the session's address, whose
    packet the policy permits, within the packet limit of its source and the
    budget of its account, with a free buffer and an idle shard, is taken by
    the RX thread and, when the shard gets to it within 250 ms and the
    packet's flow is open or can be opened, its UDP payload goes out on that
    flow to the packet's destination, unchanged. *)
Theorem v2_delivers_to_game `{TicketCrypto} hash_one cfg tuning policy budget tun t0 (l : list turn) v
  i game payload info k sh lim t :
  1 <= shard_count tuning -> Forall turn_ok l ->
  v2_run hash_one cfg (v2_new tuning policy budget tun t0) l = Ret v ->
  admits cfg v i game payload info k sh lim -> inbox sh = [] ->
  flow_available (v_shards v) sh lim (from i) (MkKey (take SESSION_ID_LEN (buf i)) game) t ->
  duration_since t (now i) <= MAX_DATA_QUEUE_AGE ->
  exists v', v2_run hash_one cfg v [TurnRx i; TurnInbox k true true SendOk t] = Ret v'
    /\ v_to_game v' = v_to_game v ++ [(MkKey (take SESSION_ID_LEN (buf i)) game, payload)].
Proof.
  intros Hn Hl E Had Hin Hav Hage.
  pose proof (run_returns hash_one cfg l _ (inv_new tuning policy budget tun t0 Hn) Hl) as Hv.
  rewrite E in Hv. cbn in Hv. pose proof (ad_here _ _ _ _ _ _ _ _ _ Had) as Hsh.
  destruct (free (v_pool v)) as [|idx rest] eqn:Ef; [by destruct (ad_pool _ _ _ _ _ _ _ _ _ Had)|].
  destruct (returns_inv _ _ (passes_turn hash_one cfg v (TurnRx i) _
    (rx_hands_over hash_one cfg v i _ _ _ _ _ _ _ _ Hv Had Ef))) as (w & Ew & [H1 H2 H3 (b & Hb & Hs)]).
  cbn [v2_run]. rewrite Ew. cbn [obind].
  set (sid := take SESSION_ID_LEN (buf i)) in *.
  assert (passes (fun s => s = w) (turn_handler hash_one cfg (TurnInbox k true true SendOk t))
            (fun _ s => v_to_game s = v_to_game v ++ [(MkKey sid game, payload)])) as Hp.
  { eapply passes_pre; [apply (sends_payload k (v_shards v) sh lim (v_pool w) (v_to_game v)
      (lookup_lt_Some _ _ _ Hsh) sid (from i) game info idx payload b (now i) t); assumption|].
    intros s ->. unfold at_shard. rewrite H3. cbn. rewrite Hin. by repeat split. }
  destruct (returns_inv _ _ (passes_turn _ _ _ _ _ Hp)) as (v' & Ev & Hg).
  exists v'. rewrite Ev. by split.
Qed.

(* ------------------------------------------------------------------ *)
(** ** To the client *)

(** What the relay requires of a datagram that a game server sends on a flow,
    to queue it for the client, and of the TX thread's turn to send it. *)
Record answers `{TicketCrypto} (cfg : Config) (v : V2) (k : nat) (sh : Shard) (key : FlowKey) (flow : FlowState)
  (e : SessionEntry) (payload : list Z) (t tu t2 tu2 : Z) : Prop := {
  an_shard : v_shards v !! k = Some sh;
  an_flow : sh_flows sh !! key = Some flow;
  an_session : v_sessions v !! k_session_id key = Some e;
  an_lease : session_lease_is_current e tu = true;
  an_current : (if auth_needed cfg then session_auth_is_current e tu2 else session_lease_is_current e tu2) = true;
  an_fits : (SESSION_ID_LEN + 28 + length payload <= MAX_PACKET_SIZE)%nat;
  an_pool : free (v_pool v) <> [];
  an_idle : v_tx_control v = [] /\ v_tx_data v = [] /\ (0 < c_tx_queue_cap cfg)%nat;
  an_age : duration_since t2 t <= MAX_DATA_QUEUE_AGE;
}.

Section Response.
Context `{TicketCrypto} (cfg : Config) (v : V2) (k : nat) (sh : Shard) (key : FlowKey) (flow : FlowState)
  (e : SessionEntry) (payload : list Z) (rtos : option Z) (t tu t2 tu2 : Z) (idx : nat) (rest : list nat).
Hypothesis Han : answers cfg v k sh key flow e payload t tu t2 tu2.
Hypothesis Hinv : inv [] v.
Hypothesis Hfree : free (v_pool v) = idx :: rest.
Hypothesis Hkey : length (k_session_id key) = SESSION_ID_LEN.
Let sid := k_session_id key.
Let info := f_original_info flow.
Let reply := response_packet payload info (default (tos info) rtos).
Let touch (e : SessionEntry) := e <| last_activity := t |> <| last_activity_unix := tu |>.

(** Everything but the shard's own tables and the session's activity. *)
Definition settled (pool : BufferPool) (s : V2) : Prop :=
  (v_sessions s !! sid = Some e \/ v_sessions s !! sid = Some (touch e))
  /\ v_budgets s = v_budgets v /\ v_sent s = v_sent v /\ v_tx_control s = [] /\ v_tx_data s = []
  /\ v_pool s = pool.

Definition reply_packet : V2State.TxPacket :=
  MkTx (f_client_addr flow) sid idx (SESSION_ID_LEN + (28 + length payload)) t Data.

Record queued_reply (s : V2) : Prop := {
  qr_session : v_sessions s !! sid = Some e \/ v_sessions s !! sid = Some (touch e);
  qr_budgets : v_budgets s = v_budgets v;
  qr_sent : v_sent s = v_sent v;
  qr_control : v_tx_control s = [];
  qr_data : v_tx_data s = [reply_packet];
  qr_buffer : exists b, buffers (v_pool s) !! idx = Some b /\ (p_len reply_packet <= length b)%nat
    /\ take (p_len reply_packet) b = sid ++ reply;
}.

(** The session id and the reply, written over whatever the buffer held. *)
Lemma write_reply b :
  length b = MAX_PACKET_SIZE ->
  exists out head tail,
    copy_from_slice b 0 SESSION_ID_LEN (k_session_id key) = Ret out
    /\ slice out 0 SESSION_ID_LEN = Ret head /\ slice out SESSION_ID_LEN (length out) = Ret tail
    /\ write_response_ip_packet_into_with_tos tail payload info (default (tos info) rtos)
       = Ret (reply ++ drop (28 + length payload) (drop SESSION_ID_LEN b), Some (28 + length payload)%nat)
    /\ head = sid.
Proof.
  intros Hb. pose proof (an_fits _ _ _ _ _ _ _ _ _ _ _ _ Han) as Hfits. unfold SESSION_ID_LEN in *.
  assert (length (sid ++ drop 8 b) = MAX_PACKET_SIZE) as Ho by (unfold sid; rewrite length_app, length_drop, Hkey; lia).
  exists (sid ++ drop 8 b), sid, (drop 8 b). unfold copy_from_slice, slice.
  rewrite (proj2 (Nat.leb_le 8 (length b))), Hkey, Ho, (proj2 (Nat.leb_le 8 MAX_PACKET_SIZE)), Nat.leb_refl by lia.
  cbn [Nat.leb andb Nat.eqb Nat.sub take]. rewrite take_0. split; [done|]. split.
  { rewrite drop_0, take_app_le, take_ge; unfold sid; rewrite ?Hkey; try lia. done. }
  split. { f_equal. unfold sid. rewrite drop_app_ge, Hkey, Nat.sub_diag, drop_0 by (rewrite Hkey; lia).
    apply take_ge. rewrite length_drop. lia. }
  rewrite write_response_into_spec, length_drop, (proj2 (Nat.ltb_ge _ _)) by lia. done.
Qed.

Lemma response_queued :
  passes (fun s => s = v) (shard_response cfg k key payload rtos t tu) (fun _ => queued_reply).
Proof.
  destruct Han as [Hsh Hflow Hse Hlease _ Hfits _ (Hc & Hd & Hcap) _].
  unfold shard_response. apply passes_get. intros s ->. unfold lease_current. change (id v) with v.
  rewrite Hse, Hlease. cbn [negb]. unfold h_shard. apply passes_get. intros s ->.
  rewrite Hsh. change (default shard_new (Some sh)) with sh. rewrite Hflow. cbv zeta.
  apply (passes_step _ (settled (v_pool v)) _ tt).
  { apply passes_mod. intros s ->. split; [done|]. unfold settled. cbn. by repeat split; [left|..]. }
  apply (passes_step _ (settled (v_pool v)) _ tt).
  { apply passes_mod. intros s (H1 & H2). split; [done|]. split; [|exact H2]. right. cbn. unfold sid.
    destruct H1 as [H1|H1]; by rewrite (lookup_alter_Some_2 _ _ _ _ H1). }
  apply (passes_step _ (settled (MkPool (buffers (v_pool v)) rest)) _ (Some idx)).
  { apply passes_run. intros s (H1 & H2 & H3 & H4 & H5 & H6). unfold try_acquire. rewrite H6, Hfree. cbn.
    by repeat split. }
  destruct (lookup_lt_is_Some_2 _ _ (free_in_range v idx rest Hinv Hfree)) as [b Hb].
  pose proof (Forall_lookup_1 _ _ _ _ (i_bufs _ _ Hinv) Hb) as Hlb. cbn in Hlb.
  pose proof (write_reply b) as Hw. set (b' := sid ++ reply ++ drop (28 + length payload) (drop SESSION_ID_LEN b)) in Hw.
  apply (passes_step _ (settled (MkPool (<[idx := b']> (buffers (v_pool v))) rest)) _ (Some (28 + length payload)%nat)).
  { apply passes_run. intros s (H1 & H2 & H3 & H4 & H5 & H6). unfold buffer. rewrite H6. cbn [buffers].
    rewrite (rd_lookup _ _ _ Hb). cbn [obind].
    destruct (Hw Hlb) as (out & head & tail & E1 & E2 & E3 & E4 & ->).
    rewrite E1. cbn [obind]. rewrite E2. cbn [obind]. rewrite E3. cbn [obind].
    cbn [f_original_info upd]. fold info. rewrite E4. cbn [obind]. unfold set_buffer.
    rewrite wr_lt by exact (free_in_range v idx rest Hinv Hfree). cbn. by repeat split. }
  apply passes_run. intros s (H1 & H2 & H3 & H4 & H5 & H6). cbn [p_kind]. rewrite H5. unfold try_send.
  cbn [length]. rewrite (proj2 (Nat.ltb_lt _ _) Hcap). cbn. constructor; cbn; try done.
  exists b'. rewrite H6. cbn. rewrite list_lookup_insert_eq by exact (free_in_range v idx rest Hinv Hfree).
  split; [done|]. subst b'. unfold sid, reply. rewrite !length_app, response_packet_length, !length_drop, Hkey.
  unfold SESSION_ID_LEN in *. split; [lia|]. rewrite app_assoc, take_app_le, take_ge; [done|..];
    rewrite length_app, response_packet_length, Hkey; unfold SESSION_ID_LEN; lia.
Qed.

(** One turn of the TX thread sends it to the session's present address. *)
Lemma reply_sent (bud : Budgets) (mono : Z) :
  allow (v_budgets v) (v_sessions v) sid true reply mono = Ret (bud, true) ->
  passes queued_reply (tx_step (auth_needed cfg) true t2 tu2 mono)
    (fun _ s => v_sent s = v_sent v ++ [(client_addr e, sid ++ reply)]).
Proof.
  intros Hb. destruct Han as [_ _ Hse _ Hcur _ _ _ Hage]. unfold tx_step.
  set (taken s := (v_sessions s !! sid = Some e \/ v_sessions s !! sid = Some (touch e))
    /\ v_sent s = v_sent v
    /\ exists b, buffers (v_pool s) !! idx = Some b /\ (p_len reply_packet <= length b)%nat
         /\ take (p_len reply_packet) b = sid ++ reply).
  apply (passes_step _ (fun s => taken s /\ v_budgets s = v_budgets v) _ (Some reply_packet)).
  { apply passes_run. intros s [H1 H2 H3 H4 H5 H6]. unfold tx_next. rewrite H4, H5. by repeat split. }
  unfold send_tx_packet, should_drop_stale_queued_packet. cbn [p_kind p_enqueued_at reply_packet].
  rewrite (proj2 (Z.ltb_ge _ _) Hage), andb_false_r.
  apply passes_get. intros s [Hs Hbud]. pose proof Hs as (H1 & H2 & b & H3 & H4 & H5).
  assert (forwarding_addr (v_sessions s) (p_session_id reply_packet) (auth_needed cfg) tu2 = Some (client_addr e)) as ->.
  { unfold forwarding_addr. destruct H1 as [H1|H1]; cbn [p_session_id reply_packet]; rewrite H1; cbv zeta;
      [by rewrite Hcur|]. unfold touch, session_auth_is_current, session_lease_is_current in *. cbn. by rewrite Hcur. }
  apply (passes_step _ (fun w => w = s) _ (client_addr e)); [by apply passes_ret|].
  apply (passes_step _ (fun w => w = s) _ b).
  { apply passes_run. intros w ->. unfold buffer. cbn [p_buf_idx reply_packet]. by rewrite (rd_lookup _ _ _ H3). }
  assert (slice b 0 (p_len reply_packet) = Ret (sid ++ reply)) as Hframe.
  { unfold slice. rewrite (proj2 (Nat.leb_le _ (length b))) by exact H4. cbn [Nat.leb andb].
    by rewrite drop_0, Nat.sub_0_r, H5. }
  assert (slice b SESSION_ID_LEN (p_len reply_packet) = Ret reply) as Hip.
  { unfold slice. rewrite (proj2 (Nat.leb_le _ (length b))) by exact H4.
    rewrite (proj2 (Nat.leb_le SESSION_ID_LEN _)) by (cbn [p_len reply_packet]; lia). cbn [andb].
    f_equal. rewrite <- skipn_firstn_comm, H5. unfold sid. rewrite <- Hkey. apply drop_app_length. }
  apply (passes_step _ taken _ true).
  { rewrite Hip. apply hoare_lift_Ret. apply passes_run. intros w ->. cbn [p_session_id reply_packet].
    rewrite Hbud, (allow_payer (v_budgets v) (v_sessions v)), Hb; [split; [done | exact Hs]|].
    unfold sid in *. rewrite Hse. by destruct H1 as [-> | ->]. }
  cbn [negb]. rewrite Hframe. apply hoare_lift_Ret.
  set (out w := v_sent w = v_sent v ++ [(client_addr e, sid ++ reply)]).
  apply (passes_step _ out _ tt); [|by apply passes_mod].
  apply (passes_step _ out _ tt); [|by apply passes_mod].
  apply passes_mod. intros w (_ & Hw & _). split; [done|]. unfold out. cbn. by rewrite Hw.
Qed.

End Response.

(** C4: game responses reach the client.  In any state the relay reaches: a
    datagram that the game server of an open flow sends, short enough for a
    buffer, while the session's lease is current, with a free buffer and idle
    TX queues, goes out on the main socket in the next turn of the TX thread
    (within 250 ms, within the account's budget, with the session still
    current) to the session's present address, as the session id followed by
    the IP packet the response builder makes of it. *)
Theorem v2_delivers_to_client `{TicketCrypto} hash_one cfg tuning policy budget tun t0 (l : list turn) v
  k sh token key flow e payload rtos t tu t2 tu2 mono packet bud :
  1 <= shard_count tuning -> Forall turn_ok l ->
  v2_run hash_one cfg (v2_new tuning policy budget tun t0) l = Ret v ->
  answers cfg v k sh key flow e payload t tu t2 tu2 -> token_to_flow sh !! token = Some key ->
  build_response_ip_packet_with_tos payload (f_original_info flow)
    (default (tos (f_original_info flow)) rtos) = Ret packet ->
  allow (v_budgets v) (v_sessions v) (k_session_id key) true packet mono = Ret (bud, true) ->
  exists v', v2_run hash_one cfg v
               [TurnEvent k token [(payload, rtos, t, tu)]; TurnTx true t2 tu2 mono] = Ret v'
    /\ v_sent v' = v_sent v ++ [(client_addr e, k_session_id key ++ packet)].
Proof.
  intros Hn Hl E Han Htok Hbuild Hallow.
  pose proof (run_returns hash_one cfg l _ (inv_new tuning policy budget tun t0 Hn) Hl) as Hv.
  rewrite E in Hv. cbn in Hv. rewrite build_response_spec in Hbuild. injection Hbuild as <-.
  pose proof Han as [Hsh Hflow _ _ _ _ Hpool _ _].
  assert (length (k_session_id key) = SESSION_ID_LEN) as Hkey
    by (destruct (Forall_lookup_1 _ _ _ _ (i_shards _ _ Hv) Hsh) as [_ Hf]; exact (Hf key flow Hflow)).
  destruct (free (v_pool v)) as [|idx rest] eqn:Ef; [done|].
  assert (token <> 0) as Hz.
  { destruct (fine_run hash_one cfg l _ v E (fine_new _ _ _ _ _) k sh Hsh) as [[H1 _ _ _ H5] _].
    apply H1 in Htok as (f & Hf & <-). exact (H5 key f Hf). }
  assert (exists w, v2_turn hash_one cfg v (TurnEvent k token [(payload, rtos, t, tu)]) = Ret w
            /\ queued_reply v key flow e payload rtos t tu idx w) as (w & Ew & Hw).
  { unfold v2_turn. cbn [turn_handler]. unfold shard_event. rewrite (proj2 (Z.eqb_neq _ _) Hz).
    unfold h_shard, hbind at 1, hget. rewrite Hsh. change (default shard_new (Some sh)) with sh.
    rewrite Htok, bool_decide_true by (by exists flow). cbn [shard_burst MAX_FLOW_RECV_BURST].
    pose proof (response_queued cfg v k sh key flow e payload rtos t tu t2 tu2 idx rest Han Hv Ef Hkey v eq_refl) as Hp.
    unfold wp, hbind in *. destruct (shard_response _ _ _ _ _ _ _ v) as [[w [u|]]|]; [|contradiction..].
    exists w. by split. }
  cbn [v2_run]. rewrite Ew. cbn [obind].
  assert (passes (fun s => s = w) (turn_handler hash_one cfg (TurnTx true t2 tu2 mono))
            (fun _ s => v_sent s = v_sent v ++ [(client_addr e, k_session_id key
               ++ response_packet payload (f_original_info flow) (default (tos (f_original_info flow)) rtos))])) as Hp.
  { eapply passes_pre; [by eapply (reply_sent cfg v k sh key flow e payload rtos t tu t2 tu2 idx) | by intros s ->]. }
  destruct (returns_inv _ _ (passes_turn _ _ _ _ _ Hp)) as (v' & Ev & Hg).
  exists v'. rewrite Ev. by split.
Qed.

(* ------------------------------------------------------------------ *)
(** ** Witnesses *)

Section Witnesses.
#[local] Existing Instance toy_crypto.

(** After the hello frame; then a packet, on a flow that is opened for it. *)
Definition greeted_turns : list turn := [TurnRx (toy_rx toy_hello 0); TurnTx true 1 1201 1].
Definition greeted : V2 := trace_end toy_cfg greeted_turns.
Definition greeted_shard : Shard := default shard_new (v_shards greeted !! 0%nat).
Definition data_rx : RxInput := toy_rx (toy_sid ++ udp_123) 2.
Definition game_server : SocketAddr := SockV4 (ipv4_new 128 116 1 1) 55000.
Definition data_info : OriginalPacketInfo := MkInfo 0 (ipv4_new 1 1 1 1) 5000 (ipv4_new 128 116 1 1) 55000.
Definition data_limiter : SourceRateLimiter :=
  (limiter_allow (v_limiter greeted) (sock_ip (from data_rx)) RateLimit.Packet (now data_rx)).1.

Lemma greeted_ok : Forall turn_ok greeted_turns.
Proof.
  repeat apply List.Forall_cons; try apply List.Forall_nil; try exact I. apply toy_rx_ok; vm_compute; reflexivity.
Qed.

(** The result of a pure operation, by its value alone. *)
Definition value_of {A B} (m : outcome (A * B)) : option B :=
  match m with Ret (_, b) => Some b | Panic => None end.
Lemma value_found {A B} (m : outcome (A * B)) b : value_of m = Some b -> exists a, m = Ret (a, b).
Proof. destruct m as [[a b']|]; [|discriminate]. intros [= ->]. by exists a. Qed.

Lemma data_packet :
  exists ip pol bud raw, slice (buf data_rx) SESSION_ID_LEN (len data_rx) = Ret ip
    /\ parse_ip_packet_full (v_policy greeted) ip = Ret (pol, Some (Udp game_server [1; 2; 3] data_info raw))
    /\ allow (v_budgets greeted) (v_sessions greeted) (take SESSION_ID_LEN (buf data_rx)) false ip (mono_ms data_rx)
       = Ret (bud, true).
Proof.
  destruct (value_found (parse_ip_packet_full (v_policy greeted) udp_123)
    (Some (Udp game_server [1; 2; 3] data_info udp_123))) as [pol Ep]; [vm_compute; reflexivity|].
  destruct (value_found (allow (v_budgets greeted) (v_sessions greeted) (take SESSION_ID_LEN (buf data_rx)) false
    udp_123 (mono_ms data_rx)) true) as [bud Eb]; [vm_compute; reflexivity|].
  exists udp_123, pol, bud, udp_123. split; [vm_compute; reflexivity|]. by split.
Qed.

Lemma v2_delivers_to_game_witness :
  v_to_game greeted = []
  /\ exists v', v2_run toy_hash toy_cfg greeted [TurnRx data_rx; TurnInbox 0 true true SendOk 3] = Ret v'
    /\ v_to_game v' = [(MkKey toy_sid game_server, [1; 2; 3])].
Proof.
  split; [vm_compute; reflexivity|].
  apply (v2_delivers_to_game toy_hash toy_cfg small_tuning (build Enforce roblox_file [443]) toy_budget true 0
    greeted_turns greeted data_rx game_server [1; 2; 3] data_info 0 greeted_shard data_limiter 3).
  - vm_compute. discriminate.
  - exact greeted_ok.
  - apply returned. vm_compute. reflexivity.
  - constructor.
    + apply toy_rx_ok; vm_compute; reflexivity.
    + eexists. split; [vm_compute; reflexivity|]. split; [vm_compute; reflexivity|]. intros _. vm_compute. reflexivity.
    + exact data_packet.
    + vm_compute. reflexivity.
    + reflexivity.
    + vm_compute. discriminate.
    + vm_compute. reflexivity.
    + vm_compute. reflexivity.
    + vm_compute. lia.
  - vm_compute. reflexivity.
  - right. split; [vm_compute; reflexivity|]. split; [vm_compute; reflexivity|]. split; [vm_compute; reflexivity|].
    vm_compute. eauto.
  - vm_compute. discriminate.
Defined.

(** With the flow open, an answer of the game server. *)
Definition opened_turns : list turn := greeted_turns ++ [TurnRx data_rx; TurnInbox 0 true true SendOk 3].
Definition opened : V2 := trace_end toy_cfg opened_turns.
Definition opened_shard : Shard := default shard_new (v_shards opened !! 0%nat).
Definition opened_key : FlowKey := MkKey toy_sid game_server.
Definition opened_flow : FlowState := MkFlowState toy_client data_info 3 None 1.
Definition opened_session : SessionEntry := default toy_session (v_sessions opened !! toy_sid).
Definition answer_packet : list Z := response_packet [7; 7] data_info 0.

Lemma v2_delivers_to_client_witness :
  exists v', v2_run toy_hash toy_cfg opened [TurnEvent 0 1 [([7; 7], None, 4, 1204)]; TurnTx true 5 1205 5] = Ret v'
    /\ v_sent v' = v_sent opened ++ [(client_addr opened_session, toy_sid ++ answer_packet)].
Proof.
  destruct (value_found (allow (v_budgets opened) (v_sessions opened) toy_sid true answer_packet 5) true)
    as [bud Eb]; [vm_compute; reflexivity|].
  apply (v2_delivers_to_client toy_hash toy_cfg small_tuning (build Enforce roblox_file [443]) toy_budget true 0
    opened_turns opened 0 opened_shard 1 opened_key opened_flow opened_session [7; 7] None 4 1204 5 1205 5 answer_packet bud).
  - vm_compute. discriminate.
  - apply Forall_app_2; [exact greeted_ok|].
    repeat apply List.Forall_cons; try apply List.Forall_nil; try exact I. apply toy_rx_ok; vm_compute; reflexivity.
  - apply returned. vm_compute. reflexivity.
  - constructor; try (vm_compute; reflexivity).
    + pose proof max_packet_size. cbn. unfold SESSION_ID_LEN. lia.
    + vm_compute. discriminate.
    + split; [vm_compute; reflexivity|]. split; [vm_compute; reflexivity|]. vm_compute. lia.
    + vm_compute. discriminate.
  - vm_compute. reflexivity.
  - vm_compute. reflexivity.
  - exact Eb.
Defined.

End Witnesses.
