(* ===== verification/ShardLoop.v ===== *)
(** * Datapath v2: the loop of a shard thread (src/datapath_v2.rs, [run_shard])

    One iteration: the readiness events of the poller, a bounded burst of the
    inbox, and the periodic cleanup.  The iteration is put together from the
    handlers of [V2Shard]; the theorem relates it to the turns the runs of
    [V2Safe] are made of, so what is proved of runs holds of the loop. *)

From Stdlib Require Import String.
From S2P Require Import Prelude Checksum Net Packet TunRewrite TunSession RustStr Tuning DestPolicy Stats Sessions RateLimit AccountBudget Auth Frames Handler V2State V2Rx V2Shard V2Tun V2Inv V2Safe V2Thms V2Auth V2Flows V2Data V2Trace.

Definition MAX_INBOX_DRAIN_BURST : nat := Z.to_nat 1024.

Definition Datagram : Type := list Z * option Z * Z * Z.

(** What the environment supplies for one iteration: the ready tokens with
    the datagrams waiting on each, how the socket calls of the [j]th message
    end and when, and the three clock readings of the cleanup. *)
Record ShardInput : Type := MkShardInput {
  si_events : list (Z * list Datagram);
  si_message : nat -> bool * bool * SendResult * Z;
  si_check : Z;
  si_rearm : Z;
  si_clean : Z;
}.

(** The end of a loop body: [continue] goes on with the next round. *)
Definition hcatch {A} (m : H A) : H unit := fun v =>
  match m v with
  | Ret (v', _) => Ret (v', Next tt)
  | Panic => Panic
  end.

Section Loop.
Context (cfg : Config) (k : nat).

Fixpoint shard_events (events : list (Z * list Datagram)) : H unit :=
  match events with
  | [] => hret tt
  | (token, datagrams) :: rest => hcatch (shard_event cfg k token datagrams) ;! shard_events rest
  end.

(** [for _ in 0..burst] over [inbox.try_recv()]; [j] counts the messages. *)
Fixpoint shard_drain (burst : nat) (message : nat -> bool * bool * SendResult * Z) (j : nat) : H unit :=
  match burst with
  | O => hret tt
  | S burst' =>
      let! sh := h_shard k in
      match inbox sh with
      | [] => hret tt
      | _ =>
          let '(socket_ok, register_ok, send, t) := message j in
          hcatch (shard_inbox k socket_ok register_ok send t) ;! shard_drain burst' message (S j)
      end
  end.

(** One iteration; the result is the thread's next [cleanup_at]. *)
Definition shard_iterate (cleanup_at : Z) (i : ShardInput) : H Z :=
  shard_events (si_events i) ;!
  shard_drain MAX_INBOX_DRAIN_BURST (si_message i) 0 ;!
  if cleanup_at <=? si_check i then
    shard_cleanup k (si_clean i) ;! hret (si_rearm i + CLEANUP_INTERVAL)
  else hret cleanup_at.

(** The turns an iteration consists of when [n] messages are taken. *)
Definition event_turns (events : list (Z * list Datagram)) : list turn :=
  List.map (fun e => TurnEvent k e.1 e.2) events.
Definition message_turns (message : nat -> bool * bool * SendResult * Z) (j n : nat) : list turn :=
  List.map (fun j => let '(so, ro, sr, t) := message j in TurnInbox k so ro sr t) (seq j n).
Definition iteration_turns (cleanup_at : Z) (i : ShardInput) (n : nat) : list turn :=
  event_turns (si_events i) ++ message_turns (si_message i) 0 n
  ++ (if cleanup_at <=? si_check i then [TurnShardCleanup k (si_clean i)] else []).

(* ------------------------------------------------------------------ *)
(** ** The inboxes *)

Definition inboxes (v : V2) : list (list ShardMsg) := List.map inbox (v_shards v).

Lemma inboxes_lookup v : inboxes v !! k = inbox <$> (v_shards v !! k).
Proof. apply list_lookup_fmap. Qed.

Lemma leaves_inboxes {A} (m : H A) : leaves view m -> leaves inboxes m.
Proof. apply (leaves_weaken (fun x : gmap (list Z) SessionEntry * (list InboundTunPacket * list (list ShardMsg)) => x.2.2)). Qed.

Lemma inboxes_set_shard f :
  (forall sh, inbox (f sh) = inbox sh) -> leaves inboxes (h_set_shard k f).
Proof. intros Hf. apply leaves_mod. intros s. unfold inboxes. cbn. by apply map_alter_same. Qed.

Lemma inboxes_drop_in r : leaves inboxes (h_drop_in r).
Proof. apply leaves_inboxes, view_drop_in. Qed.
Lemma inboxes_drop_out r : leaves inboxes (h_drop_out r).
Proof. apply leaves_inboxes, view_drop_out. Qed.
Lemma inboxes_exhausted : leaves inboxes h_pool_exhausted.
Proof. apply leaves_inboxes, view_pool_exhausted. Qed.
Lemma inboxes_release i : leaves inboxes (h_release i).
Proof. apply leaves_inboxes, view_release. Qed.
Lemma inboxes_acquire : leaves inboxes h_acquire.
Proof. apply leaves_inboxes, view_acquire. Qed.
Lemma inboxes_queue_tx p : leaves inboxes (h_queue_tx cfg p).
Proof. apply leaves_inboxes, view_queue_tx. Qed.
Lemma inboxes_shard : leaves inboxes (h_shard k).
Proof. apply leaves_get. Qed.
#[local] Hint Resolve inboxes_drop_in inboxes_drop_out inboxes_exhausted inboxes_release
  inboxes_acquire inboxes_queue_tx inboxes_shard : handler.

Lemma inboxes_response key payload rtos t tu :
  leaves inboxes (shard_response cfg k key payload rtos t tu).
Proof.
  unfold shard_response. repeat (lstep || (apply inboxes_set_shard; by intros ?)).
  apply leaves_run. intros w w' r E.
  do 4 (apply obind_inv in E as (? & _ & E)). apply obind_inv in E as ([tl ip_n] & _ & E).
  apply obind_inv in E as (p & _ & E). by injection E as <- <-.
Qed.

Lemma inboxes_event token l : leaves inboxes (shard_event cfg k token l).
Proof.
  unfold shard_event. lsteps. generalize MAX_FLOW_RECV_BURST. intros burst. revert l.
  induction burst as [|burst IH]; intros l; cbn [shard_burst]; [lstep|].
  destruct l as [|[[[payload rtos] t] tu] l]; [lstep|]. apply leaves_bind; [apply inboxes_response | auto].
Qed.

Lemma inboxes_open_flow key addr info idx so ro t :
  leaves inboxes (shard_open_flow k key addr info idx so ro t).
Proof.
  unfold shard_open_flow. repeat (lstep || (apply inboxes_set_shard; by intros ?)).
  apply leaves_run. intros w w' r E. destruct (allow_source_event _ _ _ _ _) as [[l st] x].
  by injection E as <- <-.
Qed.
#[local] Hint Resolve inboxes_open_flow : handler.

Lemma inboxes_client_packet sid addr game info idx plen t0 so ro sr t :
  leaves inboxes (shard_client_packet k sid addr game info idx plen t0 so ro sr t).
Proof.
  unfold shard_client_packet, h_flow_send.
  repeat (lstep || (apply inboxes_set_shard; by intros ?)).
  apply leaves_run. intros w w' r E. do 2 (apply obind_inv in E as (? & _ & E)). by injection E as <- <-.
Qed.

Lemma inboxes_keepalive sid addr t : leaves inboxes (shard_keepalive k sid addr t).
Proof. by apply inboxes_set_shard. Qed.

Lemma inboxes_remove_session sid : leaves inboxes (shard_remove_session k sid).
Proof.
  apply inboxes_set_shard. intros sh. destruct (session_flows sh !! sid) as [l|]; [|done].
  destruct (fold_shard_ok (remove_one sid) l) with (sh := sh <| session_flows ::= delete sid |>)
    as [E1 E2]; try (intros; apply remove_one_shrinks). exact E1.
Qed.

Lemma inboxes_cleanup t : leaves inboxes (shard_cleanup k t).
Proof. apply (inboxes_set_shard (cleaned t)), cleaned_inbox. Qed.

(** A message is taken off the front of the shard's own inbox. *)
Lemma inbox_pops so ro sr t v v' c msg rest :
  inboxes v !! k = Some (msg :: rest) -> shard_inbox k so ro sr t v = Ret (v', c) ->
  inboxes v' = <[k := rest]> (inboxes v).
Proof.
  rewrite inboxes_lookup. destruct (v_shards v !! k) as [sh|] eqn:Es; [|discriminate].
  intros [= Ei] E. unfold shard_inbox, hbind, h_shard, hget in E. rewrite Es in E.
  change (default shard_new (Some sh)) with sh in E.
  rewrite Ei in E. cbn in E.
  set (w := v <| v_shards ::= alter (fun sh => sh <| inbox := rest |>) k |>) in E.
  assert (inboxes w = <[k := rest]> (inboxes v)) as <-.
  { unfold inboxes, w. cbn. apply list_eq. intros n.
    change (@List.map Shard (list ShardMsg)) with (@fmap list _ Shard (list ShardMsg)).
    destruct (decide (n = k)) as [->|Hn].
    - rewrite list_lookup_insert_eq by (rewrite length_fmap; by eapply lookup_lt_Some).
      by rewrite list_lookup_fmap, list_lookup_alter_eq, Es.
    - rewrite list_lookup_insert_ne by done. by rewrite !list_lookup_fmap, list_lookup_alter_ne. }
  destruct msg; [exact (inboxes_client_packet _ _ _ _ _ _ _ _ _ _ _ _ _ _ E)
    | exact (inboxes_keepalive _ _ _ _ _ _ E) | exact (inboxes_remove_session _ _ _ _ E)].
Qed.

(** A readiness event reads at most [MAX_FLOW_RECV_BURST] datagrams of its
    flow; what is beyond waits for the next event of that flow. *)
Lemma event_reads_burst token l v :
  shard_event cfg k token l v = shard_event cfg k token (take MAX_FLOW_RECV_BURST l) v.
Proof.
  assert (forall key burst ds w, shard_burst cfg k key burst ds w
            = shard_burst cfg k key burst (take burst ds) w) as Hb.
  { intros key burst. induction burst as [|burst IH]; intros ds w; [done|].
    destruct ds as [|[[[p r] t] tu] ds]; [done|]. cbn [shard_burst firstn]. unfold hbind.
    destruct (shard_response _ _ _ _ _ _ _ w) as [[w' []]|]; auto. }
  unfold shard_event, hbind. destruct (token =? 0); [done|].
  destruct (h_shard k v) as [[w [sh|]]|]; [|done..].
  destruct (token_to_flow sh !! token); [|done]. destruct (bool_decide _); [apply Hb | done].
Qed.

(* ------------------------------------------------------------------ *)
(** ** The iteration as turns *)

Context `{TicketCrypto} (hash_one : IpAddr -> Z).

(** A turn that keeps the invariant, caught as a loop body. *)
Lemma catch_turn a (m : H unit) v :
  m = turn_handler hash_one cfg a -> turn_ok a -> inv [] v ->
  exists v' c, m v = Ret (v', c) /\ hcatch m v = Ret (v', Next tt)
    /\ v2_turn hash_one cfg v a = Ret v' /\ inv [] v'.
Proof.
  intros -> Ha Hv. pose proof (turn_safe hash_one cfg a Ha (turn_loose a) v Hv) as Hw.
  apply wp_inv in Hw as (v' & c & E & Hc). exists v', c. unfold hcatch, v2_turn. rewrite E.
  do 3 (split; [reflexivity|]). by destruct c.
Qed.

Lemma events_run events v : inv [] v ->
  exists v', shard_events events v = Ret (v', Next tt) /\ inv [] v'
    /\ v2_run hash_one cfg v (event_turns events) = Ret v' /\ inboxes v' = inboxes v.
Proof.
  revert v. induction events as [|[token l] events IH]; intros v Hv; [by exists v|].
  destruct (catch_turn (TurnEvent k token l) _ v eq_refl I Hv) as (w & c & E & Ec & Et & Hw).
  destruct (IH w Hw) as (v' & E' & Hv' & Er & Hi). exists v'.
  cbn [shard_events event_turns List.map fst snd]. unfold hbind at 1. cbn [turn_handler] in Ec.
  rewrite Ec. repeat (split; [assumption|]). split.
  - cbn [v2_run]. by rewrite Et.
  - rewrite Hi. exact (inboxes_event _ _ _ _ _ E).
Qed.

Lemma drain_run burst message : forall j v q, inv [] v -> inboxes v !! k = Some q ->
  exists v', shard_drain burst message j v = Ret (v', Next tt) /\ inv [] v'
    /\ v2_run hash_one cfg v (message_turns message j (Nat.min burst (length q))) = Ret v'
    /\ inboxes v' = <[k := drop burst q]> (inboxes v).
Proof.
  induction burst as [|burst IH]; intros j v q Hv Hq.
  { exists v. repeat (split; [done|]). by rewrite drop_0, list_insert_id. }
  cbn [shard_drain]. unfold hbind at 1, h_shard, hget.
  pose proof Hq as Hq'. rewrite inboxes_lookup in Hq'.
  destruct (v_shards v !! k) as [sh|] eqn:Es; [|discriminate]. injection Hq' as Hq'.
  change (default shard_new (Some sh)) with sh.
  rewrite Hq'. destruct q as [|msg rest].
  { exists v. repeat (split; [done|]). by rewrite list_insert_id. }
  destruct (message j) as [[[so ro] sr] t] eqn:Ej.
  destruct (catch_turn (TurnInbox k so ro sr t) _ v eq_refl I Hv) as (w & c & E & Ec & Et & Hw).
  pose proof (inbox_pops so ro sr t v w c msg rest Hq E) as Hi.
  assert (inboxes w !! k = Some rest) as Hq2.
  { rewrite Hi. apply list_lookup_insert_eq. by eapply lookup_lt_Some. }
  destruct (IH (S j) w rest Hw Hq2) as (v' & E' & Hv' & Er & Hi'). exists v'.
  cbn [turn_handler] in Ec. unfold hbind. rewrite Ec. repeat (split; [assumption|]). split.
  - cbn [length Nat.min message_turns seq List.map]. rewrite Ej. cbn [v2_run]. by rewrite Et.
  - by rewrite Hi', Hi, list_insert_insert_eq.
Qed.

Lemma iterate_run cleanup_at i v q : inv [] v -> inboxes v !! k = Some q ->
  exists v', shard_iterate cleanup_at i v
      = Ret (v', Next (if cleanup_at <=? si_check i then si_rearm i + CLEANUP_INTERVAL else cleanup_at))
    /\ v2_run hash_one cfg v
         (iteration_turns cleanup_at i (Nat.min MAX_INBOX_DRAIN_BURST (length q))) = Ret v'
    /\ inboxes v' = <[k := drop MAX_INBOX_DRAIN_BURST q]> (inboxes v).
Proof.
  intros Hv Hq. destruct (events_run (si_events i) v Hv) as (v1 & E1 & H1 & R1 & I1).
  destruct (drain_run MAX_INBOX_DRAIN_BURST (si_message i) 0 v1 q H1) as (v2 & E2 & H2 & R2 & I2);
    [by rewrite I1|].
  unfold shard_iterate, iteration_turns, hbind at 1. rewrite E1. unfold hbind at 1. rewrite E2.
  setoid_rewrite v2_run_app. rewrite R1. cbn [obind]. setoid_rewrite v2_run_app. rewrite R2. cbn [obind].
  rewrite <- I1. destruct (cleanup_at <=? si_check i).
  - destruct (catch_turn (TurnShardCleanup k (si_clean i)) _ v2 eq_refl I H2) as (v' & c & E & _ & Et & _).
    exists v'. cbn [turn_handler] in E. unfold hbind. rewrite E. cbn [v2_run]. rewrite Et.
    assert (c = Next tt) as -> by (by injection E as _ <-).
    repeat split. rewrite (inboxes_cleanup _ _ _ _ E). exact I2.
  - by exists v2.
Qed.

End Loop.

(** C13: an iteration of a shard thread's loop, in any state a run reaches,
    ends without a panic and is exactly a sequence of turns of that shard:
    one per readiness event, one for each of the first 1024 messages of its
    inbox, and the cleanup when it is due, after which the next cleanup is a
    cleanup interval later.  It takes exactly the first 1024 messages, in
    order, from its own inbox and leaves the other shards' inboxes alone; so
    every theorem on runs holds of the threads as the code schedules them. *)
Theorem shard_iteration_is_turns `{TicketCrypto} hash_one cfg tuning policy budget tun t0
  (l : list turn) v k q cleanup_at (i : ShardInput) :
  let v0 := v2_new tuning policy budget tun t0 in
  let turns := iteration_turns k cleanup_at i (Nat.min MAX_INBOX_DRAIN_BURST (length q)) in
  1 <= shard_count tuning -> Forall turn_ok l -> v2_run hash_one cfg v0 l = Ret v ->
  inboxes v !! k = Some q ->
  exists v',
    shard_iterate cfg k cleanup_at i v
      = Ret (v', Next (if cleanup_at <=? si_check i then si_rearm i + CLEANUP_INTERVAL else cleanup_at))
    /\ v2_run hash_one cfg v0 (l ++ turns) = Ret v'
    /\ inboxes v' = <[k := drop MAX_INBOX_DRAIN_BURST q]> (inboxes v).
Proof.
  intros v0 turns Hn Hl E Hq.
  pose proof (run_returns hash_one cfg l v0 (inv_new tuning policy budget tun t0 Hn) Hl) as Hv.
  rewrite E in Hv. destruct (iterate_run cfg k hash_one cleanup_at i v q Hv Hq) as (v' & E1 & E2 & E3).
  exists v'. split; [exact E1|]. split; [|exact E3]. rewrite v2_run_app, E. exact E2.
Qed.

(* ------------------------------------------------------------------ *)
(** ** Witness *)

Section Witnesses.
#[local] Existing Instance toy_crypto.

(** A packet waits in the inbox; then an unknown token is ready and the
    cleanup is due. *)
Definition loop_turns : list turn := take 3 trace_turns.
Definition loop_input : ShardInput := MkShardInput [(9, [])] (fun _ => (true, true, SendOk, 3)) 50 51 52.
Definition loop_inbox : list ShardMsg :=
  [ClientPacket toy_sid toy_client (SockV4 (ipv4_new 128 116 1 1) 55000)
     (MkInfo 0 (ipv4_new 1 1 1 1) 5000 (ipv4_new 128 116 1 1) 55000) 1 3 2].

Lemma shard_iteration_is_turns_witness :
  exists v',
    shard_iterate toy_cfg 0 40 loop_input (trace_end toy_cfg loop_turns)
      = Ret (v', Next (51 + CLEANUP_INTERVAL))
    /\ v2_run toy_hash toy_cfg trace_start (loop_turns ++ iteration_turns 0 40 loop_input 1) = Ret v'
    /\ inboxes v' = <[0%nat := []]> (inboxes (trace_end toy_cfg loop_turns)).
Proof.
  apply (shard_iteration_is_turns toy_hash toy_cfg small_tuning (build Enforce roblox_file [443])
    toy_budget true 0 loop_turns (trace_end toy_cfg loop_turns) 0 loop_inbox 40 loop_input).
  - cbn. lia.
  - repeat apply List.Forall_cons; try apply List.Forall_nil; try exact I;
      apply toy_rx_ok; vm_compute; reflexivity.
  - apply returned. vm_compute. reflexivity.
  - vm_compute. reflexivity.
Defined.

End Witnesses.
