(* ===== verification/V2Drain.v ===== *)
(** * Datapath v2: the queues drain

    Every buffer of the pool that is not free waits in the inbox of a shard
    or in a queue of the TX thread ([inv]).  Here: each turn of a shard takes
    one message, each turn of the TX thread takes one packet, and neither
    puts anything back, so that a relay that receives nothing for a while has
    its whole pool back, whatever the sockets answer. *)

From S2P Require Import Prelude Checksum Net Packet TunRewrite TunSession RustStr Tuning DestPolicy Stats Sessions RateLimit AccountBudget Auth Frames Handler V2State V2Rx V2Shard V2Tun V2Inv V2Safe V2Thms V2Auth V2Data V2Trace ShardLoop.

(** What waits, with the contents of the buffers. *)
Definition queued (v : V2) : list TxPacket * list TxPacket := (v_tx_control v, v_tx_data v).
Definition waiting (v : V2) : list (list ShardMsg) * (list TxPacket * list TxPacket) * list (list Z) :=
  (inboxes v, queued v, buffers (v_pool v)).

Lemma waiting_stat f : leaves waiting (stat f).
Proof. by apply leaves_mod. Qed.
Lemma waiting_drop_in r : leaves waiting (h_drop_in r).
Proof. apply waiting_stat. Qed.
Lemma waiting_drop_out r : leaves waiting (h_drop_out r).
Proof. apply waiting_stat. Qed.
Lemma waiting_release idx : leaves waiting (h_release idx).
Proof. by apply leaves_mod. Qed.
Lemma waiting_set_shard k f : (forall sh, inbox (f sh) = inbox sh) -> leaves waiting (h_set_shard k f).
Proof.
  intros Hf. apply leaves_mod. intros v. unfold waiting, inboxes. cbn. by rewrite map_alter_same.
Qed.
Lemma waiting_read {A} (g : V2 -> outcome A) :
  leaves waiting (hrun (fun v => let* a := g v in Ret (v, a))).
Proof. apply leaves_run. intros s s' a E. apply obind_inv in E as (x & _ & E). by injection E as <- _. Qed.
#[export] Hint Resolve waiting_stat waiting_drop_in waiting_drop_out waiting_release waiting_read : handler.

Lemma fold_inbox {A} (g : Shard -> A -> Shard) l sh :
  (forall sh a, inbox (g sh a) = inbox sh) -> inbox (fold_left g l sh) = inbox sh.
Proof. intros Hg. revert sh. induction l as [|a l IH]; intros sh; cbn; [done|]. by rewrite IH, Hg. Qed.

Section Shard.
Context (k : nat).

Lemma waiting_open_flow key addr info idx so ro t :
  leaves waiting (shard_open_flow k key addr info idx so ro t).
Proof.
  unfold shard_open_flow, h_shard. lsteps; try by apply waiting_set_shard.
  apply leaves_run. intros s s1 x E. destruct (allow_source_event _ _ _ _ _) as [[lim st] ok].
  by injection E as <- _.
Qed.

Lemma waiting_client_packet sid addr game info idx plen t0 so ro sr t :
  leaves waiting (shard_client_packet k sid addr game info idx plen t0 so ro sr t).
Proof.
  unfold shard_client_packet. lstep; [lsteps|]. lstep; [apply waiting_open_flow|].
  lstep; [by apply waiting_set_shard|]. lstep.
  { apply leaves_run. intros s1 s2 r E. apply obind_inv in E as (x & _ & E).
    apply obind_inv in E as (y & _ & E). by injection E as <- _. }
  unfold h_flow_send. lsteps.
Qed.

Lemma waiting_keepalive sid addr t : leaves waiting (shard_keepalive k sid addr t).
Proof. by apply waiting_set_shard. Qed.

Lemma waiting_remove_session sid : leaves waiting (shard_remove_session k sid).
Proof.
  apply waiting_set_shard. intros sh. destruct (session_flows sh !! sid) as [l|]; [|done].
  rewrite fold_inbox; [done|]. intros sh' a. cbv zeta. by destruct (sh_flows sh' !! MkKey sid a).
Qed.

(** A turn at the inbox takes its first message and nothing else moves. *)
Lemma map_alter_at {A B} (g : A -> B) (f : A -> A) (h : B -> B) (l : list A) n :
  (forall x, l !! n = Some x -> g (f x) = h (g x)) -> List.map g (alter f n l) = alter h n (List.map g l).
Proof.
  revert n. induction l as [|x l IH]; intros [|n] Hx; cbn; try done.
  - by rewrite (Hx x eq_refl).
  - f_equal. apply IH. exact Hx.
Qed.

Lemma lookup_map {A B} (g : A -> B) (l : list A) n : List.map g l !! n = option_map g (l !! n).
Proof. exact (list_lookup_fmap g l n). Qed.

Lemma inbox_takes so ro sr t v v' c :
  shard_inbox k so ro sr t v = Ret (v', c) ->
  waiting v' = (alter tail k (inboxes v), queued v, buffers (v_pool v)).
Proof.
  unfold shard_inbox, hbind at 1, h_shard, hget.
  destruct (inbox (default shard_new (v_shards v !! k))) as [|msg rest] eqn:Ei.
  - intros [= <- _]. unfold waiting. do 2 f_equal. unfold inboxes.
    rewrite <- (map_alter_at inbox id); [by rewrite list_alter_id|].
    intros sh E. rewrite E in Ei. cbn in Ei. by rewrite Ei.
  - unfold hbind at 1, h_set_shard, hmod. set (w := v <| v_shards ::= _ |>). intros E.
    transitivity (waiting w).
    + destruct msg; [exact (waiting_client_packet _ _ _ _ _ _ _ _ _ _ _ _ _ _ E)
                    |exact (waiting_keepalive _ _ _ _ _ _ E)|exact (waiting_remove_session _ _ _ _ E)].
    + unfold waiting. do 2 f_equal. unfold inboxes. apply map_alter_at.
      intros sh Es. rewrite Es in Ei. cbn in *. by rewrite Ei.
Qed.

End Shard.

(** A turn of the TX thread takes the first control packet or, without one,
    the first data packet. *)
Definition tx_taken (q : list TxPacket * list TxPacket) : list TxPacket * list TxPacket :=
  match q with
  | (p :: control, data) => (control, data)
  | ([], data) => ([], tail data)
  end.

Lemma waiting_budget sid out packet mono : leaves waiting (h_budget sid out packet mono).
Proof. apply leaves_run. intros s s' a E. apply obind_inv in E as ([b ok] & _ & E). by injection E as <- _. Qed.
Lemma waiting_count_out sid n tu : leaves waiting (count_out sid n tu).
Proof. by apply leaves_mod. Qed.
#[export] Hint Resolve waiting_budget waiting_count_out : handler.

Lemma waiting_send_tx auth p ok t tu mono : leaves waiting (send_tx_packet auth p ok t tu mono).
Proof. unfold send_tx_packet. lsteps. Qed.

Lemma tx_takes auth ok t tu mono v v' c :
  tx_step auth ok t tu mono v = Ret (v', c) ->
  waiting v' = (inboxes v, tx_taken (queued v), buffers (v_pool v)).
Proof.
  unfold tx_step, hbind, hrun, tx_next, queued, tx_taken.
  destruct (v_tx_control v) as [|p control] eqn:Ec; [destruct (v_tx_data v) as [|p data] eqn:Ed|].
  - intros [= <- _]. unfold waiting, queued. by rewrite Ec, Ed.
  - intros E. rewrite (waiting_send_tx _ _ _ _ _ _ _ _ _ E). unfold waiting, queued. cbn. by rewrite Ec.
  - intros E. by rewrite (waiting_send_tx _ _ _ _ _ _ _ _ _ E).
Qed.

(* ------------------------------------------------------------------ *)
(** ** The other threads that receive nothing *)

Lemma waiting_shard_cleanup k t : leaves waiting (shard_cleanup k t).
Proof.
  apply waiting_set_shard. intros sh. cbn. by rewrite fold_inbox.
Qed.
Lemma waiting_close_begin expired sid : leaves waiting (close_begin expired sid).
Proof. unfold close_begin. lsteps. Qed.
Lemma waiting_tun_assign : leaves waiting tun_assign_turn.
Proof. unfold tun_assign_turn, h_nat. lsteps. Qed.
Lemma waiting_tun_commit : leaves waiting tun_commit_turn.
Proof. unfold tun_commit_turn, h_nat. lsteps. Qed.
Lemma waiting_tun_read packet : leaves waiting (tun_read_turn packet).
Proof. unfold tun_read_turn, h_nat. lsteps. Qed.
Lemma waiting_tun_resp auth ok tu mono : leaves waiting (tun_resp_turn auth ok tu mono).
Proof. unfold tun_resp_turn, count_tun_out. lsteps. Qed.
Lemma waiting_resolve n lookup ok : leaves waiting (resolve_turn n lookup ok).
Proof. unfold resolve_turn. lsteps. Qed.

(** Turns in which nothing new arrives. *)
Definition quiet (a : turn) : bool :=
  match a with
  | TurnRx _ | TurnEvent _ _ _ | TurnCleanup _ _ | TurnCloseFinish => false
  | _ => true
  end.
Definition at_inbox (k : nat) (a : turn) : bool :=
  match a with
  | TurnInbox k' _ _ _ _ => (k =? k')%nat
  | _ => false
  end.
Definition at_tx (a : turn) : bool :=
  match a with
  | TurnTx _ _ _ _ => true
  | _ => false
  end.
Definition turns_of (f : turn -> bool) (l : list turn) : nat := length (List.filter f l).

Section Drain.
Context `{TicketCrypto} (hash_one : IpAddr -> Z) (cfg : Config).

(** One quiet turn, on what waits. *)
Definition drained (a : turn) (x : list (list ShardMsg) * (list TxPacket * list TxPacket) * list (list Z))
  : list (list ShardMsg) * (list TxPacket * list TxPacket) * list (list Z) :=
  let '(boxes, q, bufs) := x in
  match a with
  | TurnInbox k _ _ _ _ => (alter tail k boxes, q, bufs)
  | TurnTx _ _ _ _ => (boxes, tx_taken q, bufs)
  | _ => x
  end.

Lemma quiet_turn a v v' :
  quiet a = true -> v2_turn hash_one cfg v a = Ret v' -> waiting v' = drained a (waiting v).
Proof.
  intros Hq E. apply obind_inv in E as ([w c] & E & [= <-]). destruct a; try discriminate; cbn [turn_handler] in E.
  - exact (inbox_takes _ _ _ _ _ _ _ _ E).
  - exact (waiting_shard_cleanup _ _ _ _ _ E).
  - exact (tx_takes _ _ _ _ _ _ _ _ E).
  - exact (waiting_close_begin _ _ _ _ _ E).
  - by injection E as <- _.
  - exact (waiting_tun_assign _ _ _ E).
  - exact (waiting_tun_commit _ _ _ E).
  - exact (waiting_tun_read _ _ _ _ E).
  - exact (waiting_tun_resp _ _ _ _ _ _ _ E).
  - exact (waiting_resolve _ _ _ _ _ _ E).
  - by injection E as <- _.
  - by injection E as <- _.
Qed.

Definition tx_length (q : list TxPacket * list TxPacket) : nat := (length q.1 + length q.2)%nat.

Lemma tx_taken_length q : tx_length (tx_taken q) = (tx_length q - 1)%nat.
Proof. unfold tx_length. destruct q as [[|p control] [|p' data]]; cbn; lia. Qed.

(** Enough turns at each queue empty it. *)
Lemma quiet_turns_drain l v v' :
  Forall (fun a => quiet a = true) l -> v2_run hash_one cfg v l = Ret v' ->
  (forall k box, inboxes v !! k = Some box -> (length box <= turns_of (at_inbox k) l)%nat) ->
  (tx_length (queued v) <= turns_of at_tx l)%nat ->
  Forall (fun box => box = []) (inboxes v') /\ queued v' = ([], []) /\ buffers (v_pool v') = buffers (v_pool v).
Proof.
  intros Hl. revert v. induction Hl as [|a l Ha Hl IH]; intros v E Hin Htx.
  - injection E as <-. split; [|split; [|done]].
    + apply Forall_lookup. intros k box Hb. specialize (Hin k box Hb). by destruct box; [|cbn in Hin; lia].
    + unfold tx_length in Htx. destruct (queued v) as [[|] [|]]; cbn in Htx; [done | lia..].
  - cbn in E. apply obind_inv in E as (w & Ea & E). pose proof (quiet_turn _ _ _ Ha Ea) as Hw.
    pose proof (f_equal snd Hw) as Eb. pose proof (f_equal (fun x => x.1.1) Hw) as Ei.
    pose proof (f_equal (fun x => x.1.2) Hw) as Eq. cbn in Eb, Ei, Eq.
    assert (buffers (v_pool w) = buffers (v_pool v)) as <- by (rewrite Eb; by destruct a).
    unfold turns_of in Hin, Htx. cbn in Hin, Htx. apply (IH w E).
    + intros k box Hb. destruct a; try discriminate; cbn in Ei; rewrite Ei in Hb; try exact (Hin k box Hb).
      destruct (decide (k = shard)) as [->|Hne].
      * rewrite list_lookup_alter_eq in Hb. apply fmap_Some in Hb as (box' & Hb & ->).
        specialize (Hin _ _ Hb). cbn [at_inbox] in Hin. rewrite Nat.eqb_refl in Hin. unfold turns_of.
        destruct box'; cbn in *; lia.
      * rewrite list_lookup_alter_ne in Hb by done.
        specialize (Hin _ _ Hb). cbn [at_inbox] in Hin. by rewrite (proj2 (Nat.eqb_neq _ _) Hne) in Hin.
    + destruct a; try discriminate; try (rewrite Eq; exact Htx).
      change (queued w = tx_taken (queued v)) in Eq. rewrite Eq, tx_taken_length. unfold turns_of. unfold tx_length in *. cbn in Htx |- *. lia.
Qed.

End Drain.

(** C6: the pool recovers.  From any state the relay reaches, any turns in
    which nothing new arrives (no datagram, no game response, no session
    cleanup), with as many turns of each shard as messages wait in its inbox
    and as many turns of the TX thread as packets wait for it, and any other
    such turns in between, whatever the sockets answer, leave every queue
    empty and every buffer of the pool free: no path through the shards or
    the TX thread keeps a buffer. *)
Theorem v2_pool_recovers `{TicketCrypto} hash_one cfg tuning policy budget tun t0
  (l quiet_turns : list turn) v :
  1 <= shard_count tuning -> Forall turn_ok l ->
  v2_run hash_one cfg (v2_new tuning policy budget tun t0) l = Ret v ->
  Forall (fun a => quiet a = true) quiet_turns ->
  (forall k sh, v_shards v !! k = Some sh -> (length (inbox sh) <= turns_of (at_inbox k) quiet_turns)%nat) ->
  (length (v_tx_control v) + length (v_tx_data v) <= turns_of at_tx quiet_turns)%nat ->
  exists v', v2_run hash_one cfg v quiet_turns = Ret v'
    /\ Forall (fun sh => inbox sh = []) (v_shards v') /\ v_tx_control v' = [] /\ v_tx_data v' = []
    /\ free (v_pool v') ≡ₚ seq 0 (length (buffers (v_pool v))).
Proof.
  intros Hn Hl E Hq Hin Htx.
  pose proof (run_returns hash_one cfg l _ (inv_new tuning policy budget tun t0 Hn) Hl) as Hv.
  rewrite E in Hv. cbn in Hv.
  assert (Forall turn_ok quiet_turns) as Hok by (eapply list.Forall_impl; [exact Hq | by intros []]).
  destruct (returns_inv _ _ (run_returns hash_one cfg quiet_turns v Hv Hok)) as (v' & E' & Hv').
  exists v'. split; [exact E'|].
  destruct (quiet_turns_drain hash_one cfg quiet_turns v v' Hq E') as (Hi & Hqd & Hb).
  { intros k box (sh & -> & Hsh)%list_lookup_fmap_Some. exact (Hin k sh Hsh). }
  { exact Htx. }
  injection Hqd as Hc Hd. unfold inboxes in Hi. rewrite Forall_map in Hi.
  split; [exact Hi|]. split; [exact Hc|]. split; [exact Hd|].
  pose proof (i_pool _ _ Hv') as Hp. rewrite Hb in Hp. rewrite <- Hp.
  assert (in_flight v' = []) as ->; [|by rewrite !app_nil_r].
  unfold in_flight. rewrite Hc, Hd. cbn. induction Hi as [|sh shards Hsh Hrest IH]; cbn; [done|].
  unfold shard_owned at 1. by rewrite Hsh.
Qed.

Section Witness.
#[local] Existing Instance toy_crypto.

(** A hello frame and a packet: an ack and a client packet wait. *)
Definition busy_turns : list turn := [TurnRx (toy_rx toy_hello 0); TurnRx (toy_rx (toy_sid ++ sample_udp) 2)].
Definition busy_state : V2 :=
  match v2_run toy_hash toy_cfg (v2_new small_tuning sample_policy sample_budget true 0) busy_turns with
  | Ret v => v | Panic => trace_start end.
Definition idle_turns : list turn := [TurnInbox 0 false true SendOk 3; TurnStats; TurnTx false 4 1204 4].

Lemma v2_pool_recovers_witness :
  (length (free (v_pool busy_state)) = 2)%nat
  /\ exists v', v2_run toy_hash toy_cfg busy_state idle_turns = Ret v'
    /\ Forall (fun sh => inbox sh = []) (v_shards v') /\ v_tx_control v' = [] /\ v_tx_data v' = []
    /\ free (v_pool v') ≡ₚ seq 0 (length (buffers (v_pool busy_state))).
Proof.
  split; [vm_compute; reflexivity|].
  apply (v2_pool_recovers toy_hash toy_cfg small_tuning sample_policy sample_budget true 0 busy_turns idle_turns).
  - vm_compute. discriminate.
  - repeat apply List.Forall_cons; try apply List.Forall_nil; apply toy_rx_ok; vm_compute; reflexivity.
  - apply returned. vm_compute. reflexivity.
  - repeat constructor.
  - intros k sh E. assert (List.map (fun s => length (inbox s)) (v_shards busy_state) = [1%nat]) as Hb
      by (vm_compute; reflexivity).
    apply (f_equal (option_map (fun s => length (inbox s)))) in E. rewrite <- lookup_map, Hb in E.
    destruct k as [|k]; [injection E as <-; apply le_n | discriminate E].
  - vm_compute. lia.
Defined.

End Witness.
