(* ===== verification/V2Idle.v ===== *)
(** * Datapath v2: idle flows (src/datapath_v2.rs, the cleanup of [run_shard])

    A flow is closed in two steps: a cleanup marks it once it has been idle
    for [SESSION_TIMEOUT], a later one removes it a [FLOW_GRACE_PERIOD] after
    the mark, and any traffic in between clears the mark.  The invariant is
    that a mark is never younger than the timeout after the last activity. *)

From Stdlib Require Import String.
From S2P Require Import Prelude Checksum Net Packet TunRewrite TunSession RustStr Tuning DestPolicy Stats Sessions RateLimit AccountBudget Auth Frames Handler V2State V2Rx V2Shard V2Tun V2Inv V2Safe V2Thms V2Auth V2Flows V2Data V2Trace.

Definition mark_ok (f : FlowState) : Prop :=
  forall m, f_marked_for_removal f = Some m -> f_last_activity f + SESSION_TIMEOUT <= m.
Definition marks_ok (m : gmap FlowKey FlowState) : Prop := map_Forall (fun _ => mark_ok) m.
Definition flow_tables (v : V2) : list (gmap FlowKey FlowState) := List.map sh_flows (v_shards v).
Definition idle_ok (v : V2) : Prop := Forall marks_ok (flow_tables v).

Lemma idle_leaves {A} (m : H A) : leaves flow_tables m -> stays idle_ok m.
Proof. apply (stays_leaves flow_tables (Forall marks_ok)). Qed.

Lemma leaves_tables {A} (m : H A) : leaves v_shards m -> leaves flow_tables m.
Proof. apply (leaves_weaken (List.map sh_flows)). Qed.

Lemma tables_post cfg sid msg : leaves flow_tables (h_post cfg sid msg).
Proof.
  apply leaves_run. intros s s' r E. apply obind_inv in E as (k & _ & E).
  destruct (v_shards s !! k) as [sh|] eqn:Es; [|by injection E as <- <-].
  destruct (try_send _ _ _) as [q|]; injection E as <- <-; [|done].
  unfold flow_tables. cbn. rewrite map_insert. apply list_insert_id. cbn.
  change (@List.map Shard (gmap FlowKey FlowState)) with (@fmap list _ Shard (gmap FlowKey FlowState)).
  by rewrite list_lookup_fmap, Es.
Qed.

#[local] Hint Resolve leaves_tables tables_post : handler.
#[local] Hint Resolve shards_stat shards_drop_in shards_drop_out shards_exhausted shards_release
  shards_acquire shards_fill shards_queue_tx shards_budget shards_parse shards_control_frame shards_ack
  shards_pending shards_source_event shards_verify_once shards_ticket shards_reauth_hint
  shards_auth_gate shards_admit shards_ingress shards_session shards_hello shards_require_auth
  shards_tun shards_name shards_tx : handler.

Lemma tables_rx `{TicketCrypto} hash_one cfg i : leaves flow_tables (rx_step hash_one cfg i).
Proof.
  unfold rx_step, rx_frame, rx_ping, rx_rtt, rx_resolve, rx_keepalive, rx_packet, rx_forward, rx_udp. lsteps.
Qed.

Lemma tables_close_begin expired sid : leaves flow_tables (close_begin expired sid).
Proof. unfold close_begin. lsteps. Qed.
Lemma tables_cleanup_finish cfg : leaves flow_tables (cleanup_finish cfg).
Proof. unfold cleanup_finish, close_finish. lsteps. Qed.

Lemma tables_cleanup cfg t tu : leaves flow_tables (cleanup_step cfg t tu).
Proof.
  unfold cleanup_step, cleanup_tun. apply leaves_bind; [apply tables_cleanup_finish|]. intros ?.
  lstep; [lstep|]. apply leaves_bind; [|intros ?; by apply leaves_mod].
  generalize (List.map fst (map_to_list a0)). intros sids.
  induction sids as [|sid sids IH]; cbn [cleanup_sessions]; [lstep|].
  apply leaves_bind; [|intros ?; exact IH]. unfold cleanup_session.
  apply leaves_bind; [apply tables_close_begin | intros ?; apply tables_cleanup_finish].
Qed.

(* ------------------------------------------------------------------ *)
(** ** The shard's own steps *)

Section Shard.
Context (cfg : Config) (k : nat).

Lemma idle_set_shard f :
  (forall sh, marks_ok (sh_flows sh) -> marks_ok (sh_flows (f sh))) -> stays idle_ok (h_set_shard k f).
Proof.
  intros Hf. apply stays_mod. unfold idle_ok, flow_tables. intros v. cbn. rewrite !Forall_map.
  intros Hv. apply Forall_alter; [exact Hv|]. intros sh _. apply Hf.
Qed.

(** Whatever a step does to a flow, it clears the mark. *)
Lemma marks_insert m key f : f_marked_for_removal f = None -> marks_ok m -> marks_ok (<[key := f]> m).
Proof. intros Hf Hm. apply map_Forall_insert_2; [|exact Hm]. intros t. by rewrite Hf. Qed.
Lemma marks_alter m key g :
  (forall f, f_marked_for_removal (g f) = None) -> marks_ok m -> marks_ok (alter g key m).
Proof.
  intros Hg Hm key' f' [(<- & f & E & ->)|[_ E]]%lookup_alter_Some; [|by apply (Hm key')].
  intros t. by rewrite Hg.
Qed.
Lemma marks_subset m m' : m' ⊆ m -> marks_ok m -> marks_ok m'.
Proof. intros Hs Hm key f E. apply (Hm key). exact (lookup_weaken _ _ _ _ E Hs). Qed.

Lemma idle_get {A} (f : V2 -> A) : stays idle_ok (hget f).
Proof. by intros s s' c Hs [= <- <-]. Qed.
Lemma idle_shard : stays idle_ok (h_shard k).
Proof. apply idle_get. Qed.
#[local] Hint Resolve idle_leaves idle_get idle_shard : handler.
#[local] Hint Extern 3 (leaves _ (hmod _)) => apply leaves_mod; by intros ? : handler.
#[local] Hint Extern 3 (leaves _ (hlift _)) => apply leaves_lift : handler.

Lemma idle_response key payload rtos t tu : stays idle_ok (shard_response cfg k key payload rtos t tu).
Proof.
  unfold shard_response. repeat sstep.
  - apply idle_set_shard. intros sh'. by apply marks_insert.
  - apply idle_leaves, leaves_run. intros w w' r E.
    do 4 (apply obind_inv in E as (? & _ & E)). apply obind_inv in E as ([tl ip_n] & _ & E).
    apply obind_inv in E as (p & _ & E). by injection E as <- <-.
Qed.

Lemma idle_event token l : stays idle_ok (shard_event cfg k token l).
Proof.
  unfold shard_event. ssteps. generalize MAX_FLOW_RECV_BURST. intros burst. revert l.
  induction burst as [|burst IH]; intros l; cbn [shard_burst]; [ssteps|].
  destruct l as [|[[[payload rtos] t] tu] l]; [ssteps|]. apply stays_bind; [apply idle_response | auto].
Qed.

Lemma idle_open_flow key addr info idx so ro t :
  stays idle_ok (shard_open_flow k key addr info idx so ro t).
Proof.
  unfold shard_open_flow.
  repeat (sstep || (apply idle_set_shard; intros sh'; try by apply marks_insert)); [|done..].
  apply idle_leaves, leaves_run. intros w w' r E. destruct (allow_source_event _ _ _ _ _) as [[l st] x].
  by injection E as <- <-.
Qed.

Lemma idle_client_packet sid addr game info idx plen t0 so ro sr t :
  stays idle_ok (shard_client_packet k sid addr game info idx plen t0 so ro sr t).
Proof.
  unfold shard_client_packet, h_flow_send.
  repeat (apply idle_open_flow || sstep || (apply idle_set_shard; intros sh'; by apply marks_alter)).
  apply idle_leaves, leaves_run. intros w w' r E. do 2 (apply obind_inv in E as (? & _ & E)).
  by injection E as <- <-.
Qed.

Lemma idle_keepalive sid addr t : stays idle_ok (shard_keepalive k sid addr t).
Proof.
  apply idle_set_shard. intros sh Hm. cbn. generalize (default [] (session_flows sh !! sid)). intros l.
  revert Hm. generalize (sh_flows sh). induction l as [|a l IH]; intros m Hm; [exact Hm|].
  apply IH. by apply marks_alter.
Qed.

Lemma idle_remove_session sid : stays idle_ok (shard_remove_session k sid).
Proof.
  apply idle_set_shard. intros sh. destruct (session_flows sh !! sid) as [l|]; [|done].
  destruct (fold_shard_ok (remove_one sid) l) with (sh := sh <| session_flows ::= delete sid |>)
    as [E1 E2]; try (intros; apply remove_one_shrinks). by apply marks_subset.
Qed.

Lemma idle_inbox so ro sr t : stays idle_ok (shard_inbox k so ro sr t).
Proof.
  unfold shard_inbox. sstep; [sstep|]. destruct (inbox a); [ssteps|].
  apply stays_bind; [by apply idle_set_shard|]. intros ?.
  destruct s; [apply idle_client_packet | apply idle_keepalive | apply idle_remove_session].
Qed.
Lemma idle_cleanup t : stays idle_ok (shard_cleanup k t).
Proof.
  apply (idle_set_shard (cleaned t)). intros sh Hm key f' E. rewrite cleaned_flows in E.
  destruct (sh_flows sh !! key) as [f|] eqn:Ef; [|discriminate]. cbn in E. pose proof (Hm key f Ef) as Hf.
  unfold cleanup_flow in E. repeat case_match; simplify_eq; try done; try exact Hf; intros m [= <-].
  cbn. unfold duration_since in *. match goal with H : (_ <=? _) = true |- _ => apply Z.leb_le in H end.
  unfold SESSION_TIMEOUT, secs in *. lia.
Qed.

End Shard.

Lemma idle_turn `{TicketCrypto} hash_one cfg a : stays idle_ok (turn_handler hash_one cfg a).
Proof.
  destruct a; cbn [turn_handler].
  - apply idle_leaves, tables_rx.
  - apply idle_event.
  - apply idle_inbox.
  - apply idle_cleanup.
  - apply idle_leaves, leaves_tables, shards_tx.
  - apply idle_leaves, tables_cleanup.
  - apply idle_leaves, tables_close_begin.
  - apply idle_leaves, tables_cleanup_finish.
  - apply idle_leaves. by apply leaves_mod.
  - apply idle_leaves, leaves_tables. unfold tun_assign_turn, h_nat. lsteps.
  - apply idle_leaves, leaves_tables. unfold tun_commit_turn, h_nat. lsteps.
  - apply idle_leaves, leaves_tables. unfold tun_read_turn, h_nat. lsteps.
  - apply idle_leaves, leaves_tables. unfold tun_resp_turn, count_tun_out. lsteps.
  - apply idle_leaves, leaves_tables. unfold resolve_turn. lsteps.
  - apply idle_leaves. by apply leaves_mod.
  - apply idle_leaves. by apply leaves_mod.
Qed.

Lemma idle_run `{TicketCrypto} hash_one cfg l v v' :
  idle_ok v -> v2_run hash_one cfg v l = Ret v' -> idle_ok v'.
Proof.
  revert v. induction l as [|a l IH]; intros v Hv E; [by injection E as <-|].
  cbn [v2_run] in E. apply obind_inv in E as (w & Ew & E). apply (IH w); [|exact E].
  apply obind_inv in Ew as ([w' c] & Ew & [= <-]). pose proof (idle_turn hash_one cfg a v w' c Hv Ew).
  by destruct c.
Qed.

Lemma idle_new tuning policy budget tun t : idle_ok (v2_new tuning policy budget tun t).
Proof.
  unfold idle_ok, flow_tables. cbn. rewrite Forall_map. apply Forall_replicate. intros key f E.
  by destruct (lookup_empty_Some (M := gmap FlowKey) key f E).
Qed.

(** The fate of one flow with a sound mark, on a clock that does not run
    backwards: the branch that revives a marked flow is never taken. *)
Lemma cleanup_flow_fate t f :
  mark_ok f -> (forall m, f_marked_for_removal f = Some m -> m <= t) ->
  cleanup_flow t f
  = match f_marked_for_removal f with
    | Some m => if FLOW_GRACE_PERIOD <=? t - m then None else Some f
    | None => if SESSION_TIMEOUT <=? t - f_last_activity f
              then Some (f <| f_marked_for_removal := Some t |>) else Some f
    end.
Proof.
  intros Hm Ht. unfold cleanup_flow, mark_ok, duration_since in *.
  assert (0 < FLOW_GRACE_PERIOD /\ secs 10 < SESSION_TIMEOUT /\ 0 < secs 10) as (Hg & Hs & Hz)
    by (unfold FLOW_GRACE_PERIOD, SESSION_TIMEOUT, secs; lia).
  destruct (f_marked_for_removal f) as [m|].
  - specialize (Hm m eq_refl). specialize (Ht m eq_refl). rewrite Z.max_r by lia.
    destruct (_ <=? _); [done|]. by rewrite (proj2 (Z.ltb_ge _ _)) by lia.
  - destruct (Z.leb_spec SESSION_TIMEOUT (t - f_last_activity f)).
    + by rewrite (proj2 (Z.leb_le _ _)) by lia.
    + by rewrite (proj2 (Z.leb_gt _ _)) by lia.
Qed.

(** C14: the life of an idle flow.  In every state a run reaches, a cleanup on
    a clock that has not run backwards keeps a flow exactly as it is while it
    had traffic within the session timeout; it marks a flow that has been idle
    for that long; a marked flow stays until a grace period after the mark and
    is then removed.  So only a flow idle for the timeout and the grace period
    together is ever closed by the cleanup, and two cleanups suffice for any
    idle flow; the branch that revives a marked flow is never taken. *)
Theorem v2_idle_flow_lifecycle `{TicketCrypto} hash_one cfg tuning policy budget tun t0
  (l : list turn) v k sh key f t v' c :
  v2_run hash_one cfg (v2_new tuning policy budget tun t0) l = Ret v ->
  v_shards v !! k = Some sh -> sh_flows sh !! key = Some f ->
  (forall m, f_marked_for_removal f = Some m -> m <= t) ->
  shard_cleanup k t v = Ret (v', c) ->
  exists sh', v_shards v' !! k = Some sh'
    /\ (t - f_last_activity f < SESSION_TIMEOUT -> sh_flows sh' !! key = Some f)
    /\ (f_marked_for_removal f = None -> SESSION_TIMEOUT <= t - f_last_activity f ->
        sh_flows sh' !! key = Some (f <| f_marked_for_removal := Some t |>))
    /\ (forall m, f_marked_for_removal f = Some m ->
        sh_flows sh' !! key = if FLOW_GRACE_PERIOD <=? t - m then None else Some f)
    /\ (sh_flows sh' !! key = None -> SESSION_TIMEOUT + FLOW_GRACE_PERIOD <= t - f_last_activity f).
Proof.
  intros Hrun Hsh Hf Ht [= <- _]. exists (cleaned t sh).
  split; [cbn; by rewrite list_lookup_alter_eq, Hsh|]. rewrite cleaned_flows, Hf. cbn [mbind option_bind].
  assert (mark_ok f) as Hm.
  { pose proof (idle_run hash_one cfg l _ v (idle_new tuning policy budget tun t0) Hrun) as Hi.
    apply (Forall_lookup_1 _ _ k (sh_flows sh)) in Hi; [exact (Hi key f Hf)|].
    unfold flow_tables. change (@List.map Shard (gmap FlowKey FlowState)) with (@fmap list _ Shard (gmap FlowKey FlowState)).
    by rewrite list_lookup_fmap, Hsh. }
  rewrite (cleanup_flow_fate t f Hm Ht). unfold mark_ok in Hm.
  destruct (f_marked_for_removal f) as [m|].
  - specialize (Hm m eq_refl). specialize (Ht m eq_refl).
    split; [lia|]. split; [discriminate|]. split; [by intros m' [= <-]|].
    destruct (Z.leb_spec FLOW_GRACE_PERIOD (t - m)); [lia | discriminate].
  - destruct (Z.leb_spec SESSION_TIMEOUT (t - f_last_activity f));
      (split; [by intros; first [lia | done]|]); (split; [by intros; first [lia | done]|]); by split.
Qed.

(* ------------------------------------------------------------------ *)
(** ** Witness *)

Section Witnesses.
#[local] Existing Instance toy_crypto.

(** A flow whose game server last answered at 4 ns, cleaned up three minutes
    later: it is marked. *)
Definition idle_end : V2 := trace_end toy_cfg trace_turns.
Definition idle_shard_state : Shard := default shard_new (v_shards idle_end !! 0%nat).
Definition idle_key : FlowKey := MkKey toy_sid (SockV4 (ipv4_new 128 116 1 1) 55000).
Definition idle_flow : FlowState :=
  MkFlowState toy_client (MkInfo 0 (ipv4_new 1 1 1 1) 5000 (ipv4_new 128 116 1 1) 55000) 4 None 1.

Lemma v2_idle_flow_lifecycle_witness :
  exists sh', v_shards (after (shard_cleanup 0 (secs 181)) idle_end) !! 0%nat = Some sh'
    /\ (secs 181 - 4 < SESSION_TIMEOUT -> sh_flows sh' !! idle_key = Some idle_flow)
    /\ (f_marked_for_removal idle_flow = None -> SESSION_TIMEOUT <= secs 181 - 4 ->
        sh_flows sh' !! idle_key = Some (idle_flow <| f_marked_for_removal := Some (secs 181) |>))
    /\ (forall m, f_marked_for_removal idle_flow = Some m ->
        sh_flows sh' !! idle_key = if FLOW_GRACE_PERIOD <=? secs 181 - m then None else Some idle_flow)
    /\ (sh_flows sh' !! idle_key = None -> SESSION_TIMEOUT + FLOW_GRACE_PERIOD <= secs 181 - 4).
Proof.
  apply (v2_idle_flow_lifecycle toy_hash toy_cfg small_tuning (build Enforce roblox_file [443]) toy_budget
    true 0 trace_turns idle_end 0 idle_shard_state idle_key idle_flow (secs 181)
    (after (shard_cleanup 0 (secs 181)) idle_end) (Next tt)).
  - apply returned. vm_compute. reflexivity.
  - vm_compute. reflexivity.
  - vm_compute. reflexivity.
  - discriminate.
  - reflexivity.
Defined.

End Witnesses.
