(* ===== verification/V1.v ===== *)
(** * Datapath v1: one task per flow (src/main.rs: the receive loop of [main],
    [run_flow_handler], the response sender and the cleanup task)

    The tables both datapaths keep (sessions, counters, limiter, policy,
    budgets, TUN) are those of [V2], in [v1_base]; its buffer pool, shards and
    TX queues belong to the other datapath and are never touched here.  What
    the receive loop and the tasks do between two accesses of the shared flow
    tables that other tasks can interleave with is one turn: the loop's own
    position is part of the state ([Pc], [Sweep]). *)

From Stdlib Require Import String.
From S2P Require Import Prelude Checksum Net Packet TunRewrite TunSession RustStr Tuning DestPolicy Stats Sessions RateLimit AccountBudget Auth Frames Handler V2State V2Rx V2Shard V2Tun.

(* ------------------------------------------------------------------ *)
(** ** I/O errors *)

(** The [ErrorKind]s the code tells apart. *)
Inductive ErrorKind : Type := WouldBlock | TimedOut | Interrupted | ConnectionReset | OtherKind.

Definition is_transient_recv_error (e : ErrorKind) : bool :=
  match e with
  | WouldBlock | TimedOut | Interrupted | ConnectionReset => true
  | OtherKind => false
  end.

Definition is_transient_send_error (e : ErrorKind) : bool :=
  match e with
  | WouldBlock | TimedOut | Interrupted => true
  | ConnectionReset | OtherKind => false
  end.

(* ------------------------------------------------------------------ *)
(** ** Flow keys *)

(** [format!("{:016x}:{}", u64::from_be_bytes(session_id), game_addr)]. *)
Definition v1_flow_key (session_id : list Z) (game_addr : SocketAddr) : str :=
  show_hex16 (from_be_bytes session_id) ++ [58] ++ show_socket_addr game_addr.

(* ------------------------------------------------------------------ *)
(** ** State *)

(** [generation] is the identity of an [Arc<()>]: a number never used twice.
    The sender [tx] of a flow reaches the task of the same generation. *)
Record FlowEntry : Type := MkFlow {
  fe_generation : nat;
  fe_client_addr : SocketAddr;
  fe_last_activity : Z;
  fe_original_info : OriginalPacketInfo;
  fe_marked_for_removal : option Z;
}.
#[global] Instance eta_FlowEntry : Eta FlowEntry := fun f =>
  MkFlow (fe_generation f) (fe_client_addr f) (fe_last_activity f) (fe_original_info f)
    (fe_marked_for_removal f).

(** A task exists from the creation of its channel to its return. *)
Inductive TaskPhase : Type := Unspawned | Starting | Running.

Record FlowTask : Type := MkTask {
  ft_key : str;
  ft_game_addr : SocketAddr;
  ft_session_id : list Z;
  ft_queue : list (list Z);
  ft_phase : TaskPhase;
  ft_recv_errors : Z;
  ft_send_errors : Z;
}.
#[global] Instance eta_FlowTask : Eta FlowTask := fun t =>
  MkTask (ft_key t) (ft_game_addr t) (ft_session_id t) (ft_queue t) (ft_phase t)
    (ft_recv_errors t) (ft_send_errors t).

(** Where the receive loop is: at [recv_from]; about to take the entry of the
    flow; about to add the new flow to the index and spawn its task. *)
Inductive Pc : Type :=
| AtRecv
| AtEntry (session_id : list Z) (client_addr : SocketAddr) (key : str) (new_flow : bool)
    (game_addr : SocketAddr) (payload : list Z) (info : OriginalPacketInfo)
| AtIndex (session_id : list Z) (key : str) (generation : nat).

(** Where the cleanup task is within a tick that began at [now]. *)
Inductive SweepPhase : Type := SweepIndex | SweepSessions | SweepTun | SweepGauge.

Record V1 : Type := MkV1 {
  v1_base : V2;
  v1_flows : gmap str FlowEntry;
  v1_index : gmap (list Z) (list str);
  v1_tasks : gmap nat FlowTask;
  v1_next : nat;
  v1_responses : list (SocketAddr * list Z * list Z);
  v1_to_game : list (FlowKey * list Z);
  v1_pc : Pc;
  v1_sweep : option (Z * SweepPhase);
}.
#[global] Instance eta_V1 : Eta V1 := fun w =>
  MkV1 (v1_base w) (v1_flows w) (v1_index w) (v1_tasks w) (v1_next w) (v1_responses w)
    (v1_to_game w) (v1_pc w) (v1_sweep w).

Definition v1_new (base : V2) : V1 := MkV1 base ∅ ∅ ∅ 0 [] [] AtRecv None.

Abbreviation H1 := (handler V1).

(** An operation on the shared tables. *)
Definition h_base {A} (m : H A) : H1 A := fun w =>
  match m (v1_base w) with
  | Ret (b, c) => Ret (w <| v1_base := b |>, c)
  | Panic => Panic
  end.

(** [socket.send_to(bytes, addr)]. *)
Definition v1_send (addr : SocketAddr) (bytes : list Z) (sent_ok : bool) : H unit :=
  if sent_ok then hmod (fun v => v <| v_sent ::= fun l => l ++ [(addr, bytes)] |>) else hret tt.

Definition indexed_session_flow_count (index : gmap (list Z) (list str)) (session_id : list Z) : nat :=
  match index !! session_id with
  | Some keys => length keys
  | None => 0
  end.

Definition v1_flow_capacity_available (flows : gmap str FlowEntry) (index : gmap (list Z) (list str))
  (stats : Stats) (session_id : list Z) : Stats * bool :=
  if MAX_FLOWS_TOTAL <=? Z.of_nat (size flows) then (drop_in stats Capacity, false)
  else if MAX_FLOWS_PER_SESSION <=? Z.of_nat (indexed_session_flow_count index session_id)
  then (drop_in stats Capacity, false)
  else (stats, true).

(** [remove_v1_flow]: only the entry of this generation. *)
Definition remove_v1_flow (session_id : list Z) (key : str) (generation : nat) (w : V1) : V1 :=
  match v1_flows w !! key with
  | Some flow =>
      if bool_decide (fe_generation flow = generation) then
        w <| v1_flows ::= delete key |>
          <| v1_index ::= fun index =>
               match index !! session_id with
               | Some keys =>
                   let keys := filter (fun k => k <> key) keys in
                   if (length keys =? 0)%nat then delete session_id index
                   else <[session_id := keys]> index
               | None => index
               end |>
      else w
  | None => w
  end.

(* ------------------------------------------------------------------ *)
(** ** The receive loop *)

Section V1.
Context `{TicketCrypto} (hash_one : IpAddr -> Z) (cfg : Config) (flow_channel_capacity : nat).

Definition v1_drop_in (r : DropReason) : H1 unit := h_base (h_drop_in r).

(** [send_auth_ack]. *)
Definition v1_ack (i : RxInput) (session_id : list Z) (status : Z) (sent_ok : bool) : H1 unit :=
  h_base (v1_send (from i) (session_id ++ [AUTH_ACK_FRAME_TYPE; status]) sent_ok).

Definition v1_ticket (i : RxInput) (session_id : list Z) (is_auth_hello sent_ok : bool)
  : H1 (option VerifiedRelayTicket) :=
  if auth_needed cfg && is_auth_hello then
    let! allowed := h_base (h_pending hash_one i) in
    if negb allowed then v1_drop_in RateLimit ;! hcontinue else
    let! parsed := hlift (parse_auth_hello_token (buf i) (len i)) in
    let! verdict :=
      match parsed with
      | Err e => hret (Err e)
      | Ok token => h_base (h_verify_once cfg i session_id token)
      end in
    match verdict with
    | Ok ticket => hret (Some ticket)
    | Err err => v1_ack i session_id (ack_status err) sent_ok ;! hcontinue
    end
  else hret None.

Definition v1_reauth_hint (i : RxInput) (session_id : list Z) (ticket : option VerifiedRelayTicket)
  (sent_ok : bool) : H1 unit :=
  let! sessions := hget (fun w => v_sessions (v1_base w)) in
  if auth_needed cfg && negb (bool_decide (is_Some ticket))
     && match sessions !! session_id with
        | Some session => negb (bool_decide (client_addr session = from i))
        | None => false
        end
  then
    let! allowed := h_base (h_pending hash_one i) in
    if allowed then v1_ack i session_id AUTH_ACK_REAUTH_REQUIRED sent_ok else hret tt
  else hret tt.

Definition v1_auth_gate (i : RxInput) (session_id : list Z) (ticket : option VerifiedRelayTicket)
  : H1 unit :=
  let! sessions := hget (fun w => v_sessions (v1_base w)) in
  if auth_needed cfg && negb (bool_decide (is_Some ticket))
     && negb match sessions !! session_id with
             | Some session =>
                 session_auth_is_current session (now_unix i)
                 && authenticated_session_source_allowed session true (from i) false
             | None => false
             end
  then v1_drop_in Stats.Auth ;! hcontinue
  else hret tt.

Definition v1_admit (i : RxInput) (session_id : list Z) : H1 unit :=
  let! ok := h_base (h_source_event i RateLimit.Packet) in
  if negb ok then hcontinue else
  let! sessions := hget (fun w => v_sessions (v1_base w)) in
  if negb (bool_decide (is_Some (sessions !! session_id))) then
    let! room := h_base (hrun (fun v =>
      let '(s, room) := v1_session_capacity_available (v_sessions v) (v_counts v) (v_stats v)
                          (sock_ip (from i)) in
      Ret (v <| v_stats := s |>, room))) in
    if negb room then hcontinue else
    let! ok := h_base (h_source_event i NewSession) in
    if negb ok then hcontinue else hret tt
  else hret tt.

(** [sessions.entry(session_id)]. *)
Definition v1_session (i : RxInput) (session_id : list Z) (is_auth_hello : bool) : H1 (bool * bool) :=
  h_base (hrun (fun v =>
    match v_sessions v !! session_id with
    | Some session =>
        let session_authenticated := session_auth_is_current session (now_unix i) in
        let session_source_allowed :=
          authenticated_session_source_allowed session (auth_needed cfg) (from i) is_auth_hello in
        if negb (auth_needed cfg) || (negb is_auth_hello && bool_decide (client_addr session = from i))
        then
          Ret (v <| v_counts ::= fun c => update_source_session_count_for_rebind c
                                            (sock_ip (client_addr session)) (sock_ip (from i)) |>
                 <| v_sessions ::= <[session_id := session <| client_addr := from i |>
                                                           <| last_activity := now i |>
                                                           <| last_activity_unix := now_unix i |>]> |>,
               (session_authenticated, session_source_allowed))
        else Ret (v, (session_authenticated, session_source_allowed))
    | None =>
        Ret (v <| v_sessions ::= <[session_id := MkSession (derive_user_id session_id) Legacy None
                                     (from i) (now_unix i) (now i) (now_unix i)]> |>
               <| v_counts ::= fun c => increment_source_session_count c (sock_ip (from i)) |>
               <| v_stats ::= fun s => s <| active_sessions ::= fetch_add 1 |> |>,
             (false, true))
    end)).

Definition v1_hello (i : RxInput) (session_id : list Z) (ticket : option VerifiedRelayTicket)
  (sent_ok : bool) : H1 unit :=
  if bool_decide (auth_mode (c_auth cfg) = AuthOff) then
    v1_ack i session_id AUTH_ACK_AUTH_DISABLED sent_ok ;! hcontinue
  else
    match ticket with
    | Some t =>
        let! sessions := hget (fun w => v_sessions (v1_base w)) in
        let owner_conflict :=
          match sessions !! session_id with
          | Some existing => bool_decide (auth_state existing = Authenticated)
                             && negb (bool_decide (user_id existing = t_user_id t))
          | None => false
          end in
        if owner_conflict then v1_ack i session_id AUTH_ACK_OWNER_MISMATCH sent_ok ;! hcontinue
        else
          h_base (hmod (fun v =>
            match v_sessions v !! session_id with
            | None => v
            | Some e =>
                v <| v_counts ::= fun c => update_source_session_count_for_rebind c
                                             (sock_ip (client_addr e)) (sock_ip (from i)) |>
                  <| v_sessions ::= <[session_id :=
                       MkSession (t_user_id t) Authenticated
                         (if t_lease t then Some (t_exp t) else None) (from i)
                         (created_at_unix e) (now i) (now_unix i)]> |>
            end)) ;!
          v1_ack i session_id AUTH_ACK_OK sent_ok ;!
          hcontinue
    | None => v1_ack i session_id (ack_status BadFormat) sent_ok ;! hcontinue
    end.

Definition v1_require_auth (authenticated : bool) : H1 unit :=
  if auth_needed cfg && negb authenticated then v1_drop_in Stats.Auth ;! hcontinue else hret tt.

(** The pong goes out at once; a failed send is not counted. *)
Definition v1_ping (i : RxInput) (session_id : list Z) (authenticated sent_ok : bool) : H1 unit :=
  v1_require_auth authenticated ;!
  let! seq := hlift (rd_be (buf i) (SESSION_ID_LEN + 1) 4) in
  let! client_ts := hlift (rd_be (buf i) (SESSION_ID_LEN + 5) 8) in
  h_base (v1_send (from i) (pong_bytes session_id seq client_ts (mono_ms i)) sent_ok) ;!
  (if sent_ok then h_base (count_tun_out session_id PONG_FRAME_LEN) else hret tt) ;!
  hcontinue.

Definition v1_rtt (i : RxInput) (session_id : list Z) (authenticated : bool) : H1 unit :=
  v1_require_auth authenticated ;!
  let! rtt_us := hlift (rd_be (buf i) (SESSION_ID_LEN + 1) 4) in
  h_base (hmod (fun v =>
    v <| v_traffic ::= alter (fun t => t <| last_rtt_us := rtt_us |>) session_id |>)) ;!
  hcontinue.

Definition v1_resolve (i : RxInput) (session_id : list Z) (authenticated : bool) : H1 unit :=
  v1_require_auth authenticated ;!
  let! req := hlift (parse_resolve_request (buf i) (len i)) in
  match req with
  | Some (request_id, hosts) =>
      h_base (hmod (fun v =>
        v <| v_resolve ::= fun q => q ++ [(session_id, request_id, hosts, from i)] |>)) ;!
      hcontinue
  | None => hcontinue
  end.

(** A keepalive refreshes the indexed flows of the session. *)
Definition v1_keepalive (i : RxInput) (session_id : list Z) (authenticated : bool) : H1 unit :=
  v1_require_auth authenticated ;!
  hmod (fun w => w <| v1_flows ::= fun flows =>
    fold_left (fun flows key =>
      alter (fun f => f <| fe_last_activity := now i |> <| fe_client_addr := from i |>) key flows)
      (default [] (v1_index w !! session_id)) flows |>) ;!
  hcontinue.

(** Admission of a UDP packet, up to the entry of its flow. *)
Definition v1_udp (i : RxInput) (session_id : list Z) (game_addr : SocketAddr)
  (payload : list Z) (original_info : OriginalPacketInfo) : H1 unit :=
  h_base (h_name_legacy session_id (src_ip original_info)) ;!
  let flow_key := v1_flow_key session_id game_addr in
  let! flows := hget v1_flows in
  let new_flow := negb (bool_decide (is_Some (flows !! flow_key))) in
  (if new_flow then
     let! room := hrun (fun w =>
       let '(s, room) := v1_flow_capacity_available (v1_flows w) (v1_index w)
                           (v_stats (v1_base w)) session_id in
       Ret (w <| v1_base ::= fun v => v <| v_stats := s |> |>, room)) in
     if negb room then hcontinue else
     let! ok := h_base (h_source_event i NewFlow) in
     if negb ok then hcontinue else hret tt
   else hret tt) ;!
  hmod (fun w => w <| v1_pc := AtEntry session_id (from i) flow_key new_flow game_addr payload
                                 original_info |>).

Definition v1_forward (i : RxInput) (session_id : list Z) (parsed : ParsedPacket) : H1 unit :=
  match parsed with
  | Packet.ForbiddenDst => v1_drop_in Stats.ForbiddenDst ;! hcontinue
  | Packet.Fragment protocol src raw =>
      (if ((protocol =? 17) && c_tun_udp_enabled cfg) || ((protocol =? 6) && c_tcp_enabled cfg)
       then h_base (h_tun cfg i session_id raw (if protocol =? 6 then count_tcp else count_tun_udp))
       else v1_drop_in Stats.Fragment) ;!
      h_base (h_name_legacy session_id src) ;!
      hcontinue
  | Tcp info raw =>
      (if c_tcp_enabled cfg then h_base (h_tun cfg i session_id raw count_tcp)
       else v1_drop_in TcpDisabled) ;!
      h_base (h_name_legacy session_id (src_ip info)) ;!
      hcontinue
  | Udp game_addr payload info raw =>
      if c_tun_udp_enabled cfg then
        h_base (h_tun cfg i session_id raw count_tun_udp) ;!
        h_base (h_name_legacy session_id (src_ip info)) ;!
        hcontinue
      else v1_udp i session_id game_addr payload info
  end.

Definition v1_packet (i : RxInput) (session_id : list Z) (authenticated : bool) : H1 unit :=
  v1_require_auth authenticated ;!
  if (len i <? SESSION_ID_LEN + IP_HEADER_MIN)%nat then v1_drop_in TooSmall ;! hcontinue else
  let! ip_packet := hlift (slice (buf i) SESSION_ID_LEN (len i)) in
  let! parsed := h_base (h_parse ip_packet) in
  match parsed with
  | None => v1_drop_in Parse ;! hcontinue
  | Some Packet.ForbiddenDst => v1_forward i session_id Packet.ForbiddenDst
  | Some p =>
      let! ok := h_base (h_budget session_id false ip_packet (mono_ms i)) in
      if negb ok then v1_drop_in RateLimit ;! hcontinue else v1_forward i session_id p
  end.

Definition v1_frame (i : RxInput) (session_id : list Z) (authenticated sent_ok : bool) : H1 unit :=
  let! b := hlift (rd (buf i) SESSION_ID_LEN) in
  if (len i =? PING_FRAME_LEN)%nat && (b =? PING_FRAME_TYPE) then
    v1_ping i session_id authenticated sent_ok
  else if (len i =? PONG_FRAME_LEN)%nat && (b =? PONG_FRAME_TYPE) then hcontinue
  else if (len i =? RTT_REPORT_FRAME_LEN)%nat && (b =? RTT_REPORT_FRAME_TYPE) then
    v1_rtt i session_id authenticated
  else if (SESSION_ID_LEN <? len i)%nat && (b =? RESOLVE_REQUEST_FRAME_TYPE) then
    v1_resolve i session_id authenticated
  else if (len i =? SESSION_ID_LEN)%nat then v1_keepalive i session_id authenticated
  else v1_packet i session_id authenticated.

(** One datagram, from [recv_from] to the next one or to the flow's entry. *)
Definition v1_rx (i : RxInput) (sent_ok : bool) : H1 unit :=
  let! pc := hget v1_pc in
  match pc with
  | AtRecv =>
      h_base (stat (fun s => s <| packets_in ::= fetch_add 1 |>
                               <| bytes_in ::= fetch_add (Z.of_nat (len i)) |>)) ;!
      if (len i <? SESSION_ID_LEN)%nat then v1_drop_in TooSmall ;! hcontinue else
      let! session_id := hlift (slice (buf i) 0 SESSION_ID_LEN) in
      let! b := hlift (rd (buf i) SESSION_ID_LEN) in
      let is_auth_hello := (SESSION_ID_LEN + 3 <=? len i)%nat && (b =? AUTH_HELLO_FRAME_TYPE) in
      let! ticket := v1_ticket i session_id is_auth_hello sent_ok in
      v1_reauth_hint i session_id ticket sent_ok ;!
      v1_auth_gate i session_id ticket ;!
      v1_admit i session_id ;!
      let! (authenticated, source_allowed) := v1_session i session_id is_auth_hello in
      h_base (rx_ingress i session_id) ;!
      if is_auth_hello then v1_hello i session_id ticket sent_ok
      else if negb source_allowed then v1_drop_in Stats.Auth ;! hcontinue
      else v1_frame i session_id authenticated sent_ok
  | _ => hcontinue
  end.

(** The entry of the flow: an existing flow takes the packet if its channel
    has room; a new one is inserted with the packet in its channel.  The
    cleanup may have removed the flow since it was looked up. *)
Definition v1_entry (t : Z) : H1 unit :=
  let! pc := hget v1_pc in
  match pc with
  | AtEntry session_id client_addr key new_flow game_addr payload info =>
      hmod (fun w => w <| v1_pc := AtRecv |>) ;!
      let! w := hget id in
      match v1_flows w !! key with
      | Some flow =>
          let flow := flow <| fe_last_activity := t |> <| fe_client_addr := client_addr |>
                           <| fe_original_info := info |> <| fe_marked_for_removal := None |> in
          hmod (fun w => w <| v1_flows ::= <[key := flow]> |>) ;!
          match v1_tasks w !! fe_generation flow with
          | None => hmod (remove_v1_flow session_id key (fe_generation flow))
          | Some task =>
              match try_send flow_channel_capacity (ft_queue task) payload with
              | Some q =>
                  hmod (fun w => w <| v1_tasks ::= <[fe_generation flow := task <| ft_queue := q |>]> |>)
              | None => v1_drop_in FlowQueue
              end
          end
      | None =>
          if negb new_flow then v1_drop_in FlowCreate ;! hcontinue
          else if (flow_channel_capacity =? 0)%nat then hlift Panic
          else
            let queued := try_send flow_channel_capacity [] payload in
            (if bool_decide (is_Some queued) then hret tt else v1_drop_in FlowQueue) ;!
            hmod (fun w =>
              let generation := v1_next w in
              w <| v1_next := S generation |>
                <| v1_flows ::= <[key := MkFlow generation client_addr t info None]> |>
                <| v1_tasks ::= <[generation := MkTask key game_addr session_id (default [] queued)
                                                  Unspawned 0 0]> |>
                <| v1_pc := AtIndex session_id key generation |>)
      end
  | _ => hcontinue
  end.

(** The key joins the index and the task is spawned. *)
Definition v1_publish : H1 unit :=
  let! pc := hget v1_pc in
  match pc with
  | AtIndex session_id key generation =>
      hmod (fun w =>
        w <| v1_index ::= fun index => <[session_id := default [] (index !! session_id) ++ [key]]> index |>
          <| v1_tasks ::= alter (fun t => t <| ft_phase := Starting |>) generation |>
          <| v1_pc := AtRecv |>)
  | _ => hcontinue
  end.

(* ------------------------------------------------------------------ *)
(** ** The flow tasks *)

(** The return of [run_flow_handler]: the flow goes before the channel. *)
Definition task_exit (g : nat) (task : FlowTask) : H1 unit :=
  hmod (fun w => (remove_v1_flow (ft_session_id task) (ft_key task) g w) <| v1_tasks ::= delete g |>).

Definition set_task (g : nat) (task : FlowTask) : H1 unit :=
  hmod (fun w => w <| v1_tasks ::= <[g := task]> |>).

(** Whether the flow table still holds this lifetime of the flow. *)
Definition flow_of (w : V1) (key : str) (g : nat) : option FlowEntry :=
  match v1_flows w !! key with
  | Some flow => if bool_decide (fe_generation flow = g) then Some flow else None
  | None => None
  end.

(** Up to the loop: the destination is checked again, then the socket. *)
Definition task_start (g : nat) (bind_ok connect_ok : bool) : H1 unit :=
  let! w := hget id in
  match v1_tasks w !! g with
  | Some task =>
      match ft_phase task with
      | Starting =>
          let forbidden :=
            match sock_ip (ft_game_addr task) with
            | V4 dst => is_forbidden_dst dst || is_forbidden_dst_port (sock_port (ft_game_addr task))
            | V6 _ => false
            end in
          if forbidden then v1_drop_in Stats.ForbiddenDst ;! task_exit g task
          else if negb bind_ok then task_exit g task
          else if negb connect_ok then task_exit g task
          else set_task g (task <| ft_phase := Running |>)
      | _ => hcontinue
      end
  | None => hcontinue
  end.

(** [rx.recv()]: a queued packet goes to the game server; once the sender is
    gone and the queue is empty the loop ends. *)
Definition task_send (g : nat) (sent : result unit ErrorKind) : H1 unit :=
  let! w := hget id in
  match v1_tasks w !! g with
  | Some task =>
      match ft_phase task, ft_queue task with
      | Running, data :: rest =>
          let task := task <| ft_queue := rest |> in
          match sent with
          | Ok _ =>
              set_task g (task <| ft_send_errors := 0 |>) ;!
              hmod (fun w => w <| v1_to_game ::= fun l => l ++ [(MkKey (ft_session_id task) (ft_game_addr task), data)] |>)
          | Err e =>
              if is_transient_send_error e then set_task g task
              else
                let errors := ft_send_errors task + 1 in
                if 5 <=? errors then task_exit g task
                else set_task g (task <| ft_send_errors := errors |>)
          end
      | Running, [] =>
          match flow_of w (ft_key task) g with
          | Some _ => hcontinue
          | None => task_exit g task
          end
      | _, _ => hcontinue
      end
  | None => hcontinue
  end.

(** A datagram of the game server. *)
Definition task_response (g : nat) (task : FlowTask) (payload : list Z) (t now_unix : Z) : H1 unit :=
  let task := task <| ft_recv_errors := 0 |> in
  let sid := ft_session_id task in
  set_task g task ;!
  let! w := hget id in
  if negb (lease_current (v1_base w) sid now_unix) then task_exit g task else
  match v1_flows w !! ft_key task with
  | Some entry =>
      if bool_decide (fe_generation entry = g) then
        let! response_ip_packet := hlift (build_response_ip_packet payload (fe_original_info entry)) in
        let response := sid ++ response_ip_packet in
        hmod (fun w => w <| v1_responses ::= fun q => q ++ [(fe_client_addr entry, sid, response)] |>) ;!
        hmod (fun w => w <| v1_flows ::= alter (fun f =>
          if bool_decide (fe_generation f = g)
          then f <| fe_last_activity := t |> <| fe_marked_for_removal := None |> else f) (ft_key task) |>) ;!
        h_base (hmod (fun v => v <| v_sessions ::= alter (fun e =>
          e <| last_activity := t |> <| last_activity_unix := now_unix |>) sid |>))
      else task_exit g task
  | None =>
      if bool_decide (is_Some (v_sessions (v1_base w) !! sid)) then hcontinue else task_exit g task
  end.

(** [socket.recv(&mut recv_buf)]. *)
Definition task_recv (g : nat) (received : result (list Z) ErrorKind) (t now_unix : Z) : H1 unit :=
  let! w := hget id in
  match v1_tasks w !! g with
  | Some task =>
      match ft_phase task with
      | Running =>
          match received with
          | Ok payload => task_response g task payload t now_unix
          | Err e =>
              if is_transient_recv_error e then hcontinue
              else
                let errors := ft_recv_errors task + 1 in
                if 5 <=? errors then task_exit g task
                else set_task g (task <| ft_recv_errors := errors |>)
          end
      | _ => hcontinue
      end
  | None => hcontinue
  end.

(** Thirty seconds without anything to do. *)
Definition task_idle (g : nat) : H1 unit :=
  let! w := hget id in
  match v1_tasks w !! g with
  | Some task =>
      match ft_phase task with
      | Running =>
          match flow_of w (ft_key task) g with
          | Some _ => hret tt
          | None => task_exit g task
          end
      | _ => hcontinue
      end
  | None => hcontinue
  end.

(* ------------------------------------------------------------------ *)
(** ** The response sender *)

(** The address the flow task recorded is not used: the session decides. *)
Definition v1_response (sent_ok : bool) (now_unix mono : Z) : H1 unit :=
  let! queue := hget v1_responses in
  match queue with
  | [] => hcontinue
  | (_, session_id, data) :: rest =>
      hmod (fun w => w <| v1_responses := rest |>) ;!
      let! sessions := hget (fun w => v_sessions (v1_base w)) in
      match forwarding_addr sessions session_id (auth_needed cfg) now_unix with
      | None => hcontinue
      | Some addr =>
          let! ip_packet := hlift (slice data SESSION_ID_LEN (length data)) in
          let! ok := h_base (h_budget session_id true ip_packet mono) in
          if negb ok then h_base (h_drop_out RateLimit) ;! hcontinue else
          h_base (v1_send addr data sent_ok) ;!
          (if sent_ok then h_base (count_out session_id (length data) now_unix) else hret tt)
      end
  end.

(* ------------------------------------------------------------------ *)
(** ** The cleanup task *)

(** One flow in the [retain] of the flow table. *)
Definition v1_cleanup_flow (now : Z) (flow : FlowEntry) : option FlowEntry :=
  let idle_time := duration_since now (fe_last_activity flow) in
  match fe_marked_for_removal flow with
  | Some marked_at =>
      if FLOW_GRACE_PERIOD <=? duration_since now marked_at then None
      else if idle_time <? secs 10 then Some (flow <| fe_marked_for_removal := None |>)
      else Some flow
  | None =>
      if SESSION_TIMEOUT <=? idle_time then Some (flow <| fe_marked_for_removal := Some now |>)
      else Some flow
  end.

(** One session in the [retain] of the index. *)
Definition v1_cleanup_keys (w : V1) (session_id : list Z) (keys : list str) : option (list str) :=
  let keys := filter (fun key => is_Some (v1_flows w !! key)) keys in
  if negb (length keys =? 0)%nat && bool_decide (is_Some (v_sessions (v1_base w) !! session_id))
  then Some keys else None.

(** One session in the [retain] of the session table, in two halves as in the
    other datapath; no message is sent. *)
Definition v1_cleanup_begin (now : Z) (sid : list Z) : H unit :=
  close_begin (fun session =>
    SESSION_TIMEOUT + FLOW_GRACE_PERIOD <=? duration_since now (last_activity session)) sid.
Definition v1_cleanup_finish : H unit :=
  let! _ := close_finish in hret tt.

(** Both with nothing in between. *)
Definition v1_cleanup_session (now : Z) (sid : list Z) : H unit :=
  v1_cleanup_begin now sid ;! v1_cleanup_finish.

Fixpoint v1_cleanup_sessions (now : Z) (sids : list (list Z)) : H unit :=
  match sids with
  | [] => hret tt
  | sid :: rest => v1_cleanup_session now sid ;! v1_cleanup_sessions now rest
  end.

(** A tick: the flow table, the index, the session table, the TUN maps, the
    gauge; each is one turn, so that packets can arrive in between.  The
    passes over the session table and the TUN maps can also be taken one
    entry at a time ([CloseTurn], [CloseFinishTurn], [TunExpireTurn]). *)
Definition v1_sweep_turn (t : Z) : H1 unit :=
  let! phase := hget v1_sweep in
  match phase with
  | None =>
      hmod (fun w => w <| v1_flows ::= omap (v1_cleanup_flow t) |> <| v1_sweep := Some (t, SweepIndex) |>)
  | Some (now, SweepIndex) =>
      hmod (fun w => w <| v1_index ::= map_imap (v1_cleanup_keys w) |>
                       <| v1_sweep := Some (now, SweepSessions) |>)
  | Some (now, SweepSessions) =>
      hmod (fun w => w <| v1_sweep := Some (now, SweepTun) |>) ;!
      let! sessions := hget (fun w => v_sessions (v1_base w)) in
      h_base (v1_cleanup_finish ;! v1_cleanup_sessions now (map_to_list sessions).*1)
  | Some (now, SweepTun) =>
      hmod (fun w => w <| v1_sweep := Some (now, SweepGauge) |>) ;!
      h_base cleanup_tun
  | Some (_, SweepGauge) =>
      hmod (fun w =>
        w <| v1_base ::= fun v => v <| v_stats ::= fun s =>
               s <| active_flows := Z.of_nat (size (v1_flows w)) |> |> |>
          <| v1_sweep := None |>)
  end.

(* ------------------------------------------------------------------ *)
(** ** Runs *)

Inductive v1_turn : Type :=
| RecvTurn (i : RxInput) (sent_ok : bool)
| EntryTurn (t : Z)
| PublishTurn
| TaskStartTurn (g : nat) (bind_ok connect_ok : bool)
| TaskSendTurn (g : nat) (sent : result unit ErrorKind)
| TaskRecvTurn (g : nat) (received : result (list Z) ErrorKind) (t now_unix : Z)
| TaskIdleTurn (g : nat)
| ResponseTurn (sent_ok : bool) (now_unix mono : Z)
| SweepTurn (t : Z)
| CloseTurn (t : Z) (session_id : list Z)
| CloseFinishTurn
| TunExpireTurn (session_id : list Z)
| TunAssignTurn
| TunCommitTurn
| TunReadTurn (packet : list Z)
| TunRespTurn (sent_ok : bool) (now_unix mono : Z)
| ResolveTurn (n : nat) (lookup_host : str -> option (list IpAddr)) (sent_ok : bool)
| MaintainTurn (mono : Z).

Definition v1_handler (a : v1_turn) : H1 unit :=
  match a with
  | RecvTurn i sent_ok => v1_rx i sent_ok
  | EntryTurn t => v1_entry t
  | PublishTurn => v1_publish
  | TaskStartTurn g bind_ok connect_ok => task_start g bind_ok connect_ok
  | TaskSendTurn g sent => task_send g sent
  | TaskRecvTurn g received t tu => task_recv g received t tu
  | TaskIdleTurn g => task_idle g
  | ResponseTurn sent_ok tu mono => v1_response sent_ok tu mono
  | SweepTurn t => v1_sweep_turn t
  | CloseTurn t sid => h_base (v1_cleanup_begin t sid)
  | CloseFinishTurn => h_base v1_cleanup_finish
  | TunExpireTurn sid => h_base (expire_tun sid)
  | TunAssignTurn => h_base tun_assign_turn
  | TunCommitTurn => h_base tun_commit_turn
  | TunReadTurn packet => h_base (tun_read_turn packet)
  | TunRespTurn sent_ok tu mono => h_base (tun_resp_turn (auth_needed cfg) sent_ok tu mono)
  | ResolveTurn n lookup_host sent_ok => h_base (resolve_turn n lookup_host sent_ok)
  | MaintainTurn mono => h_base (maintain_turn mono)
  end.

Definition v1_step (w : V1) (a : v1_turn) : outcome V1 :=
  let* (w', _) := v1_handler a w in Ret w'.

Fixpoint v1_run (w : V1) (l : list v1_turn) : outcome V1 :=
  match l with
  | [] => Ret w
  | a :: l => let* w := v1_step w a in v1_run w l
  end.

(** The receive loops of the two datapaths write the gate and the session
    entry out separately; they have the same effect on the shared tables. *)
Lemma v1_auth_gate_base i sid ticket w : v1_auth_gate i sid ticket w = h_base (rx_auth_gate cfg i sid ticket) w.
Proof.
  unfold v1_auth_gate, rx_auth_gate, v1_drop_in, hbind, hget, h_base. cbn.
  destruct (_ && _); [done|]. by destruct w.
Qed.
Lemma v1_session_base i sid b : v1_session i sid b = h_base (rx_session cfg i sid b).
Proof. reflexivity. Qed.

End V1.
