(* ===== verification/V1Keys.v ===== *)
(** * Datapath v1: flow keys

    The flow table of the receive loop is keyed by text.  Two flows share a
    key only if they are the same session and the same destination. *)

From Stdlib Require Import String.
From S2P Require Import Prelude Checksum Net RustStr Sessions Auth Frames V1.

(** Decimal digits end at the first separator. *)
Lemma digits_value_digits acc s v :
  digits_value acc s = Some v -> Forall (fun c => 48 <= c <= 57) s.
Proof.
  revert acc. induction s as [|c s IH]; intros acc; cbn; [constructor|].
  destruct (digit c) eqn:E; [|discriminate]. intros Hs. constructor; [|by eapply IH].
  unfold digit in E. destruct (_ && _) eqn:Eb; [|discriminate].
  apply andb_true_iff in Eb as [H1%Z.leb_le H2%Z.leb_le]. lia.
Qed.

Lemma show_dec_digits n : 0 <= n < 10 ^ 20 -> Forall (fun c => 48 <= c <= 57) (show_dec n).
Proof. intros Hn. eapply digits_value_digits, digits_value_show, Hn. Qed.

Lemma show_dec_inj n m : 0 <= n < 10 ^ 20 -> 0 <= m < 10 ^ 20 -> show_dec n = show_dec m -> n = m.
Proof.
  intros Hn Hm E. pose proof (digits_value_show n Hn) as E1. rewrite E, digits_value_show in E1 by done.
  congruence.
Qed.

(** Texts without the separator before it. *)
Lemma split_at_sep (P : Z -> Prop) sep a b x y :
  ~ P sep -> Forall P a -> Forall P b -> a ++ sep :: x = b ++ sep :: y -> a = b /\ x = y.
Proof.
  intros Hs Ha. revert b. induction Ha as [|c a Hc Ha IH]; intros b Hb E.
  - destruct Hb as [|d b Hd Hb]; cbn in E; [by injection E as -> | injection E as -> _; contradiction].
  - destruct Hb as [|d b Hd Hb]; cbn in E; injection E as -> E; [contradiction|].
    destruct (IH b Hb E) as [-> ->]. done.
Qed.

Lemma show_dec_sep n m sep x y :
  0 <= n < 10 ^ 20 -> 0 <= m < 10 ^ 20 -> ~ 48 <= sep <= 57 ->
  show_dec n ++ sep :: x = show_dec m ++ sep :: y -> n = m /\ x = y.
Proof.
  intros Hn Hm Hs E.
  destruct (split_at_sep _ _ _ _ _ _ Hs (show_dec_digits n Hn) (show_dec_digits m Hm) E) as [E1 E2].
  split; [by apply show_dec_inj | exact E2].
Qed.

Lemma octets_inj a b : is_u32 a -> is_u32 b -> octets a = octets b -> a = b.
Proof.
  unfold octets, in_width. intros Ha Hb E. apply (f_equal from_be_bytes) in E.
  rewrite !from_to_be_bytes in E. change (256 ^ Z.of_nat 4) with (2 ^ 32) in E.
  by rewrite !Z.mod_small in E.
Qed.

Lemma show_ipv4_sep a b x y :
  is_u32 a -> is_u32 b -> show_ipv4 a ++ 58 :: x = show_ipv4 b ++ 58 :: y -> a = b /\ x = y.
Proof.
  intros Ha Hb. unfold show_ipv4.
  pose proof (to_be_bytes_ok 4 a) as Oa. pose proof (to_be_bytes_ok 4 b) as Ob.
  pose proof (octets_inj a b Ha Hb) as Hinj. fold (octets a) in Oa. fold (octets b) in Ob.
  pose proof (to_be_bytes_length 4 a : length (octets a) = 4%nat) as La.
  pose proof (to_be_bytes_length 4 b : length (octets b) = 4%nat) as Lb.
  destruct (octets a) as [|a0 [|a1 [|a2 [|a3 [|]]]]]; try discriminate.
  destruct (octets b) as [|b0 [|b1 [|b2 [|b3 [|]]]]]; try discriminate.
  unfold bytes_ok, in_width in Oa, Ob. rewrite !Forall_cons_iff in Oa, Ob.
  destruct Oa as (A0 & A1 & A2 & A3 & _), Ob as (B0 & B1 & B2 & B3 & _).
  rewrite <- !app_assoc. cbn [app]. intros E.
  apply show_dec_sep in E as [-> E]; [|lia..]. apply show_dec_sep in E as [-> E]; [|lia..].
  apply show_dec_sep in E as [-> E]; [|lia..]. apply show_dec_sep in E as [-> E]; [|lia..].
  split; [by apply Hinj | exact E].
Qed.

Lemma hex_digits_length n x : length (hex_digits n x) = n.
Proof. revert x. induction n as [|n IH]; intros x; cbn; [done | by rewrite IH]. Qed.

Lemma from_be_bytes_inj a b :
  bytes_ok a -> bytes_ok b -> length a = length b -> from_be_bytes a = from_be_bytes b -> a = b.
Proof. intros Ha Hb Hl E. by rewrite <- (to_from_be_bytes a Ha), Hl, E, to_from_be_bytes. Qed.

Lemma session_hex_inj a b :
  bytes_ok a -> bytes_ok b -> length a = SESSION_ID_LEN -> length b = SESSION_ID_LEN ->
  show_hex16 (from_be_bytes a) = show_hex16 (from_be_bytes b) -> a = b.
Proof.
  intros Ha Hb La Lb E. apply from_be_bytes_inj; [done..|congruence|].
  pose proof (from_be_bytes_bound a Ha) as Ba. pose proof (from_be_bytes_bound b Hb) as Bb.
  rewrite La in Ba. rewrite Lb in Bb. by apply show_hex16_inj.
Qed.

(** Sessions never share a flow.  The text key of a flow (which the flow
    table and the index are keyed by) determines the session id and the IPv4
    destination: no two sessions, and no two destinations of one session, get
    the same entry. *)
Theorem v1_flow_key_injective (s1 s2 : list Z) (ip1 ip2 port1 port2 : Z) :
  bytes_ok s1 -> bytes_ok s2 -> length s1 = SESSION_ID_LEN -> length s2 = SESSION_ID_LEN ->
  is_u32 ip1 -> is_u32 ip2 -> is_u16 port1 -> is_u16 port2 ->
  v1_flow_key s1 (SockV4 ip1 port1) = v1_flow_key s2 (SockV4 ip2 port2) ->
  s1 = s2 /\ ip1 = ip2 /\ port1 = port2.
Proof.
  intros B1 B2 L1 L2 I1 I2 P1 P2 E. unfold v1_flow_key, show_socket_addr in E.
  apply app_inj_1 in E as [Eh E]; [|unfold show_hex16; by rewrite !hex_digits_length].
  injection E as E. apply show_ipv4_sep in E as [-> E]; [|done..].
  split; [by apply session_hex_inj|]. split; [done|]. unfold in_width in *.
  apply show_dec_inj; [lia..|exact E].
Qed.

Lemma v1_flow_key_injective_witness :
  v1_flow_key toy_sid (SockV4 (ipv4_new 128 116 1 1) 5000) = lit "0102030405060708:128.116.1.1:5000"
  /\ (toy_sid = toy_sid /\ ipv4_new 128 116 1 1 = ipv4_new 128 116 1 1 /\ 5000 = 5000).
Proof.
  split; [vm_compute; reflexivity|].
  apply v1_flow_key_injective; try reflexivity; try (vm_compute; split; [discriminate | reflexivity]);
    repeat apply List.Forall_cons; try apply List.Forall_nil; vm_compute; split; discriminate || reflexivity.
Defined.
