(* ===== verification/V1Safe.v ===== *)
(** * Datapath v1: every turn is safe

    The invariant of the flow table, its index and the tasks, and that every
    turn keeps it, with the invariant of the shared tables (V2Inv.v), in any
    interleaving. *)

From S2P Require Import Prelude Checksum Net Packet TunRewrite TunSession RustStr Tuning DestPolicy Stats Sessions RateLimit AccountBudget Auth Frames Handler V2State V2Rx V2Shard V2Tun V2Inv V2Safe V1.

(** The test [run_flow_handler] makes before it opens a socket. *)
Definition refused_dst (a : SocketAddr) : bool :=
  match sock_ip a with
  | V4 dst => is_forbidden_dst dst || is_forbidden_dst_port (sock_port a)
  | V6 _ => false
  end.

Definition running (t : FlowTask) : bool :=
  match ft_phase t with Running => true | _ => false end.

(** A task carries the key of its session and destination, its channel is
    within the capacity, its error counters below the limit, and it runs only
    towards a destination that was not refused. *)
Record task_ok (cap : nat) (t : FlowTask) : Prop := {
  to_key : ft_key t = v1_flow_key (ft_session_id t) (ft_game_addr t);
  to_sid : length (ft_session_id t) = SESSION_ID_LEN;
  to_queue : (length (ft_queue t) <= cap)%nat;
  to_errors : 0 <= ft_recv_errors t < 5 /\ 0 <= ft_send_errors t < 5;
  to_dst : running t = true -> refused_dst (ft_game_addr t) = false;
}.

Definition pc_ok (w : V1) : Prop :=
  match v1_pc w with
  | AtRecv => True
  | AtEntry sid _ key new_flow game _ _ =>
      key = v1_flow_key sid game /\ length sid = SESSION_ID_LEN
      /\ (new_flow = true -> Z.of_nat (size (v1_flows w)) < MAX_FLOWS_TOTAL)
  | AtIndex sid key g =>
      exists t, v1_tasks w !! g = Some t /\ ft_key t = key /\ ft_session_id t = sid
      /\ ft_phase t = Unspawned
  end.

Record flows_ok (cap : nat) (w : V1) : Prop := {
  fo_flow : forall key f, v1_flows w !! key = Some f ->
    exists t, v1_tasks w !! fe_generation f = Some t /\ ft_key t = key;
  fo_tasks : forall g t, v1_tasks w !! g = Some t -> (g < v1_next w)%nat /\ task_ok cap t;
  fo_index : forall sid keys, v1_index w !! sid = Some keys ->
    Forall (fun key => exists game, key = v1_flow_key sid game) keys;
  fo_total : Z.of_nat (size (v1_flows w)) <= MAX_FLOWS_TOTAL;
  fo_responses : Forall (fun '(_, sid, data) =>
    length sid = SESSION_ID_LEN /\ exists p, data = sid ++ p) (v1_responses w);
  fo_sent : Forall (fun '(key, _) => refused_dst (k_game_addr key) = false) (v1_to_game w);
  fo_pc : pc_ok w;
}.

Definition inv1 {mode : Counting} (cap : nat) (w : V1) : Prop := inv [] (v1_base w) /\ flows_ok cap w.

#[local] Arguments v1_flow_key : simpl never.

Section Safe.
Context {mode : Counting} `{TicketCrypto} (hash_one : IpAddr -> Z) (cfg : Config) (cap : nat).

Abbreviation ok1 := (inv1 cap).

(* ------------------------------------------------------------------ *)
(** ** Operations on the shared tables *)

(** A fact about the flow tables survives any operation on the others. *)
Lemma hoare_h_base {A} (F : V1 -> Prop) (P : V2 -> Prop) (m : H A) (R : A -> V2 -> Prop) (Q : V2 -> Prop) :
  (forall w b, F w -> F (w <| v1_base := b |>)) ->
  hoare P m R Q ->
  hoare (fun w => P (v1_base w) /\ F w) (h_base m) (fun a w => R a (v1_base w) /\ F w)
    (fun w => Q (v1_base w) /\ F w).
Proof.
  intros HF Hm w [Hp Hf]. specialize (Hm _ Hp). unfold wp, h_base in *.
  destruct (m (v1_base w)) as [[b [a|]]|]; [| |contradiction]; (split; [exact Hm | by apply HF]).
Qed.

Lemma flows_ok_base w b : flows_ok cap w -> flows_ok cap (w <| v1_base := b |>).
Proof. intros [H1 H2 H3 H4 H5 H6 H7]. by constructor. Qed.

Lemma keeps_h_base {A} (m : H A) : keeps (inv []) m -> keeps ok1 (h_base m).
Proof. intros Hm. exact (hoare_h_base _ _ _ _ _ flows_ok_base Hm). Qed.

(** The receive loop stays at [recv_from] until it reaches a flow. *)
Definition at_recv (w : V1) : Prop := flows_ok cap w /\ v1_pc w = AtRecv.
Abbreviation rx_ok := (fun w => inv [] (v1_base w) /\ at_recv w).

Lemma at_recv_base w b : at_recv w -> at_recv (w <| v1_base := b |>).
Proof. intros [Hf Hp]. split; [by apply flows_ok_base | exact Hp]. Qed.

Lemma keeps_rx_base {A} (m : H A) : keeps (inv []) m -> keeps rx_ok (h_base m).
Proof.
  intros Hm. exact (hoare_h_base _ _ _ _ _ at_recv_base Hm).
Qed.

Lemma v1_send_safe addr bytes b : keeps (inv []) (v1_send addr bytes b).
Proof. unfold v1_send. ksteps. apply hoare_other. intros v. by repeat split. Qed.

Lemma keeps_v1_drop_in r : keeps rx_ok (v1_drop_in r).
Proof. apply keeps_rx_base, keeps_drop_in. Qed.
Lemma keeps_v1_ack i sid status b : keeps rx_ok (v1_ack i sid status b).
Proof. apply keeps_rx_base, v1_send_safe. Qed.
Lemma keeps_v1_pending i : keeps rx_ok (h_base (h_pending hash_one i)).
Proof. apply keeps_rx_base, keeps_pending. Qed.
Lemma keeps_v1_verify i sid token : keeps rx_ok (h_base (h_verify_once cfg i sid token)).
Proof. apply keeps_rx_base, keeps_verify_once. Qed.
Lemma keeps_v1_event i k : keeps rx_ok (h_base (h_source_event i k)).
Proof. apply keeps_rx_base, keeps_source_event. Qed.
Lemma keeps_v1_name sid ip : keeps rx_ok (h_base (h_name_legacy sid ip)).
Proof. apply keeps_rx_base, keeps_name_legacy. Qed.
Hint Resolve keeps_v1_drop_in keeps_v1_ack keeps_v1_pending keeps_v1_verify keeps_v1_event
  keeps_v1_name : handler.

(* ------------------------------------------------------------------ *)
(** ** Flow tables that only lose entries or refresh them *)

Definition refreshed (m m' : gmap str FlowEntry) : Prop :=
  forall key f', m' !! key = Some f' ->
  exists f, m !! key = Some f /\ fe_generation f = fe_generation f'.

Lemma refreshed_refl m : refreshed m m.
Proof. intros key f E. eauto. Qed.
Lemma refreshed_trans m1 m2 m3 : refreshed m1 m2 -> refreshed m2 m3 -> refreshed m1 m3.
Proof.
  intros H1 H2 key f E. destruct (H2 _ _ E) as (f2 & E2 & <-). destruct (H1 _ _ E2) as (f1 & E1 & <-). eauto.
Qed.
Lemma refreshed_alter m key f :
  (forall x, fe_generation (f x) = fe_generation x) -> refreshed m (alter f key m).
Proof.
  intros Hf k x. destruct (decide (k = key)) as [->|Hk].
  - rewrite lookup_alter_eq. destruct (m !! key) as [y|]; cbn; intros [= <-]. eauto.
  - rewrite lookup_alter_ne by done. eauto.
Qed.
Lemma refreshed_delete m key : refreshed m (delete key m).
Proof. intros k x [_ E]%lookup_delete_Some. eauto. Qed.
Lemma refreshed_omap m f :
  (forall x y, f x = Some y -> fe_generation y = fe_generation x) -> refreshed m (omap f m).
Proof.
  intros Hf k y. rewrite lookup_omap. destruct (m !! k) as [x|]; cbn; [|discriminate].
  intros E. exists x. split; [done|]. symmetry. by apply Hf.
Qed.
Lemma refreshed_size m m' : refreshed m m' -> (size m' <= size m)%nat.
Proof.
  intros Hr. rewrite <- !size_dom. apply subseteq_size. intros key.
  rewrite !elem_of_dom. intros [f E]. destruct (Hr _ _ E) as (f' & E' & _). by exists f'.
Qed.

Lemma flows_ok_refreshed w m :
  refreshed (v1_flows w) m -> flows_ok cap w -> flows_ok cap (w <| v1_flows := m |>).
Proof.
  intros Hr [H1 H2 H3 H4 H5 H6 H7]. pose proof (refreshed_size _ _ Hr) as Hs.
  constructor; cbn -[size]; try assumption.
  - intros key f E. destruct (Hr _ _ E) as (f' & E' & <-). eauto.
  - lia.
  - unfold pc_ok in *. cbn -[size]. destruct (v1_pc w); [exact I | | exact H7].
    destruct H7 as (? & ? & Hsz). repeat split; [done..|]. intros Hn. specialize (Hsz Hn). lia.
Qed.

(* ------------------------------------------------------------------ *)
(** ** The receive loop *)

Section Rx.
Context (i : RxInput).
Hypothesis Hmode : mode <> Exact.
Hypothesis Hbuf : length (buf i) = MAX_PACKET_SIZE.
Hypothesis Hlen : (len i <= MAX_PACKET_SIZE)%nat.
Hypothesis Hbytes : bytes_ok (buf i).

Lemma keeps_v1_ticket sid b so : keeps rx_ok (v1_ticket hash_one cfg i sid b so).
Proof. unfold v1_ticket. ksteps. apply keeps_lift. by apply parse_hello_returns. Qed.

Lemma keeps_v1_hint sid t so : keeps rx_ok (v1_reauth_hint hash_one cfg i sid t so).
Proof. unfold v1_reauth_hint. ksteps. Qed.

Lemma v1_capacity_spec v sid :
  inv [] v ->
  match v1_session_capacity_available (v_sessions v) (v_counts v) (v_stats v) (sock_ip (from i)) with
  | (s, room') => inv [] (v <| v_stats := s |>)
                  /\ (room' = true -> V2Safe.room sid (v <| v_stats := s |>))
  end.
Proof.
  intros Hv. unfold v1_session_capacity_available.
  assert (inv [] (v <| v_stats := drop_in (v_stats v) Capacity |>)) as Hd.
  { eapply inv_frame; [exact Hv | reflexivity.. | apply (i_pending _ _ Hv) | reflexivity |].
    apply drop_in_ok, (i_drops _ _ Hv). }
  destruct (Z.leb_spec MAX_SESSIONS_TOTAL (Z.of_nat (size (v_sessions v)))); [by split|].
  destruct (_ <=? _); [by split|]. split; [|by intros _ _].
  eapply inv_frame; [exact Hv | reflexivity.. | apply (i_pending _ _ Hv) | reflexivity
                     | apply (i_drops _ _ Hv)].
Qed.

(** A session about to be opened has room. *)
Lemma v1_admit_room sid :
  hoare rx_ok (v1_admit i sid) (fun _ w => (inv [] (v1_base w) /\ V2Safe.room sid (v1_base w)) /\ at_recv w)
    rx_ok.
Proof.
  unfold v1_admit. eapply hoare_bind; [apply keeps_v1_event|]. intros b.
  destruct b; cbn [negb]; [|apply hoare_continue].
  eapply hoare_bind; [apply hoare_get|]. intros sessions.
  case_bool_decide as Hs; cbn [negb].
  { intros w [[Hv Ha] ->]. split; [|exact Ha]. split; [exact Hv|]. intros E.
    rewrite E in Hs. by destruct Hs. }
  apply (hoare_pre _ rx_ok); [|tauto].
  eapply hoare_bind.
  { apply (hoare_h_base at_recv (inv []) _
             (fun r v => inv [] v /\ (r = true -> V2Safe.room sid v)) (inv [])); [exact at_recv_base|].
    apply hoare_run. intros v Hv. pose proof (v1_capacity_spec v sid Hv) as Hc.
    destruct (v1_session_capacity_available _ _ _ _) as [s r]. exact Hc. }
  intros r. destruct r; cbn [negb].
  2: { apply (hoare_pre _ rx_ok); [apply hoare_continue|]. tauto. }
  eapply hoare_bind.
  - eapply hoare_pre;
      [apply (hoare_h_base at_recv _ _ _ _ at_recv_base
               (hoare_source_event [] (from i) NewSession (now i) (V2Safe.room sid) (inv [])
                  ltac:(intros v l s Hr; exact Hr)))|].
    intros w [[Hv Hr] Ha]. exact (conj (conj Hv (Hr eq_refl)) Ha).
  - intros [|]; cbn [negb]; [intros w Hw; exact Hw|].
    apply (hoare_pre _ rx_ok); [apply hoare_continue | cbn; tauto].
Qed.

Lemma keeps_v1_hello sid t so : keeps rx_ok (v1_hello cfg i sid t so).
Proof.
  unfold v1_hello. ksteps. apply keeps_rx_base, keeps_mod. intros b Hb.
  destruct (v_sessions b !! sid) as [e|] eqn:E; [|exact Hb].
  exact (inv_rebind [] b sid e (MkSession _ _ _ (from i) _ _ _) Hmode E Hb).
Qed.

Lemma keeps_v1_require a : keeps rx_ok (v1_require_auth cfg a).
Proof. unfold v1_require_auth. ksteps. Qed.
Hint Resolve keeps_v1_require : handler.

Lemma keeps_v1_rd_be k n : (k + n <= MAX_PACKET_SIZE)%nat -> keeps rx_ok (hlift (rd_be (buf i) k n)).
Proof. intros Hk. apply keeps_lift, rd_be_returns; [lia | exact I]. Qed.

Lemma count_tun_out_safe sid n : keeps (inv []) (count_tun_out sid n).
Proof.
  apply keeps_mod. intros w Hw.
  eapply inv_frame; [exact Hw | reflexivity.. | apply (i_pending _ _ Hw) | reflexivity |].
  eapply drops_ok_frame; [..|apply (i_drops _ _ Hw)]; reflexivity.
Qed.

Lemma keeps_v1_ping sid a so : keeps rx_ok (v1_ping cfg i sid a so).
Proof.
  pose proof max_packet_size. unfold v1_ping.
  ksteps; try (apply keeps_v1_rd_be; unfold SESSION_ID_LEN; lia);
    apply keeps_rx_base; [apply v1_send_safe | apply count_tun_out_safe].
Qed.

Lemma keeps_v1_rtt sid a : keeps rx_ok (v1_rtt cfg i sid a).
Proof.
  pose proof max_packet_size. unfold v1_rtt. ksteps.
  - apply keeps_v1_rd_be. unfold SESSION_ID_LEN. lia.
  - apply keeps_rx_base, hoare_other. intros v. by repeat split.
Qed.

Lemma keeps_v1_resolve sid a : keeps rx_ok (v1_resolve cfg i sid a).
Proof.
  unfold v1_resolve. ksteps.
  - apply keeps_lift. destruct (parse_resolve_returns (buf i) (len i)) as (r & -> & _);
      [assumption | lia | exact I].
  - apply keeps_rx_base, hoare_other. intros v. by repeat split.
Qed.

Lemma keeps_v1_keepalive sid a : keeps rx_ok (v1_keepalive cfg i sid a).
Proof.
  unfold v1_keepalive. ksteps. apply keeps_mod. intros w (Hv & Hf & Hp).
  split; [exact Hv|]. split; [|exact Hp]. apply flows_ok_refreshed; [|exact Hf].
  generalize (default [] (v1_index w !! sid)) as keys, (v1_flows w) as m.
  induction keys as [|k keys IH]; intros m; cbn [fold_left]; [apply refreshed_refl|].
  eapply refreshed_trans; [|apply IH]. by apply refreshed_alter.
Qed.

(** *** From here on the loop may be about to enter a flow *)

Lemma rx_ok_ok1 {A} P (m : H1 A) R : hoare P m R rx_ok -> hoare P m R ok1.
Proof. intros Hm. eapply hoare_conseq; [exact Hm | auto..]. intros w (Hv & Hf & _). by split. Qed.
Lemma rx_keeps_ok1 (m : H1 unit) : keeps rx_ok m -> hoare rx_ok m (fun _ => ok1) ok1.
Proof.
  intros Hm. eapply hoare_conseq; [exact Hm | auto..]; [intros _ w (Hv & Hf & _) | intros w (Hv & Hf & _)];
    by split.
Qed.
Lemma rx_bind {A} (m : H1 A) (k : A -> H1 unit) :
  keeps rx_ok m -> (forall a, hoare rx_ok (k a) (fun _ => ok1) ok1) ->
  hoare rx_ok (hbind m k) (fun _ => ok1) ok1.
Proof. intros Hm Hk. eapply hoare_bind; [by apply rx_ok_ok1 | exact Hk]. Qed.

Definition flow_room (w : V1) : Prop :=
  Z.of_nat (size (v1_flows w)) < MAX_FLOWS_TOTAL.

Lemma v1_flow_capacity_spec w sid :
  rx_ok w ->
  match v1_flow_capacity_available (v1_flows w) (v1_index w) (v_stats (v1_base w)) sid with
  | (s, r) => rx_ok (w <| v1_base ::= fun v => v <| v_stats := s |> |>)
              /\ (r = true -> flow_room w)
  end.
Proof.
  intros (Hv & Ha). unfold v1_flow_capacity_available, flow_room.
  assert (forall s, drops_ok s -> active_sessions s = active_sessions (v_stats (v1_base w)) ->
          rx_ok (w <| v1_base ::= fun v => v <| v_stats := s |> |>)) as Hs.
  { intros s Hd E. split; [|exact (at_recv_base w _ Ha)].
    eapply inv_frame; [exact Hv | reflexivity.. | apply (i_pending _ _ Hv) | exact E | exact Hd]. }
  pose proof (i_drops _ _ Hv) as Hd.
  destruct (Z.leb_spec MAX_FLOWS_TOTAL (Z.of_nat (size (v1_flows w)))).
  { split; [|discriminate]. apply Hs; [by apply drop_in_ok | reflexivity]. }
  destruct (_ <=? _); (split; [|by try intros _]); apply Hs; try reflexivity; try done.
  by apply drop_in_ok.
Qed.

Lemma v1_udp_safe sid game payload info :
  length sid = SESSION_ID_LEN ->
  hoare rx_ok (v1_udp i sid game payload info) (fun _ => ok1) ok1.
Proof.
  intros Hs. unfold v1_udp. apply rx_bind; [apply keeps_v1_name|]. intros ?.
  eapply hoare_bind; [apply rx_ok_ok1, hoare_get|]. intros flows.
  set (new_flow := negb _).
  apply (hoare_pre _ rx_ok); [|tauto].
  apply hoare_bind with (fun _ w => rx_ok w /\ (new_flow = true -> flow_room w)).
  - destruct new_flow; [|by intros w Hw; split]. eapply hoare_bind.
    { apply (hoare_run _ _ (fun r w => rx_ok w /\ (r = true -> flow_room w))).
      intros w Hw. pose proof (v1_flow_capacity_spec w sid Hw) as Hc.
      destruct (v1_flow_capacity_available _ _ _ _) as [s r]. exact Hc. }
    intros r. destruct r; cbn [negb].
    2: { intros w [(Hv & Hf & _) _]. by split. }
    eapply hoare_bind with (M := fun _ w => rx_ok w /\ flow_room w).
    + apply hoare_pre with (fun w => inv [] (v1_base w) /\ (at_recv w /\ flow_room w)).
      * eapply hoare_conseq;
          [apply (hoare_h_base (fun w => at_recv w /\ flow_room w) (inv []) _ (fun _ => inv []) (inv []));
             [intros w b [Ha Hr]; split; [by apply at_recv_base | exact Hr] | apply keeps_source_event]
          |auto|intros r w (Hv & Ha & Hr); exact (conj (conj Hv Ha) Hr)|].
        intros w (Hv & [Hf _] & _). by split.
      * intros w [[Hv Ha] Hr]. auto.
    + intros [|]; cbn [negb]; [intros w [Hw Hr]; by split|]. intros w [(Hv & Hf & _) _]. by split.
  - intros ?. apply hoare_mod. intros w [(Hv & [H1 H2 H3 H4 H5 H6 H7] & _) Hr]. split; [exact Hv|].
    constructor; cbn -[size]; try assumption. unfold pc_ok. cbn -[size]. auto.
Qed.

Lemma v1_forward_safe sid p :
  length sid = SESSION_ID_LEN -> hoare rx_ok (v1_forward cfg i sid p) (fun _ => ok1) ok1.
Proof.
  intros Hs. unfold v1_forward.
  destruct p as [game payload info raw | | |];
    [destruct (c_tun_udp_enabled cfg); [|by apply v1_udp_safe]|..]; apply rx_keeps_ok1;
    ksteps; apply keeps_rx_base, keeps_tun; auto using count_tcp_ok, count_tun_udp_ok;
    intros; case_match; auto using count_tcp_ok, count_tun_udp_ok.
Qed.

Lemma v1_packet_safe sid a :
  length sid = SESSION_ID_LEN -> hoare rx_ok (v1_packet cfg i sid a) (fun _ => ok1) ok1.
Proof.
  intros Hs. unfold v1_packet. apply rx_bind; [apply keeps_v1_require|]. intros ?.
  destruct (Nat.ltb_spec (len i) (SESSION_ID_LEN + IP_HEADER_MIN)); [apply rx_keeps_ok1; ksteps|].
  apply rx_bind; [apply keeps_lift; ostep; done|]. intros pkt.
  apply rx_bind.
  { apply keeps_rx_base, keeps_run. intros v Hv.
    pose proof (parse_ip_packet_full_returns (v_policy v) pkt) as Hr.
    destruct (parse_ip_packet_full _ _) as [[p r]|]; [|contradiction]. cbn [obind returns fst].
    eapply inv_frame; [exact Hv | reflexivity.. | apply (i_pending _ _ Hv) | reflexivity
                       | apply (i_drops _ _ Hv)]. }
  intros [p|]; [|apply rx_keeps_ok1; ksteps].
  pose proof (v1_forward_safe sid p Hs) as Hf.
  destruct p; try exact Hf;
    (apply rx_bind; [apply keeps_rx_base, hoare_budget|]; intros [|]; cbn [negb];
       [exact Hf | apply rx_keeps_ok1; ksteps]).
Qed.

Lemma v1_frame_safe sid a so :
  length sid = SESSION_ID_LEN -> hoare rx_ok (v1_frame cfg i sid a so) (fun _ => ok1) ok1.
Proof.
  intros Hs. pose proof max_packet_size. unfold v1_frame.
  apply rx_bind; [apply keeps_lift, returns_rd; [unfold SESSION_ID_LEN; lia | done]|]. intros b.
  destruct (_ && _); [apply rx_keeps_ok1, keeps_v1_ping|].
  destruct (_ && _); [apply rx_keeps_ok1; kstep|].
  destruct (_ && _); [apply rx_keeps_ok1, keeps_v1_rtt|].
  destruct (_ && _); [apply rx_keeps_ok1, keeps_v1_resolve|].
  destruct (_ =? _)%nat; [apply rx_keeps_ok1, keeps_v1_keepalive | by apply v1_packet_safe].
Qed.

Lemma v1_rx_safe so : keeps ok1 (v1_rx hash_one cfg i so).
Proof.
  pose proof max_packet_size. unfold v1_rx.
  eapply hoare_bind; [apply hoare_get|]. intros [| |]; try (intros w [Hw _]; exact Hw).
  apply hoare_pre with rx_ok; [|intros w [[Hv Hf] E]; exact (conj Hv (conj Hf (eq_sym E)))].
  apply rx_bind.
  { apply keeps_rx_base, hoare_stat; [intros s; by apply drops_ok_frame | reflexivity]. }
  intros ?. destruct (len i <? SESSION_ID_LEN)%nat; [apply rx_keeps_ok1; ksteps|].
  assert (slice (buf i) 0 SESSION_ID_LEN = Ret (take SESSION_ID_LEN (buf i))) as ->.
  { unfold slice, SESSION_ID_LEN. rewrite (proj2 (Nat.leb_le 8 _)) by lia. reflexivity. }
  set (sid := take SESSION_ID_LEN (buf i)).
  assert (length sid = SESSION_ID_LEN) as Hs
    by (subst sid; rewrite length_take; unfold SESSION_ID_LEN; lia).
  apply hoare_lift_Ret.
  apply rx_bind; [apply keeps_lift, returns_rd; [unfold SESSION_ID_LEN; lia | done]|]. intros b.
  apply rx_bind; [apply keeps_v1_ticket|]. intros t.
  apply rx_bind; [apply keeps_v1_hint|]. intros ?.
  apply rx_bind; [unfold v1_auth_gate; ksteps|]. intros ?.
  eapply hoare_bind; [apply rx_ok_ok1, v1_admit_room|]. intros ?.
  eapply hoare_bind;
    [apply rx_ok_ok1, (hoare_h_base at_recv _ _ _ _ at_recv_base (session_keeps cfg i Hmode sid _))|].
  intros [authenticated allowed]. cbn beta iota.
  apply rx_bind; [apply keeps_rx_base, keeps_ingress|]. intros ?.
  destruct (_ && _); [apply rx_keeps_ok1, keeps_v1_hello|].
  destruct allowed; cbn [negb]; [by apply v1_frame_safe | apply rx_keeps_ok1; ksteps].
Qed.

End Rx.

(* ------------------------------------------------------------------ *)
(** ** Changes of the flow tables *)

Lemma keeps_flows f : (forall w, v1_base (f w) = v1_base w) ->
  (forall w, flows_ok cap w -> flows_ok cap (f w)) -> keeps ok1 (hmod f).
Proof. intros Hb Hf. apply keeps_mod. intros w [Hv Hw]. split; [by rewrite Hb | by apply Hf]. Qed.

Lemma set_pc_recv w : flows_ok cap w -> flows_ok cap (w <| v1_pc := AtRecv |>).
Proof. intros [H1 H2 H3 H4 H5 H6 H7]. by constructor. Qed.

Lemma index_remove_ok w sid key :
  flows_ok cap w ->
  flows_ok cap (w <| v1_index ::= fun index =>
    match index !! sid with
    | Some keys =>
        let keys := filter (fun k => k <> key) keys in
        if (length keys =? 0)%nat then delete sid index else <[sid := keys]> index
    | None => index
    end |>).
Proof.
  intros [H1 H2 H3 H4 H5 H6 H7]. constructor; cbn; try assumption. intros sid' keys'.
  destruct (v1_index w !! sid) as [keys|] eqn:E; [|apply H3].
  destruct (_ =? _)%nat; [intros [_ Ed]%lookup_delete_Some; eauto|].
  intros Ei. apply lookup_insert_Some in Ei as [[<- <-]|[_ Ed]]; [|eauto].
  apply list.Forall_forall. intros k [_ Hk]%list_elem_of_filter.
  exact (proj1 (list.Forall_forall _ _) (H3 _ _ E) k Hk).
Qed.

Lemma remove_v1_flow_ok sid key g w : flows_ok cap w -> flows_ok cap (remove_v1_flow sid key g w).
Proof.
  intros Hw. unfold remove_v1_flow. destruct (v1_flows w !! key); [|exact Hw].
  case_bool_decide; [|exact Hw]. apply index_remove_ok, flows_ok_refreshed; [|exact Hw].
  apply refreshed_delete.
Qed.

Lemma remove_v1_flow_other sid key g w :
  v1_base (remove_v1_flow sid key g w) = v1_base w /\ v1_tasks (remove_v1_flow sid key g w) = v1_tasks w
  /\ v1_pc (remove_v1_flow sid key g w) = v1_pc w
  /\ forall k f, v1_flows (remove_v1_flow sid key g w) !! k = Some f ->
       v1_flows w !! k = Some f /\ (k = key -> fe_generation f <> g).
Proof.
  unfold remove_v1_flow. destruct (v1_flows w !! key) as [f0|] eqn:E.
  - case_bool_decide as Hg; cbn; (split; [done|split; [done|split; [done|]]]); intros k f.
    + intros [Hne Ek]%lookup_delete_Some. split; [done|]. by intros <-.
    + intros Ek. split; [done|]. intros ->. congruence.
  - do 3 (split; [done|]). intros k f Ek. split; [done|]. intros ->. congruence.
Qed.

(** Replacing a task by one with the same key and session. *)
Lemma set_task_ok w g t t' :
  v1_tasks w !! g = Some t -> ft_key t' = ft_key t -> ft_session_id t' = ft_session_id t ->
  (ft_phase t = Unspawned -> ft_phase t' = Unspawned) -> task_ok cap t' -> flows_ok cap w -> flows_ok cap (w <| v1_tasks ::= <[g := t']> |>).
Proof.
  intros E Ek Es Ep Ht [H1 H2 H3 H4 H5 H6 H7]. constructor; cbn; try assumption.
  - intros key f Ef. destruct (H1 _ _ Ef) as (t0 & E0 & E1).
    destruct (decide (g = fe_generation f)) as [->|Hg].
    + exists t'. rewrite lookup_insert_eq. split; [done | congruence].
    + exists t0. by rewrite lookup_insert_ne.
  - intros g' t0 [[<- <-]|[_ E0]]%lookup_insert_Some; [|by apply H2]. split; [|done]. by eapply H2.
  - unfold pc_ok in *. cbn. destruct (v1_pc w); try exact H7. destruct H7 as (t0 & E0 & K0 & S0 & P0).
    destruct (decide (g = generation)) as [->|Hg].
    + exists t'. rewrite lookup_insert_eq. rewrite E in E0. injection E0 as ->. repeat split; try congruence. auto.
    + exists t0. by rewrite lookup_insert_ne.
Qed.

(** The end of a task: its flow, if any, goes first. *)
Lemma task_exit_ok w g t :
  v1_tasks w !! g = Some t -> ft_phase t <> Unspawned -> flows_ok cap w ->
  flows_ok cap ((remove_v1_flow (ft_session_id t) (ft_key t) g w) <| v1_tasks ::= delete g |>).
Proof.
  intros E Hp Hw. pose proof (remove_v1_flow_ok (ft_session_id t) (ft_key t) g w Hw) as [H1 H2 H3 H4 H5 H6 H7].
  destruct (remove_v1_flow_other (ft_session_id t) (ft_key t) g w) as (_ & Et & Epc & Ef).
  set (w' := remove_v1_flow _ _ _ _) in *. clearbody w'.
  constructor; cbn; try assumption.
  - intros key f Ekf. destruct (H1 _ _ Ekf) as (t0 & E0 & Ek). exists t0. split; [|done].
    apply lookup_delete_Some. split; [|done]. intros Eg. rewrite <- Eg, Et, E in E0.
    injection E0 as <-. destruct (Ef _ _ Ekf) as [_ Hne]. by apply Hne.
  - intros g' t0 [_ E0]%lookup_delete_Some. by apply H2.
  - unfold pc_ok in *. cbn. destruct (v1_pc w'); try exact H7. destruct H7 as (t0 & E0 & K0).
    exists t0. split; [|exact K0]. apply lookup_delete_Some. split; [|exact E0]. intros ->.
    rewrite Et, E in E0. injection E0 as <-. by apply Hp, K0.
Qed.

(** A handler that first reads the state. *)
Lemma keeps_read {A B} (f : V1 -> A) (k : A -> H1 B) :
  (forall w, ok1 w -> hoare (eq w) (k (f w)) (fun _ => ok1) ok1) -> keeps ok1 (hbind (hget f) k).
Proof. intros Hk w Hw. exact (Hk w Hw w eq_refl). Qed.

Lemma hoare_read {A B} w (f : V1 -> A) (k : A -> H1 B) R Q :
  hoare (eq w) (k (f w)) R Q -> hoare (eq w) (hbind (hget f) k) R Q.
Proof. intros Hk w' <-. exact (Hk w eq_refl). Qed.

Lemma hoare_set {B} w f (k : unit -> H1 B) R Q :
  hoare (eq (f w)) (k tt) R Q -> hoare (eq w) (hbind (hmod f) k) R Q.
Proof. intros Hk w' <-. exact (Hk (f w) eq_refl). Qed.

Lemma hoare_here {A} w (m : H1 A) : ok1 w -> keeps ok1 m -> hoare (eq w) m (fun _ => ok1) ok1.
Proof. intros Hw Hm w' <-. exact (Hm w Hw). Qed.

Lemma set_task_safe w g t t' :
  ok1 w -> v1_tasks w !! g = Some t -> ft_key t' = ft_key t -> ft_session_id t' = ft_session_id t ->
  ft_phase t <> Unspawned -> task_ok cap t' -> hoare (eq w) (set_task g t') (fun _ => ok1) ok1.
Proof.
  intros [Hv Hw] E Ek Es Ep Ht. apply hoare_mod. intros w' <-. split; [exact Hv|].
  eapply set_task_ok; eauto. intros. contradiction.
Qed.

Lemma task_exit_safe w g t :
  ok1 w -> v1_tasks w !! g = Some t -> ft_phase t <> Unspawned ->
  hoare (eq w) (task_exit g t) (fun _ => ok1) ok1.
Proof.
  intros [Hv Hw] E Ep. apply hoare_mod. intros w' <-. split; [|by apply task_exit_ok].
  cbn. by rewrite (proj1 (remove_v1_flow_other _ _ _ w)).
Qed.

(** The same task up to its counters. *)
Lemma task_exit_same w g t t' :
  ok1 w -> v1_tasks w !! g = Some t -> ft_key t' = ft_key t -> ft_session_id t' = ft_session_id t ->
  ft_phase t <> Unspawned -> hoare (eq w) (task_exit g t') (fun _ => ok1) ok1.
Proof.
  intros Hw E Ek Es Ep. unfold task_exit. rewrite Ek, Es. by apply (task_exit_safe w g t).
Qed.

(* ------------------------------------------------------------------ *)
(** ** The entry of a flow *)

Lemma try_send_cap {A} n (l q : list A) x : try_send n l x = Some q -> q = l ++ [x] /\ (length q <= n)%nat.
Proof.
  unfold try_send. destruct (Nat.ltb_spec (length l) n); [|discriminate].
  intros [= <-]. split; [done|]. rewrite length_app. cbn. lia.
Qed.

Lemma try_send_room {A} n (x : A) : (0 < n)%nat -> try_send n [] x = Some [x].
Proof. intros Hn. unfold try_send. cbn [length]. by rewrite (proj2 (Nat.ltb_lt 0 n)). Qed.

(** A packet for a flow that is there. *)
Lemma entry_existing_ok w key f f' t q :
  v1_flows w !! key = Some f -> fe_generation f' = fe_generation f ->
  v1_tasks w !! fe_generation f = Some t -> (length q <= cap)%nat ->
  flows_ok cap w ->
  flows_ok cap (w <| v1_flows ::= <[key := f']> |>
                  <| v1_tasks ::= <[fe_generation f := t <| ft_queue := q |>]> |>).
Proof.
  intros Ef Eg Et Hq Hw.
  assert (flows_ok cap (w <| v1_flows ::= <[key := f']> |>)) as Hf.
  { apply flows_ok_refreshed; [|exact Hw]. intros k x [[<- <-]|[_ E]]%lookup_insert_Some; eauto. }
  destruct (fo_tasks _ _ Hw _ _ Et) as [_ [K S Q E D]].
  apply (set_task_ok _ _ t); [exact Et | done | done | done | by constructor | exact Hf].
Qed.

Hypothesis Hcap : (0 < cap)%nat.

(** A new one. *)
Lemma entry_new_ok w sid key game addr tm info payload :
  v1_flows w !! key = None -> key = v1_flow_key sid game -> length sid = SESSION_ID_LEN ->
  Z.of_nat (size (v1_flows w)) < MAX_FLOWS_TOTAL -> flows_ok cap w ->
  flows_ok cap (w <| v1_next := S (v1_next w) |>
                  <| v1_flows ::= <[key := MkFlow (v1_next w) addr tm info None]> |>
                  <| v1_tasks ::= <[v1_next w := MkTask key game sid [payload] Unspawned 0 0]> |>
                  <| v1_pc := AtIndex sid key (v1_next w) |>).
Proof.
  intros En Ek Hs Hsz [H1 H2 H3 H4 H5 H6 H7]. constructor; cbn -[size]; try assumption.
  - intros k f [[<- <-]|[Hne E]]%lookup_insert_Some; cbn.
    + rewrite lookup_insert_eq. eauto.
    + destruct (H1 _ _ E) as (t & Et & Kt). exists t. split; [|done].
      rewrite lookup_insert_ne; [done|]. pose proof (proj1 (H2 _ _ Et)). lia.
  - intros g t [[<- <-]|[Hne E]]%lookup_insert_Some.
    + split; [lia|]. constructor; cbn; try done; lia.
    + destruct (H2 _ _ E). split; [lia | done].
  - rewrite map_size_insert_None by done. lia.
  - unfold pc_ok. cbn. rewrite lookup_insert_eq. eauto.
Qed.

Lemma v1_entry_safe t : keeps ok1 (v1_entry cap t).
Proof.
  unfold v1_entry. apply keeps_read. intros w0 [Hv Hw].
  destruct (v1_pc w0) as [|sid addr key new_flow game payload info|] eqn:Epc; try (intros w <-; by split).
  pose proof (fo_pc _ _ Hw) as X. unfold pc_ok in X. rewrite Epc in X. destruct X as (Ek & Hs & Hroom).
  apply hoare_set, hoare_read. set (w1 := w0 <| v1_pc := AtRecv |>). cbn [id].
  assert (flows_ok cap w1) as Hw1 by by apply set_pc_recv.
  assert (inv [] (v1_base w1)) as Hv1 by exact Hv.
  assert (Z.of_nat (size (v1_flows w1)) = Z.of_nat (size (v1_flows w0))) as Esz by done.
  clearbody w1. destruct (v1_flows w1 !! key) as [f|] eqn:Ef.
  - apply hoare_set. cbn [fe_generation]. destruct (fo_flow _ _ Hw1 _ _ Ef) as (task & Et & _).
    cbn. rewrite Et. pose proof (to_queue _ _ (proj2 (fo_tasks _ _ Hw1 _ _ Et))) as Hq.
    destruct (try_send cap (ft_queue task) payload) as [q|] eqn:Eq.
    + apply try_send_cap in Eq as [-> Hl]. apply hoare_mod. intros w <-. split; [exact Hv1|].
      by eapply entry_existing_ok; eauto.
    + apply hoare_here; [|apply keeps_h_base, keeps_drop_in]. split; [exact Hv1|].
      apply flows_ok_refreshed; [|exact Hw1].
      intros k x [[<- <-]|[_ E]]%lookup_insert_Some; [by exists f | eauto].
  - destruct new_flow; cbn [negb].
    2: { apply hoare_here; [by split|]. apply keeps_bind; [apply keeps_h_base, keeps_drop_in | intros ?; kstep]. }
    rewrite (proj2 (Nat.eqb_neq cap 0)) by lia. rewrite try_send_room by done. cbn [default].
    rewrite bool_decide_eq_true_2 by eauto. intros w <-. split; [exact Hv1|].
    apply entry_new_ok; [done..| |done]. rewrite Esz. by apply Hroom.
Qed.

Lemma v1_publish_safe : keeps ok1 v1_publish.
Proof.
  unfold v1_publish. apply keeps_read. intros w0 [Hv Hw].
  destruct (v1_pc w0) as [| |sid key g] eqn:Epc; try (intros w <-; by split).
  pose proof (fo_pc _ _ Hw) as X. unfold pc_ok in X. rewrite Epc in X.
  destruct X as (task & Et & Ekt & Est & _).
  apply hoare_mod. intros w <-. split; [exact Hv|].
  destruct (fo_tasks _ _ Hw _ _ Et) as [Hg [K S Q E D]].
  destruct Hw as [H1 H2 H3 H4 H5 H6 H7]. constructor; cbn; try assumption.
  - intros k f Ef. destruct (H1 _ _ Ef) as (t' & Et' & Kt'). destruct (decide (g = fe_generation f)) as [->|Hne].
    + rewrite lookup_alter_eq, Et. exists (task <| ft_phase := Starting |>). split; [done|]. cbn. congruence.
    + rewrite lookup_alter_ne by done. eauto.
  - intros g' t'. destruct (decide (g = g')) as [->|Hne].
    + rewrite lookup_alter_eq, Et. intros [= <-]. split; [done|]. by constructor.
    + rewrite lookup_alter_ne by done. apply H2.
  - intros sid' keys' [[<- <-]|[_ Ei]]%lookup_insert_Some; [|by apply H3].
    apply Forall_app_2; [|apply Forall_singleton; exists (ft_game_addr task); congruence].
    destruct (v1_index w0 !! sid) as [keys|] eqn:Ei; [by apply H3 | constructor].
  - exact I.
Qed.

(* ------------------------------------------------------------------ *)
(** ** The tasks *)

Lemma task_start_safe g b c : keeps ok1 (task_start g b c).
Proof.
  unfold task_start. apply keeps_read. intros w Hw. cbn [id].
  destruct (v1_tasks w !! g) as [t|] eqn:Et; [|by apply hoare_here; [|kstep]].
  destruct (ft_phase t) eqn:Ep; try (by apply hoare_here; [|kstep]).
  assert (ft_phase t <> Unspawned) as Hp by congruence.
  fold (refused_dst (ft_game_addr t)). destruct (refused_dst (ft_game_addr t)) eqn:Er.
  { intros w' <-. apply (task_exit_safe (w <| v1_base ::= fun v => v <| v_stats ::= fun s => drop_in s Stats.ForbiddenDst |> |>) g t);
      [|done..|reflexivity]. exact (keeps_h_base _ (keeps_drop_in Stats.ForbiddenDst) w Hw). }
  destruct b; cbn [negb]; [|by apply (task_exit_safe w g t)].
  destruct c; cbn [negb]; [|by apply (task_exit_safe w g t)].
  apply (set_task_safe w g t); try done.
  destruct (fo_tasks _ _ (proj2 Hw) _ _ Et) as [_ [K S Q E D]]. by constructor.
Qed.

Lemma task_send_safe g sent : keeps ok1 (task_send g sent).
Proof.
  unfold task_send. apply keeps_read. intros w Hw. cbn [id].
  destruct (v1_tasks w !! g) as [t|] eqn:Et; [|by apply hoare_here; [|kstep]].
  destruct (ft_phase t) eqn:Ep; try (by apply hoare_here; [|kstep]).
  assert (ft_phase t <> Unspawned) as Hp by congruence.
  destruct (fo_tasks _ _ (proj2 Hw) _ _ Et) as [_ [K S Q [Er Es] D]].
  destruct (ft_queue t) as [|data rest] eqn:Eq.
  { destruct (flow_of w (ft_key t) g); [by apply hoare_here; [|kstep] | by apply (task_exit_safe w g t)]. }
  assert (forall s, 0 <= s < 5 -> task_ok cap (t <| ft_queue := rest |> <| ft_send_errors := s |>)) as Hs.
  { intros s Hs. constructor; cbn; try done. cbn in Q. lia. }
  assert (task_ok cap (t <| ft_queue := rest |>)) as Hr by exact (Hs _ Es).
  destruct sent as [u|e].
  - eapply hoare_bind; [apply (set_task_safe w g t); try done; apply Hs; lia|]. intros ?.
    apply keeps_flows; [done|]. intros w' [H1 H2 H3 H4 H5 H6 H7]. constructor; cbn; try assumption.
    apply Forall_app_2; [assumption|]. apply Forall_singleton. apply D. unfold running. by rewrite Ep.
  - destruct (is_transient_send_error e); [by apply (set_task_safe w g t)|].
    destruct (Z.leb_spec 5 (ft_send_errors (t <| ft_queue := rest |>) + 1)) as [Hl|Hl].
    + by apply (task_exit_same w g t).
    + apply (set_task_safe w g t); try done. apply Hs. cbn in *. lia.
Qed.

Lemma task_response_safe w g t payload tm tu :
  ok1 w -> v1_tasks w !! g = Some t -> ft_phase t <> Unspawned ->
  hoare (eq w) (task_response g t payload tm tu) (fun _ => ok1) ok1.
Proof.
  intros Hw Et Hp. unfold task_response. set (t0 := t <| ft_recv_errors := 0 |>).
  destruct (fo_tasks _ _ (proj2 Hw) _ _ Et) as [_ [K S Q [Er Es] D]].
  assert (task_ok cap t0) as Ht0 by (constructor; cbn; try done; lia).
  apply hoare_set, hoare_read. cbn [id]. set (w1 := w <| v1_tasks ::= <[g := t0]> |>).
  assert (ok1 w1) as Hw1 by exact (set_task_safe w g t t0 Hw Et eq_refl eq_refl Hp Ht0 w eq_refl).
  assert (v1_tasks w1 !! g = Some t0) as Et1 by apply lookup_insert_eq.
  assert (ft_phase t0 <> Unspawned) as Hp0 by exact Hp.
  assert (length (ft_session_id t0) = SESSION_ID_LEN) as Hs0 by exact S.
  clearbody w1 t0.
  destruct (lease_current _ _ _); cbn [negb]; [|by apply (task_exit_safe w1 g t0)].
  destruct (v1_flows w1 !! ft_key t0) as [f|] eqn:Ef.
  2: { case_bool_decide; [by apply hoare_here; [|kstep] | by apply (task_exit_safe w1 g t0)]. }
  case_bool_decide; [|by apply (task_exit_safe w1 g t0)].
  apply hoare_here; [exact Hw1|]. unfold build_response_ip_packet. rewrite build_response_spec.
  apply keeps_lift_Ret. kstep; [|kstep].
  - apply keeps_flows; [done|]. intros w' [H1 H2 H3 H4 H5 H6 H7]. constructor; cbn; try assumption.
    apply Forall_app_2; [assumption|]. apply Forall_singleton. eauto.
  - apply keeps_flows; [done|]. intros w' Hf. apply flows_ok_refreshed; [|exact Hf].
    apply refreshed_alter. intros x. by case_bool_decide.
  - apply keeps_h_base, keeps_mod. intros v Hv. by apply inv_alter_session.
Qed.

Lemma task_recv_safe g received tm tu : keeps ok1 (task_recv g received tm tu).
Proof.
  unfold task_recv. apply keeps_read. intros w Hw. cbn [id].
  destruct (v1_tasks w !! g) as [t|] eqn:Et; [|by apply hoare_here; [|kstep]].
  destruct (ft_phase t) eqn:Ep; try (by apply hoare_here; [|kstep]).
  assert (ft_phase t <> Unspawned) as Hp by congruence.
  destruct received as [payload|e]; [by apply task_response_safe|].
  destruct (is_transient_recv_error e); [by apply hoare_here; [|kstep]|].
  destruct (fo_tasks _ _ (proj2 Hw) _ _ Et) as [_ [K S Q [Er Es] D]].
  destruct (Z.leb_spec 5 (ft_recv_errors t + 1)) as [Hl|Hl]; [by apply (task_exit_safe w g t)|].
  apply (set_task_safe w g t); try done. constructor; cbn; try done. lia.
Qed.

Lemma task_idle_safe g : keeps ok1 (task_idle g).
Proof.
  unfold task_idle. apply keeps_read. intros w Hw. cbn [id].
  destruct (v1_tasks w !! g) as [t|] eqn:Et; [|by apply hoare_here; [|kstep]].
  destruct (ft_phase t) eqn:Ep; try (by apply hoare_here; [|kstep]).
  destruct (flow_of w (ft_key t) g); [by apply hoare_here; [|kstep]|].
  apply (task_exit_safe w g t); congruence.
Qed.

(* ------------------------------------------------------------------ *)
(** ** The response sender and the cleanup *)

Lemma v1_response_safe so tu mono : keeps ok1 (v1_response cfg so tu mono).
Proof.
  unfold v1_response. apply keeps_read. intros w [Hv Hw].
  destruct (v1_responses w) as [|[[addr sid] data] rest] eqn:Er; [by intros w' <-|].
  pose proof (fo_responses _ _ Hw) as Hr. rewrite Er in Hr. apply Forall_cons_1 in Hr as [[Hs [p ->]] Hr].
  apply hoare_set, hoare_here.
  { split; [exact Hv|]. destruct Hw as [H1 H2 H3 H4 H5 H6 H7]. by constructor. }
  kstep; [kstep|]. kstep; [|kstep].
  kstep; [apply keeps_lift, returns_slice; [rewrite length_app; lia | done]|].
  kstep; [apply keeps_h_base, hoare_budget|]. kstep.
  { kstep; [apply keeps_h_base, keeps_drop_out | kstep]. }
  kstep; [apply keeps_h_base, v1_send_safe|]. kstep; [apply keeps_h_base, count_out_safe | kstep].
Qed.

Lemma v1_cleanup_flow_generation t x y :
  v1_cleanup_flow t x = Some y -> fe_generation y = fe_generation x.
Proof. unfold v1_cleanup_flow. repeat case_match; by intros [= <-]. Qed.

Lemma v1_cleanup_finish_safe : keeps (inv []) v1_cleanup_finish.
Proof. unfold v1_cleanup_finish. kstep; [apply close_finish_safe | kstep]. Qed.

Lemma v1_cleanup_sessions_safe t sids : mode <> Still -> keeps (inv []) (v1_cleanup_sessions t sids).
Proof.
  intros Hm. induction sids as [|sid sids IH]; cbn [v1_cleanup_sessions]; [kstep|].
  kstep; [|exact IH]. unfold v1_cleanup_session.
  kstep; [by apply close_begin_safe | apply v1_cleanup_finish_safe].
Qed.

Lemma v1_sweep_safe t : mode <> Still -> keeps ok1 (v1_sweep_turn t).
Proof.
  intros Hm. assert (forall s w, flows_ok cap w -> flows_ok cap (w <| v1_sweep := s |>)) as Hsw.
  { intros s w [H1 H2 H3 H4 H5 H6 H7]. by constructor. }
  unfold v1_sweep_turn. kstep; [kstep|]. destruct a as [[tm phase]|]; [destruct phase|].
  - apply keeps_flows; [done|]. intros w Hw. apply Hsw.
    destruct Hw as [H1 H2 H3 H4 H5 H6 H7]. constructor; cbn; try assumption.
    intros sid keys. rewrite map_lookup_imap. destruct (v1_index w !! sid) as [l|] eqn:E; cbn; [|discriminate].
    unfold v1_cleanup_keys. destruct (_ && _); [|discriminate]. intros [= <-].
    apply list.Forall_forall. intros k [_ Hk]%list_elem_of_filter.
    exact (proj1 (list.Forall_forall _ _) (H3 _ _ E) k Hk).
  - kstep; [apply keeps_flows; [done | auto]|]. kstep; [kstep|].
    apply keeps_h_base. kstep; [apply v1_cleanup_finish_safe | by apply v1_cleanup_sessions_safe].
  - kstep; [apply keeps_flows; [done | auto]|]. apply keeps_h_base, cleanup_tun_safe.
  - apply keeps_mod. intros w [Hv Hw]. split; [|by apply (Hsw None), flows_ok_base].
    eapply inv_frame; [exact Hv | reflexivity.. | apply (i_pending _ _ Hv) | reflexivity |].
    eapply drops_ok_frame; [..|apply (i_drops _ _ Hv)]; reflexivity.
  - apply keeps_flows; [done|]. intros w Hw. apply Hsw, flows_ok_refreshed; [|exact Hw].
    apply refreshed_omap. apply v1_cleanup_flow_generation.
Qed.

(* ------------------------------------------------------------------ *)
(** ** Runs *)

(** The kernel puts at most a buffer of bytes into the buffer. *)
Definition v1_turn_ok (a : v1_turn) : Prop :=
  match a with
  | RecvTurn i _ => length (buf i) = MAX_PACKET_SIZE /\ (len i <= MAX_PACKET_SIZE)%nat /\ bytes_ok (buf i)
  | _ => True
  end.

(** The turns that keep the counters as good as [mode] says. *)
Definition v1_turn_counts (a : v1_turn) : Prop :=
  match a with
  | RecvTurn _ _ => mode <> Exact
  | SweepTurn _ | CloseTurn _ _ => mode <> Still
  | _ => True
  end.

Lemma v1_turn_safe a : v1_turn_ok a -> v1_turn_counts a -> keeps ok1 (v1_handler hash_one cfg cap a).
Proof.
  destruct a; cbn [v1_turn_ok v1_turn_counts v1_handler]; intros Ha Hc.
  - destruct Ha as (H1 & H2 & H3). by apply v1_rx_safe.
  - apply v1_entry_safe.
  - apply v1_publish_safe.
  - apply task_start_safe.
  - apply task_send_safe.
  - apply task_recv_safe.
  - apply task_idle_safe.
  - apply v1_response_safe.
  - by apply v1_sweep_safe.
  - by apply keeps_h_base, close_begin_safe.
  - apply keeps_h_base, v1_cleanup_finish_safe.
  - apply keeps_h_base, expire_tun_safe.
  - apply keeps_h_base, tun_assign_safe.
  - apply keeps_h_base, tun_commit_safe.
  - apply keeps_h_base, tun_read_safe.
  - apply keeps_h_base, tun_resp_safe.
  - apply keeps_h_base, resolve_safe.
  - apply keeps_h_base, maintain_safe.
Qed.

Lemma v1_turn_returns w a :
  ok1 w -> v1_turn_ok a -> v1_turn_counts a -> returns (v1_step hash_one cfg cap w a) ok1.
Proof.
  intros Hw Ha Hc. pose proof (v1_turn_safe a Ha Hc w Hw) as Hq. unfold v1_step, wp in *.
  destruct (v1_handler _ _ _ a w) as [[w' [u|]]|]; [exact Hq | exact Hq | contradiction].
Qed.

End Safe.
