(* ===== verification/V1Sim.v ===== *)
(** * The two receive loops decide alike

    The source writes the receive loop twice, once per datapath.  A datagram
    that meets the same shared tables gets the same treatment in both: the
    same sessions, owners, counters per source, replay cache, rate limits,
    policy and budget state come out, although one datapath answers at once
    and the other through its buffer pool and queues. *)

From S2P Require Import Prelude Checksum Net Packet TunRewrite TunSession RustStr Tuning DestPolicy Stats Sessions RateLimit AccountBudget Auth Frames Handler V2State V2Rx V2Shard V2Tun V2Inv V2Safe V1 V1Safe.

(** The tables decisions are made on. *)
Record Shared : Type := MkShared {
  s_sessions : gmap (list Z) SessionEntry;
  s_counts : gmap IpAddr Z;
  s_cache : RelayTicketReplayCache;
  s_pending : list SourceRateState;
  s_policy : DestPolicy;
  s_budgets : Budgets;
}.
Definition shared (v : V2) : Shared :=
  MkShared (v_sessions v) (v_counts v) (v_cache v) (v_pending v) (v_policy v) (v_budgets v).

(** Until the flow is looked up the two also agree on the source limiter. *)
Definition decided (v : V2) : Shared * SourceRateLimiter := (shared v, v_limiter v).

(** [m1] and [m2] end alike from states that agree. *)
Definition sim {A} (m1 : H1 A) (m2 : H A) : Prop :=
  forall w v w' v' c1 c2, decided (v1_base w) = decided v ->
  m1 w = Ret (w', c1) -> m2 v = Ret (v', c2) -> c1 = c2 /\ decided (v1_base w') = decided v'.

(** The weaker relation at the end of the loop's body. *)
Definition sim_end (m1 : H1 unit) (m2 : H unit) : Prop :=
  forall w v w' v' c1 c2, decided (v1_base w) = decided v ->
  m1 w = Ret (w', c1) -> m2 v = Ret (v', c2) -> shared (v1_base w') = shared v'.

Lemma sim_bind {A B} (m1 : H1 A) (m2 : H A) (k1 : A -> H1 B) (k2 : A -> H B) :
  sim m1 m2 -> (forall a, sim (k1 a) (k2 a)) -> sim (hbind m1 k1) (hbind m2 k2).
Proof.
  intros Hm Hk w v w' v' c1 c2 E E1 E2. unfold hbind in *.
  destruct (m1 w) as [[w0 d1]|] eqn:F1; [|discriminate].
  destruct (m2 v) as [[v0 d2]|] eqn:F2; [|discriminate].
  destruct (Hm _ _ _ _ _ _ E F1 F2) as [-> E0]. destruct d2 as [a|]; [by eapply Hk|].
  injection E1 as <- <-. injection E2 as <- <-. done.
Qed.

Lemma sim_bind_end {A} (m1 : H1 A) (m2 : H A) (k1 : A -> H1 unit) (k2 : A -> H unit) :
  sim m1 m2 -> (forall a, sim_end (k1 a) (k2 a)) -> sim_end (hbind m1 k1) (hbind m2 k2).
Proof.
  intros Hm Hk w v w' v' c1 c2 E E1 E2. unfold hbind in *.
  destruct (m1 w) as [[w0 d1]|] eqn:F1; [|discriminate].
  destruct (m2 v) as [[v0 d2]|] eqn:F2; [|discriminate].
  destruct (Hm _ _ _ _ _ _ E F1 F2) as [-> E0]. destruct d2 as [a|]; [by eapply Hk|].
  injection E1 as <- <-. injection E2 as <- <-. exact (f_equal fst E0).
Qed.

Lemma sim_sim_end m1 m2 : sim m1 m2 -> sim_end m1 m2.
Proof. intros Hm w v w' v' c1 c2 E E1 E2. exact (f_equal fst (proj2 (Hm _ _ _ _ _ _ E E1 E2))). Qed.

Lemma sim_ret {A} (a : A) : sim (hret a) (hret a).
Proof. by intros w v w' v' c1 c2 E [= <- <-] [= <- <-]. Qed.
Lemma sim_continue {A} : sim (@hcontinue V1 A) hcontinue.
Proof. by intros w v w' v' c1 c2 E [= <- <-] [= <- <-]. Qed.
Lemma sim_lift {A} (m : outcome A) : sim (hlift m) (hlift m).
Proof.
  intros w v w' v' c1 c2 E E1 E2. unfold hlift in *. destruct m; [|discriminate].
  injection E1 as <- <-. by injection E2 as <- <-.
Qed.
Lemma sim_get {A} (f : V2 -> A) (g : Shared * SourceRateLimiter -> A) :
  (forall v, f v = g (decided v)) -> sim (hget (fun w => f (v1_base w))) (hget f).
Proof.
  intros Hf w v w' v' c1 c2 E [= <- <-] [= <- <-]. split; [|exact E]. by rewrite !Hf, E.
Qed.

(** Steps that say [Next] and touch none of these tables. *)
Definition quiet {S A} (f : S -> V2) (m : handler S A) : Prop :=
  forall s s' c, m s = Ret (s', c) -> (exists a, c = Next a) /\ decided (f s') = decided (f s).

Lemma quiet_bind {S A B} (f : S -> V2) (m : handler S A) (k : A -> handler S B) :
  quiet f m -> (forall a, quiet f (k a)) -> quiet f (hbind m k).
Proof.
  intros Hm Hk s s' c E. unfold hbind in E. destruct (m s) as [[s0 d]|] eqn:F; [|discriminate].
  destruct (Hm _ _ _ F) as [[a ->] E0]. destruct (Hk _ _ _ _ E) as [Hc E1]. split; [exact Hc | congruence].
Qed.
Lemma quiet_ret {S A} (f : S -> V2) (a : A) : quiet f (hret a).
Proof. intros s s' c [= <- <-]. eauto. Qed.
Lemma quiet_mod {S} (f : S -> V2) g : (forall s, decided (f (g s)) = decided (f s)) -> quiet f (hmod g).
Proof. intros Hg s s' c [= <- <-]. eauto. Qed.
Lemma quiet_run {S A} (f : S -> V2) (g : S -> outcome (S * A)) :
  (forall s s' a, g s = Ret (s', a) -> decided (f s') = decided (f s)) -> quiet f (hrun g).
Proof.
  intros Hg s s' c E. unfold hrun in E. destruct (g s) as [[w a]|] eqn:F; [|discriminate].
  injection E as <- <-. eauto.
Qed.
Lemma quiet_h_base {A} (m : H A) : quiet id m -> quiet v1_base (h_base m).
Proof.
  intros Hm w w' c E. unfold h_base in E. destruct (m (v1_base w)) as [[b d]|] eqn:F; [|discriminate].
  injection E as <- <-. exact (Hm _ _ _ F).
Qed.
Lemma sim_quiet (m1 : H1 unit) (m2 : H unit) : quiet v1_base m1 -> quiet id m2 -> sim m1 m2.
Proof.
  intros Q1 Q2 w v w' v' c1 c2 E E1 E2.
  destruct (Q1 _ _ _ E1) as [[[] ->] F1]. destruct (Q2 _ _ _ E2) as [[[] ->] F2].
  split; [done|]. unfold id in F2. congruence.
Qed.

Lemma quiet_stat f : quiet id (stat f).
Proof. by apply quiet_mod. Qed.
Lemma quiet_drop_in r : quiet id (h_drop_in r).
Proof. apply quiet_stat. Qed.
Lemma quiet_v1_send a b ok : quiet id (v1_send a b ok).
Proof. unfold v1_send. destruct ok; [by apply quiet_mod | apply quiet_ret]. Qed.
Lemma quiet_queue_tx cfg p : quiet id (h_queue_tx cfg p).
Proof. apply quiet_run. intros s s' a E. destruct (p_kind p), (try_send _ _ p); by injection E as <- <-. Qed.
Lemma quiet_acquire : quiet id h_acquire.
Proof. apply quiet_run. intros s s' a E. destruct (try_acquire (v_pool s)). by injection E as <- <-. Qed.
Lemma quiet_fill i b : quiet id (h_fill i b).
Proof.
  apply quiet_run. intros s s' a E. do 3 (apply obind_inv in E as (? & _ & E)). by injection E as <- <-.
Qed.
Lemma quiet_control_frame cfg a sid ft st t : quiet id (send_small_control_frame cfg a sid ft st t).
Proof.
  unfold send_small_control_frame. apply quiet_bind; [apply quiet_acquire|]. intros [idx|].
  - apply quiet_bind; [apply quiet_fill | intros ?; apply quiet_queue_tx].
  - apply quiet_bind; [apply quiet_stat | intros ?; apply quiet_stat].
Qed.

Create HintDb sim.
#[global] Hint Resolve sim_ret sim_continue sim_lift : sim.

Lemma sim_drop_in r : sim (v1_drop_in r) (h_drop_in r).
Proof. apply sim_quiet; [apply quiet_h_base, quiet_drop_in | apply quiet_drop_in]. Qed.
#[global] Hint Resolve sim_drop_in : sim.

(** An operation on the shared tables behaves alike on both sides when its
    result and its effect on them depend on nothing else. *)
Definition local {A} (m : H A) : Prop :=
  forall s v s' v' c1 c2, decided s = decided v ->
  m s = Ret (s', c1) -> m v = Ret (v', c2) -> c1 = c2 /\ decided s' = decided v'.

Lemma sim_local {A} (m : H A) : local m -> sim (h_base m) m.
Proof.
  intros Hm w v w' v' c1 c2 E E1 E2. unfold h_base in E1.
  destruct (m (v1_base w)) as [[b d]|] eqn:F; [|discriminate]. injection E1 as <- <-.
  exact (Hm _ _ _ _ _ _ E F E2).
Qed.

Lemma local_run {A} (g : V2 -> outcome (V2 * A)) :
  (forall s v, decided s = decided v ->
     match g s, g v with
     | Ret (s', a), Ret (v', b) => a = b /\ decided s' = decided v'
     | _, _ => True
     end) -> local (hrun g).
Proof.
  intros Hg s v s' v' c1 c2 E E1 E2. specialize (Hg _ _ E). unfold hrun in *.
  destruct (g s) as [[w1 a1]|]; [|discriminate]. destruct (g v) as [[w2 a2]|]; [|discriminate].
  injection E1 as <- <-. injection E2 as <- <-. by destruct Hg as [-> ?].
Qed.

(** The fields of two states that agree. *)
Lemma decided_fields s v : decided s = decided v ->
  v_sessions s = v_sessions v /\ v_counts s = v_counts v /\ v_cache s = v_cache v
  /\ v_pending s = v_pending v /\ v_policy s = v_policy v /\ v_budgets s = v_budgets v
  /\ v_limiter s = v_limiter v.
Proof. unfold decided, shared. intros [= ? ? ? ? ? ? ?]. auto 10. Qed.

Ltac agree E :=
  let F1 := fresh "Fs" in let F2 := fresh "Fc" in let F3 := fresh "Fk" in let F4 := fresh "Fp" in
  let F5 := fresh "Fd" in let F6 := fresh "Fb" in let F7 := fresh "Fl" in
  destruct (decided_fields _ _ E) as (F1 & F2 & F3 & F4 & F5 & F6 & F7);
  rewrite ?F1, ?F2, ?F3, ?F4, ?F5, ?F6, ?F7.

(** Equal tables after equal updates. *)
Ltac finish E := split; [done | unfold decided, shared in *; cbn; congruence].

Section Sim.
Context `{TicketCrypto} (hash_one : IpAddr -> Z) (cfg : Config) (i : RxInput).

Lemma local_pending : local (h_pending hash_one i).
Proof.
  apply local_run. intros s v E. agree E. destruct (pending_allow _ _ _ _) as [[b r]|]; cbn; [finish E | done].
Qed.
Lemma local_source_event k : local (h_source_event i k).
Proof.
  apply local_run. intros s v E. unfold allow_source_event. agree E.
  destruct (limiter_allow _ _ _ _) as [l [|]]; finish E.
Qed.
Lemma local_verify_once sid token : local (h_verify_once cfg i sid token).
Proof.
  apply local_run. intros s v E. agree E. destruct (verify_relay_ticket_once _ _ _ _ _). finish E.
Qed.
Lemma local_session sid b : local (rx_session cfg i sid b).
Proof.
  apply local_run. intros s v E. agree E.
  destruct (v_sessions v !! sid) as [e|]; [destruct (_ || _)|]; finish E.
Qed.
Lemma local_parse p : local (h_parse p).
Proof.
  apply local_run. intros s v E. agree E. destruct (parse_ip_packet_full _ _) as [[q r]|]; cbn; [finish E | done].
Qed.
Lemma local_budget sid out p mono : local (h_budget sid out p mono).
Proof.
  apply local_run. intros s v E. agree E. destruct (allow _ _ _ _ _ _) as [[q r]|]; cbn; [finish E | done].
Qed.
Lemma local_mod g :
  (forall s v, decided s = decided v -> decided (g s) = decided (g v)) -> local (hmod g).
Proof. intros Hg s v s' v' c1 c2 E [= <- <-] [= <- <-]. auto. Qed.
Lemma local_name_legacy sid ip : local (h_name_legacy sid ip).
Proof. apply local_mod. intros s v E. unfold decided, shared in *. cbn. congruence. Qed.
Lemma local_quiet (m : H unit) : quiet id m -> local m.
Proof.
  intros Q s v s' v' c1 c2 E E1 E2. destruct (Q _ _ _ E1) as [[[] ->] F1]. destruct (Q _ _ _ E2) as [[[] ->] F2].
  split; [done|]. unfold id in *. congruence.
Qed.
Lemma local_tun sid raw count : local (h_tun cfg i sid raw count).
Proof.
  apply local_quiet. unfold h_tun. destruct (c_tun_cap cfg); [|apply quiet_drop_in].
  apply quiet_bind; [by intros s s' c [= <- <-]; eauto|]. intros q. destruct (try_send _ _ _).
  - apply quiet_bind; [by apply quiet_mod | intros ?; apply quiet_stat].
  - apply quiet_drop_in.
Qed.

Lemma sim_ack sid st ok : sim (v1_ack i sid st ok) (h_ack cfg i sid st).
Proof. apply sim_quiet; [apply quiet_h_base, quiet_v1_send | apply quiet_control_frame]. Qed.
Lemma sim_sessions : sim (hget (fun w => v_sessions (v1_base w))) (hget v_sessions).
Proof. by apply (sim_get v_sessions (fun d => s_sessions d.1)). Qed.

Hint Resolve sim_ack sim_sessions : sim.
Hint Resolve sim_local local_pending local_source_event local_verify_once local_session local_parse
  local_budget local_name_legacy local_tun : sim.

Ltac sstep :=
  lazymatch goal with
  | |- sim (hbind _ _) (hbind _ _) => apply sim_bind; [|intros ?]
  | |- sim (if ?b then _ else _) _ => destruct b eqn:?
  | |- sim (match ?x with _ => _ end) _ => destruct x eqn:?
  | |- sim _ _ => solve [eauto with sim]
  end.

Lemma sim_ticket sid b ok : sim (v1_ticket hash_one cfg i sid b ok) (rx_ticket hash_one cfg i sid b).
Proof. unfold v1_ticket, rx_ticket. repeat sstep. Qed.

Lemma sim_hint sid t ok : sim (v1_reauth_hint hash_one cfg i sid t ok) (rx_reauth_hint hash_one cfg i sid t).
Proof. unfold v1_reauth_hint, rx_reauth_hint. repeat sstep. Qed.

Lemma sim_gate sid t : sim (v1_auth_gate cfg i sid t) (rx_auth_gate cfg i sid t).
Proof.
  unfold v1_auth_gate, rx_auth_gate. repeat sstep.
Qed.

Lemma sim_admit sid : sim (v1_admit i sid) (rx_admit i sid).
Proof.
  unfold v1_admit, rx_admit. apply sim_bind; [eauto with sim|]. intros ok.
  destruct (negb ok); [apply sim_continue|].
  intros w v w' v' c1 c2 E E1 E2. destruct (decided_fields _ _ E) as (F1 & F2 & _).
  unfold hbind at 1, hget at 1 in E1. unfold hbind at 1, hget at 1 in E2. cbn [id] in E2. rewrite F1 in E1.
  destruct (negb _); [|injection E1 as <- <-; by injection E2 as <- <-].
  unfold hbind at 1, h_base at 1, hrun at 1, v1_session_capacity_available in E1. rewrite F1, F2 in E1.
  destruct (_ <=? _); [injection E1 as <- <-; by injection E2 as <- <-|].
  destruct (_ <=? _); [injection E1 as <- <-; by injection E2 as <- <-|]. cbn [negb] in E1.
  refine (sim_bind _ _ _ _ (sim_local _ (local_source_event NewSession)) _ _ _ _ _ _ _ _ E1 E2).
  - intros r. destruct (negb r); eauto with sim.
  - exact E.
Qed.

Lemma sim_hello sid t ok : sim (v1_hello cfg i sid t ok) (rx_hello cfg i sid t).
Proof.
  unfold v1_hello, rx_hello. repeat sstep. apply sim_local, local_mod. intros x y E.
  agree E. destruct (v_sessions y !! sid); unfold decided, shared in *; cbn; congruence.
Qed.

Lemma sim_require a : sim (v1_require_auth cfg a) (rx_require_auth cfg a).
Proof. unfold v1_require_auth, rx_require_auth. repeat sstep. Qed.

(** The frames after the session entry. *)
Lemma sim_end_leaves m1 m2 :
  leaves (fun w => shared (v1_base w)) m1 -> leaves shared m2 -> sim_end m1 m2.
Proof.
  intros L1 L2 w v w' v' c1 c2 E E1 E2. rewrite (L1 _ _ _ E1), (L2 _ _ _ E2). exact (f_equal fst E).
Qed.
Lemma leaves_quiet {S A} (f : S -> V2) (m : handler S A) : quiet f m -> leaves (fun s => shared (f s)) m.
Proof. intros Q s s' c E. exact (f_equal fst (proj2 (Q _ _ _ E))). Qed.
Lemma leaves_h_base {A T} (f : V2 -> T) (m : H A) : leaves f m -> leaves (fun w => f (v1_base w)) (h_base m).
Proof.
  intros Hm w w' c E. unfold h_base in E. destruct (m (v1_base w)) as [[b d]|] eqn:F; [|discriminate].
  injection E as <- <-. exact (Hm _ _ _ F).
Qed.

Lemma leaves_drop_in r : leaves shared (h_drop_in r).
Proof. exact (leaves_quiet id _ (quiet_drop_in r)). Qed.
Lemma leaves_stat f : leaves shared (stat f).
Proof. exact (leaves_quiet id _ (quiet_stat f)). Qed.
Lemma leaves_v1_drop_in r : leaves (fun w => shared (v1_base w)) (v1_drop_in r).
Proof. apply (leaves_h_base shared), leaves_drop_in. Qed.
Lemma leaves_acquire : leaves shared h_acquire.
Proof. exact (leaves_quiet id _ quiet_acquire). Qed.
Lemma leaves_fill k b : leaves shared (h_fill k b).
Proof. exact (leaves_quiet id _ (quiet_fill k b)). Qed.
Lemma leaves_queue_tx p : leaves shared (h_queue_tx cfg p).
Proof. exact (leaves_quiet id _ (quiet_queue_tx cfg p)). Qed.
Lemma leaves_v1_send a b ok : leaves (fun w => shared (v1_base w)) (h_base (v1_send a b ok)).
Proof. apply (leaves_h_base shared). exact (leaves_quiet id _ (quiet_v1_send a b ok)). Qed.
Lemma leaves_post sid msg : leaves shared (h_post cfg sid msg).
Proof.
  apply leaves_run. intros s s' r E. destruct (shard_for_session _ _); [|discriminate]. cbn [obind] in E.
  destruct (v_shards s !! _); [destruct (try_send _ _ _)|]; by injection E as <- <-.
Qed.
Lemma leaves_release k : leaves shared (h_release k).
Proof. by apply leaves_mod. Qed.
Lemma leaves_event k : leaves (fun w => shared (v1_base w)) (h_base (h_source_event i k)).
Proof.
  apply (leaves_h_base shared), leaves_run. intros s s' a E.
  destruct (allow_source_event _ _ _ _ _) as [[l st] r]. by injection E as <- <-.
Qed.
Lemma leaves_v1_require a : leaves (fun w => shared (v1_base w)) (v1_require_auth cfg a).
Proof. unfold v1_require_auth. lsteps. apply leaves_v1_drop_in. Qed.
Lemma leaves_require a : leaves shared (rx_require_auth cfg a).
Proof. unfold rx_require_auth. lsteps. apply leaves_drop_in. Qed.
Lemma leaves_base_mod g :
  (forall v, shared (g v) = shared v) -> leaves (fun w => shared (v1_base w)) (h_base (hmod g)).
Proof. intros Hg. apply (leaves_h_base shared). by apply leaves_mod. Qed.
Hint Resolve leaves_drop_in leaves_stat leaves_v1_drop_in leaves_acquire leaves_fill leaves_queue_tx
  leaves_v1_send leaves_post leaves_release leaves_event leaves_v1_require leaves_require : handler.

Lemma sim_ping sid a ok : sim_end (v1_ping cfg i sid a ok) (rx_ping cfg i sid a).
Proof.
  apply sim_end_leaves; [unfold v1_ping | unfold rx_ping, h_drop_out, h_pool_exhausted]; lsteps.
  by apply leaves_base_mod.
Qed.
Lemma sim_rtt sid a : sim_end (v1_rtt cfg i sid a) (rx_rtt cfg i sid a).
Proof. apply sim_end_leaves; [unfold v1_rtt | unfold rx_rtt]; lsteps. by apply leaves_base_mod. Qed.
Lemma sim_resolve sid a : sim_end (v1_resolve cfg i sid a) (rx_resolve cfg i sid a).
Proof. apply sim_end_leaves; [unfold v1_resolve | unfold rx_resolve]; lsteps. by apply leaves_base_mod. Qed.
Lemma sim_keepalive sid a : sim_end (v1_keepalive cfg i sid a) (rx_keepalive cfg i sid a).
Proof. apply sim_end_leaves; [unfold v1_keepalive | unfold rx_keepalive]; lsteps. Qed.

Lemma sim_udp sid game payload info :
  sim_end (v1_udp i sid game payload info) (rx_udp cfg i sid game payload info).
Proof.
  apply sim_bind_end; [eauto with sim|]. intros ?. apply sim_end_leaves.
  - cbv zeta. lsteps. apply leaves_run. intros w w' r E. destruct (v1_flow_capacity_available _ _ _ _).
    by injection E as <- <-.
  - unfold h_pool_exhausted. lsteps.
Qed.

Lemma sim_forward sid p : sim_end (v1_forward cfg i sid p) (rx_forward cfg i sid p).
Proof.
  unfold v1_forward, rx_forward.
  destruct p; try (destruct (c_tun_udp_enabled cfg); [|apply sim_udp]); apply sim_sim_end; repeat sstep.
Qed.

Lemma sim_packet sid a : sim_end (v1_packet cfg i sid a) (rx_packet cfg i sid a).
Proof.
  unfold v1_packet, rx_packet. apply sim_bind_end; [apply sim_require|]. intros ?.
  destruct (_ <? _)%nat; [apply sim_sim_end; repeat sstep|].
  apply sim_bind_end; [eauto with sim|]. intros pkt.
  apply sim_bind_end; [eauto with sim|]. intros [p|]; [|apply sim_sim_end; repeat sstep].
  destruct p; try apply sim_forward;
    (apply sim_bind_end; [eauto with sim|]; intros [|]; cbn [negb];
       [apply sim_forward | apply sim_sim_end; repeat sstep]).
Qed.

Lemma sim_frame sid a ok : sim_end (v1_frame cfg i sid a ok) (rx_frame cfg i sid a).
Proof.
  unfold v1_frame, rx_frame. apply sim_bind_end; [eauto with sim|]. intros b.
  destruct (_ && _); [apply sim_ping|]. destruct (_ && _); [apply sim_sim_end; repeat sstep|].
  destruct (_ && _); [apply sim_rtt|]. destruct (_ && _); [apply sim_resolve|].
  destruct (_ =? _)%nat; [apply sim_keepalive | apply sim_packet].
Qed.

Lemma sim_ingress sid : sim (h_base (rx_ingress i sid)) (rx_ingress i sid).
Proof. apply sim_local, local_quiet. by apply quiet_mod. Qed.

(** The whole loop body, at [recv_from]. *)
Lemma sim_rx ok w v w' v' c1 c2 :
  v1_pc w = AtRecv -> decided (v1_base w) = decided v ->
  v1_rx hash_one cfg i ok w = Ret (w', c1) -> rx_step hash_one cfg i v = Ret (v', c2) ->
  shared (v1_base w') = shared v'.
Proof.
  intros Hpc E E1. unfold v1_rx, hbind at 1, hget in E1. rewrite Hpc in E1. revert E E1.
  match goal with |- _ -> ?m w = _ -> _ => enough (sim_end m (rx_step hash_one cfg i)) as Hs end.
  { intros E E1 E2. by eapply Hs. }
  unfold rx_step. apply sim_bind_end; [apply sim_local, local_quiet, quiet_stat|]. intros ?.
  destruct (_ <? _)%nat; [apply sim_sim_end; repeat sstep|].
  apply sim_bind_end; [eauto with sim|]. intros sid.
  apply sim_bind_end; [eauto with sim|]. intros b.
  apply sim_bind_end; [apply sim_ticket|]. intros t.
  apply sim_bind_end; [apply sim_hint|]. intros ?.
  apply sim_bind_end; [apply sim_gate|]. intros ?.
  apply sim_bind_end; [apply sim_admit|]. intros ?.
  apply sim_bind_end; [apply sim_local, local_session|]. intros [authenticated allowed].
  apply sim_bind_end; [apply sim_ingress|]. intros ?.
  destruct (_ && _); [apply sim_sim_end, sim_hello|].
  destruct (negb allowed); [apply sim_sim_end; repeat sstep | apply sim_frame].
Qed.

End Sim.

