(* ===== verification/V1Thms.v ===== *)
(** * Datapath v1: what a run guarantees

    A run is any interleaving of the turns of the receive loop, the flow
    tasks, the response sender, the cleanup and the TUN threads, with any
    datagrams, clock readings and socket results. *)

From Stdlib Require Import String.
From S2P Require Import Prelude Checksum Net Packet TunRewrite TunSession RustStr Tuning DestPolicy Stats Sessions RateLimit AccountBudget Auth Frames Handler V2State V2Rx V2Shard V2Tun V2Inv V2Safe V2Thms V2Auth V1 V1Safe V1Sim.

(** The state [main] starts the loop from, and the channels' capacity.  The
    pool and the queues of the other datapath are not there. *)
Definition no_v2 : RelayV2Tuning := MkTuning 1 0 0 0 0 0 0 0.
Definition v1_start (policy : DestPolicy) (budget : Policy) (tun : bool) (t0 : Z) : V1 :=
  v1_new (v2_new no_v2 policy budget tun t0).
Definition flow_cap (raw : option str) : nat := Z.to_nat (parse_flow_channel_capacity raw).

Lemma flow_cap_pos raw : (0 < flow_cap raw)%nat.
Proof. pose proof (flow_channel_capacity_bounds raw). unfold flow_cap. lia. Qed.

Lemma inv1_new {mode : Counting} cap policy budget tun t0 : inv1 cap (v1_start policy budget tun t0).
Proof.
  split; [by apply inv_new|].
  constructor; cbn -[size]; try (intros ? ? E; by rewrite lookup_empty in E).
  - rewrite map_size_empty. unfold MAX_FLOWS_TOTAL. lia.
  - constructor.
  - constructor.
  - exact I.
Qed.

Lemma v1_turn_loose a : v1_turn_counts a.
Proof. by destruct a. Qed.

Lemma v1_step_returns `{TicketCrypto} hash_one cfg cap w a :
  (0 < cap)%nat -> inv1 cap w -> v1_turn_ok a -> returns (v1_step hash_one cfg cap w a) (inv1 cap).
Proof. intros Hcap Hw Ha. apply v1_turn_returns; [exact Hcap | exact Hw | exact Ha | apply v1_turn_loose]. Qed.

Lemma v1_run_returns `{TicketCrypto} hash_one cfg cap l w :
  (0 < cap)%nat -> inv1 cap w -> Forall v1_turn_ok l -> returns (v1_run hash_one cfg cap w l) (inv1 cap).
Proof.
  intros Hcap. revert w. induction l as [|a l IH]; intros w Hw Hl; cbn [v1_run]; [exact Hw|].
  apply Forall_cons_1 in Hl as [Ha Hl]. apply returns_bind.
  eapply returns_mono; [by apply v1_step_returns|]. intros w' Hw'. by apply IH.
Qed.

(** The receive loop does nothing between the halves of a closing. *)
Definition v1_undisturbed `{TicketCrypto} (hash_one : IpAddr -> Z) (cfg : Config) (cap : nat) (w0 : V1)
  (l : list v1_turn) : Prop :=
  forall l1 i ok l2 w, l = l1 ++ RecvTurn i ok :: l2 -> v1_run hash_one cfg cap w0 l1 = Ret w ->
  v_closing (v1_base w) = None.

Lemma v1_turn_exact `{TicketCrypto} hash_one cfg cap w a :
  (0 < cap)%nat -> inv1 (mode := Exact) cap w -> v1_turn_ok a ->
  (forall i ok, a = RecvTurn i ok -> v_closing (v1_base w) = None) ->
  returns (v1_step hash_one cfg cap w a) (inv1 (mode := Exact) cap).
Proof.
  intros Hcap Hw Ha Hrx. destruct a; try (by apply (v1_turn_returns (mode := Exact))).
  eapply returns_mono.
  - apply (v1_turn_returns (mode := Still) hash_one cfg cap Hcap w (RecvTurn i sent_ok)); [|exact Ha | discriminate].
    destruct Hw as [Hv Hf]. split; [|exact Hf]. apply inv_still. split; [exact Hv | by eapply Hrx].
  - intros w' [Hv' Hf']. apply inv_still in Hv' as [Hv' _]. by split.
Qed.

Lemma v1_run_exact `{TicketCrypto} hash_one cfg cap l w :
  (0 < cap)%nat -> inv1 (mode := Exact) cap w -> Forall v1_turn_ok l -> v1_undisturbed hash_one cfg cap w l ->
  returns (v1_run hash_one cfg cap w l) (inv1 (mode := Exact) cap).
Proof.
  intros Hcap. revert w. induction l as [|a l IH]; intros w Hw Hl Hu; cbn [v1_run]; [exact Hw|].
  apply Forall_cons_1 in Hl as [Ha Hl].
  destruct (returns_inv _ _ (v1_turn_exact hash_one cfg cap w a Hcap Hw Ha
    (fun i ok E => Hu [] i ok l w (f_equal (.:: l) E) eq_refl))) as (w' & E & Hw'). rewrite E. cbn [obind].
  apply IH; [exact Hw' | exact Hl|].
  intros l1 i ok l2 u -> Er. apply (Hu (a :: l1) i ok l2 u); [done|]. cbn [v1_run]. by rewrite E.
Qed.

Lemma v1_run_inv `{TicketCrypto} hash_one cfg raw policy budget tun t0 l :
  Forall v1_turn_ok l ->
  exists w, v1_run hash_one cfg (flow_cap raw) (v1_start policy budget tun t0) l = Ret w
    /\ inv1 (flow_cap raw) w.
Proof. intros Hl. apply returns_inv, v1_run_returns; [apply flow_cap_pos | apply inv1_new | exact Hl]. Qed.

(* ------------------------------------------------------------------ *)
(** ** Flows and tasks *)

(** C18: in every state a run reaches (and no run panics), each entry of the
    flow table has a live task of its own generation, with the entry's key,
    which is the key of the task's session and destination, so a packet is
    never queued to a task that is gone; entries never share a task; the
    table and the channels stay within their limits; and every datagram sent
    to a game server went to a destination outside the forbidden ranges and
    ports. *)
Theorem v1_flow_has_task `{TicketCrypto} hash_one cfg raw policy budget tun t0
  (l : list v1_turn) :
  Forall v1_turn_ok l ->
  exists w, v1_run hash_one cfg (flow_cap raw) (v1_start policy budget tun t0) l = Ret w
    /\ (forall key f, v1_flows w !! key = Some f ->
          exists t, v1_tasks w !! fe_generation f = Some t /\ ft_key t = key
            /\ key = v1_flow_key (ft_session_id t) (ft_game_addr t))
    /\ (forall k1 k2 f1 f2, v1_flows w !! k1 = Some f1 -> v1_flows w !! k2 = Some f2 ->
          fe_generation f1 = fe_generation f2 -> k1 = k2)
    /\ Z.of_nat (size (v1_flows w)) <= MAX_FLOWS_TOTAL
    /\ (forall g t, v1_tasks w !! g = Some t -> (length (ft_queue t) <= flow_cap raw)%nat)
    /\ (forall sid dst port data, (MkKey sid (SockV4 dst port), data) ∈ v1_to_game w ->
          is_forbidden_dst dst = false /\ is_forbidden_dst_port port = false).
Proof.
  intros Hl. destruct (v1_run_inv hash_one cfg raw policy budget tun t0 l Hl) as (w & E & _ & Hw).
  exists w. split; [exact E|]. split; [|split; [|split; [|split]]].
  - intros key f Ef. destruct (fo_flow _ _ Hw _ _ Ef) as (t & Et & Ek). exists t. split; [exact Et|].
    split; [exact Ek|]. rewrite <- Ek. apply (to_key _ _ (proj2 (fo_tasks _ _ Hw _ _ Et))).
  - intros k1 k2 f1 f2 E1 E2 Eg. destruct (fo_flow _ _ Hw _ _ E1) as (t1 & T1 & <-).
    destruct (fo_flow _ _ Hw _ _ E2) as (t2 & T2 & <-). congruence.
  - apply (fo_total _ _ Hw).
  - intros g t Et. apply (to_queue _ _ (proj2 (fo_tasks _ _ Hw _ _ Et))).
  - intros sid dst port data Hin. pose proof (proj1 (list.Forall_forall _ _) (fo_sent _ _ Hw) _ Hin) as Hd.
    by apply orb_false_iff in Hd.
Qed.

(** The accounting of the shared tables is that of the other datapath:
    session table within its limit, gauge equal to its size (plus one while
    the cleanup is between the halves of closing a session), drop totals equal
    to the drop reasons, a source's counter never more than its sessions (plus
    one while the counter is about to be removed) and equal to them as long as
    the receive loop does nothing between the halves of a closing. *)
Theorem v1_accounting `{TicketCrypto} hash_one cfg raw policy budget tun t0
  (l : list v1_turn) :
  let w0 := v1_start policy budget tun t0 in
  Forall v1_turn_ok l ->
  exists w, v1_run hash_one cfg (flow_cap raw) w0 l = Ret w
    /\ let v := v1_base w in
       Z.of_nat (size (v_sessions v)) <= MAX_SESSIONS_TOTAL
       /\ active_sessions (v_stats v) = Z.of_nat (size (v_sessions v)) + closing_count v
       /\ drops_ok (v_stats v)
       /\ (forall ip, source_session_count (v_counts v) ip
                      <= n_sessions (v_sessions v) ip + to_remove (v_closing v) ip)
       /\ (v1_undisturbed hash_one cfg (flow_cap raw) w0 l ->
           forall ip, source_session_count (v_counts v) ip
                      = n_sessions (v_sessions v) ip + to_remove (v_closing v) ip).
Proof.
  intros w0 Hl. destruct (v1_run_inv hash_one cfg raw policy budget tun t0 l Hl) as (w & E & Hv & _).
  exists w. split; [exact E|]. split; [apply (i_size _ _ Hv)|]. split; [apply (i_active _ _ Hv)|].
  split; [apply (i_drops _ _ Hv)|]. split; [apply (ci_le _ _ _ _ (i_counts _ _ Hv))|]. intros Hu.
  pose proof (v1_run_exact hash_one cfg (flow_cap raw) l w0 (flow_cap_pos raw) (inv1_new _ _ _ _ _) Hl Hu) as Hx.
  unfold w0 in Hx. rewrite E in Hx. destruct Hx as [Hx _].
  exact (ci_eq _ _ _ _ (i_counts _ _ Hx) ltac:(discriminate)).
Qed.

(** C21: the two datapaths treat a datagram alike.  From states whose shared
    tables agree, the receive loops of both return, and leave the same
    session table (accounts, leases and addresses included), per-source
    counts, replay cache, pending-source windows, policy counters and account
    budgets. *)
Theorem v1_v2_decide_alike `{TicketCrypto} hash_one cfg cap i ok w v :
  length (buf i) = MAX_PACKET_SIZE -> (len i <= MAX_PACKET_SIZE)%nat -> bytes_ok (buf i) ->
  inv1 cap w -> inv [] v -> v1_pc w = AtRecv -> decided (v1_base w) = decided v ->
  exists w' c1 v' c2, v1_rx hash_one cfg i ok w = Ret (w', c1) /\ rx_step hash_one cfg i v = Ret (v', c2)
    /\ shared (v1_base w') = shared v'.
Proof.
  intros H1 H2 H3 Hw Hv Hpc E.
  destruct (wp_inv _ _ _ (v1_rx_safe hash_one cfg cap i (ltac:(discriminate) : Loose <> Exact) H1 H2 H3 ok w Hw)) as (w' & c1 & E1 & _).
  destruct (wp_inv _ _ _ (keeps_rx_step hash_one cfg i (ltac:(discriminate) : Loose <> Exact) H1 H2 H3 v Hv)) as (v' & c2 & E2 & _).
  exists w', c1, v', c2. split; [exact E1|]. split; [exact E2|]. by eapply sim_rx.
Qed.

(* ------------------------------------------------------------------ *)
(** ** Where responses go *)

Definition owners1 (w : V1) : gmap (list Z) Owner := owners (v1_base w).

Lemma owners1_base {A} (m : H A) : leaves owners m -> leaves owners1 (h_base m).
Proof. apply leaves_h_base. Qed.
Lemma owners1_flows f : (forall w, v1_base (f w) = v1_base w) -> leaves owners1 (hmod f).
Proof. intros Hf. apply leaves_mod. intros w. unfold owners1. by rewrite Hf. Qed.
Lemma owners1_exit g t : leaves owners1 (task_exit g t).
Proof. apply owners1_flows. intros w. apply remove_v1_flow_other. Qed.
Lemma owners1_set g t : leaves owners1 (set_task g t).
Proof. by apply owners1_flows. Qed.
Lemma owners1_drop_in r : leaves owners1 (v1_drop_in r).
Proof. apply owners1_base, owners_drop_in. Qed.
#[local] Hint Resolve owners1_exit owners1_set owners1_drop_in : handler.

Lemma owners1_entry cap t : leaves owners1 (v1_entry cap t).
Proof.
  unfold v1_entry. lsteps. apply owners1_flows. intros ?. apply remove_v1_flow_other.
Qed.
Lemma owners1_publish : leaves owners1 v1_publish.
Proof. unfold v1_publish. lsteps. Qed.
Lemma owners1_start g b c : leaves owners1 (task_start g b c).
Proof. unfold task_start. cbv zeta. lsteps. Qed.
Lemma owners1_send g s : leaves owners1 (task_send g s).
Proof. unfold task_send. cbv zeta. lsteps. Qed.
Lemma owners1_idle g : leaves owners1 (task_idle g).
Proof. unfold task_idle. lsteps. Qed.
Lemma owners1_recv g r t tu : leaves owners1 (task_recv g r t tu).
Proof.
  unfold task_recv, task_response. cbv zeta. lsteps.
  apply owners1_base, leaves_mod. intros s. apply omap_owner_alter. by intros e.
Qed.
Lemma owners1_response cfg ok tu mono : leaves owners1 (v1_response cfg ok tu mono).
Proof.
  unfold v1_response. lsteps; apply owners1_base; try apply owners_budget; try apply owners_drop_out.
  - unfold v1_send. lsteps.
  - by apply leaves_mod.
Qed.

(** The cleanup only removes owners. *)
Lemma owners_v1_finish : leaves owners v1_cleanup_finish.
Proof. unfold v1_cleanup_finish. lsteps. apply owners_close_finish. Qed.

Lemma owners_v1_cleanup v t sids : owns_less v (v1_cleanup_finish ;! v1_cleanup_sessions t sids).
Proof.
  assert (owns_less v v1_cleanup_finish) as Hfin.
  { apply (leaves_ends owners (fun x => x ⊆ owners v)), owners_v1_finish. }
  eapply ends_bind; [apply Hfin|]. intros ?.
  induction sids as [|sid sids IH]; cbn [v1_cleanup_sessions]; [by apply ends_ret|].
  eapply ends_bind; [|intros ?; exact IH]. unfold v1_cleanup_session.
  eapply ends_bind; [apply owners_close_begin | intros ?; apply Hfin].
Qed.

Lemma owners1_less A (m : H A) w w' c :
  (forall v, owns_less v m) -> h_base m w = Ret (w', c) -> owners1 w' ⊆ owners1 w.
Proof.
  intros Hm E. unfold h_base in E. destruct (m (v1_base w)) as [[b d]|] eqn:F; [|discriminate].
  injection E as <- <-. exact (owns_less_step _ _ _ _ _ (Hm _) F).
Qed.

Lemma owners1_sweep t w w' c : v1_sweep_turn t w = Ret (w', c) -> owners1 w' ⊆ owners1 w.
Proof.
  unfold v1_sweep_turn, hbind at 1, hget at 1.
  destruct (v1_sweep w) as [[tm [| | |]]|]; try (by intros [= <- <-]).
  unfold hbind at 1, hmod at 1. unfold hbind at 1, hget at 1. intros E.
  refine (owners1_less _ _ (w <| v1_sweep := _ |>) w' c _ E). intros v. apply owners_v1_cleanup.
Qed.

(** The datagrams of a run. *)
Definition v1_datagrams (l : list v1_turn) : list turn :=
  omap (fun a => match a with RecvTurn i _ => Some (TurnRx i) | _ => None end) l.

(** The other loop on the same datagram, for [sim_rx]. *)
Lemma v1_v2_rx `{TicketCrypto} hash_one cfg cap i w :
  length (buf i) = MAX_PACKET_SIZE -> (len i <= MAX_PACKET_SIZE)%nat -> bytes_ok (buf i) ->
  inv1 cap w -> exists v' c, rx_step hash_one cfg i (v1_base w) = Ret (v', c).
Proof.
  intros H1 H2 H3 [Hv _].
  destruct (wp_inv _ _ _ (keeps_rx_step hash_one cfg i (ltac:(discriminate) : Loose <> Exact) H1 H2 H3 _ Hv)) as (v' & c & E & _). eauto.
Qed.
Lemma turn_of `{TicketCrypto} hash_one cfg i v v' c :
  rx_step hash_one cfg i v = Ret (v', c) -> v2_turn hash_one cfg v (TurnRx i) = Ret v'.
Proof. intros E. unfold v2_turn. cbn [turn_handler]. by rewrite E. Qed.

Lemma v1_step_owners `{TicketCrypto} hash_one cfg cap a w w' sid o :
  auth_needed cfg = true -> v1_turn_ok a -> inv1 cap w ->
  v1_step hash_one cfg cap w a = Ret w' ->
  owners1 w' !! sid = Some o -> owners1 w !! sid = Some o \/ ticketed cfg (v1_datagrams [a]) sid o.
Proof.
  intros Ha Hok Hw E Ho. apply obind_inv in E as ([w0 c] & E & [= <-]).
  assert (leaves owners1 (v1_handler hash_one cfg cap a) -> owners1 w !! sid = Some o) as Hl.
  { intros Hl. by rewrite <- (Hl _ _ _ E). }
  destruct a; cbn [v1_handler] in *.
  - destruct Hok as (H1 & H2 & H3). destruct (v1_pc w) eqn:Epc.
    2-3: left; unfold v1_rx, hbind at 1, hget in E; rewrite Epc in E; by injection E as <- <-.
    destruct (v1_v2_rx hash_one cfg cap i w H1 H2 H3 Hw) as (v' & c2 & E2).
    pose proof (sim_rx hash_one cfg i sent_ok w (v1_base w) _ _ _ _ Epc eq_refl E E2) as Hsh.
    assert (owners1 w0 = owners v') as Eo by (unfold owners1, owners; by rewrite (f_equal s_sessions Hsh : v_sessions _ = v_sessions _)).
    rewrite Eo in Ho.
    exact (turn_owners hash_one cfg (TurnRx i) (v1_base w) v' sid o Ha (turn_of hash_one cfg i _ _ _ E2) Ho).
  - left. apply Hl, owners1_entry.
  - left. apply Hl, owners1_publish.
  - left. apply Hl, owners1_start.
  - left. apply Hl, owners1_send.
  - left. apply Hl, owners1_recv.
  - left. apply Hl, owners1_idle.
  - left. apply Hl, owners1_response.
  - left. eapply lookup_weaken; [exact Ho | exact (owners1_sweep _ _ _ _ E)].
  - left. eapply lookup_weaken; [exact Ho|]. eapply owners1_less; [|exact E]. intros v. apply owners_close_begin.
  - left. apply Hl, owners1_base, owners_v1_finish.
  - left. apply Hl, owners1_base. by apply leaves_mod.
  - left. apply Hl, owners1_base, owners_tun_assign.
  - left. apply Hl, owners1_base, owners_tun_commit.
  - left. apply Hl, owners1_base, owners_tun_read.
  - left. apply Hl, owners1_base, owners_tun_resp.
  - left. apply Hl, owners1_base, owners_resolve.
  - left. apply Hl, owners1_base. by apply leaves_mod.
Qed.

Lemma ticketed_mono `{TicketCrypto} cfg l1 l2 sid o :
  (forall a, a ∈ l1 -> a ∈ l2) -> ticketed cfg l1 sid o -> ticketed cfg l2 sid o.
Proof. intros Hs (i & token & t & Hin & Hr). exists i, token, t. split; [by apply Hs | exact Hr]. Qed.

Lemma v1_run_owners `{TicketCrypto} hash_one cfg cap l w w' sid o :
  (0 < cap)%nat -> auth_needed cfg = true -> Forall v1_turn_ok l -> inv1 cap w ->
  v1_run hash_one cfg cap w l = Ret w' ->
  owners1 w' !! sid = Some o -> owners1 w !! sid = Some o \/ ticketed cfg (v1_datagrams l) sid o.
Proof.
  intros Hcap Ha. revert w. induction l as [|a l IH]; intros w Hl Hw E Ho; [left; by injection E as ->|].
  apply Forall_cons_1 in Hl as [Hok Hl]. cbn [v1_run] in E. apply obind_inv in E as (w0 & Ew & E).
  assert (inv1 cap w0) as Hw0.
  { pose proof (v1_step_returns hash_one cfg cap w a Hcap Hw Hok) as Hr. rewrite Ew in Hr. exact Hr. }
  destruct (IH w0 Hl Hw0 E Ho) as [H1|Ht].
  - destruct (v1_step_owners hash_one cfg cap a w w0 sid o Ha Hok Hw Ew H1) as [H2|Ht]; [by left|].
    right. eapply ticketed_mono; [|exact Ht]. intros b Hb. unfold v1_datagrams in *.
    destruct a; cbn in *; try (by apply elem_of_nil in Hb). apply list_elem_of_singleton in Hb as ->. by left.
  - right. eapply ticketed_mono; [|exact Ht]. intros b Hb. unfold v1_datagrams in *.
    destruct a; cbn; try exact Hb. by right.
Qed.

(** What the response sender appends to the log of sent frames. *)
Lemma v1_response_sends cfg ok tu mono w w' c :
  v1_response cfg ok tu mono w = Ret (w', c) ->
  v_sent (v1_base w') = v_sent (v1_base w)
  \/ exists hint sid data addr, head (v1_responses w) = Some (hint, sid, data)
       /\ forwarding_addr (v_sessions (v1_base w)) sid (auth_needed cfg) tu = Some addr
       /\ v_sent (v1_base w') = v_sent (v1_base w) ++ [(addr, data)].
Proof.
  unfold v1_response. cbn. destruct (v1_responses w) as [|[[hint sid] data] rest] eqn:Er.
  { intros [= <- <-]. by left. }
  cbn. destruct (forwarding_addr _ _ _ _) as [addr|] eqn:Ef; [|intros [= <- <-]; by left].
  unfold hbind at 1, hlift. destruct (slice data SESSION_ID_LEN (length data)) as [pkt|]; [|discriminate].
  unfold hbind at 1, h_base at 1.
  destruct (h_budget _ _ _ _ _) as [[b [okb|]]|] eqn:Eb; [| |discriminate].
  2: { intros [= <- <-]. left. exact (f_equal fst (sent_budget _ _ _ _ _ _ _ Eb)). }
  apply sent_budget in Eb. assert (v_sent b = v_sent (v1_base w)) as Hw by exact (f_equal fst Eb).
  destruct okb; cbn [negb]; [|intros [= <- <-]; by left].
  destruct ok; intros [= <- <-]; [right|by left].
  exists hint, sid, data, addr. cbn. rewrite Hw. by repeat split.
Qed.

(** An address the session table gives out presented a ticket. *)
Lemma v1_forwarding_ticketed `{TicketCrypto} hash_one cfg raw policy budget tun t0 (l : list v1_turn) w sid tu a :
  auth_needed cfg = true -> Forall v1_turn_ok l ->
  v1_run hash_one cfg (flow_cap raw) (v1_start policy budget tun t0) l = Ret w ->
  forwarding_addr (v_sessions (v1_base w)) sid true tu = Some a ->
  ticket_holder cfg (v1_datagrams l) sid tu a.
Proof.
  intros Ha Hl Hrun Hfwd.
  destruct (forwarding_addr_inv _ _ _ _ _ Hfwd) as (e & Es & Ec & Hlease & Hauth).
  destruct (Hauth eq_refl) as [Hst [exp Hexp]].
  apply (owner_holds cfg (v1_datagrams l) sid tu a exp (user_id e)); [by apply Hlease|].
  destruct (v1_run_owners hash_one cfg (flow_cap raw) l _ w sid (MkOwner (user_id e) (Some exp) a)
              (flow_cap_pos raw) Ha Hl (inv1_new _ _ _ _ _) Hrun) as [Hnone|Ht]; [| |exact Ht].
  - unfold owners1. rewrite owners_lookup, Es. cbn. unfold owner. rewrite Hst, Hexp, Ec. reflexivity.
  - unfold owners1 in Hnone. rewrite owners_lookup in Hnone. discriminate.
Qed.

(** Who receives game data from the flow tasks.  With authentication on,
    in every state a run reaches, whatever the response sender sends is the
    oldest queued response, and it goes not to the address the flow task
    recorded but to one from which a hello frame of this run presented a
    ticket that verified for the response's session, and whose lease has not
    expired. *)
Theorem v1_data_goes_to_ticket_holder `{TicketCrypto} hash_one cfg raw policy budget tun t0
  (l : list v1_turn) w ok tu mono w' c addr frame :
  auth_needed cfg = true -> Forall v1_turn_ok l ->
  v1_run hash_one cfg (flow_cap raw) (v1_start policy budget tun t0) l = Ret w ->
  v1_response cfg ok tu mono w = Ret (w', c) ->
  v_sent (v1_base w') = v_sent (v1_base w) ++ [(addr, frame)] ->
  exists hint sid, head (v1_responses w) = Some (hint, sid, frame)
    /\ ticket_holder cfg (v1_datagrams l) sid tu addr.
Proof.
  intros Ha Hl Hrun E Hs.
  destruct (v1_response_sends _ _ _ _ _ _ _ E) as [Hn|(hint & sid & data & a & Hr & Hfwd & Hs')].
  { rewrite Hn in Hs. by apply sent_grows in Hs. }
  rewrite Hs in Hs'. apply app_inj_2 in Hs' as [_ [= -> ->]]; [|done].
  exists hint, sid. split; [exact Hr|]. rewrite Ha in Hfwd. by eapply v1_forwarding_ticketed.
Qed.

(* ------------------------------------------------------------------ *)
(** ** Witnesses *)

Section Witnesses.
#[local] Existing Instance toy_crypto.

Lemma toy_datagram_ok frame t ok :
  (length frame <= MAX_PACKET_SIZE)%nat -> forallb (fun b => (0 <=? b) && (b <? 256)) frame = true ->
  v1_turn_ok (RecvTurn (toy_rx frame t) ok).
Proof.
  intros Hl Hb. cbn [v1_turn_ok toy_rx buf len]. unfold pad. rewrite length_app, length_replicate.
  split; [lia|]. split; [exact Hl|]. apply Forall_app_2.
  - apply list.Forall_forall. intros b Hin. rewrite forallb_forall in Hb.
    specialize (Hb b (proj1 (list_elem_of_In _ _) Hin)). unfold in_width.
    apply andb_true_iff in Hb as [H1%Z.leb_le H2%Z.ltb_lt]. lia.
  - apply Forall_replicate. unfold in_width. lia.
Qed.

(** Hello, a packet for the game on a new flow, and the game's answer. *)
Definition toy_v1_turns : list v1_turn :=
  [RecvTurn (toy_rx toy_hello 0) true; RecvTurn (toy_rx (toy_sid ++ sample_udp) 2) true;
   EntryTurn 3; PublishTurn; TaskStartTurn 0 true true; TaskSendTurn 0 (Ok tt);
   TaskRecvTurn 0 (Ok [7; 7]) 4 1204].

Lemma toy_v1_turns_ok : Forall v1_turn_ok toy_v1_turns.
Proof.
  pose proof max_packet_size.
  repeat apply List.Forall_cons; try apply List.Forall_nil; try exact I;
    (apply toy_datagram_ok; [|vm_compute; reflexivity]);
    match goal with |- (?n <= _)%nat => let k := eval vm_compute in n in change n with k end; lia.
Qed.

Definition toy_v1_start : V1 := v1_start toy_policy toy_budget false 0.
Definition toy_v1_end : V1 :=
  match v1_run toy_hash toy_cfg (flow_cap None) toy_v1_start toy_v1_turns with
  | Ret w => w | Panic => toy_v1_start end.

Lemma v1_flow_has_task_witness :
  exists w, v1_run toy_hash toy_cfg (flow_cap None) toy_v1_start toy_v1_turns = Ret w
    /\ (forall key f, v1_flows w !! key = Some f ->
          exists t, v1_tasks w !! fe_generation f = Some t /\ ft_key t = key
            /\ key = v1_flow_key (ft_session_id t) (ft_game_addr t))
    /\ (forall k1 k2 f1 f2, v1_flows w !! k1 = Some f1 -> v1_flows w !! k2 = Some f2 ->
          fe_generation f1 = fe_generation f2 -> k1 = k2)
    /\ Z.of_nat (size (v1_flows w)) <= MAX_FLOWS_TOTAL
    /\ (forall g t, v1_tasks w !! g = Some t -> (length (ft_queue t) <= flow_cap None)%nat)
    /\ (forall sid dst port data, (MkKey sid (SockV4 dst port), data) ∈ v1_to_game w ->
          is_forbidden_dst dst = false /\ is_forbidden_dst_port port = false).
Proof.
  apply (v1_flow_has_task toy_hash toy_cfg None toy_policy toy_budget false 0). exact toy_v1_turns_ok.
Defined.

Lemma v1_accounting_witness :
  exists w, v1_run toy_hash toy_cfg (flow_cap None) toy_v1_start toy_v1_turns = Ret w
    /\ let v := v1_base w in
       Z.of_nat (size (v_sessions v)) <= MAX_SESSIONS_TOTAL
       /\ active_sessions (v_stats v) = Z.of_nat (size (v_sessions v)) + closing_count v
       /\ drops_ok (v_stats v)
       /\ (forall ip, source_session_count (v_counts v) ip
                      <= n_sessions (v_sessions v) ip + to_remove (v_closing v) ip).
Proof.
  destruct (v1_accounting toy_hash toy_cfg None toy_policy toy_budget false 0 toy_v1_turns toy_v1_turns_ok)
    as (w & E & H1 & H2 & H3 & H4 & _).
  exists w. by repeat split.
Defined.

Lemma v1_v2_decide_alike_witness :
  exists w' c1 v' c2, v1_rx toy_hash toy_cfg (toy_rx toy_hello 0) true toy_v1_start = Ret (w', c1)
    /\ rx_step toy_hash toy_cfg (toy_rx toy_hello 0) (v1_base toy_v1_start) = Ret (v', c2)
    /\ shared (v1_base w') = shared v'.
Proof.
  destruct (proj1 (Forall_cons_1 _ _ _ toy_v1_turns_ok)) as (H1 & H2 & H3).
  apply (v1_v2_decide_alike toy_hash toy_cfg (flow_cap None) (toy_rx toy_hello 0) true toy_v1_start
    (v1_base toy_v1_start) H1 H2 H3); [apply inv1_new | by apply inv_new | reflexivity | reflexivity].
Defined.

Definition after1 (m : H1 unit) (w : V1) : V1 :=
  match m w with Ret (w, _) => w | Panic => w end.
Lemma ended1 (m : H1 unit) w :
  match m w with Ret (_, Next _) => true | _ => false end = true -> m w = Ret (after1 m w, Next tt).
Proof. unfold after1. destruct (m w) as [[w' [[]|]]|]; done. Qed.

Definition toy_v1_frame : list Z :=
  match v_sent (v1_base (after1 (v1_response toy_cfg true 1205 5) toy_v1_end)) with
  | [_; (_, f)] => f | _ => [] end.

Lemma v1_data_goes_to_ticket_holder_witness :
  length toy_v1_frame = 38%nat
  /\ exists hint sid, head (v1_responses toy_v1_end) = Some (hint, sid, toy_v1_frame)
    /\ ticket_holder toy_cfg (v1_datagrams toy_v1_turns) sid 1205 toy_client.
Proof.
  split; [vm_compute; reflexivity|].
  apply (v1_data_goes_to_ticket_holder toy_hash toy_cfg None toy_policy toy_budget false 0
    toy_v1_turns toy_v1_end true 1205 5 (after1 (v1_response toy_cfg true 1205 5) toy_v1_end) (Next tt)).
  - reflexivity.
  - exact toy_v1_turns_ok.
  - apply returned. vm_compute. reflexivity.
  - apply ended1. vm_compute. reflexivity.
  - vm_compute. reflexivity.
Defined.

End Witnesses.
