(* ===== verification/V1Live.v ===== *)
(** * Datapath v1: a task whose flow is gone ends

    Once the flow table has lost a flow's entry, no turn of anything gives the
    task new packets: it drains its channel and returns. *)

From S2P Require Import Prelude Checksum Net Packet TunRewrite TunSession RustStr Tuning DestPolicy Stats Sessions RateLimit AccountBudget Auth Frames Handler V2State V2Rx V2Shard V2Tun V2Inv V2Safe V2Thms V2Auth V1 V1Safe V1Sim V1Thms.

(** No entry of the flow table has generation [g], and none will. *)
Definition orphaned (g : nat) (w : V1) : Prop :=
  (g < v1_next w)%nat /\ forall key f, v1_flows w !! key = Some f -> fe_generation f <> g.

(** From [w] to [w'] the task [g] is not new, keeps running if it is still
    there, and its channel lost at least [d] packets. *)
Definition drains (g d : nat) (w w' : V1) : Prop :=
  orphaned g w' /\
  forall t', v1_tasks w' !! g = Some t' ->
  exists t, v1_tasks w !! g = Some t
    /\ (running t = true -> running t' = true /\ (length (ft_queue t') + d <= length (ft_queue t))%nat).

(** The flow tables as far as tasks are concerned. *)
Definition task_view (w : V1) : gmap nat FlowTask * nat * gmap str nat :=
  (v1_tasks w, v1_next w, fe_generation <$> v1_flows w).

Lemma drains_view g w w' : task_view w' = task_view w -> orphaned g w -> drains g 0 w w'.
Proof.
  intros [= Et En Ef] [Hn Hf]. rewrite <- En in Hn. split; [split; [exact Hn|]|].
  - intros key f E. assert ((fe_generation <$> v1_flows w) !! key = Some (fe_generation f)) as Eg.
    { by rewrite <- Ef, lookup_fmap, E. }
    rewrite lookup_fmap in Eg. destruct (v1_flows w !! key) as [f0|] eqn:E0; [|discriminate].
    injection Eg as <-. eauto.
  - intros t' E. rewrite Et in E. exists t'. split; [done|]. split; [done | lia].
Qed.

Lemma drains_flows g w m :
  refreshed (v1_flows w) m -> orphaned g w -> forall w', v1_tasks w' = v1_tasks w ->
  v1_next w' = v1_next w -> v1_flows w' = m -> drains g 0 w w'.
Proof.
  intros Hr [Hn Hf] w' Et En Ef. split; [split; [by rewrite En|]|].
  - intros key f E. rewrite Ef in E. destruct (Hr _ _ E) as (f0 & E0 & <-). eauto.
  - intros t' E. rewrite Et in E. exists t'. split; [done|]. split; [done | lia].
Qed.

Lemma remove_next sid key g w : v1_next (remove_v1_flow sid key g w) = v1_next w.
Proof. unfold remove_v1_flow. repeat case_match; done. Qed.

Lemma orphaned_remove g sid key g' w : orphaned g w -> orphaned g (remove_v1_flow sid key g' w).
Proof.
  intros [Hn Hf]. split; [by rewrite remove_next|]. intros k f E.
  apply (Hf k). by apply (remove_v1_flow_other sid key g' w).
Qed.

(** A task that ends, and one that is replaced. *)
Lemma drains_exit g g' t d w :
  orphaned g w -> (g <> g' -> d = 0%nat) ->
  drains g d w ((remove_v1_flow (ft_session_id t) (ft_key t) g' w) <| v1_tasks ::= delete g' |>).
Proof.
  intros Ho Hd. destruct (remove_v1_flow_other (ft_session_id t) (ft_key t) g' w) as (_ & Et & _).
  pose proof (orphaned_remove g (ft_session_id t) (ft_key t) g' w Ho) as Hr. split; [exact Hr|].
  cbn. rewrite Et. intros t' [Hne E]%lookup_delete_Some. rewrite Hd by done.
  exists t'. split; [done|]. split; [done | lia].
Qed.

Lemma drains_set g g' t t' d w :
  orphaned g w -> v1_tasks w !! g' = Some t ->
  (g = g' -> running t = true -> running t' = true /\ (length (ft_queue t') + d <= length (ft_queue t))%nat) ->
  (g <> g' -> d = 0%nat) -> drains g d w (w <| v1_tasks ::= <[g' := t']> |>).
Proof.
  intros Ho Et Hg Hd. split; [exact Ho|]. cbn. intros x E. destruct (decide (g = g')) as [->|Hne].
  - rewrite lookup_insert_eq in E. injection E as <-. exists t. auto.
  - rewrite lookup_insert_ne in E by done. rewrite Hd by done. exists x. split; [done|]. split; [done | lia].
Qed.

Section Live.
Context `{TicketCrypto} (hash_one : IpAddr -> Z) (cfg : Config) (cap : nat).

(* ------------------------------------------------------------------ *)
(** ** Turns that leave the tasks alone *)

Lemma view_base {A} (m : H A) : leaves task_view (h_base m).
Proof.
  intros w w' c E. unfold h_base in E. destruct (m (v1_base w)) as [[b d]|]; [|discriminate].
  by injection E as <- <-.
Qed.
Lemma view_v1_drop r : leaves task_view (v1_drop_in r).
Proof. apply view_base. Qed.
Lemma view_v1_ack i sid st ok : leaves task_view (v1_ack i sid st ok).
Proof. apply view_base. Qed.
Lemma view_v1_session i sid b : leaves task_view (v1_session cfg i sid b).
Proof. apply view_base. Qed.
Hint Resolve view_base view_v1_drop view_v1_ack view_v1_session : handler.
Lemma view_v1_gate i sid t : leaves task_view (v1_auth_gate cfg i sid t).
Proof. unfold v1_auth_gate. lsteps. Qed.
Hint Resolve view_v1_gate : handler.

Lemma view_v1_require a : leaves task_view (v1_require_auth cfg a).
Proof. unfold v1_require_auth. lsteps. Qed.
Hint Resolve view_v1_require : handler.

Lemma fold_alter_generations (f : FlowEntry -> FlowEntry) (keys : list str) (m : gmap str FlowEntry) :
  (forall x, fe_generation (f x) = fe_generation x) ->
  fe_generation <$> fold_left (fun m key => alter f key m) keys m = fe_generation <$> m.
Proof.
  intros Hf. revert m. induction keys as [|k keys IH]; intros m; cbn [fold_left]; [done|].
  rewrite IH. apply map_eq. intros k'. rewrite !lookup_fmap. destruct (decide (k' = k)) as [->|Hne].
  - rewrite lookup_alter_eq. destruct (m !! k); cbn; [by rewrite Hf | done].
  - by rewrite lookup_alter_ne.
Qed.

Lemma view_v1_keepalive i sid a : leaves task_view (v1_keepalive cfg i sid a).
Proof.
  unfold v1_keepalive. apply leaves_bind; [apply view_v1_require | intros ?].
  apply leaves_bind; [|intros ?; lstep]. apply leaves_mod. intros w.
  exact (f_equal (fun m => (v1_tasks w, v1_next w, m))
           (fold_alter_generations (fun f : FlowEntry => f <| fe_last_activity := now i |> <| fe_client_addr := from i |>)
              _ _ ltac:(done))).
Qed.

Lemma view_v1_udp i sid game payload info : leaves task_view (v1_udp i sid game payload info).
Proof.
  unfold v1_udp. cbv zeta. lsteps. apply leaves_run. intros w w' r E.
  destruct (v1_flow_capacity_available _ _ _ _). by injection E as <- <-.
Qed.
Hint Resolve view_v1_keepalive view_v1_udp : handler.

Lemma view_v1_rx i ok : leaves task_view (v1_rx hash_one cfg i ok).
Proof.
  unfold v1_rx, v1_ticket, v1_reauth_hint, v1_admit, v1_hello, v1_frame, v1_ping, v1_rtt, v1_resolve,
    v1_packet, v1_forward. cbv zeta. lsteps.
Qed.

Lemma view_v1_response ok tu mono : leaves task_view (v1_response cfg ok tu mono).
Proof. unfold v1_response. lsteps. Qed.

(* ------------------------------------------------------------------ *)
(** ** The turns of the flow tables *)

Lemma drains_same g w : orphaned g w -> drains g 0 w w.
Proof. by apply drains_view. Qed.

Lemma drains_pre g d w0 w w' : v1_tasks w0 = v1_tasks w -> drains g d w0 w' -> drains g d w w'.
Proof. intros E [Ho Hd]. split; [exact Ho|]. by rewrite <- E. Qed.

Lemma entry_drains g t w w' c :
  inv1 cap w -> orphaned g w -> v1_entry cap t w = Ret (w', c) -> drains g 0 w w'.
Proof.
  intros [_ Hw] Ho. unfold v1_entry, hbind at 1, hget.
  destruct (v1_pc w) as [|sid addr key new_flow game payload info|]; try (intros [= <- <-]; by apply drains_same).
  unfold hbind, hmod, hget. cbn. destruct Ho as [Hn Hf].
  destruct (v1_flows w !! key) as [f|] eqn:Ef.
  - destruct (fo_flow _ _ Hw _ _ Ef) as (task & Et & _). cbn. rewrite Et. pose proof (Hf _ _ Ef) as Hg.
    assert (orphaned g (w <| v1_pc := AtRecv |>)) as Ho by by split.
    assert (refreshed (v1_flows w) (<[key := f <| fe_last_activity := t |> <| fe_client_addr := addr |>
                 <| fe_original_info := info |> <| fe_marked_for_removal := None |>]> (v1_flows w))) as Hr.
    { intros k x [[<- <-]|[_ E]]%lookup_insert_Some; eauto. }
    destruct (try_send cap (ft_queue task) payload); intros [= <- <-]; (split; [split; [exact Hn|]|]); cbn.
    1, 3: intros k x E; destruct (Hr _ _ E) as (f0 & E0 & <-); eauto.
    + intros t'. rewrite lookup_insert_ne by done. intros E. exists t'. split; [done|]. split; [done | lia].
    + intros t' E. exists t'. split; [done|]. split; [done | lia].
  - destruct new_flow; cbn; [|intros [= <- <-]; by apply drains_view].
    destruct (cap =? 0)%nat; [discriminate|].
    destruct (try_send cap [] payload); rewrite ?bool_decide_eq_true_2 by eauto;
      rewrite ?bool_decide_eq_false_2 by (by intros []); intros [= <- <-]; (split; [split; [cbn; lia|]|]); cbn.
    1, 3: intros k x [[_ <-]|[_ E]]%lookup_insert_Some; cbn; [lia | eauto].
    all: intros t'; rewrite lookup_insert_ne by lia; intros E; exists t'; split; [done|]; split; [done | lia].
Qed.

Lemma publish_drains g w w' c :
  inv1 cap w -> orphaned g w -> v1_publish w = Ret (w', c) -> drains g 0 w w'.
Proof.
  intros [_ Hw] Ho. unfold v1_publish, hbind at 1, hget. pose proof (fo_pc _ _ Hw) as Hpc. unfold pc_ok in Hpc.
  destruct (v1_pc w) as [| |sid key g']; try (intros [= <- <-]; by apply drains_same).
  destruct Hpc as (t0 & E0 & _ & _ & P0). intros [= <- <-]. split; [exact Ho|]. cbn. intros t'.
  destruct (decide (g' = g)) as [->|Hne].
  - rewrite lookup_alter_eq, E0. intros [= <-]. exists t0. split; [done|]. unfold running. by rewrite P0.
  - rewrite lookup_alter_ne by done. intros E. exists t'. split; [done|]. split; [done | lia].
Qed.

Lemma start_drains g g' b c w w' e :
  orphaned g w -> task_start g' b c w = Ret (w', e) -> drains g 0 w w'.
Proof.
  intros Ho. unfold task_start, hbind at 1, hget. cbn [id].
  destruct (v1_tasks w !! g') as [t|] eqn:Et; [|intros [= <- <-]; by apply drains_same].
  destruct (ft_phase t) eqn:Ep; try (intros [= <- <-]; by apply drains_same).
  destruct (match sock_ip (ft_game_addr t) with V4 _ => _ | V6 _ => _ end).
  { intros [= <- <-].
    set (w0 := w <| v1_base ::= fun v => v <| v_stats ::= fun s => drop_in s Stats.ForbiddenDst |> |>).
    apply (drains_pre g 0 w0 w); [reflexivity|]. exact (drains_exit g g' t 0 w0 Ho ltac:(done)). }
  destruct b; cbn [negb]; [|intros [= <- <-]; by apply drains_exit].
  destruct c; cbn [negb]; [|intros [= <- <-]; by apply drains_exit].
  intros [= <- <-]. apply (drains_set g g' t); [done..| |done]. intros _ Hr. split; [done | cbn; lia].
Qed.

Lemma send_drains g g' s w w' c :
  orphaned g w -> task_send g' s w = Ret (w', c) ->
  (forall t, v1_tasks w !! g = Some t -> running t = true) ->
  drains g (if decide (g' = g) then 1 else 0) w w'.
Proof.
  intros Ho E Hrun. revert E. unfold task_send, hbind at 1, hget. cbn [id].
  destruct (v1_tasks w !! g') as [t|] eqn:Et.
  2: { intros [= <- <-]. split; [exact Ho|]. intros t' E. destruct (decide _) as [->|]; [congruence|].
       exists t'. split; [done|]. split; [done | lia]. }
  assert (g <> g' -> (if decide (g' = g) then 1 else 0)%nat = 0%nat) as Hd by (by intros; rewrite decide_False).
  assert (ft_phase t <> Running -> drains g (if decide (g' = g) then 1 else 0) w w) as Hsame.
  { intros Hp. split; [exact Ho|]. intros t' E. destruct (decide _) as [->|].
    - specialize (Hrun _ E). assert (t' = t) as -> by congruence. unfold running in Hrun.
      by destruct (ft_phase t).
    - exists t'. split; [done|]. split; [done | lia]. }
  destruct (ft_phase t) eqn:Ep; try (intros [= <- <-]; by apply Hsame). clear Hsame.
  destruct (ft_queue t) as [|data rest] eqn:Eq.
  - unfold flow_of. destruct (v1_flows w !! ft_key t) as [f|] eqn:Ef; [case_bool_decide as Hg|];
      intros [= <- <-]; try (by apply drains_exit).
    rewrite decide_False; [by apply drains_same|]. intros ->. destruct Ho as [_ Hf]. by apply (Hf _ _ Ef).
  - assert (forall t', running t' = true -> ft_queue t' = rest ->
        drains g (if decide (g' = g) then 1 else 0) w (w <| v1_tasks ::= <[g' := t']> |>)) as Hs.
    { intros t' Hr Hq. apply (drains_set g g' t); [done..| |done]. intros -> _. split; [done|].
      rewrite decide_True by done. rewrite Hq, Eq. cbn. lia. }
    assert (forall e, running (t <| ft_queue := rest |> <| ft_send_errors := e |>) = true) as Hr
      by (intros e; unfold running; cbn; by rewrite Ep).
    destruct s as [u|e]; [intros [= <- <-]; exact (Hs (t <| ft_queue := rest |> <| ft_send_errors := 0 |>) (Hr 0) eq_refl)|].
    destruct (is_transient_send_error e).
    { intros [= <- <-]. exact (Hs (t <| ft_queue := rest |>) (Hr (ft_send_errors t)) eq_refl). }
    destruct (5 <=? _); intros [= <- <-].
    + exact (drains_exit g g' (t <| ft_queue := rest |>) _ w Ho Hd).
    + exact (Hs (t <| ft_queue := rest |> <| ft_send_errors := ft_send_errors t + 1 |>) (Hr _) eq_refl).
Qed.

Lemma recv_drains g g' r tm tu w w' c :
  orphaned g w -> task_recv g' r tm tu w = Ret (w', c) -> drains g 0 w w'.
Proof.
  intros Ho. unfold task_recv, hbind at 1, hget. cbn [id].
  destruct (v1_tasks w !! g') as [t|] eqn:Et; [|intros [= <- <-]; by apply drains_same].
  destruct (ft_phase t) eqn:Ep; try (intros [= <- <-]; by apply drains_same).
  assert (forall e, running (t <| ft_recv_errors := e |>) = true) as Hr
    by (intros e; unfold running; cbn; by rewrite Ep).
  assert (forall e, drains g 0 w (w <| v1_tasks ::= <[g' := t <| ft_recv_errors := e |>]> |>)) as Hs.
  { intros e. apply (drains_set g g' t); [done..| |done]. intros _ _. split; [apply Hr | cbn; lia]. }
  destruct r as [payload|e].
  2: { destruct (is_transient_recv_error e); [intros [= <- <-]; by apply drains_same|].
       destruct (5 <=? _); intros [= <- <-]; [by apply drains_exit | apply Hs]. }
  unfold task_response. cbv zeta. unfold hbind at 1, set_task, hmod at 1. unfold hbind at 1, hget.
  set (w1 := w <| v1_tasks ::= <[g' := t <| ft_recv_errors := 0 |>]> |>).
  destruct (Hs 0) as [Ho1 Hd1]. fold w1 in Ho1, Hd1.
  assert (forall w', drains g 0 w1 w' -> drains g 0 w w') as Htrans.
  { intros w2 [Ho2 Hd2]. split; [exact Ho2|]. intros t2 E2. destruct (Hd2 _ E2) as (t1 & E1 & Hr1).
    destruct (Hd1 _ E1) as (t0 & E0 & Hr0). exists t0. split; [exact E0|]. intros H0'.
    destruct (Hr0 H0') as [H1' L1]. destruct (Hr1 H1') as [H2' L2]. split; [exact H2' | lia]. }
  cbn [id]. intros E. apply Htrans. revert E. clearbody w1.
  destruct (negb _); [intros [= <- <-]; by apply drains_exit|].
  destruct (v1_flows w1 !! _) as [f|] eqn:Ef.
  2: { case_bool_decide; intros [= <- <-]; [by apply drains_same | by apply drains_exit]. }
  case_bool_decide; [|intros [= <- <-]; by apply drains_exit].
  unfold build_response_ip_packet. rewrite build_response_spec. intros [= <- <-].
  eapply (drains_flows g w1); [|exact Ho1|reflexivity..]. apply refreshed_alter. intros x. by case_bool_decide.
Qed.

Lemma idle_drains g g' w w' c : orphaned g w -> task_idle g' w = Ret (w', c) -> drains g 0 w w'.
Proof.
  intros Ho. unfold task_idle, hbind at 1, hget. cbn [id].
  destruct (v1_tasks w !! g') as [t|] eqn:Et; [|intros [= <- <-]; by apply drains_same].
  destruct (ft_phase t); try (intros [= <- <-]; by apply drains_same).
  destruct (flow_of w (ft_key t) g'); intros [= <- <-]; [by apply drains_same | by apply drains_exit].
Qed.

Lemma sweep_drains g tm w w' c : orphaned g w -> v1_sweep_turn tm w = Ret (w', c) -> drains g 0 w w'.
Proof.
  intros Ho. unfold v1_sweep_turn, hbind at 1, hget at 1.
  destruct (v1_sweep w) as [[t [| | |]]|]; try (intros [= <- <-]; by apply drains_view).
  - unfold hbind at 1, hmod at 1. unfold hbind at 1, hget at 1. intros E.
    apply drains_view; [|exact Ho]. exact (view_base _ _ _ _ E).
  - intros [= <- <-]. eapply (drains_flows g w); [|exact Ho|reflexivity..].
    apply refreshed_omap, v1_cleanup_flow_generation.
Qed.

Definition sends (g : nat) (a : v1_turn) : nat :=
  match a with TaskSendTurn g' _ => if decide (g' = g) then 1 else 0 | _ => 0 end.

Lemma step_drains g a w w' :
  inv1 cap w -> orphaned g w -> (forall t, v1_tasks w !! g = Some t -> running t = true) ->
  v1_step hash_one cfg cap w a = Ret w' -> drains g (sends g a) w w'.
Proof.
  intros Hw Ho Hrun E. apply obind_inv in E as ([w0 c] & E & [= <-]).
  destruct a; cbn [v1_handler sends] in *.
  - apply drains_view; [exact (view_v1_rx _ _ _ _ _ E) | exact Ho].
  - by eapply entry_drains.
  - by eapply publish_drains.
  - by eapply start_drains.
  - by eapply send_drains.
  - by eapply recv_drains.
  - by eapply idle_drains.
  - apply drains_view; [exact (view_v1_response _ _ _ _ _ _ E) | exact Ho].
  - by eapply sweep_drains.
  - apply drains_view; [exact (view_base _ _ _ _ E) | exact Ho].
  - apply drains_view; [exact (view_base _ _ _ _ E) | exact Ho].
  - apply drains_view; [exact (view_base _ _ _ _ E) | exact Ho].
  - apply drains_view; [exact (view_base _ _ _ _ E) | exact Ho].
  - apply drains_view; [exact (view_base _ _ _ _ E) | exact Ho].
  - apply drains_view; [exact (view_base _ _ _ _ E) | exact Ho].
  - apply drains_view; [exact (view_base _ _ _ _ E) | exact Ho].
  - apply drains_view; [exact (view_base _ _ _ _ E) | exact Ho].
  - apply drains_view; [exact (view_base _ _ _ _ E) | exact Ho].
Qed.

End Live.

Fixpoint send_turns (g : nat) (l : list v1_turn) : nat :=
  match l with
  | [] => 0
  | a :: l => sends g a + send_turns g l
  end.

Lemma run_drains `{TicketCrypto} hash_one cfg cap g l w w' :
  (0 < cap)%nat -> Forall v1_turn_ok l -> inv1 cap w -> orphaned g w ->
  (forall t, v1_tasks w !! g = Some t -> running t = true) ->
  v1_run hash_one cfg cap w l = Ret w' ->
  forall t', v1_tasks w' !! g = Some t' ->
  exists t, v1_tasks w !! g = Some t /\ (length (ft_queue t') + send_turns g l <= length (ft_queue t))%nat.
Proof.
  intros Hcap. revert w. induction l as [|a l IH]; intros w Hl Hw Ho Hrun E t' Et'.
  { injection E as ->. exists t'. cbn. split; [done | lia]. }
  apply Forall_cons_1 in Hl as [Ha Hl]. cbn [v1_run] in E. apply obind_inv in E as (w0 & Ew & E).
  assert (inv1 cap w0) as Hw0.
  { pose proof (v1_step_returns hash_one cfg cap w a Hcap Hw Ha) as Hr. by rewrite Ew in Hr. }
  destruct (step_drains hash_one cfg cap g a w w0 Hw Ho Hrun Ew) as [Ho0 Hd].
  destruct (IH w0 Hl Hw0 Ho0) with (t' := t') as (t0 & E0 & L0); [|done|done|].
  { intros t Et. destruct (Hd _ Et) as (t1 & E1 & Hr). by apply Hr, Hrun. }
  destruct (Hd _ E0) as (t & Et & Hr). destruct (Hr (Hrun _ Et)) as [_ L].
  exists t. split; [done|]. cbn [send_turns]. lia.
Qed.

(** C22: a task whose flow is gone ends.  Take any state a run reaches and a
    running task whose entry is no longer in the flow table (the cleanup or a
    failure removed it).  Then, however the run goes on, with whatever send
    results, once the task has taken one turn more at its channel than there
    were packets in it, the task is gone: nothing refills the channel, and
    the entry of a new flow with the same key does not keep it alive. *)
Theorem v1_orphan_task_ends `{TicketCrypto} hash_one cfg raw policy budget tun t0
  (l l' : list v1_turn) w g t :
  Forall v1_turn_ok l -> Forall v1_turn_ok l' ->
  v1_run hash_one cfg (flow_cap raw) (v1_start policy budget tun t0) l = Ret w ->
  v1_tasks w !! g = Some t -> ft_phase t = Running ->
  (forall key f, v1_flows w !! key = Some f -> fe_generation f <> g) ->
  (length (ft_queue t) < send_turns g l')%nat ->
  exists w', v1_run hash_one cfg (flow_cap raw) w l' = Ret w' /\ v1_tasks w' !! g = None.
Proof.
  intros Hl Hl' E Et Ep Hf Hn. pose proof (flow_cap_pos raw) as Hcap.
  assert (inv1 (flow_cap raw) w) as Hw.
  { destruct (v1_run_inv hash_one cfg raw policy budget tun t0 l Hl) as (w1 & E1 & Hw1). congruence. }
  destruct (returns_inv _ _ (v1_run_returns hash_one cfg _ l' w Hcap Hw Hl')) as (w' & E' & _).
  exists w'. split; [exact E'|]. destruct (v1_tasks w' !! g) as [t'|] eqn:Et'; [exfalso|done].
  destruct (run_drains hash_one cfg (flow_cap raw) g l' w w' Hcap Hl' Hw) with (t' := t') as (t1 & E1 & L1);
    [|by intros t1; rewrite Et; intros [= <-]; unfold running; rewrite Ep|exact E'|exact Et'|].
  - split; [by eapply fo_tasks; [apply Hw|] | exact Hf].
  - assert (t1 = t) as -> by congruence. lia.
Qed.

(* ------------------------------------------------------------------ *)
(** ** The index can hold a key twice

    The cleanup removes a flow from the table and its key from the index in
    two steps.  A packet of the same flow in between creates it again and adds
    its key a second time, and the second step keeps both: the flow counts
    twice towards the limit per session. *)

Section Race.
#[local] Existing Instance toy_crypto.

Definition race_turns : list v1_turn :=
  [RecvTurn (toy_rx toy_hello 0) true; RecvTurn (toy_rx (toy_sid ++ sample_udp) 2) true;
   EntryTurn 3; PublishTurn;
   SweepTurn (secs 185); SweepTurn 0; SweepTurn 0; SweepTurn 0; SweepTurn 0; SweepTurn (secs 216);
   RecvTurn (toy_rx (toy_sid ++ sample_udp) 4) true; EntryTurn 5; PublishTurn; SweepTurn 0].

Lemma index_can_hold_key_twice :
  match v1_run toy_hash toy_cfg (flow_cap None) toy_v1_start race_turns with
  | Ret w => size (v1_flows w) = 1%nat /\ indexed_session_flow_count (v1_index w) toy_sid = 2%nat
  | Panic => False
  end.
Proof. vm_compute. split; reflexivity. Qed.

End Race.

(* ------------------------------------------------------------------ *)
(** ** Witness *)

Section Witnesses.
#[local] Existing Instance toy_crypto.

(** A flow with a packet in its channel, marked by one tick of the cleanup
    and removed by another; then two turns at the channel. *)
Definition orphan_turns : list v1_turn :=
  [RecvTurn (toy_rx toy_hello 0) true; RecvTurn (toy_rx (toy_sid ++ sample_udp) 2) true;
   EntryTurn 3; PublishTurn; TaskStartTurn 0 true true;
   SweepTurn (secs 1000); SweepTurn 0; SweepTurn 0; SweepTurn 0; SweepTurn 0; SweepTurn (secs 2000)].
Definition orphan_rest : list v1_turn := [TaskSendTurn 0 (Err ConnectionReset); TaskSendTurn 0 (Ok tt)].

Lemma orphan_turns_ok : Forall v1_turn_ok orphan_turns.
Proof.
  destruct (Forall_cons_1 _ _ _ toy_v1_turns_ok) as [H1 H2]. apply Forall_cons_1 in H2 as [H2 _].
  repeat apply List.Forall_cons; try apply List.Forall_nil; try exact I; assumption.
Qed.

Definition orphan_state : V1 :=
  match v1_run toy_hash toy_cfg (flow_cap None) toy_v1_start orphan_turns with
  | Ret w => w | Panic => toy_v1_start end.
Definition orphan_task : FlowTask :=
  match v1_tasks orphan_state !! 0%nat with
  | Some t => t | None => MkTask [] toy_client [] [] Unspawned 0 0 end.

Lemma v1_orphan_task_ends_witness :
  length (ft_queue orphan_task) = 1%nat
  /\ exists w', v1_run toy_hash toy_cfg (flow_cap None) orphan_state orphan_rest = Ret w'
       /\ v1_tasks w' !! 0%nat = None.
Proof.
  split; [vm_compute; reflexivity|].
  apply (v1_orphan_task_ends toy_hash toy_cfg None toy_policy toy_budget false 0 orphan_turns orphan_rest
    orphan_state 0 orphan_task).
  - exact orphan_turns_ok.
  - repeat apply List.Forall_cons; try apply List.Forall_nil; exact I.
  - apply returned. vm_compute. reflexivity.
  - vm_compute. reflexivity.
  - vm_compute. reflexivity.
  - assert (v1_flows orphan_state = ∅) as -> by (vm_compute; reflexivity).
    intros key f. rewrite lookup_empty. discriminate.
  - vm_compute. lia.
Defined.

End Witnesses.
