(* ===== verification/V1Auth.v ===== *)
(** * Datapath v1: what the receive loop forwards

    The gate of the receive loop of [main] (src/main.rs): with authentication
    on, a datagram only reaches the entry of a flow or the TUN queue when its
    session is authorised.  The steps shared with the other datapath bring
    their lemmas along ([leaves_base], [ends_base]). *)

From S2P Require Import Prelude Checksum Net Packet TunRewrite TunSession RustStr Tuning DestPolicy Stats Sessions RateLimit AccountBudget Auth Frames Handler V2State V2Rx V2Shard V2Tun V2Inv V2Safe V2Thms V2Auth V1 V1Safe V1Sim V1Thms.

(** What a datagram leads to: a packet in the TUN queue, or the loop at the
    entry of a flow with the packet in hand. *)
Definition handed1 (w : V1) : Pc * list InboundTunPacket := (v1_pc w, v_tun (v1_base w)).
Definition view1 (w : V1) : gmap (list Z) SessionEntry * (Pc * list InboundTunPacket) :=
  (v_sessions (v1_base w), handed1 w).

Lemma leaves_base {A T} (f : V2 -> T) (m : H A) :
  leaves f m -> leaves (fun w => (f (v1_base w), v1_pc w)) (h_base m).
Proof.
  intros Hm w w' c E. unfold h_base in E. destruct (m (v1_base w)) as [[v c']|] eqn:Em; [|discriminate].
  injection E as <- <-. cbn. by rewrite (Hm _ _ _ Em).
Qed.
Lemma ends_base {A} (P : V2 -> Prop) (m : H A) R Q :
  ends P m R Q -> ends (fun w => P (v1_base w)) (h_base m) (fun a w => R a (v1_base w)) (fun w => Q (v1_base w)).
Proof.
  intros Hm w w' c Hw E. unfold h_base in E. destruct (m (v1_base w)) as [[v c']|] eqn:Em; [|discriminate].
  injection E as <- <-. exact (Hm _ _ _ Hw Em).
Qed.

Lemma view1_base {A} (m : H A) : leaves view m -> leaves view1 (h_base m).
Proof.
  intros Hm w w' c E. pose proof (leaves_base view m Hm w w' c E) as Hv. cbn in Hv.
  unfold view1, handed1. injection Hv as H1 H2 _ H3. by rewrite H1, H2, H3.
Qed.
Lemma handed1_base {A} (m : H A) : leaves handed_on m -> leaves handed1 (h_base m).
Proof.
  intros Hm w w' c E. pose proof (leaves_base handed_on m Hm w w' c E) as Hv. cbn in Hv.
  unfold handed1. injection Hv as H1 _ H2. by rewrite H1, H2.
Qed.
Lemma handed1_view {A} (m : H1 A) : leaves view1 m -> leaves handed1 m.
Proof. apply (leaves_weaken snd). Qed.

Section V1.
Context `{TicketCrypto} (hash_one : IpAddr -> Z) (cfg : Config) (i : RxInput) (sent_ok : bool).

Lemma view1_drop_in r : leaves view1 (v1_drop_in r).
Proof. apply view1_base, view_drop_in. Qed.
Lemma view1_send a bytes ok : leaves view1 (h_base (v1_send a bytes ok)).
Proof. apply view1_base. unfold v1_send. lsteps. Qed.
Lemma view1_ack sid st : leaves view1 (v1_ack i sid st sent_ok).
Proof. apply view1_send. Qed.
Lemma view1_pending : leaves view1 (h_base (h_pending hash_one i)).
Proof. apply view1_base, view_pending. Qed.
Lemma view1_verify sid token : leaves view1 (h_base (h_verify_once cfg i sid token)).
Proof. apply view1_base, view_verify_once. Qed.
Lemma view1_event k : leaves view1 (h_base (h_source_event i k)).
Proof. apply view1_base, view_source_event. Qed.
Hint Resolve view1_drop_in view1_send view1_ack view1_pending view1_verify view1_event : handler.

Lemma view1_ticket sid b : leaves view1 (v1_ticket hash_one cfg i sid b sent_ok).
Proof. unfold v1_ticket. lsteps. Qed.
Lemma view1_reauth_hint sid t : leaves view1 (v1_reauth_hint hash_one cfg i sid t sent_ok).
Proof. unfold v1_reauth_hint. lsteps. Qed.
Lemma view1_gate sid t : leaves view1 (v1_auth_gate cfg i sid t).
Proof. unfold v1_auth_gate. lsteps. Qed.
Lemma view1_admit sid : leaves view1 (v1_admit i sid).
Proof.
  unfold v1_admit. lsteps. apply view1_base, leaves_run. intros s s' r E.
  destruct (v1_session_capacity_available _ _ _ _). by injection E as <- <-.
Qed.

(** Only a hello frame brings a ticket. *)
Lemma ticket_hello sid b :
  ends (fun _ => True) (v1_ticket hash_one cfg i sid b sent_ok)
    (fun r _ => forall t, r = Some t -> b = true) (fun _ => True).
Proof.
  unfold v1_ticket. destruct b; [|rewrite andb_false_r; by apply ends_ret].
  intros s s' [r|] _ _; [by intros | exact I].
Qed.

(** A hello frame is answered and goes no further. *)
Lemma handed1_hello sid t : leaves handed1 (v1_hello cfg i sid t sent_ok).
Proof.
  unfold v1_hello. lsteps; try (apply handed1_view, view1_ack).
  apply handed1_base, leaves_mod. intros s. by destruct (v_sessions s !! sid).
Qed.

Lemma handed1_hello_tail sid t :
  leaves handed1 (let! (authenticated, source_allowed) := v1_session cfg i sid true in
                  h_base (rx_ingress i sid) ;! v1_hello cfg i sid t sent_ok).
Proof.
  apply leaves_bind; [apply handed1_base, handed_on_session|]. intros [x y].
  apply leaves_bind; [apply handed1_view, view1_base, view_ingress|]. intros ?. apply handed1_hello.
Qed.

(** The gate only counts a drop. *)
Lemma gate_stays (J : V1 -> Prop) sid t :
  (forall f, stays J (h_base (stat f))) -> stays J (v1_auth_gate cfg i sid t).
Proof.
  intros Jstat. unfold v1_auth_gate. apply stays_bind; [by intros w w' c Hw [= <- <-]|]. intros sessions.
  destruct (_ && _ && _); [|apply stays_ret].
  apply stays_bind; [apply (Jstat (fun s => drop_in s Stats.Auth)) | intros ?; apply stays_continue].
Qed.

Lemma gate1_authorised sid ticket S0 :
  ends (fun w => v_sessions (v1_base w) = S0) (v1_auth_gate cfg i sid ticket)
    (fun _ _ => auth_needed cfg = true -> ticket = None -> authorised i S0 sid) (fun _ => True).
Proof.
  intros w w' c Hw E. rewrite v1_auth_gate_base in E.
  exact (ends_base _ _ _ _ (gate_authorised cfg i sid ticket S0) w w' c Hw E).
Qed.

(** The body after admission. *)
Definition v1_tail (sid : list Z) (b : bool) (ticket : option VerifiedRelayTicket) : H1 unit :=
  let! (authenticated, source_allowed) := v1_session cfg i sid b in
  h_base (rx_ingress i sid) ;!
  if b then v1_hello cfg i sid ticket sent_ok
  else if negb source_allowed then v1_drop_in Stats.Auth ;! hcontinue
  else v1_frame cfg i sid authenticated sent_ok.

(** The body up to admission, with any assertion [J] its steps preserve: a
    datagram is dropped with [view1] unchanged, or reaches the tail, without
    a ticket only when its session is authorised. *)
Lemma v1_rx_ends_with (J : V1 -> Prop) (w0 : V1) (Q : V1 -> Prop) :
  let sid := take SESSION_ID_LEN (buf i) in
  (forall f, stays J (h_base (stat f))) ->
  (length sid = SESSION_ID_LEN -> forall b, stays J (v1_ticket hash_one cfg i sid b sent_ok)) ->
  (length sid = SESSION_ID_LEN -> forall t, stays J (v1_reauth_hint hash_one cfg i sid t sent_ok)) ->
  stays J (v1_admit i sid) ->
  (forall w, J w -> view1 w = view1 w0 -> Q w) ->
  (forall b ticket, length sid = SESSION_ID_LEN -> v1_pc w0 = AtRecv ->
    (forall t, ticket = Some t -> b = true) ->
    (auth_needed cfg = true -> ticket = None -> authorised i (v_sessions (v1_base w0)) sid) ->
    ends (fun w => J w /\ view1 w = view1 w0) (v1_tail sid b ticket) (fun _ => Q) Q) ->
  ends (fun w => J w /\ w = w0) (v1_rx hash_one cfg i sent_ok) (fun _ => Q) Q.
Proof.
  intros sid Jstat Jticket Jhint Jadmit HQ Htail.
  set (P w := J w /\ view1 w = view1 w0).
  assert (forall w, P w -> Q w) as HP by (intros w []; auto).
  assert (forall A (m : H1 A), leaves view1 m -> stays J m -> ends P m (fun _ => P) Q) as Hv.
  { intros A m Hm Hj. eapply ends_conseq;
      [exact (ends_and _ _ _ _ _ _ _ Hj (leaves_ends view1 (fun x => x = view1 w0) m Hm)) | auto..]. }
  unfold v1_rx. apply ends_get. intros pc. apply (ends_pure (pc = v1_pc w0)); [by intros w [[_ ->] ->]|]. intros Epc.
  apply (ends_pre _ P); [|by intros w [[Hj ->] _]].
  destruct pc; try (by apply ends_continue).
  eapply ends_bind; [apply Hv; [apply view1_base, view_stat | apply Jstat]|]. intros ?. destruct (_ <? _)%nat.
  { eapply ends_bind; [apply Hv; [apply view1_drop_in | apply Jstat] | intros ?; by apply ends_continue]. }
  apply ends_bind_lift. intros sid' Es.
  assert (sid' = sid /\ length sid = SESSION_ID_LEN) as [-> Hlen].
  { unfold slice in Es. destruct (_ && _) eqn:El; [|discriminate]. injection Es as <-. split; [done|].
    apply andb_true_iff in El as [_ El%Nat.leb_le]. subst sid. rewrite length_take. lia. }
  apply ends_bind_lift. intros c _. set (b := (SESSION_ID_LEN + 3 <=? len i)%nat && (c =? AUTH_HELLO_FRAME_TYPE)).
  eapply ends_bind with (M := fun r w => P w /\ forall t, r = Some t -> b = true).
  { eapply ends_conseq; [exact (ends_and _ _ _ _ _ _ _ (Hv _ _ (view1_ticket sid b) (Jticket Hlen b)) (ticket_hello sid b))
                         | intros s Hs; by split | auto | by intros ? []]. }
  intros ticket. apply (ends_pure (forall t, ticket = Some t -> b = true)); [by intros ? []|]. intros Hb.
  apply (ends_pre _ P); [|by intros ? []].
  eapply ends_bind; [exact (Hv _ _ (view1_reauth_hint sid ticket) (Jhint Hlen ticket))|]. intros ?.
  eapply ends_bind with (M := fun _ w => P w
    /\ (auth_needed cfg = true -> ticket = None -> authorised i (v_sessions (v1_base w0)) sid)).
  { eapply ends_conseq;
      [exact (ends_and _ _ _ _ _ _ _ (Hv _ _ (view1_gate sid ticket) (gate_stays J sid ticket Jstat))
                (gate1_authorised sid ticket (v_sessions (v1_base w0)))) | | auto | by intros ? []].
    intros w Hw. split; [exact Hw | exact (f_equal fst (proj2 Hw))]. }
  intros ?. apply (ends_pure (auth_needed cfg = true -> ticket = None -> authorised i (v_sessions (v1_base w0)) sid));
    [by intros ? []|]. intros Hauth. apply (ends_pre _ P); [|by intros ? []].
  eapply ends_bind; [exact (Hv _ _ (view1_admit sid) Jadmit)|]. intros ?.
  by apply (Htail b ticket Hlen).
Qed.

Lemma v1_forwards_authorised w0 :
  auth_needed cfg = true ->
  let Q w := handed1 w = handed1 w0 \/ authorised i (v_sessions (v1_base w0)) (take SESSION_ID_LEN (buf i)) in
  ends (fun w => w = w0) (v1_rx hash_one cfg i sent_ok) (fun _ => Q) Q.
Proof.
  intros Ha Q. assert (forall A (m : H1 A), stays (fun _ => True) m) as Htriv by by intros A m ? ? [].
  eapply ends_pre; [apply (v1_rx_ends_with (fun _ => True) w0 Q) | by intros w ->]; auto.
  - intros w _ E. left. exact (f_equal snd E).
  - intros b ticket _ _ Hb Hauth. destruct b.
    + intros s s' c [_ Hs] E. assert (handed1 s' = handed1 w0) as Hh; [|by destruct c; left].
      transitivity (handed1 s); [exact (handed1_hello_tail _ ticket _ _ _ E) | exact (f_equal snd Hs)].
    + assert (ticket = None) as -> by (destruct ticket as [t|]; [discriminate (Hb t eq_refl) | done]).
      intros s s' c _ _. destruct c; right; auto.
Qed.

End V1.

(** The receive loop of the tokio datapath forwards only what is
    authorised.  With authentication on, a datagram only leads to a flow (the
    loop at its entry with the packet) or to a packet for the TUN device when
    its session is in the table, authenticated with a lease that has not
    expired, and at the very address the datagram came from. *)
Theorem v1_forwards_only_authorised `{TicketCrypto} hash_one cfg i sent_ok w w' c :
  auth_needed cfg = true -> v1_rx hash_one cfg i sent_ok w = Ret (w', c) ->
  handed1 w' <> handed1 w ->
  exists e, v_sessions (v1_base w) !! take SESSION_ID_LEN (buf i) = Some e
    /\ auth_state e = Authenticated
    /\ (exists exp, lease_expires_at_unix e = Some exp /\ now_unix i < exp)
    /\ client_addr e = from i.
Proof.
  intros Ha E Hne. pose proof (v1_forwards_authorised hash_one cfg i sent_ok w Ha w w' c eq_refl E) as Hq.
  assert (authorised i (v_sessions (v1_base w)) (take SESSION_ID_LEN (buf i))) as Hauth
    by (destruct c, Hq as [Hq|Hq]; congruence || exact Hq).
  by apply authorised_current.
Qed.

Section Witness.
#[local] Existing Instance toy_crypto.

(** The loop after a hello frame, and a packet for the game. *)
Definition hello_state : V1 :=
  match v1_rx toy_hash toy_cfg (toy_rx toy_hello 0) true toy_v1_start with
  | Ret (w, _) => w | Panic => toy_v1_start end.
Definition packet_state : V1 := after1 (v1_rx toy_hash toy_cfg (toy_rx (toy_sid ++ sample_udp) 2) true) hello_state.

Lemma v1_forwards_only_authorised_witness :
  exists e, v_sessions (v1_base hello_state) !! toy_sid = Some e
    /\ auth_state e = Authenticated
    /\ (exists exp, lease_expires_at_unix e = Some exp /\ now_unix (toy_rx (toy_sid ++ sample_udp) 2) < exp)
    /\ client_addr e = toy_client.
Proof.
  apply (v1_forwards_only_authorised toy_hash toy_cfg (toy_rx (toy_sid ++ sample_udp) 2) true hello_state
    packet_state (Next tt)).
  - reflexivity.
  - apply ended1. vm_compute. reflexivity.
  - vm_compute. discriminate.
Defined.

End Witness.
