(* ===== verification/V1Trace.v ===== *)
(** * Datapath v1: every output has its input

    The provenance theorems of the sharded datapath (V2Trace.v) for the tokio
    one: payloads travel from the receive loop through the channels of the
    flow tasks, responses through the queue of the response sender.  The
    shared tables bring their lemmas along ([stays_base]); that the text keys
    of flows are injective (V1Keys.v) is what keeps sessions and destinations
    apart. *)

From Stdlib Require Import String.
From S2P Require Import Prelude Checksum Net Packet TunRewrite TunSession RustStr Tuning DestPolicy Stats Sessions RateLimit AccountBudget Auth Frames Handler V2State V2Rx V2Shard V2Tun V2Inv V2Safe V2Thms V2Auth V2Data V2Trace V2Frames V1 V1Keys V1Safe V1Sim V1Thms V1Auth.

#[local] Arguments v1_flow_key : simpl never.

(** Sessions and destinations whose keys are injective. *)
Definition well_formed_key (sid : list Z) (game : SocketAddr) : Prop :=
  bytes_ok sid /\ length sid = SESSION_ID_LEN
  /\ exists ip port, game = SockV4 ip port /\ is_u32 ip /\ is_u16 port.

Lemma flow_key_inj s1 s2 g1 g2 :
  well_formed_key s1 g1 -> well_formed_key s2 g2 -> v1_flow_key s1 g1 = v1_flow_key s2 g2 ->
  s1 = s2 /\ g1 = g2.
Proof.
  intros (B1 & L1 & ip1 & p1 & -> & I1 & P1) (B2 & L2 & ip2 & p2 & -> & I2 & P2) E.
  destruct (v1_flow_key_injective s1 s2 ip1 ip2 p1 p2 B1 B2 L1 L2 I1 I2 P1 P2 E) as (-> & -> & ->). done.
Qed.

Section Traced.
Context (F : Facts) (replied : list Z -> SocketAddr -> list Z -> Prop).
Hypothesis Hwf : forall sid addr game info payload,
  asked F sid addr game info payload -> well_formed_key sid game.

(** A data frame of the response sender. *)
Definition response_data (sid frame : list Z) : Prop :=
  exists game info addr sent payload ip,
    asked F sid addr game info sent /\ replied sid game payload
    /\ build_response_ip_packet payload info = Ret ip /\ frame = sid ++ ip.

Definition task_traced (t : FlowTask) : Prop :=
  ft_key t = v1_flow_key (ft_session_id t) (ft_game_addr t)
  /\ (exists addr info sent, asked F (ft_session_id t) addr (ft_game_addr t) info sent)
  /\ Forall (fun data => exists addr info, asked F (ft_session_id t) addr (ft_game_addr t) info data) (ft_queue t).
Definition flow_traced (key : str) (f : FlowEntry) : Prop :=
  exists sid game addr sent, key = v1_flow_key sid game /\ asked F sid addr game (fe_original_info f) sent.
Definition pc_traced (pc : Pc) : Prop :=
  match pc with
  | AtEntry sid addr key _ game payload info => key = v1_flow_key sid game /\ asked F sid addr game info payload
  | _ => True
  end.

Record traced (w : V1) : Prop := {
  tr_base : flowing F [] (v1_base w);
  tr_tasks : forall g t, v1_tasks w !! g = Some t -> task_traced t;
  tr_flows : forall key f, v1_flows w !! key = Some f -> flow_traced key f;
  tr_game : Forall (to_game_ok F) (v1_to_game w);
  tr_responses : Forall (fun '(_, sid, data) => response_data sid data) (v1_responses w);
  tr_pc : pc_traced (v1_pc w);
}.

(* ------------------------------------------------------------------ *)
(** ** Operations *)

Lemma traced_base w b : flowing F [] b -> traced w -> traced (w <| v1_base := b |>).
Proof. intros Hb [H1 H2 H3 H4 H5 H6]. by constructor. Qed.

Lemma stays_base {A} (m : H A) : stays (flowing F []) m -> stays traced (h_base m).
Proof.
  intros Hm w w' c Hw E. unfold h_base in E. destruct (m (v1_base w)) as [[b c']|] eqn:Em; [|discriminate].
  injection E as <- <-. pose proof (Hm _ _ _ (tr_base _ Hw) Em) as Hb.
  destruct c'; by apply traced_base.
Qed.
Lemma stays_base_at {A} (m : H A) w0 :
  ends (fun v => flowing F [] v /\ v = v1_base w0) m (fun _ => flowing F []) (flowing F []) ->
  ends (fun w => traced w /\ w = w0) (h_base m) (fun _ => traced) traced.
Proof.
  intros Hm w w' c [Hw ->] E. unfold h_base in E. destruct (m (v1_base w0)) as [[b c']|] eqn:Em; [|discriminate].
  injection E as <- <-. pose proof (Hm _ _ _ (conj (tr_base _ Hw) eq_refl) Em) as Hb.
  destruct c'; by apply traced_base.
Qed.

(** Flow tables that lose entries or refresh them, with the packet info. *)
Definition kept_flows (m m' : gmap str FlowEntry) : Prop :=
  forall key f', m' !! key = Some f' -> exists f, m !! key = Some f /\ fe_original_info f' = fe_original_info f.

Lemma kept_flows_trans m1 m2 m3 : kept_flows m1 m2 -> kept_flows m2 m3 -> kept_flows m1 m3.
Proof.
  intros H1 H2 key f3 E3. destruct (H2 _ _ E3) as (f2 & E2 & ->). destruct (H1 _ _ E2) as (f1 & E1 & ->). eauto.
Qed.
Lemma kept_flows_alter m key f :
  (forall x, fe_original_info (f x) = fe_original_info x) -> kept_flows m (alter f key m).
Proof.
  intros Hf k x. destruct (decide (k = key)) as [->|Hk].
  - rewrite lookup_alter_eq. destruct (m !! key) as [y|]; cbn; intros [= <-]. eauto.
  - rewrite lookup_alter_ne by done. eauto.
Qed.

Lemma traced_flows w m : kept_flows (v1_flows w) m -> traced w -> traced (w <| v1_flows := m |>).
Proof.
  intros Hk [H1 H2 H3 H4 H5 H6]. constructor; try assumption. cbn. intros key f' E.
  destruct (Hk _ _ E) as (f & Ef & Ei). destruct (H3 _ _ Ef) as (sid & game & addr & sent & -> & Ha).
  exists sid, game, addr, sent. by rewrite Ei.
Qed.

Lemma traced_remove sid key g w : traced w -> traced (remove_v1_flow sid key g w).
Proof.
  intros Hw. destruct (remove_v1_flow_other sid key g w) as (E1 & E2 & E3 & E4). destruct Hw as [H1 H2 H3 H4 H5 H6].
  constructor; rewrite ?E1, ?E2, ?E3; try assumption.
  - intros k f Ek. by apply H3, E4.
  - unfold remove_v1_flow. destruct (v1_flows w !! key); [case_bool_decide|]; exact H4.
  - unfold remove_v1_flow. destruct (v1_flows w !! key); [case_bool_decide|]; exact H5.
Qed.

Lemma traced_set_task w g t : task_traced t -> traced w -> traced (w <| v1_tasks ::= <[g := t]> |>).
Proof.
  intros Ht [H1 H2 H3 H4 H5 H6]. constructor; try assumption. cbn.
  intros g' t' [[_ <-]|[_ E]]%lookup_insert_Some; eauto.
Qed.

Lemma traced_exit g t : stays traced (task_exit g t).
Proof.
  apply stays_mod. intros w Hw. apply (traced_remove (ft_session_id t) (ft_key t) g) in Hw as [H1 H2 H3 H4 H5 H6].
  constructor; try assumption. cbn. intros g' t' [_ E]%lookup_delete_Some. eauto.
Qed.

Lemma stays_set_task g t : task_traced t -> stays traced (set_task g t).
Proof. intros Ht. apply stays_mod. intros w. by apply traced_set_task. Qed.

Lemma stays_get {A} (f : V1 -> A) : stays traced (hget f).
Proof. by intros s s' c Hs [= <- <-]. Qed.
Lemma stays_lift {A} (m : outcome A) : stays traced (hlift m).
Proof. by apply ends_lift. Qed.
Lemma stays_drop_in r : stays traced (v1_drop_in r).
Proof. apply stays_base, flowing_drop_in. Qed.
#[local] Hint Resolve traced_exit stays_set_task stays_get stays_lift stays_drop_in : handler.

(** A handler that first reads the whole state. *)
Lemma stays_here {A B} (f : V1 -> A) (k : A -> H1 B) :
  (forall w, traced w -> ends (fun s => s = w) (k (f w)) (fun _ => traced) traced) -> stays traced (hbind (hget f) k).
Proof. intros Hk s s' c Hs E. exact (Hk s Hs s s' c eq_refl E). Qed.
Lemma ends_here {A} w (m : H1 A) : traced w -> stays traced m -> ends (fun s => s = w) m (fun _ => traced) traced.
Proof. intros Hw Hm. eapply ends_pre; [exact Hm | by intros s ->]. Qed.

(* ------------------------------------------------------------------ *)
(** ** The flow tasks *)

(** The entry: an existing flow under this key is the flow of this session
    and destination, and so is its task. *)
Lemma traced_entry cap t w0 :
  V1Safe.flows_ok cap w0 ->
  ends (fun w => traced w /\ w = w0) (v1_entry cap t) (fun _ => traced) traced.
Proof.
  intros Hok. unfold v1_entry. apply ends_get. intros pc.
  apply (ends_pure (traced w0 /\ pc = v1_pc w0)); [by intros s [[Hs ->] ->]|]. intros [Hw ->].
  apply (ends_pre _ (fun s => s = w0)); [|by intros s [[_ ->] _]].
  pose proof (tr_pc _ Hw) as Hpc.
  destruct (v1_pc w0) as [|sid addr key new_flow game payload info|] eqn:Epc; try (apply ends_continue; by intros s ->).
  destruct Hpc as [-> Hask].
  apply ends_bind with (fun _ s => s = w0 <| v1_pc := AtRecv |>); [by apply ends_mod; intros s ->|]. intros ?.
  set (w1 := w0 <| v1_pc := AtRecv |>).
  assert (traced w1) as Hw1 by (destruct Hw; by constructor).
  intros s s' c -> E. revert s' c E.
  match goal with |- forall s' c, hbind (hget id) ?k w1 = _ -> _ =>
    enough (ends (fun s => s = w1) (k w1) (fun _ => traced) traced) as Hk by
      (intros s' c E; exact (Hk w1 s' c eq_refl E)) end.
  destruct (v1_flows w1 !! v1_flow_key sid game) as [flow|] eqn:Ef.
  - set (flow' := flow <| fe_last_activity := t |> <| fe_client_addr := addr |>
                       <| fe_original_info := info |> <| fe_marked_for_removal := None |>).
    assert (traced (w1 <| v1_flows ::= <[v1_flow_key sid game := flow']> |>)) as Hw2.
    { destruct Hw1 as [H1 H2 H3 H4 H5 H6]. constructor; try assumption. cbn.
      intros key f [[<- <-]|[_ E]]%lookup_insert_Some; [|eauto]. by exists sid, game, addr, payload. }
    apply ends_bind with (fun _ s => s = w1 <| v1_flows ::= <[v1_flow_key sid game := flow']> |>);
      [by apply ends_mod; intros s ->|]. intros ?.
    destruct (v1_tasks w1 !! fe_generation flow') as [task|] eqn:Et.
    + destruct (try_send cap (ft_queue task) payload) as [q|] eqn:Eq.
      * apply ends_mod. intros s ->. apply traced_set_task; [|exact Hw2].
        destruct (tr_tasks _ Hw1 _ _ Et) as (Hkey & (addr' & info' & sent & Hev) & Hq).
        destruct (fo_flow _ _ Hok _ _ Ef) as (task' & Et' & Ek).
        change (v1_tasks w0 !! fe_generation flow = Some task) in Et. assert (task' = task) as -> by congruence.
        destruct (flow_key_inj sid (ft_session_id task) game (ft_game_addr task)) as [-> ->];
          [by eapply Hwf | by eapply Hwf | congruence|].
        apply try_send_spec in Eq as ->. split; [exact Hkey|]. split; [by exists addr', info', sent|].
        apply Forall_app_2; [exact Hq | apply list.Forall_singleton; by exists addr, info].
      * apply ends_here; [exact Hw2 | apply stays_drop_in].
    + apply ends_mod. intros s ->. by apply traced_remove.
  - destruct new_flow; cbn [negb].
    2: { apply ends_here; [exact Hw1|]. ssteps. }
    destruct (cap =? 0)%nat; [apply ends_here; [exact Hw1 | apply stays_lift]|].
    apply ends_bind with (fun _ => traced).
    { apply ends_here; [exact Hw1|]. ssteps. }
    intros ?. apply ends_mod. intros s [H1 H2 H3 H4 H5 H6]. constructor; try assumption; cbn; [| |exact I].
    + intros g task [[_ <-]|[_ E]]%lookup_insert_Some; [|eauto]. split; [done|].
      split; [by exists addr, info, payload|]. cbn. destruct (try_send cap [] payload) as [q|] eqn:Eq; [|constructor].
      apply try_send_spec in Eq as ->. apply list.Forall_singleton. by exists addr, info.
    + intros key f [[<- <-]|[_ E]]%lookup_insert_Some; [|eauto]. by exists sid, game, addr, payload.
Qed.

Lemma traced_publish : stays traced v1_publish.
Proof.
  unfold v1_publish. sstep; [sstep|]. destruct a; [sstep..|]. apply stays_mod.
  intros w [H1 H2 H3 H4 H5 H6]. constructor; try assumption; cbn; [|exact I].
  intros g t E. destruct (decide (g = generation)) as [->|Hg].
  - rewrite lookup_alter_eq in E. destruct (v1_tasks w !! generation) as [t0|] eqn:E0; [|discriminate].
    injection E as <-. exact (H2 _ _ E0).
  - rewrite lookup_alter_ne in E by done. eauto.
Qed.

Lemma traced_start g b c : stays traced (task_start g b c).
Proof.
  apply stays_here. intros w Hw. change (id w) with w. destruct (v1_tasks w !! g) as [t|] eqn:Et;
    [|apply ends_here; [done | ssteps]].
  pose proof (tr_tasks _ Hw _ _ Et) as Ht. apply ends_here; [exact Hw|].
  destruct (ft_phase t); cbv zeta; ssteps.
Qed.

Lemma traced_send g sent : stays traced (task_send g sent).
Proof.
  apply stays_here. intros w Hw. change (id w) with w. destruct (v1_tasks w !! g) as [t|] eqn:Et;
    [|apply ends_here; [done | ssteps]].
  pose proof (tr_tasks _ Hw _ _ Et) as (Hk & Hev & Hq). apply ends_here; [exact Hw|].
  destruct (ft_phase t), (ft_queue t) as [|data rest] eqn:Eq; try (ssteps; fail).
  apply Forall_cons_1 in Hq as [Hd Hr].
  assert (forall n, task_traced (t <| ft_queue := rest |> <| ft_send_errors := n |>)) as Ht by (intros n; by repeat split).
  destruct sent as [u|e]; cbv zeta.
  - sstep; [apply stays_set_task, Ht|]. apply stays_mod. intros s [H1 H2 H3 H4 H5 H6].
    constructor; try assumption. cbn. apply Forall_app_2; [exact H4 | by apply list.Forall_singleton].
  - ssteps; apply stays_set_task; first [apply Ht | by repeat split].
Qed.

Lemma traced_idle g : stays traced (task_idle g).
Proof. unfold task_idle. ssteps. Qed.

(** A datagram of the game server of a task. *)
Lemma traced_recv g received t tu w0 :
  (forall task payload, v1_tasks w0 !! g = Some task -> received = Ok payload ->
     replied (ft_session_id task) (ft_game_addr task) payload) ->
  ends (fun w => traced w /\ w = w0) (task_recv g received t tu) (fun _ => traced) traced.
Proof.
  intros Hrep. unfold task_recv. apply ends_get. intros w.
  apply (ends_pure (traced w0 /\ w = w0)); [by intros s [[Hs ->] ->]|]. intros [Hw ->].
  apply (ends_pre _ (fun s => s = w0)); [|by intros s [[_ ->] _]].
  destruct (v1_tasks w0 !! g) as [task|] eqn:Et; [|apply ends_here; [done | ssteps]].
  pose proof (tr_tasks _ Hw _ _ Et) as Ht.
  destruct (ft_phase task); try (apply ends_here; [done | ssteps]; fail).
  destruct received as [payload|e]; [|apply ends_here; [done | ssteps]].
  specialize (Hrep task payload eq_refl eq_refl). unfold task_response. cbv zeta.
  set (task' := task <| ft_recv_errors := 0 |>). apply ends_here; [exact Hw|].
  sstep; [by apply stays_set_task|]. apply stays_here. intros w1 Hw1. change (id w1) with w1.
  apply ends_here; [exact Hw1|]. destruct (negb _); [sstep|].
  destruct (v1_flows w1 !! ft_key task') as [entry|] eqn:Ef; [|ssteps].
  destruct (bool_decide (fe_generation entry = g)); [|sstep].
  apply ends_bind_lift. intros ip Eip.
  apply stays_bind; [|intros ?]. { apply stays_mod. intros s [H1 H2 H3 H4 H5 H6]. constructor; try assumption. cbn.
    apply Forall_app_2; [exact H5 | apply list.Forall_singleton].
    destruct (tr_flows _ Hw1 _ _ Ef) as (sid & game & addr & sent & Ek & Hask).
    destruct Ht as (Hkey & (addr' & info' & sent' & Hev) & _).
    destruct (flow_key_inj (ft_session_id task) sid (ft_game_addr task) game) as [Es Eg];
      [by eapply Hwf | by eapply Hwf | cbn in Ek; congruence|].
    exists (ft_game_addr task), (fe_original_info entry), addr, sent, payload, ip. cbn. rewrite Es, Eg in *. done. }
  apply stays_bind; [|intros ?]. { apply stays_mod. intros s. apply traced_flows, kept_flows_alter. intros x. by case_bool_decide. }
  apply stays_base, flowing_leaves. by apply leaves_mod.
Qed.

(* ------------------------------------------------------------------ *)
(** ** The response sender and the cleanup *)

Hypothesis Hsendable : forall sid frame, response_data sid frame -> task_frame F sid frame.

Lemma flowing_send addr bytes ok :
  acked F addr bytes -> stays (flowing F []) (v1_send addr bytes ok).
Proof.
  intros Ha. unfold v1_send. destruct ok; [|apply stays_ret].
  apply stays_mod. intros s [H1 H2 H3 H4 H5 H6 H7 H8 H9]. constructor; try assumption. cbn.
  apply all_justified_snoc; [exact H4 | by apply JControl].
Qed.

(** The account budget sends nothing. *)
Lemma base_budget_traced n sid out p mono :
  ends (fun s => traced s /\ length (v_sent (v1_base s)) = n) (h_base (h_budget sid out p mono))
    (fun _ s => traced s /\ length (v_sent (v1_base s)) = n) traced.
Proof.
  intros s s' c [Hs Hn] E.
  pose proof (stays_base _ (flowing_budget F sid out p mono []) _ _ _ Hs E) as Ht.
  unfold h_base in E. destruct (h_budget sid out p mono (v1_base s)) as [[b c']|] eqn:Eb; [|discriminate].
  injection E as <- <-. destruct c' as [x|]; [|exact Ht]. split; [exact Ht|]. cbn.
  apply sent_budget in Eb. injection Eb as Es _. by rewrite Es.
Qed.

Lemma traced_response cfg ok tu mono w0 :
  (forall sid addr, forwarding_addr (v_sessions (v1_base w0)) sid (auth_needed cfg) tu = Some addr ->
     dest F sid addr (length (v_sent (v1_base w0)))) ->
  ends (fun w => traced w /\ w = w0) (v1_response cfg ok tu mono) (fun _ => traced) traced.
Proof.
  intros Hdest. unfold v1_response. apply ends_get. intros queue.
  apply (ends_pure (traced w0 /\ queue = v1_responses w0)); [by intros s [[Hs ->] ->]|]. intros [Hw Eq].
  apply (ends_pre _ (fun s => s = w0)); [|by intros s [[_ ->] _]].
  destruct queue as [|[[hint sid] data] rest]; [apply ends_here; [done | ssteps]|].
  pose proof (tr_responses _ Hw) as Hr. rewrite <- Eq in Hr. apply Forall_cons_1 in Hr as [Hd Hr].
  set (n := length (v_sent (v1_base w0))) in *.
  set (here := fun s => traced s /\ length (v_sent (v1_base s)) = n).
  apply ends_bind with (fun _ s => here s /\ v_sessions (v1_base s) = v_sessions (v1_base w0)).
  { apply ends_mod. intros s ->. split; [|done]. split; [|done]. destruct Hw. by constructor. }
  intros ?. apply ends_get. intros sessions.
  destruct (forwarding_addr sessions _ _ _) as [addr|] eqn:Ef; [|apply ends_continue; by intros s [[[]]]].
  apply (ends_pure (dest F sid addr n)).
  { intros s [[_ HS] ->]. apply Hdest. by rewrite <- HS. }
  intros Hda. apply (ends_pre _ here); [|by intros s [[]]].
  apply ends_bind_lift. intros ip _. eapply ends_bind; [apply base_budget_traced|].
  assert (forall m : H1 unit, stays traced m -> ends here m (fun _ => traced) traced) as Hstay.
  { intros m Hm. by apply (ends_pre _ traced); [|intros s []]. }
  intros b. destruct (negb b); [apply Hstay; ssteps; apply stays_base, flowing_drop_out|].
  destruct ok; [|apply Hstay; ssteps; apply stays_base, stays_ret].
  apply ends_bind with (fun _ => traced); [|intros ?; apply stays_base, flowing_leaves; by apply leaves_mod].
  intros s s' c [Hs Hn] [= <- <-]. apply traced_base; [|exact Hs].
  destruct (tr_base _ Hs) as [H1 H2 H3 H4 H5 H6 H7 H8 H9]. constructor; try assumption. cbn.
  apply all_justified_snoc; [exact H4|]. rewrite Hn. by apply (JTask _ _ sid); [|apply Hsendable].
Qed.

Lemma traced_finish : stays (flowing F []) v1_cleanup_finish.
Proof. apply flowing_leaves. unfold v1_cleanup_finish, close_finish. lsteps. Qed.

Lemma traced_sweep t : stays traced (v1_sweep_turn t).
Proof.
  unfold v1_sweep_turn. sstep; [sstep|].
  assert (forall f, (forall w, traced w -> traced (f w)) -> stays traced (hmod f)) as Hmod by (intros; by apply stays_mod).
  destruct a as [[now []]|].
  - apply Hmod. intros w [H1 H2 H3 H4 H5 H6]. by constructor.
  - sstep; [apply Hmod; intros w [H1 H2 H3 H4 H5 H6]; by constructor|]. sstep; [sstep|].
    apply stays_base. apply stays_bind; [apply traced_finish|]. intros ?.
    generalize ((map_to_list a0).*1). intros sids.
    induction sids as [|sid sids IH]; cbn [v1_cleanup_sessions]; [apply stays_ret|].
    apply stays_bind; [|intros ?; exact IH]. unfold v1_cleanup_session.
    apply stays_bind; [apply flowing_close_begin | intros ?; apply traced_finish].
  - sstep; [apply Hmod; intros w [H1 H2 H3 H4 H5 H6]; by constructor|].
    apply stays_base, flowing_leaves. by apply leaves_mod.
  - apply Hmod. intros w Hw. pose proof (tr_base _ Hw) as Hb. destruct Hw as [H1 H2 H3 H4 H5 H6].
    constructor; try assumption. cbn. by apply (flowing_frame _ _ (v1_base w)).
  - apply Hmod. intros w Hw.
    assert (traced (w <| v1_flows ::= omap (v1_cleanup_flow t) |>)) as [H1 H2 H3 H4 H5 H6]; [|by constructor].
    apply traced_flows; [|exact Hw]. intros key f' E. rewrite lookup_omap in E.
    destruct (v1_flows w !! key) as [f|]; [|discriminate]. cbn in E. exists f. split; [done|].
    unfold v1_cleanup_flow in E. repeat case_match; by simplify_eq.
Qed.

(* ------------------------------------------------------------------ *)
(** ** The receive loop *)

Section Rx.
Context `{TicketCrypto} (hash_one : IpAddr -> Z) (cfg : Config) (i : RxInput) (ok : bool).
Let sid : list Z := take SESSION_ID_LEN (buf i).
Hypothesis Hack : forall status, acked F (from i) (sid ++ [AUTH_ACK_FRAME_TYPE; status]).
Hypothesis Hpolicy : forall g protocol dst port, in_force F g -> in_force F (permits g protocol dst port).1.

Lemma traced_ack status : stays traced (v1_ack i sid status ok).
Proof. by apply stays_base, flowing_send. Qed.
Lemma traced_pending : stays traced (h_base (h_pending hash_one i)).
Proof. apply stays_base, flowing_pending. Qed.
Lemma traced_verify token : stays traced (h_base (h_verify_once cfg i sid token)).
Proof. apply stays_base, flowing_verify_once. Qed.
Lemma traced_event k : stays traced (h_base (h_source_event i k)).
Proof. apply stays_base, flowing_source_event. Qed.
Lemma traced_require a : stays traced (v1_require_auth cfg a).
Proof. unfold v1_require_auth. ssteps. Qed.
Lemma traced_name ip : stays traced (h_base (h_name_legacy sid ip)).
Proof. apply stays_base, flowing_name_legacy. Qed.
#[local] Hint Resolve traced_ack traced_pending traced_verify traced_event traced_require traced_name : handler.

Lemma traced_ticket b : stays traced (v1_ticket hash_one cfg i sid b ok).
Proof. unfold v1_ticket. ssteps. Qed.
Lemma traced_hint t : stays traced (v1_reauth_hint hash_one cfg i sid t ok).
Proof. unfold v1_reauth_hint. ssteps. Qed.
Lemma traced_admit : stays traced (v1_admit i sid).
Proof.
  unfold v1_admit. ssteps. apply stays_base, flowing_leaves, leaves_run. intros s s' r E.
  destruct (v1_session_capacity_available _ _ _ _). by injection E as <- <-.
Qed.
Lemma traced_hello t : stays traced (v1_hello cfg i sid t ok).
Proof.
  unfold v1_hello. ssteps. apply stays_base, flowing_leaves, leaves_mod. intros s. by destruct (v_sessions s !! sid).
Qed.

Lemma traced_ping a :
  (forall seq ts, rd_be (buf i) (SESSION_ID_LEN + 1) 4 = Ret seq -> rd_be (buf i) (SESSION_ID_LEN + 5) 8 = Ret ts ->
     acked F (from i) (pong_bytes sid seq ts (mono_ms i))) ->
  stays traced (v1_ping cfg i sid a ok).
Proof.
  intros Hpong. unfold v1_ping. sstep; [sstep|].
  apply ends_bind_lift. intros seq Eseq. apply ends_bind_lift. intros ts Ets.
  apply stays_bind; [apply stays_base, flowing_send; auto|]. intros ?.
  apply stays_bind; [|intros ?; ssteps]. destruct ok; [|ssteps].
  apply stays_base, flowing_leaves. by apply leaves_mod.
Qed.

Lemma traced_rtt a : stays traced (v1_rtt cfg i sid a).
Proof. unfold v1_rtt. ssteps. apply stays_base, flowing_leaves. by apply leaves_mod. Qed.

Lemma traced_resolve a :
  (forall request_id hosts, parse_resolve_request (buf i) (len i) = Ret (Some (request_id, hosts)) ->
     resolving F (sid, request_id, hosts, from i)) ->
  stays traced (v1_resolve cfg i sid a).
Proof.
  intros Hres. unfold v1_resolve. sstep; [sstep|]. apply ends_bind_lift. intros [[rid hosts]|] Er; [|by apply ends_continue].
  apply stays_bind; [|intros ?; ssteps]. apply stays_base, stays_mod.
  intros s [H1 H2 H3 H4 H5 H6 H7 H8 H9]. constructor; try assumption. cbn.
  apply Forall_app_2; [exact H5 | apply list.Forall_singleton; auto].
Qed.

Lemma traced_keepalive a : stays traced (v1_keepalive cfg i sid a).
Proof.
  unfold v1_keepalive. ssteps. apply stays_mod. intros w. apply traced_flows.
  generalize (default [] (v1_index w !! sid)) as keys, (v1_flows w) as m.
  induction keys as [|k keys IH]; intros m; cbn [fold_left]; [by intros key f E; exists f|].
  eapply kept_flows_trans; [|apply IH]. by apply kept_flows_alter.
Qed.

Lemma traced_udp game payload info :
  asked F sid (from i) game info payload -> stays traced (v1_udp i sid game payload info).
Proof.
  intros Hask. unfold v1_udp. cbv zeta. sstep; [sstep|]. sstep; [sstep|]. sstep.
  - ssteps. apply ends_run. intros w w' r Hw E. destruct (v1_flow_capacity_available _ _ _ _) as [st room].
    injection E as <- <-. pose proof (tr_base _ Hw) as Hb. destruct Hw as [H1 H2 H3 H4 H5 H6].
    constructor; try assumption. cbn. by apply (flowing_frame _ _ (v1_base w)).
  - apply stays_mod. intros w [H1 H2 H3 H4 H5 H6]. by constructor.
Qed.

Lemma traced_forward p :
  (forall game payload info raw, p = Udp game payload info raw -> asked F sid (from i) game info payload) ->
  (p <> Packet.ForbiddenDst -> tun_in F (MkInbound sid (from i) (raw_of p))) ->
  stays traced (v1_forward cfg i sid p).
Proof.
  intros Hask Htun. unfold v1_forward.
  assert (forall raw count, p <> Packet.ForbiddenDst -> raw_of p = raw ->
            stays traced (h_base (h_tun cfg i sid raw count))) as Ht.
  { intros raw count Hne <-. by apply stays_base, flowing_tun, Htun. }
  destruct p; ssteps; try (by apply Ht). by eapply traced_udp, Hask.
Qed.

Lemma traced_packet a : rx_facts F i -> stays traced (v1_packet cfg i sid a).
Proof.
  intros [_ _ Hasked Htun]. unfold v1_packet. sstep; [sstep|]. sstep; [ssteps|]. apply ends_bind_lift. intros ip Eip.
  apply ends_bind with (fun r w => traced w /\ forall p, r = Some p -> understood F i p).
  { intros w w' c Hw E. unfold h_base, h_parse, hrun in E.
    destruct (parse_ip_packet_full (v_policy (v1_base w)) ip) as [[g' r]|] eqn:Ep; [|discriminate].
    injection E as <- <-. pose proof (tr_base _ Hw) as [H1 H2 H3 H4 H5 H6 H7 H8 H9]. split.
    - apply traced_base; [|exact Hw]. constructor; try assumption. cbn. exact (parse_policy_trail _ Hpolicy _ _ _ _ H9 Ep).
    - intros p ->. by exists ip, (v_policy (v1_base w)), g'. }
  intros r. apply (ends_pure (forall p, r = Some p -> understood F i p)); [by intros s []|]. intros Hr.
  apply (ends_pre _ traced); [|by intros s []].
  destruct r as [p|]; [specialize (Hr p eq_refl)|apply stays_bind; [sstep | intros ?; sstep]].
  assert (stays traced (v1_forward cfg i sid p)) as Hf.
  { apply traced_forward; [|by apply Htun]. intros game payload info raw ->. by eapply Hasked. }
  assert (stays traced (let! ok := h_base (h_budget sid false ip (mono_ms i)) in
     if negb ok then v1_drop_in RateLimit ;! hcontinue else v1_forward cfg i sid p)) as Hgo.
  { sstep; [apply stays_base, flowing_budget|]. ssteps. }
  destruct p; try exact Hgo. exact Hf.
Qed.

Lemma traced_rx w0 :
  (entitled cfg i (v1_base w0) -> rx_facts F i) ->
  ends (fun w => traced w /\ w = w0) (v1_rx hash_one cfg i ok) (fun _ => traced) traced.
Proof.
  intros Hfacts. apply v1_rx_ends_with; auto using traced_ticket, traced_hint, traced_admit.
  { intros f. apply stays_base, flowing_stat. }
  intros b ticket Hsid _ Hb Hauth. apply (ends_pre _ traced); [|by intros w []].
  unfold v1_tail. apply stays_bind; [apply stays_base, flowing_session|]. intros [x y].
  apply stays_bind; [apply stays_base, flowing_ingress|]. intros ?.
  destruct b; [apply traced_hello|].
  assert (rx_facts F i) as Hr.
  { apply Hfacts. intros Ha. apply (Hauth Ha). destruct ticket as [t|]; [discriminate (Hb t eq_refl) | done]. }
  pose proof Hr as [R1 R2 R3 R4].
  destruct (negb y); [ssteps|]. unfold v1_frame. apply stays_bind; [apply stays_lift|]. intros c.
  repeat (destruct (_ && _)); [by apply traced_ping | ssteps | by apply traced_rtt | by apply traced_resolve |].
  destruct (_ =? _)%nat; [by apply traced_keepalive | by apply traced_packet].
Qed.

End Rx.

End Traced.

(* ------------------------------------------------------------------ *)
(** ** Runs *)

Lemma v1_run_app `{TicketCrypto} hash_one cfg cap l1 l2 w :
  v1_run hash_one cfg cap w (l1 ++ l2) = (let* w' := v1_run hash_one cfg cap w l1 in v1_run hash_one cfg cap w' l2).
Proof.
  revert w. induction l1 as [|a l1 IH]; intros w; [done|]. cbn.
  destruct (v1_step hash_one cfg cap w a); [apply IH | done].
Qed.

Section Run.
Context `{TicketCrypto} (hash_one : IpAddr -> Z) (cfg : Config) (cap : nat) (w0 : V1) (l : list v1_turn).

(** A turn of the run, with the state it starts in. *)
Definition during1 (P : v1_turn -> V1 -> Prop) : Prop :=
  exists l1 a l2 w, l = l1 ++ a :: l2 /\ v1_run hash_one cfg cap w0 l1 = Ret w /\ P a w.

Definition v1_asked (sid : list Z) (addr game : SocketAddr) (info : OriginalPacketInfo) (payload : list Z) : Prop :=
  during1 (fun a w => exists i ok raw, a = RecvTurn i ok /\ sid = take SESSION_ID_LEN (buf i) /\ addr = from i
    /\ entitled cfg i (v1_base w) /\ reads (v1_base w0) i (Udp game payload info raw)).

(** A datagram received by the task of a session and its game server. *)
Definition v1_replied (sid : list Z) (game : SocketAddr) (payload : list Z) : Prop :=
  during1 (fun a w => exists g t tu task, a = TaskRecvTurn g (Ok payload) t tu /\ v1_tasks w !! g = Some task
    /\ ft_session_id task = sid /\ ft_game_addr task = game).

Definition sends_at1 (a : v1_turn) (tu : Z) : Prop :=
  (exists ok mono, a = ResponseTurn ok tu mono) \/ (exists ok mono, a = TunRespTurn ok tu mono).
Definition v1_dest (sid : list Z) (addr : SocketAddr) (n : nat) : Prop :=
  during1 (fun a w => exists tu, sends_at1 a tu /\ length (v_sent (v1_base w)) = n
    /\ forwarding_addr (v_sessions (v1_base w)) sid (auth_needed cfg) tu = Some addr).

(** The frame of a game server's datagram: the session id and the packet
    built with the endpoints of a packet the session sent to that server. *)
Definition v1_data_frame (sid frame : list Z) : Prop :=
  exists game info addr sent payload ip,
    v1_asked sid addr game info sent /\ v1_replied sid game payload
    /\ build_response_ip_packet payload info = Ret ip /\ frame = sid ++ ip.

Definition v1_facts : Facts := {|
  asked := v1_asked;
  answered := fun _ _ _ => False;
  acked addr frame :=
    during1 (fun a w => exists i ok, a = RecvTurn i ok /\ addr = from i /\ acknowledges i frame);
  resolving := fun '(sid, request_id, hosts, addr) => during1 (fun a w => exists i ok,
    a = RecvTurn i ok /\ sid = take SESSION_ID_LEN (buf i) /\ addr = from i /\ entitled cfg i (v1_base w)
    /\ parse_resolve_request (buf i) (len i) = Ret (Some (request_id, hosts)));
  tun_in packet := during1 (fun a w => exists i ok p,
    a = RecvTurn i ok /\ entitled cfg i (v1_base w) /\ reads (v1_base w0) i p /\ p <> Packet.ForbiddenDst
    /\ packet = MkInbound (take SESSION_ID_LEN (buf i)) (from i) (raw_of p));
  tun_out r := during1 (fun a w => exists packet t,
    a = TunReadTurn packet /\ v_nat (v1_base w) = Some t /\ reader_step t packet = Ret (Some r));
  task_frame := v1_data_frame;
  dest := v1_dest;
  in_force := same_policy (v_policy (v1_base w0));
|}.

Hypothesis Hl : Forall v1_turn_ok l.

Lemma v1_asked_key sid addr game info payload :
  v1_asked sid addr game info payload -> well_formed_key sid game.
Proof.
  intros (l1 & a & l2 & w & El & _ & i & ok & raw & -> & -> & _ & _ & ip & g & g' & Es & _ & Ep).
  assert (v1_turn_ok (RecvTurn i ok)) as (Hlen & Hi & Hb).
  { rewrite list.Forall_forall in Hl. apply Hl. rewrite El. apply elem_of_app. right. by left. }
  destruct (parse_typed _ _ _ _ _ _ _ (bytes_ok_slice _ _ _ _ Hb Es) Ep) as (Hinfo & _ & _).
  destruct (parse_udp_result _ _ _ _ _ _ _ Ep) as (-> & _).
  split; [by apply bytes_ok_take|]. split.
  - rewrite length_take, Hlen. pose proof max_packet_size. unfold SESSION_ID_LEN. lia.
  - exists (dst_ip info), (dst_port info). split; [done|]. destruct Hinfo. by split.
Qed.

Abbreviation ok1 := (traced v1_facts v1_replied).

Lemma turn_traced l1 a l2 w w' :
  l = l1 ++ a :: l2 -> v1_run hash_one cfg cap w0 l1 = Ret w -> V1Safe.flows_ok cap w ->
  ok1 w -> v1_step hash_one cfg cap w a = Ret w' -> ok1 w'.
Proof.
  intros El Er Hf Hw E. apply obind_inv in E as ([w1 c] & E & [= <-]).
  assert (forall P : v1_turn -> V1 -> Prop, P a w -> during1 P) as Hd by (intros P HP; by exists l1, a, l2, w).
  assert (stays ok1 (v1_handler hash_one cfg cap a) -> ok1 w1) as Hstay.
  { intros Hs. pose proof (Hs w w1 c Hw E). by destruct c. }
  assert (ends (fun s => ok1 s /\ s = w) (v1_handler hash_one cfg cap a) (fun _ => ok1) ok1 -> ok1 w1) as Hends.
  { intros Hs. pose proof (Hs w w1 c (conj Hw eq_refl) E). by destruct c. }
  destruct a; cbn [v1_handler] in *.
  - apply Hends, traced_rx.
    + intros status. apply Hd. exists i, sent_ok. repeat split. left. by exists status.
    + intros g protocol dst port Hg. exact (transitivity Hg (permits_same_policy g protocol dst port)).
    + intros He. constructor.
      * intros seq ts E1 E2. apply Hd. exists i, sent_ok. repeat split. right. by exists seq, ts.
      * intros rid hosts Er'. apply Hd. by exists i, sent_ok.
      * intros game payload info raw Hu. apply Hd. by exists i, sent_ok, raw.
      * intros p Hu Hne. apply Hd. by exists i, sent_ok, p.
  - apply Hends. apply traced_entry; [exact v1_asked_key | exact Hf].
  - apply Hstay, traced_publish.
  - apply Hstay, traced_start.
  - apply Hstay, traced_send.
  - apply Hends, traced_recv; [exact v1_asked_key|]. intros task payload Et ->. apply Hd. by exists g, t, now_unix, task.
  - apply Hstay, traced_idle.
  - apply Hends, traced_response; [by intros sid frame|]. intros sid addr Ef. apply Hd. exists now_unix. split; [left; eauto | done].
  - apply Hstay, traced_sweep.
  - apply Hstay, stays_base, flowing_close_begin.
  - apply Hstay, stays_base, traced_finish.
  - apply Hstay, stays_base, flowing_leaves. by apply leaves_mod.
  - apply Hstay, stays_base, flowing_tun_assign.
  - apply Hstay, stays_base, flowing_tun_commit.
  - apply Hends, stays_base_at, flowing_tun_read. intros t r Et Er'. apply Hd. by exists packet, t.
  - apply Hends, stays_base_at, flowing_tun_resp. intros sid addr Ef. apply Hd. exists now_unix. split; [right; eauto | done].
  - apply Hstay, stays_base, flowing_resolve_reply.
  - apply Hstay, stays_base, flowing_leaves. by apply leaves_mod.
Qed.

Hypothesis Hcap : (0 < cap)%nat.
Hypothesis Hinv : inv1 cap w0.

Lemma run_traced l1 l2 w :
  ok1 w0 -> l = l1 ++ l2 -> v1_run hash_one cfg cap w0 l1 = Ret w -> ok1 w.
Proof.
  intros Hstart. revert l2 w. induction l1 as [|a l1 IH] using rev_ind; intros l2 w El E.
  { by injection E as <-. }
  rewrite v1_run_app in E. apply obind_inv in E as (u & Eu & E). cbn in E.
  apply obind_inv in E as (w' & Ew & [= <-]). rewrite <- app_assoc in El.
  assert (inv1 cap u) as [_ Hf].
  { rewrite El in Hl. apply Forall_app in Hl as [Hl1 _].
    pose proof (v1_run_returns hash_one cfg cap l1 w0 Hcap Hinv Hl1) as Hr. rewrite Eu in Hr. exact Hr. }
  exact (turn_traced _ _ _ _ _ El Eu Hf (IH _ _ El Eu) Ew).
Qed.

End Run.

Lemma traced_new F replied policy budget tun t0 :
  in_force F policy -> traced F replied (v1_start policy budget tun t0).
Proof.
  intros Hp. constructor; cbn -[MAX_PACKET_SIZE]; try (by constructor); [by apply flowing_new|..];
    intros x y E; by rewrite lookup_empty in E.
Qed.

(* ------------------------------------------------------------------ *)
(** ** Theorems *)

Lemma v1_turn_rx_ok l l1 i ok l2 : Forall v1_turn_ok l -> l = l1 ++ RecvTurn i ok :: l2 -> bytes_ok (buf i).
Proof.
  intros Hl ->. apply Forall_app in Hl as [_ Hl]. by apply Forall_cons_1 in Hl as [(_ & _ & Hb) _].
Qed.

(** The state at the end of a run, with its traces. *)
Lemma v1_end_traced `{TicketCrypto} hash_one cfg raw policy budget tun t0 (l : list v1_turn) w :
  Forall v1_turn_ok l -> v1_run hash_one cfg (flow_cap raw) (v1_start policy budget tun t0) l = Ret w ->
  traced (v1_facts hash_one cfg (flow_cap raw) (v1_start policy budget tun t0) l)
    (v1_replied hash_one cfg (flow_cap raw) (v1_start policy budget tun t0) l) w.
Proof.
  intros Hl E. eapply (run_traced hash_one cfg (flow_cap raw) _ l Hl (flow_cap_pos raw) (inv1_new _ _ _ _ _) l []);
    [by apply traced_new | by rewrite app_nil_r | exact E].
Qed.

(** C19: what the tokio datapath sends to the internet.  In every state a run
    reaches, in any interleaving of the receive loop, the flow tasks and the
    cleanup, each datagram a flow task has sent is, byte for byte, the UDP
    payload of a client packet the receive loop took in that run for the
    task's session and addressed to the task's game server; with
    authentication on the session was authorised when the packet arrived.  Its
    destination is outside the reserved blocks and forbidden ports, and on
    the allowlist when the policy enforces. *)
Theorem v1_game_data_from_clients `{TicketCrypto} hash_one cfg cap_env requested file ports budget tun t0
  (l : list v1_turn) w key bytes :
  let policy := build requested file ports in
  let w0 := v1_start policy budget tun t0 in
  Forall v1_turn_ok l -> v1_run hash_one cfg (flow_cap cap_env) w0 l = Ret w -> (key, bytes) ∈ v1_to_game w ->
  exists l1 i ok l2 wb info raw,
    l = l1 ++ RecvTurn i ok :: l2 /\ v1_run hash_one cfg (flow_cap cap_env) w0 l1 = Ret wb
    /\ take SESSION_ID_LEN (buf i) = k_session_id key
    /\ (auth_needed cfg = true -> authorised i (v_sessions (v1_base wb)) (k_session_id key))
    /\ reads (v1_base w0) i (Udp (k_game_addr key) bytes info raw)
    /\ k_game_addr key = SockV4 (dst_ip info) (dst_port info)
    /\ is_forbidden_dst (dst_ip info) = false /\ is_forbidden_dst_port (dst_port info) = false
    /\ (mode policy = Enforce -> covered (udp policy) (dst_ip info) = true).
Proof.
  intros policy w0 Hl E Hin. pose proof (tr_game _ _ _ (v1_end_traced _ _ _ _ _ _ _ _ _ Hl E)) as Hg.
  rewrite list.Forall_forall in Hg.
  destruct (Hg _ Hin) as (addr & info & l1 & a & l2 & wb & El & Eb & i & ok & raw & -> & Es & _ & He & Hr).
  exists l1, i, ok, l2, wb, info, raw. cbn [fst snd] in *.
  destruct (reads_udp (v1_base w0) i (v1_turn_rx_ok _ _ _ _ _ Hl El) (build_ok requested file ports) _ _ _ _ Hr)
    as (H1 & H2 & H3 & H4).
  repeat (split; [done|]). split; [|done]. rewrite Es. exact He.
Qed.

Lemma v1_datagrams_app l1 l2 : v1_datagrams (l1 ++ l2) = v1_datagrams l1 ++ v1_datagrams l2.
Proof. unfold v1_datagrams. induction l1 as [|a l1 IH]; [done|]. cbn. rewrite IH. by destruct a. Qed.

(** C20: what the tokio datapath sends to clients.  With authentication on,
    in every state a run reaches, each frame on the main socket is either an
    answer to a datagram, to the address it came from (an ack, a pong that
    echoes its numbers, or a resolver reply), or went to an address that had
    presented, before it was sent, a ticket verified for its session whose
    lease was not over at the clock of the very turn that sent the frame (the
    [n]-th frame is sent by the turn that starts with [n] frames sent), and is
    that session's id with the packet built around a datagram its own flow
    task received from the game server, with the endpoints of a packet the
    session sent there, or with a packet the TUN reader queued for it. *)
Theorem v1_client_frames_justified `{TicketCrypto} hash_one cfg cap_env policy budget tun t0
  (l : list v1_turn) w n addr frame :
  let w0 := v1_start policy budget tun t0 in
  let cap := flow_cap cap_env in
  auth_needed cfg = true -> Forall v1_turn_ok l -> v1_run hash_one cfg cap w0 l = Ret w ->
  v_sent (v1_base w) !! n = Some (addr, frame) ->
  (exists i ok, RecvTurn i ok ∈ l /\ addr = from i /\ replies i frame)
  \/ exists l1 b l2 wb sid tu,
       l = l1 ++ b :: l2 /\ v1_run hash_one cfg cap w0 l1 = Ret wb /\ length (v_sent (v1_base wb)) = n
       /\ sends_at1 b tu /\ ticket_holder cfg (v1_datagrams l1) sid tu addr
       /\ (v1_data_frame hash_one cfg cap w0 l sid frame
           \/ exists r, tun_out (v1_facts hash_one cfg cap w0 l) r /\ tx_session_id r = sid
                /\ frame = sid ++ tx_ip_packet r).
Proof.
  intros w0 cap Ha Hl E Hin. set (F := v1_facts hash_one cfg cap w0 l).
  pose proof (d_sent _ _ _ (tr_base _ _ _ (v1_end_traced _ _ _ _ _ _ _ _ _ Hl E)) _ _ Hin) as Hs. fold cap w0 F in Hs.
  assert (forall sid a (P : Prop), dest F sid a n -> P -> exists l1 b l2 wb tu,
            l = l1 ++ b :: l2 /\ v1_run hash_one cfg cap w0 l1 = Ret wb /\ length (v_sent (v1_base wb)) = n
            /\ sends_at1 b tu /\ ticket_holder cfg (v1_datagrams l1) sid tu a /\ P) as Hdest.
  { intros sid a P (l1 & b & l2 & wb & El & Eb & tu & Hb & Hn & Ef) HP. rewrite Ha in Ef.
    exists l1, b, l2, wb, tu. repeat (split; [done|]). split; [|exact HP].
    rewrite El in Hl. apply Forall_app in Hl as [Hl1 _]. by eapply v1_forwarding_ticketed. }
  assert (forall l1 i ok l2, l = l1 ++ RecvTurn i ok :: l2 -> RecvTurn i ok ∈ l) as Hel
    by (intros l1 i ok l2 ->; apply elem_of_app; right; by left).
  inversion Hs as [a f Hack Ea|sid a f Hd Hf Ea|sid a f Hd Hf Ea|r a Hd Hr Ea|sid rid hosts a lookup Hres Ea]; subst.
  - destruct Hack as (l1 & b & l2 & wb & El & _ & i & ok & -> & -> & Hk).
    left. exists i, ok. split; [by eapply Hel|]. split; [done | by left].
  - destruct Hf as (game & info & a & sent & payload & rtos & ip & _ & Hno & _). contradiction.
  - right. destruct (Hdest sid addr _ Hd Hf) as (l1 & b & l2 & wb & tu & E1 & E2 & E3 & E4 & E5 & E6).
    exists l1, b, l2, wb, sid, tu. repeat (split; [done|]). by left.
  - right. destruct (Hdest _ addr _ Hd Hr) as (l1 & b & l2 & wb & tu & E1 & E2 & E3 & E4 & E5 & E6).
    exists l1, b, l2, wb, (tx_session_id r), tu. repeat (split; [done|]). right. by exists r.
  - left. destruct Hres as (l1 & b & l2 & wb & El & _ & i & ok & -> & -> & -> & _ & Ep). exists i, ok.
    split; [by eapply Hel|]. split; [done|]. right. eauto.
Qed.

(* ------------------------------------------------------------------ *)
(** ** Witnesses *)

Section Witnesses.
#[local] Existing Instance toy_crypto.

(** A hello frame, a packet on a new flow, the game's answer and its frame. *)
Definition v1_trace_turns : list v1_turn := toy_v1_turns ++ [ResponseTurn true 1205 5].
Definition v1_trace_end : V1 :=
  match v1_run toy_hash toy_cfg (flow_cap None) toy_v1_start v1_trace_turns with
  | Ret w => w | Panic => toy_v1_start end.

Lemma v1_trace_ok : Forall v1_turn_ok v1_trace_turns.
Proof. apply Forall_app_2; [exact toy_v1_turns_ok | by repeat constructor]. Qed.

Definition v1_sent_key : FlowKey :=
  match v1_to_game v1_trace_end with (k, _) :: _ => k | [] => MkKey [] toy_client end.
Definition v1_sent_bytes : list Z := match v1_to_game v1_trace_end with (_, b) :: _ => b | [] => [] end.

Lemma v1_game_data_from_clients_witness :
  let policy := build Observe None [] in
  let w0 := v1_start policy toy_budget false 0 in
  k_session_id v1_sent_key = toy_sid
  /\ exists l1 i ok l2 wb info raw,
    v1_trace_turns = l1 ++ RecvTurn i ok :: l2 /\ v1_run toy_hash toy_cfg (flow_cap None) w0 l1 = Ret wb
    /\ take SESSION_ID_LEN (buf i) = k_session_id v1_sent_key
    /\ (auth_needed toy_cfg = true -> authorised i (v_sessions (v1_base wb)) (k_session_id v1_sent_key))
    /\ reads (v1_base w0) i (Udp (k_game_addr v1_sent_key) v1_sent_bytes info raw)
    /\ k_game_addr v1_sent_key = SockV4 (dst_ip info) (dst_port info)
    /\ is_forbidden_dst (dst_ip info) = false /\ is_forbidden_dst_port (dst_port info) = false
    /\ (mode policy = Enforce -> covered (udp policy) (dst_ip info) = true).
Proof.
  intros policy w0. split; [vm_compute; reflexivity|].
  apply (v1_game_data_from_clients toy_hash toy_cfg None Observe None [] toy_budget false 0 v1_trace_turns v1_trace_end).
  - exact v1_trace_ok.
  - apply returned. vm_compute. reflexivity.
  - apply list_elem_of_lookup. exists 0%nat. vm_compute. reflexivity.
Defined.

Definition v1_trace_frame : list Z :=
  match v_sent (v1_base v1_trace_end) with _ :: (_, f) :: _ => f | _ => [] end.

Lemma v1_client_frames_justified_witness :
  drop 36 v1_trace_frame = [7; 7]
  /\ ((exists i ok, RecvTurn i ok ∈ v1_trace_turns /\ toy_client = from i /\ replies i v1_trace_frame)
      \/ exists l1 b l2 wb sid tu,
           v1_trace_turns = l1 ++ b :: l2
           /\ v1_run toy_hash toy_cfg (flow_cap None) toy_v1_start l1 = Ret wb
           /\ length (v_sent (v1_base wb)) = 1%nat
           /\ sends_at1 b tu /\ ticket_holder toy_cfg (v1_datagrams l1) sid tu toy_client
           /\ (v1_data_frame toy_hash toy_cfg (flow_cap None) toy_v1_start v1_trace_turns sid v1_trace_frame
               \/ exists r, tun_out (v1_facts toy_hash toy_cfg (flow_cap None) toy_v1_start v1_trace_turns) r
                    /\ tx_session_id r = sid /\ v1_trace_frame = sid ++ tx_ip_packet r)).
Proof.
  split; [vm_compute; reflexivity|].
  apply (v1_client_frames_justified toy_hash toy_cfg None toy_policy toy_budget false 0 v1_trace_turns v1_trace_end 1).
  - reflexivity.
  - exact v1_trace_ok.
  - apply returned. vm_compute. reflexivity.
  - vm_compute. reflexivity.
Defined.

End Witnesses.
