(* ===== verification/Startup.v ===== *)
(** * Startup (src/main.rs: [handle_cli_args], the ports and the token, the
    start of [main], [build_runtime_config]; src/datapath_v2.rs: the start of
    [run_datapath_v2])

    From the command line and the environment to the configuration the
    datapaths run with.  What the system answers (whether the main socket
    binds and with which buffer sizes, whether the TUN device opens) is an
    argument. *)

From Stdlib Require Import String.
From S2P Require Import Prelude Net RustStr Tuning Auth Frames HttpApi Handler V2State V2Rx.

Definition DEFAULT_PORT : Z := 51821.
Definition DEFAULT_STATS_PORT : Z := 51822.
Definition DEFAULT_HEALTH_PORT : Z := 8081.
Definition RELAY_VERSION : str := lit "1.5.0".

(* ------------------------------------------------------------------ *)
(** ** The command line *)

Inductive CliResult : Type :=
| CliContinue
| CliExit (output : str)
| CliUnknown (arg : str).

(** [handle_cli_args]: the arguments after the program's name; only the first
    is looked at. *)
Definition handle_cli_args (args : list str) : CliResult :=
  match args with
  | [] => CliContinue
  | arg :: _ =>
      if str_eqb arg (lit "-V") || str_eqb arg (lit "--version") then
        CliExit (lit "swifttunnel-relay " ++ RELAY_VERSION)
      else if str_eqb arg (lit "-h") || str_eqb arg (lit "--help") then
        CliExit (lit "swifttunnel-relay " ++ RELAY_VERSION ++ [10; 10]
                 ++ lit "Usage: swifttunnel-relay [--version|--help]" ++ [10; 10]
                 ++ lit "Configuration is provided through RELAY_* environment variables.")
      else CliUnknown arg
  end.

(* ------------------------------------------------------------------ *)
(** ** The environment *)

Section Env.
Context (env : str -> option str).

Definition get_listen_port : Z := default DEFAULT_PORT (env (lit "RELAY_PORT") ≫= parse_uint 16).
Definition get_stats_port : Z := default DEFAULT_STATS_PORT (env (lit "RELAY_STATS_PORT") ≫= parse_uint 16).
Definition get_stats_token : option str :=
  env (lit "RELAY_STATS_TOKEN") ≫= fun token => if (length (trim token) =? 0)%nat then None else Some token.

(** The health port; 0 turns the endpoint off. *)
Definition get_health_port : option Z :=
  let port := default DEFAULT_HEALTH_PORT
                (env (lit "RELAY_HEALTH_PORT") ≫= fun v => parse_uint 16 (trim v)) in
  if port =? 0 then None else Some port.

(** An opt-in switch. *)
Definition env_true (name : string) : bool :=
  match env (lit name) with
  | Some v => eq_ignore_ascii_case (trim v) (lit "true")
  | None => false
  end.

Definition auth_from_env `{TicketCrypto} : option RelayAuthConfig :=
  auth_config_from_env (env (lit "RELAY_AUTH_MODE")) (env (lit "RELAY_ALLOW_INSECURE"))
    (env (lit "RELAY_AUTH_PUBLIC_KEY_B64")) (env (lit "RELAY_SERVER_ID")).

End Env.

(* ------------------------------------------------------------------ *)
(** ** The runtime configuration *)

Record SocketBufferSizes : Type := MkBuffers {
  requested_rcvbuf_bytes : Z;
  requested_sndbuf_bytes : Z;
  effective_rcvbuf_bytes : Z;
  effective_sndbuf_bytes : Z;
}.

Record RelayV2RuntimeConfig : Type := MkV2Runtime {
  rc_shard_count : Z;
  rc_pool_slots : Z;
  rc_shard_queue_cap : Z;
  rc_tx_queue_cap : Z;
  main_socket_buffers : SocketBufferSizes;
  flow_socket_rcvbuf_requested : Z;
  flow_socket_sndbuf_requested : Z;
}.

Record RelayRuntimeConfig : Type := MkRuntime {
  version : str;
  datapath : str;
  listen_port : Z;
  stats_port : Z;
  rc_auth_mode : str;
  rc_server_id : option str;
  tcp_enabled : bool;
  tun_udp_enabled : bool;
  flow_channel_capacity : Z;
  rc_v2 : RelayV2RuntimeConfig;
}.

(** [RelayAuthMode::as_str]. *)
Definition auth_mode_str (m : RelayAuthMode) : str :=
  match m with
  | AuthOff => lit "off"
  | AuthOptional => lit "optional"
  | AuthRequired => lit "required"
  end.

Definition build_runtime_config (env : str -> option str) (cores : Z) (dp : RelayDatapath)
  (listen stats : Z) (auth : RelayAuthConfig) (tcp tun_udp : bool) (bufs : SocketBufferSizes)
  : RelayRuntimeConfig :=
  let tuning := relay_v2_tuning env cores in
  MkRuntime RELAY_VERSION (match dp with DatapathV1 => lit "v1" | DatapathV2 => lit "v2" end)
    listen stats (auth_mode_str (auth_mode auth)) (server_id auth) tcp tun_udp
    (parse_flow_channel_capacity (env (lit "RELAY_FLOW_CHANNEL_CAPACITY")))
    (MkV2Runtime (shard_count tuning) (pool_slots tuning) (shard_queue_cap tuning) (tx_queue_cap tuning)
       bufs (flow_rcvbuf_bytes tuning) (flow_sndbuf_bytes tuning)).

(* ------------------------------------------------------------------ *)
(** ** The start of [main] *)

Definition TUN_INBOUND_CAP : nat := Z.to_nat 4096.

(** What [main] hands to the datapath it selects, and the endpoints it
    opens. *)
Record Plan : Type := MkPlan {
  p_datapath : RelayDatapath;
  p_auth : RelayAuthConfig;
  p_runtime : RelayRuntimeConfig;
  p_tun : bool;
  p_stats_api : option (Z * str);
  p_health : option Z;
}.

Inductive StartResult : Type :=
| Exits (output : str)
| Refuses
| Runs (plan : Plan).

(** The two switches and whether packets go to the TUN, after trying to open
    the device if either is on: without it both are off. *)
Definition tun_flags (tcp tun_udp tun_opens : bool) : bool * bool * bool :=
  if tcp || tun_udp then
    if tun_opens then (tcp, tun_udp, true) else (false, false, false)
  else (tcp, tun_udp, false).

(** [bound]: the effective buffer sizes of the main socket, or its failure to
    bind; [tun_opens]: whether [TunHandler::new] succeeds. *)
Definition startup `{TicketCrypto} (args : list str) (env : str -> option str) (cores : Z)
  (bound : option (Z * Z)) (tun_opens : bool) : StartResult :=
  match handle_cli_args args with
  | CliUnknown _ => Refuses
  | CliExit output => Exits output
  | CliContinue =>
      match auth_from_env env with
      | None => Refuses
      | Some auth =>
          let dp := parse_relay_datapath (env (lit "RELAY_DATAPATH")) in
          match bound with
          | None => Refuses
          | Some (rcv, snd) =>
              let bufs := MkBuffers (socket_rcvbuf_bytes (relay_v2_tuning env cores))
                            (socket_sndbuf_bytes (relay_v2_tuning env cores)) rcv snd in
              let '(tcp, tun_udp, tun) :=
                tun_flags (env_true env "RELAY_TCP_ENABLED") (env_true env "RELAY_TUN_UDP") tun_opens in
              Runs (MkPlan dp auth
                (build_runtime_config env cores dp (get_listen_port env) (get_stats_port env) auth
                   tcp tun_udp bufs)
                tun (option_map (fun token => (get_stats_port env, token)) (get_stats_token env))
                (get_health_port env))
          end
      end
  end.

(** The configuration of the sharded datapath. *)
Definition v2_config (env : str -> option str) (cores : Z) (plan : Plan) : Config :=
  MkConfig (p_auth plan) (Z.to_nat (shard_queue_cap (relay_v2_tuning env cores)))
    (Z.to_nat (tx_queue_cap (relay_v2_tuning env cores)))
    (if p_tun plan then Some TUN_INBOUND_CAP else None)
    (tun_udp_enabled (p_runtime plan)) (tcp_enabled (p_runtime plan)).

(* ------------------------------------------------------------------ *)
(** ** What the relay starts with *)

Lemma default_port_range (o : option str) (f : str -> str) d :
  0 <= d < 2 ^ 16 -> 0 <= default d (o ≫= fun s => parse_uint 16 (f s)) < 2 ^ 16.
Proof.
  intros Hd. destruct o as [s|]; [|exact Hd]. cbn. destruct (parse_uint 16 (f s)) eqn:E; [|exact Hd].
  by apply parse_uint_nonneg in E.
Qed.

(** The numbers of the configuration are within their limits. *)
Record runtime_ok (c : RelayRuntimeConfig) : Prop := {
  ok_listen : 0 <= listen_port c < 2 ^ 16;
  ok_stats : 0 <= stats_port c < 2 ^ 16;
  ok_flow_channel : 8 <= flow_channel_capacity c <= 4096;
  ok_shards : 1 <= rc_shard_count (rc_v2 c) <= 256;
  ok_pool : 512 <= rc_pool_slots (rc_v2 c) <= 262144;
  ok_shard_queue : 256 <= rc_shard_queue_cap (rc_v2 c) <= 262144;
  ok_tx_queue : 256 <= rc_tx_queue_cap (rc_v2 c) <= 262144;
}.

Lemma runtime_config_ok env cores dp auth tcp udp bufs :
  runtime_ok (build_runtime_config env cores dp (get_listen_port env) (get_stats_port env) auth tcp udp bufs).
Proof.
  constructor; cbn -[Z.pow].
  - apply (default_port_range _ id). unfold DEFAULT_PORT. lia.
  - apply (default_port_range _ id). unfold DEFAULT_STATS_PORT. lia.
  - apply flow_channel_capacity_bounds.
  - apply (shard_count_bounds env cores).
  - apply (pool_slots_bounds env cores).
  - by apply clamp_bounds.
  - by apply clamp_bounds.
Qed.

(** C17: the relay starts closed.  Whatever the command line, the environment
    and the system's answers, a relay that runs either was opened with both
    switches, the mode off and the insecure flag, or its datapath requires
    authentication, with a 32-byte key and a server id.  TUN forwarding is
    only on when asked for and the device opened, and then packets have
    somewhere to go; the statistics are only served with a token that is not
    blank; ports, queues and counts are within their limits. *)
Theorem startup_fails_closed `{TicketCrypto} args env cores bound tun_opens plan :
  startup args env cores bound tun_opens = Runs plan ->
  ((env (lit "RELAY_ALLOW_INSECURE") = Some (lit "1")
    /\ exists v, env (lit "RELAY_AUTH_MODE") = Some v /\ to_ascii_lowercase (trim v) = lit "off")
   \/ (auth_needed (v2_config env cores plan) = true
       /\ (exists key, public_key (p_auth plan) = Some key /\ length key = 32%nat)
       /\ (exists srv, server_id (p_auth plan) = Some srv /\ trim srv <> [])))
  /\ (tcp_enabled (p_runtime plan) || tun_udp_enabled (p_runtime plan) = true ->
      tun_opens = true /\ c_tun_cap (v2_config env cores plan) = Some TUN_INBOUND_CAP)
  /\ (forall port token, p_stats_api plan = Some (port, token) -> trim token <> [])
  /\ runtime_ok (p_runtime plan).
Proof.
  unfold startup. destruct (handle_cli_args args); try discriminate.
  destruct (auth_from_env env) as [auth|] eqn:Ea; [|discriminate].
  destruct bound as [[rcv snd]|]; [|discriminate]. destruct (tun_flags _ _ _) as [[tcp udp] tun] eqn:Ef. intros [= <-]. cbn -[Z.pow]. split; [|split; [|split]].
  - apply auth_config_fails_closed in Ea as [(_ & _ & Hi & Hm)|Hr]; [by left | by right].
  - unfold tun_flags in Ef. destruct (_ || _) eqn:Eo; [destruct tun_opens|]; injection Ef as <- <- <-;
      try done. congruence.
  - intros port token E. unfold get_stats_token in E.
    destruct (env (lit "RELAY_STATS_TOKEN")) as [tok|]; [|discriminate]. cbn in E.
    destruct (Nat.eqb_spec (length (trim tok)) 0) as [|Hn]; [discriminate|]. injection E as <- <-.
    intros E. by rewrite E in Hn.
  - apply runtime_config_ok.
Qed.

(* ------------------------------------------------------------------ *)
(** ** Witness *)

Section Witness.
#[local] Existing Instance toy_crypto.

(** The explicitly opened relay with TCP forwarding and a token. *)
Definition open_env (name : str) : option str :=
  if str_eqb name (lit "RELAY_AUTH_MODE") then Some (lit " Off")
  else if str_eqb name (lit "RELAY_ALLOW_INSECURE") then Some (lit "1")
  else if str_eqb name (lit "RELAY_TCP_ENABLED") then Some (lit "TRUE")
  else if str_eqb name (lit "RELAY_STATS_TOKEN") then Some (lit "s3cret")
  else None.
Definition open_plan : Plan :=
  match startup [] open_env 4 (Some (1, 2)) true with
  | Runs plan => plan
  | _ => MkPlan DatapathV1 (MkAuthConfig AuthOff None None)
           (build_runtime_config open_env 4 DatapathV1 0 0 (MkAuthConfig AuthOff None None) false false
              (MkBuffers 0 0 0 0)) false None None
  end.

Lemma startup_fails_closed_witness :
  tcp_enabled (p_runtime open_plan) = true
  /\ c_tun_cap (v2_config open_env 4 open_plan) = Some TUN_INBOUND_CAP /\ runtime_ok (p_runtime open_plan).
Proof.
  destruct (startup_fails_closed [] open_env 4 (Some (1, 2)) true open_plan) as (_ & Ht & _ & Hr).
  - vm_compute. reflexivity.
  - split; [vm_compute; reflexivity|]. split; [apply Ht; vm_compute; reflexivity | exact Hr].
Defined.

End Witness.
