(* ===== verification/Os.v ===== *)
(** * Sockets, the TUN device and the threads (src/datapath_v2.rs:
    [bind_main_socket], [create_flow_socket], [recv_flow_response],
    [extract_ipv4_tos_from_control], [supervise_critical_thread], the start of
    the shards; src/main.rs: [bind_v1_flow_socket], the HTTP accept loops;
    src/tcp_tun.rs: [create_tun_device], [run_ip_command],
    [configure_tun_interface], [TunHandler::new] and its [Drop])

    The operating system is a table of open descriptors.  Every call can
    fail: [ok] says which calls succeed.  A Rust value that owns a descriptor
    closes it when an early [?] drops it; a raw descriptor is not closed. *)

From Stdlib Require Import String.
From S2P Require Import Prelude Checksum Net Packet TunRewrite TunSession RustStr Tuning DestPolicy Stats Sessions RateLimit AccountBudget Auth Frames Handler V2State V2Rx V2Shard V2Tun V2Inv V2Safe V2Thms V2Auth V2Flows V2Data V2Trace Startup.

(* ------------------------------------------------------------------ *)
(** ** Descriptors *)

Record UdpSock : Type := MkUdp {
  s_reuse : bool;
  s_rcvbuf : option Z;
  s_sndbuf : option Z;
  s_recv_tos : bool;
  s_bound : option SocketAddr;
  s_connected : option SocketAddr;
  s_nonblocking : bool;
  s_write_timeout : option Z;
}.
#[global] Instance eta_UdpSock : Eta UdpSock := fun s =>
  MkUdp (s_reuse s) (s_rcvbuf s) (s_sndbuf s) (s_recv_tos s) (s_bound s) (s_connected s)
    (s_nonblocking s) (s_write_timeout s).
Definition udp_new : UdpSock := MkUdp false None None false None None false None.

(** The part of [struct ifreq] the TUN driver reads. *)
Record Ifreq : Type := MkIfreq { ifr_name : list Z; ifr_flags : Z }.

Inductive Descriptor : Type :=
| FdUdp (s : UdpSock)
| FdTun (attached : option Ifreq).

(** The open descriptors and the commands that have been run. *)
Record World : Type := MkWorld { fds : gmap Z Descriptor; commands : list (list str) }.
#[global] Instance eta_World : Eta World := fun w => MkWorld (fds w) (commands w).

(** The calls that can fail. *)
Inductive Call : Type :=
| COpen | CIoctl | CSocket | CReuse | CRcvbuf | CSndbuf | CRecvTos | CBind | CWriteTimeout
| CNonblocking | CConnect | CTokio.

Section Calls.
Context (ok : Call -> bool) (fd : Z).

(** A setsockopt-like call on [fd]: the error is the context the source
    gives it. *)
Definition set_udp (c : Call) (f : UdpSock -> UdpSock) (err : string) (w : World)
  : World * result unit str :=
  if ok c then
    (w <| fds ::= alter (fun d => match d with FdUdp s => FdUdp (f s) | d => d end) fd |>, Ok tt)
  else (w, Err (lit err)).

(** A call whose failure is only logged. *)
Definition try_udp (c : Call) (f : UdpSock -> UdpSock) (w : World) : World := (set_udp c f "" w).1.

Definition close (w : World) : World := w <| fds ::= delete fd |>.

(** The [?] of the source after a call on an owned socket: on an error the
    socket is dropped, which closes it. *)
Definition or_close {A} (m : World * result unit str) (k : World -> World * result A str)
  : World * result A str :=
  match m with
  | (w, Ok _) => k w
  | (w, Err e) => (close w, Err e)
  end.

(** [Socket::new]: the descriptor the system gives is not open yet. *)
Definition socket_new {A} (err : string) (k : World -> World * result A str) (w : World)
  : World * result A str :=
  if ok CSocket then k (w <| fds ::= <[fd := FdUdp udp_new]> |>) else (w, Err (lit err)).

Definition MAIN_SOCKET_SEND_TIMEOUT : Z := millis 5.
Definition UNSPECIFIED (port : Z) : SocketAddr := SockV4 (ipv4_new 0 0 0 0) port.

(** [bind_main_socket]; [rcv], [snd]: what the system reports as the sizes of
    the buffers. *)
Definition bind_main_socket (tuning : RelayV2Tuning) (port : Z) (rcv snd : option Z)
  : World -> World * result (Z * SocketBufferSizes) str :=
  socket_new "Failed to create UDP socket" (fun w =>
  or_close (set_udp CReuse (fun s => s <| s_reuse := true |>) "Failed to set SO_REUSEADDR" w) (fun w =>
  or_close (set_udp CRcvbuf (fun s => s <| s_rcvbuf := Some (socket_rcvbuf_bytes tuning) |>)
              "Failed to set SO_RCVBUF" w) (fun w =>
  or_close (set_udp CSndbuf (fun s => s <| s_sndbuf := Some (socket_sndbuf_bytes tuning) |>)
              "Failed to set SO_SNDBUF" w) (fun w =>
  or_close (set_udp CBind (fun s => s <| s_bound := Some (UNSPECIFIED port) |>)
              "Failed to bind UDP socket" w) (fun w =>
  or_close (set_udp CWriteTimeout (fun s => s <| s_write_timeout := Some MAIN_SOCKET_SEND_TIMEOUT |>)
              "Failed to set main socket write timeout" w) (fun w =>
  (w, Ok (fd, MkBuffers (socket_rcvbuf_bytes tuning) (socket_sndbuf_bytes tuning)
                (default 0 rcv) (default 0 snd))))))))).

(** [create_flow_socket]. *)
Definition create_flow_socket (tuning : RelayV2Tuning) (game_addr : SocketAddr)
  : World -> World * result Z str :=
  socket_new "Failed to create flow UDP socket" (fun w =>
  or_close (set_udp CRcvbuf (fun s => s <| s_rcvbuf := Some (flow_rcvbuf_bytes tuning) |>)
              "Failed to set flow SO_RCVBUF" w) (fun w =>
  or_close (set_udp CSndbuf (fun s => s <| s_sndbuf := Some (flow_sndbuf_bytes tuning) |>)
              "Failed to set flow SO_SNDBUF" w) (fun w =>
  let w := try_udp CRecvTos (fun s => s <| s_recv_tos := true |>) w in
  or_close (set_udp CBind (fun s => s <| s_bound := Some (UNSPECIFIED 0) |>)
              "Failed to bind flow socket" w) (fun w =>
  or_close (set_udp CNonblocking (fun s => s <| s_nonblocking := true |>)
              "Failed to set flow socket nonblocking" w) (fun w =>
  or_close (set_udp CConnect (fun s => s <| s_connected := Some game_addr |>)
              "Failed to connect flow socket" w) (fun w =>
  (w, Ok fd))))))).

(** [bind_v1_flow_socket]; the flow task connects the socket it gets to the
    game server afterwards (the [connect_ok] of [task_start]). *)
Definition bind_v1_flow_socket : World -> World * result Z str :=
  socket_new "" (fun w =>
  let w := try_udp CRecvTos (fun s => s <| s_recv_tos := true |>) w in
  or_close (set_udp CBind (fun s => s <| s_bound := Some (UNSPECIFIED 0) |>) "" w) (fun w =>
  or_close (set_udp CNonblocking (fun s => s <| s_nonblocking := true |>) "" w) (fun w =>
  or_close (set_udp CTokio id "" w) (fun w =>
  (w, Ok fd))))).

(* ------------------------------------------------------------------ *)
(** ** The TUN device *)

Definition IFF_TUN : Z := 0x0001.
Definition IFF_NO_PI : Z := 0x1000.
Definition IFNAMSIZ : nat := 16.
Definition TUN_DEVICE_NAME : str := lit "swifttun0".
Definition TUN_INTERFACE_CIDR : str := lit "10.200.0.1/16".
Definition TUN_MTU : str := lit "1400".

(** The request: the name, cut so that a NUL remains, and the flags. *)
Definition tun_ifreq (name : str) : outcome Ifreq :=
  let copy_len := Nat.min (length name) (IFNAMSIZ - 1) in
  let* src := slice name 0 copy_len in
  let* ifr_name := copy_from_slice (replicate IFNAMSIZ 0) 0 copy_len src in
  Ret (MkIfreq ifr_name (Z.lor IFF_TUN IFF_NO_PI)).

(** [create_tun_device]: the descriptor is raw, so the error path closes it
    itself. *)
Definition create_tun_device (name : str) (w : World) : outcome (World * result Z str) :=
  if negb (ok COpen) then Ret (w, Err (lit "open")) else
  let w := w <| fds ::= <[fd := FdTun None]> |> in
  let* ifr := tun_ifreq name in
  if negb (ok CIoctl) then Ret (close w, Err (lit "ioctl"))
  else Ret (w <| fds ::= <[fd := FdTun (Some ifr)]> |>, Ok fd).

(** How a run of the [ip] tool ends. *)
Inductive IpOutcome : Type := IpNotRun | IpExit (success : bool) (status : str).
Context (ip : list str -> IpOutcome).

(** [args.join(" ")]. *)
Fixpoint join (args : list str) : str :=
  match args with
  | [] => []
  | [a] => a
  | a :: rest => a ++ [32] ++ join rest
  end.

Definition run_ip_command (args : list str) (w : World) : World * result unit str :=
  match ip args with
  | IpNotRun => (w, Err (lit "spawn"))
  | IpExit success status =>
      (w <| commands ::= fun l => l ++ [args] |>,
       if success then Ok tt else Err (lit "ip " ++ join args ++ lit " failed with " ++ status))
  end.

Definition configure_commands (name : str) : list (list str) :=
  [[lit "link"; lit "set"; lit "dev"; name; lit "mtu"; TUN_MTU];
   [lit "link"; lit "set"; lit "dev"; name; lit "up"];
   [lit "addr"; lit "replace"; TUN_INTERFACE_CIDR; lit "dev"; name]].

(** The commands in order; the first failure ends the sequence. *)
Fixpoint run_ip_commands (l : list (list str)) (w : World) : World * result unit str :=
  match l with
  | [] => (w, Ok tt)
  | args :: rest =>
      match run_ip_command args w with
      | (w, Ok _) => run_ip_commands rest w
      | (w, Err e) => (w, Err e)
      end
  end.
Definition configure_tun_interface (name : str) : World -> World * result unit str :=
  run_ip_commands (configure_commands name).

(** What [TunHandler::new] returns: the handler's descriptor and the maps the
    handler and the cleanup share. *)
Definition tun_handler_new (w : World) : outcome (World * result (Z * Tun) str) :=
  let* (w, r) := create_tun_device TUN_DEVICE_NAME w in
  match r with
  | Err e => Ret (w, Err e)
  | Ok tun_fd =>
      match configure_tun_interface TUN_DEVICE_NAME w with
      | (w, Err e) => Ret (w, Err e)
      | (w, Ok _) => Ret (w, Ok (tun_fd, MkTun ∅ ∅))
      end
  end.

(** [Drop for TunHandler], when its two threads have ended. *)
Definition tun_handler_drop (w : World) : World := close w.

End Calls.

(* ------------------------------------------------------------------ *)
(** ** Receiving on a flow's socket *)

Definition IPPROTO_IP : Z := 0.
Definition IP_TOS : Z := 1.

(** A control message: level, type and data. *)
Record Cmsg : Type := MkCmsg { cmsg_level : Z; cmsg_type : Z; cmsg_data : list Z }.

(** The walk over the control messages; the first TOS message decides. *)
Fixpoint extract_ipv4_tos_from_control (l : list Cmsg) : outcome (option Z) :=
  match l with
  | [] => Ret None
  | header :: rest =>
      if (cmsg_level header =? IPPROTO_IP) && (cmsg_type header =? IP_TOS) then
        let* tos := rd (cmsg_data header) 0 in Ret (Some tos)
      else extract_ipv4_tos_from_control rest
  end.

(** [recv_flow_response]: the kernel copies what fits into the buffer and
    returns how much that is; [control] is what came with the datagram. *)
Definition recv_flow_response (recv_buf packet : list Z) (control : list Cmsg)
  : outcome (list Z * (nat * option Z)) :=
  let len := Nat.min (length packet) (length recv_buf) in
  let recv_buf := take len packet ++ drop len recv_buf in
  let* tos := extract_ipv4_tos_from_control control in
  Ret (recv_buf, (len, tos)).

(* ------------------------------------------------------------------ *)
(** ** Threads *)

(** How a critical thread can end, and what its supervisor makes of it: every
    way ends the process. *)
Inductive ThreadEnd : Type := ThreadReturned | ThreadError (e : str) | ThreadPanicked.
Inductive ProcessEffect : Type := ProcessExit (code : Z).

Definition supervise_critical_thread (name : str) (ended : ThreadEnd) : str * ProcessEffect :=
  (match ended with
   | ThreadReturned => name ++ lit " thread exited unexpectedly"
   | ThreadError e => name ++ lit " thread exited with error: " ++ e
   | ThreadPanicked => name ++ lit " thread panicked"
   end, ProcessExit 70).

(** The wakers the shards publish, in the order the messages arrive, put in
    the order of the shards; too few messages are an error, an index out of
    range or a shard without a waker a panic. *)
Fixpoint place_wakers {W} (slots : list (option W)) (published : list (nat * W))
  : outcome (list (option W)) :=
  match published with
  | [] => Ret slots
  | (id, waker) :: rest => let* slots := wr slots id (Some waker) in place_wakers slots rest
  end.
Fixpoint expect_all {W} (slots : list (option W)) : outcome (list W) :=
  match slots with
  | [] => Ret []
  | None :: _ => Panic
  | Some w :: rest => let* ws := expect_all rest in Ret (w :: ws)
  end.
Definition collect_wakers {W} (shard_count : nat) (published : list (nat * W))
  : outcome (result (list W) str) :=
  if (length published <? shard_count)%nat then Ret (Err (lit "Failed to receive shard waker"))
  else
    let* slots := place_wakers (replicate shard_count None) (take shard_count published) in
    let* ws := expect_all slots in
    Ret (Ok ws).

(** The accept loops of the two HTTP servers: which clients are served, and
    whether the server still listens afterwards.  The health server goes on
    after an error; an error of the stats server's accept, or of the thread
    for a client, ends it. *)
Fixpoint health_accepts {C} (l : list (option C)) : list C * bool :=
  match l with
  | [] => ([], true)
  | None :: rest => health_accepts rest
  | Some c :: rest => let '(cs, b) := health_accepts rest in (c :: cs, b)
  end.
Fixpoint stats_accepts {C} (l : list (option (C * bool))) : list C * bool :=
  match l with
  | [] => ([], true)
  | None :: _ => ([], false)
  | Some (_, false) :: _ => ([], false)
  | Some (c, true) :: rest => let '(cs, b) := stats_accepts rest in (c :: cs, b)
  end.

(* ------------------------------------------------------------------ *)
(** ** Sockets are opened as asked or not at all *)

(** The outcome of an opening sequence: [done] when each of the calls it
    needs succeeds, otherwise an error and the world as it was. *)
Definition opens_or_fails {A} (ok : Call -> bool) (needs : list Call) (w : World)
  (r : World * result A str) (done : World * A) : Prop :=
  if forallb ok needs then r = (done.1, Ok done.2) else exists e, r = (w, Err e).

Definition main_socket_needs : list Call := [CSocket; CReuse; CRcvbuf; CSndbuf; CBind; CWriteTimeout].
Definition flow_socket_needs : list Call := [CSocket; CRcvbuf; CSndbuf; CBind; CNonblocking; CConnect].
Definition v1_flow_socket_needs : list Call := [CSocket; CBind; CNonblocking; CTokio].

Section Facts.
Context (ok : Call -> bool) (fd : Z) (w : World).
Hypothesis Hfresh : fds w !! fd = None.

(** The world with [fd] open in state [d]. *)
Definition opened (d : Descriptor) : World := w <| fds ::= <[fd := d]> |>.

Lemma set_opened c f err s :
  set_udp ok fd c f err (opened (FdUdp s))
  = if ok c then (opened (FdUdp (f s)), Ok tt) else (opened (FdUdp s), Err (lit err)).
Proof.
  unfold set_udp, opened. destruct (ok c); [|done]. cbn.
  match goal with |- context [alter ?g fd (<[fd := ?x]> ?m)] =>
    replace (alter g fd (<[fd := x]> m)) with (<[fd := FdUdp (f s)]> m) end; [done|].
  apply map_eq. intros j. destruct (decide (j = fd)) as [->|Hj].
  - by rewrite lookup_alter_eq, !lookup_insert_eq.
  - by rewrite lookup_alter_ne, !lookup_insert_ne.
Qed.
Lemma try_opened c f s :
  try_udp ok fd c f (opened (FdUdp s)) = opened (FdUdp (if ok c then f s else s)).
Proof. unfold try_udp. rewrite set_opened. by destruct (ok c). Qed.
Lemma close_opened d : close fd (opened d) = w.
Proof.
  revert Hfresh. unfold close, opened. destruct w as [m l]. cbn. intros Hm. by rewrite delete_insert_id.
Qed.

(** One step of an opening sequence. *)
Lemma or_close_opened {A} c f err s (k : World -> World * result A str) :
  or_close fd (set_udp ok fd c f err (opened (FdUdp s))) k
  = if ok c then k (opened (FdUdp (f s))) else (w, Err (lit err)).
Proof. rewrite set_opened. destruct (ok c); [done|]. cbn. by rewrite close_opened. Qed.

Lemma bind_main_socket_spec tuning port rcv snd :
  let s := MkUdp true (Some (socket_rcvbuf_bytes tuning)) (Some (socket_sndbuf_bytes tuning)) false
             (Some (UNSPECIFIED port)) None false (Some MAIN_SOCKET_SEND_TIMEOUT) in
  let sizes := MkBuffers (socket_rcvbuf_bytes tuning) (socket_sndbuf_bytes tuning)
                 (default 0 rcv) (default 0 snd) in
  opens_or_fails ok main_socket_needs w (bind_main_socket ok fd tuning port rcv snd w)
    (opened (FdUdp s), (fd, sizes)).
Proof.
  cbn zeta. unfold opens_or_fails, bind_main_socket, socket_new. cbn [forallb main_socket_needs].
  destruct (ok CSocket); [|cbn; eauto].
  change (w <| fds ::= <[fd := FdUdp udp_new]> |>) with (opened (FdUdp udp_new)).
  repeat (rewrite or_close_opened; destruct (ok _); [|cbn; eauto]). done.
Qed.

Lemma create_flow_socket_spec tuning game_addr :
  let s := MkUdp false (Some (flow_rcvbuf_bytes tuning)) (Some (flow_sndbuf_bytes tuning)) (ok CRecvTos)
             (Some (UNSPECIFIED 0)) (Some game_addr) true None in
  opens_or_fails ok flow_socket_needs w (create_flow_socket ok fd tuning game_addr w) (opened (FdUdp s), fd).
Proof.
  cbn zeta. unfold opens_or_fails, create_flow_socket, socket_new. cbn [forallb flow_socket_needs].
  destruct (ok CSocket); [|cbn; eauto].
  change (w <| fds ::= <[fd := FdUdp udp_new]> |>) with (opened (FdUdp udp_new)).
  do 2 (rewrite or_close_opened; destruct (ok _); [|cbn; eauto]). rewrite try_opened.
  generalize (ok CRecvTos). intros b.
  repeat (rewrite or_close_opened; destruct (ok _); [|cbn; eauto]). by destruct b.
Qed.

Lemma bind_v1_flow_socket_spec :
  let s := MkUdp false None None (ok CRecvTos) (Some (UNSPECIFIED 0)) None true None in
  opens_or_fails ok v1_flow_socket_needs w (bind_v1_flow_socket ok fd w) (opened (FdUdp s), fd).
Proof.
  cbn zeta. unfold opens_or_fails, bind_v1_flow_socket, socket_new. cbn [forallb v1_flow_socket_needs].
  destruct (ok CSocket); [|cbn; eauto].
  change (w <| fds ::= <[fd := FdUdp udp_new]> |>) with (opened (FdUdp udp_new)).
  rewrite try_opened. generalize (ok CRecvTos). intros b.
  repeat (rewrite or_close_opened; destruct (ok _); [|cbn; eauto]). by destruct b.
Qed.

(** The TUN request fits its field with a NUL to end it. *)
Lemma tun_ifreq_spec name :
  exists ifr, tun_ifreq name = Ret ifr /\ length (ifr_name ifr) = IFNAMSIZ
    /\ ifr_name ifr = take 15 name ++ replicate (IFNAMSIZ - Nat.min (length name) 15) 0
    /\ ifr_flags ifr = 0x1001.
Proof.
  unfold tun_ifreq, IFNAMSIZ. change (16 - 1)%nat with 15%nat. set (n := Nat.min (length name) 15).
  assert (n <= 15)%nat as Hn by (subst n; lia). assert (n <= length name)%nat as Hl by (subst n; lia).
  unfold slice. rewrite (proj2 (Nat.leb_le n (length name))) by lia. cbn [Nat.leb andb obind].
  rewrite drop_0, Nat.sub_0_r. unfold copy_from_slice. rewrite length_replicate, length_take.
  rewrite (proj2 (Nat.leb_le n 16)), (proj2 (Nat.eqb_eq (Nat.min n (length name)) (n - 0))) by lia.
  cbn [Nat.leb andb obind]. eexists. split; [reflexivity|]. cbn [ifr_name ifr_flags].
  rewrite take_0, app_nil_l. split; [|split; [|reflexivity]].
  - rewrite length_app, length_take, length_drop, length_replicate. lia.
  - rewrite drop_replicate. f_equal. subst n. destruct (Nat.le_ge_cases (length name) 15).
    + rewrite Nat.min_l by lia. by rewrite !take_ge by lia.
    + by rewrite Nat.min_r by lia.
Qed.

Lemma run_ip_commands_ok ip (l : list (list str)) u u' r :
  run_ip_commands ip l u = (u', r) ->
  fds u' = fds u
  /\ (r = Ok tt <-> forall args, args ∈ l -> exists status, ip args = IpExit true status)
  /\ (r = Ok tt -> commands u' = commands u ++ l).
Proof.
  revert u. induction l as [|args l IH]; intros u; cbn [run_ip_commands].
  { intros [= <- <-]. split; [done|]. rewrite app_nil_r. split; [|done].
    split; [intros _ args Hin; by apply elem_of_nil in Hin | done]. }
  unfold run_ip_command. destruct (ip args) as [|[|] status] eqn:Ei.
  - intros [= <- <-]. split; [done|]. split; [|done]. split; [done|].
    intros Hall. destruct (Hall args ltac:(by left)) as [st Est]. congruence.
  - intros E. apply IH in E as (E1 & E2 & E3). split; [exact E1|]. split.
    + rewrite E2. split.
      * intros Hall a [->|Hin]%elem_of_cons; eauto.
      * intros Hall a Hin. apply Hall. by right.
    + intros Hr. rewrite (E3 Hr). cbn. by rewrite <- app_assoc.
  - intros [= <- <-]. split; [done|]. split; [|done]. split; [done|].
    intros Hall. destruct (Hall args ltac:(by left)) as [st Est]. congruence.
Qed.

End Facts.

(* ------------------------------------------------------------------ *)
(** ** Theorems *)

(** C37: every socket is opened completely or not at all.  Whichever calls
    fail, the main socket, a v2 flow socket and a v1 flow socket each end in
    one of two ways: when every call the socket needs succeeds, exactly one
    new descriptor with all the required options, the main socket on the
    wildcard address at the listen port with its buffer sizes and a 5 ms send
    timeout, a v2 flow socket connected to its game server and non-blocking,
    a v1 flow socket bound and non-blocking; and when one of them fails, an
    error with the descriptor table as before (nothing leaks).  IP_RECVTOS is
    not among the required options: when setting it fails the failure is only
    logged, and the socket is opened without it. *)
Theorem sockets_open_or_unchanged ok fd w tuning port rcv snd game_addr :
  fds w !! fd = None ->
  let opens s := w <| fds ::= <[fd := FdUdp s]> |> in
  let sizes := MkBuffers (socket_rcvbuf_bytes tuning) (socket_sndbuf_bytes tuning)
                 (default 0 rcv) (default 0 snd) in
  opens_or_fails ok main_socket_needs w (bind_main_socket ok fd tuning port rcv snd w)
    (opens (MkUdp true (Some (socket_rcvbuf_bytes tuning)) (Some (socket_sndbuf_bytes tuning)) false
              (Some (UNSPECIFIED port)) None false (Some (millis 5))), (fd, sizes))
  /\ opens_or_fails ok flow_socket_needs w (create_flow_socket ok fd tuning game_addr w)
       (opens (MkUdp false (Some (flow_rcvbuf_bytes tuning)) (Some (flow_sndbuf_bytes tuning)) (ok CRecvTos)
                 (Some (UNSPECIFIED 0)) (Some game_addr) true None), fd)
  /\ opens_or_fails ok v1_flow_socket_needs w (bind_v1_flow_socket ok fd w)
       (opens (MkUdp false None None (ok CRecvTos) (Some (UNSPECIFIED 0)) None true None), fd).
Proof.
  intros Hf opens sizes. split; [by apply bind_main_socket_spec|].
  split; [by apply create_flow_socket_spec | by apply bind_v1_flow_socket_spec].
Qed.

(** Connecting the flow socket fails, and so does IP_RECVTOS: the main socket
    and the v1 flow socket open, the v2 flow socket does not. *)
Definition some_calls (c : Call) : bool := match c with CConnect | CRecvTos => false | _ => true end.

Lemma sockets_open_or_unchanged_witness :
  let w := MkWorld ∅ [] in
  let opens s := w <| fds ::= <[3 := FdUdp s]> |> in
  let tuning := relay_v2_tuning no_env 4 in
  let sizes := MkBuffers (socket_rcvbuf_bytes tuning) (socket_sndbuf_bytes tuning) 0 0 in
  bind_main_socket some_calls 3 tuning 51821 None None w
    = (opens (MkUdp true (Some (socket_rcvbuf_bytes tuning)) (Some (socket_sndbuf_bytes tuning)) false
                (Some (UNSPECIFIED 51821)) None false (Some (millis 5))), Ok (3, sizes))
  /\ (exists e, create_flow_socket some_calls 3 tuning toy_client w = (w, Err e))
  /\ bind_v1_flow_socket some_calls 3 w
       = (opens (MkUdp false None None false (Some (UNSPECIFIED 0)) None true None), Ok 3).
Proof.
  exact (sockets_open_or_unchanged some_calls 3 (MkWorld ∅ []) (relay_v2_tuning no_env 4) 51821
    None None toy_client eq_refl).
Defined.

(** Setting up the TUN.  [TunHandler::new] never panics.  On success the
    new descriptor is attached to the interface swifttun0 with the flags
    IFF_TUN and IFF_NO_PI, the three configuration commands have run in
    order, the address maps are empty, and dropping the handler closes the
    descriptor.  On an error the descriptor table is as before exactly when
    opening or attaching the device failed: when one of the [ip] commands
    fails, the raw descriptor is not closed and stays open. *)
Theorem tun_handler_new_outcomes ok fd ip w :
  fds w !! fd = None ->
  let ifr := MkIfreq (TUN_DEVICE_NAME ++ replicate 7 0) 0x1001 in
  exists w' r, tun_handler_new ok fd ip w = Ret (w', r)
    /\ match r with
       | Ok (tun_fd, t) =>
           tun_fd = fd /\ t = MkTun ∅ ∅ /\ fds w' = <[fd := FdTun (Some ifr)]> (fds w)
           /\ commands w' = commands w ++ configure_commands TUN_DEVICE_NAME
           /\ fds (tun_handler_drop fd w') = fds w
       | Err _ =>
           (fds w' = fds w <-> ok COpen = false \/ ok CIoctl = false)
           /\ (ok COpen = true -> ok CIoctl = true -> fds w' = <[fd := FdTun (Some ifr)]> (fds w))
       end.
Proof.
  intros Hf ifr. unfold tun_handler_new, create_tun_device.
  destruct (ok COpen); cbn [negb obind].
  2: { eexists _, _. split; [reflexivity|]. cbn. split; [|done]. split; [by left | done]. }
  assert (tun_ifreq TUN_DEVICE_NAME = Ret ifr) as -> by (vm_compute; reflexivity). cbn [obind].
  destruct (ok CIoctl); cbn [negb obind].
  2: { eexists _, _. split; [reflexivity|]. cbn. split; [|done]. split; [by right|]. intros _.
       by apply delete_insert_id. }
  set (w1 := w <| fds ::= _ |> <| fds ::= _ |>).
  assert (fds w1 = <[fd := FdTun (Some ifr)]> (fds w)) as H1 by (cbn; apply insert_insert_eq).
  unfold configure_tun_interface. destruct (run_ip_commands ip _ w1) as [w' r] eqn:E.
  apply run_ip_commands_ok in E as (E1 & _ & E3). destruct r as [[]|e].
  - eexists _, _. split; [reflexivity|]. cbn. repeat split.
    + by rewrite E1, H1.
    + by rewrite (E3 eq_refl).
    + rewrite E1, H1. by apply delete_insert_id.
  - eexists _, _. split; [reflexivity|]. cbn. rewrite E1, H1. split; [|done]. split; [|by intros []].
    intros Heq. apply (f_equal (lookup fd)) in Heq. by rewrite lookup_insert_eq, Hf in Heq.
Qed.

Lemma tun_handler_new_outcomes_witness :
  let ip (args : list str) := IpExit (negb (bool_decide (length args = 5%nat))) [49] in
  let ifr := MkIfreq (TUN_DEVICE_NAME ++ replicate 7 0) 0x1001 in
  exists w' r, tun_handler_new (fun _ => true) 3 ip (MkWorld ∅ []) = Ret (w', r)
    /\ match r with
       | Ok (tun_fd, t) =>
           tun_fd = 3 /\ t = MkTun ∅ ∅ /\ fds w' = <[3 := FdTun (Some ifr)]> ∅
           /\ commands w' = configure_commands TUN_DEVICE_NAME
           /\ fds (tun_handler_drop 3 w') = ∅
       | Err _ =>
           (fds w' = ∅ <-> true = false \/ true = false)
           /\ (true = true -> true = true -> fds w' = <[3 := FdTun (Some ifr)]> ∅)
       end.
Proof.
  apply (tun_handler_new_outcomes (fun _ => true) 3
    (fun args => IpExit (negb (bool_decide (length args = 5%nat))) [49]) (MkWorld ∅ [])).
  reflexivity.
Defined.

(** Each shard publishes its waker once: whatever the order of arrival, every
    shard's waker ends in its own slot. *)
Lemma place_wakers_spec {W} (published : list (nat * W)) slots :
  NoDup published.*1 -> Forall (fun p => (p.1 < length slots)%nat) published ->
  exists slots', place_wakers slots published = Ret slots' /\ length slots' = length slots
    /\ forall n, slots' !! n
         = match list_find (fun p => p.1 = n) published with
           | Some (_, (_, x)) => Some (Some x)
           | None => slots !! n
           end.
Proof.
  revert slots. induction published as [|[id x] l IH]; intros slots Hn Hr; [by exists slots|].
  cbn in Hn. apply list.NoDup_cons in Hn as [Hid Hn]. apply Forall_cons_1 in Hr as [Hlt Hr]. cbn in Hlt.
  cbn [place_wakers]. rewrite wr_lt by exact Hlt. cbn [obind].
  destruct (IH (<[id := Some x]> slots) Hn) as (slots' & E & Hlen & Hlook).
  { by rewrite length_insert. }
  exists slots'. rewrite length_insert in Hlen. split; [exact E|]. split; [exact Hlen|].
  intros n. rewrite Hlook. cbn [list_find]. cbn. destruct (decide (id = n)) as [->|Hne].
  - destruct (list_find _ l) as [[j [n' y]]|] eqn:Ef.
    + apply list_find_Some in Ef as (Ej & E1 & _). cbn in E1. subst n'. exfalso. apply Hid.
      apply list_elem_of_fmap. exists (n, y). split; [done | by eapply list_elem_of_lookup_2].
    + by apply list_lookup_insert_eq.
  - destruct (list_find _ l) as [[j [n' y]]|]; [done|].
    by apply list_lookup_insert_ne.
Qed.

Lemma expect_all_spec {W} (slots : list (option W)) (ws : list W) :
  slots = List.map Some ws -> expect_all slots = Ret ws.
Proof. intros ->. induction ws as [|x ws IH]; [done|]. cbn. by rewrite IH. Qed.

Theorem collect_wakers_in_order {W} (ws : list W) (published : list (nat * W)) :
  published ≡ₚ zip (seq 0 (length ws)) ws ->
  collect_wakers (length ws) published = Ret (Ok ws).
Proof.
  intros Hp. unfold collect_wakers.
  assert (length published = length ws) as Hl.
  { rewrite Hp, length_zip_with, length_seq. lia. }
  rewrite (proj2 (Nat.ltb_ge _ _)) by lia. rewrite take_ge by lia.
  assert (published.*1 ≡ₚ seq 0 (length ws)) as Hfst.
  { rewrite Hp, fst_zip; [done | by rewrite length_seq]. }
  destruct (place_wakers_spec published (replicate (length ws) None)) as (slots & E & Hlen & Hlook).
  - rewrite Hfst. apply NoDup_seq.
  - rewrite length_replicate. apply list.Forall_forall. intros p Hin.
    assert (p.1 ∈ seq 0 (length ws)) as Hs by (rewrite <- Hfst; by apply list_elem_of_fmap_2).
    apply elem_of_seq in Hs. lia.
  - rewrite E. cbn [obind]. rewrite (expect_all_spec slots ws); [done|].
    apply list_eq. intros n. rewrite Hlook.
    change (@List.map W (option W)) with (@fmap list _ W (option W)). rewrite list_lookup_fmap.
    destruct (list_find (fun p => p.1 = n) published) as [[j [n' x]]|] eqn:Ef.
    + apply list_find_Some in Ef as (Ej & E1 & _). cbn in E1. subst n'.
      assert ((n, x) ∈ zip (seq 0 (length ws)) ws) as Hin by (rewrite <- Hp; by eapply list_elem_of_lookup_2).
      apply list_elem_of_lookup in Hin as [m Hm]. apply lookup_zip_with_Some in Hm as (a & b & [= -> ->] & Ha & Hb).
      apply lookup_seq in Ha as [-> _]. cbn. by rewrite Hb.
    + apply list_find_None in Ef. destruct (ws !! n) as [x|] eqn:Ew.
      * exfalso. rewrite list.Forall_forall in Ef. apply (Ef (n, x)); [|done]. rewrite Hp.
        apply list_elem_of_lookup. exists n. apply lookup_zip_with_Some. exists n, x. split; [done|].
        split; [|exact Ew]. apply lookup_seq. split; [done|]. by eapply lookup_lt_Some.
      * apply lookup_ge_None in Ew. cbn. apply lookup_ge_None. by rewrite length_replicate.
Qed.

(* ------------------------------------------------------------------ *)
(** ** Datagrams are forwarded whole *)

Definition data_and_buffers (v : V2) : list TxPacket * list (list Z) := (v_tx_data v, buffers (v_pool v)).

Section Whole.
Context (cfg : Config) (k : nat).

(** A response is only queued when its packet fits a pool buffer. *)
Lemma response_fits key payload rtos t tu D B :
  Forall (fun b => length b = MAX_PACKET_SIZE) B ->
  let Q v := v_tx_data v = D
             \/ (SESSION_ID_LEN + 28 + length payload <= MAX_PACKET_SIZE)%nat in
  ends (fun v => data_and_buffers v = (D, B)) (shard_response cfg k key payload rtos t tu) (fun _ => Q) Q.
Proof.
  intros HB Q. pose proof max_packet_size as Hmax.
  assert (forall v, data_and_buffers v = (D, B) -> Q v) as HQ by (intros v [= E _]; by left).
  assert (forall A (m : H A), leaves data_and_buffers m ->
    ends (fun v => data_and_buffers v = (D, B)) m (fun _ v => data_and_buffers v = (D, B)) Q) as Hl.
  { intros A m Hm. eapply ends_conseq;
      [apply (leaves_ends data_and_buffers (fun x => x = (D, B)) m Hm) | auto..]. }
  assert (forall A, ends (fun v => data_and_buffers v = (D, B)) (@hcontinue V2 A) (fun _ => Q) Q) as Hc
    by (intros A; by apply ends_continue).
  unfold shard_response. eapply ends_bind; [apply Hl, leaves_get|]. intros v.
  destruct (negb _); [apply Hc|]. eapply ends_bind; [apply Hl, leaves_get|]. intros sh.
  destruct (sh_flows sh !! key) as [flow|]; [|apply Hc].
  do 2 (eapply ends_bind; [apply Hl; by apply leaves_mod|]; intros ?).
  eapply ends_bind.
  { apply Hl, leaves_run. intros s s' r E. unfold try_acquire in E.
    destruct (free (v_pool s)); by injection E as <- <-. }
  intros [idx|].
  2: { do 2 (eapply ends_bind; [apply Hl; by apply leaves_mod|]; intros ?). apply Hc. }
  apply ends_bind with (fun r v => v_tx_data v = D
    /\ forall n, r = Some n -> (SESSION_ID_LEN + 28 + length payload <= MAX_PACKET_SIZE)%nat).
  - apply ends_run. intros s s' r [= Hd Hb] E.
    apply obind_inv in E as (out & Eo & E). apply obind_inv in E as (out' & Eo' & E).
    apply obind_inv in E as (hd & _ & E). apply obind_inv in E as (tl & Et & E).
    apply obind_inv in E as ([tl' ip_n] & Ew & E). apply obind_inv in E as (p & _ & [= <- <-]).
    split; [exact Hd|]. intros m ->. rewrite write_response_into_spec in Ew.
    destruct (Nat.ltb_spec (length tl) (28 + length payload)); [discriminate|].
    apply slice_length in Et. unfold buffer, rd in Eo. rewrite Hb in Eo.
    destruct (B !! idx) as [b|] eqn:EB; [injection Eo as <-|discriminate].
    pose proof (Forall_lookup_1 _ _ _ _ HB EB) as Hlb. cbn in Hlb.
    unfold copy_from_slice in Eo'. destruct (_ && _) eqn:Econd; [|discriminate]. injection Eo' as <-.
    bool_hyps. rewrite ?length_app, ?length_take, ?length_drop in Et. unfold SESSION_ID_LEN in *. lia.
  - intros [n|].
    + intros s s' c [Hd Hf] E. assert (Q s') as Hq by (right; exact (Hf n eq_refl)). by destruct c.
    + eapply ends_bind with (fun _ v => v_tx_data v = D).
      * apply ends_mod. by intros s [Hd _].
      * intros ?. apply ends_continue. intros s Hd. by left.
Qed.
End Whole.

(** C15: datagrams from game servers are forwarded whole or not at all.  In
    every state a run reaches, if the shard queues a response frame for a
    datagram it received, the payload it forwards is the entire datagram,
    although the receive call cuts what does not fit its buffer: a cut
    datagram never fits a pool buffer once the headers are added. *)
Theorem v2_datagrams_whole `{TicketCrypto} hash_one cfg tuning policy budget tun t0 (l : list turn) v
  k key recv_buf packet control recv_buf' n rtos payload t tu v' c :
  1 <= shard_count tuning -> Forall turn_ok l ->
  v2_run hash_one cfg (v2_new tuning policy budget tun t0) l = Ret v ->
  length recv_buf = MAX_PACKET_SIZE ->
  recv_flow_response recv_buf packet control = Ret (recv_buf', (n, rtos)) ->
  slice recv_buf' 0 n = Ret payload ->
  shard_response cfg k key payload rtos t tu v = Ret (v', c) ->
  v_tx_data v' <> v_tx_data v ->
  payload = packet.
Proof.
  intros Hs Hl Hrun Hbuf Hrecv Hslice Hresp Hne.
  pose proof (run_returns hash_one cfg l _ (inv_new tuning policy budget tun t0 Hs) Hl) as Hv.
  rewrite Hrun in Hv.
  pose proof (response_fits cfg k key payload rtos t tu (v_tx_data v) (buffers (v_pool v))
                (i_bufs _ _ Hv) v v' c eq_refl Hresp) as Hq.
  assert (SESSION_ID_LEN + 28 + length payload <= MAX_PACKET_SIZE)%nat as Hfit
    by (destruct c, Hq; congruence || assumption).
  unfold recv_flow_response in Hrecv. apply obind_inv in Hrecv as (x & _ & [= <- <- <-]).
  rewrite Hbuf in *. set (m := Nat.min (length packet) MAX_PACKET_SIZE) in *.
  pose proof (slice_length _ _ _ _ Hslice) as Hlen. rewrite Nat.sub_0_r in Hlen.
  unfold slice in Hslice. destruct (_ && _); [|discriminate]. injection Hslice as <-.
  rewrite drop_0, Nat.sub_0_r. rewrite take_app_le by (rewrite length_take; lia).
  rewrite take_take, take_ge; [done|]. unfold SESSION_ID_LEN in *. subst m. lia.
Qed.

Section Witnesses.
#[local] Existing Instance toy_crypto.

Definition whole_key : FlowKey := MkKey toy_sid (SockV4 (ipv4_new 128 116 1 1) 55000).
Definition whole_turns : list turn := take 4 toy_turns.
Definition whole_end : V2 :=
  match v2_run toy_hash toy_cfg toy_start whole_turns with Ret v => v | Panic => toy_start end.
Definition whole_buf : list Z := replicate MAX_PACKET_SIZE 0.
Definition whole_control : list Cmsg := [MkCmsg 1 29 [5]; MkCmsg 0 1 [0x2E]].

Lemma v2_datagrams_whole_witness :
  v_tx_data (after (shard_response toy_cfg 0 whole_key [7; 7] (Some 0x2E) 4 1204) whole_end)
    <> v_tx_data whole_end
  /\ [7; 7] = [7; 7].
Proof.
  split; [vm_compute; discriminate|].
  apply (v2_datagrams_whole toy_hash toy_cfg (MkTuning 1 4 4 4 0 0 0 0) toy_policy toy_budget true 0
    whole_turns whole_end 0 whole_key whole_buf [7; 7] whole_control
    ([7; 7] ++ drop 2 whole_buf) 2 (Some 0x2E) [7; 7] 4 1204
    (after (shard_response toy_cfg 0 whole_key [7; 7] (Some 0x2E) 4 1204) whole_end) (Next tt)).
  - cbn. lia.
  - repeat apply List.Forall_cons; try apply List.Forall_nil; try exact I;
      apply toy_rx_ok; vm_compute; reflexivity.
  - apply returned. vm_compute. reflexivity.
  - apply length_replicate.
  - vm_compute. reflexivity.
  - vm_compute. reflexivity.
  - apply ended. vm_compute. reflexivity.
  - vm_compute. discriminate.
Defined.

End Witnesses.
