(* ===== verification/Documents.v ===== *)
(** * The documents of the statistics endpoint (src/main.rs:
    [render_stats_payload], [render_config_payload],
    [DropReasonCounters::to_json]; src/dest_policy.rs: [DestPolicy::snapshot],
    [DestPolicy::from_env]; src/account_budget.rs: [Budgets::snapshot])

    The [json!] documents as trees, the members in the order of the source.
    Turning a tree into text is [serde_json]'s, the parameter [to_string]. *)

From Stdlib Require Import String.
From S2P Require Import Prelude Checksum Net Packet TunRewrite TunSession RustStr Tuning DestPolicy Stats Sessions RateLimit AccountBudget Auth Frames HttpApi StatsRates Handler V2State V2Rx V2Shard V2Tun V2Inv V2Safe V2Thms Startup.

Inductive Json : Type :=
| JNull
| JBool (b : bool)
| JNum (n : Z)
| JStr (s : str)
| JArr (l : list Json)
| JObj (members : list (str * Json)).

Definition member (name : string) (value : Json) : str * Json := (lit name, value).
Definition jnat (n : nat) : Json := JNum (Z.of_nat n).
Definition jopt (o : option str) : Json := match o with Some s => JStr s | None => JNull end.

(** [value["name"]]. *)
Definition get (name : string) (v : Json) : option Json :=
  match v with
  | JObj members => snd <$> List.find (fun m => str_eqb (fst m) (lit name)) members
  | _ => None
  end.

(* ------------------------------------------------------------------ *)
(** ** Counters and configuration *)

Definition to_json (c : DropReasonCounters) : Json := JObj [
  member "auth" (JNum (Stats.auth c)); member "rate_limit" (JNum (rate_limit c));
  member "capacity" (JNum (capacity c)); member "too_small" (JNum (too_small c));
  member "parse" (JNum (Stats.parse c)); member "fragment" (JNum (fragment c));
  member "forbidden_dst" (JNum (forbidden_dst c)); member "tcp_disabled" (JNum (tcp_disabled c));
  member "pool" (JNum (pool c)); member "stale_queue" (JNum (stale_queue c));
  member "shard_queue" (JNum (shard_queue c)); member "tx_queue" (JNum (tx_queue c));
  member "tun_queue" (JNum (tun_queue c)); member "flow_queue" (JNum (flow_queue c));
  member "flow_create" (JNum (flow_create c)); member "flow_send" (JNum (flow_send c));
  member "socket_send" (JNum (socket_send c))].

(** The derived serialisation of the configuration. *)
Definition v2_json (c : RelayV2RuntimeConfig) : Json := JObj [
  member "shard_count" (JNum (rc_shard_count c)); member "pool_slots" (JNum (rc_pool_slots c));
  member "shard_queue_cap" (JNum (rc_shard_queue_cap c)); member "tx_queue_cap" (JNum (rc_tx_queue_cap c));
  member "main_socket_rcvbuf_requested" (JNum (requested_rcvbuf_bytes (main_socket_buffers c)));
  member "main_socket_sndbuf_requested" (JNum (requested_sndbuf_bytes (main_socket_buffers c)));
  member "main_socket_rcvbuf_effective" (JNum (effective_rcvbuf_bytes (main_socket_buffers c)));
  member "main_socket_sndbuf_effective" (JNum (effective_sndbuf_bytes (main_socket_buffers c)));
  member "flow_socket_rcvbuf_requested" (JNum (flow_socket_rcvbuf_requested c));
  member "flow_socket_sndbuf_requested" (JNum (flow_socket_sndbuf_requested c))].

Definition config_json (c : RelayRuntimeConfig) : Json := JObj [
  member "version" (JStr (version c)); member "datapath" (JStr (datapath c));
  member "listen_port" (JNum (listen_port c)); member "stats_port" (JNum (stats_port c));
  member "auth_mode" (JStr (rc_auth_mode c)); member "server_id" (jopt (rc_server_id c));
  member "tcp_enabled" (JBool (tcp_enabled c)); member "tun_udp_enabled" (JBool (tun_udp_enabled c));
  member "flow_channel_capacity" (JNum (flow_channel_capacity c)); member "v2" (v2_json (rc_v2 c))].

(** [render_stats_payload]: the window of the rates is state; [elapsed] is the
    uptime in whole seconds. *)
Definition render_stats_payload (s : Stats) (config : RelayRuntimeConfig) (w : StatsRateWindow)
  (elapsed now now_unix : Z) : StatsRateWindow * Json :=
  let '(w, (inbound, outbound)) := sample_stats_rates w (bytes_in s) (bytes_out s) now in
  let dropped_pps := if 0 <? elapsed then u64 (dropped_in s + dropped_out s) / elapsed else 0 in
  (w, JObj [
    member "version" (JStr RELAY_VERSION); member "timestamp" (JNum now_unix);
    member "active_users" (JNum (active_sessions s)); member "active_sessions" (JNum (active_sessions s));
    member "throttled_users" (JNum (throttled_users s));
    member "inbound_bps" (JNum inbound); member "outbound_bps" (JNum outbound);
    member "dropped_in" (JNum (dropped_in s)); member "dropped_out" (JNum (dropped_out s));
    member "dropped_pps" (JNum dropped_pps); member "pool_exhausted" (JNum (pool_exhausted s));
    member "tcp_forwarded" (JNum (tcp_forwarded s)); member "tun_udp_forwarded" (JNum (tun_udp_forwarded s));
    member "drops" (to_json (drop_reasons s)); member "config" (config_json config)]).

Definition render_config_payload (config : RelayRuntimeConfig) (now_unix : Z) : Json :=
  JObj [member "timestamp" (JNum now_unix); member "config" (config_json config)].

(* ------------------------------------------------------------------ *)
(** ** The destination policy *)

(** [DestPolicy::from_env]; [read_file] is [std::fs::read_to_string], with the
    text of its error. *)
Definition dest_policy_from_env (env : str -> option str) (read_file : str -> str + str) : DestPolicy :=
  let file := env (lit "RELAY_DEST_ALLOWLIST_FILE") ≫= fun path =>
                let path := trim path in
                if (length path =? 0)%nat then None else Some (path, read_file path) in
  build (Modes.parse (env (lit "RELAY_DEST_POLICY_MODE"))) file
    (parse_ports (env (lit "RELAY_DEST_TCP_PORTS"))).

Definition mode_str (m : Mode) : str :=
  match m with
  | Off => lit "off"
  | Observe => lit "observe"
  | Enforce => lit "enforce"
  end.

Definition protocol_name (protocol : Z) : Json :=
  if protocol =? 6 then JStr (lit "tcp") else if protocol =? 17 then JStr (lit "udp") else JNum protocol.

(** Ports by samples, then by number, both descending. *)
Definition busier_port (a b : Z * Z) : Prop := b.1 < a.1 \/ (a.1 = b.1 /\ b.2 <= a.2).
#[export] Instance busier_port_dec : RelDecision busier_port.
Proof. intros a b. unfold busier_port. solve_decision. Defined.

Definition snapshot_ports (t : Tally) : list (Z * Z) :=
  take SNAPSHOT_TOP
    (merge_sort busier_port (List.map (fun e => (e.2, e.1)) (map_to_list (tcp_port_samples t)))).

Definition policy_snapshot (p : DestPolicy) : Json :=
  let networks := List.map (fun '(samples, protocol, network) => JObj [
      member "protocol" (protocol_name protocol);
      member "network" (JStr (show_ipv4 network ++ lit "/24")); member "samples" (JNum samples)])
    (snapshot_networks (tally_state p)) in
  let ports := List.map (fun '(samples, port) => JObj [
      member "port" (JNum port); member "samples" (JNum samples)]) (snapshot_ports (tally_state p)) in
  JObj [
    member "mode" (JStr (mode_str (mode p)));
    member "enforce_refused" (jopt (enforce_refused p));
    member "allowlist" (JObj [
      member "source" (JStr (source p));
      member "udp_networks" (jnat (length (udp p)));
      member "tcp_networks" (jnat (length (tcp p)));
      member "tcp_ports" (JArr (List.map JNum (tcp_ports p)));
      member "notes" (JArr (List.map JStr (notes p)))]);
    member "unlisted_packets" (JObj [
      member "udp" (JNum (udp_unlisted (counters p)));
      member "tcp_network" (JNum (tcp_unlisted_network (counters p)));
      member "tcp_port" (JNum (tcp_unlisted_port (counters p)))]);
    member "dropped_packets" (JNum (dropped (counters p)));
    member "unlisted_sample" (JObj [
      member "sample_every" (JNum (sample_every p));
      member "networks" (JArr networks);
      member "tcp_ports" (JArr ports);
      member "overflow" (JNum (overflow (tally_state p)))])].

(** [DestPolicy::describe]: the line of the startup log; the ports as [{:?}]
    prints a vector. *)
Fixpoint join_comma_space (l : list str) : str :=
  match l with
  | [] => []
  | [a] => a
  | a :: rest => a ++ lit ", " ++ join_comma_space rest
  end.
Definition policy_describe (p : DestPolicy) : str :=
  lit "Destination policy: " ++ mode_str (mode p) ++ lit " (" ++ source p ++ lit " list, "
  ++ show_dec (Z.of_nat (length (udp p))) ++ lit " UDP and " ++ show_dec (Z.of_nat (length (tcp p)))
  ++ lit " TCP networks, TCP ports [" ++ join_comma_space (List.map show_dec (tcp_ports p))
  ++ lit "]; env RELAY_DEST_POLICY_MODE)".

(* ------------------------------------------------------------------ *)
(** ** Account budgets *)

Fixpoint omapM {A B} (f : A -> outcome B) (l : list A) : outcome (list B) :=
  match l with
  | [] => Ret []
  | a :: l => let* b := f a in let* bs := omapM f l in Ret (b :: bs)
  end.

(** One account of [Budgets::snapshot]; [now] in seconds. *)
Definition account_row (now : Z) (name : str) (s : State) : outcome Json :=
  let* p95s := omapM (p95 s) [0; 1; 2; 3]%nat in
  Ret (JObj [
    member "account" (JStr name);
    member "totals" (JArr (List.map JNum (totals s)));
    member "peak_per_second" (JArr (List.map JNum (peaks s)));
    member "p95_recent_active_seconds" (JArr (List.map JNum p95s));
    member "new_flows_this_minute" (JNum (if minute s =? now / 60 then new_flows s else 0));
    member "total_new_flows" (JNum (total_new_flows s));
    member "flows_seen_within_120s" (jnat (size (filter (live_flow now) (flows s))));
    member "peak_tracked_flows" (JNum (peak_flows s));
    member "budget_breaches" (JNum (breaches s));
    member "dropped_packets" (JNum (drops s));
    member "untracked_flow_packets" (JNum (untracked s))]).

(** [order]: the accounts in the order the table is iterated in. *)
Definition budgets_snapshot (env : str -> option str) (b : Budgets) (order : list str) (now_ms : Z)
  : outcome Json :=
  let now := now_ms / 1000 in
  let entries := omap (fun name => pair name <$> (accounts b !! name)) order in
  let* rows := omapM (fun '(name, a) => account_row now name (a_state a)) entries in
  Ret (JObj [
    member "server_id" (JStr (default [] (env (lit "RELAY_SERVER_ID"))));
    member "mode" (JStr (if enforce (policy b) then lit "enforce" else lit "observe"));
    member "counter_order" (JArr (List.map JStr
      [lit "packets_in"; lit "bytes_in"; lit "packets_out"; lit "bytes_out"]));
    member "limits" (JObj [
      member "packets_per_second" (JNum (limit_packets (policy b)));
      member "bytes_per_second" (JNum (limit_bytes (policy b)));
      member "new_flows_per_minute" (JNum (limit_new_flows (policy b)))]);
    member "untracked_account_packets" (JNum (capacity_packets b));
    member "capacity_dropped_packets" (JNum (capacity_drops b));
    member "accounts" (JArr rows)]).

(* ------------------------------------------------------------------ *)
(** ** The bodies of the endpoint *)

(** The five documents as the handler of HttpApi.v serves them, from the
    relay's state; [cached] is the connections document the updater stored
    last. *)
Definition stats_bodies (to_string : Json -> str) (env : str -> option str) (config : RelayRuntimeConfig)
  (v : V2) (w : StatsRateWindow) (order : list str) (cached : str) (elapsed now now_unix mono_ms : Z)
  : outcome (StatsRateWindow * Bodies) :=
  let* budgets := budgets_snapshot env (v_budgets v) order mono_ms in
  let '(w, stats) := render_stats_payload (v_stats v) config w elapsed now now_unix in
  Ret (w, MkBodies (to_string budgets) (to_string (policy_snapshot (v_policy v))) (to_string stats)
            cached (to_string (render_config_payload config now_unix))).

(* ------------------------------------------------------------------ *)
(** ** What the documents say *)

Lemma omapM_returns {A B} (f : A -> outcome B) l :
  (forall a, a ∈ l -> exists b, f a = Ret b) -> exists bs, omapM f l = Ret bs /\ length bs = length l.
Proof.
  induction l as [|a l IH]; intros Hf; [by exists []|]. cbn [omapM].
  destruct (Hf a ltac:(by left)) as [b ->]. cbn [obind].
  destruct IH as (bs & -> & Hl); [intros x Hx; apply Hf; by right|]. cbn [obind].
  exists (b :: bs). cbn [length]. by rewrite Hl.
Qed.

Lemma account_row_returns now name s : exists row, account_row now name s = Ret row
  /\ get "account" row = Some (JStr name).
Proof.
  destruct (omapM_returns (p95 s) [0; 1; 2; 3]%nat) as (ps & E & _).
  { intros i _. destruct (p95_is_percentile s i) as (x & -> & _). by exists x. }
  unfold account_row. rewrite E. by eexists.
Qed.

(** The documents can always be built, whatever the accounts did. *)
Lemma stats_bodies_return to_string env config v w order cached elapsed now now_unix mono_ms :
  exists w' b, stats_bodies to_string env config v w order cached elapsed now now_unix mono_ms = Ret (w', b)
    /\ connections b = cached.
Proof.
  unfold stats_bodies, budgets_snapshot.
  match goal with |- context [omapM ?f ?l] => destruct (omapM_returns f l) as (rows & -> & _) end.
  { intros [name a] _. destruct (account_row_returns (mono_ms / 1000) name (a_state a)) as (row & E & _).
    by exists row. }
  cbn [obind]. destruct (render_stats_payload _ _ _ _ _ _) as [w' doc]. by eexists _, _.
Qed.

(** The sum over the members of an object of numbers. *)
Definition sum_members (v : Json) : Z :=
  match v with
  | JObj members => fold_right (fun m acc => match snd m with JNum n => n + acc | _ => acc end) 0 members
  | _ => 0
  end.

Lemma drops_sum c : sum_members (to_json c) = reasons_total c.
Proof. unfold reasons_total, to_json, sum_members. cbn. lia. Qed.

(** The statistics document adds up in every state a run reaches: its
    [active_users] and [active_sessions] are the number of sessions in the
    table (with the one the cleanup is in the middle of closing), and its [dropped_in] and [dropped_out] together are the sum of the
    members of [drops], modulo the width of the counters. *)
Theorem stats_document_adds_up `{TicketCrypto} hash_one cfg env cores policy budget tun t0
  (l : list turn) config w elapsed now now_unix :
  Forall turn_ok l ->
  exists v, v2_run hash_one cfg (start env cores policy budget tun t0) l = Ret v
    /\ let doc := snd (render_stats_payload (v_stats v) config w elapsed now now_unix) in
       get "active_users" doc = Some (JNum (Z.of_nat (size (v_sessions v)) + closing_count v))
       /\ get "active_sessions" doc = Some (JNum (Z.of_nat (size (v_sessions v)) + closing_count v))
       /\ exists din dout reasons,
            get "dropped_in" doc = Some (JNum din) /\ get "dropped_out" doc = Some (JNum dout)
            /\ get "drops" doc = Some reasons
            /\ (din + dout) mod 2 ^ 64 = sum_members reasons mod 2 ^ 64.
Proof.
  intros Hl. destruct (run_inv hash_one cfg env cores policy budget tun t0 l Hl) as (v & E & Hv).
  exists v. split; [exact E|]. pose proof (i_active _ _ Hv) as Ha. pose proof (i_drops _ _ Hv) as Hd.
  unfold render_stats_payload. destruct (sample_stats_rates _ _ _ _) as [w' [i o]]. cbn [snd].
  split; [by rewrite <- Ha|]. split; [by rewrite <- Ha|].
  exists (dropped_in (v_stats v)), (dropped_out (v_stats v)), (to_json (drop_reasons (v_stats v))).
  split; [reflexivity|]. split; [reflexivity|]. split; [reflexivity|]. rewrite drops_sum. exact Hd.
Qed.

Section Witness.
#[local] Existing Instance toy_crypto.

Definition sample_runtime : RelayRuntimeConfig :=
  build_runtime_config no_env 4 DatapathV2 1 2 toy_auth false false (MkBuffers 0 0 0 0).

Lemma stats_document_adds_up_witness :
  exists v, v2_run (fun _ => 0) sample_cfg (start no_env 4 sample_policy sample_budget true 0) sample_turns = Ret v
    /\ get "active_users" (snd (render_stats_payload (v_stats v) sample_runtime window_new 5 6 7))
       = Some (JNum (Z.of_nat (size (v_sessions v)) + closing_count v)).
Proof.
  destruct (stats_document_adds_up (fun _ => 0) sample_cfg no_env 4 sample_policy sample_budget true 0
    sample_turns sample_runtime window_new 5 6 7 sample_turns_ok) as (v & E & Hu & _).
  exists v. by split.
Defined.

End Witness.
