(* ===== verification/Serve.v ===== *)
(** * The statistics endpoint beside the datapath (src/main.rs:
    [StatsApiContext], [spawn_connections_snapshot_updater],
    [store_connections_snapshot], [render_connections_snapshot_payload])

    A thread renders the connections document twice a second into a cache;
    clients of the endpoint are served the cache.  The thread copies the
    session table first and reads the traffic counters afterwards, while the
    datapath goes on: the two are separate turns here. *)

From Stdlib Require Import String.
From S2P Require Import Prelude Checksum Net Packet TunRewrite TunSession RustStr Tuning DestPolicy Stats Sessions RateLimit AccountBudget Auth Frames HttpApi StatsRates Handler V2State V2Rx V2Shard V2Tun V2Inv V2Safe V2Thms V2Auth V2Data V2Trace.

(** The part of [StatsApiContext] that is its own; the tables it shares with
    the datapath are those of [V2]. *)
Record StatsApiContext : Type := MkApi { connections_snapshot : str }.
#[global] Instance eta_StatsApiContext : Eta StatsApiContext := fun c => MkApi (connections_snapshot c).

Definition api_new (now_unix : Z) : StatsApiContext := MkApi (empty_connections_payload now_unix).
Definition render_connections_snapshot_payload (context : StatsApiContext) : str :=
  connections_snapshot context.
Definition store_connections_snapshot (context : StatsApiContext) (payload : str)
  : StatsApiContext * bool :=
  (context <| connections_snapshot := payload |>, true).

(** The relay with its endpoint: the state of the datapath, the cache, what
    the updater has copied of the sessions for the document it is making, and
    the answers given. *)
Record Served : Type := MkServed {
  sv_v2 : V2;
  sv_api : StatsApiContext;
  sv_meta : option Sessions;
  sv_answers : list (list ReadResult * ClientResult);
}.
#[global] Instance eta_Served : Eta Served := fun s =>
  MkServed (sv_v2 s) (sv_api s) (sv_meta s) (sv_answers s).

(** Turns: one of the datapath; the updater copies the sessions; it renders
    and stores, with the orders the two tables are iterated in and the time;
    a client is handled, with the other four documents as they are then. *)
Inductive serve_turn : Type :=
| ServeDatapath (a : turn)
| ServeCopy
| ServeStore (traffic_order session_order : list SessionId) (now_unix : Z)
| ServeClient (others : Bodies) (reads : list ReadResult).

Section Serve.
Context `{TicketCrypto} (hash_one : IpAddr -> Z) (cfg : Config) (token : str).

Definition serve_step (s : Served) (a : serve_turn) : outcome Served :=
  match a with
  | ServeDatapath a => let* v := v2_turn hash_one cfg (sv_v2 s) a in Ret (s <| sv_v2 := v |>)
  | ServeCopy => Ret (s <| sv_meta := Some (v_sessions (sv_v2 s)) |>)
  | ServeStore traffic_order session_order now_unix =>
      match sv_meta s with
      | None => Ret s
      | Some session_meta =>
          let payload := render_connections_payload session_meta (v_traffic (sv_v2 s))
                           traffic_order session_order now_unix in
          Ret (s <| sv_api := (store_connections_snapshot (sv_api s) payload).1 |> <| sv_meta := None |>)
      end
  | ServeClient others reads =>
      let bodies := MkBodies (account_budgets others) (dest_policy others) (stats_payload others)
                      (render_connections_snapshot_payload (sv_api s)) (config_payload others) in
      Ret (s <| sv_answers ::= fun l => l ++ [(reads, handle_stats_http_client_blocking token bodies reads)] |>)
  end.

Fixpoint serve_run (s : Served) (l : list serve_turn) : outcome Served :=
  match l with
  | [] => Ret s
  | a :: l => let* s := serve_step s a in serve_run s l
  end.

Definition serve_new (v : V2) (now_unix : Z) : Served := MkServed v (api_new now_unix) None [].

(** The tables are iterated completely, in any order. *)
Definition orders_ok (s : Served) (a : serve_turn) : Prop :=
  match a with
  | ServeStore traffic_order session_order _ =>
      traffic_order ≡ₚ (map_to_list (v_traffic (sv_v2 s))).*1
      /\ session_order ≡ₚ (map_to_list (default ∅ (sv_meta s))).*1
  | _ => True
  end.
Fixpoint serve_ok (s : Served) (l : list serve_turn) : Prop :=
  match l with
  | [] => True
  | a :: l => orders_ok s a /\ forall s', serve_step s a = Ret s' -> serve_ok s' l
  end.

(** What the datapath did during a run. *)
Definition datapath (l : list serve_turn) : list turn :=
  omap (fun a => match a with ServeDatapath a => Some a | _ => None end) l.

(* ------------------------------------------------------------------ *)
(** ** The cache *)

(** States of the datapath during a run that starts in [v0]. *)
Definition reached (v0 : V2) (l : list serve_turn) (v : V2) : Prop :=
  exists l1 l2, l = l1 ++ l2 /\ v2_run hash_one cfg v0 (datapath l1) = Ret v.

(** A document of the cache: the one at the start, or the rendering of the
    sessions and the counters of states of the run, complete and sorted. *)
Definition rendered (v0 : V2) (boot : Z) (l : list serve_turn) (doc : str) : Prop :=
  doc = empty_connections_payload boot
  \/ exists vs vt order1 order2 now_unix,
       let snapshots := connection_snapshots (v_sessions vs) (v_traffic vt) order1 order2 in
       reached v0 l vs /\ reached v0 l vt
       /\ doc = render_connections_payload (v_sessions vs) (v_traffic vt) order1 order2 now_unix
       /\ snapshots ≡ₚ describe (v_traffic vt) <$> map_to_list (v_sessions vs)
       /\ StronglySorted more_recent snapshots.

Lemma reached_app v0 l1 l2 v : reached v0 l1 v -> reached v0 (l1 ++ l2) v.
Proof. intros (a & b & -> & E). exists a, (b ++ l2). by rewrite app_assoc. Qed.

Lemma rendered_app v0 boot l1 l2 doc : rendered v0 boot l1 doc -> rendered v0 boot (l1 ++ l2) doc.
Proof.
  intros [->|(vs & vt & o1 & o2 & t & Hs & Hv & Hd)]; [by left|]. right.
  exists vs, vt, o1, o2, t. split; [by apply reached_app|]. split; [by apply reached_app | exact Hd].
Qed.

(** The documents a client is served from. *)
Definition with_cache (others : Bodies) (doc : str) : Bodies :=
  MkBodies (account_budgets others) (dest_policy others) (stats_payload others) doc (config_payload others).
(** The cache is the connections document and nothing else. *)
Lemma cached_document others doc path b :
  (path, b) ∈ documents (with_cache others doc) ->
  (path = lit "/v1/connections" -> b = doc) /\ (path <> lit "/v1/connections" -> (path, b) ∈ documents others).
Proof.
  unfold documents. intros Hin. repeat apply elem_of_cons in Hin as [[= -> ->]|Hin];
    try (by apply elem_of_nil in Hin);
    (split; [intros Hp; first [done | by vm_compute in Hp] | intros Hp; set_solver]).
Qed.

Definition answered_from (v0 : V2) (boot : Z) (l : list serve_turn) (x : list ReadResult * ClientResult) : Prop :=
  exists others doc, ServeClient others x.1 ∈ l /\ rendered v0 boot l doc
    /\ x.2 = handle_stats_http_client_blocking token (with_cache others doc) x.1.

(** The invariant of a run. *)
Definition serving (v0 : V2) (boot : Z) (l : list serve_turn) (s : Served) : Prop :=
  v2_run hash_one cfg v0 (datapath l) = Ret (sv_v2 s)
  /\ (forall m, sv_meta s = Some m -> exists vs, reached v0 l vs /\ m = v_sessions vs)
  /\ rendered v0 boot l (connections_snapshot (sv_api s))
  /\ Forall (answered_from v0 boot l) (sv_answers s).

(** What holds of a run holds of a longer one, up to the datapath's state. *)
Lemma serving_app v0 boot l a s v' :
  serving v0 boot l s -> v2_run hash_one cfg v0 (datapath (l ++ [a])) = Ret v' ->
  serving v0 boot (l ++ [a]) (s <| sv_v2 := v' |>).
Proof.
  intros (Hv & Hm & Hd & Ha) E. split; [exact E|]. split.
  { intros m Em. destruct (Hm m Em) as (vs & Hvs & ->). exists vs. split; [by apply reached_app | done]. }
  split; [by apply rendered_app|]. eapply list.Forall_impl; [exact Ha|].
  intros x (o & doc & Hin & Hr & Ex). exists o, doc. split; [apply elem_of_app; by left|].
  split; [by apply rendered_app | done].
Qed.

Lemma serving_step v0 boot l s a s' :
  serving v0 boot l s -> orders_ok s a -> serve_step s a = Ret s' -> serving v0 boot (l ++ [a]) s'.
Proof.
  intros Hs Ho E. pose proof Hs as (Hv & _).
  assert (reached v0 (l ++ [a]) (sv_v2 s)) as Hnow by (exists l, [a]; by split).
  assert (forall v', v2_run hash_one cfg (sv_v2 s) (datapath [a]) = Ret v' ->
            serving v0 boot (l ++ [a]) (s <| sv_v2 := v' |>)) as Hnext.
  { intros v' Ev. apply serving_app; [exact Hs|]. unfold datapath. rewrite omap_app.
    fold (datapath l) (datapath [a]). by rewrite v2_run_app, Hv. }
  destruct a as [b| |o1 o2 t|o rd]; cbn [serve_step] in E.
  - apply obind_inv in E as (v & Eb & [= <-]). apply Hnext. cbn. by rewrite Eb.
  - injection E as <-. destruct (Hnext _ eq_refl) as (H1 & _ & H3 & H4). split; [exact H1|].
    split; [|by split]. intros m [= <-]. by exists (sv_v2 s).
  - destruct (Hnext _ eq_refl) as (H1 & H2 & H3 & H4).
    destruct (sv_meta s) as [m|] eqn:Em; injection E as <-.
    2: { destruct s; cbn in *. subst. exact (Hnext _ eq_refl). }
    destruct Ho as [Ho1 Ho2]. rewrite Em in Ho2. split; [exact H1|]. split; [done|]. split; [|exact H4].
    right. destruct (H2 m Em) as (vs & Hvs & ->). exists vs, (sv_v2 s), o1, o2, t.
    do 3 (split; [done|]). by apply snapshots_complete.
  - injection E as <-. destruct (Hnext _ eq_refl) as (H1 & H2 & H3 & H4). do 3 (split; [done|]). cbn.
    apply Forall_app_2; [exact H4|]. apply Forall_cons_2; [|done]. exists o, (connections_snapshot (sv_api s)).
    split; [apply elem_of_app; right; by left | by split].
Qed.

Lemma serving_run v0 boot l2 : forall l1 s s',
  serving v0 boot l1 s -> serve_ok s l2 -> serve_run s l2 = Ret s' -> serving v0 boot (l1 ++ l2) s'.
Proof.
  induction l2 as [|a l2 IH]; intros l1 s s' Hs Hok E.
  - injection E as <-. by rewrite app_nil_r.
  - cbn [serve_run] in E. apply obind_inv in E as (s1 & E1 & E). destruct Hok as [Ho Hok].
    change (a :: l2) with ([a] ++ l2). rewrite app_assoc. eapply IH; [|by apply Hok | exact E].
    by eapply serving_step.
Qed.

(** Serving never gets in the way of the datapath. *)
Lemma serve_run_returns l : forall s v,
  v2_run hash_one cfg (sv_v2 s) (datapath l) = Ret v -> exists s', serve_run s l = Ret s'.
Proof.
  induction l as [|a l IH]; intros s v E; [by eexists|]. cbn [serve_run].
  destruct a as [b| |o1 o2 t|o rd]; cbn [serve_step]; cbn [datapath omap list_omap] in E.
  - cbn [v2_run] in E. apply obind_inv in E as (v1 & E1 & E). rewrite E1. cbn [obind]. by eapply IH.
  - cbn [obind]. by eapply IH.
  - destruct (sv_meta s); cbn [obind]; by eapply IH.
  - cbn [obind]. by eapply IH.
Qed.

End Serve.


Section Witness.
#[local] Existing Instance toy_crypto.

(** A client authenticates, the updater runs, and a monitor asks for the
    connections. *)
Definition monitor_request : list Z :=
  lit "GET /v1/connections HTTP/1.1" ++ [13; 10] ++ lit "authorization: Bearer s3cret" ++ [13; 10; 13; 10].
Definition served_turns : list serve_turn :=
  [ServeDatapath (TurnRx (toy_rx toy_hello 0)); ServeCopy; ServeStore [toy_sid] [toy_sid] 1300;
   ServeClient sample_bodies [ReadOk monitor_request]].
Definition served_start : Served := serve_new trace_start 1000.


End Witness.
