(* ===== verification/Locks.v ===== *)
(** * Locks whose holder panicked (src/main.rs: [sample_stats_rates],
    [store_connections_snapshot], [render_connections_snapshot_payload],
    [PendingAuthLimiter::allow])

    The other files model what is behind a [Mutex] or an [RwLock] as plain
    state.  Here is the lock itself: a panic of a thread that holds it leaves
    the value as it was at that point and marks the lock poisoned, for good.
    The relay takes its locks in two ways: it goes on with the value
    ([unwrap_or_else(into_inner)]), or, for the buckets of the pending
    limiter, treats a poisoned one as a refusal ([is_ok_and]). *)

From S2P Require Import Prelude Net RustStr RateLimit HttpApi StatsRates Handler V2State V2Rx V2Shard V2Tun V2Inv V2Safe V2Thms V2Auth V2Data V2Trace Serve.

(** [Mutex<A>], or [RwLock<A>] taken for writing, between two holders. *)
Record Lock (A : Type) : Type := MkLock { lk_value : A; is_poisoned : bool }.
Arguments MkLock {A}. Arguments lk_value {A}. Arguments is_poisoned {A}.
Definition lock_new {A} (a : A) : Lock A := MkLock a false.

(** [lock()], [read()] and [write()]: the value, as an error if poisoned. *)
Definition lock {A} (l : Lock A) : result A A :=
  if is_poisoned l then Err (lk_value l) else Ok (lk_value l).

(** [unwrap_or_else(|poisoned| poisoned.into_inner())]. *)
Definition recover {A} (r : result A A) : A := match r with Ok a => a | Err a => a end.

(** A holder that returns stores the value and leaves the mark; one that
    panics leaves what it had written and sets it. *)
Definition put {A} (l : Lock A) (a : A) : Lock A := MkLock a (is_poisoned l).
Definition crash {A} (g : A -> A) (l : Lock A) : Lock A := MkLock (g (lk_value l)) true.

(** The whole critical section of a function that recovers. *)
Definition recovering {A B} (f : A -> A * B) (l : Lock A) : Lock A * B :=
  let '(a, b) := f (recover (lock l)) in (put l a, b).

(* ------------------------------------------------------------------ *)
(** ** The functions of the relay, through their locks *)

Definition locked_sample_stats_rates (rate_window : Lock StatsRateWindow) (bytes_in bytes_out now : Z)
  : Lock StatsRateWindow * (Z * Z) :=
  recovering (fun w => sample_stats_rates w bytes_in bytes_out now) rate_window.

Definition locked_store_connections_snapshot (context : Lock StatsApiContext) (payload : str)
  : Lock StatsApiContext * bool :=
  recovering (fun c => store_connections_snapshot c payload) context.

Definition locked_render_connections_snapshot_payload (context : Lock StatsApiContext) : str :=
  render_connections_snapshot_payload (recover (lock context)).

(** [PendingAuthLimiter::allow]. *)
Definition locked_pending_allow (hash_one : IpAddr -> Z) (buckets : list (Lock SourceRateState)) (ip : IpAddr) (now : Z)
  : outcome (list (Lock SourceRateState) * bool) :=
  let index := Z.to_nat (hash_one ip mod Z.of_nat (length buckets)) in
  let* bucket := rd buckets index in
  match lock bucket with
  | Err _ => Ret (buckets, false)
  | Ok st =>
      let '(st, ok) := rate_allow st NewSession now in
      let* buckets := wr buckets index (put bucket st) in
      Ret (buckets, ok)
  end.

(* ------------------------------------------------------------------ *)
(** ** Recovery is transparent *)

Lemma recover_lock {A} (l : Lock A) : recover (lock l) = lk_value l.
Proof. unfold lock. by destruct (is_poisoned l). Qed.

(** What happens to a lock: a section that returns, or one that panics after
    some writes. *)
Inductive use (A B : Type) : Type :=
| Returns (f : A -> A * B)
| Panics (g : A -> A).
Arguments Returns {A B}. Arguments Panics {A B}.

Definition is_panic {A B} (u : use A B) : bool := match u with Panics _ => true | Returns _ => false end.

Fixpoint through {A B} (l : Lock A) (uses : list (use A B)) : Lock A * list B :=
  match uses with
  | [] => (l, [])
  | Returns f :: uses =>
      let '(l, b) := recovering f l in let '(l, bs) := through l uses in (l, b :: bs)
  | Panics g :: uses => through (crash g l) uses
  end.

(** The same on plain state. *)
Fixpoint plainly {A B} (a : A) (uses : list (use A B)) : A * list B :=
  match uses with
  | [] => (a, [])
  | Returns f :: uses => let '(a, b) := f a in let '(a, bs) := plainly a uses in (a, b :: bs)
  | Panics g :: uses => plainly (g a) uses
  end.

(** However many holders panic, wherever they were, those after them get the
    results they would get from plain state, which is why the other files
    leave these locks out; the mark tells whether any did. *)
Theorem recovery_is_transparent {A B} (uses : list (use A B)) : forall l,
  through l uses = (MkLock (plainly (lk_value l) uses).1 (is_poisoned l || existsb is_panic uses),
                    (plainly (lk_value l) uses).2).
Proof.
  induction uses as [|[f|g] uses IH]; intros [a p]; cbn [through plainly lk_value is_poisoned existsb is_panic].
  - by rewrite orb_false_r.
  - unfold recovering. rewrite recover_lock. cbn [lk_value]. destruct (f a) as [a1 b].
    rewrite IH. cbn [lk_value is_poisoned put]. by destruct (plainly a1 uses).
  - rewrite IH. cbn [lk_value is_poisoned crash]. by rewrite orb_true_r.
Qed.

(* ------------------------------------------------------------------ *)
(** ** The pending limiter fails closed *)

(** As long as no bucket is poisoned the limiter decides as [pending_allow]
    does, and poisons none. *)
Lemma locked_pending_refines hash_one buckets ip now :
  locked_pending_allow hash_one (lock_new <$> buckets) ip now
  = let* r := pending_allow hash_one buckets ip now in Ret (lock_new <$> r.1, r.2).
Proof.
  unfold locked_pending_allow, pending_allow. rewrite length_fmap.
  set (index := Z.to_nat _). unfold rd. rewrite (list_lookup_fmap lock_new buckets index).
  destruct (buckets !! index) as [st|] eqn:E; [|done]. cbn [fmap option_fmap option_map obind lock lock_new is_poisoned lk_value].
  destruct (rate_allow st NewSession now) as [st' ok].
  pose proof (lookup_lt_Some _ _ _ E) as Hi.
  rewrite !wr_lt by (rewrite ?length_fmap; exact Hi). cbn [obind fst snd].
  by rewrite (list_fmap_insert lock_new buckets index st').
Qed.

(** Unlike the endpoint, a source whose bucket is poisoned is refused, now
    and at any later time, and the table stays as it is. *)
Lemma poisoned_bucket_refuses hash_one buckets ip bucket now :
  buckets !! Z.to_nat (hash_one ip mod Z.of_nat (length buckets)) = Some bucket ->
  is_poisoned bucket = true ->
  locked_pending_allow hash_one buckets ip now = Ret (buckets, false).
Proof.
  intros E Hp. unfold locked_pending_allow. rewrite (rd_lookup _ _ _ E). cbn [obind].
  unfold lock. by rewrite Hp.
Qed.
