(* ===== verification/TestKit.v ===== *)
(** * Running the repository's unit tests on the model

    The source files end in unit tests.  The files [Tests*] translate them
    test by test: a test is a [bool], an [assert!] a conjunct, a test that
    calls methods of an object a [script] over that object's state.  That all
    of them pass is evidence that the definitions the theorems are about
    behave as the code does. *)

From Stdlib Require Import String.
From S2P Require Import Prelude RustStr.

Declare Scope test_scope.
Delimit Scope test_scope with test.

(** [assert_eq!]. *)
Notation "a ==? b" := (bool_decide (a = b)) (at level 70, no associativity) : test_scope.

(** All assertions of a test; all tests of a suite. *)
Definition all (l : list bool) : bool := forallb (fun b => b) l.

(** A computation that must not panic, with the assertion on its result. *)
Definition ran {A} (o : outcome A) (p : A -> bool) : bool :=
  match o with Ret a => p a | Panic => false end.

(** [unwrap] and [expect] in a test. *)
Definition got {A} (o : option A) (p : A -> bool) : bool :=
  match o with Some a => p a | None => false end.
Definition is_none {A} (o : option A) : bool := match o with None => true | Some _ => false end.
Definition is_some {A} (o : option A) : bool := negb (is_none o).

Definition is_ok {A E} (r : result A E) : bool := match r with Ok _ => true | Err _ => false end.
Definition ok {A E} (r : result A E) (p : A -> bool) : bool := match r with Ok a => p a | Err _ => false end.
Definition fails_with {A E} `{EqDecision E} (e : E) (r : result A E) : bool :=
  match r with Ok _ => false | Err e' => bool_decide (e = e') end.

(** [hay.contains(needle)]. *)
Fixpoint occurs (needle hay : list Z) : bool :=
  bool_decide (take (length needle) hay = needle)
  || match hay with [] => false | _ :: rest => occurs needle rest end.

(* ------------------------------------------------------------------ *)
(** ** Scripts *)

(** [None] is a failed assertion or a panic. *)
Definition script (S A : Type) : Type := S -> option (S * A).

Definition sret {S A} (a : A) : script S A := fun s => Some (s, a).
Definition sbind {S A B} (m : script S A) (k : A -> script S B) : script S B :=
  fun s => match m s with Some (s, a) => k a s | None => None end.

(** A method that changes the object and returns a value; one that only
    changes it; a look at it; a method that can panic. *)
Definition call {S A} (f : S -> S * A) : script S A := fun s => Some (f s).
Definition change {S} (f : S -> S) : script S unit := fun s => Some (f s, tt).
Definition look {S A} (f : S -> A) : script S A := fun s => Some (s, f s).
Definition invoke {S A} (f : S -> outcome (S * A)) : script S A :=
  fun s => match f s with Ret r => Some r | Panic => None end.
Definition ensure {S} (b : bool) : script S unit := fun s => if b then Some (s, tt) else None.

Notation "'let@' x ':=' m 'in' k" := (sbind m (fun x => k))
  (at level 10, x pattern, m at level 100, k at level 200) : test_scope.
Notation "m ;@ k" := (sbind m (fun _ => k)) (at level 100, right associativity) : test_scope.

(** The assertion that a call returns [true], or not. *)
Definition accepts {S} (m : script S bool) : script S unit := sbind m (fun b => ensure b).
Definition refuses {S} (m : script S bool) : script S unit := sbind m (fun b => ensure (negb b)).
(** An assertion on the state. *)
Definition observes {S} (p : S -> bool) : script S unit := fun s => if p s then Some (s, tt) else None.

Fixpoint for_each {S A} (l : list A) (body : A -> script S unit) : script S unit :=
  match l with
  | [] => sret tt
  | a :: l => sbind (body a) (fun _ => for_each l body)
  end.

Definition passes {S} (s : S) (m : script S unit) : bool := is_some (m s).
