(* ===== verification/TestsPolicy.v ===== *)
(** * The unit tests of src/dest_policy.rs and src/account_budget.rs

    The two microbenchmarks, which assert nothing, are left out. *)

From Stdlib Require Import String.
From S2P Require Import Prelude Checksum Net Packet RustStr Tuning DestPolicy Stats Sessions RateLimit AccountBudget Auth Frames HttpApi StatsRates Handler V2State Startup Documents TestKit.
Open Scope test_scope.

(** [value["a"]["b"]], and the first element of an array. *)
Definition at_path (names : list string) (v : Json) : option Json :=
  fold_left (fun o name => o ≫= get name) names (Some v).
Definition first_of (o : option Json) : option Json :=
  match o with Some (JArr (x :: _)) => Some x | _ => None end.
Definition is_num (o : option Json) (n : Z) : bool :=
  match o with Some (JNum m) => m =? n | _ => false end.
Definition is_text (o : option Json) (s : string) : bool :=
  match o with Some (JStr t) => str_eqb t (lit s) | _ => false end.

Module PolicyTests.

(** Roblox's main range for both protocols, and a CloudFront range for TCP. *)
Definition FILE : str := lit "128.116.0.0/17" ++ [10] ++ lit "tcp 13.32.0.0/15" ++ [10].
Definition ip : Z -> Z -> Z -> Z -> Ipv4Addr := ipv4_new.
Definition test_policy (mode : Mode) (file : str) : DestPolicy :=
  (build mode (Some (lit "test", inl file)) DEFAULT_TCP_PORTS) <| sample_every := 1 |>.
Definition permits (protocol : Z) (dst : Ipv4Addr) (port : option Z) : script DestPolicy bool :=
  invoke (fun p => policy_permits p protocol dst port).
Definition holds (s : NetSet) (a : Ipv4Addr) : bool := ran (NetSets.contains s a) (fun b => b).

(** [u32::count_ones]. *)
Definition count_ones (x : Z) : nat :=
  length (List.filter (fun i => Z.testbit x (Z.of_nat i)) (seq 0 32)).

Definition prefixes_parse_and_nonsense_does_not : bool :=
  got (Nets.parse (lit "128.116.0.0/17")) (fun net =>
    (count_ones (mask net) =? 17)%nat
    && got (Nets.parse (lit "128.116.9.9/17")) (fun net' =>
         (base net' =? base net) && (mask net' =? mask net)))
  && forallb (fun bad => is_none (Nets.parse (lit bad)))
       ["128.116.0.0"; "128.116.0.0/33"; "abc/24"; "1.2.3/24"; "10.0.0.0/7"; "0.0.0.0/0"; ""]%string.

Definition every_built_in_prefix_parses : bool :=
  forallb (fun cidr => is_some (Nets.parse (lit cidr))) BUILT_IN_ROBLOX.

Definition covered_prefixes_collapse_and_edges_are_exact : bool :=
  let set := NetSets.new (omap (fun cidr => Nets.parse (lit cidr))
    ["128.116.0.0/24"; "128.116.0.0/17"; "128.116.95.0/24"; "204.13.168.0/24"]%string) in
  all [(length set =? 2)%nat;
       holds set (ip 128 116 0 0); holds set (ip 128 116 127 255);
       negb (holds set (ip 128 116 128 0)); negb (holds set (ip 128 115 255 255));
       holds set (ip 204 13 168 77); negb (holds set (ip 204 13 169 0));
       negb (holds [] (ip 128 116 0 1))].

Definition built_in_list_covers_roblox_and_nothing_else : bool :=
  let policy := build Observe None DEFAULT_TCP_PORTS in
  all [str_eqb (source policy) (lit "built-in");
       holds (udp policy) (ip 128 116 50 10); holds (udp policy) (ip 204 13 170 5);
       holds (udp policy) (ip 103 140 29 1); negb (holds (udp policy) (ip 1 1 1 1));
       negb (holds (udp policy) (ip 209 206 40 1));
       occurs (lit "observe (built-in list") (policy_describe policy)].

Definition observe_counts_unlisted_traffic_and_forwards_all_of_it : bool :=
  passes (test_policy Observe FILE) (
    accepts (permits 17 (ip 1 1 1 1) (Some 5000)) ;@
    accepts (permits 6 (ip 128 116 1 1) (Some 8080)) ;@
    accepts (permits 17 (ip 128 116 1 1) (Some 55000)) ;@
    let@ snapshot := look policy_snapshot in
    ensure (all [
      is_text (get "mode" snapshot) "observe";
      is_num (at_path ["unlisted_packets"; "udp"]%string snapshot) 1;
      is_num (at_path ["unlisted_packets"; "tcp_port"]%string snapshot) 1;
      is_num (get "dropped_packets" snapshot) 0;
      is_text (first_of (at_path ["unlisted_sample"; "networks"]%string snapshot) ≫= get "network") "1.1.1.0/24";
      is_num (first_of (at_path ["unlisted_sample"; "tcp_ports"]%string snapshot) ≫= get "port") 8080])).

Definition enforce_drops_what_observe_would_have_counted : bool :=
  passes (test_policy Enforce FILE) (
    observes (fun policy => mode policy ==? Enforce) ;@
    accepts (permits 17 (ip 128 116 50 10) (Some 55000)) ;@
    accepts (permits 6 (ip 128 116 50 10) (Some 443)) ;@
    accepts (permits 6 (ip 13 32 1 1) (Some 443)) ;@
    refuses (permits 17 (ip 1 1 1 1) (Some 5000)) ;@
    refuses (permits 6 (ip 1 1 1 1) (Some 443)) ;@
    refuses (permits 17 (ip 13 32 1 1) (Some 443)) ;@
    refuses (permits 6 (ip 128 116 50 10) (Some 22)) ;@
    accepts (permits 17 (ip 128 116 50 10) None) ;@
    refuses (permits 17 (ip 1 1 1 1) None) ;@
    observes (fun policy => is_num (get "dropped_packets" (policy_snapshot policy)) 5)).

Definition off_forwards_everything_and_records_nothing : bool :=
  passes (test_policy Off FILE) (
    accepts (permits 17 (ip 1 1 1 1) (Some 5000)) ;@
    observes (fun policy => is_num (at_path ["unlisted_packets"; "udp"]%string (policy_snapshot policy)) 0)).

Definition enforce_without_a_usable_file_observes_instead : bool :=
  let no_file := build Enforce None DEFAULT_TCP_PORTS in
  let unreadable := build Enforce (Some (lit "missing", inr (lit "entity not found"))) DEFAULT_TCP_PORTS in
  let one_sided := build Enforce (Some (lit "udp-only", inl (lit "udp 128.116.0.0/17" ++ [10]))) DEFAULT_TCP_PORTS in
  all [mode no_file ==? Observe; is_some (enforce_refused no_file);
       passes no_file (accepts (permits 17 (ip 1 1 1 1) (Some 5000)));
       mode unreadable ==? Observe; str_eqb (source unreadable) (lit "built-in");
       mode one_sided ==? Observe; (length (notes one_sided) =? 1)%nat].

Definition allowlist_lines_choose_their_protocol : bool :=
  let list := parse_allowlist
    (lit "# header" ++ [10] ++ lit "128.116.0.0/17" ++ [10] ++ lit "udp 103.140.28.0/23" ++ [10]
     ++ lit "tcp 13.32.0.0/15  # CloudFront" ++ [10; 10] ++ lit "icmp 1.2.3.0/24" ++ [10]
     ++ lit "not a prefix" ++ [10]) in
  all [(length (al_udp list) =? 2)%nat; (length (al_tcp list) =? 2)%nat; (invalid_lines list =? 2)%nat].

Definition modes_and_ports_parse_conservatively : bool :=
  all [Modes.parse None ==? Observe; Modes.parse (Some (lit " Enforce ")) ==? Enforce;
       Modes.parse (Some (lit "off")) ==? Off; Modes.parse (Some (lit "enforced")) ==? Observe;
       parse_ports None ==? [80; 443]; parse_ports (Some (lit "443, 8443")) ==? [443; 8443];
       parse_ports (Some (lit "nonsense,0")) ==? [80; 443]].

Definition the_unlisted_sample_stays_bounded : bool :=
  let extra := 50%nat in
  passes (test_policy Observe FILE) (
    for_each (seq 0 (SAMPLE_CAP + extra)) (fun n =>
      let dst := ip 1 0 0 0 + Z.shiftl (Z.of_nat n) 8 in
      permits 17 dst (Some 5000) ;@ sret tt) ;@
    let@ snapshot := look policy_snapshot in
    ensure (all [
      is_num (at_path ["unlisted_packets"; "udp"]%string snapshot) (Z.of_nat (SAMPLE_CAP + extra));
      is_num (at_path ["unlisted_sample"; "overflow"]%string snapshot) (Z.of_nat extra);
      match at_path ["unlisted_sample"; "networks"]%string snapshot with
      | Some (JArr l) => (length l =? SNAPSHOT_TOP)%nat
      | _ => false
      end])).

Definition suite : list bool :=
  [prefixes_parse_and_nonsense_does_not; every_built_in_prefix_parses;
   covered_prefixes_collapse_and_edges_are_exact; built_in_list_covers_roblox_and_nothing_else;
   observe_counts_unlisted_traffic_and_forwards_all_of_it; enforce_drops_what_observe_would_have_counted;
   off_forwards_everything_and_records_nothing; enforce_without_a_usable_file_observes_instead;
   allowlist_lines_choose_their_protocol; modes_and_ports_parse_conservatively;
   the_unlisted_sample_stays_bounded].

End PolicyTests.

Module BudgetTests.

Definition flow (sid : Z) : Flow :=
  MkFlow (to_be_bytes 8 sid) 17 (ipv4_new 127 0 0 1) (ipv4_new 1 1 1 1) 100 200.
Definition budget_event (user : string) (out : bool) (bytes : nat) (f : option Flow) (now : Z)
  : script Budgets bool := call (fun b => event b (lit user) out bytes f now).
(** [Policy::default()] with some fields given. *)
Definition test_budgets (enforce : bool) (packets bytes new_flows : Z) : Budgets :=
  budgets_new (MkBudgetPolicy enforce packets bytes new_flows).

Definition sessions_and_directions_share_packet_and_byte_limits : bool :=
  passes (test_budgets true 2 100 0) (
    accepts (budget_event "one" false 40 (Some (flow 1)) 1) ;@
    accepts (budget_event "one" true 40 None 1) ;@
    refuses (budget_event "one" false 1 (Some (flow 2)) 1) ;@
    accepts (budget_event "other" false 40 (Some (flow 2)) 1) ;@
    refuses (budget_event "one" false 101 None 2) ;@
    accepts (budget_event "one" false 40 None 3)).

(** The first row of the snapshot, taken at second 1. *)
Definition first_row (name : string) (b : Budgets) : option Json :=
  match budgets_snapshot (fun _ => None) b [lit "one"] 1000 with
  | Ret doc => first_of (get "accounts" doc) ≫= get name
  | Panic => None
  end.

Definition flow_churn_is_account_wide_and_observe_never_enforces_configured_limits : bool :=
  passes (test_budgets true 0 0 1) (
    accepts (budget_event "one" false 40 (Some (flow 1)) 1) ;@
    refuses (budget_event "one" false 40 (Some (flow 2)) 1) ;@
    accepts (budget_event "one" false 40 (Some (flow 2)) 61))
  && passes (test_budgets false 1 1 1) (
    for_each [1; 2; 3; 4; 5; 6; 7; 8; 9] (fun sid =>
      accepts (budget_event "one" false 100 (Some (flow sid)) 1)) ;@
    observes (fun b => is_num (first_row "budget_breaches" b) 9) ;@
    observes (fun b => is_num (first_row "dropped_packets" b) 0)).

Definition stale_flows_release_the_shared_tracking_capacity : bool :=
  passes (test_budgets false 0 0 0) (
    budget_event "one" false 40 (Some (flow 1)) 1 ;@
    observes (fun b => slots b =? 1) ;@
    budget_event "one" false 40 (Some (flow 2)) 122 ;@
    change (fun b => maintain b 122) ;@
    observes (fun b => slots b =? 1)).

Definition delayed_threads_cannot_reopen_an_old_window : bool :=
  passes (test_budgets true 1 0 0) (
    accepts (budget_event "one" false 1 None 61) ;@
    refuses (budget_event "one" false 1 None 60) ;@
    refuses (budget_event "one" false 1 None 61)).

Definition capacity_preserves_tracked_accounts_and_recovers_after_idle : bool :=
  forallb (fun enforce =>
    passes ((test_budgets enforce 0 0 0) <| account_limit := 1 |> <| flow_limit := 1 |>) (
      accepts (budget_event "one" false 40 (Some (flow 1)) 1) ;@
      let@ two := budget_event "two" false 40 None 1 in
      ensure (Bool.eqb two (negb enforce)) ;@
      let@ other := budget_event "one" false 40 (Some (flow 2)) 1 in
      ensure (Bool.eqb other (negb enforce)) ;@
      accepts (budget_event "one" false 40 (Some (flow 1)) 1) ;@
      observes (fun b => (size (accounts b) =? 1)%nat) ;@
      observes (fun b => slots b =? 1) ;@
      change (fun b => maintain b 602) ;@
      observes (fun b => slots b =? 0) ;@
      accepts (budget_event "two" false 40 (Some (flow 2)) 602))) [false; true].

(** The sixteen threads in one of their orders; that no order exceeds the
    limit is part of [budgets_invariant]. *)
Definition concurrent_accounts_cannot_exceed_capacity : bool :=
  passes ((test_budgets false 0 0 0) <| account_limit := 2 |>) (
    for_each (seq 0 16) (fun i =>
      call (fun b => event b (show_dec (Z.of_nat i)) false 1 None 1) ;@ sret tt) ;@
    observes (fun b => (size (accounts b) =? 2)%nat)).

Definition suite : list bool :=
  [sessions_and_directions_share_packet_and_byte_limits;
   flow_churn_is_account_wide_and_observe_never_enforces_configured_limits;
   stale_flows_release_the_shared_tracking_capacity; delayed_threads_cannot_reopen_an_old_window;
   capacity_preserves_tracked_accounts_and_recovers_after_idle; concurrent_accounts_cannot_exceed_capacity].

End BudgetTests.

(** Every unit test of the two files passes on the model. *)
Theorem policy_and_budget_tests_pass : all (PolicyTests.suite ++ BudgetTests.suite) = true.
Proof. vm_compute. reflexivity. Qed.
