(* ===== verification/TestsPacket.v ===== *)
(** * The unit tests of src/main.rs on packets

    [packet_construction_tests] and the packet tests of the first module. *)

From Stdlib Require Import String.
From S2P Require Import Prelude Checksum Net Packet RustStr Tuning DestPolicy Frames TestKit.
Open Scope test_scope.

(** [packet[i..].copy_from_slice(bytes)] for each entry, on a packet of zeros. *)
Definition poke (packet : list Z) (w : Z * list Z) : list Z :=
  take (Z.to_nat w.1) packet ++ w.2 ++ drop (Z.to_nat w.1 + length w.2) packet.
Definition packet_of (n : nat) (writes : list (Z * list Z)) : list Z :=
  fold_left poke writes (replicate n 0).
Definition be16_of (packet : list Z) (i : nat) : Z := from_be_bytes (take 2 (drop i packet)).
Definition part (packet : list Z) (i j : nat) : list Z := take (j - i) (drop i packet).

(** [stamp_ipv4_lengths]: the lengths of the packet and of its UDP datagram,
    and a data offset for TCP. *)
Definition stamp_ipv4_lengths (packet : list Z) : list Z :=
  let n := length packet in
  let packet := poke packet (2, to_be_bytes 2 (Z.of_nat n)) in
  let ihl := (Z.to_nat (Z.land (packet !!! 0%nat) 0x0f) * 4)%nat in
  let protocol := packet !!! 9%nat in
  if (protocol =? 17) && (ihl + UDP_HEADER_SIZE <=? n)%nat then
    poke packet (Z.of_nat (ihl + 4), to_be_bytes 2 (Z.of_nat (n - ihl)))
  else if (protocol =? 6) && (ihl + 20 <=? n)%nat then
    if packet !!! (ihl + 12)%nat =? 0 then poke packet (Z.of_nat (ihl + 12), [0x50]) else packet
  else packet.

(** The parser under the policy of an empty environment. *)
Definition parsed (packet : list Z) : option ParsedPacket :=
  match parse_ip_packet_full (build Observe None DEFAULT_TCP_PORTS) packet with
  | Ret (_, p) => p
  | Panic => None
  end.
Definition rejected (packet : list Z) : bool :=
  ran (parse_ip_packet_full (build Observe None DEFAULT_TCP_PORTS) packet) (fun r => is_none r.2).

(** [ip.to_string()]. *)
Definition ip_is (ip : Ipv4Addr) (s : string) : bool := str_eqb (show_ipv4 ip) (lit s).
Definition addr_is (a : SocketAddr) (s : string) (port : Z) : bool :=
  str_eqb (show_socket_addr a) (lit s ++ [58] ++ show_dec port).
Definition bytes_are (l l' : list Z) : bool := bool_decide (l = l').

(** The assertions on a [ParsedPacket::Udp]. *)
Definition udp_with (packet : list Z) (p : SocketAddr -> list Z -> OriginalPacketInfo -> list Z -> bool) : bool :=
  match parsed packet with
  | Some (Udp addr payload info raw) => p addr payload info raw
  | _ => false
  end.

Definition test_parse_ip_packet_full : bool :=
  let packet := stamp_ipv4_lengths (packet_of 32
    [(0, [0x45]); (9, [17]); (12, [10; 0; 0; 5]); (16, [1; 2; 3; 4]); (20, [0xD4; 0x31]); (22, [0x30; 0x39]);
     (28, [0xDE; 0xAD; 0xBE; 0xEF])]) in
  udp_with packet (fun addr payload info _ =>
    all [addr_is addr "1.2.3.4" 12345; bytes_are payload [0xDE; 0xAD; 0xBE; 0xEF];
         ip_is (src_ip info) "10.0.0.5"; src_port info =? 54321;
         ip_is (dst_ip info) "1.2.3.4"; dst_port info =? 12345]).

Definition original (t : Z) (src : Ipv4Addr) (sport : Z) (dst : Ipv4Addr) (dport : Z) : OriginalPacketInfo :=
  MkInfo t src sport dst dport.

Definition test_build_response_ip_packet : bool :=
  let payload := [0x01; 0x02; 0x03; 0x04] in
  ran (build_response_ip_packet payload (original 0x2e (ipv4_new 10 0 0 5) 54321 (ipv4_new 1 2 3 4) 12345))
    (fun packet =>
      all [(length packet =? 20 + 8 + 4)%nat; Z.land (Z.shiftr (packet !!! 0%nat) 4) 0x0F =? 4;
           packet !!! 1%nat =? 0x2e; packet !!! 9%nat =? 17;
           bytes_are (part packet 12 16) [1; 2; 3; 4]; bytes_are (part packet 16 20) [10; 0; 0; 5];
           be16_of packet 20 =? 12345; be16_of packet 22 =? 54321;
           bytes_are (part packet 28 32) payload]).

Definition test_build_response_can_use_received_tos_override : bool :=
  ran (build_response_ip_packet_with_tos [0x01]
         (original 0 (ipv4_new 10 0 0 5) 54321 (ipv4_new 1 2 3 4) 12345) 0x03)
    (fun packet =>
      let verify := calculate_ip_checksum (take IP_HEADER_MIN packet) in
      (packet !!! 1%nat =? 0x03) && ((verify =? 0) || (verify =? 0xFFFF))).

Definition rfc1071_header : list Z :=
  [0x45; 0x00; 0x00; 0x73; 0x00; 0x00; 0x40; 0x00; 0x40; 0x11; 0x00; 0x00; 0xc0; 0xa8;
   0x00; 0x01; 0xc0; 0xa8; 0x00; 0xc7].
Definition test_ip_checksum : bool := negb (calculate_ip_checksum rfc1071_header =? 0).

Definition test_non_udp_rejected : bool := rejected (packet_of 28 [(0, [0x45]); (9, [6])]).

Definition test_parse_ip_too_short : bool := rejected (packet_of 19 []).
Definition test_parse_ip_wrong_version_v6 : bool := rejected (packet_of 32 [(0, [0x65]); (9, [17])]).
Definition test_parse_ip_ihl_less_than_5 : bool := rejected (packet_of 32 [(0, [0x44]); (9, [17])]).

Definition test_parse_ip_ihl_with_options : bool :=
  let packet := stamp_ipv4_lengths (packet_of 40
    [(0, [0x46]); (9, [17]); (12, [192; 168; 1; 1]); (16, [8; 8; 8; 1]); (24, [0x13; 0x88]); (26, [0x17; 0x70]);
     (32, [1; 2; 3; 4; 5; 6; 7; 8])]) in
  udp_with packet (fun addr payload info _ =>
    all [addr_is addr "8.8.8.1" 6000; ip_is (src_ip info) "192.168.1.1"; src_port info =? 5000;
         bytes_are payload [1; 2; 3; 4; 5; 6; 7; 8]]).

Definition test_parse_ip_tcp_too_short_rejected : bool := rejected (packet_of 28 [(0, [0x45]); (9, [6])]).

Definition test_parse_ip_tcp_valid : bool :=
  let packet := stamp_ipv4_lengths (packet_of 44
    [(0, [0x45]); (9, [6]); (12, [10; 0; 0; 5]); (16, [1; 2; 3; 4]); (20, [0xD4; 0x31]); (22, [0x00; 0x50]);
     (32, [0x50])]) in
  match parsed packet with
  | Some (Tcp info raw) =>
      all [ip_is (src_ip info) "10.0.0.5"; src_port info =? 54321;
           ip_is (dst_ip info) "1.2.3.4"; dst_port info =? 80; (length raw =? 44)%nat]
  | _ => false
  end.

Definition test_forbidden_destinations_are_blocked : bool :=
  forallb is_forbidden_dst
    [ipv4_new 169 254 169 254; ipv4_new 10 0 0 1; ipv4_new 172 16 0 1; ipv4_new 192 168 1 1;
     ipv4_new 127 0 0 1; ipv4_new 224 0 0 251; ipv4_new 255 255 255 255; ipv4_new 100 64 0 1;
     ipv4_new 0 1 2 3; ipv4_new 240 0 0 1]
  && negb (is_forbidden_dst (ipv4_new 128 116 50 10)).

Definition amplification_ports_are_refused : bool :=
  forallb is_forbidden_dst_port [19; 53; 123; 161; 389; 1900; 11211]
  && is_forbidden_dst_port 0
  && forallb (fun port => negb (is_forbidden_dst_port port)) [443; 49152; 53640; 61337; 65535].

Definition unlisted_destinations_still_forward_under_the_default_policy : bool :=
  udp_with (stamp_ipv4_lengths (packet_of 36
    [(0, [0x45]); (9, [17]); (12, [10; 0; 0; 5]); (16, [1; 1; 1; 1]); (20, to_be_bytes 2 50000);
     (22, to_be_bytes 2 50001)])) (fun _ _ _ _ => true).

Definition test_parse_ip_packet_drops_imds_destination : bool :=
  match parsed (stamp_ipv4_lengths (packet_of 32
    [(0, [0x45]); (9, [17]); (12, [10; 0; 0; 5]); (16, [169; 254; 169; 254]); (20, [0x13; 0x88]);
     (22, [0x00; 0x50])])) with
  | Some ForbiddenDst => true
  | _ => false
  end.

Definition test_parse_ip_icmp_rejected : bool := rejected (packet_of 28 [(0, [0x45]); (9, [1])]).
Definition test_parse_ip_too_short_for_udp_header : bool := rejected (packet_of 20 [(0, [0x45]); (9, [17])]).

Definition test_parse_ip_zero_length_udp_payload : bool :=
  udp_with (stamp_ipv4_lengths (packet_of 28
    [(0, [0x45]); (9, [17]); (12, [10; 0; 0; 5]); (16, [1; 2; 3; 4]); (20, [0x13; 0x88]); (22, [0x17; 0x70])]))
    (fun addr payload info _ =>
      all [addr_is addr "1.2.3.4" 6000; (length payload =? 0)%nat; src_port info =? 5000; dst_port info =? 6000]).

Definition test_parse_ip_trims_trailing_padding : bool :=
  udp_with (packet_of 40
    [(0, [0x45]); (9, [17]); (12, [10]); (15, [5]); (16, [1; 2; 3; 4]); (20, [0x13; 0x88]); (22, [0x17; 0x70]);
     (28, [1; 2; 3; 4; 5; 6; 7; 8]); (36, [0xAA; 0xBB; 0xCC; 0xDD]); (2, to_be_bytes 2 36);
     (24, to_be_bytes 2 16)])
    (fun _ payload _ raw => bytes_are payload [1; 2; 3; 4; 5; 6; 7; 8] && (length raw =? 36)%nat).

Definition test_parse_ip_rejects_udp_length_past_total_len : bool :=
  rejected (poke (stamp_ipv4_lengths (packet_of 36 [(0, [0x45]); (9, [17])])) (24, to_be_bytes 2 24)).

Definition test_parse_ip_rejects_tcp_bad_data_offset : bool :=
  rejected (poke (stamp_ipv4_lengths (packet_of 40
    [(0, [0x45]); (9, [6]); (20, [0x13; 0x88]); (22, [0x00; 0x50])])) (32, [0x40])).

Definition test_parse_ip_returns_udp_fragment : bool :=
  let packet := stamp_ipv4_lengths (packet_of 36
    [(0, [0x45]); (9, [17]); (12, [172; 16; 0; 1]); (16, [8; 8; 8; 8])]) in
  match parsed (fold_left poke [(6, [0x20]); (22, to_be_bytes 2 50000)] packet) with
  | Some (Fragment protocol src raw) =>
      all [protocol =? 17; ip_is src "172.16.0.1"; (length raw =? 36)%nat]
  | _ => false
  end.

Definition test_parse_ip_full_payload_verification : bool :=
  let payload := [0xCA; 0xFE; 0xBA; 0xBE; 0xDE; 0xAD; 0x00; 0x42] in
  udp_with (stamp_ipv4_lengths (packet_of 36
    [(0, [0x45]); (9, [17]); (12, [172; 16; 0; 1]); (16, [8; 8; 8; 8]); (20, [0x00; 0x35]); (22, [0x1F; 0x90]);
     (28, payload)]))
    (fun addr p info _ =>
      all [addr_is addr "8.8.8.8" 8080; ip_is (src_ip info) "172.16.0.1"; src_port info =? 53;
           ip_is (dst_ip info) "8.8.8.8"; dst_port info =? 8080; bytes_are p payload]).

Definition test_build_response_zero_length_payload : bool :=
  ran (build_response_ip_packet [] (original 0 (ipv4_new 10 0 0 1) 1234 (ipv4_new 1 2 3 4) 5678))
    (fun packet => all [(length packet =? 28)%nat; Z.land (Z.shiftr (packet !!! 0%nat) 4) 0x0F =? 4;
                        packet !!! 9%nat =? 17]).

Definition test_build_response_normal_payload_field_check : bool :=
  let payload := [0xAA; 0xBB; 0xCC] in
  ran (build_response_ip_packet payload
         (original 0 (ipv4_new 192 168 1 100) 40000 (ipv4_new 93 184 216 34) 443))
    (fun packet =>
      all [(length packet =? 31)%nat; be16_of packet 2 =? 31;
           bytes_are (part packet 12 16) [93; 184; 216; 34]; bytes_are (part packet 16 20) [192; 168; 1; 100];
           be16_of packet 20 =? 443; be16_of packet 22 =? 40000; be16_of packet 24 =? 11;
           bytes_are (part packet 28 31) payload]).

(** The sum of the words of the header, folded. *)
Definition test_build_response_ip_checksum_validity : bool :=
  ran (build_response_ip_packet [0x01; 0x02] (original 0 (ipv4_new 8 8 8 8) 54321 (ipv4_new 1 2 3 4) 12345))
    (fun packet =>
      let sum := fold_left (fun sum i => sum + be16_of packet (2 * i)) (seq 0 10) 0 in
      let fold x := Z.land x 0xFFFF + Z.shiftr x 16 in
      (Z.shiftr (fold (fold sum)) 16 =? 0) && (fold (fold sum) =? 0xFFFF)).

Definition test_build_response_address_port_swapping : bool :=
  ran (build_response_ip_packet [0xFF] (original 0 (ipv4_new 10 0 0 5) 11111 (ipv4_new 20 30 40 50) 22222))
    (fun packet =>
      let ip_at i := from_be_bytes (part packet i (i + 4)) in
      all [ip_is (ip_at 12%nat) "20.30.40.50"; ip_is (ip_at 16%nat) "10.0.0.5";
           be16_of packet 20 =? 22222; be16_of packet 22 =? 11111]).

Definition test_ip_checksum_all_zeros : bool := calculate_ip_checksum (replicate 20 0) =? 0xFFFF.
Definition test_ip_checksum_odd_length_header : bool :=
  negb (calculate_ip_checksum [0x45; 0x00; 0x00; 0x1C; 0x00] =? 0).

(** Inserting the checksum makes the header sum to nothing. *)
Definition self_check (header : list Z) : bool :=
  let checksum := calculate_ip_checksum header in
  let verify := calculate_ip_checksum (poke header (10, [Z.shiftr checksum 8; Z.land checksum 0xFF])) in
  (verify =? 0) || (verify =? 0xFFFF).
Definition test_ip_checksum_self_check : bool :=
  self_check [0x45; 0x00; 0x00; 0x1C; 0x00; 0x00; 0x40; 0x00; 0x40; 0x11; 0x00; 0x00;
              0xC0; 0xA8; 0x01; 0x01; 0x0A; 0x00; 0x00; 0x01].
Definition test_ip_checksum_known_vector : bool :=
  negb (calculate_ip_checksum rfc1071_header =? 0) && self_check rfc1071_header.

Definition test_roundtrip_build_then_parse : bool :=
  let payload := [0xDE; 0xAD; 0xBE; 0xEF] in
  ran (build_response_ip_packet payload (original 0 (ipv4_new 8 8 8 8) 54321 (ipv4_new 1 2 3 4) 12345))
    (fun packet => udp_with packet (fun addr p info _ =>
      all [ip_is (src_ip info) "1.2.3.4"; src_port info =? 12345; ip_is (dst_ip info) "8.8.8.8";
           dst_port info =? 54321; addr_is addr "8.8.8.8" 54321; bytes_are p payload])).

(** Every unit test of src/main.rs on packets passes on the model. *)
Theorem packet_tests_pass : all
  [test_parse_ip_packet_full; test_build_response_ip_packet; test_build_response_can_use_received_tos_override;
   test_ip_checksum; test_non_udp_rejected; test_parse_ip_too_short; test_parse_ip_wrong_version_v6;
   test_parse_ip_ihl_less_than_5; test_parse_ip_ihl_with_options; test_parse_ip_tcp_too_short_rejected;
   test_parse_ip_tcp_valid; test_forbidden_destinations_are_blocked; amplification_ports_are_refused;
   unlisted_destinations_still_forward_under_the_default_policy; test_parse_ip_packet_drops_imds_destination;
   test_parse_ip_icmp_rejected; test_parse_ip_too_short_for_udp_header; test_parse_ip_zero_length_udp_payload;
   test_parse_ip_trims_trailing_padding; test_parse_ip_rejects_udp_length_past_total_len;
   test_parse_ip_rejects_tcp_bad_data_offset; test_parse_ip_returns_udp_fragment;
   test_parse_ip_full_payload_verification; test_build_response_zero_length_payload;
   test_build_response_normal_payload_field_check; test_build_response_ip_checksum_validity;
   test_build_response_address_port_swapping; test_ip_checksum_all_zeros; test_ip_checksum_odd_length_header;
   test_ip_checksum_self_check; test_ip_checksum_known_vector; test_roundtrip_build_then_parse] = true.
Proof. vm_compute. reflexivity. Qed.
