(* ===== verification/TestsAuth.v ===== *)
(** * The unit tests of src/main.rs on authentication

    The tests sign tickets with a real key.  Here base64, Ed25519 and the JSON
    decoder are a stand-in: a text is its own encoding unless it contains an
    exclamation mark, one signature is valid for one payload under one key,
    and the decoder knows the claims of that payload.  The five tests of the
    base64 crate itself are left out. *)

From Stdlib Require Import String.
From S2P Require Import Prelude Checksum Net Packet RustStr Tuning Stats Sessions RateLimit Auth Startup TestKit.
Open Scope test_scope.

Definition test_key : list Z := replicate 32 7.
Definition test_signature : list Z := replicate 64 115.

(** A signed ticket with the given claims; [None]: a payload the decoder
    refuses. *)
Definition stand_in (claims : option RelayTicketClaims) : TicketCrypto := {|
  BASE64_URL_SAFE_NO_PAD := fun s => if existsb (Z.eqb 33) s then None else Some s;
  BASE64_URL_SAFE := fun _ => None;
  BASE64_STANDARD := fun _ => None;
  ed25519_verify := fun key payload signature =>
    bool_decide (key = test_key /\ payload = lit "payload" /\ signature = test_signature);
  claims_from_slice := fun _ => claims;
|}.
Definition signed_token : str := lit "payload." ++ test_signature.

Definition test_auth_materials : RelayAuthConfig :=
  MkAuthConfig AuthRequired (Some test_key) (Some (lit "us-east-nj")).

(** The claims [make_ticket_token] signs. *)
Definition make_ticket_token (sid server : str) (now exp : Z) : RelayTicketClaims :=
  MkClaims 1 (lit "swifttunnel-web") (lit "swifttunnel-relay") (lit "11111111-1111-1111-1111-111111111111")
    sid server now exp (lit "22222222-2222-2222-2222-222222222222") true.

(** [verify_relay_ticket] on a signed ticket, and on any token. *)
Definition verify_claims (claims : option RelayTicketClaims) (session_id : SessionId) (now : Z)
  : result VerifiedRelayTicket RelayAuthVerifyError :=
  @verify_relay_ticket (stand_in claims) signed_token session_id test_auth_materials now.
Definition verify_token (token : str) (auth : RelayAuthConfig)
  : result VerifiedRelayTicket RelayAuthVerifyError :=
  @verify_relay_ticket (stand_in None) token (replicate SESSION_ID_LEN 0) auth 1739790000.

#[local] Instance RelayAuthVerifyError_eq_dec : EqDecision RelayAuthVerifyError.
Proof. solve_decision. Defined.

Definition test_sid : SessionId := to_be_bytes 8 0x0123456789abcdef.
Definition sid_hex (session_id : SessionId) : str := show_hex16 (from_be_bytes session_id).
Definition now : Z := 1739790000.
Definition ticket (sid server : str) (iat exp : Z) : option RelayTicketClaims :=
  Some (make_ticket_token sid server iat exp).

Definition test_verify_relay_ticket_valid : bool :=
  ok (verify_claims (ticket (sid_hex test_sid) (lit "us-east-nj") now (now + 300)) test_sid now) (fun t =>
    str_eqb (t_user_id t) (lit "11111111-1111-1111-1111-111111111111")
    && str_eqb (t_jti t) (lit "22222222-2222-2222-2222-222222222222")).

Definition test_verify_relay_ticket_once_rejects_replay : bool :=
  let crypto := stand_in (ticket (sid_hex test_sid) (lit "us-east-nj") now (now + 300)) in
  let once t := call (@verify_relay_ticket_once crypto signed_token test_sid test_auth_materials t) in
  passes cache_new (
    let@ first := once now in
    ensure (is_ok first) ;@
    let@ replay := once (now + 1) in
    ensure (fails_with Replay replay)).

Definition accept (jti : string) (exp now : Z) : script RelayTicketReplayCache bool :=
  call (fun cache => accept_once cache (lit jti) exp now).

Definition test_ticket_replay_cache_expires_old_jti : bool :=
  passes cache_new (
    accepts (accept "jti-a" 100 90) ;@ refuses (accept "jti-a" 100 91) ;@ accepts (accept "jti-a" 200 131)).

Definition test_ticket_replay_cache_prunes_on_interval : bool :=
  passes cache_new (
    accepts (accept "jti-stale" 50 90) ;@ refuses (accept "jti-stale" 50 100) ;@
    accepts (accept "jti-stale" 200 121)).

Definition test_verify_relay_ticket_sid_mismatch : bool :=
  fails_with SidMismatch
    (verify_claims (ticket (lit "ffffffffffffffff") (lit "us-east-nj") now (now + 300)) test_sid now).
Definition test_verify_relay_ticket_server_mismatch : bool :=
  fails_with ServerMismatch
    (verify_claims (ticket (sid_hex test_sid) (lit "tokyo-02") now (now + 300)) test_sid now).
Definition test_verify_relay_ticket_expired : bool :=
  fails_with Expired
    (verify_claims (ticket (sid_hex test_sid) (lit "us-east-nj") (now - 600) (now - 200)) test_sid now).
Definition test_verify_relay_ticket_iat_in_future_is_bad_format : bool :=
  let future_iat := now + AUTH_CLOCK_SKEW_SECS + 1 in
  fails_with BadFormat
    (verify_claims (ticket (sid_hex test_sid) (lit "us-east-nj") future_iat (future_iat + 300)) test_sid now).

Definition test_verify_relay_ticket_bad_signature : bool :=
  let tampered := lit "payload." ++ Z.lxor 115 0xAA :: replicate 63 115 in
  let claims := ticket (sid_hex test_sid) (lit "us-east-nj") now (now + 300) in
  fails_with BadSignature (@verify_relay_ticket (stand_in claims) tampered test_sid test_auth_materials now).

(* ------------------------------------------------------------------ *)
(** ** Modes *)

Definition mode_of (s : string) : RelayAuthMode := auth_mode_from_env (Some (lit s)).
Definition test_from_env_required : bool := mode_of "required" ==? AuthRequired.
Definition test_from_env_optional : bool := mode_of "optional" ==? AuthOptional.
Definition test_from_env_off : bool := mode_of "off" ==? AuthOff.
Definition test_from_env_none : bool := auth_mode_from_env None ==? AuthRequired.
Definition test_from_env_whitespace_trimmed : bool := mode_of " required " ==? AuthRequired.
Definition test_from_env_case_insensitive : bool := mode_of "REQUIRED" ==? AuthRequired.

Definition test_as_str_off : bool := str_eqb (auth_mode_str AuthOff) (lit "off").
Definition test_as_str_optional : bool := str_eqb (auth_mode_str AuthOptional) (lit "optional").
Definition test_as_str_required : bool := str_eqb (auth_mode_str AuthRequired) (lit "required").
Definition test_requires_auth_off : bool := negb (requires_auth AuthOff).
Definition test_requires_auth_optional : bool := requires_auth AuthOptional.
Definition test_requires_auth_required : bool := requires_auth AuthRequired.

Definition test_ack_status_bad_format : bool := ack_status BadFormat =? AUTH_ACK_BAD_FORMAT.
Definition test_ack_status_bad_signature : bool := ack_status BadSignature =? AUTH_ACK_BAD_SIGNATURE.
Definition test_ack_status_expired : bool := ack_status Expired =? AUTH_ACK_EXPIRED.
Definition test_ack_status_sid_mismatch : bool := ack_status SidMismatch =? AUTH_ACK_SID_MISMATCH.
Definition test_ack_status_server_mismatch : bool := ack_status ServerMismatch =? AUTH_ACK_SERVER_MISMATCH.
Definition test_ack_status_replay : bool :=
  (ack_status Replay =? AUTH_ACK_REPLAY) && negb (AUTH_ACK_REPLAY =? AUTH_ACK_BAD_SIGNATURE).

(* ------------------------------------------------------------------ *)
(** ** Malformed tickets *)

Definition test_verify_ticket_empty_token : bool := fails_with BadFormat (verify_token [] test_auth_materials).
Definition test_verify_ticket_too_long : bool :=
  fails_with BadFormat (verify_token (replicate (MAX_AUTH_TOKEN_LEN + 1) 97) test_auth_materials).
Definition test_verify_ticket_no_dot_separator : bool :=
  fails_with BadFormat (verify_token (lit "nodothere") test_auth_materials).
Definition test_verify_ticket_bad_base64_payload : bool :=
  fails_with BadFormat (verify_token (lit "!!!invalid!!!." ++ test_signature) test_auth_materials).
Definition test_verify_ticket_bad_base64_signature : bool :=
  fails_with BadFormat (verify_token (lit "payload.!!!invalid!!!") test_auth_materials).
Definition test_verify_ticket_signature_wrong_length : bool :=
  fails_with BadFormat (verify_token (lit "payload." ++ replicate 32 115) test_auth_materials).
Definition test_verify_ticket_no_public_key : bool :=
  fails_with BadFormat
    (verify_token signed_token (MkAuthConfig AuthRequired None (Some (lit "us-east-nj")))).

(** [make_custom_ticket_token] with the claims of the next four tests. *)
Definition custom (v : Z) (iss aud sub : string) : option RelayTicketClaims :=
  Some (MkClaims v (lit iss) (lit aud) (lit sub) (sid_hex (replicate SESSION_ID_LEN 0)) (lit "us-east-nj")
          now (now + 300) (lit "jti-1") true).
Definition custom_fails (c : option RelayTicketClaims) : bool :=
  fails_with BadFormat (verify_claims c (replicate SESSION_ID_LEN 0) now).
Definition test_verify_ticket_wrong_version : bool :=
  custom_fails (custom 2 "swifttunnel-web" "swifttunnel-relay" "user-1").
Definition test_verify_ticket_wrong_issuer : bool :=
  custom_fails (custom 1 "wrong-issuer" "swifttunnel-relay" "user-1").
Definition test_verify_ticket_wrong_audience : bool :=
  custom_fails (custom 1 "swifttunnel-web" "wrong-audience" "user-1").
Definition test_verify_ticket_empty_sub : bool :=
  custom_fails (custom 1 "swifttunnel-web" "swifttunnel-relay" "").

Definition test_verify_ticket_iat_at_exact_clock_skew_boundary_passes : bool :=
  let iat := now + AUTH_CLOCK_SKEW_SECS in
  is_ok (verify_claims (ticket (sid_hex test_sid) (lit "us-east-nj") iat (iat + 300)) test_sid now).
Definition test_verify_ticket_exp_at_clock_skew_boundary_is_expired : bool :=
  let exp := 1739789500 in
  fails_with Expired
    (verify_claims (ticket (sid_hex test_sid) (lit "us-east-nj") 1739789000 exp) test_sid
       (exp + AUTH_CLOCK_SKEW_SECS)).

(** The invalid values that the JSON decoder itself refuses (a text, a
    fraction or a negative number where a number is expected, a missing or a
    doubled field) are payloads without claims. *)
Definition signed_tickets_require_finite_strict_claims : bool :=
  let sid := to_be_bytes 8 1 in
  let claims sub iat exp jti lease :=
    Some (MkClaims 1 (lit "swifttunnel-web") (lit "swifttunnel-relay") sub (lit "0000000000000001")
            (lit "us-east-nj") iat exp jti lease) in
  let account := lit "account" in
  let request := lit "request" in
  let valid := claims account 1000 1300 request true in
  forallb (fun c => fails_with BadFormat (verify_claims c sid 1000))
    [claims account 1000 1300 request false; None; claims account 1000 1000 request true;
     claims account 1000 999 request true; claims account 1000 1901 request true;
     claims (replicate 65 97) 1000 1300 request true; claims account 1000 1300 [] true;
     claims account 1000 1300 (replicate 129 98) true]
  && is_ok (verify_claims valid sid 1299) && fails_with Expired (verify_claims valid sid 1300).

(* ------------------------------------------------------------------ *)
(** ** Hello frames *)

Definition hello_frame (token_len : Z) (rest : list Z) : list Z :=
  replicate SESSION_ID_LEN 0 ++ [AUTH_HELLO_FRAME_TYPE] ++ to_be_bytes 2 token_len ++ rest.
Definition bad_hello (frame : list Z) : bool :=
  ran (parse_auth_hello_token frame (length frame)) (fails_with BadFormat).

Definition test_parse_auth_hello_token_valid_and_malformed : bool :=
  let token := lit "abc.def" in
  let frame := hello_frame (Z.of_nat (length token)) token in
  ran (parse_auth_hello_token frame (length frame)) (fun r => ok r (fun parsed => str_eqb parsed token))
  && bad_hello (hello_frame (Z.of_nat (length token) + 1) token).
Definition test_parse_auth_hello_frame_too_short : bool := bad_hello (replicate 10 0).
Definition test_parse_auth_hello_token_len_zero : bool := bad_hello (hello_frame 0 []).
Definition test_parse_auth_hello_token_len_exceeds_max : bool :=
  bad_hello (hello_frame (Z.of_nat (MAX_AUTH_TOKEN_LEN + 1)) (replicate (MAX_AUTH_TOKEN_LEN + 1) 0)).
Definition test_parse_auth_hello_payload_end_exceeds_frame_len : bool := bad_hello (hello_frame 10 (lit "abc")).
Definition test_parse_auth_hello_extra_trailing_bytes : bool :=
  bad_hello (hello_frame 3 (lit "abc" ++ replicate 5 0)).
Definition test_parse_auth_hello_invalid_utf8 : bool := bad_hello (hello_frame 3 [0xFF; 0xFE; 0xFD]).

(** The unit tests of src/main.rs on authentication pass on the model. *)
Theorem auth_tests_pass : all
  [test_verify_relay_ticket_valid; test_verify_relay_ticket_once_rejects_replay;
   test_ticket_replay_cache_expires_old_jti; test_ticket_replay_cache_prunes_on_interval;
   test_verify_relay_ticket_sid_mismatch; test_verify_relay_ticket_server_mismatch;
   test_verify_relay_ticket_expired; test_verify_relay_ticket_iat_in_future_is_bad_format;
   test_verify_relay_ticket_bad_signature; test_from_env_required; test_from_env_optional; test_from_env_off;
   test_from_env_none; test_from_env_whitespace_trimmed; test_from_env_case_insensitive; test_as_str_off;
   test_as_str_optional; test_as_str_required; test_requires_auth_off; test_requires_auth_optional;
   test_requires_auth_required; test_ack_status_bad_format; test_ack_status_bad_signature;
   test_ack_status_expired; test_ack_status_sid_mismatch; test_ack_status_server_mismatch;
   test_ack_status_replay; test_verify_ticket_empty_token; test_verify_ticket_too_long;
   test_verify_ticket_no_dot_separator; test_verify_ticket_bad_base64_payload;
   test_verify_ticket_bad_base64_signature; test_verify_ticket_signature_wrong_length;
   test_verify_ticket_no_public_key; test_verify_ticket_wrong_version; test_verify_ticket_wrong_issuer;
   test_verify_ticket_wrong_audience; test_verify_ticket_empty_sub;
   test_verify_ticket_iat_at_exact_clock_skew_boundary_passes;
   test_verify_ticket_exp_at_clock_skew_boundary_is_expired; signed_tickets_require_finite_strict_claims;
   test_parse_auth_hello_token_valid_and_malformed; test_parse_auth_hello_frame_too_short;
   test_parse_auth_hello_token_len_zero; test_parse_auth_hello_token_len_exceeds_max;
   test_parse_auth_hello_payload_end_exceeds_frame_len; test_parse_auth_hello_extra_trailing_bytes;
   test_parse_auth_hello_invalid_utf8] = true.
Proof. vm_compute. reflexivity. Qed.
