(* ===== verification/TestsTables.v ===== *)
(** * The unit tests of src/main.rs on the tables and the small functions

    Rate limits, sessions, flow entries, error kinds, text helpers and the
    resolver frames. *)

From Stdlib Require Import String.
From S2P Require Import Prelude Checksum Net Packet RustStr Tuning Stats Sessions RateLimit Auth Frames HttpApi Handler V2State V2Rx V1 TestKit.
Open Scope test_scope.

Definition source (a b c d : Z) : IpAddr := sock_ip (SockV4 (ipv4_new a b c d) 0).
Definition sid_of (n : Z) : SessionId := to_be_bytes 8 n.

(* ------------------------------------------------------------------ *)
(** ** Rate limits *)

(** With a hash that puts every address into one bucket, and a thousand
    addresses instead of a hundred thousand. *)
Definition pending_sources_have_fixed_memory_and_recover_after_the_window : bool :=
  let allow ip t := invoke (fun buckets => pending_allow (fun _ => 0) buckets ip t) in
  passes (pending_new 0) (
    for_each (List.map (fun n => sock_ip (SockV4 (Z.of_nat n) 0)) (seq 0 (Z.to_nat 1000)))
      (fun ip => allow ip 0 ;@ sret tt) ;@
    observes (fun buckets => (length buckets =? Z.to_nat 4096)%nat) ;@
    let ip := source 198 51 100 1 in
    for_each (seq 0 (Z.to_nat MAX_NEW_SESSIONS_PER_SOURCE_WINDOW)) (fun _ => allow ip 0 ;@ sret tt) ;@
    refuses (allow ip 0) ;@
    accepts (allow ip SOURCE_RATE_WINDOW)).

Definition rate (kind : SourceLimitKind) (t : Z) : script SourceRateState bool :=
  call (fun state => rate_allow state kind t).

Definition test_source_rate_state_resets_after_window : bool :=
  passes ((rate_new 0) <| packets := MAX_PACKETS_PER_SOURCE_WINDOW |>) (
    refuses (rate RateLimit.Packet 0) ;@
    accepts (rate RateLimit.Packet (SOURCE_RATE_WINDOW + millis 1))).

Definition test_source_rate_buckets_are_independent : bool :=
  passes ((rate_new 0) <| new_sessions := MAX_NEW_SESSIONS_PER_SOURCE_WINDOW |>) (
    refuses (rate NewSession 0) ;@ accepts (rate NewFlow 0) ;@ accepts (rate RateLimit.Packet 0)).

Definition test_allow_source_event_records_rate_limit_drop : bool :=
  let client_addr := SockV4 (ipv4_new 203 0 113 10) 40000 in
  let saturated := (rate_new 0) <| new_flows := MAX_NEW_FLOWS_PER_SOURCE_WINDOW |> in
  let limiter := MkLimiter (<[sock_ip client_addr := saturated]> ∅) 0 0 in
  let '(_, stats, allowed) := allow_source_event limiter stats_new client_addr NewFlow 0 in
  all [negb allowed; dropped_in stats =? 1; throttled_users stats =? 1;
       rate_limit (drop_reasons stats) =? 1].

Definition test_source_rate_limiter_prunes_idle_sources : bool :=
  let created := SOURCE_RATE_IDLE_TTL + secs 100 in
  let now := created + SOURCE_RATE_PRUNE_INTERVAL + millis 1 in
  let stale_ip := source 203 0 113 10 in
  let active_ip := source 203 0 113 11 in
  let limiter := MkLimiter (<[stale_ip := rate_new (now - SOURCE_RATE_IDLE_TTL - secs 1)]>
                             (<[active_ip := rate_new now]> ∅)) created 0 in
  passes limiter (
    accepts (call (fun l => limiter_allow l active_ip RateLimit.Packet now)) ;@
    observes (fun l => is_none (sources l !! stale_ip)) ;@
    observes (fun l => is_some (sources l !! active_ip))).

(* ------------------------------------------------------------------ *)
(** ** Sessions and flows *)

Definition test_v1_flow_capacity_uses_session_flow_index : bool :=
  let session_id := sid_of 0x0123456789abcdef in
  let keys := List.map (fun idx => lit "0123456789abcdef:203.0.113.1:" ++ show_dec (Z.of_nat idx))
                (seq 0 (Z.to_nat MAX_FLOWS_PER_SESSION)) in
  let '(stats, available) := v1_flow_capacity_available ∅ (<[session_id := keys]> ∅) stats_new session_id in
  all [negb available; dropped_in stats =? 1; capacity (drop_reasons stats) =? 1].

Definition test_source_session_counts_track_rebind_and_removal : bool :=
  let old_ip := source 198 51 100 10 in
  let new_ip := source 198 51 100 11 in
  passes (∅ : SourceCounts) (
    change (fun c => increment_source_session_count c old_ip) ;@
    observes (fun c => source_session_count c old_ip =? 1) ;@
    change (fun c => update_source_session_count_for_rebind c old_ip new_ip) ;@
    observes (fun c => source_session_count c old_ip =? 0) ;@
    observes (fun c => source_session_count c new_ip =? 1) ;@
    change (fun c => decrement_source_session_count c new_ip) ;@
    observes (fun c => source_session_count c new_ip =? 0)).

Definition test_v1_session_capacity_uses_source_session_counter : bool :=
  let source_ip := source 198 51 100 10 in
  let '(stats, available) :=
    v1_session_capacity_available ∅ (<[source_ip := MAX_SESSIONS_PER_SRC_IP]> ∅) stats_new source_ip in
  all [negb available; dropped_in stats =? 1; capacity (drop_reasons stats) =? 1].

(** The session most of the tests build, at 198.51.100.10:40000. *)
Definition session_of (user : str) (state : SessionAuthState) (lease : option Z) : SessionEntry :=
  MkSession user state lease (SockV4 (ipv4_new 198 51 100 10) 40000) 1 0 1.

Definition a_legacy_session_is_still_carried_on_the_return_path : bool :=
  let session := session_of (derive_user_id [1; 2; 3; 4; 5; 6; 7; 8]) Legacy None in
  session_lease_is_current session 10000 && negb (session_auth_is_current session 10000).

Definition an_expired_lease_stops_being_carried : bool :=
  let session := session_of (lit "lease-client") Authenticated (Some 1000) in
  all [session_lease_is_current session 999; negb (session_lease_is_current session 1000);
       negb (session_lease_is_current session 5000);
       session_lease_is_current (session <| lease_expires_at_unix := Some 6000 |>) 5000].

Definition test_authenticated_session_without_lease_is_not_current : bool :=
  negb (session_auth_is_current (session_of (lit "legacy-client") Authenticated None) 10000).
Definition test_authenticated_session_with_live_lease_is_current : bool :=
  session_auth_is_current (session_of (lit "lease-client") Authenticated (Some 101)) 100.
Definition test_authenticated_session_with_expired_lease_is_not_current : bool :=
  negb (session_auth_is_current (session_of (lit "lease-client") Authenticated (Some 100)) 100).

Definition test_authenticated_session_source_rejects_forged_address : bool :=
  let session := session_of (lit "user") Authenticated None in
  let forged := SockV4 (ipv4_new 203 0 113 55) 40000 in
  all [negb (authenticated_session_source_allowed session true (SockV4 (ipv4_new 198 51 100 10) 40001) false);
       negb (authenticated_session_source_allowed session true forged false);
       authenticated_session_source_allowed session true forged true].

Definition queued_returns_follow_only_the_validated_endpoint_and_expiry : bool :=
  let sid := sid_of 1 in
  let old := SockV4 (ipv4_new 198 51 100 10) 40000 in
  let new := SockV4 (ipv4_new 198 51 100 10) 40001 in
  let goes_to auth t a := observes (fun sessions : Sessions => forwarding_addr sessions sid auth t ==? a) in
  let set f := change (alter f sid : Sessions -> Sessions) in
  passes (<[sid := MkSession (lit "owner") Authenticated (Some 200) old 100 0 100]> ∅ : Sessions) (
    goes_to true 199 (Some old) ;@
    observes (fun sessions => got (sessions !! sid) (fun e =>
      negb (authenticated_session_source_allowed e true new false))) ;@
    goes_to true 199 (Some old) ;@
    set (fun e => e <| client_addr := new |>) ;@
    goes_to true 199 (Some new) ;@
    goes_to true 200 None ;@
    set (fun e => e <| lease_expires_at_unix := None |>) ;@
    goes_to true 100 None ;@
    set (fun e => e <| auth_state := Legacy |>) ;@
    goes_to false 100 (Some new)).

(** Generations are numbers here; the old one is 1, the replacement's 2. *)
Definition test_v1_cleanup_preserves_replacement_flow_and_index (base : V2) : bool :=
  let session_id := sid_of 0x0123456789abcdef in
  let key := lit "0123456789abcdef:1.1.1.1:1000" in
  let other := lit "0123456789abcdef:2.2.2.2:2000" in
  let entry := V1.MkFlow 2 (SockV4 (ipv4_new 127 0 0 1) 12345) 0
                 (MkInfo 0 (ipv4_new 10 0 0 2) 12345 (ipv4_new 1 1 1 1) 1000) None in
  passes ((v1_new base) <| v1_flows := <[key := entry]> ∅ |> <| v1_index := <[session_id := [key; other]]> ∅ |>) (
    change (remove_v1_flow session_id key 1) ;@
    observes (fun w => got (v1_flows w !! key) (fun f => (fe_generation f =? 2)%nat)) ;@
    observes (fun w => got (v1_index w !! session_id) (fun keys => (length keys =? 2)%nat)) ;@
    change (remove_v1_flow session_id key 2) ;@
    observes (fun w => is_none (v1_flows w !! key)) ;@
    observes (fun w => (v1_index w !! session_id) ==? Some [other])).

Definition test_session_auth_state_legacy : bool := str_eqb (auth_state_str Legacy) (lit "legacy").
Definition test_session_auth_state_authenticated : bool :=
  str_eqb (auth_state_str Authenticated) (lit "authenticated").

(* ------------------------------------------------------------------ *)
(** ** Small functions *)

Definition test_parse_flow_channel_capacity_defaults_and_clamps : bool :=
  all [(parse_flow_channel_capacity None) ==? 256;
       (parse_flow_channel_capacity (Some (lit "2"))) ==? 8;
       (parse_flow_channel_capacity (Some (lit "999999"))) ==? 4096;
       (parse_flow_channel_capacity (Some (lit "512"))) ==? 512].

Definition test_transient_recv_would_block : bool := is_transient_recv_error WouldBlock.
Definition test_transient_recv_timed_out : bool := is_transient_recv_error TimedOut.
Definition test_transient_recv_interrupted : bool := is_transient_recv_error Interrupted.
Definition test_transient_recv_connection_reset : bool := is_transient_recv_error ConnectionReset.
(** The model has one kind for all the errors the code does not name. *)
Definition test_transient_recv_permission_denied_not_transient : bool := negb (is_transient_recv_error OtherKind).
Definition test_transient_recv_other_not_transient : bool := negb (is_transient_recv_error OtherKind).
Definition test_transient_send_would_block : bool := is_transient_send_error WouldBlock.
Definition test_transient_send_timed_out : bool := is_transient_send_error TimedOut.
Definition test_transient_send_interrupted : bool := is_transient_send_error Interrupted.
Definition test_transient_send_connection_reset_not_transient : bool :=
  negb (is_transient_send_error ConnectionReset).
Definition test_transient_send_other_not_transient : bool := negb (is_transient_send_error OtherKind).

Definition test_find_http_header_end_found : bool :=
  find_http_header_end (lit "GET / HTTP/1.1" ++ [13; 10; 13; 10]) ==? Some 18%nat.
Definition test_find_http_header_end_not_found : bool :=
  is_none (find_http_header_end (lit "GET / HTTP/1.1" ++ [13; 10])).
Definition test_find_http_header_end_empty : bool := is_none (find_http_header_end []).
Definition test_find_http_header_end_partial_crlf : bool :=
  is_none (find_http_header_end (lit "GET /" ++ [13; 10])).

(** [he], a character, [llo], and its escape. *)
Definition escapes (c : Z) (escaped : list Z) : bool :=
  str_eqb (escape_json (lit "he" ++ [c] ++ lit "llo")) (lit "he" ++ escaped ++ lit "llo").
Definition test_escape_json_quote : bool := escapes 34 [92; 34].
Definition test_escape_json_backslash : bool := escapes 92 [92; 92].
Definition test_escape_json_newline : bool := escapes 10 (lit "\n").
Definition test_escape_json_return : bool := escapes 13 (lit "\r").
Definition test_escape_json_tab : bool := escapes 9 (lit "\t").
Definition test_escape_json_normal_text : bool := str_eqb (escape_json (lit "hello world")) (lit "hello world").
Definition test_escape_json_empty : bool := str_eqb (escape_json []) [].

Definition test_derive_user_id_known_input : bool :=
  str_eqb (derive_user_id [0; 0; 0; 0; 0; 0; 0; 1]) (lit "session-0000000000000001").
Definition test_derive_user_id_all_zeros : bool :=
  str_eqb (derive_user_id (replicate SESSION_ID_LEN 0)) (lit "session-0000000000000000").

(* ------------------------------------------------------------------ *)
(** ** Resolver frames *)

Definition build_resolve_request_frame (session_id : SessionId) (request_id : Z) (hosts : list string) : list Z :=
  session_id ++ [RESOLVE_REQUEST_FRAME_TYPE] ++ to_be_bytes 2 request_id ++ [Z.of_nat (length hosts)]
  ++ concat (List.map (fun h => Z.of_nat (length (lit h)) :: lit h) hosts).

Definition allowlist_only_accepts_roblox_hosts : bool :=
  forallb (fun h => is_resolvable_roblox_host (lit h))
    ["roblox.com"; "clientsettings.roblox.com"; "c3.rbxcdn.com"; "roblox-api.arkoselabs.com"; "WWW.ROBLOX.COM"]%string
  && forallb (fun h => negb (is_resolvable_roblox_host (lit h)))
       ["evil.com"; "roblox.com.evil.test"; "notroblox.com"]%string.

Definition parse_keeps_roblox_and_drops_others : bool :=
  let frame := build_resolve_request_frame (replicate SESSION_ID_LEN 9) 0x1234
                 ["clientsettings.roblox.com"; "evil.com"; "c0.rbxcdn.com"]%string in
  ran (parse_resolve_request frame (length frame)) (fun r => got r (fun '(req_id, hosts) =>
    (req_id =? 0x1234) && (hosts ==? [lit "clientsettings.roblox.com"; lit "c0.rbxcdn.com"]))).

Definition parse_rejects_truncated_and_oversized : bool :=
  let frame := build_resolve_request_frame (replicate SESSION_ID_LEN 0) 1 ["clientsettings.roblox.com"%string] in
  let truncated := take (length frame - 5) frame in
  let oversized := <[(SESSION_ID_LEN + 3)%nat := Z.of_nat RESOLVE_MAX_HOSTS_PER_REQUEST + 1]> frame in
  ran (parse_resolve_request truncated (length truncated)) is_none
  && ran (parse_resolve_request oversized (length oversized)) is_none.

Definition build_response_lays_out_answers : bool :=
  let sid := replicate SESSION_ID_LEN 3 in
  let host := lit "clientsettings.roblox.com" in
  let resp := build_resolve_response sid 0xBEEF [(host, [ipv4_new 1 2 3 4; ipv4_new 5 6 7 8])] in
  let host_off := (SESSION_ID_LEN + 4)%nat in
  let hlen := Z.to_nat (resp !!! host_off) in
  let ipc_off := (host_off + 1 + hlen)%nat in
  let bytes i n := take n (drop i resp) in
  all [take SESSION_ID_LEN resp ==? sid; resp !!! SESSION_ID_LEN =? RESOLVE_RESPONSE_FRAME_TYPE;
       from_be_bytes (bytes (SESSION_ID_LEN + 1)%nat 2%nat) =? 0xBEEF; resp !!! (SESSION_ID_LEN + 3)%nat =? 1;
       bytes (host_off + 1)%nat hlen ==? host; resp !!! ipc_off =? 2;
       bytes (ipc_off + 1)%nat 4%nat ==? [1; 2; 3; 4]; bytes (ipc_off + 5)%nat 4%nat ==? [5; 6; 7; 8]].

Definition table_suite : list bool :=
  [pending_sources_have_fixed_memory_and_recover_after_the_window; test_source_rate_state_resets_after_window;
   test_source_rate_buckets_are_independent; test_allow_source_event_records_rate_limit_drop;
   test_source_rate_limiter_prunes_idle_sources; test_v1_flow_capacity_uses_session_flow_index;
   test_source_session_counts_track_rebind_and_removal; test_v1_session_capacity_uses_source_session_counter;
   a_legacy_session_is_still_carried_on_the_return_path; an_expired_lease_stops_being_carried;
   test_authenticated_session_without_lease_is_not_current;
   test_authenticated_session_with_live_lease_is_current;
   test_authenticated_session_with_expired_lease_is_not_current;
   test_authenticated_session_source_rejects_forged_address;
   queued_returns_follow_only_the_validated_endpoint_and_expiry; test_session_auth_state_legacy;
   test_session_auth_state_authenticated; test_parse_flow_channel_capacity_defaults_and_clamps;
   test_transient_recv_would_block; test_transient_recv_timed_out; test_transient_recv_interrupted;
   test_transient_recv_connection_reset; test_transient_recv_permission_denied_not_transient;
   test_transient_recv_other_not_transient;
   test_transient_send_would_block; test_transient_send_timed_out; test_transient_send_interrupted;
   test_transient_send_connection_reset_not_transient; test_transient_send_other_not_transient;
   test_find_http_header_end_found; test_find_http_header_end_not_found; test_find_http_header_end_empty;
   test_find_http_header_end_partial_crlf; test_escape_json_quote; test_escape_json_backslash;
   test_escape_json_newline; test_escape_json_return; test_escape_json_tab; test_escape_json_normal_text;
   test_escape_json_empty; test_derive_user_id_known_input; test_derive_user_id_all_zeros;
   allowlist_only_accepts_roblox_hosts; parse_keeps_roblox_and_drops_others;
   parse_rejects_truncated_and_oversized; build_response_lays_out_answers].

(** The unit tests of src/main.rs on tables, small functions and resolver
    frames pass on the model; the one that needs a relay passes with any. *)
Theorem table_tests_pass base :
  all table_suite && test_v1_cleanup_preserves_replacement_flow_and_index base = true.
Proof. vm_compute. reflexivity. Qed.
