(* ===== verification/TestsHttp.v ===== *)
(** * The unit tests of src/main.rs on the statistics endpoint

    Documents are trees here, so an assertion on parsed JSON is one on the
    tree; where a response goes over the wire a compact printer stands in for
    [serde_json].  The tests of poisoned locks run on the locks of [Locks]. *)

From Stdlib Require Import String.
From S2P Require Import Prelude Checksum Net Packet RustStr Tuning DestPolicy Stats Sessions RateLimit AccountBudget Auth Frames HttpApi StatsRates Handler V2State Startup Documents Serve Locks TestKit TestsPolicy.
Open Scope test_scope.

Definition test_runtime_config : RelayRuntimeConfig :=
  MkRuntime RELAY_VERSION (lit "v2") DEFAULT_PORT DEFAULT_STATS_PORT (auth_mode_str AuthOff) None false false 256
    (MkV2Runtime 1 8192 4096 8192
       (MkBuffers (4 * 1024 * 1024) (4 * 1024 * 1024) (4 * 1024 * 1024) (4 * 1024 * 1024))
       (2 * 1024 * 1024) (2 * 1024 * 1024)).

(** The statistics document of a fresh context with these counters and rates,
    at second 0 of its life, 100 s into the monotonic clock. *)
Definition stats_document (s : Stats) (w : StatsRateWindow) : Json :=
  (render_stats_payload s test_runtime_config w 0 (secs 100) 1739790000).2.

(** The tables of [make_stats_context_with_sessions]. *)
Definition test_sessions (l : list (SessionId * SessionEntry)) : Sessions := list_to_map l.
Definition sid8 (n : Z) : SessionId := [0; 0; 0; 0; 0; 0; 0; n].
Definition entry_of (user : str) (state : SessionAuthState) (addr : SocketAddr) (t : Z) : SessionEntry :=
  MkSession user state None addr t 0 t.
Definition loopback (port : Z) : SocketAddr := SockV4 (ipv4_new 127 0 0 1) port.

(* ------------------------------------------------------------------ *)
(** ** Documents *)

Definition test_render_stats_empty_sessions : bool :=
  let parsed := stats_document stats_new window_new in
  is_num (get "active_users" parsed) 0 && is_num (get "active_sessions" parsed) 0.

Definition test_render_stats_with_sessions_uses_atomic_counts : bool :=
  let now := 1739790000 in
  let sessions := test_sessions
    [(sid8 1, entry_of (lit "user-aaa") Authenticated (loopback 1000) now);
     (sid8 2, entry_of (lit "user-aaa") Authenticated (loopback 2000) now);
     (sid8 3, entry_of (lit "user-bbb") Legacy (loopback 3000) now)] in
  let parsed := stats_document (stats_new <| active_sessions := Z.of_nat (size sessions) |>) window_new in
  is_num (get "active_users" parsed) 3 && is_num (get "active_sessions" parsed) 3.

Definition between (o : option Json) (lo hi : Z) : bool :=
  match o with Some (JNum n) => (lo <=? n) && (n <=? hi) | _ => false end.

Definition test_render_stats_uses_rolling_rate_window : bool :=
  let parsed := stats_document (stats_new <| bytes_in := 5000 |> <| bytes_out := 8000 |>)
                  (MkWindow (Some (secs 98)) 1000 2000 0 0) in
  between (get "inbound_bps" parsed) 1900 2000 && between (get "outbound_bps" parsed) 2900 3000.

Definition connections_of (sessions : Sessions) (traffic : Traffic) : list ConnectionSnapshot :=
  connection_snapshots sessions traffic (map_to_list traffic).*1 (map_to_list sessions).*1.

Definition test_render_connections_empty : bool := (length (connections_of ∅ ∅) =? 0)%nat.

Definition test_render_connections_single : bool :=
  let now := 1739790000 in
  let sessions := test_sessions
    [(sid8 42, entry_of (lit "test-user") Authenticated (SockV4 (ipv4_new 1 2 3 4) 5678) now)] in
  let traffic := <[sid8 42 := (traffic_new now) <| t_bytes_in := 1000 |> <| t_bytes_out := 2000 |>]> ∅ in
  match connections_of sessions traffic with
  | [c] => all [str_eqb (sn_user_id c) (lit "test-user"); str_eqb (sn_auth_state c) (lit "authenticated");
                sn_bytes_in c =? 1000; sn_bytes_out c =? 2000;
                str_eqb (sn_client_endpoint c) (lit "1.2.3.4:5678")]
  | _ => false
  end.

Definition test_render_connections_sorted_by_last_activity_desc : bool :=
  let now := 1739790000 in
  let sessions := test_sessions
    [(sid8 1, entry_of (lit "older") Legacy (SockV4 (ipv4_new 1 1 1 1) 1000) (now - 100));
     (sid8 2, entry_of (lit "newer") Legacy (SockV4 (ipv4_new 2 2 2 2) 2000) now)] in
  match connections_of sessions ∅ with
  | [a; b] => str_eqb (sn_user_id a) (lit "newer") && str_eqb (sn_user_id b) (lit "older")
  | _ => false
  end.

Definition test_render_connections_json_escaping : bool :=
  let user := lit "user" ++ [34] ++ lit "with" ++ [92] ++ lit "special" ++ [10] ++ lit "chars" in
  let sessions := test_sessions [(sid8 1, entry_of user Legacy (SockV4 (ipv4_new 1 1 1 1) 1000) 1739790000)] in
  let payload := render_connections_payload sessions ∅ [] (map_to_list sessions).*1 1739790000 in
  occurs (lit "user\" ++ [34] ++ lit "with\\special\nchars") payload
  && match connections_of sessions ∅ with
     | [c] => got (json_unescape (escape_json (sn_user_id c) ++ [34])) (fun r => str_eqb r.1 user)
     | _ => false
     end.

Definition test_render_stats_includes_pool_exhausted_counter : bool :=
  is_num (get "pool_exhausted" (stats_document stats_new window_new)) 0.
Definition test_render_stats_pool_exhausted_reflects_counter_value : bool :=
  is_num (get "pool_exhausted" (stats_document (stats_new <| pool_exhausted := 17 |>) window_new)) 17.

Definition test_render_stats_includes_drop_reasons_and_config : bool :=
  let s := fold_left drop_in [Auth; Stats.ForbiddenDst; TcpDisabled; StaleQueue] stats_new in
  let parsed := stats_document (drop_out s TxQueue) window_new in
  let drops name := at_path ["drops"%string; name] parsed in
  all [is_num (get "dropped_in" parsed) 4; is_num (get "dropped_out" parsed) 1;
       is_num (drops "auth"%string) 1; is_num (drops "forbidden_dst"%string) 1;
       is_num (drops "tcp_disabled"%string) 1; is_num (drops "stale_queue"%string) 1;
       is_num (drops "tx_queue"%string) 1; is_text (at_path ["config"; "datapath"]%string parsed) "v2";
       match at_path ["config"; "version"]%string parsed with
       | Some (JStr v) => str_eqb v RELAY_VERSION
       | _ => false
       end].

Definition test_render_config_payload_includes_runtime_config : bool :=
  let parsed := render_config_payload test_runtime_config 1739790000 in
  all [is_text (at_path ["config"; "auth_mode"]%string parsed) "off";
       is_num (at_path ["config"; "v2"; "shard_count"]%string parsed) 1;
       is_num (at_path ["config"; "v2"; "main_socket_rcvbuf_effective"]%string parsed) 4194304].

(* ------------------------------------------------------------------ *)
(** ** Requests *)

(** A compact printer. *)
Fixpoint print_json (v : Json) : str :=
  match v with
  | JNull => lit "null"
  | JBool b => if b then lit "true" else lit "false"
  | JNum n => show_dec n
  | JStr s => [34] ++ escape_json s ++ [34]
  | JArr l => lit "[" ++ join_commas (List.map print_json l) ++ lit "]"
  | JObj l => lit "{" ++ join_commas (List.map (fun m => [34] ++ m.1 ++ [34; 58] ++ print_json m.2) l) ++ lit "}"
  end.

Definition test_bodies : Bodies :=
  MkBodies [] [] (print_json (stats_document stats_new window_new)) (empty_connections_payload 1739790000)
    (print_json (render_config_payload test_runtime_config 1739790000)).

(** [send_http_request]: the request in one piece, then the end of the
    stream; what comes back. *)
Definition send_http_request (request : list Z) : list Z :=
  match handle_stats_http_client (lit "test-token") test_bodies [AsyncOk request; AsyncOk []] with
  | Answered r => write_http_response r
  | _ => []
  end.
Definition CRLF : list Z := [13; 10].
Definition request (line : string) (auth : option string) : list Z :=
  lit line ++ CRLF ++ match auth with Some a => lit "Authorization: Bearer " ++ lit a ++ CRLF | None => [] end ++ CRLF.
Definition answers (r : list Z) (parts : list (list Z)) : bool :=
  forallb (fun part => occurs part (send_http_request r)) parts.

Definition test_http_get_stats_with_correct_token : bool :=
  answers (request "GET /v1/stats HTTP/1.1" (Some "test-token"%string))
    [lit "HTTP/1.1 200 OK"; lit "active_users"; lit "active_sessions"].
Definition test_http_get_connections_with_correct_token : bool :=
  answers (request "GET /v1/connections HTTP/1.1" (Some "test-token"%string))
    [lit "HTTP/1.1 200 OK"; lit "connections"].
Definition test_http_get_config_with_correct_token : bool :=
  answers (request "GET /v1/config HTTP/1.1" (Some "test-token"%string))
    [lit "HTTP/1.1 200 OK"; [34] ++ lit "datapath" ++ [34; 58; 34] ++ lit "v2" ++ [34];
     [34] ++ lit "main_socket_rcvbuf_effective" ++ [34; 58] ++ lit "4194304"].
Definition test_http_no_auth_header : bool :=
  answers (request "GET /v1/stats HTTP/1.1" None) [lit "HTTP/1.1 401 Unauthorized"].
Definition test_http_wrong_token : bool :=
  answers (request "GET /v1/stats HTTP/1.1" (Some "wrong-token"%string)) [lit "HTTP/1.1 401 Unauthorized"].
Definition test_http_post_method_not_allowed : bool :=
  answers (request "POST /v1/stats HTTP/1.1" (Some "test-token"%string)) [lit "HTTP/1.1 405 Method Not Allowed"].
Definition test_http_unknown_path : bool :=
  answers (request "GET /v1/unknown HTTP/1.1" (Some "test-token"%string)) [lit "HTTP/1.1 404 Not Found"].

Definition test_http_empty_request : bool :=
  match handle_stats_http_client (lit "test-token") test_bodies [AsyncOk []] with
  | Answered r => occurs (lit "400") (write_http_response r)
  | _ => true
  end.

Definition test_http_oversized_request : bool :=
  let head := lit "GET /v1/stats HTTP/1.1" ++ CRLF ++ lit "X-Padding: " in
  let padding := (MAX_HTTP_REQUEST_SIZE - length head - 2)%nat in
  let r := head ++ replicate padding 65 ++ CRLF in
  (length r =? MAX_HTTP_REQUEST_SIZE)%nat && answers r [lit "431"].

(* ------------------------------------------------------------------ *)
(** ** Poisoned locks *)

(** The payloads of the tests; what parsing the second one finds is looked
    for in the text. *)
Definition quoted (s : string) : str := [34] ++ lit s ++ [34].
Definition payload_1 : str :=
  lit "{" ++ quoted "timestamp" ++ lit ":1," ++ quoted "connections" ++ lit ":[]}".
Definition payload_9 : str :=
  lit "{" ++ quoted "timestamp" ++ lit ":9," ++ quoted "connections" ++ lit ":[" ++ quoted "seeded" ++ lit "]}".

Definition test_sample_stats_rates_recovers_from_poisoned_mutex : bool :=
  let rate_window := crash (fun w => w) (lock_new window_new) in
  is_poisoned rate_window && ((locked_sample_stats_rates rate_window 0 0 (secs 100)).2 ==? (0, 0)).

Definition test_render_stats_payload_does_not_panic_on_poisoned_mutex : bool :=
  let rate_window := crash (fun w => w) (lock_new window_new) in
  let parsed := (recovering (fun w => render_stats_payload stats_new test_runtime_config w 0 (secs 100) 1739790000)
                   rate_window).2 in
  is_poisoned rate_window && is_num (get "inbound_bps" parsed) 0 && is_num (get "outbound_bps" parsed) 0.

Definition test_store_connections_snapshot_recovers_from_poisoned_rwlock : bool :=
  let snapshot := crash (fun c => c) (lock_new (api_new 1739790000)) in
  let '(after, stored) := locked_store_connections_snapshot snapshot payload_1 in
  is_poisoned snapshot && stored && (locked_render_connections_snapshot_payload after ==? payload_1).

Definition test_render_connections_snapshot_payload_recovers_from_poisoned_rwlock : bool :=
  let snapshot := crash (fun c => (store_connections_snapshot c payload_9).1) (lock_new (api_new 1739790000)) in
  is_poisoned snapshot
  && occurs (quoted "timestamp" ++ lit ":9,") (locked_render_connections_snapshot_payload snapshot).

(** The unit tests of src/main.rs on the endpoint pass on the model. *)
Theorem http_tests_pass : all
  [test_render_stats_empty_sessions; test_render_stats_with_sessions_uses_atomic_counts;
   test_render_stats_uses_rolling_rate_window; test_render_connections_empty; test_render_connections_single;
   test_render_connections_sorted_by_last_activity_desc; test_render_connections_json_escaping;
   test_render_stats_includes_pool_exhausted_counter; test_render_stats_pool_exhausted_reflects_counter_value;
   test_render_stats_includes_drop_reasons_and_config; test_render_config_payload_includes_runtime_config;
   test_http_get_stats_with_correct_token; test_http_get_connections_with_correct_token;
   test_http_get_config_with_correct_token; test_http_no_auth_header; test_http_wrong_token;
   test_http_post_method_not_allowed; test_http_unknown_path; test_http_empty_request;
   test_http_oversized_request;
   test_sample_stats_rates_recovers_from_poisoned_mutex;
   test_render_stats_payload_does_not_panic_on_poisoned_mutex;
   test_store_connections_snapshot_recovers_from_poisoned_rwlock;
   test_render_connections_snapshot_payload_recovers_from_poisoned_rwlock] = true.
Proof. vm_compute. reflexivity. Qed.
