(* ===== verification/TestsTun.v ===== *)
(** * The unit tests of src/tcp_tun.rs *)

From Stdlib Require Import String.
From S2P Require Import Prelude Checksum Net Packet TunRewrite TunSession RustStr DestPolicy TestKit TestsPacket.
Open Scope test_scope.

(** The packets of the tests are outcomes: building them computes checksums. *)
Definition make_tcp_packet (src dst : Ipv4Addr) : outcome (list Z) :=
  let pkt := packet_of 44
    [(0, [0x45]); (2, to_be_bytes 2 44); (8, [64]); (9, [IPPROTO_TCP]); (12, octets src); (16, octets dst);
     (20, [0x30; 0x39]); (22, [0x00; 0x50]); (32, [0x50]); (40, [0xDE; 0xAD; 0xBE; 0xEF])] in
  let* pkt := recalculate_ip_checksum pkt in
  recalculate_tcp_checksum pkt.

Definition make_udp_packet (src dst : Ipv4Addr) (checksum : Z) : outcome (list Z) :=
  let payload := [0xAA; 0xBB; 0xCC; 0xDD] in
  let pkt := packet_of 32
    [(0, [0x45]); (2, to_be_bytes 2 32); (8, [64]); (9, [IPPROTO_UDP]); (12, octets src); (16, octets dst);
     (20, [0x30; 0x39]); (22, [0x00; 0x35]); (24, to_be_bytes 2 12); (26, to_be_bytes 2 checksum);
     (28, payload)] in
  let* pkt := recalculate_ip_checksum pkt in
  if checksum =? 0 then Ret pkt else recalculate_udp_checksum pkt.

Definition build_fragment (src dst : Ipv4Addr) (payload : list Z) (fragment_offset_blocks : Z)
  (more_fragments : bool) : outcome (list Z) :=
  let total_len := (20 + length payload)%nat in
  let fragment_bits := Z.lor (Z.land fragment_offset_blocks 0x1FFF) (if more_fragments then 0x2000 else 0) in
  recalculate_ip_checksum (packet_of total_len
    [(0, [0x45]); (2, to_be_bytes 2 (Z.of_nat total_len)); (4, [0x12; 0x34]); (6, to_be_bytes 2 fragment_bits);
     (8, [64]); (9, [IPPROTO_UDP]); (12, octets src); (16, octets dst); (20, payload)]).

Definition make_udp_fragment_pair (src dst : Ipv4Addr) : outcome (list Z * list Z) :=
  let payload := lit "fragmented-udp-checksum-path" in
  let udp_len := Z.of_nat (8 + length payload) in
  let datagram checksum :=
    to_be_bytes 2 0x3039 ++ to_be_bytes 2 0x0035 ++ to_be_bytes 2 udp_len ++ to_be_bytes 2 checksum ++ payload in
  let pseudo := octets src ++ octets dst ++ [0; IPPROTO_UDP] ++ to_be_bytes 2 udp_len in
  let checksum := calculate_ip_checksum (pseudo ++ datagram 0) in
  let checksum := if checksum =? 0 then 0xFFFF else checksum in
  let* first := build_fragment src dst (take 24 (datagram checksum)) 0 true in
  let* second := build_fragment src dst (drop 24 (datagram checksum)) 3 false in
  Ret (first, second).

Definition header_len (packet : list Z) : nat := (Z.to_nat (Z.land (packet !!! 0%nat) 0x0F) * 4)%nat.

Definition verify_ip_checksum (packet : list Z) : bool :=
  calculate_ip_checksum (take (header_len packet) packet) =? 0.
Definition verify_tcp_checksum (packet : list Z) : bool :=
  ran (recalculate_tcp_checksum packet) (fun clone =>
    be16_of clone (header_len packet + 16) =? be16_of packet (header_len packet + 16)).
Definition verify_udp_checksum (packet : list Z) : bool :=
  let ihl := header_len packet in
  if be16_of packet (ihl + 6) =? 0 then true
  else ran (recalculate_udp_checksum packet) (fun clone => be16_of clone (ihl + 6) =? be16_of packet (ihl + 6)).

Definition reassemble_udp_fragments (first second : list Z) : outcome (list Z) :=
  let packet := fold_left poke
    [(2, to_be_bytes 2 (Z.of_nat (20 + length first + length second - 40))); (6, to_be_bytes 2 0)] first in
  recalculate_ip_checksum (packet ++ drop 20 second).

Definition client : Ipv4Addr := ipv4_new 192 168 1 100.
Definition web : Ipv4Addr := ipv4_new 93 184 216 34.

Definition test_ip_checksum_round_trip : bool := ran (make_tcp_packet client web) verify_ip_checksum.
Definition test_tcp_checksum_round_trip : bool := ran (make_tcp_packet client web) verify_tcp_checksum.

Definition test_rewrite_src_preserves_checksums : bool :=
  let new_src := ipv4_new 10 200 42 7 in
  ran (let* pkt := make_tcp_packet client web in rewrite_src_ip pkt new_src) (fun pkt =>
    all [part pkt 12 16 ==? octets new_src; verify_ip_checksum pkt; verify_tcp_checksum pkt]).

Definition test_rewrite_dst_preserves_checksums : bool :=
  let new_dst := ipv4_new 10 0 0 1 in
  ran (let* pkt := make_tcp_packet client web in rewrite_dst_ip pkt new_dst) (fun pkt =>
    all [part pkt 16 20 ==? octets new_dst; verify_ip_checksum pkt; verify_tcp_checksum pkt]).

Definition test_rewrite_both_directions : bool :=
  let original_src := ipv4_new 172 16 0 50 in
  let original_dst := ipv4_new 1 2 3 4 in
  let tun_ip := ipv4_new 10 200 0xAA 0xBB in
  ran (let* pkt := make_tcp_packet original_src original_dst in rewrite_src_ip pkt tun_ip) (fun pkt =>
    all [part pkt 12 16 ==? octets tun_ip; part pkt 16 20 ==? octets original_dst;
         verify_ip_checksum pkt; verify_tcp_checksum pkt]
    && ran (rewrite_dst_ip pkt original_src) (fun pkt =>
         all [part pkt 12 16 ==? octets tun_ip; part pkt 16 20 ==? octets original_src;
              verify_ip_checksum pkt; verify_tcp_checksum pkt])).

Definition test_rewrite_udp_preserves_nonzero_checksum : bool :=
  ran (let* pkt := make_udp_packet client (ipv4_new 1 1 1 1) 0x1234 in
       let* pkt := rewrite_src_ip pkt (ipv4_new 10 200 42 7) in
       rewrite_dst_ip pkt (ipv4_new 10 0 0 1))
    (fun pkt => verify_ip_checksum pkt && verify_udp_checksum pkt).

Definition test_rewrite_udp_preserves_zero_checksum_mode : bool :=
  ran (let* pkt := make_udp_packet client (ipv4_new 1 1 1 1) 0 in rewrite_src_ip pkt (ipv4_new 10 200 42 7))
    (fun pkt => (be16_of pkt (header_len pkt + 6) =? 0) && verify_ip_checksum pkt).

Definition test_ipv4_fragment_detection : bool :=
  let src := ipv4_new 192 168 1 10 in
  let dst := ipv4_new 8 8 8 8 in
  let fragment pkt := ran (ipv4_is_fragment pkt) (fun b => b) in
  ran (make_udp_fragment_pair src dst) (fun '(first, tail) => fragment first && fragment tail)
  && ran (make_udp_packet src dst 0x1234) (fun pkt => ran (ipv4_is_fragment pkt) negb).

Definition test_rewrite_src_preserves_udp_fragment_payload_bytes : bool :=
  ran (make_udp_fragment_pair client (ipv4_new 1 1 1 1)) (fun '(before, _) =>
    ran (rewrite_src_ip before (ipv4_new 10 200 42 7)) (fun pkt =>
      all [part pkt 20 26 ==? part before 20 26; drop 28 pkt ==? drop 28 before; verify_ip_checksum pkt])).

Definition test_rewrite_dst_preserves_non_initial_udp_fragment_payload_bytes : bool :=
  ran (make_udp_fragment_pair client (ipv4_new 1 1 1 1)) (fun '(_, before) =>
    ran (rewrite_dst_ip before (ipv4_new 10 200 42 7)) (fun pkt =>
      (drop 20 pkt ==? drop 20 before) && verify_ip_checksum pkt)).

(** Both fragments rewritten, then put together again. *)
Definition rewritten_pair (rewrite : list Z -> Ipv4Addr -> outcome (list Z)) (ip : Ipv4Addr) : outcome (list Z) :=
  let* (first, second) := make_udp_fragment_pair client (ipv4_new 1 1 1 1) in
  let* first := rewrite first ip in
  let* second := rewrite second ip in
  reassemble_udp_fragments first second.

Definition test_rewrite_src_keeps_fragmented_udp_checksum_valid_after_reassembly : bool :=
  let new_src := ipv4_new 10 200 42 7 in
  ran (rewritten_pair rewrite_src_ip new_src) (fun reassembled =>
    all [part reassembled 12 16 ==? octets new_src; verify_ip_checksum reassembled;
         verify_udp_checksum reassembled]).
Definition test_rewrite_dst_keeps_fragmented_udp_checksum_valid_after_reassembly : bool :=
  let new_dst := ipv4_new 10 0 0 1 in
  ran (rewritten_pair rewrite_dst_ip new_dst) (fun reassembled =>
    all [part reassembled 16 20 ==? octets new_dst; verify_ip_checksum reassembled;
         verify_udp_checksum reassembled]).

(* ------------------------------------------------------------------ *)
(** ** Addresses *)

Definition test_mapping (session_id : list Z) : SessionMapping :=
  MkMapping session_id (SockV4 (ipv4_new 127 0 0 1) 1234) (ipv4_new 192 168 1 1).
Definition assigns (sid : list Z) (m : gmap Z SessionMapping) (ip : option Ipv4Addr) : bool :=
  ran (assign_session_ip sid m) (fun r => r ==? ip).

Definition test_assign_session_ip_basic : bool :=
  assigns [0x42; 0x07; 0xAA; 0xBB; 0xCC; 0xDD; 0xEE; 0xFF] ∅ (Some (ipv4_new 10 200 0x42 0x07)).

Definition test_assign_session_ip_collision : bool :=
  let sid1 := [0x2A; 0x07; 0x11; 0x22; 0x33; 0x44; 0x55; 0x66] in
  let ip1 := ipv4_new 10 200 0x2A 0x07 in
  assigns sid1 ∅ (Some ip1)
  && assigns [0x2A; 0x07; 0x77; 0x88; 0x99; 0xAA; 0xBB; 0xCC] (<[ip1 := test_mapping sid1]> ∅)
       (Some (ipv4_new 10 200 0x77 0x88)).

Definition test_assign_session_ip_skips_zero : bool :=
  assigns [0x00; 0x00; 0xAA; 0xBB; 0xCC; 0xDD; 0xEE; 0xFF] ∅ (Some (ipv4_new 10 200 0xAA 0xBB)).
Definition test_assign_session_ip_reserved_pairs_returns_none : bool :=
  assigns [0x00; 0x00; 0xFF; 0xFF; 0x00; 0x00; 0xFF; 0xFF] ∅ None.

Definition test_assign_session_ip_full_collision_returns_none : bool :=
  let sid := [0x2A; 0x07; 0x11; 0x22; 0x33; 0x44; 0x55; 0x66] in
  let other := <[7%nat := 0x67]> sid in
  let m := fold_left (fun m '(a, b) => <[ipv4_new 10 200 a b := test_mapping other]> m)
             [(0x2A, 0x07); (0x11, 0x22); (0x33, 0x44); (0x55, 0x66)] ∅ in
  assigns sid m None.

Definition test_runt_packet_ignored : bool :=
  ran (rewrite_src_ip [0x45; 0x00; 0x00; 0x14] (ipv4_new 10 0 0 1)) (fun pkt => (length pkt =? 4)%nat).

(** Every unit test of src/tcp_tun.rs passes on the model. *)
Theorem tun_tests_pass : all
  [test_ip_checksum_round_trip; test_tcp_checksum_round_trip; test_rewrite_src_preserves_checksums;
   test_rewrite_dst_preserves_checksums; test_rewrite_both_directions;
   test_rewrite_udp_preserves_nonzero_checksum; test_rewrite_udp_preserves_zero_checksum_mode;
   test_ipv4_fragment_detection; test_rewrite_src_preserves_udp_fragment_payload_bytes;
   test_rewrite_dst_preserves_non_initial_udp_fragment_payload_bytes;
   test_rewrite_src_keeps_fragmented_udp_checksum_valid_after_reassembly;
   test_rewrite_dst_keeps_fragmented_udp_checksum_valid_after_reassembly; test_assign_session_ip_basic;
   test_assign_session_ip_collision; test_assign_session_ip_skips_zero;
   test_assign_session_ip_reserved_pairs_returns_none; test_assign_session_ip_full_collision_returns_none;
   test_runt_packet_ignored] = true.
Proof. vm_compute. reflexivity. Qed.
