(* ===== verification/TestsV2.v ===== *)
(** * The unit tests of src/datapath_v2.rs

    The test that searches the source text for the names of the frame types
    has no counterpart here. *)

From Stdlib Require Import String.
From S2P Require Import Prelude Checksum Net Packet TunRewrite TunSession RustStr Tuning DestPolicy Stats Sessions RateLimit AccountBudget Auth Frames Handler V2State V2Rx V2Shard TestKit TestsPacket.
Open Scope test_scope.

#[local] Instance RelayDatapath_eq_dec : EqDecision RelayDatapath.
Proof. solve_decision. Defined.

Definition test_original_info : OriginalPacketInfo :=
  MkInfo 0 (ipv4_new 10 0 0 5) 54321 (ipv4_new 1 2 3 4) 12345.
Definition make_flow_key (sid port : Z) : FlowKey :=
  MkKey (sid :: replicate 7 0) (SockV4 (ipv4_new 127 0 0 1) port).

(* ------------------------------------------------------------------ *)
(** ** Queues and tuning *)

Definition now : Z := secs 1000.
Definition test_stale_data_queue_packet_is_dropped : bool :=
  should_drop_stale_queued_packet Data (now - MAX_DATA_QUEUE_AGE - millis 1) now.
Definition test_fresh_data_queue_packet_is_not_dropped : bool :=
  negb (should_drop_stale_queued_packet Data (now - MAX_DATA_QUEUE_AGE) now).
Definition test_stale_control_queue_packet_is_not_dropped : bool :=
  negb (should_drop_stale_queued_packet Control (now - MAX_DATA_QUEUE_AGE - millis 1) now).

Definition datapath_of (s : string) : RelayDatapath := parse_relay_datapath (Some (lit s)).
Definition test_get_relay_datapath_default_is_v2 : bool := parse_relay_datapath None ==? DatapathV2.
Definition test_get_relay_datapath_v1_literal : bool := datapath_of "v1" ==? DatapathV1.
Definition test_get_relay_datapath_tokio_alias : bool := datapath_of "tokio" ==? DatapathV1.
Definition test_get_relay_datapath_v2_aliases : bool :=
  (datapath_of "v2" ==? DatapathV2) && (datapath_of "sharded" ==? DatapathV2).
Definition test_get_relay_datapath_trims_and_ignores_case : bool :=
  (datapath_of "  V1  " ==? DatapathV1) && (datapath_of "Sharded" ==? DatapathV2).
Definition test_get_relay_datapath_unknown_value_falls_back_to_v2 : bool :=
  (datapath_of "nonsense" ==? DatapathV2) && (datapath_of "" ==? DatapathV2).

Definition test_clamp_usize_below_min : bool := clamp_usize 5 10 100 =? 10.
Definition test_clamp_usize_above_max : bool := clamp_usize 200 10 100 =? 100.
Definition test_clamp_usize_in_range : bool := clamp_usize 50 10 100 =? 50.
Definition test_clamp_usize_at_min_boundary : bool := clamp_usize 10 10 100 =? 10.
Definition test_clamp_usize_at_max_boundary : bool := clamp_usize 100 10 100 =? 100.

(* ------------------------------------------------------------------ *)
(** ** Shards *)

Definition shard_of (sid : list Z) (n : nat) (p : nat -> bool) : bool := ran (shard_for_session sid n) p.

Definition test_shard_for_session_deterministic : bool :=
  let sid := [0xAA; 0xBB; 0xCC; 0xDD; 0x11; 0x22; 0x33; 0x44] in
  shard_of sid 8 (fun a => shard_of sid 8 (fun b => (a =? b)%nat)).
Definition test_shard_for_session_different_ids : bool :=
  shard_of [1; 0; 0; 0; 0; 0; 0; 0] 256 (fun a =>
    shard_of [2; 0; 0; 0; 0; 0; 0; 0] 256 (fun b => negb (a =? b)%nat)).
Definition test_shard_for_session_single_shard : bool :=
  shard_of (replicate SESSION_ID_LEN 0xFF) 1 (fun s => (s =? 0)%nat).
Definition test_shard_for_session_distribution : bool :=
  let chosen := omap (fun i => match shard_for_session (to_be_bytes 8 (Z.of_nat i)) 8 with
                               | Ret s => Some s
                               | Panic => None
                               end) (seq 0 256) in
  (length chosen =? 256)%nat && forallb (fun s => bool_decide (s ∈ chosen)) (seq 0 8).
Definition test_shard_for_session_in_range : bool :=
  forallb (fun n => forallb (fun i => shard_of (to_be_bytes 8 (Z.of_nat i)) n (fun s => (s <? n)%nat)) (seq 0 64))
    [1; 2; 4; 7; 16; 255]%nat.

(* ------------------------------------------------------------------ *)
(** ** Writing a response in place *)

Definition headers : nat := (IP_HEADER_MIN + UDP_HEADER_SIZE)%nat.

Definition test_write_response_ip_packet_into_normal : bool :=
  let payload := lit "hello game" in
  let total := (headers + length payload)%nat in
  ran (write_response_ip_packet_into (replicate (total + 64) 0) payload
         (MkInfo 0xb8 (ipv4_new 10 0 0 5) 54321 (ipv4_new 1 2 3 4) 12345)) (fun '(buf, result) =>
    all [result ==? Some total; buf !!! 0%nat =? 0x45; buf !!! 1%nat =? 0xb8; buf !!! 9%nat =? 17;
         buf !!! 8%nat =? 64; part buf 12 16 ==? [1; 2; 3; 4]; part buf 16 20 ==? [10; 0; 0; 5];
         part buf headers (headers + length payload) ==? payload]).

Definition writes (n : nat) (payload : list Z) (expected : option nat) : bool :=
  ran (write_response_ip_packet_into (replicate n 0) payload test_original_info) (fun r => r.2 ==? expected).
Definition test_write_response_ip_packet_into_buffer_too_small : bool :=
  let payload := lit "hello game" in writes (headers + length payload - 1) payload None.
Definition test_write_response_ip_packet_into_zero_payload : bool := writes headers [] (Some headers).
Definition test_write_response_ip_packet_into_exact_buffer_size : bool :=
  let payload := lit "data" in writes (headers + length payload) payload (Some (headers + length payload)%nat).

Definition test_write_response_ip_packet_into_matches_build : bool :=
  let payload := lit "match test payload" in
  ran (build_response_ip_packet payload test_original_info) (fun expected =>
    ran (write_response_ip_packet_into (replicate (length expected + 32) 0) payload test_original_info)
      (fun '(buf, len) => got len (fun len => take len buf ==? expected))).

(* ------------------------------------------------------------------ *)
(** ** The session index *)

Definition index_of (flow : FlowKey) (addrs : list SocketAddr) : gmap (list Z) (list SocketAddr) :=
  <[k_session_id flow := addrs]> ∅.

Definition test_remove_flow_existing : bool :=
  let flow := make_flow_key 1 8000 in
  is_none (remove_flow_from_session_index (index_of flow [k_game_addr flow]) flow !! k_session_id flow).
Definition test_remove_flow_missing_session_is_noop : bool :=
  (size (remove_flow_from_session_index ∅ (make_flow_key 99 9999)) =? 0)%nat.
Definition test_remove_flow_missing_game_addr_is_noop : bool :=
  let flow := make_flow_key 1 8000 in
  let other_addr := SockV4 (ipv4_new 127 0 0 1) 9999 in
  remove_flow_from_session_index (index_of flow [other_addr]) flow !! k_session_id flow ==? Some [other_addr].
Definition test_remove_flow_last_flow_removes_session_entry : bool :=
  let flow := make_flow_key 1 5000 in
  (size (remove_flow_from_session_index (index_of flow [k_game_addr flow]) flow) =? 0)%nat.
Definition test_remove_flow_multiple_flows_same_session : bool :=
  let flow_a := make_flow_key 1 7000 in
  let addr_b := SockV4 (ipv4_new 127 0 0 1) 7001 in
  remove_flow_from_session_index (index_of flow_a [k_game_addr flow_a; addr_b]) flow_a
    !! k_session_id flow_a ==? Some [addr_b].

(* ------------------------------------------------------------------ *)
(** ** Tokens *)

Definition usize_max : Z := 2 ^ 64 - 1.
Definition test_allocate_flow_token_first_allocation : bool := (allocate_flow_token 1 ∅).2 ==? Some 1.
Definition test_allocate_flow_token_skips_zero : bool := (allocate_flow_token 0 ∅).2 ==? Some 1.
Definition test_allocate_flow_token_skips_occupied : bool :=
  (allocate_flow_token 1 (<[1 := make_flow_key 1 1000]> ∅)).2 ==? Some 2.
Definition test_allocate_flow_token_wraps_around : bool :=
  let '(next, token) := allocate_flow_token usize_max ∅ in
  (token ==? Some usize_max) && ((allocate_flow_token next ∅).2 ==? Some 1).

(** A hundred allocations; each token is entered into the map. *)
Definition test_allocate_flow_token_sequential_unique : bool :=
  let step (st : option (Z * gmap Z FlowKey * list Z)) (i : nat) :=
    st ≫= fun '(next, map, allocated) =>
      match allocate_flow_token next map with
      | (next, Some token) =>
          Some (next, <[token := make_flow_key (Z.of_nat i) (1000 + Z.of_nat i)]> map, token :: allocated)
      | (_, None) => None
      end in
  got (fold_left step (seq 0 100) (Some (1, ∅, []))) (fun '(_, _, allocated) =>
    (length allocated =? 100)%nat && bool_decide (NoDup allocated)).

Definition test_allocate_flow_token_full_cycle_returns_none : bool :=
  let map := <[1 := make_flow_key 1 1000]> (<[2 := make_flow_key 2 1001]> (<[3 := make_flow_key 3 1002]> ∅)) in
  (allocate_flow_token 1 map).2 ==? Some 4.

(* ------------------------------------------------------------------ *)
(** ** The buffer pool *)

(** [try_acquire] as often as asked; the indices, in order. *)
Fixpoint acquire_up_to (n : nat) (p : BufferPool) : BufferPool * list nat :=
  match n with
  | O => (p, [])
  | S n =>
      match try_acquire p with
      | (p, Some idx) => let '(p, l) := acquire_up_to n p in (p, idx :: l)
      | (p, None) => (p, [])
      end
  end.
Definition acquired : script BufferPool nat :=
  fun p => match try_acquire p with (p, Some idx) => Some (p, idx) | (_, None) => None end.
Definition exhausted : script BufferPool unit := observes (fun p => is_none (try_acquire p).2).
Definition drained (p : BufferPool) : BufferPool * list nat := acquire_up_to 1000 p.

Definition test_buffer_pool_new_creates_correct_slot_count : bool :=
  (length (drained (pool_new 16)).2 =? 16)%nat.
Definition test_buffer_pool_try_acquire_returns_indices : bool :=
  merge_sort le (acquire_up_to 4 (pool_new 4)).2 ==? [0; 1; 2; 3]%nat.
Definition test_buffer_pool_release_and_reacquire : bool :=
  passes (pool_new 2) (
    let@ a := acquired in
    let@ b := acquired in
    exhausted ;@
    change (fun p => release p a) ;@
    let@ c := acquired in
    ensure (c =? a)%nat ;@
    change (fun p => release p b) ;@
    change (fun p => release p c)).
Definition test_buffer_pool_exhaustion_returns_none : bool :=
  passes (pool_new 1) (let@ idx := acquired in exhausted).
Definition test_buffer_pool_acquire_all_then_release_all : bool :=
  passes (pool_new 32) (
    let@ acquired := call (acquire_up_to 32) in
    ensure (length acquired =? 32)%nat ;@
    exhausted ;@
    change (fun p => fold_left release acquired p) ;@
    let@ re_acquired := call drained in
    ensure (length re_acquired =? 32)%nat).
Definition test_buffer_pool_read_write : bool :=
  passes (pool_new 2) (
    let@ idx := acquired in
    invoke (fun p => let* buf := buffer p idx in
                     let* p := set_buffer p idx (poke buf (0, [0xDE; 0xAD; 0xBE; 0xEF])) in Ret (p, tt)) ;@
    observes (fun p => ran (buffer p idx) (fun buf => take 4 buf ==? [0xDE; 0xAD; 0xBE; 0xEF])) ;@
    change (fun p => release p idx)).

(** The unit tests of src/datapath_v2.rs pass on the model. *)
Theorem v2_tests_pass : all
  [test_stale_data_queue_packet_is_dropped; test_fresh_data_queue_packet_is_not_dropped;
   test_stale_control_queue_packet_is_not_dropped; test_get_relay_datapath_default_is_v2;
   test_get_relay_datapath_v1_literal; test_get_relay_datapath_tokio_alias; test_get_relay_datapath_v2_aliases;
   test_get_relay_datapath_trims_and_ignores_case; test_get_relay_datapath_unknown_value_falls_back_to_v2;
   test_clamp_usize_below_min; test_clamp_usize_above_max; test_clamp_usize_in_range;
   test_clamp_usize_at_min_boundary; test_clamp_usize_at_max_boundary; test_shard_for_session_deterministic;
   test_shard_for_session_different_ids; test_shard_for_session_single_shard;
   test_shard_for_session_distribution; test_shard_for_session_in_range;
   test_write_response_ip_packet_into_normal; test_write_response_ip_packet_into_buffer_too_small;
   test_write_response_ip_packet_into_zero_payload; test_write_response_ip_packet_into_exact_buffer_size;
   test_write_response_ip_packet_into_matches_build; test_remove_flow_existing;
   test_remove_flow_missing_session_is_noop; test_remove_flow_missing_game_addr_is_noop;
   test_remove_flow_last_flow_removes_session_entry; test_remove_flow_multiple_flows_same_session;
   test_allocate_flow_token_first_allocation; test_allocate_flow_token_skips_zero;
   test_allocate_flow_token_skips_occupied; test_allocate_flow_token_wraps_around;
   test_allocate_flow_token_sequential_unique; test_allocate_flow_token_full_cycle_returns_none;
   test_buffer_pool_new_creates_correct_slot_count; test_buffer_pool_try_acquire_returns_indices;
   test_buffer_pool_release_and_reacquire; test_buffer_pool_exhaustion_returns_none;
   test_buffer_pool_acquire_all_then_release_all; test_buffer_pool_read_write] = true.
Proof. vm_compute. reflexivity. Qed.
